(* ===== verification/_CoqProject ===== *)
-Q . S2P
Prelude.v
GoSem.v
Sha256.v
Hex.v
Packet.v
Files.v
Block.v
BlockProps.v
Automaton.v
Protocol.v
Secure.v
Channel.v
Proto.v
Session.v
SessionSystem.v
SecureSession.v
Transfer.v
TransferProps.v
Loop.v
SessionChannel.v
TransferSystem.v
TransferSession.v
SecureTransfer.v
Opening.v
OpenTransfer.v
TransferSafety.v
Relay.v
RelayServer.v
RelayServerProps.v
RelayClient.v
Network.v
Beacon.v
BeaconProps.v
Device.v
Handshake.v
LocalMessage.v
Local.v
LocalProps.v
RelayConn.v
LocalClient.v
LocalClientProps.v
LocalBroadcast.v
Commands.v
Program.v
Container.v
ContainerProps.v
Generate.v
TestTool.v
