(* ===== verification/Prelude.v ===== *)
(** * A verification of a peer-to-peer file transfer program

    The program (a Go module, sources under [src/]) sends files between devices.
    This library models the parts that carry its logic and proves what makes them
    correct; [Prelude.v] is its root and holds what all files share.

    ** The program and its parts

    - A device that sends a file splits it into checksummed blocks
      ([lib/session/transfer/block]) and speaks the transfer protocol with the
      receiving device ([lib/session/transfer]).
    - A protocol is described by tables of transitions for reading and writing
      messages.  [lib/automaton] compiles such tables, [lib/protocol] runs a
      compiled definition as a client, and [Loop.Run] of [lib/protocol/loop.go]
      drives a client over a channel with one reading and one writing goroutine.
    - Several protocols share one connection: a session ([lib/session/session.go])
      dispatches messages of numbered channels ([lib/session/channel.go]).
    - Below a session is an encrypted connection ([lib/secure/conn.go]), which cuts
      the byte stream into Noise messages of at most 65535 bytes.
    - Devices that cannot reach each other directly meet at a relay ([lib/relay]):
      a server that brings two clients together and then copies bytes between them.
    - Devices of one network find each other without a relay ([lib/local]): a
      request is broadcast ([lib/beacon], [lib/network]), the device whose key it
      names dials back, and a Noise handshake between their keys ([lib/device],
      [lib/secure/patterns.go]) makes the encrypted connection.
    - The commands [send], [receive] and [server] ([cmd]) put these parts together.
    - [lib/packet] frames messages by a two byte length, [lib/util/buffer] is an
      in-memory file.
    - Two tools belong to the repository: tests run in several containers at once,
      which [lib/util/container] synchronises and [test.go] starts, and
      [proto/generate.go] generates the code of the Protobuf messages.

    ** The files of the library

    - [Prelude]: tactics, lists indexed by integers, sequences of steps.
    - [GoSem]: the part of Go the program uses: outcomes of a call (a value, a
      panic, no return), a state monad whose state survives a panic, error values,
      64-bit integers, big-endian bytes, slices, [io.Reader], [io.Writer] and
      [io.ReadFull], byte streams with arbitrary segmentation.
    - [Sha256], [Hex]: SHA-256 and hexadecimal strings, executable.
    - [Packet]: [lib/packet/length.go] and [packet.go].
    - [Files]: seekable files, and the buffer of [lib/util/buffer/buffer.go].
    - [Block], [BlockProps]: [block.go], [reader.go] (module [Reader]) and
      [writer.go] (module [Writer]); what they do to a file.
    - [Automaton]: [state.go], [transition.go], [automaton.go].
    - [Protocol]: [protocol.go], [message.go], [definition.go], [client.go].
    - [Loop]: [loop.go], both goroutines as the step function [loop_step].
    - [Transfer], [TransferProps], [TransferSystem], [TransferSafety]:
      [transfer.go], [state.go], [sender.go] (module [Sender]) and [receiver.go]
      (module [Receiver]) with all handlers and tables; the lemmas about single
      transitions; two loops that are connected to each other; what each side does
      with a peer that does not follow the protocol.
    - [Secure], [Handshake]: [noiseConn] of [lib/secure/conn.go]; the pattern of
      [patterns.go] and what the Noise library promises of handshakes.
    - [Proto]: the wire format of Protobuf for flat messages, an instance of what
      the other files ask of an encoding.
    - [Channel]: [lib/session/channel.go].
    - [Session], [SessionSystem]: [lib/session/session.go], all goroutines as
      [session_step]; two sessions that are connected to each other.
    - [SecureSession]: two sessions on the two ends of an encrypted connection
      that carries bytes, and what such a connection lets two sessions do.
    - [SessionChannel], [TransferSession], [SecureTransfer]: the channel of two
      sessions as the connection of a loop; a transfer over it, with messages that
      are handed over one by one and over the encrypted connection.
    - [Opening]: [OpenChannel] and [AcceptChannel] of two sessions over the encrypted
      connection, by the stages of both calls.  [OpenTransfer]: the opening and the
      transfer as one system, each side starting its loop when its call returned.
    - [Relay]: messages of [lib/relay] ([protocol.go], the writing functions,
      [protocol_client_session.go]).
    - [RelayServer], [RelayServerProps]: [lib/relay/protocol_server.go], all
      goroutines and tables as [server_step], and what holds of its runs.
    - [RelayClient]: [lib/relay/protocol_client.go] as [client_step].
    - [RelayConn]: [lib/relay/client.go], the handshake over a relayed session,
      and [lib/relay/server.go].
    - [Network]: [lib/network].  [Device]: the keys and certificates of
      [lib/device].
    - [Beacon], [BeaconProps]: [lib/beacon/broadcast.go] as [beacon_step], and the
      stubs beside it.
    - [LocalMessage]: the messages of [lib/local] and the verification of requests;
      [Local], [LocalProps]: both sides of its handshake; [LocalClient],
      [LocalClientProps]: all goroutines of its client as [client_step];
      [LocalBroadcast]: the handler of outgoing broadcasts, up to the reader.
    - [Commands]: [cmd/base], [cmd/send], [cmd/receive], [cmd/server].
      [Program]: the commands [send] and [receive] together, from the handshake to
      the end of their sessions.
    - [Container], [ContainerProps]: [lib/util/container] as [container_step], and
      two containers that dial each other.  [TestTool]: [test.go].
    - [Generate]: [proto/generate.go] with the regular expression it uses.

    State is a record with the fields of the Go struct; code that runs in one
    goroutine is a function in the state monad of [GoSem]; code with several
    goroutines is a step function over a record of all of them, in which every
    program point at which a goroutine can be overtaken is a constructor and a send
    on an unbuffered channel is one step of both sides.  Definitions carry the
    names of the source.

    ** What the theorems show

    - Block files ([BlockProps]): a writer implements a write-once store of
      checksummed blocks; blocks written in any order give the file; a writer that
      is done after any blocks with the checksums of a file holds that file (or
      has seen a collision of SHA-256); a reader yields the blocks of its file in
      order and ends.  A receiver that confirms has a file of blocks that it
      received ([TransferSafety]).
    - Automata and protocols ([Automaton], [Protocol]): a table compiles exactly
      when it is well formed, a compiled client runs the transition of its state,
      and state changes stay within what a transition declares.
    - A whole transfer ([TransferSystem.transfer_correct]): for every interleaving
      of the goroutines of both sides the system ends after at most [8 n + 18]
      steps for a file of [n] blocks, without a panic or an error, with the
      receiver's file equal to the sender's.
    - The same over sessions ([TransferSession.transfer_over_sessions]): the loops
      use the channel of two sessions whose brokers and readers take steps of their
      own.  A step of this stack is a step of the system over queues or brings a
      message closer to its reader ([SessionChannel]), so the bound on the steps and
      the result carry over; two fresh sessions reach the state it starts from
      ([open_established]).  Over the whole stack
      ([SecureTransfer.transfer_over_secure_sessions]) the sessions use the two ends
      of an encrypted connection whose bytes arrive in segments: its executions are
      those of sessions that hand over messages and respect the connection, and the
      other way round ([SecureSession.secure_sessions_refine]), so that
      [SessionChannel] applies to
      both.  These executions include the end: each side calls [Close] once its loop
      has returned, while the other one may still be busy, and after at most
      [4 (8 n + 18) + 8] steps both loops and both calls have returned.
    - The program ([Program.local_send_receive], [Program.relay_send_receive]): the
      handshake of [send] and [receive], over the local network or over a relay,
      comes to connections on which their sessions open a channel, transfer the file
      and close, in every interleaving in which no broker is given a message that
      nobody waits for.  The opening alone takes at most 12 steps in every order
      ([Opening.channel_opens]); in one of them the code loses the request, because
      the broker takes it before [AcceptChannel] waits ([session_early_open_lost]).
      Data that is taken before the channel is registered is lost as well
      ([session_early_data_lost]).
    - Connections ([Packet], [Secure], [Channel], [Relay]): what is written is read
      back, whatever the segmentation; sizes fit the limits of the layer below.
    - Sessions ([Session], [SessionSystem]): every channel is a first-in first-out
      queue, data goes to the channel it names; from one end to the other a channel
      loses, repeats and reorders nothing ([session_end_to_end]).  What [Close]
      returns depends on who closes the connection first ([session_close_race]).
    - Relay ([RelayServerProps], [RelayClient]): the server never panics, the
      table of keys is the inverse of the table of sessions, only the target of a
      session can accept it; a request of a client gets the session it asked for.
    - Local connections ([LocalMessage], [LocalBroadcast], [LocalProps],
      [LocalClientProps]): which requests a device accepts; that a request reaches
      the broadcast networks and is read by the devices with the key only; that a
      handshake gives both devices connections to each other with matching
      ciphers; that a client panics only when a handshake does, and gives a
      connection to the one call it is for.  [RelayConn]: the same of the handshake over a relay.
    - Networks ([Network], [BeaconProps]): a broadcast address is the highest
      address of its network; a waiting reader of a beacon gets the next datagram.
    - Commands ([Commands]): the sender and the receiver that the commands start
      transfer every file that is not empty; when [send] ends well.
    - Tools ([ContainerProps], [Generate], [TestTool]): a wait that returned in one
      container has met a wait of the other ([container_sync]); which lines of a
      generated file are renamed, and how; the outputs of the containers in order.
    - A number of theorems state behaviour that the authors cannot want, on the
      code as it is: an index that is not checked, a lost error, a session that is
      never removed.  They are recorded as findings.

    ** Parameters, bounds and fuel

    - Protobuf encoding is a parameter ([Channel.ProtoMessage]); theorems that
      need more than the functions state what the documentation says of them
      ([ProtoRoundTrip], [ProtoDataSize]). The Noise cipher is the class
      [Secure.CipherState] with the law [NoiseCipher] (a pair of cipher states
      for [n] more messages; a transfer of [n] blocks takes fewer than [8 n +
      19]), its handshakes are the class [Handshake.NoiseHandshake] with
      [HandshakeLaws], the curve operations the class [Device.Ed25519], and
      certificates the class [Device.X509]. What sockets, interfaces and clocks
      answer are arguments of the operations or parts of the events of a step.
      Files and connections are the classes of [GoSem] and [Files]. Every law
      has a concrete instance.
    - [io.ReadFull] of [n] bytes has fuel [n + 1]: a reader that makes progress
      returns at least one byte per turn.  [rand.Int] is asked for a power of two, so
      that its first number is taken (fuel 1).  All other recursion is structural.
    - [make] fails beyond [2^48] bytes, the limit of the Go run time on 64-bit
      machines; indices and sizes wrap at 64 bits as in the source.

    ** What is not modelled

    Mutexes (each guarded call is one step), logging, the passing of time (a time
    limit may expire at any moment), TLS and the system calls of sockets, signals,
    and the names of functions that the container tool takes from the run time.  Of
    the generated Protobuf code only the fields and numbers of messages appear.
    In [SecureSession] the network below the encrypted connection neither loses
    bytes nor fails before a side closes the connection, and a length field arrives
    in one piece (otherwise [Read] fails, [Secure.secure_read_split_length]). *)

From Stdlib Require Export ZArith Lia.
From stdpp Require Export strings numbers gmap fin_maps list.

Local Open Scope Z_scope.

(** ** Proof automation shared by all components *)

(** [go] collects the rewriting equations that evaluate the effectful
    definitions; [golen] the ones about list lengths. *)
Create HintDb go.
Create Rewrite HintDb golen.

(** Destruct every conjunction and existential of the context. *)
Ltac destruct_ands :=
  repeat match goal with
  | H : _ ∧ _ |- _ => destruct H
  | H : ∃ _, _ |- _ => destruct H
  end.

(** Case on the scrutinee of a match or the condition of an if in the goal. *)
Ltac case_goal :=
  match goal with
  | |- context [match ?x with _ => _ end] => destruct x eqn:?
  end.

(** Turn boolean comparisons of the context into propositions. *)
Ltac zbool :=
  repeat match goal with
  | H : (_ =? _) = true |- _ => apply Z.eqb_eq in H
  | H : (_ =? _) = false |- _ => apply Z.eqb_neq in H
  | H : (_ <? _) = true |- _ => apply Z.ltb_lt in H
  | H : (_ <? _) = false |- _ => apply Z.ltb_ge in H
  | H : (_ <=? _) = true |- _ => apply Z.leb_le in H
  | H : (_ <=? _) = false |- _ => apply Z.leb_gt in H
  | H : (_ >=? _) = _ |- _ => rewrite Z.geb_leb in H
  | H : (_ >? _) = _ |- _ => rewrite Z.gtb_ltb in H
  | H : negb _ = true |- _ => apply negb_true_iff in H
  | H : negb _ = false |- _ => apply negb_false_iff in H
  | H : _ && _ = true |- _ => apply andb_true_iff in H; destruct H
  | H : _ || _ = false |- _ => apply orb_false_iff in H; destruct H
  end.

(** Decide a comparison that stands in the goal, by [lia]. *)
Ltac zcond :=
  repeat match goal with
  | |- context [?a =? ?b] =>
      first [ rewrite (proj2 (Z.eqb_eq a b)) by lia
            | rewrite (proj2 (Z.eqb_neq a b)) by lia ]
  | |- context [?a <? ?b] =>
      first [ rewrite (proj2 (Z.ltb_lt a b)) by lia
            | rewrite (proj2 (Z.ltb_ge a b)) by lia ]
  | |- context [?a <=? ?b] =>
      first [ rewrite (proj2 (Z.leb_le a b)) by lia
            | rewrite (proj2 (Z.leb_gt a b)) by lia ]
  end.

(** ** Integers *)

Lemma Z_div_bounds a b : 0 < b → b * (a / b) ≤ a < b * (a / b) + b.
Proof. intros. pose proof (Z.div_mod a b). pose proof (Z.mod_pos_bound a b). lia. Qed.

(** ** Lists indexed by [Z] *)

(** The length of a list as Go's [len] gives it. *)
Definition zlen {A} (l : list A) : Z := Z.of_nat (length l).

Lemma zlen_nonneg {A} (l : list A) : 0 ≤ zlen l.
Proof. unfold zlen; lia. Qed.

Lemma zlen_nil {A} : zlen (@nil A) = 0.
Proof. reflexivity. Qed.

Lemma zlen_cons {A} (x : A) l : zlen (x :: l) = 1 + zlen l.
Proof. unfold zlen; simpl length; lia. Qed.

Lemma zlen_app {A} (l k : list A) : zlen (l ++ k) = zlen l + zlen k.
Proof. unfold zlen; rewrite length_app; lia. Qed.

Lemma zlen_replicate {A} n (x : A) : zlen (replicate n x) = Z.of_nat n.
Proof. unfold zlen; by rewrite length_replicate. Qed.

Lemma zlen_take {A} n (l : list A) : zlen (take n l) = Z.min (Z.of_nat n) (zlen l).
Proof. unfold zlen; rewrite length_take; lia. Qed.

Lemma zlen_drop {A} n (l : list A) : zlen (drop n l) = Z.max 0 (zlen l - Z.of_nat n).
Proof. unfold zlen; rewrite length_drop; lia. Qed.

Lemma zlen_insert {A} n (x : A) (l : list A) : zlen (<[n:=x]> l) = zlen l.
Proof. unfold zlen; by rewrite length_insert. Qed.

Lemma zlen_zero_nil {A} (l : list A) : zlen l = 0 → l = [].
Proof. destruct l; [done|]. rewrite zlen_cons. pose proof (zlen_nonneg l). lia. Qed.

#[export] Hint Rewrite @zlen_nil @zlen_cons @zlen_app @zlen_replicate @zlen_take
  @zlen_drop @zlen_insert : golen.

(** Close a goal about lengths. *)
Ltac len :=
  autorewrite with golen in *;
  repeat match goal with
  | l : list ?A |- _ =>
      lazymatch goal with
      | _ : 0 ≤ zlen l |- _ => fail
      | _ => pose proof (zlen_nonneg l)
      end
  end; try lia.

(** [sub l i n] is the [n] elements of [l] that start at index [i]. *)
Definition sub {A} (l : list A) (i n : Z) : list A :=
  take (Z.to_nat n) (drop (Z.to_nat i) l).

(** [splice l i k] overwrites the elements of [l] from index [i] on by [k]. *)
Definition splice {A} (l : list A) (i : Z) (k : list A) : list A :=
  take (Z.to_nat i) l ++ k ++ drop (Z.to_nat i + length k) l.

Lemma zlen_sub {A} (l : list A) i n :
  0 ≤ i → 0 ≤ n → i + n ≤ zlen l → zlen (sub l i n) = n.
Proof. intros. unfold sub. len. Qed.

Lemma zlen_splice {A} (l : list A) i k :
  0 ≤ i → i + zlen k ≤ zlen l → zlen (splice l i k) = zlen l.
Proof. intros. unfold splice. len. unfold zlen in *. lia. Qed.

Lemma sub_full {A} (l : list A) : sub l 0 (zlen l) = l.
Proof. unfold sub, zlen. rewrite Nat2Z.id. simpl. by rewrite firstn_all. Qed.

Lemma sub_app_split {A} (l : list A) i n m :
  0 ≤ i → 0 ≤ n → 0 ≤ m → sub l i n ++ sub l (i + n) m = sub l i (n + m).
Proof.
  intros. unfold sub.
  rewrite (Z2Nat.inj_add n m), (Z2Nat.inj_add i n) by lia.
  rewrite <- drop_drop. set (k := drop (Z.to_nat i) l).
  by rewrite <- (take_take_drop k).
Qed.

Lemma sub_nil {A} (l : list A) i : sub l i 0 = [].
Proof. done. Qed.

(** Reading back a window that a splice has just written. *)
Lemma sub_splice_same {A} (l k : list A) i :
  0 ≤ i → i + zlen k ≤ zlen l → sub (splice l i k) i (zlen k) = k.
Proof.
  intros. unfold sub, splice, zlen in *. rewrite Nat2Z.id.
  rewrite drop_app_length' by (rewrite length_take; lia).
  by rewrite take_app_length.
Qed.

(** A splice leaves the windows before it and after it unchanged. *)
Lemma sub_splice_before {A} (l k : list A) i j n :
  0 ≤ j → 0 ≤ n → j + n ≤ i → i + zlen k ≤ zlen l →
  sub (splice l i k) j n = sub l j n.
Proof.
  intros. unfold sub, splice, zlen in *.
  rewrite drop_app_le by (rewrite length_take; lia).
  rewrite take_app_le by (rewrite length_drop, length_take; lia).
  rewrite skipn_firstn_comm, take_take. f_equal. lia.
Qed.

Lemma sub_splice_after {A} (l k : list A) i j n :
  0 ≤ i → i + zlen k ≤ j → i + zlen k ≤ zlen l →
  sub (splice l i k) j n = sub l j n.
Proof.
  intros. unfold sub, splice, zlen in *.
  rewrite app_assoc, drop_app_ge by (rewrite length_app, length_take; lia).
  rewrite drop_drop. f_equal. f_equal. rewrite length_app, length_take. lia.
Qed.

(** ** Association lists in iteration order *)

Lemma NoDup_fst_unique {K V} (l : list (K * V)) k v v' :
  NoDup l.*1 → (k, v) ∈ l → (k, v') ∈ l → v = v'.
Proof.
  induction l as [|[k0 v0] l IH]; simpl; [intros _ H; by apply not_elem_of_nil in H|].
  intros [Hn Hd]%NoDup_cons.
  intros [[=]|H1]%elem_of_cons [[=]|H2]%elem_of_cons; subst; auto.
  - exfalso. apply Hn. by apply (list_elem_of_fmap_2 fst _ _ H2).
  - exfalso. apply Hn. by apply (list_elem_of_fmap_2 fst _ _ H1).
Qed.

(** ** Sequences of steps *)

Section Steps.
Context {A : Type} (R : A → A → Prop).

(** [steps_n n a b]: [b] is reached from [a] in exactly [n] steps of [R]. *)
Inductive steps_n : nat → A → A → Prop :=
| steps_refl a : steps_n 0 a a
| steps_next n a b c : R a b → steps_n n b c → steps_n (S n) a c.

Lemma steps_n_r n a b c : steps_n n a b → R b c → steps_n (S n) a c.
Proof. induction 1; intros Hc; econstructor; eauto. constructor. Qed.

Definition reachable (a b : A) : Prop := ∃ n, steps_n n a b.

(** No step leaves the state. *)
Definition stuck (a : A) : Prop := ∀ b, ¬ R a b.

Lemma steps_n_invariant (P : A → Prop) :
  (∀ a b, P a → R a b → P b) → ∀ n a b, steps_n n a b → P a → P b.
Proof. intros HP n a b H. induction H; eauto. Qed.

(** An invariant that counts the steps. *)
Lemma steps_n_count (P : Z → A → Prop) :
  (∀ k a b, P k a → R a b → P (k + 1)%Z b) →
  ∀ n a b, steps_n n a b → ∀ k, P k a → P (k + Z.of_nat n)%Z b.
Proof.
  intros HP n a b H. induction H as [|n a b c Hab _ IH]; intros k Ha.
  - by rewrite Z.add_0_r.
  - replace (k + Z.of_nat (S n))%Z with (k + 1 + Z.of_nat n)%Z by lia. eauto.
Qed.
End Steps.
