(* ===== verification/GoSem.v ===== *)
(** * GoSem: the part of Go that the program uses

    Results of a Go call (a value, a panic, or no return at all), the state
    monad the stateful code is written in, error values, machine integers,
    byte order, slices that are made at run time, and the interfaces of
    package [io] with [io.ReadFull].  Every other file is written in these
    terms. *)

From Stdlib Require Import Strings.Byte.
From S2P Require Import Prelude.

Local Open Scope Z_scope.

Abbreviation byte := Init.Byte.byte.
Abbreviation bytes := (list Init.Byte.byte).

#[export] Instance byte_eq_dec : EqDecision byte := Byte.byte_eq_dec.

(** ** Error values

    A Go error variable is compared by identity ([err == io.EOF]), so it is
    represented by its package and name; [ErrText] is an error built in
    place by [errors.New] or [fmt.Errorf]; [ErrExternal] is an error value
    that comes from code outside the repository. *)
Inductive error : Type :=
| ErrVar (name text : string)
| ErrText (text : string)
| ErrExternal (code : Z).

#[export] Instance error_eq_dec : EqDecision error.
Proof. solve_decision. Defined.

(** The value [nil] of type [error] is [None]. *)
Abbreviation nil_error := (@None error).

(** [x == nil] *)
Definition is_nil {A} (o : option A) : bool := if o is None then true else false.

Definition EOF : error := ErrVar "io.EOF" "EOF".
Definition ErrUnexpectedEOF : error := ErrVar "io.ErrUnexpectedEOF" "unexpected EOF".
Definition net_ErrClosed : error :=
  ErrVar "net.ErrClosed" "use of closed network connection".

(** [err.Error()]; the text of an error of code outside the repository is
    given by that code. *)
Definition Error (external : string) (e : error) : string :=
  match e with
  | ErrVar _ text | ErrText text => text
  | ErrExternal _ => external
  end.

(** [strings.Contains(s, substr)] *)
Definition strings_Contains (s substr : string) : bool :=
  match String.index 0 substr s with Some _ => true | None => false end.

(** ** Panics *)
Inductive panic : Type :=
| PanicError (e : error)          (* panic(err) *)
| PanicString (s : string)        (* panic("...") *)
| PanicIndex                      (* index out of range *)
| PanicSlice                      (* slice bounds out of range *)
| PanicNil                        (* nil pointer dereference *)
| PanicDivide                     (* integer divide by zero *)
| PanicAssertion                  (* failed type assertion *)
| PanicMakeSlice                  (* makeslice: len out of range *)
| PanicClosed                     (* close of closed channel *)
| Fatal (s : string).             (* log.Fatal: the process exits *)

#[export] Instance panic_eq_dec : EqDecision panic.
Proof. solve_decision. Defined.

(** ** Outcomes and the state monad *)

(** What a call comes to: it returns, it panics, or it never returns. *)
Inductive outcome (A : Type) : Type :=
| Ret (a : A)
| Panic (p : panic)
| Hang.
Arguments Ret {A} _.
Arguments Panic {A} _.
Arguments Hang {A}.

#[export] Instance outcome_ret : MRet outcome := λ A a, Ret a.
#[export] Instance outcome_bind : MBind outcome := λ A B f m,
  match m with Ret a => f a | Panic p => Panic p | Hang => Hang end.

(** Stateful code over a store of type [S].  The store survives a panic, as
    the memory of a Go program does. *)
Definition M (S A : Type) : Type := S → outcome A * S.

#[export] Instance M_ret {S} : MRet (M S) := λ A a s, (Ret a, s).
#[export] Instance M_bind {S} : MBind (M S) := λ A B f m s,
  match m s with
  | (Ret a, s') => f a s'
  | (Panic p, s') => (Panic p, s')
  | (Hang, s') => (Hang, s')
  end.

Section MonadOps.
Context {S : Type}.

Definition get : M S S := λ s, (Ret s, s).
Definition gets {A} (f : S → A) : M S A := λ s, (Ret (f s), s).
Definition put (s : S) : M S unit := λ _, (Ret tt, s).
Definition modify (f : S → S) : M S unit := λ s, (Ret tt, f s).
Definition throw {A} (p : panic) : M S A := λ s, (Panic p, s).
Definition lift {A} (o : outcome A) : M S A := λ s, (o, s).

(** [for _, x := range l { f(x) }] *)
Fixpoint for_each {A} (l : list A) (f : A → M S unit) : M S unit :=
  match l with
  | [] => mret ()
  | x :: l => f x ;; for_each l f
  end.
End MonadOps.

(** The value and the store of a call that returned. *)
Definition returns {S A} (r : outcome A * S) (a : A) (s : S) : Prop := r = (Ret a, s).

(** ** Equations of the monad *)
Section MonadLaws.
Context {S A B : Type}.
Implicit Types (m : M S A) (k : A → M S B) (s : S).

Lemma bind_Ret m k s s' a : m s = (Ret a, s') → (m ≫= k) s = k a s'.
Proof. intros H. unfold mbind, M_bind. by rewrite H. Qed.

Lemma bind_Panic m k s s' p : m s = (Panic p, s') → (m ≫= k) s = (Panic p, s').
Proof. intros H. unfold mbind, M_bind. by rewrite H. Qed.

Lemma bind_mret (a : A) k s : (mret a ≫= k) s = k a s.
Proof. done. Qed.

Lemma bind_gets (f : S → A) k s : (gets f ≫= k) s = k (f s) s.
Proof. done. Qed.

Lemma bind_modify (f : S → S) (k : unit → M S B) s : (modify f ≫= k) s = k tt (f s).
Proof. done. Qed.

Lemma bind_throw p k s : (throw p ≫= k) s = (Panic p, s).
Proof. done. Qed.

(** A composed call that returned: its first part returned. *)
Lemma bind_Ret_inv m k s b s' :
  (m ≫= k) s = (Ret b, s') → ∃ a s1, m s = (Ret a, s1) ∧ k a s1 = (Ret b, s').
Proof. unfold mbind, M_bind. destruct (m s) as [[a| |] s1]; intros; simplify_eq; eauto. Qed.

Lemma bind_Ret_iff m k s b s' :
  (m ≫= k) s = (Ret b, s') ↔ ∃ a s1, m s = (Ret a, s1) ∧ k a s1 = (Ret b, s').
Proof.
  split; [apply bind_Ret_inv|]. intros (a & s1 & H1 & H2).
  by rewrite (bind_Ret _ _ _ _ _ H1).
Qed.
End MonadLaws.

Lemma seq_Ret_iff {S B} (m : M S unit) (k : M S B) s b s' :
  (m ;; k) s = (Ret b, s') ↔ ∃ s1, m s = (Ret (), s1) ∧ k s1 = (Ret b, s').
Proof.
  rewrite bind_Ret_iff. split.
  - intros ([] & s1 & ?). eauto.
  - intros (s1 & ?). eauto.
Qed.

Lemma for_each_app {S A} (l k : list A) (f : A → M S unit) s :
  for_each (l ++ k) f s = (for_each l f ;; for_each k f) s.
Proof.
  revert s. induction l as [|x l IH]; intros s; [done|].
  simpl. unfold mbind, M_bind. destruct (f x s) as [[[]| |] s']; [|done..].
  specialize (IH s'). unfold mbind, M_bind in IH. apply IH.
Qed.

Lemma for_each_fmap {S A B} (g : A → B) (l : list A) (f : B → M S unit) s :
  for_each (g <$> l) f s = for_each l (f ∘ g) s.
Proof.
  revert s. induction l as [|x l IH]; intros s; [done|].
  simpl. unfold mbind, M_bind. destruct (f (g x) s) as [[[]| |] s']; [apply IH|done..].
Qed.

(** ** Parts of a store *)

(** A field of a store: a Go pointer to a part of a larger object. *)
Record lens (S T : Type) : Type := Lens { lget : S → T; lset : T → S → S }.
Arguments Lens {S T} _ _.
Arguments lget {S T} _ _.
Arguments lset {S T} _ _ _.

Class LensLaws {S T} (l : lens S T) : Prop := {
  lget_lset t s : lget l (lset l t s) = t;
  lset_lget s : lset l (lget l s) s = s;
  lset_lset t t' s : lset l t (lset l t' s) = lset l t s
}.

(** Run code that works on a field. *)
Definition zoom {S T A} (l : lens S T) (m : M T A) : M S A := λ s,
  let '(r, t) := m (lget l s) in (r, lset l t s).

#[global] Arguments zoom : simpl never.

Lemma zoom_eq {S T A} (l : lens S T) (m : M T A) s r t :
  m (lget l s) = (r, t) → zoom l m s = (r, lset l t s).
Proof. intros H. unfold zoom. by rewrite H. Qed.

(** The first part of a pair. *)
Definition fst_lens {A B} : lens (A * B) A := Lens fst (λ a p, (a, p.2)).

Lemma zoom_fst {A B R} (m : M A R) (a a' : A) (b : B) r :
  m a = (r, a') → zoom fst_lens m (a, b) = (r, (a', b)).
Proof. intros H. by erewrite zoom_eq by exact H. Qed.

(** Call a method of a local variable [t]. *)
Definition call {S T A} (m : M T A) (t : T) : M S (A * T) := λ s,
  match m t with
  | (Ret a, t') => (Ret (a, t'), s)
  | (Panic p, _) => (Panic p, s)
  | (Hang, _) => (Hang, s)
  end.

Lemma call_eq {S T A} (m : M T A) t t' a (s : S) :
  m t = (Ret a, t') → call m t s = (Ret (a, t'), s).
Proof. intros H. unfold call. by rewrite H. Qed.

(** ** Early returns

    The body of a function that may return before its end: it comes to a value
    with which the body goes on, or to the function's result. *)
Definition body (S R A : Type) : Type := M S (A + R).

#[export] Instance body_ret {S R} : MRet (body S R) := λ A a s, (Ret (inl a), s).
#[export] Instance body_bind {S R} : MBind (body S R) := λ A B f m s,
  match m s with
  | (Ret (inl a), s') => f a s'
  | (Ret (inr r), s') => (Ret (inr r), s')
  | (Panic p, s') => (Panic p, s')
  | (Hang, s') => (Hang, s')
  end.

Section Body.
Context {S R : Type}.

(** A call in a body, [return r], and a body as a function. *)
Definition do_ {A} (m : M S A) : body S R A := λ s,
  match m s with
  | (Ret a, s') => (Ret (inl a), s')
  | (Panic p, s') => (Panic p, s')
  | (Hang, s') => (Hang, s')
  end.
Definition return_ {A} (r : R) : body S R A := λ s, (Ret (inr r), s).
Definition run_body (m : body S R R) : M S R := λ s,
  match m s with
  | (Ret (inl r), s') | (Ret (inr r), s') => (Ret r, s')
  | (Panic p, s') => (Panic p, s')
  | (Hang, s') => (Hang, s')
  end.

(** [if err != nil { return r(err) }] *)
Definition check (r : error → R) (err : option error) : body S R unit :=
  match err with Some e => return_ (r e) | None => mret () end.
(** [x, err := f(); if err != nil { return r(err) }] for a pure [f] *)
Definition unwrap {A} (r : error → R) (x : A + error) : body S R A :=
  match x with inl a => mret a | inr e => return_ (r e) end.

Lemma body_do {A B} (m : M S A) (k : A → body S R B) s s' a :
  m s = (Ret a, s') → (do_ m ≫= k) s = k a s'.
Proof. intros H. unfold mbind, body_bind, do_. by rewrite H. Qed.

Lemma body_check {B} r (k : unit → body S R B) s : (check r None ≫= k) s = k () s.
Proof. done. Qed.

Lemma body_unwrap {A B} r (x : A + error) a (k : A → body S R B) s :
  x = inl a → (unwrap r x ≫= k) s = k a s.
Proof. by intros ->. Qed.

Lemma run_body_inl (m : body S R R) s s' r : m s = (Ret (inl r), s') → run_body m s = (Ret r, s').
Proof. intros H. unfold run_body. by rewrite H. Qed.

Lemma run_body_inr (m : body S R R) s s' r : m s = (Ret (inr r), s') → run_body m s = (Ret r, s').
Proof. intros H. unfold run_body. by rewrite H. Qed.

Lemma body_check_err {A} r e (k : unit → body S R A) s :
  (check r (Some e) ≫= k) s = (Ret (inr (r e)), s).
Proof. done. Qed.
End Body.

(** What holds of the value a body goes on with, and of an early result. *)
Definition post {S R A} (m : body S R A) (QA : A → Prop) (QR : R → Prop) : Prop :=
  ∀ s, match (m s).1 with Ret (inl a) => QA a | Ret (inr r) => QR r | _ => True end.

Section Post.
Context {S R : Type} (QR : R → Prop).

Lemma post_bind {A B} (m : body S R A) (k : A → body S R B) QA QB :
  post m QA QR → (∀ a, QA a → post (k a) QB QR) → post (m ≫= k) QB QR.
Proof.
  intros Hm Hk s. specialize (Hm s). unfold mbind, body_bind.
  destruct (m s) as [[[a|r]| |] s']; simpl in *; [|done..]. by apply Hk.
Qed.

Lemma post_do {A} (m : M S A) : post (do_ m) (λ _, True) QR.
Proof. intros s. unfold do_. by destruct (m s) as [[]]. Qed.

Lemma post_ret {A} (a : A) (QA : A → Prop) : QA a → post (mret a : body S R A) QA QR.
Proof. by intros ? s. Qed.

Lemma post_return {A} (r : R) (QA : A → Prop) : QR r → post (return_ r : body S R A) QA QR.
Proof. by intros ? s. Qed.

Lemma post_check f err : (∀ e, QR (f e)) → post (check f err : body S R unit) (λ _, True) QR.
Proof. intros H s. by destruct err; simpl. Qed.

Lemma post_unwrap {A} f (x : A + error) : (∀ e, QR (f e)) → post (unwrap f x : body S R A) (λ _, True) QR.
Proof. intros H s. by destruct x; simpl. Qed.

Lemma post_run (m : body S R R) s r s' : post m QR QR → run_body m s = (Ret r, s') → QR r.
Proof.
  intros Hm. specialize (Hm s). unfold run_body.
  destruct (m s) as [[[a|x]| |] s1]; simpl in Hm; intros; simplify_eq; done.
Qed.
End Post.

#[global] Arguments do_ : simpl never.
#[global] Arguments run_body : simpl never.

(** ** Machine integers *)

Definition u16 (z : Z) : Z := z mod 2 ^ 16.
Definition u32 (z : Z) : Z := z mod 2 ^ 32.
Definition u64 (z : Z) : Z := z mod 2 ^ 64.
Definition i64 (z : Z) : Z := (z + 2 ^ 63) mod 2 ^ 64 - 2 ^ 63.
Definition max_i64 : Z := 2 ^ 63 - 1.

Lemma u64_small z : 0 ≤ z < 2 ^ 64 → u64 z = z.
Proof. apply Z.mod_small. Qed.
Lemma u64_range z : 0 ≤ u64 z < 2 ^ 64.
Proof. apply Z.mod_pos_bound. lia. Qed.
Lemma u16_small z : 0 ≤ z < 2 ^ 16 → u16 z = z.
Proof. apply Z.mod_small. Qed.
Lemma i64_small z : - 2 ^ 63 ≤ z < 2 ^ 63 → i64 z = z.
Proof. intros. unfold i64. rewrite Z.mod_small by lia. lia. Qed.

(** ** Bytes and big-endian integers ([encoding/binary.BigEndian]) *)

Definition byte_to_Z (b : byte) : Z := Z.of_N (Byte.to_N b).
Definition byte_of_Z (z : Z) : byte := default Byte.x00 (Byte.of_N (Z.to_N (z mod 256))).

Lemma byte_to_Z_range b : 0 ≤ byte_to_Z b < 256.
Proof. unfold byte_to_Z. pose proof (Byte.to_N_bounded b). lia. Qed.

Lemma byte_of_to_Z b : byte_of_Z (byte_to_Z b) = b.
Proof.
  unfold byte_of_Z. rewrite Z.mod_small by apply byte_to_Z_range.
  unfold byte_to_Z. by rewrite N2Z.id, Byte.of_to_N.
Qed.

Lemma byte_to_of_Z z : byte_to_Z (byte_of_Z z) = z mod 256.
Proof.
  unfold byte_of_Z, byte_to_Z.
  pose proof (Z.mod_pos_bound z 256 ltac:(lia)).
  destruct (Byte.of_N (Z.to_N (z mod 256))) eqn:E; simpl.
  - apply Byte.to_of_N in E. rewrite E. lia.
  - apply Byte.of_N_None_iff in E. lia.
Qed.

(** The [n] bytes of [z], most significant first. *)
Fixpoint be_bytes (n : nat) (z : Z) : bytes :=
  match n with
  | O => []
  | S n => byte_of_Z (Z.shiftr z (8 * Z.of_nat n)) :: be_bytes n z
  end.

(** The number that bytes stand for, most significant first. *)
Definition be_Z (l : bytes) : Z :=
  fold_left (λ acc b, Z.lor (Z.shiftl acc 8) (byte_to_Z b)) l 0.

Lemma length_be_bytes n z : length (be_bytes n z) = n.
Proof. induction n; simpl; auto. Qed.

Lemma zlen_be_bytes n z : zlen (be_bytes n z) = Z.of_nat n.
Proof. unfold zlen. by rewrite length_be_bytes. Qed.
#[export] Hint Rewrite zlen_be_bytes : golen.

Lemma lor_shiftl8 acc b : 0 ≤ b < 256 → Z.lor (Z.shiftl acc 8) b = acc * 256 + b.
Proof.
  intros. rewrite Z.shiftl_mul_pow2 by lia. change (2 ^ 8) with 256.
  rewrite <- Z.add_lor_land.
  replace (Z.land (acc * 256) b) with 0; [lia|].
  symmetry. apply Z.bits_inj'. intros i Hi. rewrite Z.land_spec, Z.bits_0.
  destruct (Z.lt_ge_cases i 8).
  - change 256 with (2 ^ 8). rewrite Z.mul_pow2_bits_low by lia. done.
  - rewrite <- (Z.mod_small b (2 ^ 8)) by lia.
    rewrite (Z.mod_pow2_bits_high b) by lia.
    apply andb_false_r.
Qed.

Lemma be_Z_snoc l b : be_Z (l ++ [b]) = be_Z l * 256 + byte_to_Z b.
Proof. unfold be_Z. rewrite fold_left_app. simpl. apply lor_shiftl8, byte_to_Z_range. Qed.

Lemma be_bytes_snoc n z : be_bytes (S n) z = be_bytes n (Z.shiftr z 8) ++ [byte_of_Z z].
Proof.
  revert z. induction n as [|n IH]; intros z; [done|].
  change (be_bytes (S (S n)) z) with
    (byte_of_Z (Z.shiftr z (8 * Z.of_nat (S n))) :: be_bytes (S n) z).
  rewrite IH. cbn [be_bytes app]. rewrite Z.shiftr_shiftr by lia.
  do 3 f_equal. lia.
Qed.

(** Encoding and decoding are inverse to each other up to the width. *)
Lemma be_Z_be_bytes n z : be_Z (be_bytes n z) = z mod 2 ^ (8 * Z.of_nat n).
Proof.
  revert z. induction n as [|n IH]; intros z; [simpl; by rewrite Z.mod_1_r|].
  rewrite be_bytes_snoc, be_Z_snoc, IH, byte_to_of_Z, Z.shiftr_div_pow2 by lia.
  replace (8 * Z.of_nat (S n)) with (8 + 8 * Z.of_nat n) by lia.
  rewrite Z.pow_add_r by lia. change (2 ^ 8) with 256.
  rewrite Z.rem_mul_r by lia. lia.
Qed.

Lemma be_bytes_be_Z l : be_bytes (length l) (be_Z l) = l.
Proof.
  induction l as [|b l IH] using rev_ind; [done|].
  rewrite length_app, Nat.add_comm. cbn [length Nat.add].
  rewrite be_bytes_snoc, be_Z_snoc, Z.shiftr_div_pow2 by lia. change (2 ^ 8) with 256.
  pose proof (byte_to_Z_range b).
  rewrite Z.div_add_l, Z.div_small, Z.add_0_r, IH by lia.
  f_equal. f_equal. rewrite <- (byte_of_to_Z b) at 2.
  unfold byte_of_Z. do 2 f_equal. f_equal.
  rewrite Z.add_comm, Z.mod_add by lia. done.
Qed.

Lemma be_Z_range l : 0 ≤ be_Z l < 2 ^ (8 * zlen l).
Proof.
  pose proof (be_Z_be_bytes (length l) (be_Z l)) as E. rewrite be_bytes_be_Z in E.
  rewrite E. apply Z.mod_pos_bound, Z.pow_pos_nonneg; unfold zlen; lia.
Qed.

(** ** Slices made at run time *)

(** [make([]T, n)] panics when the size in bytes exceeds the address space of
    a 64-bit process (the constant [maxAlloc] of the run time). *)
Definition max_alloc : Z := 2 ^ 48.

Definition make_slice {A} (zero : A) (elem_size n : Z) : outcome (list A) :=
  if (n <? 0) || (max_alloc <? n * elem_size) then Panic PanicMakeSlice
  else Ret (replicate (Z.to_nat n) zero).

Lemma make_slice_ok {A} (zero : A) n :
  0 ≤ n ≤ max_alloc → make_slice zero 1 n = Ret (replicate (Z.to_nat n) zero).
Proof. intros. unfold make_slice. rewrite Z.mul_1_r. by zcond. Qed.

(** [l[i]] *)
Definition index {A} (l : list A) (i : Z) : outcome A :=
  if i <? 0 then Panic PanicIndex
  else match l !! Z.to_nat i with Some x => Ret x | None => Panic PanicIndex end.

(** [l[i] = x] *)
Definition assign {A} (l : list A) (i : Z) (x : A) : outcome (list A) :=
  if (i <? 0) || (zlen l <=? i) then Panic PanicIndex else Ret (<[Z.to_nat i := x]> l).

(** [l[i:]] *)
Definition slice_from {A} (l : list A) (i : Z) : outcome (list A) :=
  if (i <? 0) || (zlen l <? i) then Panic PanicSlice else Ret (drop (Z.to_nat i) l).

Lemma index_Some {A} (l : list A) i x :
  0 ≤ i → l !! Z.to_nat i = Some x → index l i = Ret x.
Proof. intros. unfold index. zcond. by simplify_option_eq. Qed.

Lemma index_out {A} (l : list A) i : zlen l ≤ i → index l i = Panic PanicIndex.
Proof.
  intros. unfold index. case_goal; [done|].
  unfold zlen in *. by rewrite lookup_ge_None_2 by lia.
Qed.

Lemma assign_in {A} (l : list A) i x :
  0 ≤ i < zlen l → assign l i x = Ret (<[Z.to_nat i := x]> l).
Proof. intros. unfold assign. by zcond. Qed.

(** ** Interfaces of package [io]

    [Read n] is [Read(p)] with [len(p) = n]; the result holds the bytes that
    were stored in [p] (so the returned count is their number). *)
Class io_Reader (R : Type) : Type := io_Read : Z → M R (bytes * option error).
Class io_Writer (W : Type) : Type := io_Write : bytes → M W (Z * option error).
Class io_Closer (C : Type) : Type := io_Close : M C (option error).

Inductive whence : Type := SeekStart | SeekCurrent | SeekEnd.
Class io_Seeker (F : Type) : Type := io_Seek : Z → whence → M F (Z * option error).

Class ReadSeekCloser (F : Type) : Type := {
  rsc_reader :: io_Reader F;
  rsc_seeker :: io_Seeker F;
  rsc_closer :: io_Closer F
}.

Class WriteSeekCloser (F : Type) : Type := {
  wsc_writer :: io_Writer F;
  wsc_seeker :: io_Seeker F;
  wsc_closer :: io_Closer F
}.

Section ReadFull.
Context {R : Type} `{!io_Reader R}.

(** The loop of [io.ReadAtLeast(r, buf, min)] with [min = len(buf)]: [acc]
    holds the bytes read so far.  A reader that returns neither bytes nor
    an error may keep the loop going for ever, so the loop has fuel and
    comes to [Hang] when it is used up. *)
Fixpoint ReadAtLeast (fuel : nat) (min : Z) (acc : bytes) : M R (bytes * option error) :=
  match fuel with
  | O => lift Hang
  | S fuel =>
      if min <=? zlen acc then mret (acc, None)
      else
        '(chunk, err) ← io_Read (min - zlen acc);
        let acc := acc ++ chunk in
        match err with
        | None => ReadAtLeast fuel min acc
        | Some e =>
            if min <=? zlen acc then mret (acc, None)
            else if (0 <? zlen acc) && bool_decide (e = EOF)
            then mret (acc, Some ErrUnexpectedEOF)
            else mret (acc, Some e)
        end
  end.

(** [io.ReadFull(r, buf)] with [len(buf) = n].  Each turn of the loop of a
    reader that makes progress reads a byte, so [n + 1] turns are enough. *)
Definition ReadFull (n : Z) : M R (bytes * option error) :=
  ReadAtLeast (S (Z.to_nat n)) n [].
End ReadFull.

#[global] Arguments ReadFull : simpl never.

(** [buf] of length [n] after a read that stored [got]. *)
Definition filled (n : Z) (got : bytes) : bytes :=
  got ++ replicate (Z.to_nat (n - zlen got)) Byte.x00.

(** ** Byte streams

    What a client of [io.Reader] relies on when bytes arrive over a
    connection: a read of a non-empty buffer returns a non-empty prefix of
    what is pending, in order, and end of file once nothing is left.  How
    much a single read returns is not fixed. *)
Class StreamReader (R : Type) `{!io_Reader R} : Type := {
  pending : R → bytes → Prop;
  pending_read r d n :
    pending r d → 0 < n → d ≠ [] →
    ∃ chunk rest r' err,
      io_Read n r = (Ret (chunk, err), r') ∧ d = chunk ++ rest ∧
      0 < zlen chunk ≤ n ∧ pending r' rest ∧
      (err = None ∨ err = Some EOF ∧ rest = []);
  pending_eof r n :
    pending r [] → 0 < n →
    ∃ r', io_Read n r = (Ret ([], Some EOF), r') ∧ pending r' []
}.

(** What a client of [io.Writer] relies on: a write appends all bytes. *)
Class StreamWriter (W : Type) `{!io_Writer W} : Type := {
  written_to : W → bytes;
  written_write w p :
    ∃ w', io_Write p w = (Ret (zlen p, None), w') ∧ written_to w' = written_to w ++ p
}.

Section ReadFullStream.
Context {R : Type} `{StreamReader R}.

Lemma ReadAtLeast_pending fuel acc d1 d2 r n :
  pending r (d1 ++ d2) → zlen (acc ++ d1) = n → (length d1 < fuel)%nat →
  ∃ r', ReadAtLeast fuel n acc r = (Ret (acc ++ d1, None), r') ∧ pending r' d2.
Proof.
  revert acc d1 r. induction fuel as [|fuel IH]; intros acc d1 r Hp Hn Hf; [lia|].
  simpl. destruct (decide (d1 = [])) as [->|Hne].
  { rewrite app_nil_r in *. zcond. eauto. }
  assert (0 < zlen d1) by (destruct d1; [done|len]).
  rewrite zlen_app in Hn. rewrite (proj2 (Z.leb_gt n (zlen acc))) by lia.
  destruct (pending_read r (d1 ++ d2) (n - zlen acc))
    as (chunk & rest & r' & err & Hr & Hd & Hc & Hp' & Herr);
    [done | lia | by destruct d1 |].
  rewrite (bind_Ret _ _ _ _ _ Hr).
  assert (zlen chunk ≤ zlen d1) by lia.
  assert (∃ d1', d1 = chunk ++ d1' ∧ rest = d1' ++ d2) as (d1' & -> & ->).
  { exists (drop (length chunk) d1). unfold zlen in *. split.
    - rewrite <- (take_drop (length chunk) d1) at 1. f_equal.
      rewrite <- (take_app_le d1 d2) by lia. by rewrite Hd, take_app_length.
    - rewrite <- drop_app_le by lia. by rewrite Hd, drop_app_length. }
  autorewrite with golen in *. rewrite length_app in Hf.
  assert (0 < length chunk)%nat by (unfold zlen in *; lia).
  destruct Herr as [->|[-> Hnil]].
  - rewrite app_assoc. apply IH; [done | len | lia].
  - apply app_eq_nil in Hnil as [-> ->]. rewrite !app_nil_r. autorewrite with golen in *.
    zcond. eauto.
Qed.

(** [io.ReadFull] reads exactly the requested bytes off a stream. *)
Lemma ReadFull_pending r d1 d2 n :
  pending r (d1 ++ d2) → zlen d1 = n →
  ∃ r', ReadFull n r = (Ret (d1, None), r') ∧ pending r' d2.
Proof.
  intros Hp Hn. unfold ReadFull.
  apply (ReadAtLeast_pending _ [] d1 d2); [done | done | unfold zlen in *; lia].
Qed.

Lemma ReadAtLeast_short fuel acc d r n :
  pending r d → zlen (acc ++ d) < n → (length d < fuel)%nat →
  ∃ r', ReadAtLeast fuel n acc r =
    (Ret (acc ++ d, Some (if decide (acc ++ d = []) then EOF else ErrUnexpectedEOF)), r').
Proof.
  revert acc d r. induction fuel as [|fuel IH]; intros acc d r Hp Hn Hf; [lia|].
  simpl. rewrite zlen_app in Hn. pose proof (zlen_nonneg d).
  rewrite (proj2 (Z.leb_gt n (zlen acc))) by lia.
  destruct (decide (d = [])) as [->|Hne].
  - destruct (pending_eof r (n - zlen acc)) as (r' & Hr & _); [done|lia|].
    rewrite (bind_Ret _ _ _ _ _ Hr). rewrite app_nil_r. autorewrite with golen in *.
    zcond. rewrite bool_decide_eq_true_2, andb_true_r by done.
    exists r'. case_decide as He; destruct acc as [|b acc]; simplify_eq; [done|].
    rewrite zlen_cons. pose proof (zlen_nonneg acc). by zcond.
  - destruct (pending_read r d (n - zlen acc))
      as (chunk & rest & r' & err & Hr & -> & Hc & Hp' & Herr); [done | lia | done |].
    rewrite (bind_Ret _ _ _ _ _ Hr).
    autorewrite with golen in *. rewrite length_app in Hf.
    assert (0 < length chunk)%nat by (unfold zlen in *; lia).
    destruct Herr as [->|[-> ->]].
    + rewrite app_assoc. apply IH; [done | len | lia].
    + rewrite app_nil_r. autorewrite with golen in *.
      rewrite (proj2 (Z.leb_gt n (zlen acc + zlen chunk))) by lia.
      rewrite (proj2 (Z.ltb_lt 0 (zlen acc + zlen chunk))) by len.
      rewrite bool_decide_eq_true_2 by done. exists r'. simpl.
      case_decide as He; [|done]. apply app_eq_nil in He as [-> ->]. done.
Qed.

(** A stream that ends early: [io.EOF] if nothing was read, else
    [io.ErrUnexpectedEOF]. *)
Lemma ReadFull_short r d n :
  pending r d → zlen d < n →
  ∃ r', ReadFull n r =
    (Ret (d, Some (if decide (d = []) then EOF else ErrUnexpectedEOF)), r').
Proof.
  intros Hp Hn. unfold ReadFull.
  apply (ReadAtLeast_short _ [] d); [done | done | unfold zlen in *; lia].
Qed.
End ReadFullStream.

(** *** Instances: [bytes.Buffer] as a sink, a connection as a list of chunks *)

#[export] Instance buffer_io_Writer : io_Writer bytes := λ p w, (Ret (zlen p, None), w ++ p).

#[export] Program Instance buffer_StreamWriter : StreamWriter bytes := {| written_to w := w |}.
Next Obligation. intros w p. by eexists. Qed.

(** A connection on which the bytes arrive in the given segments. *)
Record segments : Type := Segments { segs : list bytes }.

#[export] Instance segments_io_Reader : io_Reader segments := λ n r,
  match segs r with
  | [] => (Ret ([], Some EOF), r)
  | s :: l =>
      let rest := drop (Z.to_nat n) s in
      (Ret (take (Z.to_nat n) s, None), Segments (if rest is [] then l else rest :: l))
  end.

#[export] Program Instance segments_StreamReader : StreamReader segments :=
  {| pending r d := Forall (λ s, s ≠ []) (segs r) ∧ d = concat (segs r) |}.
Next Obligation.
  intros [[|s l]] d n [Hf ->] Hn Hd; [done|]. apply Forall_cons in Hf as [Hs Hf].
  simpl. eexists _, (drop (Z.to_nat n) s ++ concat l), _, None. split; [done|].
  split; [by rewrite app_assoc, take_drop|]. split.
  { rewrite zlen_take. destruct s; [done|]. rewrite zlen_cons. pose proof (zlen_nonneg s). lia. }
  split; [|by left]. destruct (drop (Z.to_nat n) s) eqn:E; simpl; [done|].
  split; [|done]. by constructor.
Qed.
Next Obligation.
  intros [[|s l]] n [Hf Hd] Hn; [by eexists|].
  apply Forall_cons in Hf as [Hs _]. simpl in Hd. destruct s; done.
Qed.
