(* ===== verification/Sha256.v ===== *)
(** * Sha256: the hash functions of Go's standard library

    [crypto/sha256] (FIPS 180-4) and [crypto/hmac] (RFC 2104) on byte strings,
    executable.  The block checksums of the transfer protocol and the request
    authentication of the local client are computed with them. *)

From S2P Require Import Prelude GoSem.

Local Open Scope Z_scope.

Section Words.
Implicit Types x y z : Z.

Definition add32 x y : Z := (x + y) mod 2 ^ 32.
Definition not32 x : Z := 2 ^ 32 - 1 - x.
Definition rotr32 x (n : Z) : Z :=
  Z.lor (Z.shiftr x n) (Z.land (Z.shiftl x (32 - n)) (2 ^ 32 - 1)).

Definition ch x y z : Z := Z.lxor (Z.land x y) (Z.land (not32 x) z).
Definition maj x y z : Z := Z.lxor (Z.lxor (Z.land x y) (Z.land x z)) (Z.land y z).
Definition big_sigma0 x : Z := Z.lxor (Z.lxor (rotr32 x 2) (rotr32 x 13)) (rotr32 x 22).
Definition big_sigma1 x : Z := Z.lxor (Z.lxor (rotr32 x 6) (rotr32 x 11)) (rotr32 x 25).
Definition sigma0 x : Z := Z.lxor (Z.lxor (rotr32 x 7) (rotr32 x 18)) (Z.shiftr x 3).
Definition sigma1 x : Z := Z.lxor (Z.lxor (rotr32 x 17) (rotr32 x 19)) (Z.shiftr x 10).
End Words.

(** ** Constants

    The standard takes them from the fractional parts of the square roots and
    the cube roots of the first primes; they are computed here that way. *)

(** No number of [2 .. k] divides [n]. *)
Fixpoint no_divisor (n : Z) (k : nat) : bool :=
  match k with
  | O | 1%nat => true
  | S k' => negb (n mod Z.of_nat k =? 0) && no_divisor n k'
  end.

(** The first primes below [2 + k]. *)
Definition primes (k : nat) : list Z :=
  filter (λ n, no_divisor n (Z.to_nat (n - 1)) = true) (seqZ 2 (Z.of_nat k)).

(** The bits of the integer cube root of [n], from bit [k] downwards. *)
Fixpoint cube_root (n : Z) (k : nat) (acc : Z) : Z :=
  let acc' := acc + 2 ^ Z.of_nat k in
  let acc := if acc' * acc' * acc' <=? n then acc' else acc in
  match k with O => acc | S k => cube_root n k acc end.

Definition round_constants : list Z := Eval vm_compute in
  (λ p, cube_root (p * 2 ^ 96) 40 0 mod 2 ^ 32) <$> take 64 (primes 320).

Definition initial_hash : list Z := Eval vm_compute in
  (λ p, Z.sqrt (p * 2 ^ 64) mod 2 ^ 32) <$> take 8 (primes 320).

(** ** Padding and message schedule *)

(** A one bit, zeros up to 56 bytes modulo 64, and the length in bits. *)
Definition pad (m : bytes) : bytes :=
  m ++ Byte.x80 :: replicate (Z.to_nat ((55 - zlen m) mod 64)) Byte.x00
    ++ be_bytes 8 (8 * zlen m).

Fixpoint chunks_of {A} (fuel : nat) (n : nat) (l : list A) : list (list A) :=
  match fuel, l with
  | O, _ | _, [] => []
  | S fuel, l => take n l :: chunks_of fuel n (drop n l)
  end.

Definition chunks {A} (n : nat) (l : list A) : list (list A) := chunks_of (length l) n l.

(** [w] is the schedule so far, newest word first. *)
Fixpoint extend (n : nat) (w : list Z) : list Z :=
  match n with
  | O => w
  | S n =>
      let word := add32 (add32 (sigma1 (nth 1 w 0)) (nth 6 w 0))
                        (add32 (sigma0 (nth 14 w 0)) (nth 15 w 0)) in
      extend n (word :: w)
  end.

Definition schedule (block : bytes) : list Z :=
  rev (extend 48 (rev (be_Z <$> chunks 4 block))).

(** ** Compression *)

Definition round (v : list Z) (kw : Z * Z) : list Z :=
  match v with
  | [a; b; c; d; e; f; g; h] =>
      let t1 := add32 (add32 h (big_sigma1 e)) (add32 (ch e f g) (add32 kw.1 kw.2)) in
      let t2 := add32 (big_sigma0 a) (maj a b c) in
      [add32 t1 t2; a; b; c; add32 d t1; e; f; g]
  | _ => v
  end.

Definition compress (h : list Z) (block : bytes) : list Z :=
  zip_with add32 h (fold_left round (zip round_constants (schedule block)) h).

(** [sha256.New(); Write(m); Sum(nil)] *)
Definition sha256 (m : bytes) : bytes :=
  fold_left compress (chunks 64 (pad m)) initial_hash ≫= be_bytes 4.

Lemma length_round v kw : length (round v kw) = length v.
Proof. unfold round. repeat case_match; done. Qed.

Lemma length_compress h block : length (compress h block) = length h.
Proof.
  unfold compress. rewrite length_zip_with.
  assert (∀ l v, length (fold_left round l v) = length v) as ->; [|lia].
  induction l as [|kw l IH]; intros v; [done|]. simpl. by rewrite IH, length_round.
Qed.

Lemma zlen_sha256 m : zlen (sha256 m) = 32.
Proof.
  unfold sha256.
  assert (∀ bs h, length (fold_left compress bs h) = length h) as Hl.
  { induction bs as [|b bs IH]; intros h; [done|]. simpl. by rewrite IH, length_compress. }
  specialize (Hl (chunks 64 (pad m)) initial_hash).
  assert (∀ l, length (l ≫= be_bytes 4) = 4 * length l)%nat as Hb.
  { induction l as [|z l IH]; [done|]. rewrite bind_cons, length_app, length_be_bytes, IH.
    simpl. lia. }
  unfold zlen. rewrite Hb, Hl. done.
Qed.
#[export] Hint Rewrite zlen_sha256 : golen.

(** ** HMAC *)

Definition hmac_block_key (key : bytes) : bytes :=
  let key := if 64 <? zlen key then sha256 key else key in
  key ++ replicate (64 - length key) Byte.x00.

Definition xor_bytes (z : Z) (l : bytes) : bytes :=
  (λ b, byte_of_Z (Z.lxor z (byte_to_Z b))) <$> l.

(** [hmac.New(sha256.New, key); Write(m); Sum(nil)] *)
Definition hmac_sha256 (key m : bytes) : bytes :=
  let k := hmac_block_key key in
  sha256 (xor_bytes 0x5c k ++ sha256 (xor_bytes 0x36 k ++ m)).

(** ** Published test vectors *)

Example sha256_empty :
  be_Z (sha256 []) = 0xe3b0c44298fc1c149afbf4c8996fb92427ae41e4649b934ca495991b7852b855.
Proof. vm_compute. reflexivity. Qed.

Example sha256_abc :
  be_Z (sha256 (String.list_byte_of_string "abc"))
  = 0xba7816bf8f01cfea414140de5dae2223b00361a396177a9cb410ff61f20015ad.
Proof. vm_compute. reflexivity. Qed.

Example hmac_sha256_rfc4231_2 :
  be_Z (hmac_sha256 (String.list_byte_of_string "Jefe")
                    (String.list_byte_of_string "what do ya want for nothing?"))
  = 0x5bdcc146bf60754e6a042426089575c75a003f089d2739839dec58b964ec3843.
Proof. vm_compute. reflexivity. Qed.
