(* ===== verification/Hex.v ===== *)
(** * Hex: [hex.EncodeToString] of the Go library

    The relay uses the hexadecimal form of identities and keys as map keys: it
    is injective and turns concatenation into concatenation. *)

From Stdlib Require Import Ascii.
From S2P Require Import Prelude GoSem.

Local Open Scope Z_scope.

(** [hex.EncodeToString] *)
Definition hex_digit (z : Z) : ascii :=
  Ascii.ascii_of_N (Z.to_N (if z <? 10 then 48 + z else 87 + z)).

Fixpoint EncodeToString (l : bytes) : string :=
  match l with
  | [] => EmptyString
  | b :: l =>
      String (hex_digit (byte_to_Z b / 16)) (String (hex_digit (byte_to_Z b mod 16)) (EncodeToString l))
  end.

Lemma N_of_hex_digit z :
  0 ≤ z < 16 → N_of_ascii (hex_digit z) = Z.to_N (if z <? 10 then 48 + z else 87 + z).
Proof.
  intros. unfold hex_digit. apply N_ascii_embedding. destruct (z <? 10) eqn:?; zbool; lia.
Qed.

Lemma hex_digit_inj z z' : 0 ≤ z < 16 → 0 ≤ z' < 16 → hex_digit z = hex_digit z' → z = z'.
Proof.
  intros H H' E. apply (f_equal N_of_ascii) in E. rewrite !N_of_hex_digit in E by done.
  destruct (z <? 10) eqn:?, (z' <? 10) eqn:?; zbool; lia.
Qed.

#[export] Instance EncodeToString_inj : Inj (=) (=) EncodeToString.
Proof.
  intros l. induction l as [|b l IH]; intros [|b' l']; simpl; [done..|].
  pose proof (byte_to_Z_range b). pose proof (byte_to_Z_range b').
  intros [= H1 H2 H3]. f_equal; [|auto].
  apply hex_digit_inj in H1; [|split; [apply Z.div_pos|apply Z.div_lt_upper_bound]; lia..].
  apply hex_digit_inj in H2; [|apply Z.mod_pos_bound; lia..].
  rewrite <- (byte_of_to_Z b), <- (byte_of_to_Z b'). f_equal.
  rewrite (Z.div_mod (byte_to_Z b) 16), (Z.div_mod (byte_to_Z b') 16) by lia. congruence.
Qed.

Lemma EncodeToString_app l k : EncodeToString (l ++ k) = EncodeToString l +:+ EncodeToString k.
Proof. induction l as [|b l IH]; simpl; by rewrite ?IH. Qed.

(** [hex.DecodeString]: the bytes decoded so far and an error. *)
Definition hex_ErrLength : error := ErrVar "hex.ErrLength" "encoding/hex: odd length hex string".
Definition InvalidByteError (c : ascii) : error := ErrText "encoding/hex: invalid byte".

Definition fromHexChar (c : ascii) : option Z :=
  let z := Z.of_N (N_of_ascii c) in
  if (48 <=? z) && (z <=? 57) then Some (z - 48)
  else if (97 <=? z) && (z <=? 102) then Some (z - 87)
  else if (65 <=? z) && (z <=? 70) then Some (z - 55)
  else None.

Fixpoint DecodeString (s : string) : bytes * option error :=
  match s with
  | EmptyString => ([], None)
  | String p EmptyString =>
      if is_nil (fromHexChar p) then ([], Some (InvalidByteError p)) else ([], Some hex_ErrLength)
  | String p (String q s) =>
      match fromHexChar p, fromHexChar q with
      | None, _ => ([], Some (InvalidByteError p))
      | _, None => ([], Some (InvalidByteError q))
      | Some a, Some b =>
          let '(l, err) := DecodeString s in (byte_of_Z (a * 16 + b) :: l, err)
      end
  end.

Lemma fromHexChar_digit z : 0 ≤ z < 16 → fromHexChar (hex_digit z) = Some z.
Proof.
  intros Hz. unfold fromHexChar. rewrite N_of_hex_digit by done.
  destruct (z <? 10) eqn:E; zbool; rewrite Z2N.id by lia.
  - rewrite (proj2 (Z.leb_le 48 (48 + z))), (proj2 (Z.leb_le (48 + z) 57)) by lia. simpl. f_equal. lia.
  - rewrite (proj2 (Z.leb_gt (87 + z) 57)), andb_false_r by lia.
    rewrite (proj2 (Z.leb_le 97 (87 + z))), (proj2 (Z.leb_le (87 + z) 102)) by lia. simpl. f_equal. lia.
Qed.

Lemma DecodeString_Encode l : DecodeString (EncodeToString l) = (l, None).
Proof.
  induction l as [|b l IH]; [done|]. cbn [EncodeToString DecodeString].
  pose proof (byte_to_Z_range b).
  rewrite !fromHexChar_digit by (first [apply Z.mod_pos_bound; lia
    |split; [apply Z.div_pos|apply Z.div_lt_upper_bound]; lia]).
  rewrite IH. f_equal. f_equal. rewrite Z.mul_comm, <- Z.div_mod by lia. apply byte_of_to_Z.
Qed.
