(* ===== verification/Packet.v ===== *)
(** * Packet: length-prefixed packets ([lib/packet])

    [length.go] and [packet.go]: the 16-bit big-endian length header, the
    writing of packets and packet sequences to an [io.Writer], and the
    decoding of a packet from a byte slice or from an [io.Reader]. *)

From S2P Require Import Prelude GoSem.

Local Open Scope Z_scope.

(** ** [length.go] *)

(** [Length] is a [uint16]. *)
Abbreviation Length := Z.

Definition LengthSize : Z := 2.
Definition MaxLength : Z := Z.shiftl 1 (Z.shiftl LengthSize 3) - 1.

Definition LengthOf (data : bytes) : Length * option error :=
  if zlen data >? MaxLength then (0, Some (ErrText "the data may not exceed 65535 bytes"))
  else (u16 (zlen data), None).

Definition DecodeLength (raw : bytes) : Length * option error :=
  if negb (zlen raw =? LengthSize)
  then (0, Some (ErrText "a length field must be 2 bytes long"))
  else (be_Z raw, None).

Definition Length_Bytes (l : Length) : bytes := be_bytes 2 (u16 l).

(** ** [packet.go] *)

(** [Packet] is a [[]byte]. *)
Abbreviation Packet := bytes.

Definition New (data : bytes) : Packet := data.

Definition Packet_Size (p : Packet) : Z := LengthSize + zlen p.

Section WriteTo.
Context {W : Type} `{!io_Writer W}.

Definition Packet_WriteTo (p : Packet) : M W (Z * option error) :=
  let '(length, err) := LengthOf p in
  match err with
  | Some e => mret (0, Some e)
  | None =>
      '(n1, err) ← io_Write (Length_Bytes length);
      match err with
      | Some e => mret (0, Some e)
      | None =>
          '(n2, err) ← io_Write p;
          mret (n1 + n2, err)
      end
  end.

(** [Sequence.WriteTo]: [n] is the running count. *)
Fixpoint Sequence_WriteTo_loop (ps : list Packet) (n : Z) : M W (Z * option error) :=
  match ps with
  | [] => mret (n, None)
  | packet :: ps =>
      '(m, err) ← Packet_WriteTo packet;
      let n := n + m in
      match err with
      | Some e => mret (n, Some e)
      | None => Sequence_WriteTo_loop ps n
      end
  end.

Definition Sequence_WriteTo (ps : list Packet) : M W (Z * option error) :=
  Sequence_WriteTo_loop ps 0.
End WriteTo.

Definition NewSequence (packets : list bytes) : list Packet := packets.

Definition Sequence_Size (ps : list Packet) : Z :=
  fold_left (λ size packet, size + Packet_Size packet) ps 0.

Definition Decode (raw : bytes) : option Packet * option error :=
  if zlen raw <? LengthSize then (None, Some (ErrText "missing length header"))
  else
    let '(length, err) := DecodeLength (take (Z.to_nat LengthSize) raw) in
    match err with
    | Some e => (None, Some e)
    | None =>
        if negb (zlen raw - LengthSize =? length)
        then (None, Some (ErrText "length of remaining bytes does not conform to header value"))
        else (Some (New (drop (Z.to_nat LengthSize) raw)), None)
    end.

Section DecodeFrom.
Context {R : Type} `{!io_Reader R}.

Definition DecodeFrom : M R (option Packet * option error) :=
  '(header, err) ← ReadFull LengthSize;
  match err with
  | Some e => mret (None, Some e)
  | None =>
      let '(length, err) := DecodeLength header in
      match err with
      | Some e => mret (None, Some e)
      | None =>
          '(got, err) ← ReadFull length;
          mret (Some (filled length got), err)
      end
  end.

(** The receive loops of the program call [DecodeFrom] again and again. *)
Fixpoint DecodeMany (n : nat) : M R (list Packet * option error) :=
  match n with
  | O => mret ([], None)
  | S n =>
      '(p, err) ← DecodeFrom;
      match p, err with
      | Some p, None =>
          '(ps, err) ← DecodeMany n;
          mret (p :: ps, err)
      | _, err => mret ([], err)
      end
  end.
End DecodeFrom.

(** ** The wire format *)

(** What a packet looks like on the wire. *)
Definition wire (p : Packet) : bytes := Length_Bytes (zlen p) ++ p.
Definition wire_all (ps : list Packet) : bytes := concat (wire <$> ps).

Definition fits (p : Packet) : Prop := zlen p ≤ MaxLength.
#[export] Instance fits_dec p : Decision (fits p).
Proof. unfold fits. apply _. Defined.

Lemma MaxLength_eq : MaxLength = 65535.
Proof. reflexivity. Qed.

Lemma zlen_Length_Bytes l : zlen (Length_Bytes l) = 2.
Proof. apply zlen_be_bytes. Qed.
#[export] Hint Rewrite zlen_Length_Bytes : golen.

Lemma wire_all_cons p ps : wire_all (p :: ps) = wire p ++ wire_all ps.
Proof. done. Qed.

Lemma zlen_wire p : zlen (wire p) = Packet_Size p.
Proof. unfold wire, Packet_Size, LengthSize. len. Qed.

Lemma LengthOf_fits p : fits p → LengthOf p = (zlen p, None).
Proof.
  unfold fits, LengthOf. rewrite MaxLength_eq, Z.gtb_ltb. intros.
  rewrite u16_small by len. by zcond.
Qed.

Lemma LengthOf_too_long p :
  ¬ fits p → LengthOf p = (0, Some (ErrText "the data may not exceed 65535 bytes")).
Proof. unfold fits, LengthOf. rewrite Z.gtb_ltb. intros. by zcond. Qed.

(** Encoding and decoding of a length are inverse on 16-bit values. *)
Lemma DecodeLength_Bytes l : 0 ≤ l < 2 ^ 16 → DecodeLength (Length_Bytes l) = (l, None).
Proof.
  intros. unfold DecodeLength. rewrite zlen_Length_Bytes. simpl.
  unfold Length_Bytes. by rewrite be_Z_be_bytes, u16_small, Z.mod_small by lia.
Qed.

Lemma DecodeLength_inv raw l :
  DecodeLength raw = (l, None) → raw = Length_Bytes l ∧ 0 ≤ l < 2 ^ 16.
Proof.
  unfold DecodeLength. case_goal; intros; simplify_eq. zbool. unfold LengthSize in *.
  assert (length raw = 2%nat) as Hl by (unfold zlen in *; lia).
  pose proof (be_bytes_be_Z raw) as He. rewrite Hl in He.
  assert (0 ≤ be_Z raw < 2 ^ 16).
  { rewrite <- He, be_Z_be_bytes. apply Z.mod_pos_bound. lia. }
  split; [|done]. unfold Length_Bytes. by rewrite u16_small, He.
Qed.

(** ** Writing *)
Section WriteToProps.
Context {W : Type} `{StreamWriter W}.
Implicit Types w : W.

Lemma Packet_WriteTo_wire w p :
  fits p → ∃ w', Packet_WriteTo p w = (Ret (Packet_Size p, None), w') ∧
                 written_to w' = written_to w ++ wire p.
Proof.
  intros Hf. unfold Packet_WriteTo. rewrite LengthOf_fits by done.
  destruct (written_write w (Length_Bytes (zlen p))) as (w1 & H1 & E1).
  destruct (written_write w1 p) as (w2 & H2 & E2).
  rewrite (bind_Ret _ _ _ _ _ H1), (bind_Ret _ _ _ _ _ H2). exists w2. split.
  - unfold Packet_Size, LengthSize. by rewrite zlen_Length_Bytes.
  - by rewrite E2, E1, <- app_assoc.
Qed.

Lemma Packet_WriteTo_too_long w p :
  ¬ fits p →
  Packet_WriteTo p w = (Ret (0, Some (ErrText "the data may not exceed 65535 bytes")), w).
Proof. intros. unfold Packet_WriteTo. by rewrite LengthOf_too_long. Qed.

Lemma Sequence_WriteTo_loop_wire w ps n :
  Forall fits ps →
  ∃ w', Sequence_WriteTo_loop ps n w = (Ret (n + zlen (wire_all ps), None), w') ∧
        written_to w' = written_to w ++ wire_all ps.
Proof.
  intros Hf. revert w n. induction Hf as [|p ps Hp _ IH]; intros w n; simpl.
  - exists w. unfold wire_all. simpl. rewrite zlen_nil, Z.add_0_r, app_nil_r. done.
  - destruct (Packet_WriteTo_wire w p Hp) as (w1 & H1 & E1).
    rewrite (bind_Ret _ _ _ _ _ H1).
    destruct (IH w1 (n + Packet_Size p)) as (w2 & H2 & E2).
    exists w2. rewrite H2, E2, E1, wire_all_cons, zlen_app, zlen_wire.
    split; [do 3 f_equal; lia | by rewrite <- app_assoc].
Qed.
End WriteToProps.

Lemma Sequence_Size_wire ps : Sequence_Size ps = zlen (wire_all ps).
Proof.
  unfold Sequence_Size. assert (∀ n, fold_left (λ size packet, size + Packet_Size packet) ps n
    = n + zlen (wire_all ps)) as ->; [|lia].
  induction ps as [|p ps IH]; intros n; simpl; [unfold wire_all; simpl; len|].
  rewrite IH, wire_all_cons, zlen_app, zlen_wire. lia.
Qed.

(** ** Reading *)

Lemma filled_full n d : zlen d = n → filled n d = d.
Proof. intros <-. unfold filled. by rewrite Z.sub_diag, app_nil_r. Qed.

Section DecodeFromProps.
Context {R : Type} `{StreamReader R}.
Implicit Types r : R.

Lemma DecodeFrom_wire r p rest :
  fits p → pending r (wire p ++ rest) →
  ∃ r', DecodeFrom r = (Ret (Some p, None), r') ∧ pending r' rest.
Proof.
  unfold fits, wire. rewrite MaxLength_eq, <- app_assoc. intros Hf Hp.
  destruct (ReadFull_pending r _ _ LengthSize Hp (zlen_Length_Bytes _)) as (r1 & H1 & Hp1).
  unfold DecodeFrom. rewrite (bind_Ret _ _ _ _ _ H1), DecodeLength_Bytes by len.
  destruct (ReadFull_pending r1 p rest (zlen p) Hp1 eq_refl) as (r2 & H2 & Hp2).
  rewrite (bind_Ret _ _ _ _ _ H2). exists r2. by rewrite filled_full.
Qed.

Lemma DecodeMany_wire r ps rest :
  Forall fits ps → pending r (wire_all ps ++ rest) →
  ∃ r', DecodeMany (length ps) r = (Ret (ps, None), r') ∧ pending r' rest.
Proof.
  intros Hf. revert r. induction Hf as [|p ps Hp _ IH]; intros r Hr; [by eexists|].
  rewrite wire_all_cons, <- app_assoc in Hr.
  destruct (DecodeFrom_wire r p _ Hp Hr) as (r1 & H1 & Hr1).
  destruct (IH r1 Hr1) as (r2 & H2 & Hr2).
  exists r2. simpl. by rewrite (bind_Ret _ _ _ _ _ H1), (bind_Ret _ _ _ _ _ H2).
Qed.

(** A stream that ends inside the header. *)
Lemma DecodeFrom_truncated_header r d :
  pending r d → zlen d < LengthSize →
  ∃ r', DecodeFrom r =
    (Ret (None, Some (if decide (d = []) then EOF else ErrUnexpectedEOF)), r').
Proof.
  intros Hp Hl. destruct (ReadFull_short r d LengthSize Hp Hl) as (r' & Hr).
  exists r'. unfold DecodeFrom. by rewrite (bind_Ret _ _ _ _ _ Hr).
Qed.

(** A stream that ends inside the payload. *)
Lemma DecodeFrom_truncated_payload r l d :
  pending r (Length_Bytes l ++ d) → zlen d < l < 2 ^ 16 →
  ∃ r', DecodeFrom r =
    (Ret (Some (filled l d), Some (if decide (d = []) then EOF else ErrUnexpectedEOF)), r').
Proof.
  intros Hp Hl. pose proof (zlen_nonneg d).
  destruct (ReadFull_pending r _ _ LengthSize Hp (zlen_Length_Bytes _)) as (r1 & H1 & Hp1).
  destruct (ReadFull_short r1 d l Hp1 (proj1 Hl)) as (r2 & H2).
  exists r2. unfold DecodeFrom. rewrite (bind_Ret _ _ _ _ _ H1), DecodeLength_Bytes by lia.
  by rewrite (bind_Ret _ _ _ _ _ H2).
Qed.
End DecodeFromProps.

(** ** Properties *)

(** C24: packets written one after the other to a connection are read back one
    by one, in order and unchanged, however the connection cuts the bytes into
    reads; the bytes behind the last packet stay pending. *)
Theorem packet_stream_roundtrip {W R} `{StreamWriter W} `{StreamReader R}
    (w : W) (r : R) (ps : list Packet) (rest : bytes) :
  Forall fits ps → written_to w = [] →
  ∃ w', Sequence_WriteTo ps w = (Ret (Sequence_Size ps, None), w') ∧
    (pending r (written_to w' ++ rest) →
     ∃ r', DecodeMany (length ps) r = (Ret (ps, None), r') ∧ pending r' rest).
Proof.
  intros Hf Hw. destruct (Sequence_WriteTo_loop_wire w ps 0 Hf) as (w' & H1 & E1).
  exists w'. rewrite Sequence_Size_wire. split; [exact H1|].
  rewrite E1, Hw. intros Hr. by apply DecodeMany_wire.
Qed.

Lemma packet_stream_roundtrip_witness :
  Forall fits [[Byte.x01; Byte.x02]; []; [Byte.x03]] ∧
  ∃ w', Sequence_WriteTo [[Byte.x01; Byte.x02]; []; [Byte.x03]] ([] : bytes)
          = (Ret (9, None), w') ∧
    (pending (Segments [[Byte.x00]; [Byte.x02; Byte.x01]; [Byte.x02; Byte.x00];
                        [Byte.x00; Byte.x00; Byte.x01; Byte.x03; Byte.xff]])
             (written_to w' ++ [Byte.xff]) →
     ∃ r', DecodeMany 3 (Segments [[Byte.x00]; [Byte.x02; Byte.x01]; [Byte.x02; Byte.x00];
                        [Byte.x00; Byte.x00; Byte.x01; Byte.x03; Byte.xff]])
           = (Ret ([[Byte.x01; Byte.x02]; []; [Byte.x03]], None), r') ∧
           pending r' [Byte.xff]).
Proof.
  assert (Forall fits [[Byte.x01; Byte.x02]; []; [Byte.x03]]) as Hf.
  { repeat constructor; vm_compute; discriminate. }
  split; [exact Hf|].
  exact (packet_stream_roundtrip ([] : bytes) _ _ [Byte.xff] Hf eq_refl).
Defined.

Lemma Decode_wire p : fits p → Decode (wire p) = (Some p, None).
Proof.
  unfold Decode, New, fits. rewrite MaxLength_eq. intros Hf. unfold wire.
  rewrite zlen_app, zlen_Length_Bytes. unfold LengthSize. pose proof (zlen_nonneg p). zcond.
  rewrite take_app_length', drop_app_length' by reflexivity.
  rewrite DecodeLength_Bytes by lia. rewrite (proj2 (Z.eqb_eq _ _)) by lia. done.
Qed.

(** [Decode] accepts exactly the wire encodings of packets of at most
    65535 bytes, and returns the encoded packet. *)
Theorem Decode_iff (raw : bytes) (p : Packet) :
  Decode raw = (Some p, None) ↔ raw = wire p ∧ fits p.
Proof.
  split.
  - unfold Decode, New. case_goal; [done|]. zbool. unfold LengthSize in *.
    destruct (DecodeLength _) as [l [e|]] eqn:El; [done|].
    case_goal; intros; simplify_eq. zbool.
    apply DecodeLength_inv in El as [Hh Hl].
    unfold wire, fits. rewrite MaxLength_eq. rewrite zlen_drop.
    replace (Z.max 0 (zlen raw - Z.of_nat (Z.to_nat 2))) with l by lia.
    rewrite <- Hh, take_drop. split; [done|lia].
  - intros [-> Hf]. by apply Decode_wire.
Qed.

(** A packet longer than 65535 bytes is refused before a byte is written;
    a stream that ends inside a packet gives [io.EOF] when it ends at a header
    or payload boundary and [io.ErrUnexpectedEOF] inside one. *)
Theorem packet_errors {W R} `{StreamWriter W} `{StreamReader R} (w : W) (r : R) :
  (∀ p, MaxLength < zlen p →
     Packet_WriteTo p w = (Ret (0, Some (ErrText "the data may not exceed 65535 bytes")), w)) ∧
  (∀ d, pending r d → zlen d < LengthSize →
     ∃ r', DecodeFrom r = (Ret (None, Some (if decide (d = []) then EOF else ErrUnexpectedEOF)), r')) ∧
  (∀ l d, pending r (Length_Bytes l ++ d) → zlen d < l < 2 ^ 16 →
     ∃ r', DecodeFrom r = (Ret (Some (filled l d),
                                Some (if decide (d = []) then EOF else ErrUnexpectedEOF)), r')).
Proof.
  split_and!.
  - intros p Hp. apply Packet_WriteTo_too_long. unfold fits. lia.
  - apply DecodeFrom_truncated_header.
  - apply DecodeFrom_truncated_payload.
Qed.
