(* ===== verification/Files.v ===== *)
(** * Files: what the block reader and writer rely on, and [util/buffer]

    The interfaces [FileReader] and [FileWriter] state what a random-access
    file promises to its client (seek to an offset, then read or write there).
    The block reader and writer are proved against them.  The in-memory
    [Buffer] of [lib/util/buffer/buffer.go] is modelled and shown to keep both
    promises. *)

From S2P Require Import Prelude GoSem.

Local Open Scope Z_scope.

(** ** Interfaces *)

(** An open file with contents [d]: after a seek to an offset within [d], a
    full read returns the bytes at that offset. *)
Class FileReader (F : Type) `{!ReadSeekCloser F} : Type := {
  fr_holds : F → bytes → Prop;
  fr_seek_read f d off :
    fr_holds f d → 0 ≤ off ≤ zlen d → off ≤ max_i64 →
    ∃ f1, io_Seek off SeekStart f = (Ret (off, None), f1) ∧ fr_holds f1 d ∧
      ∀ n, 0 ≤ n → off + n ≤ zlen d →
        ∃ f2, ReadFull n f1 = (Ret (sub d off n, None), f2) ∧ fr_holds f2 d
}.

(** An open file with contents [d]: after a seek, a write that stays within
    [d] overwrites the bytes at that offset and nothing else. *)
Class FileWriter (F : Type) `{!WriteSeekCloser F} : Type := {
  fw_holds : F → bytes → Prop;
  fw_seek_write f d off p :
    fw_holds f d → 0 ≤ off → off + zlen p ≤ zlen d → off ≤ max_i64 →
    ∃ f1 f2, io_Seek off SeekStart f = (Ret (off, None), f1) ∧
      io_Write p f1 = (Ret (zlen p, None), f2) ∧ fw_holds f2 (splice d off p)
}.

(** ** [lib/util/buffer/buffer.go] *)
Module Buffer.

Definition Closed : error := ErrVar "buffer.Closed" "buffer is closed".

Record Buffer : Type := mkBuffer { Data : bytes; cursor : Z; closed : bool }.

Definition NewBuffer (buffer : bytes) : Buffer := mkBuffer buffer 0 false.

Definition Read (n : Z) : M Buffer (bytes * option error) :=
  b ← get;
  if closed b then mret ([], Some Closed)
  else
    src ← lift (slice_from (Data b) (cursor b));
    let got := take (Z.to_nat n) src in
    mret (got, if zlen got =? n then None else Some EOF).

Definition Write (p : bytes) : M Buffer (Z * option error) :=
  b ← get;
  if closed b then mret (0, Some Closed)
  else if i64 (cursor b + zlen p) >? zlen (Data b) then throw (PanicString "exceeding buffer size")
  else
    dst ← lift (slice_from (Data b) (cursor b));
    let n := Z.min (zlen dst) (zlen p) in
    put (mkBuffer (splice (Data b) (cursor b) (take (Z.to_nat n) p)) (cursor b) false);;
    mret (n, if n =? zlen p then None else Some EOF).

Definition Seek (offset : Z) (w : whence) : M Buffer (Z * option error) :=
  b ← get;
  if closed b then mret (0, Some Closed)
  else match w with
  | SeekStart => put (mkBuffer (Data b) offset false);; mret (offset, None)
  | _ => throw (PanicString "used a whence different from io.SeekStart")
  end.

Definition Close : M Buffer (option error) :=
  modify (λ b, mkBuffer (Data b) (cursor b) true);; mret None.

#[global] Instance Buffer_Reader : io_Reader Buffer := Read.
#[global] Instance Buffer_Writer : io_Writer Buffer := Write.
#[global] Instance Buffer_Seeker : io_Seeker Buffer := Seek.
#[global] Instance Buffer_Closer : io_Closer Buffer := Close.
#[global] Instance Buffer_ReadSeekCloser : ReadSeekCloser Buffer := {}.
#[global] Instance Buffer_WriteSeekCloser : WriteSeekCloser Buffer := {}.

(** An open buffer with the given contents. *)
Definition holds (b : Buffer) (d : bytes) : Prop :=
  closed b = false ∧ Data b = d ∧ zlen d ≤ max_i64.

Lemma NewBuffer_holds d : zlen d ≤ max_i64 → holds (NewBuffer d) d.
Proof. done. Qed.

Lemma slice_from_in {A} (l : list A) i :
  0 ≤ i ≤ zlen l → slice_from l i = Ret (drop (Z.to_nat i) l).
Proof. intros. unfold slice_from. by zcond. Qed.

Lemma Read_in d cur n :
  0 ≤ cur → 0 ≤ n → cur + n ≤ zlen d →
  Read n (mkBuffer d cur false) = (Ret (sub d cur n, None), mkBuffer d cur false).
Proof.
  intros. unfold Read, get, mbind, M_bind, lift. simpl.
  rewrite slice_from_in by lia. simpl. unfold mret, M_ret. do 3 f_equal.
  fold (sub d cur n). rewrite zlen_sub by lia. by rewrite Z.eqb_refl.
Qed.

Lemma ReadFull_in d cur n :
  0 ≤ cur → 0 ≤ n → cur + n ≤ zlen d →
  ReadFull n (mkBuffer d cur false) = (Ret (sub d cur n, None), mkBuffer d cur false).
Proof.
  intros. unfold ReadFull. destruct (decide (n = 0)) as [->|]; [done|].
  destruct (Z.to_nat n) as [|k] eqn:Ek; [lia|].
  cbn [ReadAtLeast]. rewrite zlen_nil, Z.sub_0_r, (proj2 (Z.leb_gt n 0)) by lia.
  rewrite (bind_Ret _ _ _ _ _ (Read_in d cur n ltac:(lia) ltac:(lia) ltac:(lia))).
  cbn [app ReadAtLeast]. rewrite zlen_sub by lia. by rewrite Z.leb_refl.
Qed.

Lemma Write_in d cur p :
  0 ≤ cur → cur + zlen p ≤ zlen d → zlen d ≤ max_i64 →
  Write p (mkBuffer d cur false) =
    (Ret (zlen p, None), mkBuffer (splice d cur p) cur false).
Proof.
  intros. unfold Write, get, mbind, M_bind, lift, throw, put. simpl. unfold max_i64 in *.
  pose proof (zlen_nonneg p). rewrite i64_small by lia.
  rewrite Z.gtb_ltb, (proj2 (Z.ltb_ge _ _)), slice_from_in by lia.
  rewrite Z.min_r by (rewrite zlen_drop; lia).
  assert (take (Z.to_nat (zlen p)) p = p) as -> by (unfold zlen; by rewrite Nat2Z.id, firstn_all).
  by rewrite Z.eqb_refl.
Qed.

#[global] Program Instance Buffer_FileReader : FileReader Buffer := {| fr_holds := holds |}.
Next Obligation.
  intros [d0 cur c] d off [Hc [Hd Hl]] Hoff Hm. simpl in *; subst. exists (mkBuffer d off false).
  split; [done|]. split; [done|]. intros n Hn Ho. eexists. split; [apply ReadFull_in; lia|done].
Qed.

#[global] Program Instance Buffer_FileWriter : FileWriter Buffer := {| fw_holds := holds |}.
Next Obligation.
  intros [d0 cur c] d off p [Hc [Hd Hl]] Hoff Ho Hm. simpl in *; subst.
  exists (mkBuffer d off false), (mkBuffer (splice d off p) off false).
  split; [done|]. split; [apply Write_in; lia|].
  split_and!; [done|done|]. by rewrite zlen_splice.
Qed.

(** What each operation of a buffer does on every branch: an open buffer
    reads and overwrites in place at its cursor (which neither operation
    moves), short reads report [io.EOF], a write that does not fit panics and
    leaves the contents alone, and a closed buffer refuses every operation. *)
Theorem buffer_operations (d : bytes) (cur : Z) :
  0 ≤ cur ≤ zlen d → zlen d ≤ max_i64 →
  (∀ n, 0 ≤ n → cur + n ≤ zlen d →
     Read n (mkBuffer d cur false) = (Ret (sub d cur n, None), mkBuffer d cur false)) ∧
  (∀ n, zlen d < cur + n →
     Read n (mkBuffer d cur false) =
       (Ret (drop (Z.to_nat cur) d, Some EOF), mkBuffer d cur false)) ∧
  (∀ p, cur + zlen p ≤ zlen d →
     Write p (mkBuffer d cur false) =
       (Ret (zlen p, None), mkBuffer (splice d cur p) cur false)) ∧
  (∀ p, zlen d < cur + zlen p ≤ max_i64 →
     Write p (mkBuffer d cur false) =
       (Panic (PanicString "exceeding buffer size"), mkBuffer d cur false)) ∧
  (∀ n p off w, let b := mkBuffer d cur true in
     Read n b = (Ret ([], Some Closed), b) ∧ Write p b = (Ret (0, Some Closed), b) ∧
     Seek off w b = (Ret (0, Some Closed), b)).
Proof.
  intros Hc Hd. split_and!.
  - intros. apply Read_in; lia.
  - intros n Hn. unfold Read, get, mbind, M_bind, lift. simpl.
    rewrite slice_from_in by lia. simpl.
    rewrite take_ge by (rewrite length_drop; unfold zlen in *; lia).
    rewrite zlen_drop. unfold mret, M_ret. by rewrite (proj2 (Z.eqb_neq _ _)) by lia.
  - intros. apply Write_in; lia.
  - intros p Hp. unfold Write, get, mbind, M_bind. simpl.
    unfold max_i64 in *. rewrite i64_small by lia.
    by rewrite Z.gtb_ltb, (proj2 (Z.ltb_lt _ _)) by lia.
  - done.
Qed.

Lemma buffer_operations_witness :
  Write [Byte.x07] (mkBuffer [Byte.x01; Byte.x02; Byte.x03] 1 false) =
    (Ret (1, None), mkBuffer [Byte.x01; Byte.x07; Byte.x03] 1 false) ∧
  Write [Byte.x07; Byte.x08; Byte.x09] (mkBuffer [Byte.x01; Byte.x02; Byte.x03] 1 false) =
    (Panic (PanicString "exceeding buffer size"), mkBuffer [Byte.x01; Byte.x02; Byte.x03] 1 false).
Proof.
  destruct (buffer_operations [Byte.x01; Byte.x02; Byte.x03] 1) as (_ & _ & H1 & H2 & _);
    [vm_compute; split; discriminate | vm_compute; discriminate |].
  split; [apply (H1 [Byte.x07]); vm_compute; discriminate |].
  apply H2. vm_compute. split; [reflexivity | discriminate].
Defined.

End Buffer.
