(* ===== verification/Block.v ===== *)
(** * Block: splitting a file into checksummed blocks ([lib/session/transfer/block])

    [block.go] (block arithmetic on 64-bit unsigned integers and the
    checksum), [reader.go] (the block [Reader] with its redo queue) and
    [writer.go] (the block [Writer] with its bitmap of written blocks). *)

From S2P Require Import Prelude GoSem Sha256 Files.

Local Open Scope Z_scope.

(** ** [block.go] *)

(** [min] of [reader.go]. *)
Definition min (a b : Z) : Z := if a <? b then a else b.

Module Size.
(** [Size] is a [uint64]; the operations are its methods. *)

Definition BlockCount (s size : Z) : outcome Z :=
  if size =? 0 then Ret 0
  else if s =? 0 then Panic PanicDivide
  else Ret (u64 ((size - 1) / s + 1)).

Definition Offset (s index : Z) : Z := u64 (index * s).

Definition Index (s offset : Z) : outcome Z :=
  if s =? 0 then Panic PanicDivide else Ret (offset / s).

Definition Amount (s offset size : Z) : Z :=
  if offset >=? size then 0
  else let remaining := u64 (size - offset) in min s remaining.
End Size.

Definition ComputeChecksum (index : Z) (data : bytes) : bytes :=
  sha256 (be_bytes 8 index ++ data).

(** The protobuf message [Block] of [block.proto]. *)
Record Block : Type := mkBlock { Index : Z; Data : bytes; Checksum : bytes }.

#[export] Instance Block_eq_dec : EqDecision Block.
Proof. solve_decision. Defined.

(** ** [reader.go] *)
Module Reader.

Definition InvalidIndex : error := ErrVar "block.InvalidIndex" "invalid block index".
Definition IndexNotYetRead : error :=
  ErrVar "block.IndexNotYetRead" "block index was not read yet".

Record Reader (F : Type) : Type := mkReader {
  reader : F;
  totalSize : Z;
  blockSize : Z;
  nextIndex : Z;
  redoBlocks : list Z
}.
Arguments mkReader {F} _ _ _ _ _.
Arguments reader {F} _.
Arguments totalSize {F} _.
Arguments blockSize {F} _.
Arguments nextIndex {F} _.
Arguments redoBlocks {F} _.

Section Reader.
Context {F : Type} `{!ReadSeekCloser F}.

Definition reader_field : lens (Reader F) F :=
  Lens reader (λ f r, mkReader f (totalSize r) (blockSize r) (nextIndex r) (redoBlocks r)).

Definition set_nextIndex (r : Reader F) (i : Z) : Reader F :=
  mkReader (reader r) (totalSize r) (blockSize r) i (redoBlocks r).
Definition set_redoBlocks (r : Reader F) (l : list Z) : Reader F :=
  mkReader (reader r) (totalSize r) (blockSize r) (nextIndex r) l.

Definition NewBlockReader (f : F) (size blockSize : Z) : Reader F :=
  mkReader f size blockSize 0 [].

Definition BlockCount (r : Reader F) : outcome Z := Size.BlockCount (blockSize r) (totalSize r).
Definition NextBlockIndex (r : Reader F) : Z := nextIndex r.
Definition offset (r : Reader F) (index : Z) : Z := Size.Offset (blockSize r) index.
Definition amount (r : Reader F) (offset : Z) : Z :=
  Size.Amount (blockSize r) offset (totalSize r).

Definition IsDone (r : Reader F) : bool :=
  (zlen (redoBlocks r) =? 0) && (offset r (nextIndex r) >=? totalSize r).
Definition HasData (r : Reader F) : bool := negb (IsDone r).

Definition seek (index : Z) : M (Reader F) (Z * option error) :=
  r ← get;
  let off := offset r index in
  if off >=? totalSize r then throw (PanicString "block index behind end of reader")
  else
    '(position, err) ← zoom reader_field (io_Seek (i64 off) SeekStart);
    match err with
    | Some e => mret (off, Some e)
    | None =>
        if negb (u64 position =? off)
        then throw (PanicString "seek position does not equal requested offset")
        else mret (off, None)
    end.

Definition read (offset : Z) : M (Reader F) (bytes * option error) :=
  r ← get;
  let amount := amount r offset in
  _ ← lift (make_slice Byte.x00 1 amount);
  '(got, err) ← zoom reader_field (ReadFull amount);
  match err with
  | Some e => mret (filled amount got, Some e)
  | None =>
      if negb (zlen got =? amount) then throw (PanicString "unexpect amount of bytes read")
      else mret (got, None)
  end.

Definition ReadBlock (index : Z) : M (Reader F) (option Block * option error) :=
  '(offset, err) ← seek index;
  match err with
  | Some e => mret (None, Some e)
  | None =>
      '(data, err) ← read offset;
      match err with
      | Some e => mret (None, Some e)
      | None => mret (Some (mkBlock index data (ComputeChecksum index data)), None)
      end
  end.

Definition NextBlock : M (Reader F) (option Block * option error) :=
  r ← get;
  if IsDone r then mret (None, Some EOF)
  else
    let blockIndex := match redoBlocks r with i :: _ => i | [] => nextIndex r end in
    '(block, err) ← ReadBlock blockIndex;
    match err with
    | Some e => mret (None, Some e)
    | None =>
        modify (λ r, match redoBlocks r with
                     | _ :: l => set_redoBlocks r l
                     | [] => set_nextIndex r (u64 (nextIndex r + 1))
                     end);;
        mret (block, None)
    end.

Definition RedoBlock (index : Z) : M (Reader F) (bool * option error) :=
  r ← get;
  if offset r index >=? totalSize r then mret (false, Some InvalidIndex)
  else if index >=? nextIndex r then mret (false, Some IndexNotYetRead)
  else if bool_decide (index ∈ redoBlocks r) then mret (false, None)
  else
    put (set_redoBlocks r (redoBlocks r ++ [index]));;
    mret (true, None).

Definition Close : M (Reader F) (option error) := zoom reader_field io_Close.
End Reader.
End Reader.

(** ** [writer.go] *)
Module Writer.

Definition BadBlockData : error :=
  ErrVar "block.BadBlockData" "block data is either too large or too slow".
Definition WriterBoundsExceeded : error :=
  ErrVar "block.WriterBoundsExceeded" "block offset behind end of writer".
Definition AlreadyWritten : error :=
  ErrVar "block.AlreadyWritten" "block offset has already been written".
Definition BadBlockChecksum : error :=
  ErrVar "block.BadBlockChecksum" "the block's checksum is incorrect".

Record Writer (F : Type) : Type := mkWriter {
  writer : F;
  totalSize : Z;
  blockSize : Z;
  written : list bool;
  writtenCount : Z
}.
Arguments mkWriter {F} _ _ _ _ _.
Arguments writer {F} _.
Arguments totalSize {F} _.
Arguments blockSize {F} _.
Arguments written {F} _.
Arguments writtenCount {F} _.

Section Writer.
Context {F : Type} `{!WriteSeekCloser F}.

Definition writer_field : lens (Writer F) F :=
  Lens writer (λ f w, mkWriter f (totalSize w) (blockSize w) (written w) (writtenCount w)).

Definition NewWriter (f : F) (size blockSize : Z) : outcome (Writer F) :=
  count ← Size.BlockCount blockSize size;
  bitmap ← make_slice false 1 count;
  mret (mkWriter f size blockSize bitmap 0).

Definition BlockCount (w : Writer F) : outcome Z := Size.BlockCount (blockSize w) (totalSize w).
Definition IsDone (w : Writer F) : outcome bool :=
  count ← BlockCount w; mret (writtenCount w =? count).
Definition offset (w : Writer F) (index : Z) : Z := Size.Offset (blockSize w) index.
Definition amount (w : Writer F) (offset : Z) : Z :=
  Size.Amount (blockSize w) offset (totalSize w).

Definition checkBlock (block : Block) : M (Writer F) (option error) :=
  w ← get;
  let off := offset w (Index block) in
  if off >=? totalSize w then mret (Some WriterBoundsExceeded)
  else if negb (zlen (Data block) =? amount w off) then mret (Some BadBlockData)
  else
    already ← lift (index (written w) (Index block));
    if already : bool then mret (Some AlreadyWritten)
    else
      let expected := ComputeChecksum (Index block) (Data block) in
      if negb (bool_decide (expected = Checksum block)) then mret (Some BadBlockChecksum)
      else mret None.

Definition seek (index : Z) : M (Writer F) (option error) :=
  w ← get;
  let off := offset w index in
  '(position, err) ← zoom writer_field (io_Seek (i64 off) SeekStart);
  match err with
  | Some e => mret (Some e)
  | None =>
      if negb (position =? i64 off)
      then throw (PanicString "seek position does not equal requested offset")
      else mret None
  end.

Definition write (data : bytes) : M (Writer F) (option error) :=
  '(n, err) ← zoom writer_field (io_Write data);
  match err with
  | Some e => mret (Some e)
  | None =>
      if negb (n =? zlen data) then throw (PanicString "unexpected amount of bytes written")
      else mret None
  end.

Definition WriteBlock (block : Block) : M (Writer F) (option error) :=
  err ← checkBlock block;
  match err with
  | Some e => mret (Some e)
  | None =>
      err ← seek (Index block);
      match err with
      | Some e => mret (Some e)
      | None =>
          err ← write (Data block);
          match err with
          | Some e => mret (Some e)
          | None =>
              w ← get;
              bitmap ← lift (assign (written w) (Index block) true);
              put (mkWriter (writer w) (totalSize w) (blockSize w) bitmap
                            (u64 (writtenCount w + 1)));;
              mret None
          end
      end
  end.

Definition Close : M (Writer F) (option error) := zoom writer_field io_Close.
End Writer.
End Writer.
