(* ===== verification/BlockProps.v ===== *)
(** * BlockProps: correctness of the block reader and the block writer

    Block arithmetic without overflow, the blocks of a file and how they make
    it up, the invariant of the [Reader], the [Writer] as a write-once store
    of blocks (a refinement), and the copy of a whole file block by block. *)

From S2P Require Import Prelude GoSem Sha256 Files Block.

Local Open Scope Z_scope.

(** ** Block arithmetic *)

(** Sizes the program can handle: the bitmap and the buffers can be made. *)
Definition dims (total bs : Z) : Prop := 0 ≤ total ≤ max_alloc ∧ 0 < bs ≤ max_alloc.

#[export] Instance dims_dec total bs : Decision (dims total bs).
Proof. unfold dims. apply _. Defined.

(** The number of blocks of a file. *)
Definition nblocks (total bs : Z) : Z := if total =? 0 then 0 else (total - 1) / bs + 1.

(** The length of block [i]. *)
Definition block_len (total bs i : Z) : Z := Z.min bs (total - i * bs).

Lemma max_alloc_eq : max_alloc = 281474976710656.
Proof. reflexivity. Qed.

Section Arithmetic.
Context (total bs : Z) (Hd : dims total bs).

Lemma nblocks_nonneg : 0 ≤ nblocks total bs.
Proof.
  destruct Hd. unfold nblocks. case_goal; [lia|]. zbool.
  pose proof (Z.div_pos (total - 1) bs). lia.
Qed.

(** Block [i] exists iff it starts before the end of the file. *)
Lemma nblocks_lt i : 0 ≤ i → i < nblocks total bs ↔ i * bs < total.
Proof.
  intros Hi. destruct Hd as [Ht Hb]. unfold nblocks. case_goal; zbool; [nia|].
  pose proof (Z_div_bounds (total - 1) bs ltac:(lia)). nia.
Qed.

Lemma nblocks_bound : nblocks total bs ≤ total.
Proof.
  destruct Hd. pose proof nblocks_nonneg. destruct (Z.eq_dec (nblocks total bs) 0); [lia|].
  pose proof (proj1 (nblocks_lt (nblocks total bs - 1) ltac:(lia)) ltac:(lia)). nia.
Qed.

Lemma nblocks_end : total ≤ nblocks total bs * bs < total + bs.
Proof.
  pose proof nblocks_nonneg. destruct Hd as [Ht Hb].
  pose proof (nblocks_lt (nblocks total bs) ltac:(lia)).
  destruct (Z.eq_dec (nblocks total bs) 0); [nia|].
  pose proof (nblocks_lt (nblocks total bs - 1) ltac:(lia)). nia.
Qed.

Lemma BlockCount_eq : Size.BlockCount bs total = Ret (nblocks total bs).
Proof.
  pose proof nblocks_bound as Hn. pose proof nblocks_nonneg as H0. destruct Hd as [Ht Hb].
  rewrite max_alloc_eq in *. unfold Size.BlockCount, nblocks in *.
  destruct (total =? 0) eqn:E; [done|]. zcond. by rewrite u64_small by lia.
Qed.

Lemma Offset_eq i : 0 ≤ i ≤ nblocks total bs → Size.Offset bs i = i * bs.
Proof.
  intros. pose proof nblocks_end. destruct Hd. rewrite max_alloc_eq in *.
  apply u64_small. nia.
Qed.

Lemma block_len_pos i : 0 ≤ i < nblocks total bs → 0 < block_len total bs i ≤ bs.
Proof.
  intros Hi. pose proof (proj1 (nblocks_lt i ltac:(lia)) ltac:(lia)).
  destruct Hd. unfold block_len. lia.
Qed.

Lemma block_len_end i : 0 ≤ i < nblocks total bs → i * bs + block_len total bs i ≤ total.
Proof. unfold block_len. lia. Qed.

Lemma Amount_eq i :
  0 ≤ i < nblocks total bs → Size.Amount bs (i * bs) total = block_len total bs i.
Proof.
  intros Hi. pose proof (proj1 (nblocks_lt i ltac:(lia)) ltac:(lia)).
  destruct Hd. rewrite max_alloc_eq in *. unfold Size.Amount, min, block_len.
  rewrite Z.geb_leb. zcond. rewrite u64_small by nia. case_goal; zbool; lia.
Qed.

Lemma Offset_in i : 0 ≤ i < nblocks total bs → Size.Offset bs i < total.
Proof. intros. rewrite Offset_eq by lia. apply nblocks_lt; lia. Qed.

Lemma Offset_end : total ≤ Size.Offset bs (nblocks total bs).
Proof. pose proof nblocks_nonneg. rewrite Offset_eq by lia. apply nblocks_end. Qed.
End Arithmetic.

(** ** The blocks of a file *)

Definition block_data (d : bytes) (bs i : Z) : bytes := sub d (i * bs) (block_len (zlen d) bs i).

Definition the_block (d : bytes) (bs i : Z) : Block :=
  mkBlock i (block_data d bs i) (ComputeChecksum i (block_data d bs i)).

Section Blocks.
Context (d : bytes) (bs : Z) (Hd : dims (zlen d) bs).

Lemma zlen_block_data i :
  0 ≤ i < nblocks (zlen d) bs → zlen (block_data d bs i) = block_len (zlen d) bs i.
Proof.
  intros. pose proof (block_len_pos _ _ Hd i ltac:(lia)).
  pose proof (block_len_end (zlen d) bs i ltac:(lia)). destruct Hd.
  unfold block_data. apply zlen_sub; nia.
Qed.

Lemma concat_blocks_prefix (k : nat) :
  Z.of_nat k ≤ nblocks (zlen d) bs →
  concat (block_data d bs <$> seqZ 0 (Z.of_nat k)) =
    sub d 0 (Z.min (Z.of_nat k * bs) (zlen d)).
Proof.
  induction k as [|k IH]; intros Hk.
  { rewrite Z.min_l by len. done. }
  rewrite Nat2Z.inj_succ, <- Z.add_1_r, seqZ_app by lia.
  rewrite fmap_app, concat_app, IH by lia. simpl. rewrite app_nil_r.
  pose proof (proj1 (nblocks_lt _ _ Hd (Z.of_nat k) ltac:(lia)) ltac:(lia)).
  destruct Hd. unfold block_data, block_len. rewrite Z.min_l by lia.
  pose proof (sub_app_split d 0 (Z.of_nat k * bs) (Z.min bs (zlen d - Z.of_nat k * bs))) as Hs.
  rewrite Z.add_0_l in Hs. rewrite !Z.add_0_l. rewrite Hs by lia. f_equal. lia.
Qed.

(** The blocks in order make up the file. *)
Lemma concat_blocks : concat (block_data d bs <$> seqZ 0 (nblocks (zlen d) bs)) = d.
Proof.
  pose proof (nblocks_nonneg _ _ Hd). pose proof (nblocks_end _ _ Hd).
  pose proof (concat_blocks_prefix (Z.to_nat (nblocks (zlen d) bs))) as Hc.
  rewrite Z2Nat.id in Hc by lia. rewrite Hc by lia.
  rewrite Z.min_r by lia. apply sub_full.
Qed.
End Blocks.

(** A file is determined by its blocks. *)
Lemma blocks_ext d1 d2 bs :
  dims (zlen d1) bs → zlen d1 = zlen d2 →
  (∀ i, 0 ≤ i < nblocks (zlen d1) bs → block_data d1 bs i = block_data d2 bs i) → d1 = d2.
Proof.
  intros Hd Hl Hb. rewrite <- (concat_blocks d1 bs Hd).
  rewrite <- (concat_blocks d2 bs) by (by rewrite <- Hl). rewrite <- Hl. f_equal.
  apply list_fmap_ext. intros k i [-> Hk]%lookup_seqZ. apply Hb. lia.
Qed.

(** ** The block reader *)
Section ReaderProps.
Context {F : Type} `{FileReader F}.
Import Reader.
Implicit Types r : Reader F.

(** The reader reads from a file with contents [d] in blocks of [bs]; what
    is queued to be redone was read before, and nothing is queued twice. *)
Record reader_inv (d : bytes) (bs : Z) (r : Reader F) : Prop := {
  ri_file : fr_holds (reader r) d;
  ri_total : totalSize r = zlen d;
  ri_bs : blockSize r = bs;
  ri_next : 0 ≤ nextIndex r ≤ nblocks (zlen d) bs;
  ri_redo : Forall (λ i, 0 ≤ i < nextIndex r) (redoBlocks r);
  ri_nodup : NoDup (redoBlocks r)
}.

Context (d : bytes) (bs : Z) (Hd : dims (zlen d) bs).

Lemma NewBlockReader_inv f :
  fr_holds f d → reader_inv d bs (NewBlockReader f (zlen d) bs).
Proof.
  intros. split; simpl; try done; [|constructor].
  pose proof (nblocks_nonneg _ _ Hd). lia.
Qed.

Lemma reader_inv_file r f :
  reader_inv d bs r → fr_holds f d → reader_inv d bs (lset reader_field f r).
Proof. intros [] ?. by split. Qed.

Lemma ReadBlock_ok r i :
  reader_inv d bs r → 0 ≤ i < nblocks (zlen d) bs →
  ∃ f, ReadBlock i r = (Ret (Some (the_block d bs i), None), lset reader_field f r) ∧
       fr_holds f d.
Proof.
  intros [Hf Ht Hb _ _ _] Hi.
  pose proof (proj1 (nblocks_lt _ _ Hd i ltac:(lia)) ltac:(lia)) as Hlt.
  pose proof (block_len_pos _ _ Hd i Hi) as Hbl.
  pose proof (block_len_end (zlen d) bs i Hi) as Hbe.
  pose proof Hd as [Hz Hbs]. rewrite max_alloc_eq in *.
  destruct (fr_seek_read (reader r) d (i * bs)) as (f1 & Hs & Hf1 & Hr);
    [done|nia|unfold max_i64; nia|].
  destruct (Hr (block_len (zlen d) bs i)) as (f2 & Hr2 & Hf2); [lia|lia|].
  exists f2. split; [|done].
  assert (seek i r = (Ret (i * bs, None), lset reader_field f1 r)) as Hseek.
  { unfold seek, get, mbind, M_bind, offset. rewrite Ht, Hb, (Offset_eq (zlen d) bs Hd) by lia.
    rewrite Z.geb_leb. zcond. rewrite i64_small by nia.
    erewrite zoom_eq by exact Hs. cbv beta iota. rewrite u64_small, Z.eqb_refl by nia. done. }
  unfold ReadBlock. rewrite (bind_Ret _ _ _ _ _ Hseek).
  assert (read (i * bs) (lset reader_field f1 r) =
          (Ret (block_data d bs i, None), lset reader_field f2 r)) as Hread.
  { unfold read, get, mbind, M_bind, lift, amount. simpl.
    rewrite Ht, Hb, Amount_eq, make_slice_ok by (rewrite ?max_alloc_eq; try done; lia).
    erewrite zoom_eq by exact Hr2. cbv beta iota.
    fold (block_data d bs i). by rewrite zlen_block_data, Z.eqb_refl. }
  by rewrite (bind_Ret _ _ _ _ _ Hread).
Qed.

Lemma Reader_IsDone_iff r :
  reader_inv d bs r →
  IsDone r = bool_decide (redoBlocks r = [] ∧ nextIndex r = nblocks (zlen d) bs).
Proof.
  intros [Hf Ht Hb Hn _ _]. unfold IsDone, offset. rewrite Ht, Hb, Z.geb_leb.
  destruct (redoBlocks r) as [|i l] eqn:El.
  - rewrite zlen_nil, Z.eqb_refl, andb_true_l.
    destruct (decide (nextIndex r = nblocks (zlen d) bs)) as [E|E].
    + rewrite E. rewrite bool_decide_eq_true_2 by done.
      apply Z.leb_le, (Offset_end _ _ Hd).
    + rewrite bool_decide_eq_false_2 by (intros [? ?]; congruence).
      apply Z.leb_gt, (Offset_in _ _ Hd). lia.
  - rewrite bool_decide_eq_false_2 by (intros [? ?]; congruence).
    rewrite zlen_cons. pose proof (zlen_nonneg l). by rewrite (proj2 (Z.eqb_neq _ _)) by lia.
Qed.

(** The next block of a reader with data, and the reader after it. *)
Lemma NextBlock_ok r :
  reader_inv d bs r → HasData r = true →
  ∃ i r', NextBlock r = (Ret (Some (the_block d bs i), None), r') ∧
    reader_inv d bs r' ∧ 0 ≤ i < nblocks (zlen d) bs ∧
    match redoBlocks r with
    | j :: l => i = j ∧ redoBlocks r' = l ∧ nextIndex r' = nextIndex r
    | [] => i = nextIndex r ∧ redoBlocks r' = [] ∧ nextIndex r' = nextIndex r + 1
    end.
Proof.
  intros Hinv Hdata. unfold HasData in Hdata. rewrite negb_true_iff in Hdata.
  unfold NextBlock, get. unfold mbind at 1, M_bind at 1. rewrite Hdata.
  rewrite Reader_IsDone_iff, bool_decide_eq_false in Hdata by done.
  pose proof Hinv as [Hf Ht Hb Hn Hr Hnd].
  pose proof (nblocks_bound _ _ Hd). pose proof Hd as [Hz _]. rewrite max_alloc_eq in *.
  destruct (redoBlocks r) as [|j l] eqn:El.
  - assert (nextIndex r ≠ nblocks (zlen d) bs) by (intros ?; by apply Hdata).
    destruct (ReadBlock_ok r (nextIndex r) Hinv) as (f & HR & Hf'); [lia|].
    rewrite (bind_Ret _ _ _ _ _ HR). unfold modify, mbind, M_bind. simpl. rewrite El.
    eexists _, _. split; [done|]. rewrite u64_small by lia.
    split; [|split; [lia|done]]. split; simpl; (done || lia).
  - apply Forall_cons in Hr as [Hj Hl]. apply NoDup_cons in Hnd as [Hjl Hnd].
    destruct (ReadBlock_ok r j Hinv) as (f & HR & Hf'); [lia|].
    rewrite (bind_Ret _ _ _ _ _ HR). unfold modify, mbind, M_bind. simpl. rewrite El.
    eexists _, _. split; [done|]. split; [|split; [lia|done]]. by split.
Qed.

Lemma NextBlock_EOF r :
  IsDone r = true → NextBlock r = (Ret (None, Some EOF), r).
Proof. intros E. unfold NextBlock, get, mbind, M_bind. by rewrite E. Qed.

(** A block that was read and is not queued is queued by [RedoBlock]. *)
Lemma RedoBlock_queue r i :
  reader_inv d bs r → 0 ≤ i < nextIndex r → i ∉ redoBlocks r →
  RedoBlock i r = (Ret (true, None), set_redoBlocks r (redoBlocks r ++ [i])) ∧
  reader_inv d bs (set_redoBlocks r (redoBlocks r ++ [i])).
Proof.
  intros [Hf Ht Hb Hn Hr Hnd] Hi Hnew.
  unfold RedoBlock, get, mbind, M_bind, offset. rewrite Ht, Hb, !Z.geb_leb.
  rewrite (proj2 (Z.leb_gt _ _)) by (by apply (Offset_in (zlen d) bs Hd); lia).
  rewrite (proj2 (Z.leb_gt _ _)), bool_decide_eq_false_2 by (done || lia).
  split; [done|]. split; simpl; try done.
  - apply Forall_app. split; [done|]. by constructor.
  - apply NoDup_app. split_and!; [done| |by apply NoDup_singleton].
    intros x Hx ->%list_elem_of_singleton. done.
Qed.

Lemma RedoBlock_queued r i :
  reader_inv d bs r → 0 ≤ i < nextIndex r → i ∈ redoBlocks r →
  RedoBlock i r = (Ret (false, None), r).
Proof.
  intros [Hf Ht Hb Hn Hr Hnd] Hi Hin.
  unfold RedoBlock, get, mbind, M_bind, offset. rewrite Ht, Hb, !Z.geb_leb.
  rewrite (proj2 (Z.leb_gt _ _)) by (by apply (Offset_in (zlen d) bs Hd); lia).
  by rewrite (proj2 (Z.leb_gt _ _)), bool_decide_eq_true_2 by (done || lia).
Qed.

Lemma RedoBlock_refused r i :
  nextIndex r ≤ i →
  RedoBlock i r = (Ret (false, Some (if Size.Offset (blockSize r) i >=? totalSize r
                                     then InvalidIndex else IndexNotYetRead)), r).
Proof.
  intros Hi. unfold RedoBlock, get, mbind, M_bind, offset. case_goal; [done|].
  by rewrite Z.geb_leb, (proj2 (Z.leb_le _ _)).
Qed.
End ReaderProps.

(** ** The block writer as a write-once store of blocks *)

(** The abstract writer: a finite map from block indices to block data.  What
    writing a block answers, and the store after it. *)
Definition store_write (total bs : Z) (b : Block) (m : gmap Z bytes) : option error * gmap Z bytes :=
  if nblocks total bs <=? Index b then (Some Writer.WriterBoundsExceeded, m)
  else if negb (zlen (Data b) =? block_len total bs (Index b)) then (Some Writer.BadBlockData, m)
  else match m !! Index b with
  | Some _ => (Some Writer.AlreadyWritten, m)
  | None =>
      if bool_decide (ComputeChecksum (Index b) (Data b) = Checksum b)
      then (None, <[Index b := Data b]> m)
      else (Some Writer.BadBlockChecksum, m)
  end.

(** All blocks are in the store. *)
Definition store_full (total bs : Z) (m : gmap Z bytes) : Prop :=
  Forall (λ i, is_Some (m !! i)) (seqZ 0 (nblocks total bs)).

#[export] Instance store_full_dec total bs m : Decision (store_full total bs m).
Proof. unfold store_full. apply _. Defined.

Lemma store_full_lookup total bs m :
  store_full total bs m ↔ ∀ i, 0 ≤ i < nblocks total bs → is_Some (m !! i).
Proof.
  unfold store_full. rewrite Forall_forall. setoid_rewrite elem_of_seqZ.
  split; intros Hm i Hi; apply Hm; lia.
Qed.

Section WriterProps.
Context {F : Type} `{FileWriter F}.
Import Writer.
Implicit Types (w : Writer F) (m : gmap Z bytes) (c : bytes).

(** The writer [w], whose file has contents [c], represents the store [m]. *)
Record writer_rep (total bs : Z) (w : Writer F) (c : bytes) (m : gmap Z bytes) : Prop := {
  wr_total : totalSize w = total;
  wr_bs : blockSize w = bs;
  wr_file : fw_holds (writer w) c;
  wr_len : zlen c = total;
  wr_data i x : m !! i = Some x → sub c (i * bs) (block_len total bs i) = x;
  wr_dom i : is_Some (m !! i) → 0 ≤ i < nblocks total bs;
  wr_bits : zlen (written w) = nblocks total bs;
  wr_bit i : 0 ≤ i < nblocks total bs →
    written w !! Z.to_nat i = Some (bool_decide (is_Some (m !! i)));
  wr_count : writtenCount w = Z.of_nat (size m)
}.

Context (total bs : Z) (Hd : dims total bs).

Lemma NewWriter_rep f c :
  fw_holds f c → zlen c = total →
  ∃ w, NewWriter f total bs = Ret w ∧ writer_rep total bs w c ∅.
Proof.
  intros Hf Hc. unfold NewWriter. rewrite (BlockCount_eq _ _ Hd).
  pose proof (nblocks_nonneg _ _ Hd). pose proof (nblocks_bound _ _ Hd).
  pose proof Hd as [Ht _]. unfold mbind, outcome_bind. rewrite make_slice_ok by lia.
  eexists. split; [done|]. split; simpl; try done; try (by intros i [x Hx]).
  - rewrite zlen_replicate. lia.
  - intros i Hi. rewrite lookup_empty. rewrite bool_decide_eq_false_2 by apply is_Some_None.
    apply lookup_replicate. split; [done|lia].
Qed.

Lemma store_size_le m :
  (∀ i, is_Some (m !! i) → 0 ≤ i < nblocks total bs) →
  Z.of_nat (size m) ≤ nblocks total bs.
Proof.
  intros Hm. pose proof (nblocks_nonneg _ _ Hd).
  assert (dom m ⊆ list_to_set (C := gset Z) (seqZ 0 (nblocks total bs))) as Hsub.
  { intros i Hi. apply elem_of_list_to_set, elem_of_seqZ.
    apply elem_of_dom, Hm in Hi. lia. }
  apply subseteq_size in Hsub. rewrite size_dom, size_list_to_set, length_seqZ in Hsub
    by apply NoDup_seqZ. lia.
Qed.

Lemma store_full_size m :
  (∀ i, is_Some (m !! i) → 0 ≤ i < nblocks total bs) →
  Z.of_nat (size m) = nblocks total bs ↔ store_full total bs m.
Proof.
  intros Hm. rewrite store_full_lookup. pose proof (nblocks_nonneg _ _ Hd).
  set (A := list_to_set (C := gset Z) (seqZ 0 (nblocks total bs))).
  assert (size A = Z.to_nat (nblocks total bs)) as HA.
  { unfold A. rewrite size_list_to_set by apply NoDup_seqZ. apply length_seqZ. }
  assert (∀ i, i ∈ A ↔ 0 ≤ i < nblocks total bs) as HinA.
  { intros i. unfold A. rewrite elem_of_list_to_set, elem_of_seqZ. lia. }
  assert (dom m ⊆ A) as Hsub.
  { intros i Hi. apply HinA, Hm. by apply elem_of_dom. }
  split.
  - intros Hs i Hi. apply elem_of_dom.
    assert (dom m ≡ A) as Heq; [|apply Heq, HinA; done].
    apply set_subseteq_size_equiv; [done|]. rewrite HA, size_dom. lia.
  - intros Hfull. assert (A ⊆ dom m) as Hsup.
    { intros i Hi. apply elem_of_dom, Hfull. by apply HinA. }
    apply subseteq_size in Hsup, Hsub. rewrite HA, size_dom in *. lia.
Qed.

(** [IsDone] answers whether all blocks are there. *)
Lemma Writer_IsDone_iff w c m :
  writer_rep total bs w c m →
  IsDone w = Ret (bool_decide (store_full total bs m)).
Proof.
  intros Hrep. unfold IsDone, BlockCount.
  rewrite (wr_bs _ _ _ _ _ Hrep), (wr_total _ _ _ _ _ Hrep), (BlockCount_eq _ _ Hd).
  unfold mbind, outcome_bind, mret, outcome_ret.
  rewrite (wr_count _ _ _ _ _ Hrep). f_equal.
  pose proof (store_full_size m (wr_dom _ _ _ _ _ Hrep)) as Hs.
  destruct (Z.eqb_spec (Z.of_nat (size m)) (nblocks total bs)).
  - symmetry. by apply bool_decide_eq_true_2, Hs.
  - symmetry. apply bool_decide_eq_false_2. tauto.
Qed.

Lemma block_windows_disjoint i j :
  i ≠ j → i * bs + block_len total bs i ≤ j * bs ∨ j * bs + block_len total bs j ≤ i * bs.
Proof. intros. destruct Hd. unfold block_len. nia. Qed.

(** Seeking to a block and writing its bytes overwrites its window. *)
Lemma seek_write_ok w c m i data :
  writer_rep total bs w c m → 0 ≤ i < nblocks total bs →
  zlen data = block_len total bs i →
  ∃ f1 f2, seek i w = (Ret None, lset writer_field f1 w) ∧
    write data (lset writer_field f1 w) = (Ret None, lset writer_field f2 w) ∧
    fw_holds f2 (splice c (i * bs) data).
Proof.
  intros [Ht Hb Hf Hl _ _ _ _ _] Hi Hlen.
  pose proof (proj1 (nblocks_lt _ _ Hd i ltac:(lia)) ltac:(lia)) as Hlt.
  pose proof (block_len_end total bs i Hi) as Hbe.
  pose proof Hd as [Hz Hbs]. rewrite max_alloc_eq in *.
  destruct (fw_seek_write (writer w) c (i * bs) data) as (f1 & f2 & Hs & Hw & Hf2);
    [done|nia|lia|unfold max_i64; nia|].
  exists f1, f2. split_and!; [| |done].
  - unfold seek, get, mbind, M_bind, offset. rewrite Hb, (Offset_eq _ _ Hd) by lia.
    rewrite i64_small by nia. erewrite zoom_eq by exact Hs. cbv beta iota.
    by rewrite Z.eqb_refl.
  - unfold write, mbind, M_bind. erewrite zoom_eq by exact Hw. cbv beta iota.
    by rewrite Z.eqb_refl.
Qed.

(** The representation after a new block was written. *)
Lemma writer_rep_insert w c m i data f2 :
  writer_rep total bs w c m → 0 ≤ i < nblocks total bs → m !! i = None →
  zlen data = block_len total bs i → fw_holds f2 (splice c (i * bs) data) →
  writer_rep total bs
    (mkWriter f2 (totalSize w) (blockSize w) (<[Z.to_nat i := true]> (written w))
              (u64 (writtenCount w + 1)))
    (splice c (i * bs) data) (<[i := data]> m).
Proof.
  intros [Ht Hb Hf Hl Hdata Hdom Hbits Hbit Hcount] Hi Hnew Hlen Hf2.
  pose proof (proj1 (nblocks_lt _ _ Hd i ltac:(lia)) ltac:(lia)) as Hlt.
  pose proof (block_len_end total bs i Hi) as Hbe.
  pose proof (nblocks_bound _ _ Hd) as Hnb.
  pose proof (store_size_le m Hdom) as Hsz.
  pose proof Hd as [Hz Hbs]. rewrite max_alloc_eq in *. split; simpl; try done.
  - by rewrite zlen_splice by nia.
  - intros j x Hx. destruct (decide (i = j)) as [<-|Hne].
    + rewrite lookup_insert_eq in Hx. simplify_eq. rewrite <- Hlen.
      apply sub_splice_same; nia.
    + rewrite lookup_insert_ne in Hx by done.
      pose proof (Hdom j ltac:(eauto)) as Hj.
      pose proof (block_len_pos _ _ Hd j Hj). rewrite <- (Hdata _ _ Hx).
      destruct (block_windows_disjoint i j Hne).
      * apply sub_splice_after; nia.
      * apply sub_splice_before; nia.
  - intros j [x Hx]. destruct (decide (i = j)) as [<-|Hne]; [done|].
    rewrite lookup_insert_ne in Hx by done. eauto.
  - by rewrite zlen_insert.
  - intros j Hj. destruct (decide (i = j)) as [<-|Hne].
    + rewrite lookup_insert_eq, list_lookup_insert_eq by (unfold zlen in *; lia).
      by rewrite bool_decide_eq_true_2 by eauto.
    + rewrite list_lookup_insert_ne, lookup_insert_ne, Hbit by (done || lia). done.
  - rewrite map_size_insert_None by done. rewrite Hcount, u64_small by lia. lia.
Qed.

Lemma Writer_offset_refused i :
  nblocks total bs ≤ i → i * bs < 2 ^ 64 → total ≤ Size.Offset bs i.
Proof.
  intros Hi Hov. pose proof (nblocks_end _ _ Hd). pose proof (nblocks_nonneg _ _ Hd).
  destruct Hd. unfold Size.Offset. rewrite u64_small by nia. nia.
Qed.

(** [checkBlock] decides as the store does. *)
Lemma checkBlock_refines w c m b :
  writer_rep total bs w c m → 0 ≤ Index b → Index b * bs < 2 ^ 64 →
  checkBlock b w = (Ret (store_write total bs b m).1, w).
Proof.
  intros [Ht Hb Hf Hl Hdata Hdom Hbits Hbit Hcount] Hi Hov.
  unfold checkBlock, store_write, get, mbind, M_bind, offset, amount.
  rewrite Ht, Hb, Z.geb_leb. destruct (Z.leb_spec (nblocks total bs) (Index b)).
  { rewrite (proj2 (Z.leb_le _ _)); [done|]. by apply Writer_offset_refused. }
  rewrite (proj2 (Z.leb_gt _ _)) by (by apply (Offset_in _ _ Hd); lia).
  rewrite (Offset_eq _ _ Hd), (Amount_eq _ _ Hd) by lia. case_goal; [done|].
  unfold lift. rewrite (index_Some _ _ (bool_decide (is_Some (m !! Index b))))
    by (done || by apply Hbit; lia).
  destruct (m !! Index b) eqn:Em.
  - by rewrite bool_decide_eq_true_2 by eauto.
  - rewrite (bool_decide_eq_false_2 (is_Some None)) by apply is_Some_None.
    by case_bool_decide.
Qed.

(** The writer refines the store: it answers what the store answers, ends in
    a writer that represents the store after the write, and is left alone
    when the block is refused. *)
Lemma WriteBlock_refines w c m b :
  writer_rep total bs w c m → 0 ≤ Index b → Index b * bs < 2 ^ 64 →
  ∃ w' c', WriteBlock b w = (Ret (store_write total bs b m).1, w') ∧
    writer_rep total bs w' c' (store_write total bs b m).2 ∧
    ((store_write total bs b m).1 ≠ None → w' = w ∧ c' = c).
Proof.
  intros Hrep Hi Hov.
  pose proof (checkBlock_refines w c m b Hrep Hi Hov) as Hcheck.
  unfold WriteBlock. rewrite (bind_Ret _ _ _ _ _ Hcheck). clear Hcheck. unfold store_write.
  destruct (Z.leb_spec (nblocks total bs) (Index b)); [by exists w, c|].
  destruct (negb (zlen (Data b) =? _)) eqn:Hl; [by exists w, c|]. zbool.
  destruct (m !! Index b) eqn:Em; [by exists w, c|].
  case_bool_decide; [|by exists w, c]. simpl.
  destruct (seek_write_ok w c m (Index b) (Data b) Hrep) as (f1 & f2 & Hs & Hw & Hf2);
    [lia|lia|].
  rewrite (bind_Ret _ _ _ _ _ Hs), (bind_Ret _ _ _ _ _ Hw).
  unfold get, mbind, M_bind, lift, put. simpl.
  rewrite assign_in by (rewrite (wr_bits _ _ _ _ _ Hrep); lia).
  eexists _, (splice c (Index b * bs) (Data b)). split_and!; [done| |done].
  apply writer_rep_insert; (done || lia).
Qed.
(** A block with an index that is no index of the file is never accepted. *)
Lemma WriteBlock_outside w c m b err w' :
  writer_rep total bs w c m → ¬ (0 ≤ Index b < nblocks total bs) →
  WriteBlock b w = (Ret err, w') → err ≠ None ∧ w' = w.
Proof.
  intros Hrep Hi HW. unfold WriteBlock in HW. apply bind_Ret_iff in HW as (e & w1 & HC & HW).
  assert (e ≠ None ∧ w1 = w) as [He ->]; [|destruct e; [by injection HW as <- <-|by destruct He]].
  unfold checkBlock, get, mbind, M_bind, mret, M_ret in HC.
  destruct (_ >=? _); [by simplify_eq|]. destruct (negb _); [by simplify_eq|]. unfold lift in HC.
  assert (index (written w) (Index b) = Panic PanicIndex) as E; [|by rewrite E in HC].
  destruct (Z_lt_dec (Index b) 0); [unfold index; by zcond|].
  apply index_out. rewrite (wr_bits _ _ _ _ _ Hrep). lia.
Qed.

(** What a write that returns has done, for any block. *)
Lemma WriteBlock_cases w c m b err w' :
  writer_rep total bs w c m → WriteBlock b w = (Ret err, w') →
  err ≠ None ∧ w' = w ∨
  err = None ∧ ComputeChecksum (Index b) (Data b) = Checksum b ∧ 0 ≤ Index b < nblocks total bs ∧
    ∃ c', writer_rep total bs w' c' (<[Index b := Data b]> m).
Proof.
  intros Hrep HW. destruct (decide (0 ≤ Index b < nblocks total bs)) as [Hi|Hi];
    [|left; by eapply WriteBlock_outside].
  assert (Index b * bs < 2 ^ 64) as Hov.
  { pose proof (proj1 (nblocks_lt _ _ Hd (Index b) ltac:(lia)) ltac:(lia)). destruct Hd as [Ht _].
    rewrite max_alloc_eq in Ht. lia. }
  destruct (WriteBlock_refines w c m b Hrep ltac:(lia) Hov) as (w1 & c1 & HW1 & Hrep1 & Hsame).
  rewrite HW in HW1. injection HW1 as -> ->. destruct (store_write total bs b m) as [[e|] m'] eqn:E; simpl in *.
  - left. by destruct (Hsame ltac:(done)).
  - right. unfold store_write in E. repeat (case_match; simplify_eq). case_bool_decide; simplify_eq. eauto.
Qed.

(** Every block of the store is one of [bl], and its checksum is right. *)
Definition blocks_from (bl : list Block) m : Prop :=
  ∀ i x, m !! i = Some x → ∃ b, b ∈ bl ∧ Index b = i ∧ Data b = x ∧ ComputeChecksum i x = Checksum b.

Lemma blocks_from_insert bl m b :
  blocks_from bl m → ComputeChecksum (Index b) (Data b) = Checksum b →
  blocks_from (b :: bl) (<[Index b := Data b]> m).
Proof.
  intros Hm Hb i x [[<- <-]|[_ Hx]]%lookup_insert_Some; [exists b; by split_and!; [left|..]|].
  destruct (Hm i x Hx) as (b' & ? & ?). exists b'. split; [by right|done].
Qed.

Lemma blocks_from_cons bl m b : blocks_from bl m → blocks_from (b :: bl) m.
Proof. intros Hm i x (b' & ? & ?)%Hm. exists b'. split; [by right|done]. Qed.

(** Blocks are written one after the other, and errors are ignored. *)
Lemma WriteBlock_any bl bl0 w c m w' :
  writer_rep total bs w c m → blocks_from bl0 m →
  for_each bl (λ b, _ ← WriteBlock b; mret ()) w = (Ret (), w') →
  ∃ c' m', writer_rep total bs w' c' m' ∧ blocks_from (rev bl ++ bl0) m'.
Proof.
  revert bl0 w c m. induction bl as [|b bl IH]; intros bl0 w c m Hrep Hm HW; simpl in HW.
  { injection HW as <-. by exists c, m. }
  apply bind_Ret_iff in HW as ([] & w1 & HW1 & HW). apply bind_Ret_iff in HW1 as (err & w2 & HW1 & [= ->]).
  simpl. rewrite <- app_assoc. destruct (WriteBlock_cases _ _ _ _ _ _ Hrep HW1) as [[_ ->]|(_ & Hck & _ & c1 & Hrep1)].
  - eapply IH; [exact Hrep|by apply blocks_from_cons|done].
  - eapply IH; [exact Hrep1|by apply blocks_from_insert|done].
Qed.
End WriterProps.

(** ** A file written block by block *)

(** The caller gives up on an error. *)
Definition must {S} (err : option error) : M S unit :=
  match err with None => mret () | Some e => throw (PanicError e) end.

Section WholeFile.
Context {F : Type} `{FileWriter F}.
Implicit Types w : Writer.Writer F.
Context (d : bytes) (bs : Z) (Hd : dims (zlen d) bs).

(** The store that holds the blocks of [d] with the given indices. *)
Definition blocks_of (l : list Z) : gmap Z bytes :=
  list_to_map ((λ i, (i, block_data d bs i)) <$> l).

Lemma blocks_of_cons i l : blocks_of (i :: l) = <[i := block_data d bs i]> (blocks_of l).
Proof. done. Qed.

Lemma lookup_blocks_of l i :
  blocks_of l !! i = if bool_decide (i ∈ l) then Some (block_data d bs i) else None.
Proof.
  induction l as [|j l IH]; [done|]. rewrite blocks_of_cons.
  destruct (decide (j = i)) as [->|E].
  - by rewrite lookup_insert_eq, bool_decide_eq_true_2 by (by left).
  - rewrite lookup_insert_ne, IH by done.
    rewrite (bool_decide_ext (i ∈ j :: l) (i ∈ l)); [done|]. rewrite elem_of_cons. split; [intros [->|?]; done | by right].
Qed.

Lemma index_no_overflow i : 0 ≤ i < nblocks (zlen d) bs → i * bs < 2 ^ 64.
Proof.
  intros Hi. pose proof (proj1 (nblocks_lt _ _ Hd i ltac:(lia)) ltac:(lia)).
  destruct Hd as [Hz _]. rewrite max_alloc_eq in Hz. lia.
Qed.

(** Writing a block of the file that is not there yet. *)
Lemma WriteBlock_new w c l i :
  writer_rep (zlen d) bs w c (blocks_of l) → 0 ≤ i < nblocks (zlen d) bs → i ∉ l →
  ∃ w' c', Writer.WriteBlock (the_block d bs i) w = (Ret None, w') ∧
    writer_rep (zlen d) bs w' c' (blocks_of (i :: l)).
Proof.
  intros Hrep Hi Hnew.
  pose proof (WriteBlock_refines (zlen d) bs Hd w c _ (the_block d bs i) Hrep) as Hw.
  unfold store_write in Hw. simpl in Hw.
  rewrite zlen_block_data, Z.eqb_refl, lookup_blocks_of in Hw by done. simpl in Hw.
  rewrite (proj2 (Z.leb_gt _ _)), bool_decide_eq_false_2, bool_decide_eq_true_2 in Hw
    by (done || lia).
  destruct Hw as (w' & c' & Hw & Hrep' & _); [lia | by apply index_no_overflow |]. eauto.
Qed.

Lemma store_full_blocks_of l :
  seqZ 0 (nblocks (zlen d) bs) ⊆ l → store_full (zlen d) bs (blocks_of l).
Proof.
  intros Hl. apply store_full_lookup. intros i Hi. rewrite lookup_blocks_of.
  rewrite bool_decide_eq_true_2; [eauto|]. apply Hl, elem_of_seqZ. lia.
Qed.

(** A writer that holds all blocks of [d] has written the file [d]. *)
Lemma writer_rep_full w c l :
  writer_rep (zlen d) bs w c (blocks_of l) → seqZ 0 (nblocks (zlen d) bs) ⊆ l → c = d.
Proof.
  intros Hrep Hl. apply (blocks_ext c d bs).
  - by rewrite (wr_len _ _ _ _ _ Hrep).
  - apply (wr_len _ _ _ _ _ Hrep).
  - intros i Hi. rewrite (wr_len _ _ _ _ _ Hrep) in Hi. unfold block_data at 1.
    rewrite (wr_len _ _ _ _ _ Hrep). apply (wr_data _ _ _ _ _ Hrep).
    rewrite lookup_blocks_of, bool_decide_eq_true_2; [done|]. apply Hl, elem_of_seqZ. lia.
Qed.

Lemma WriteBlocks_ok w c l l0 :
  writer_rep (zlen d) bs w c (blocks_of l0) → NoDup (l ++ l0) →
  Forall (λ i, 0 ≤ i < nblocks (zlen d) bs) l →
  ∃ w' c', for_each l (λ i, Writer.WriteBlock (the_block d bs i) ≫= must) w = (Ret (), w') ∧
    writer_rep (zlen d) bs w' c' (blocks_of (rev l ++ l0)).
Proof.
  revert w c l0. induction l as [|i l IH]; intros w c l0 Hrep Hnd Hl; [by exists w, c|].
  apply Forall_cons in Hl as [Hi Hl]. simpl in Hnd. apply NoDup_cons in Hnd as [Hil Hnd].
  destruct (WriteBlock_new w c l0 i Hrep Hi) as (w1 & c1 & Hw1 & Hrep1).
  { intros ?. apply Hil, elem_of_app. by right. }
  destruct (IH w1 c1 (i :: l0) Hrep1) as (w2 & c2 & Hw2 & Hrep2).
  - rewrite <- Permutation_middle. by constructor.
  - done.
  - exists w2, c2. simpl. rewrite <- app_assoc. split; [|done].
    erewrite bind_Ret; [exact Hw2|]. by erewrite bind_Ret by exact Hw1.
Qed.
End WholeFile.

(** ** Reading a whole file *)
Section ReadAll.
Context {F : Type} `{FileReader F}.
Import Reader.
Implicit Types r : Reader F.

(** [for r.HasData() { b, err := r.NextBlock() ... }], giving up on an error. *)
Fixpoint read_all (fuel : nat) : M (Reader F) (list Block) :=
  match fuel with
  | O => lift Hang
  | S fuel =>
      r ← get;
      if HasData r then
        '(b, err) ← NextBlock;
        match b, err with
        | Some b, None => l ← read_all fuel; mret (b :: l)
        | _, _ => throw (PanicString "unexpected error")
        end
      else mret []
  end.

Context (d : bytes) (bs : Z) (Hd : dims (zlen d) bs).

Lemma read_all_from fuel r :
  reader_inv d bs r → redoBlocks r = [] →
  (Z.to_nat (nblocks (zlen d) bs - nextIndex r) < fuel)%nat →
  ∃ r', read_all fuel r =
    (Ret (the_block d bs <$> seqZ (nextIndex r) (nblocks (zlen d) bs - nextIndex r)), r').
Proof.
  revert r. induction fuel as [|fuel IH]; intros r Hinv Hredo Hf; [lia|].
  simpl. unfold get. unfold mbind at 1, M_bind at 1.
  pose proof (Reader_IsDone_iff d bs Hd r Hinv) as Hdone.
  pose proof (ri_next _ _ _ Hinv) as Hn.
  destruct (decide (nextIndex r = nblocks (zlen d) bs)) as [E|E].
  - rewrite bool_decide_eq_true_2 in Hdone by done. unfold HasData. rewrite Hdone, E, Z.sub_diag.
    by exists r.
  - rewrite bool_decide_eq_false_2 in Hdone by (intros [_ ?]; done).
    assert (HasData r = true) as Hdata by (unfold HasData; by rewrite Hdone). rewrite Hdata.
    destruct (NextBlock_ok d bs Hd r Hinv Hdata) as (i & r1 & HN & Hinv1 & Hi & Hrest).
    rewrite Hredo in Hrest. destruct Hrest as (-> & Hr1 & Hn1).
    destruct (IH r1 Hinv1 Hr1) as (r2 & Hr2); [lia|].
    exists r2. rewrite (bind_Ret _ _ _ _ _ HN), (bind_Ret _ _ _ _ _ Hr2).
    rewrite (seqZ_cons (nextIndex r)) by lia. rewrite Hn1, fmap_cons, Z.add_1_r.
    by replace (nblocks (zlen d) bs - Z.succ (nextIndex r))
      with (Z.pred (nblocks (zlen d) bs - nextIndex r)) by lia.
Qed.
End ReadAll.

(** ** Properties *)

(** C15: the loop that drains a new block reader returns after as many rounds
    as there are blocks; the blocks come in order, each carries the checksum
    of its index and data, and their data put together is the file. *)
Theorem reader_drains_file {F} `{FileReader F} (f : F) (d : bytes) (bs : Z) :
  dims (zlen d) bs → fr_holds f d →
  ∃ bl r', read_all (S (Z.to_nat (nblocks (zlen d) bs)))
                    (Reader.NewBlockReader f (zlen d) bs) = (Ret bl, r') ∧
    Index <$> bl = seqZ 0 (nblocks (zlen d) bs) ∧
    Forall (λ b, Checksum b = ComputeChecksum (Index b) (Data b) ∧ 0 < zlen (Data b) ≤ bs) bl ∧
    concat (Data <$> bl) = d.
Proof.
  intros Hd Hf. pose proof (NewBlockReader_inv d bs Hd f Hf) as Hinv.
  destruct (read_all_from d bs Hd (S (Z.to_nat (nblocks (zlen d) bs))) _ Hinv eq_refl) as (r' & Hr);
    [simpl; lia|].
  cbn [Reader.nextIndex Reader.NewBlockReader] in Hr. rewrite Z.sub_0_r in Hr.
  eexists _, r'. split; [exact Hr|].
  rewrite <- !list_fmap_compose. split_and!.
  - etrans; [|apply list_fmap_id]. by apply list_fmap_ext.
  - apply Forall_fmap, Forall_forall. intros i Hi%elem_of_seqZ. split; [done|]. simpl.
    rewrite zlen_block_data by (done || lia). apply block_len_pos; [done|lia].
  - etrans; [|apply (concat_blocks d bs Hd)]. by f_equal.
Qed.

Lemma reader_drains_file_witness :
  let d := [Byte.x30; Byte.x31; Byte.x32; Byte.x33; Byte.x34] in
  dims (zlen d) 4 ∧
  ∃ bl r', read_all 3 (Reader.NewBlockReader (Buffer.NewBuffer d) 5 4) = (Ret bl, r') ∧
    Index <$> bl = [0; 1] ∧
    Forall (λ b, Checksum b = ComputeChecksum (Index b) (Data b) ∧ 0 < zlen (Data b) ≤ 4) bl ∧
    concat (Data <$> bl) = d.
Proof.
  intros d. assert (dims (zlen d) 4) as Hd by (split; vm_compute; split; congruence).
  split; [exact Hd|].
  apply (reader_drains_file (Buffer.NewBuffer d) d 4 Hd).
  apply Buffer.NewBuffer_holds. vm_compute. congruence.
Defined.

(** C5: the block writer refines a write-once store of blocks, on every branch:
    an index behind the end, data of the wrong length, a block that is already
    there and a wrong checksum are refused, each with its error and without any
    change; every other block is stored, and [IsDone] holds exactly when all
    blocks are stored. *)
Theorem writer_refines_store {F} `{FileWriter F} (total bs : Z)
    (w : Writer.Writer F) (c : bytes) (m : gmap Z bytes) (b : Block) :
  dims total bs → writer_rep total bs w c m → 0 ≤ Index b → Index b * bs < 2 ^ 64 →
  ∃ w' c', Writer.WriteBlock b w = (Ret (store_write total bs b m).1, w') ∧
    writer_rep total bs w' c' (store_write total bs b m).2 ∧
    ((store_write total bs b m).1 ≠ None → w' = w ∧ c' = c) ∧
    Writer.IsDone w' = Ret (bool_decide (store_full total bs (store_write total bs b m).2)).
Proof.
  intros Hd Hrep Hi Hov.
  destruct (WriteBlock_refines total bs Hd w c m b Hrep Hi Hov) as (w' & c' & Hw & Hrep' & Hsame).
  exists w', c'. split_and!; [done..|]. by apply (Writer_IsDone_iff total bs Hd w' c').
Qed.

Lemma writer_refines_store_witness :
  let b := mkBlock 1 [Byte.x34] (ComputeChecksum 1 [Byte.x34]) in
  let w := Writer.mkWriter (Buffer.NewBuffer (replicate 5 Byte.x00)) 5 4 [false; false] 0 in
  writer_rep 5 4 w (replicate 5 Byte.x00) ∅ ∧
  ∃ w' c', Writer.WriteBlock b w = (Ret (store_write 5 4 b ∅).1, w') ∧
    writer_rep 5 4 w' c' (store_write 5 4 b ∅).2 ∧
    ((store_write 5 4 b ∅).1 ≠ None → w' = w ∧ c' = replicate 5 Byte.x00) ∧
    Writer.IsDone w' = Ret (bool_decide (store_full 5 4 (store_write 5 4 b ∅).2)).
Proof.
  intros b w.
  assert (dims 5 4) as Hd by (split; vm_compute; split; congruence).
  assert (writer_rep 5 4 w (replicate 5 Byte.x00) ∅) as Hrep.
  { destruct (NewWriter_rep (F := Buffer.Buffer) 5 4 Hd (Buffer.NewBuffer (replicate 5 Byte.x00))
                (replicate 5 Byte.x00)) as (w0 & E & Hrep);
      [apply Buffer.NewBuffer_holds; vm_compute; congruence | reflexivity |].
    replace w with w0; [exact Hrep|]. vm_compute in E. by injection E. }
  split; [exact Hrep|].
  apply (writer_refines_store 5 4 w (replicate 5 Byte.x00) ∅ b Hd Hrep);
    [vm_compute; congruence | vm_compute; reflexivity].
Defined.

(** C13: the blocks of a file can be written in any order: written once each,
    in whatever order, they are all accepted, the writer is done afterwards
    and the file it wrote is the original file. *)
Theorem writer_any_order {F} `{FileWriter F} (f : F) (c d : bytes) (bs : Z) (l : list Z) :
  dims (zlen d) bs → fw_holds f c → zlen c = zlen d →
  l ≡ₚ seqZ 0 (nblocks (zlen d) bs) →
  ∃ w w', Writer.NewWriter f (zlen d) bs = Ret w ∧
    for_each l (λ i, Writer.WriteBlock (the_block d bs i) ≫= must) w = (Ret (), w') ∧
    Writer.IsDone w' = Ret true ∧ fw_holds (Writer.writer w') d.
Proof.
  intros Hd Hf Hc Hl.
  destruct (NewWriter_rep (zlen d) bs Hd f c Hf Hc) as (w & Hw & Hrep).
  destruct (WriteBlocks_ok d bs Hd w c l [] Hrep) as (w' & c' & Hw' & Hrep').
  - rewrite app_nil_r, Hl. apply NoDup_seqZ.
  - apply Forall_forall. intros i Hi. rewrite Hl in Hi. apply elem_of_seqZ in Hi. lia.
  - rewrite app_nil_r in Hrep'. exists w, w'. split_and!; [done..| |].
    + rewrite (Writer_IsDone_iff _ _ Hd _ _ _ Hrep'). f_equal. apply bool_decide_eq_true_2.
      apply store_full_blocks_of. intros i Hi. by rewrite <- (Permutation_rev l), Hl.
    + replace d with c' at 1; [apply (wr_file _ _ _ _ _ Hrep')|].
      apply (writer_rep_full d bs Hd w' c' (rev l) Hrep').
      intros i Hi. by rewrite <- (Permutation_rev l), Hl.
Qed.

Lemma writer_any_order_witness :
  let d := [Byte.x30; Byte.x31; Byte.x32; Byte.x33; Byte.x34] in
  ∃ w w', Writer.NewWriter (Buffer.NewBuffer (replicate 5 Byte.x00)) (zlen d) 4 = Ret w ∧
    for_each [1; 0] (λ i, Writer.WriteBlock (the_block d 4 i) ≫= must) w = (Ret (), w') ∧
    Writer.IsDone w' = Ret true ∧ fw_holds (Writer.writer w') d.
Proof.
  intros d.
  apply (writer_any_order (Buffer.NewBuffer (replicate 5 Byte.x00)) (replicate 5 Byte.x00) d 4 [1; 0]).
  - split; vm_compute; split; congruence.
  - apply Buffer.NewBuffer_holds. vm_compute. congruence.
  - reflexivity.
  - change (seqZ 0 (nblocks (zlen d) 4)) with [0; 1]. apply perm_swap.
Defined.

(** C14: integrity.  Whatever blocks a new writer is given, in whatever order
    and however often, and whatever it answers: if each of them carries the
    checksum that the reader gave to the block of that index, and the writer is
    done in the end, then the file it wrote is the original file, or one of the
    blocks makes a SHA-256 collision with the original block. *)
Theorem writer_integrity {F} `{FileWriter F} (f : F) (c d : bytes) (bs : Z)
    (bl : list Block) (w w' : Writer.Writer F) :
  dims (zlen d) bs → fw_holds f c → zlen c = zlen d → Writer.NewWriter f (zlen d) bs = Ret w →
  (∀ b, b ∈ bl → Checksum b = Checksum (the_block d bs (Index b))) →
  for_each bl (λ b, _ ← Writer.WriteBlock b; mret ()) w = (Ret (), w') →
  Writer.IsDone w' = Ret true →
  fw_holds (Writer.writer w') d ∨
  ∃ b, b ∈ bl ∧ let x := be_bytes 8 (Index b) ++ Data b in
    let y := be_bytes 8 (Index b) ++ block_data d bs (Index b) in x ≠ y ∧ sha256 x = sha256 y.
Proof.
  intros Hd Hf Hc Hw Hck HW Hdone.
  destruct (NewWriter_rep (zlen d) bs Hd f c Hf Hc) as (w0 & Hw0 & Hrep). rewrite Hw in Hw0. injection Hw0 as <-.
  destruct (WriteBlock_any (zlen d) bs Hd bl [] w c ∅ w' Hrep) as (c' & m & Hrep' & Hm); [by intros i x|done|].
  rewrite (Writer_IsDone_iff _ _ Hd _ _ _ Hrep') in Hdone. injection Hdone as Hfull%bool_decide_eq_true.
  rewrite store_full_lookup in Hfull. rewrite app_nil_r in Hm.
  destruct (decide (Exists (λ b, Data b ≠ block_data d bs (Index b) ∧ ComputeChecksum (Index b) (Data b) = Checksum b) bl))
    as [(b & Hb & Hne & Hsum)%Exists_exists|Hno].
  - right. exists b. split; [done|]. cbv zeta. split; [by intros ?%app_inv_head|].
    pose proof (Hck b Hb) as Hcb. unfold ComputeChecksum in Hsum. by rewrite Hsum, Hcb.
  - left. rewrite Exists_exists in Hno. replace d with c'; [by eapply wr_file|].
    apply (blocks_ext c' d bs); rewrite (wr_len _ _ _ _ _ Hrep'); try done.
    intros i Hi. destruct (Hfull i Hi) as [x Hx]. destruct (Hm i x Hx) as (b & Hb & <- & <- & Hsum).
    unfold block_data at 1. rewrite (wr_len _ _ _ _ _ Hrep'), (wr_data _ _ _ _ _ Hrep' _ _ Hx).
    destruct (decide (Data b = block_data d bs (Index b))) as [|Hne]; [done|].
    destruct Hno. exists b. split; [by rewrite <- Permutation_rev in Hb|]. by split.
Qed.

Lemma writer_integrity_witness :
  let d := [Byte.x30; Byte.x31; Byte.x32; Byte.x33; Byte.x34] in
  let bl := [the_block d 4 1; the_block d 4 1; the_block d 4 0] in
  let w := Writer.mkWriter (Buffer.NewBuffer (replicate 5 Byte.x00)) 5 4 [false; false] 0 in
  let w' := (for_each bl (λ b, _ ← Writer.WriteBlock b; mret ()) w).2 in
  Writer.IsDone w' = Ret true ∧
  (fw_holds (Writer.writer w') d ∨
   ∃ b, b ∈ bl ∧ let x := be_bytes 8 (Index b) ++ Data b in
     let y := be_bytes 8 (Index b) ++ block_data d 4 (Index b) in x ≠ y ∧ sha256 x = sha256 y).
Proof.
  intros d bl w w'. split; [vm_compute; reflexivity|].
  apply (writer_integrity (Buffer.NewBuffer (replicate 5 Byte.x00)) (replicate 5 Byte.x00) d 4 bl w w').
  - split; vm_compute; split; congruence.
  - apply Buffer.NewBuffer_holds. vm_compute. congruence.
  - reflexivity.
  - reflexivity.
  - intros b Hb. unfold bl in Hb. repeat (apply elem_of_cons in Hb as [->|Hb]; [reflexivity|]). by apply not_elem_of_nil in Hb.
  - vm_compute. reflexivity.
  - vm_compute. reflexivity.
Defined.

(** C31: a block index behind the end whose offset wraps around 64 bits to a
    valid offset passes the bounds check and crashes the writer with an index
    out of range: the check is on the wrapped offset, the bitmap is indexed by
    the block index. *)
Theorem writer_offset_wraparound_panics {F} `{FileWriter F} (total bs : Z)
    (w : Writer.Writer F) (c : bytes) (m : gmap Z bytes) (b : Block) :
  dims total bs → writer_rep total bs w c m →
  nblocks total bs ≤ Index b → Size.Offset bs (Index b) < total →
  zlen (Data b) = Size.Amount bs (Size.Offset bs (Index b)) total →
  Writer.WriteBlock b w = (Panic PanicIndex, w).
Proof.
  intros Hd [Ht Hb _ _ _ _ Hbits _ _] Hi Hoff Hlen.
  unfold Writer.WriteBlock. apply bind_Panic.
  unfold Writer.checkBlock, get, mbind, M_bind, Writer.offset, Writer.amount, lift.
  rewrite Ht, Hb, Z.geb_leb, (proj2 (Z.leb_gt _ _)), Hlen, Z.eqb_refl by done. simpl.
  by rewrite index_out by lia.
Qed.

Lemma writer_offset_wraparound_panics_witness :
  let w := Writer.mkWriter (Buffer.NewBuffer (replicate 5 Byte.x00)) 5 4 [false; false] 0 in
  Writer.WriteBlock (mkBlock (2 ^ 62) (replicate 4 Byte.x00) []) w = (Panic PanicIndex, w).
Proof.
  intros w. assert (dims 5 4) as Hd by (split; vm_compute; split; congruence).
  destruct (NewWriter_rep (F := Buffer.Buffer) 5 4 Hd (Buffer.NewBuffer (replicate 5 Byte.x00))
              (replicate 5 Byte.x00)) as (w0 & E & Hrep);
    [apply Buffer.NewBuffer_holds; vm_compute; congruence | reflexivity |].
  vm_compute in E. injection E as <-.
  apply (writer_offset_wraparound_panics 5 4 w (replicate 5 Byte.x00) ∅ _ Hd Hrep);
    vm_compute; congruence || reflexivity.
Defined.
