(* ===== verification/Automaton.v ===== *)
(** * Automaton: the finite-state automata of [lib/automaton]

    [state.go] (states and the [StateHandle] through which a handler may move
    to a new state once), [transition.go] (compilation of one transition to an
    invoker) and [automaton.go] (compilation of a transition table, and
    [CompiledAutomaton.Transition]).

    The automaton is generic: [W] is the store the handlers work on, [st] the
    cell of it that holds the automaton's state (the pointer that is passed to
    [Compile]), [D] the type of the [Do] values, [In] and [Out] the types of
    the values a transition takes and gives ([None] is Go's [nil]). *)

From S2P Require Import Prelude GoSem.

Local Open Scope Z_scope.

(** ** [state.go]: states *)

(** [State] is an [int]; 0 is reserved for the unset state. *)
Abbreviation State := Z.
Definition NoState : State := 0.

Definition State_Is (s state : State) : bool := s =? state.
Definition State_IsNot (s state : State) : bool := negb (State_Is s state).
Fixpoint State_IsAny (s : State) (states : list State) : bool :=
  match states with
  | [] => false
  | other :: states => if State_Is s other then true else State_IsAny s states
  end.
Definition State_IsNone (s : State) (states : list State) : bool := negb (State_IsAny s states).

Definition IllegalStateMutation : error :=
  ErrVar "automaton.IllegalStateMutation" "mutating state is not allowed here".
Definition MultipleStateMutations : error :=
  ErrVar "automaton.MultipleStateMutations" "mutating the state more than once is illegal".
Definition UnexpectedMutatedState : error :=
  ErrVar "automaton.UnexpectedMutatedState" "did not expect a mutated state".
Definition NonTriggeringState : error :=
  ErrVar "automaton.NonTriggeringState"
    "state is not a state which could have triggered the transition".

(** ** [state.go]: the handle *)

(** The [state] pointer of the handle is the cell [st] of the store. *)
Record StateHandle : Type := mkHandle {
  original : list State;
  target : list State;
  mutated : bool
}.

Definition NewStateHandle (originalStates targetStates : list State) : StateHandle :=
  mkHandle originalStates targetStates false.

Section Handle.
Context {W : Type} (st : lens W State).

(** Code that holds a handle works on the store and on the handle. *)
Abbreviation HM := (M (W * StateHandle)).

Definition requireTarget (state : State) : HM unit :=
  h ← gets snd;
  if bool_decide (state ∈ target h) then mret () else throw (PanicError IllegalStateMutation).

Definition requireOriginal (state : State) : HM unit :=
  h ← gets snd;
  if bool_decide (state ∈ original h) then mret () else throw (PanicError NonTriggeringState).

Definition requireNotMutated : HM unit :=
  h ← gets snd;
  if mutated h then throw (PanicError UnexpectedMutatedState) else mret ().

Definition mutate : HM unit :=
  h ← gets snd;
  if mutated h then throw (PanicError MultipleStateMutations)
  else modify (λ '(w, h), (w, mkHandle (original h) (target h) true)).

Definition IsMutated : HM bool := gets (mutated ∘ snd).

Definition Set_ (newState : State) : HM unit :=
  requireTarget newState;;
  mutate;;
  modify (λ '(w, h), (lset st newState w, h)).

Definition Is (state : State) : HM bool :=
  requireNotMutated;;
  requireOriginal state;;
  gets (λ '(w, h), State_Is (lget st w) state).

Definition IsNot (state : State) : HM bool := b ← Is state; mret (negb b).

Fixpoint IsAny (states : list State) : HM bool :=
  match states with
  | [] => mret false
  | other :: states => b ← Is other; if b : bool then mret true else IsAny states
  end.

Definition IsNone (states : list State) : HM bool := b ← IsAny states; mret (negb b).
End Handle.

(** ** [transition.go] *)

Definition OkWithTo : error :=
  ErrVar "automaton.OkWithTo" "cannot have Ok and To within the same transition".
Definition OkWithoutDo : error :=
  ErrVar "automaton.OkWithoutDo" "cannot have Ok without a Do handler".
Definition EmptyTransition : error :=
  ErrVar "automaton.EmptyTransition" "cannot have an empty transition".
Definition OkWithoutMutation : error :=
  ErrVar "automaton.OkWithoutMutation" "specified Ok but did not mutate state in Do".
Definition NewStateWithError : error :=
  ErrVar "automaton.NewStateWithError" "it is illegal to mutate the state when an error occurred".

(** [None] is a nil slice or a nil interface. *)
Record Transition (D : Type) : Type := mkTransition {
  At : option (list State);
  Ok : option (list State);
  To : State;
  Do : option D
}.
Arguments mkTransition {D} _ _ _ _.
Arguments At {D} _.
Arguments Ok {D} _.
Arguments To {D} _.
Arguments Do {D} _.

(** ** [automaton.go]: data *)

Definition AmbiguousAtAndKey : error :=
  ErrVar "automaton.AmbiguousAtAndKey" "ambiguous definition with triggering state in At and map key".
Definition MissingTriggerState : error :=
  ErrVar "automaton.MissingTriggerState" "missing definition of triggering state in At or map key".
Definition AmbiguousTransitions : error :=
  ErrVar "automaton.AmbiguousTransitions"
    "ambiguous definition, cannot determine correct transition path".
Definition BadTransitionKey : error :=
  ErrVar "automaton.BadTransitionKey" "transition key not defined in automaton".
Definition BadTransitionState : error :=
  ErrVar "automaton.BadTransitionState" "transition state for key not defined in automaton".

(** The dynamic values used as keys of a transition table: a [State], a
    protocol's [MessageType], or a plain [int]. *)
Inductive Key : Type :=
| KeyState (s : State)
| KeyMessageType (t : Z)
| KeyInt (n : Z).

#[export] Instance Key_eq_dec : EqDecision Key.
Proof. solve_decision. Defined.

#[export] Instance Key_countable : Countable Key.
Proof.
  refine (inj_countable'
    (λ k, match k with KeyState s => inl s | KeyMessageType t => inr (inl t) | KeyInt n => inr (inr n) end)
    (λ x, match x with inl s => KeyState s | inr (inl t) => KeyMessageType t | inr (inr n) => KeyInt n end)
    _).
  by intros [].
Defined.

(** Run a loop that builds up a Go map, from the empty map. *)
Definition run_state {S} (m : M S unit) (s : S) : outcome S :=
  match m s with
  | (Ret _, s') => Ret s'
  | (Panic p, _) => Panic p
  | (Hang, _) => Hang
  end.

Section Automaton.
Context {W D In Out : Type} (st : lens W State).

Abbreviation HM := (M (W * StateHandle)).

(** What a handler is given besides the handle, and what it returns. *)
Definition TransitionHandler : Type := option In → HM (option Out * option error).
Definition TransitionHandlerInvoker : Type := option In → M W (option Out * option error).
Definition TransitionHandlerFactory : Type := Key → D → outcome TransitionHandler.

Definition EmptyTransitionHandler : TransitionHandler := λ _, mret (None, None).

(** The closure that [Transition.Compile] passes to the callback. *)
Definition invoker (at_ ok : list State) (to : State) (mustMutateState : bool)
    (handler : TransitionHandler) : TransitionHandlerInvoker := λ i w,
  match handler i (w, NewStateHandle at_ ok) with
  | (Panic p, (w', _)) => (Panic p, w')
  | (Hang, (w', _)) => (Hang, w')
  | (Ret (out, err), (w', stateHandle)) =>
      let w' := if negb (to =? NoState) then lset st to w' else w' in
      if negb (is_nil err) && mutated stateHandle
      then (Panic (PanicError NewStateWithError), w')
      else if is_nil err && mustMutateState && negb (mutated stateHandle)
      then (Panic (PanicError OkWithoutMutation), w')
      else (Ret (out, err), w')
  end.

(** [Transition.Compile]; [H] is the store the callback works on. *)
Definition Transition_Compile {H} (transition : Transition D)
    (createHandler : D → outcome TransitionHandler)
    (callback : State → TransitionHandlerInvoker → M H unit) : M H unit :=
  let mustMutateState := negb (is_nil (Ok transition)) in
  ok ← match Ok transition with
       | None =>
           if is_nil (Do transition) && (To transition =? NoState)
           then throw (PanicError EmptyTransition)
           else mret []
       | Some ok =>
           if negb (To transition =? NoState) then throw (PanicError OkWithTo)
           else if is_nil (Do transition) then throw (PanicError OkWithoutDo)
           else mret ok
       end;
  handler ← match Do transition with
            | None => mret EmptyTransitionHandler
            | Some do_ => lift (createHandler do_)
            end;
  let at_ := default [] (At transition) in
  for_each at_ (λ x, callback x (invoker at_ ok (To transition) mustMutateState handler)).

Record Automaton : Type := mkAutomaton {
  HandlerFactory : TransitionHandlerFactory;
  (** A Go map, as the list of its entries in the order the loop visits them. *)
  Transitions : list (Key * list (Transition D))
}.

Abbreviation CompiledTransitionMap := (gmap Key (gmap State TransitionHandlerInvoker)).

(** The callback of [Automaton.Compile]. *)
Definition register (state : State) (i : TransitionHandlerInvoker)
  : M (gmap State TransitionHandlerInvoker) unit :=
  handlers ← get;
  if bool_decide (is_Some (handlers !! state)) then throw (PanicError AmbiguousTransitions)
  else put (<[state := i]> handlers).

(** The body of the inner loop of [Automaton.Compile]. *)
Definition compile_transition (factory : TransitionHandlerFactory) (key : Key)
    (transition : Transition D) : M (gmap State TransitionHandlerInvoker) unit :=
  transition ← match key with
               | KeyState s =>
                   match At transition with
                   | Some _ => throw (PanicError AmbiguousAtAndKey)
                   | None => mret (mkTransition (Some [s]) (Ok transition) (To transition) (Do transition))
                   end
               | _ =>
                   match At transition with
                   | None => throw (PanicError MissingTriggerState)
                   | Some _ => mret transition
                   end
               end;
  Transition_Compile transition (factory key) register.

(** The body of the outer loop of [Automaton.Compile]. *)
Definition compile_entry (factory : TransitionHandlerFactory)
    (entry : Key * list (Transition D)) : M CompiledTransitionMap unit :=
  let '(key, transitions) := entry in
  (if match key with KeyState _ => zlen transitions >? 1 | _ => false end
   then throw (PanicError AmbiguousTransitions) else mret ());;
  handlers ← lift (run_state (for_each transitions (compile_transition factory key)) ∅);
  modify <[key := handlers]>.

Definition Compile (automaton : Automaton) : outcome CompiledTransitionMap :=
  run_state (for_each (Transitions automaton) (compile_entry (HandlerFactory automaton))) ∅.

(** [CompiledAutomaton.Transition] *)
Definition Automaton_Transition (automaton : CompiledTransitionMap) (key : Key) (state : State)
    (i : option In) : M W (option Out * option error) :=
  match automaton !! key with
  | None => mret (None, Some BadTransitionKey)
  | Some sub =>
      match sub !! state with
      | None => mret (None, Some BadTransitionState)
      | Some handler => handler i
      end
  end.
End Automaton.

(** ** What a table compiles to *)

Section CompileSpec.
Context {W D In Out : Type} (st : lens W State).
Context (factory : @TransitionHandlerFactory W D In Out).
Abbreviation CompiledTransitionMap := (gmap Key (gmap State (@TransitionHandlerInvoker W In Out))).
Implicit Types (key : Key) (t : Transition D) (ts : list (Transition D)).

(** The states that trigger a transition. *)
Definition triggers key t : list State :=
  match key with KeyState s => [s] | _ => default [] (At t) end.

(** [At] is given exactly when the key is not a state. *)
Definition at_ok key t : bool :=
  match key with KeyState _ => is_nil (At t) | _ => negb (is_nil (At t)) end.

(** [Ok] excludes [To] and needs [Do]; without [Ok] one of the two is there. *)
Definition fields_ok t : bool :=
  match Ok t with
  | None => negb (is_nil (Do t)) || negb (To t =? NoState)
  | Some _ => (To t =? NoState) && negb (is_nil (Do t))
  end.

Definition handler_of key t : outcome TransitionHandler :=
  match Do t with None => Ret EmptyTransitionHandler | Some d => factory key d end.

Definition do_ok key t : bool := match handler_of key t with Ret _ => true | _ => false end.

Definition transition_ok key t : bool := at_ok key t && fields_ok t && do_ok key t.

(** The invoker a well-formed transition compiles to. *)
Definition compiled key t : TransitionHandlerInvoker :=
  invoker st (triggers key t) (default [] (Ok t)) (To t) (negb (is_nil (Ok t)))
    (match handler_of key t with Ret h => h | _ => EmptyTransitionHandler end).

(** The entries of the handler map, in the order they are registered. *)
Definition registered key ts : list (State * TransitionHandlerInvoker) :=
  t ← ts; (λ s, (s, compiled key t)) <$> triggers key t.

Definition entry_ok (e : Key * list (Transition D)) : Prop :=
  (match e.1 with KeyState _ => length e.2 ≤ 1 | _ => True end)%nat ∧
  Forall (λ t, transition_ok e.1 t = true) e.2 ∧
  NoDup (registered e.1 e.2).*1.

Definition table_ok (l : list (Key * list (Transition D))) : Prop :=
  NoDup l.*1 ∧ Forall entry_ok l.

Definition compiled_table (l : list (Key * list (Transition D))) : CompiledTransitionMap :=
  list_to_map ((λ e, (e.1, list_to_map (registered e.1 e.2))) <$> l).

Lemma registered_cons key t ts :
  registered key (t :: ts) = ((λ s, (s, compiled key t)) <$> triggers key t) ++ registered key ts.
Proof. done. Qed.

(** Register a list of handlers, one after the other. *)
Definition register_pairs (l : list (State * @TransitionHandlerInvoker W In Out)) :
    M (gmap State TransitionHandlerInvoker) unit :=
  for_each l (λ p, register p.1 p.2).

Lemma register_Ret s i (h h' : gmap State (@TransitionHandlerInvoker W In Out)) :
  register s i h = (Ret (), h') ↔ h !! s = None ∧ h' = <[s := i]> h.
Proof.
  unfold register, get, mbind, M_bind, put, throw.
  case_bool_decide as E; [|apply eq_None_not_Some in E; split; [by intros [= <-] | by intros [_ ->]]].
  destruct E as [x Hx]. split; [done|]. rewrite Hx. by intros [? _].
Qed.

(** Registering handlers succeeds iff no state is registered twice. *)
Lemma register_pairs_Ret l (h h' : gmap State (@TransitionHandlerInvoker W In Out)) :
  register_pairs l h = (Ret (), h') ↔
  NoDup l.*1 ∧ Forall (λ s, h !! s = None) l.*1 ∧ h' = list_to_map l ∪ h.
Proof.
  unfold register_pairs. revert h. induction l as [|[s i] l IH]; intros h; cbn [for_each].
  - unfold mret, M_ret. rewrite fmap_nil, list_to_map_nil, (left_id_L ∅ (∪)).
    split; [|by intros (_ & _ & ->)].
    intros. simplify_eq. split_and!; [constructor|constructor|done].
  - rewrite seq_Ret_iff, fmap_cons, NoDup_cons, Forall_cons, list_to_map_cons. cbn [fst snd].
    setoid_rewrite register_Ret. setoid_rewrite IH.
    assert (∀ Hsl : s ∉ l.*1, list_to_map l ∪ <[s := i]> h = <[s := i]> (list_to_map l) ∪ h) as Hu.
    { intros Hsl. rewrite <- insert_union_r by by apply not_elem_of_list_to_map_1.
      by rewrite insert_union_l. }
    split.
    + intros (h1 & [Hs ->] & Hnd & Hf & ->). rewrite Forall_forall in Hf.
      assert (s ∉ l.*1) as Hsl.
      { intros Hin. specialize (Hf _ Hin). by rewrite lookup_insert_eq in Hf. }
      split_and!; [done|done|done| |by apply Hu].
      apply Forall_forall. intros x Hx. by apply Hf, lookup_insert_None in Hx as [? _].
    + intros ([Hsl Hnd] & [Hs Hf] & ->). exists (<[s := i]> h).
      split; [done|]. split_and!; [done| |by rewrite Hu].
      apply Forall_forall. intros x Hx. rewrite Forall_forall in Hf.
      rewrite lookup_insert_ne by (intros ->; done). auto.
Qed.

(** Compiling a transition succeeds iff it is well formed and its handlers
    can be registered. *)
Lemma compile_transition_Ret key t h h' :
  compile_transition st factory key t h = (Ret (), h') ↔
  transition_ok key t = true ∧
  register_pairs ((λ s, (s, compiled key t)) <$> triggers key t) h = (Ret (), h').
Proof.
  unfold register_pairs. rewrite for_each_fmap.
  unfold compile_transition, Transition_Compile, transition_ok, at_ok, fields_ok, do_ok,
    compiled, triggers, handler_of.
  unfold mbind, M_bind, lift, throw, mret, M_ret.
  destruct t as [at_ ok to do_]; cbn [At Ok To Do].
  destruct key, at_, ok, do_ as [d|]; cbn; try destruct (to =? NoState); cbn;
    try destruct (factory _ d); cbn;
    first [tauto | split; [discriminate | by intros [? _]]].
Qed.

Lemma compile_transitions_Ret key ts h h' :
  for_each ts (compile_transition st factory key) h = (Ret (), h') ↔
  Forall (λ t, transition_ok key t = true) ts ∧
  register_pairs (registered key ts) h = (Ret (), h').
Proof.
  unfold register_pairs. revert h. induction ts as [|t ts IH]; intros h.
  { cbn. split; [intros ?; split; [constructor|done] | by intros [_ ?]]. }
  cbn [for_each]. rewrite registered_cons, for_each_app, !seq_Ret_iff, Forall_cons.
  setoid_rewrite compile_transition_Ret. setoid_rewrite IH.
  split; [intros (h1 & [? ?] & ? & ?); eauto | intros ([? ?] & h1 & ? & ?); eauto].
Qed.

Lemma compile_handlers_Ret key ts hs :
  run_state (for_each ts (compile_transition st factory key)) ∅ = Ret hs ↔
  Forall (λ t, transition_ok key t = true) ts ∧ NoDup (registered key ts).*1 ∧
  hs = list_to_map (registered key ts).
Proof.
  unfold run_state.
  destruct (for_each ts (compile_transition st factory key) ∅) as [[[]| |] h'] eqn:E.
  2, 3: split; [discriminate|]; intros (Hok & Hnd & _);
    enough (for_each ts (compile_transition st factory key) ∅ =
            (Ret (), list_to_map (registered key ts) ∪ ∅)) by congruence;
    apply compile_transitions_Ret; split; [done|]; apply register_pairs_Ret;
    split_and!; [done| |done]; apply Forall_forall; intros; apply lookup_empty.
  apply compile_transitions_Ret in E as (Hok & (Hnd & _ & ->)%register_pairs_Ret).
  rewrite (right_id_L ∅ (∪)).
  split; [intros [= <-]; done | by intros (_ & _ & ->)].
Qed.

Lemma compile_entry_Ret e m m' :
  compile_entry st factory e m = (Ret (), m') ↔
  entry_ok e ∧ m' = <[e.1 := list_to_map (registered e.1 e.2)]> m.
Proof.
  destruct e as [key ts]. unfold compile_entry, entry_ok. cbn [fst snd].
  pose proof (compile_handlers_Ret key ts) as Hc.
  rewrite seq_Ret_iff. split.
  - intros (m1 & Hk & (hs & m2 & Hl & Hm)%bind_Ret_iff).
    unfold lift in Hl. injection Hl as Hl <-. apply Hc in Hl as (Hok & Hnd & ->).
    injection Hm as <-.
    destruct key; [destruct (zlen ts >? 1) eqn:E; [discriminate|]|..]; injection Hk as <-;
      [|by split..].
    split; [|done]. split; [|done]. rewrite Z.gtb_ltb in E. zbool. unfold zlen in E. lia.
  - intros ((Hlen & Hok & Hnd) & ->). exists m. split.
    + destruct key; [|done..]. rewrite Z.gtb_ltb, (proj2 (Z.ltb_ge _ _)); [done|].
      unfold zlen. lia.
    + rewrite bind_Ret_iff. eexists _, m. unfold lift.
      by rewrite (proj2 (Hc _) (conj Hok (conj Hnd eq_refl))).
Qed.

Lemma compiled_table_cons e l :
  compiled_table (e :: l) = <[e.1 := list_to_map (registered e.1 e.2)]> (compiled_table l).
Proof. done. Qed.

Lemma fst_compiled_entries (l : list (Key * list (Transition D))) :
  ((λ e, (e.1, list_to_map (M := gmap State TransitionHandlerInvoker)
                 (registered e.1 e.2))) <$> l).*1 = l.*1.
Proof. rewrite <- list_fmap_compose. by apply list_fmap_ext. Qed.

Lemma compile_entries_Ret l m m' :
  NoDup l.*1 →
  for_each l (compile_entry st factory) m = (Ret (), m') ↔
  Forall entry_ok l ∧ m' = compiled_table l ∪ m.
Proof.
  revert m. induction l as [|e l IH]; intros m Hnd; cbn [for_each].
  - unfold mret, M_ret, compiled_table. rewrite fmap_nil, list_to_map_nil, (left_id_L ∅ (∪)).
    split; [intros; simplify_eq; split; [constructor|done] | by intros [_ ->]].
  - rewrite fmap_cons, NoDup_cons in Hnd. destruct Hnd as [He Hnd].
    rewrite seq_Ret_iff, Forall_cons, compiled_table_cons.
    assert (∀ hs, compiled_table l ∪ <[e.1 := hs]> m = <[e.1 := hs]> (compiled_table l) ∪ m) as Hu.
    { intros hs. rewrite <- insert_union_r; [by rewrite insert_union_l|].
      apply not_elem_of_list_to_map_1. by rewrite fst_compiled_entries. }
    split.
    + intros (m1 & [? ->]%compile_entry_Ret & [? ->]%IH); [|done]. by rewrite Hu.
    + intros ([? ?] & ->). eexists. split; [by apply compile_entry_Ret|].
      apply IH; [done|]. by rewrite Hu.
Qed.

(** [Compile] returns iff the table is well formed, and then the handler of
    each key and state is the one of the transition that has it. *)
Lemma Compile_Ret l m :
  NoDup l.*1 →
  Compile st (mkAutomaton factory l) = Ret m ↔ Forall entry_ok l ∧ m = compiled_table l.
Proof.
  intros Hnd. unfold Compile, run_state. cbn [Transitions HandlerFactory].
  pose proof (compile_entries_Ret l ∅ (compiled_table l) Hnd) as Hc.
  rewrite (right_id_L ∅ (∪)) in Hc.
  destruct (for_each l (compile_entry st factory) ∅) as [[[]| |] m'] eqn:E.
  - apply compile_entries_Ret in E as [Hok ->]; [|done]. rewrite (right_id_L ∅ (∪)).
    split; [by intros [= <-] | by intros [_ ->]].
  - split; [discriminate|]. intros [Hok _]. by pose proof (proj2 Hc (conj Hok eq_refl)).
  - split; [discriminate|]. intros [Hok _]. by pose proof (proj2 Hc (conj Hok eq_refl)).
Qed.

Lemma compiled_table_lookup l key ts :
  NoDup l.*1 → (key, ts) ∈ l →
  compiled_table l !! key = Some (list_to_map (registered key ts)).
Proof.
  intros Hnd Hin. unfold compiled_table. apply elem_of_list_to_map_1.
  - by rewrite fst_compiled_entries.
  - by apply (list_elem_of_fmap_2 (λ e, (e.1, list_to_map (registered e.1 e.2))) _ (key, ts)).
Qed.

Lemma compiled_table_lookup_None l key : key ∉ l.*1 → compiled_table l !! key = None.
Proof. intros Hk. apply not_elem_of_list_to_map_1. by rewrite fst_compiled_entries. Qed.

Lemma elem_of_registered key ts s i :
  (s, i) ∈ registered key ts ↔ ∃ t, t ∈ ts ∧ s ∈ triggers key t ∧ i = compiled key t.
Proof.
  unfold registered. rewrite list_elem_of_bind. split.
  - intros (t & (s' & [= -> ->] & Hs)%list_elem_of_fmap & Ht). eauto.
  - intros (t & Ht & Hs & ->). exists t. split; [|done]. by apply list_elem_of_fmap; eexists.
Qed.

Lemma fst_registered_elem key ts s :
  s ∈ (registered key ts).*1 ↔ ∃ t, t ∈ ts ∧ s ∈ triggers key t.
Proof.
  rewrite list_elem_of_fmap. split.
  - intros ([s' i] & -> & (t & ? & ? & _)%elem_of_registered). eauto.
  - intros (t & Ht & Hs). exists (s, compiled key t). split; [done|].
    apply elem_of_registered. eauto.
Qed.

(** Which handler [CompiledAutomaton.Transition] runs. *)
Lemma Transition_runs l key ts t s i :
  table_ok l → (key, ts) ∈ l → t ∈ ts → s ∈ triggers key t →
  Automaton_Transition (compiled_table l) key s i = compiled key t i.
Proof.
  intros [Hnd Hok] Hin Ht Hs. unfold Automaton_Transition.
  rewrite (compiled_table_lookup l key ts Hnd Hin).
  rewrite Forall_forall in Hok. destruct (Hok _ Hin) as (_ & _ & Hndr). cbn [fst snd] in Hndr.
  erewrite elem_of_list_to_map_1; [done|done|]. apply elem_of_registered. eauto.
Qed.

Lemma Transition_bad_key l key s i :
  key ∉ l.*1 → Automaton_Transition (compiled_table l) key s i = mret (None, Some BadTransitionKey).
Proof. intros Hk. unfold Automaton_Transition. by rewrite compiled_table_lookup_None. Qed.

Lemma Transition_bad_state l key ts s i :
  NoDup l.*1 → (key, ts) ∈ l → (∀ t, t ∈ ts → s ∉ triggers key t) →
  Automaton_Transition (compiled_table l) key s i = mret (None, Some BadTransitionState).
Proof.
  intros Hnd Hin Hs. unfold Automaton_Transition.
  rewrite (compiled_table_lookup l key ts Hnd Hin).
  rewrite not_elem_of_list_to_map_1; [done|]. rewrite fst_registered_elem.
  intros (t & Ht & Hts). by apply (Hs t).
Qed.
End CompileSpec.

(** ** How a transition may change the state *)

Section Discipline.
Context {W D In Out : Type} (st : lens W State) `{!LensLaws st}.

(** The handler changes the state only through its handle. *)
Definition respects_handle (h : @TransitionHandler W In Out) : Prop :=
  ∀ i w hd r w' hd', h i (w, hd) = (Ret r, (w', hd')) → mutated hd = false →
    (mutated hd' = false ∧ lget st w' = lget st w) ∨
    (mutated hd' = true ∧ lget st w' ∈ target hd).

Lemma EmptyTransitionHandler_respects : respects_handle EmptyTransitionHandler.
Proof. intros i w hd r w' hd' [= <- <- <-]. auto. Qed.

Lemma Set_ok w hd s :
  s ∈ target hd → mutated hd = false →
  Set_ st s (w, hd) = (Ret (), (lset st s w, mkHandle (original hd) (target hd) true)).
Proof.
  intros Hs Hm. unfold Set_, requireTarget, mutate, gets, modify, mbind, M_bind. simpl.
  rewrite bool_decide_eq_true_2 by done. simpl. by rewrite Hm.
Qed.

Lemma Set_inv w hd s r w' hd' :
  Set_ st s (w, hd) = (Ret r, (w', hd')) → w' = lset st s w ∧ s ∈ target hd ∧ mutated hd = false.
Proof.
  unfold Set_, requireTarget, mutate, gets, modify, mbind, M_bind. simpl.
  case_bool_decide; [|discriminate]. simpl. destruct (mutated hd) eqn:E; [discriminate|].
  by intros [= _ <- _].
Qed.

Lemma invoker_state at_ ok to must h i w out err w' :
  respects_handle h → invoker st at_ ok to must h i w = (Ret (out, err), w') →
  (to ≠ NoState → lget st w' = to) ∧
  (to = NoState → must = true → err = None → lget st w' ∈ ok) ∧
  (to = NoState → err ≠ None ∨ ok = [] → lget st w' = lget st w).
Proof.
  intros Hh. unfold invoker.
  destruct (h i (w, NewStateHandle at_ ok)) as [[[o e]| |] [w1 hd1]] eqn:E; [|discriminate..].
  specialize (Hh _ _ _ _ _ _ E eq_refl). simpl in Hh.
  destruct (negb (is_nil e) && mutated hd1) eqn:E1; [discriminate|].
  destruct (is_nil e && must && negb (mutated hd1)) eqn:E2; [discriminate|].
  intros [= <- <- <-]. split_and!.
  - intros Hto. rewrite (proj2 (Z.eqb_neq _ _)) by done. apply lget_lset.
  - intros -> -> ->. simpl in *. destruct Hh as [[Hm _]|[_ ?]]; [|done].
    by rewrite Hm in E2.
  - intros -> Hor. simpl. destruct Hh as [[_ ?]|[Hm Hin]]; [done|].
    destruct Hor as [Hne| ->]; [|by apply not_elem_of_nil in Hin].
    destruct e; [|done]. by rewrite Hm in E1.
Qed.

(** [To] is where the transition ends, whatever the handler did. *)
Lemma invoker_To at_ ok to must h i w r w' :
  to ≠ NoState → invoker (In := In) (Out := Out) st at_ ok to must h i w = (Ret r, w') → lget st w' = to.
Proof.
  intros Hto. unfold invoker.
  destruct (h i (w, NewStateHandle at_ ok)) as [[[o e]| |] [w1 hd1]]; [|discriminate..].
  rewrite (proj2 (Z.eqb_neq _ _) Hto). simpl. intros H. repeat case_match; simplify_eq. apply lget_lset.
Qed.
(** A transition that returns has run its handler and set the state. *)
Lemma invoker_Ret at_ ok to must h i w r w' :
  invoker (In := In) (Out := Out) st at_ ok to must h i w = (Ret r, w') →
  ∃ w1 hd, h i (w, NewStateHandle at_ ok) = (Ret r, (w1, hd)) ∧ (w' = w1 ∨ w' = lset st to w1).
Proof.
  unfold invoker. destruct (h i (w, NewStateHandle at_ ok)) as [[[o e]| |] [w1 hd1]]; [|discriminate..].
  intros H. exists w1, hd1. repeat case_match; simplify_eq; auto.
Qed.
End Discipline.

(** ** Properties *)

(** C17: compilation of a transition table succeeds exactly when every entry is
    well formed ([At] given iff the key is not a state, [Ok] excluding [To] and
    requiring [Do], a handler for [Do], no state triggering two transitions of a
    key); a compiled automaton then runs, for each key and state, the one transition
    that is triggered; any other key or state is answered with its error and
    changes nothing. *)
Theorem compile_correct {W D In Out} (st : lens W State)
    (factory : @TransitionHandlerFactory W D In Out)
    (l : list (Key * list (Transition D))) :
  NoDup l.*1 →
  ((∃ m, Compile st (mkAutomaton factory l) = Ret m) ↔ Forall (entry_ok st factory) l) ∧
  ∀ m, Compile st (mkAutomaton factory l) = Ret m → ∀ key s i w,
    (∀ ts t, (key, ts) ∈ l → t ∈ ts → s ∈ triggers key t →
       Automaton_Transition m key s i w = compiled st factory key t i w) ∧
    (key ∉ l.*1 → Automaton_Transition m key s i w = (Ret (None, Some BadTransitionKey), w)) ∧
    (∀ ts, (key, ts) ∈ l → (∀ t, t ∈ ts → s ∉ triggers key t) →
       Automaton_Transition m key s i w = (Ret (None, Some BadTransitionState), w)).
Proof.
  intros Hnd. setoid_rewrite Compile_Ret; [|done..]. split.
  { split; [by intros (m & ? & _)|]. intros Hok. by eexists. }
  intros m [Hok ->] key s i w. split_and!.
  - intros ts t Hin Ht Hs. by erewrite Transition_runs.
  - intros Hk. by rewrite Transition_bad_key.
  - intros ts Hin Hs. by erewrite Transition_bad_state.
Qed.

(** A small table for the witnesses: state 1 goes to 2 without a handler, and
    key 0 takes the states 1 and 3 to 2 or 3 as the handler decides. *)
Definition demo_factory : @TransitionHandlerFactory State State unit unit :=
  λ _ target, Ret (λ _, Set_ (Lens id (λ s _, s)) target;; mret (None, None)).
Definition demo_table : list (Key * list (Transition State)) :=
  [(KeyState 1, [mkTransition None None 2 None]);
   (KeyInt 0, [mkTransition (Some [1; 3]) (Some [2; 3]) NoState (Some 3)])].

Lemma compile_correct_witness :
  NoDup demo_table.*1 ∧
  ∃ m, Compile (Lens id (λ s _, s)) (mkAutomaton demo_factory demo_table) = Ret m ∧
    Automaton_Transition m (KeyInt 0) 1 None 1 = (Ret (None, None), 3) ∧
    Automaton_Transition m (KeyInt 7) 1 None 1 = (Ret (None, Some BadTransitionKey), 1).
Proof.
  assert (NoDup demo_table.*1) as Hnd by (apply (bool_decide_unpack _); vm_compute; exact I).
  split; [exact Hnd|].
  destruct (Compile (Lens id (λ s _, s)) (mkAutomaton demo_factory demo_table)) as [m| |] eqn:E;
    [|vm_compute in E; discriminate..].
  exists m. split; [reflexivity|].
  destruct (compile_correct (Lens id (λ s _, s)) demo_factory demo_table Hnd) as [_ HC].
  pose proof (HC m E) as H. split.
  - destruct (H (KeyInt 0) 1 None 1) as (H1 & _ & _).
    erewrite (H1 _ (mkTransition (Some [1; 3]) (Some [2; 3]) NoState (Some 3)));
      [vm_compute; reflexivity | right; left | left | left].
  - destruct (H (KeyInt 7) 1 None 1) as (_ & H2 & _). apply H2.
    apply (bool_decide_unpack _). vm_compute. exact I.
Defined.

(** The order in which Go visits the entries of a transition map has no
    influence on the compiled automaton. *)
Theorem compile_order_independent {W D In Out} (st : lens W State)
    (factory : @TransitionHandlerFactory W D In Out) (l l' : list (Key * list (Transition D)))
    (m : gmap Key (gmap State TransitionHandlerInvoker)) :
  NoDup l.*1 → l ≡ₚ l' →
  Compile st (mkAutomaton factory l) = Ret m ↔ Compile st (mkAutomaton factory l') = Ret m.
Proof.
  intros Hnd Hp. assert (NoDup l'.*1) as Hnd' by (by rewrite <- Hp).
  rewrite !Compile_Ret by done.
  replace (compiled_table st factory l') with (compiled_table st factory l).
  - by rewrite (Forall_Permutation _ _ (λ _, iff_refl _) _ _ Hp).
  - apply list_to_map_proper; [by rewrite fst_compiled_entries | by rewrite Hp].
Qed.

Lemma compile_order_independent_witness :
  Compile (Lens id (λ s _, s)) (mkAutomaton demo_factory demo_table) =
  Compile (Lens id (λ s _, s)) (mkAutomaton demo_factory (rev demo_table)).
Proof.
  destruct (Compile _ (mkAutomaton demo_factory demo_table)) as [m| |] eqn:E;
    [|vm_compute in E; discriminate..].
  symmetry. apply (compile_order_independent _ demo_factory demo_table (rev demo_table) m).
  - apply (bool_decide_unpack _). vm_compute. exact I.
  - apply Permutation_rev.
  - exact E.
Defined.

(** C18: a compiled transition whose handler changes the state only through its
    handle moves the state as its table entry says: to [To] if that is given
    (even when the handler reports an error), else into [Ok] when the handler
    succeeds; with an error, or with neither [To] nor [Ok], the state stays. *)
Theorem transition_discipline {W D In Out} (st : lens W State) `{!LensLaws st}
    (factory : @TransitionHandlerFactory W D In Out) (key : Key) (t : Transition D)
    (h : TransitionHandler) (i : option In) (w w' : W) (out : option Out) (err : option error) :
  handler_of factory key t = Ret h → respects_handle st h →
  compiled st factory key t i w = (Ret (out, err), w') →
  (To t ≠ NoState → lget st w' = To t) ∧
  (To t = NoState → err = None → ∀ ok, Ok t = Some ok → lget st w' ∈ ok) ∧
  (To t = NoState → err ≠ None ∨ Ok t = None → lget st w' = lget st w).
Proof.
  intros Hh Hr. unfold compiled. rewrite Hh. intros H.
  destruct (invoker_state st _ _ _ _ h i w out err w' Hr H) as (H1 & H2 & H3).
  split_and!; [done| |].
  - intros Hto Herr ok Hok. rewrite Hok in *. by apply H2.
  - intros Hto [?|Hok]; apply H3; auto. right. by rewrite Hok.
Qed.

Lemma transition_discipline_witness :
  let t := mkTransition (Some [1; 3]) (Some [2; 3]) NoState (Some 3) in
  compiled (Lens id (λ s _, s)) demo_factory (KeyInt 0) t None 1 = (Ret (None, None), 3) ∧ 3 ∈ [2; 3].
Proof.
  set (st := Lens id (λ s _, s) : lens State State).
  set (t := mkTransition (Some [1; 3]) (Some [2; 3]) NoState (Some 3)).
  assert (LensLaws st) as Hst by by split.
  split; [vm_compute; reflexivity|].
  destruct (transition_discipline st demo_factory (KeyInt 0) t
    (λ _, Set_ st 3;; mret (None, None)) None 1 3 None None) as (_ & H & _).
  - reflexivity.
  - intros i w hd r w' hd' Hr Hm. right.
    unfold Set_, requireTarget, mutate, gets, modify, mbind, M_bind in Hr. simpl in Hr.
    case_bool_decide; [|discriminate]. simpl in Hr. rewrite Hm in Hr. by injection Hr as <- <- <-.
  - vm_compute. reflexivity.
  - exact (H eq_refl eq_refl _ eq_refl).
Defined.

(** What the operations of a state handle do on every branch: [Set] panics
    outside the target states and on a second mutation, else moves the state;
    [Is] panics after a mutation and for a state that cannot have triggered the
    transition, else compares; [IsAny] and [IsNone] are its disjunction and the
    negation of it. *)
Theorem state_handle_operations {W} (st : lens W State) (w : W) (hd : StateHandle) (s : State) :
  Set_ st s (w, hd) =
    (if bool_decide (s ∉ target hd) then (Panic (PanicError IllegalStateMutation), (w, hd))
     else if mutated hd then (Panic (PanicError MultipleStateMutations), (w, hd))
     else (Ret (), (lset st s w, mkHandle (original hd) (target hd) true))) ∧
  Is st s (w, hd) =
    (if mutated hd then (Panic (PanicError UnexpectedMutatedState), (w, hd))
     else if bool_decide (s ∉ original hd) then (Panic (PanicError NonTriggeringState), (w, hd))
     else (Ret (lget st w =? s), (w, hd))) ∧
  ∀ l, mutated hd = false → Forall (λ x, x ∈ original hd) l →
    IsAny st l (w, hd) = (Ret (bool_decide (lget st w ∈ l)), (w, hd)) ∧
    IsNone st l (w, hd) = (Ret (bool_decide (lget st w ∉ l)), (w, hd)).
Proof.
  split_and!.
  - unfold Set_, requireTarget, mutate, gets, modify, mbind, M_bind. simpl.
    rewrite bool_decide_not. destruct (bool_decide (s ∈ target hd)); [|done]. simpl.
    by destruct (mutated hd).
  - unfold Is, requireNotMutated, requireOriginal, gets, mbind, M_bind. simpl.
    destruct (mutated hd); [done|]. simpl. rewrite bool_decide_not.
    by destruct (bool_decide (s ∈ original hd)).
  - intros l Hm Hl.
    assert (IsAny st l (w, hd) = (Ret (bool_decide (lget st w ∈ l)), (w, hd))) as Hany.
    { induction Hl as [|x l Hx _ IH]; [done|]. cbn [IsAny].
      unfold Is, requireNotMutated, requireOriginal, gets, mbind, M_bind in *. simpl.
      rewrite Hm. simpl. rewrite (bool_decide_eq_true_2 (x ∈ _)) by done. simpl. unfold State_Is.
      destruct (Z.eqb_spec (lget st w) x) as [->|Hne].
      - by rewrite bool_decide_eq_true_2 by (by left).
      - rewrite IH. do 2 f_equal. apply bool_decide_ext. rewrite elem_of_cons. tauto. }
    split; [done|]. unfold IsNone. rewrite (bind_Ret _ _ _ _ _ Hany).
    unfold mret, M_ret. by rewrite bool_decide_not.
Qed.
