(* ===== verification/Protocol.v ===== *)
(** * Protocol: protocol clients of [lib/protocol]

    [protocol.go] (errors and the [Protocol] interface), [message.go] (typed
    messages), [definition.go] (what a protocol definition holds) and
    [client.go] (a client that runs a definition with two automata, one for
    the messages it writes and one for the messages it reads).

    [Msg] is the type of the protobuf messages of the protocol; [None] in
    place of a message is Go's nil interface.  The store [W] holds the
    fields the handlers work on and, at [st], the client's state. *)

From S2P Require Import Prelude GoSem Automaton.

Local Open Scope Z_scope.

(** ** [protocol.go] *)

Definition NothingToWrite : error :=
  ErrVar "protocol.NothingToWrite" "there is nothing to write".
Definition UnexpectedMessage : error :=
  ErrVar "protocol.UnexpectedMessage" "read an unexpected message".
Definition IllegalMessageType : error :=
  ErrVar "protocol.IllegalMessageType" "illegal message type".

(** The interface [Protocol]; ids and raw message types are [int32]. *)
Record Protocol (Msg : Type) : Type := mkProtocol {
  Id : Z;
  TypeOf : Msg → outcome Key;
  RawTypeOf : Msg → outcome Z;
  NewMessage : Z → option Msg * option error
}.
Arguments mkProtocol {Msg} _ _ _ _.
Arguments Id {Msg} _.
Arguments TypeOf {Msg} _ _.
Arguments RawTypeOf {Msg} _ _.
Arguments NewMessage {Msg} _ _.

(** ** [message.go] *)
Module TypedMessage.
Record Message (Msg : Type) : Type := mkMessage { Content : option Msg; Type_ : option Key }.
Arguments mkMessage {Msg} _ _.
Arguments Content {Msg} _.
Arguments Type_ {Msg} _.

Definition EmptyTypedMessage {Msg} : Message Msg := mkMessage None None.
Definition Is {Msg} (m : Message Msg) (messageType : option Key) : bool :=
  bool_decide (Type_ m = messageType).
Definition IsNot {Msg} (m : Message Msg) (messageType : option Key) : bool :=
  negb (Is m messageType).
End TypedMessage.

Section Client.
Context {Msg W : Type} (st : lens W State).

Abbreviation HM := (M (W * StateHandle)).

(** ** [client.go]: handlers *)

(** The dynamic types a [Do] field may have. *)
Inductive DoHandler : Type :=
| WriteMessageHandler (handle : HM (option Msg * option error))
| ReadMessageHandler (handle : Msg → HM (option error)).

Definition writeMessageHandlerFactory : @TransitionHandlerFactory W DoHandler Msg Msg := λ _ do_,
  match do_ with
  | ReadMessageHandler _ => Panic PanicAssertion
  | WriteMessageHandler handle =>
      Ret (λ _,
        '(out, err) ← handle;
        if is_nil out then throw (PanicString "written message needs be a protobuf message")
        else mret (out, err))
  end.

Definition readMessageHandlerFactory : @TransitionHandlerFactory W DoHandler Msg Msg := λ _ do_,
  match do_ with
  | WriteMessageHandler _ => Panic PanicAssertion
  | ReadMessageHandler handle =>
      Ret (λ i,
        match i with
        | None => throw (PanicString "read message needs to be a protobuf message")
        | Some message => err ← handle message; mret (None, err)
        end)
  end.

(** ** [definition.go] *)

(** A transition table, as the entries of a Go map. *)
Abbreviation Table := (list (Key * list (Transition DoHandler))).

Record Definition_ : Type := mkDefinition {
  def_Protocol : Protocol Msg;
  WriteFirst : bool;
  InitialState : State;
  FinalState : State;
  def_WriteMessage : Table;
  def_ReadMessage : Table
}.

(** ** [client.go]: the client *)

Record Client : Type := mkClient {
  protocol : Protocol Msg;
  writeFirst : bool;
  initialState : State;
  finalState : State;
  writer : gmap Key (gmap State (@TransitionHandlerInvoker W Msg Msg));
  reader : gmap Key (gmap State (@TransitionHandlerInvoker W Msg Msg));
  writeAt : gset State
}.

(** [key.(State)] *)
Definition key_State (key : Key) : outcome State :=
  match key with KeyState s => Ret s | _ => Panic PanicAssertion end.

(** The loop that collects the states of [writer]. *)
Fixpoint collect_writeAt (keys : list Key) : outcome (gset State) :=
  match keys with
  | [] => Ret ∅
  | key :: keys =>
      s ← key_State key;
      l ← collect_writeAt keys;
      mret ({[s]} ∪ l)
  end.

(** The client, and the store with the state cell set. *)
Definition NewClient (definition : Definition_) : M W Client :=
  if InitialState definition =? NoState
  then throw (PanicString "initial state is required in protocol definition")
  else if FinalState definition =? NoState
  then throw (PanicString "final state is required in protocol definition")
  else
    modify (lset st (InitialState definition));;
    writer ← lift (Compile st (mkAutomaton writeMessageHandlerFactory (def_WriteMessage definition)));
    reader ← lift (Compile st (mkAutomaton readMessageHandlerFactory (def_ReadMessage definition)));
    writeAt ← lift (collect_writeAt (map_to_list writer).*1);
    mret (mkClient (def_Protocol definition) (WriteFirst definition) (InitialState definition)
            (FinalState definition) writer reader writeAt).

Definition isBadTransition (err : option error) : bool :=
  bool_decide (err = Some BadTransitionKey) || bool_decide (err = Some BadTransitionState).

Definition WriteMessage (s : Client) : M W (option Msg * option error) :=
  state ← gets (lget st);
  '(out, err) ← Automaton_Transition (writer s) (KeyState state) state None;
  if isBadTransition err then mret (None, Some NothingToWrite)
  else if is_nil out then throw PanicAssertion
  else mret (out, err).

Definition ReadMessage (s : Client) (message : Msg) : M W (option error) :=
  messageType ← lift (TypeOf (protocol s) message);
  state ← gets (lget st);
  '(_, err) ← Automaton_Transition (reader s) messageType state (Some message);
  mret (if isBadTransition err then Some UnexpectedMessage else err).

Definition CanWrite (s : Client) (w : W) : bool := bool_decide (lget st w ∈ writeAt s).
Definition MustWrite (s : Client) (w : W) : bool := writeFirst s && CanWrite s w.
Definition IsDone (s : Client) (w : W) : bool := lget st w =? finalState s.
End Client.
Arguments DoHandler : clear implicits.
Arguments Definition_ : clear implicits.
Arguments Client : clear implicits.

(** ** What a client of a well-formed definition does *)

Section ClientSpec.
Context {Msg W : Type} (st : lens W State) `{!LensLaws st}.
Implicit Types (d : Definition_ Msg W) (w : W) (m : Msg) (s : State) (key : Key).

Abbreviation wfactory := (@writeMessageHandlerFactory Msg W).
Abbreviation rfactory := (@readMessageHandlerFactory Msg W).

Definition is_state_key (key : Key) : bool := match key with KeyState _ => true | _ => false end.

(** The two tables compile and the writer's keys are states. *)
Definition definition_ok d : Prop :=
  InitialState d ≠ NoState ∧ FinalState d ≠ NoState ∧
  table_ok st wfactory (def_WriteMessage d) ∧
  table_ok st rfactory (def_ReadMessage d) ∧
  Forall (λ e, is_state_key e.1 = true) (def_WriteMessage d).

(** The states among the keys of a table. *)
Definition key_states (keys : list Key) : list State :=
  key ← keys; match key with KeyState s => [s] | _ => [] end.

(** The states in which the definition writes. *)
Definition write_states d : list State := key_states (def_WriteMessage d).*1.

Definition client_of d : Client Msg W :=
  mkClient (def_Protocol d) (WriteFirst d) (InitialState d) (FinalState d)
    (compiled_table st wfactory (def_WriteMessage d))
    (compiled_table st rfactory (def_ReadMessage d))
    (list_to_set (write_states d)).

Lemma elem_of_key_states keys s : s ∈ key_states keys ↔ KeyState s ∈ keys.
Proof.
  unfold key_states. rewrite list_elem_of_bind. split.
  - intros ([s'| |] & Hs & He); [|by apply not_elem_of_nil in Hs..].
    by apply list_elem_of_singleton in Hs as ->.
  - intros H. exists (KeyState s). split; [by left|done].
Qed.

Lemma collect_writeAt_Ret keys :
  Forall (λ k, is_state_key k = true) keys →
  collect_writeAt keys = Ret (list_to_set (key_states keys)).
Proof.
  induction 1 as [|[s| |] keys Hk _ IH]; [done| |discriminate..].
  cbn [collect_writeAt]. rewrite IH. done.
Qed.

Lemma collect_writeAt_inv keys l :
  collect_writeAt keys = Ret l → Forall (λ k, is_state_key k = true) keys.
Proof.
  revert l. induction keys as [|[s| |] keys IH]; intros l; [constructor| |discriminate..].
  cbn [collect_writeAt]. simpl. destruct (collect_writeAt keys); [|discriminate..].
  constructor; eauto.
Qed.

(** The keys of a compiled table are the keys of the table. *)
Lemma compiled_table_keys {D} (factory : @TransitionHandlerFactory W D Msg Msg)
    (l : list (Key * list (Transition D))) :
  NoDup l.*1 → (map_to_list (compiled_table st factory l)).*1 ≡ₚ l.*1.
Proof.
  intros Hnd. unfold compiled_table.
  rewrite map_to_list_to_map by (by rewrite fst_compiled_entries).
  by rewrite fst_compiled_entries.
Qed.

Lemma NewClient_Ret d w c w' :
  NoDup (def_WriteMessage d).*1 → NoDup (def_ReadMessage d).*1 →
  NewClient st d w = (Ret c, w') ↔
  definition_ok d ∧ c = client_of d ∧ w' = lset st (InitialState d) w.
Proof.
  intros Hw Hr. unfold NewClient, definition_ok, table_ok.
  destruct (Z.eqb_spec (InitialState d) NoState); [split; [discriminate|tauto]|].
  destruct (Z.eqb_spec (FinalState d) NoState); [split; [discriminate|tauto]|].
  unfold modify, lift, mbind, M_bind, mret, M_ret. cbv beta iota.
  destruct (Compile st (mkAutomaton wfactory _)) as [wr| |] eqn:Ew.
  2, 3: split; [discriminate|]; intros ((_ & _ & (_ & H) & _) & _);
    by rewrite (proj2 (Compile_Ret st wfactory _ _ Hw) (conj H eq_refl)) in Ew.
  destruct (Compile st (mkAutomaton rfactory _)) as [rd| |] eqn:Er.
  2, 3: split; [discriminate|]; intros ((_ & _ & _ & (_ & H) & _) & _);
    by rewrite (proj2 (Compile_Ret st rfactory _ _ Hr) (conj H eq_refl)) in Er.
  apply Compile_Ret in Ew as [Hwok ->]; [|done]. apply Compile_Ret in Er as [Hrok ->]; [|done].
  pose proof (compiled_table_keys wfactory _ Hw) as Hkeys.
  destruct (collect_writeAt (map_to_list _).*1) as [l| |] eqn:Ec.
  2, 3: split; [discriminate|]; intros ((_ & _ & _ & _ & H) & _);
    rewrite collect_writeAt_Ret in Ec; [discriminate|]; rewrite Hkeys; by apply Forall_fmap.
  - pose proof (collect_writeAt_inv _ _ Ec) as Hst. rewrite collect_writeAt_Ret in Ec by done.
    injection Ec as <-. rewrite Hkeys in Hst. apply Forall_fmap in Hst.
    assert (list_to_set (key_states (map_to_list
      (compiled_table st wfactory (def_WriteMessage d))).*1) =@{gset State}
      list_to_set (write_states d)) as ->.
    { apply set_eq. intros s. unfold write_states.
      by rewrite !elem_of_list_to_set, !elem_of_key_states, Hkeys. }
    split; [intros [= <- <-]|intros (_ & -> & ->)]; done.
Qed.

(** *** Writing *)

Lemma CanWrite_iff d w : CanWrite st (client_of d) w = true ↔ lget st w ∈ write_states d.
Proof. unfold CanWrite. simpl. by rewrite bool_decide_eq_true, elem_of_list_to_set. Qed.

Lemma WriteMessage_nothing d w :
  CanWrite st (client_of d) w = false →
  WriteMessage st (client_of d) w = (Ret (None, Some NothingToWrite), w).
Proof.
  intros H. apply not_true_iff_false in H. rewrite CanWrite_iff in H.
  unfold write_states in H. rewrite elem_of_key_states in H.
  unfold WriteMessage, mbind, M_bind, gets, client_of. cbn [writer].
  by rewrite Transition_bad_key.
Qed.

(** What a client makes of the result of the writer's transition. *)
Definition write_result (r : outcome (option Msg * option error) * W)
  : outcome (option Msg * option error) * W :=
  match r with
  | (Ret (out, err), w) =>
      if isBadTransition err then (Ret (None, Some NothingToWrite), w)
      else if is_nil out then (Panic PanicAssertion, w) else (Ret (out, err), w)
  | _ => r
  end.

Lemma WriteMessage_runs d w t :
  table_ok st wfactory (def_WriteMessage d) →
  (KeyState (lget st w), [t]) ∈ def_WriteMessage d →
  WriteMessage st (client_of d) w =
  write_result (compiled st wfactory (KeyState (lget st w)) t None w).
Proof.
  intros Hok Hin. unfold WriteMessage, mbind, M_bind, gets, client_of. cbn [writer].
  rewrite (Transition_runs st wfactory _ _ [t] t (lget st w) None Hok Hin); [|by left..].
  destruct (compiled _ _ _ _ _ _) as [[[out err]| |] w1]; [|done..]. cbn. by repeat case_match.
Qed.

Lemma WriteMessage_ok d w s ok to h m w' hd' :
  table_ok st wfactory (def_WriteMessage d) → lget st w = s →
  (KeyState s, [mkTransition None ok to (Some (WriteMessageHandler h))]) ∈ def_WriteMessage d →
  h (w, NewStateHandle [s] (default [] ok)) = (Ret (Some m, None), (w', hd')) →
  is_nil ok || mutated hd' = true →
  WriteMessage st (client_of d) w =
  (Ret (Some m, None), if negb (to =? NoState) then lset st to w' else w').
Proof.
  intros Hok <- Hin Hh Hm. erewrite WriteMessage_runs by done.
  unfold compiled, invoker. cbn [handler_of Do At Ok To triggers].
  cbn [writeMessageHandlerFactory]. unfold mbind at 1, M_bind at 1. rewrite Hh.
  destruct ok as [ok|]; cbn; [|done]. simpl in Hm. by rewrite Hm.
Qed.

(** *** Reading *)

Lemma ReadMessage_unexpected d w m key :
  table_ok st rfactory (def_ReadMessage d) → TypeOf (def_Protocol d) m = Ret key →
  (∀ ts t, (key, ts) ∈ def_ReadMessage d → t ∈ ts → lget st w ∉ triggers key t) →
  ReadMessage st (client_of d) m w = (Ret (Some UnexpectedMessage), w).
Proof.
  intros Hok Hty Hs. unfold ReadMessage, mbind, M_bind, gets, lift, client_of. cbn [protocol reader].
  rewrite Hty. destruct (decide (key ∈ (def_ReadMessage d).*1)) as [Hk|Hk].
  - apply list_elem_of_fmap in Hk as ([key' ts] & -> & Hin). cbn [fst] in *.
    rewrite (Transition_bad_state st rfactory _ _ ts); [done|apply Hok|done|eauto].
  - by rewrite Transition_bad_key.
Qed.

Lemma ReadMessage_runs d w m key ts t :
  table_ok st rfactory (def_ReadMessage d) → TypeOf (def_Protocol d) m = Ret key →
  (key, ts) ∈ def_ReadMessage d → t ∈ ts → lget st w ∈ triggers key t →
  ReadMessage st (client_of d) m w =
  match compiled st rfactory key t (Some m) w with
  | (Ret (_, err), w') => (Ret (if isBadTransition err then Some UnexpectedMessage else err), w')
  | (Panic p, w') => (Panic p, w')
  | (Hang, w') => (Hang, w')
  end.
Proof.
  intros Hok Hty Hin Ht Hs.
  unfold ReadMessage, mbind, M_bind, gets, lift, client_of. cbn [protocol reader].
  rewrite Hty, (Transition_runs st rfactory _ key ts t _ (Some m) Hok Hin Ht Hs).
  destruct (compiled _ _ _ _ _ _) as [[[out err]| |] w1]; [|done..]. cbn. by repeat case_match.
Qed.

Lemma ReadMessage_ok d w s m key ts at_ to h w' hd' :
  table_ok st rfactory (def_ReadMessage d) → TypeOf (def_Protocol d) m = Ret key →
  is_state_key key = false → lget st w = s → (key, ts) ∈ def_ReadMessage d →
  mkTransition (Some at_) None to (Some (ReadMessageHandler h)) ∈ ts → s ∈ at_ →
  h m (w, NewStateHandle at_ []) = (Ret None, (w', hd')) →
  ReadMessage st (client_of d) m w = (Ret None, if negb (to =? NoState) then lset st to w' else w').
Proof.
  intros Hok Hty Hk <- Hin Ht Hs Hh. erewrite ReadMessage_runs; [|done..|].
  - unfold compiled, invoker. cbn [handler_of Do At Ok To].
    unfold readMessageHandlerFactory, mbind, M_bind.
    destruct key; [done|..]; cbn; by rewrite Hh.
  - by destruct key.
Qed.

Lemma ReadMessage_panics d w s m key ts at_ ok to h p :
  table_ok st rfactory (def_ReadMessage d) → TypeOf (def_Protocol d) m = Ret key →
  is_state_key key = false → lget st w = s → (key, ts) ∈ def_ReadMessage d →
  mkTransition (Some at_) ok to (Some (ReadMessageHandler h)) ∈ ts → s ∈ at_ →
  (∀ hd, h m (w, hd) = (Panic p, (w, hd))) →
  ReadMessage st (client_of d) m w = (Panic p, w).
Proof.
  intros Hok Hty Hk <- Hin Ht Hs Hh. erewrite ReadMessage_runs; [|done..|].
  - unfold compiled, invoker. cbn [handler_of Do At Ok To].
    unfold readMessageHandlerFactory, mbind, M_bind.
    destruct key; [done|..]; cbn; by rewrite Hh.
  - by destruct key.
Qed.

Lemma ReadMessage_move d w s m key ts at_ to :
  table_ok st rfactory (def_ReadMessage d) → TypeOf (def_Protocol d) m = Ret key →
  is_state_key key = false → lget st w = s → (key, ts) ∈ def_ReadMessage d →
  mkTransition (Some at_) None to None ∈ ts → s ∈ at_ → to ≠ NoState →
  ReadMessage st (client_of d) m w = (Ret None, lset st to w).
Proof.
  intros Hok Hty Hk <- Hin Ht Hs Hto. erewrite ReadMessage_runs; [|done..|].
  - unfold compiled, invoker. cbn [handler_of Do At Ok To].
    rewrite (proj2 (Z.eqb_neq _ _)) by done. by destruct key.
  - by destruct key.
Qed.

(** *** Every call that returns *)

(** Some transition of the table is triggered. *)
Definition triggered (l : list (Key * list (Transition (DoHandler Msg W)))) key s : Prop :=
  Exists (λ e, e.1 = key ∧ Exists (λ t, s ∈ triggers key t) e.2) l.

#[local] Instance triggered_dec l key s : Decision (triggered l key s).
Proof. unfold triggered. apply _. Defined.

Lemma triggered_iff l key s :
  triggered l key s ↔ ∃ ts t, (key, ts) ∈ l ∧ t ∈ ts ∧ s ∈ triggers key t.
Proof.
  unfold triggered. rewrite Exists_exists. split.
  - intros ([k ts] & Hin & <- & Hex). apply Exists_exists in Hex as (t & ? & ?). eauto.
  - intros (ts & t & Hin & Ht & Hs). exists (key, ts). split_and!; [done|done|].
    apply Exists_exists. eauto.
Qed.

(** A call that returns has left the store alone or has run a transition that
    the state triggers. *)
Lemma ReadMessage_cases d w m err w' :
  table_ok st rfactory (def_ReadMessage d) →
  ReadMessage st (client_of d) m w = (Ret err, w') →
  w' = w ∨
  ∃ key ts t out err', TypeOf (def_Protocol d) m = Ret key ∧ (key, ts) ∈ def_ReadMessage d ∧ t ∈ ts ∧
    lget st w ∈ triggers key t ∧ compiled st rfactory key t (Some m) w = (Ret (out, err'), w').
Proof.
  intros Hok. destruct (TypeOf (def_Protocol d) m) as [key| |] eqn:Hty.
  2, 3: unfold ReadMessage, client_of, lift, mbind, M_bind; simpl; by rewrite Hty.
  destruct (decide (triggered (def_ReadMessage d) key (lget st w))) as [Ht|Hn].
  - apply triggered_iff in Ht as (ts & t & Hin & Ht & Hs).
    erewrite ReadMessage_runs by done.
    destruct (compiled _ _ _ _ _ _) as [[[out e]| |] w1] eqn:E; intros [= <- <-].
    right. by exists key, ts, t, out, e.
  - erewrite ReadMessage_unexpected; [|done|done|].
    + intros [= <- <-]. by left.
    + intros ts t Hin Ht Hs. apply Hn, triggered_iff. eauto.
Qed.

Lemma WriteMessage_cases d w out err w' :
  definition_ok d → WriteMessage st (client_of d) w = (Ret (out, err), w') →
  w' = w ∨
  ∃ t out' err', (KeyState (lget st w), [t]) ∈ def_WriteMessage d ∧
    compiled st wfactory (KeyState (lget st w)) t None w = (Ret (out', err'), w').
Proof.
  intros Hok. destruct (CanWrite st (client_of d) w) eqn:Hc.
  - apply CanWrite_iff in Hc. unfold write_states in Hc.
    apply elem_of_key_states, list_elem_of_fmap in Hc as ([key ts] & Hkey & Hin).
    simpl in Hkey. subst key. destruct Hok as (_ & _ & Hw & _).
    pose proof Hw as [_ Hent]. rewrite Forall_forall in Hent.
    destruct (Hent _ Hin) as (Hlen & _ & _). simpl in Hlen.
    destruct ts as [|t [|]]; [| |simpl in Hlen; lia].
    + intros HW. left. revert HW.
      unfold WriteMessage, client_of, mbind, M_bind, gets. cbn [writer].
      rewrite (Transition_bad_state st wfactory _ _ [] _ _ (proj1 Hw) Hin); [by intros [= _ _ <-]|].
      intros t Ht. by apply not_elem_of_nil in Ht.
    + erewrite WriteMessage_runs by done. intros HW. right.
      destruct (compiled _ _ _ _ _ _) as [[[o e]| |] w1] eqn:E; simpl in HW; [|discriminate..].
      exists t, o, e. split; [done|]. rewrite E. by repeat case_match; simplify_eq.
  - rewrite WriteMessage_nothing by done. intros [= _ _ <-]. by left.
Qed.

(** A client is given the messages [ms] to read, in this order, and asked to
    write in between, any number of times. *)
Inductive client_run (c : Client Msg W) : list Msg → W → W → Prop :=
| run_nothing w : client_run c [] w w
| run_read ms m err w w1 w2 :
    client_run c ms w w1 → ReadMessage st c m w1 = (Ret err, w2) → client_run c (ms ++ [m]) w w2
| run_write ms out err w w1 w2 :
    client_run c ms w w1 → WriteMessage st c w1 = (Ret (out, err), w2) → client_run c ms w w2.

Lemma client_run_invariant c (I : list Msg → W → Prop) ms w w' :
  (∀ ms m err w1 w2, I ms w1 → ReadMessage st c m w1 = (Ret err, w2) → I (ms ++ [m]) w2) →
  (∀ ms out err w1 w2, I ms w1 → WriteMessage st c w1 = (Ret (out, err), w2) → I ms w2) →
  client_run c ms w w' → I [] w → I ms w'.
Proof. intros HR HW Hrun Hw. induction Hrun; eauto. Qed.
End ClientSpec.

(** ** A client small enough to run

    A protocol with one message type: the client writes a number in state 1
    and waits in state 3 for one, which takes it to the final state 2. *)
Definition demo_state : lens (State * Z) State := Lens fst (λ s w, (s, w.2)).

#[export] Instance demo_state_laws : LensLaws demo_state.
Proof. split; by intros; destruct s. Qed.

Definition demo_protocol : Protocol Z :=
  mkProtocol 7 (λ _, Ret (KeyMessageType 0)) (λ _, Ret 0) (λ _, (Some 0, None)).

Definition demo_definition : Definition_ Z (State * Z) :=
  mkDefinition demo_protocol true 1 2
    [(KeyState 1, [mkTransition None None 3
       (Some (WriteMessageHandler (n ← gets (snd ∘ fst); mret (Some n, None))))])]
    [(KeyMessageType 0, [mkTransition (Some [3]) None 2
       (Some (ReadMessageHandler (λ n, modify (λ '((s, _), h), ((s, n), h));; mret None)))])].

Lemma demo_definition_ok : definition_ok demo_state demo_definition.
Proof.
  split_and!; [done|done| | |by repeat constructor].
  - split; [by apply (bool_decide_unpack _); vm_compute|].
    repeat constructor; simpl; auto; by apply (bool_decide_unpack _); vm_compute.
  - split; [by apply (bool_decide_unpack _); vm_compute|].
    repeat constructor; simpl; auto; by apply (bool_decide_unpack _); vm_compute.
Qed.

(** ** Properties *)

(** [NewClient] returns a client exactly for a well-formed definition (an
    initial and a final state, two tables that compile, states as the keys of
    the write table); the client then holds the compiled tables and the set of
    the states it writes in, and starts in the initial state. *)
Theorem new_client_iff {Msg W} (st : lens W State) `{!LensLaws st} (d : Definition_ Msg W)
    (w w' : W) (c : Client Msg W) :
  NoDup (def_WriteMessage d).*1 → NoDup (def_ReadMessage d).*1 →
  NewClient st d w = (Ret c, w') ↔
  definition_ok st d ∧ c = client_of st d ∧ w' = lset st (InitialState d) w.
Proof. apply NewClient_Ret. Qed.

Lemma new_client_iff_witness :
  NewClient demo_state demo_definition (0, 42) = (Ret (client_of demo_state demo_definition), (1, 42)).
Proof.
  apply (new_client_iff demo_state demo_definition (0, 42) (1, 42)).
  - apply (bool_decide_unpack _). vm_compute. exact I.
  - apply (bool_decide_unpack _). vm_compute. exact I.
  - split_and!; [apply demo_definition_ok | reflexivity | reflexivity].
Defined.

(** C19: [WriteMessage] of a new client.  It reports [NothingToWrite] and
    changes nothing when [CanWrite] is false; when it is true the one
    transition of the write table for the current state runs, its message and
    error are what the call returns, and a transition that gives no message
    panics. *)
Theorem client_write {Msg W} (st : lens W State) `{!LensLaws st} (d : Definition_ Msg W)
    (w0 w1 w : W) (c : Client Msg W) :
  NoDup (def_WriteMessage d).*1 → NoDup (def_ReadMessage d).*1 →
  NewClient st d w0 = (Ret c, w1) →
  (CanWrite st c w = true ↔ KeyState (lget st w) ∈ (def_WriteMessage d).*1) ∧
  (CanWrite st c w = false → WriteMessage st c w = (Ret (None, Some NothingToWrite), w)) ∧
  (∀ t, (KeyState (lget st w), [t]) ∈ def_WriteMessage d →
     CanWrite st c w = true ∧
     WriteMessage st c w =
     write_result (compiled st writeMessageHandlerFactory (KeyState (lget st w)) t None w)).
Proof.
  intros Hw Hr (Hok & -> & ->)%NewClient_Ret; [|done..].
  assert (CanWrite st (client_of st d) w = true ↔ KeyState (lget st w) ∈ (def_WriteMessage d).*1)
    as Hcan by (by rewrite CanWrite_iff; unfold write_states; rewrite elem_of_key_states).
  split_and!; [done|apply WriteMessage_nothing|].
  intros t Ht. split.
  - apply Hcan. by apply (list_elem_of_fmap_2 fst _ (KeyState (lget st w), [t])).
  - apply WriteMessage_runs; [apply Hok|done].
Qed.

Lemma client_write_witness :
  ∃ c, NewClient demo_state demo_definition (0, 42) = (Ret c, (1, 42)) ∧
    WriteMessage demo_state c (1, 42) = (Ret (Some 42, None), (3, 42)) ∧
    WriteMessage demo_state c (3, 42) = (Ret (None, Some NothingToWrite), (3, 42)).
Proof.
  assert (NoDup (def_WriteMessage demo_definition).*1) as Hw
    by (apply (bool_decide_unpack _); vm_compute; exact I).
  assert (NoDup (def_ReadMessage demo_definition).*1) as Hr
    by (apply (bool_decide_unpack _); vm_compute; exact I).
  assert (NewClient demo_state demo_definition (0, 42) =
    (Ret (client_of demo_state demo_definition), (1, 42))) as H
    by (apply NewClient_Ret; auto using demo_definition_ok).
  eexists. split; [exact H|]. split.
  - destruct (client_write demo_state _ _ _ (1, 42) _ Hw Hr H) as (_ & _ & Hr2).
    edestruct Hr2 as [_ ->]; [by left|]. vm_compute. reflexivity.
  - destruct (client_write demo_state _ _ _ (3, 42) _ Hw Hr H) as (_ & Hn & _).
    apply Hn. vm_compute. reflexivity.
Defined.

(** [ReadMessage] of a new client.  A message whose type no transition of
    the read table takes in the current state is answered with
    [UnexpectedMessage] and changes nothing; otherwise the transition that the
    type and the state select runs on the message, and its error is what the
    call returns. *)
Theorem client_read {Msg W} (st : lens W State) `{!LensLaws st} (d : Definition_ Msg W)
    (w0 w1 w : W) (c : Client Msg W) (m : Msg) (key : Key) :
  NoDup (def_WriteMessage d).*1 → NoDup (def_ReadMessage d).*1 →
  NewClient st d w0 = (Ret c, w1) → TypeOf (def_Protocol d) m = Ret key →
  ((∀ ts t, (key, ts) ∈ def_ReadMessage d → t ∈ ts → lget st w ∉ triggers key t) →
     ReadMessage st c m w = (Ret (Some UnexpectedMessage), w)) ∧
  (∀ ts t out err w', (key, ts) ∈ def_ReadMessage d → t ∈ ts → lget st w ∈ triggers key t →
     compiled st readMessageHandlerFactory key t (Some m) w = (Ret (out, err), w') →
     isBadTransition err = false →
     ReadMessage st c m w = (Ret err, w')).
Proof.
  intros Hw Hr (Hok & -> & ->)%NewClient_Ret Hty; [|done..]. split.
  - eapply ReadMessage_unexpected; [apply Hok|done].
  - intros ts t out err w' Hin Ht Hs Hc Hb.
    erewrite ReadMessage_runs; [|apply Hok|done..]. by rewrite Hc, Hb.
Qed.

Lemma client_read_witness :
  ∃ c, NewClient demo_state demo_definition (0, 42) = (Ret c, (1, 42)) ∧
    ReadMessage demo_state c 5 (3, 42) = (Ret None, (2, 5)) ∧
    ReadMessage demo_state c 5 (1, 42) = (Ret (Some UnexpectedMessage), (1, 42)).
Proof.
  assert (NoDup (def_WriteMessage demo_definition).*1) as Hw
    by (apply (bool_decide_unpack _); vm_compute; exact I).
  assert (NoDup (def_ReadMessage demo_definition).*1) as Hr
    by (apply (bool_decide_unpack _); vm_compute; exact I).
  assert (NewClient demo_state demo_definition (0, 42) =
    (Ret (client_of demo_state demo_definition), (1, 42))) as H
    by (apply NewClient_Ret; auto using demo_definition_ok).
  eexists. split; [exact H|]. split.
  - destruct (client_read demo_state _ _ _ (3, 42) _ 5 _ Hw Hr H eq_refl) as [_ Hread].
    eapply Hread; [by left|by left|by left|vm_compute; reflexivity|vm_compute; reflexivity].
  - destruct (client_read demo_state _ _ _ (1, 42) _ 5 _ Hw Hr H eq_refl) as [Hun _].
    apply Hun. intros ts t Hin Ht. apply list_elem_of_singleton in Hin. simplify_eq.
    apply list_elem_of_singleton in Ht as ->. apply (bool_decide_unpack _). vm_compute. exact I.
Defined.

(** The contract of [WriteFirst].  If no state of the write table triggers
    a transition of the read table, then while [MustWrite] holds every message
    that is read is refused with [UnexpectedMessage] and the client's state
    and data stay as they are. *)
Theorem must_write_before_read {Msg W} (st : lens W State) `{!LensLaws st} (d : Definition_ Msg W)
    (w0 w1 w : W) (c : Client Msg W) (m : Msg) (key : Key) :
  NoDup (def_WriteMessage d).*1 → NoDup (def_ReadMessage d).*1 →
  NewClient st d w0 = (Ret c, w1) → TypeOf (def_Protocol d) m = Ret key →
  (∀ s ts t, KeyState s ∈ (def_WriteMessage d).*1 → (key, ts) ∈ def_ReadMessage d → t ∈ ts →
     s ∉ triggers key t) →
  MustWrite st c w = true →
  ReadMessage st c m w = (Ret (Some UnexpectedMessage), w).
Proof.
  intros Hw Hr (Hok & -> & ->)%NewClient_Ret Hty Hdisj Hmust; [|done..].
  apply andb_true_iff in Hmust as [_ Hcan]. rewrite CanWrite_iff in Hcan.
  unfold write_states in Hcan. rewrite elem_of_key_states in Hcan.
  eapply ReadMessage_unexpected; [apply Hok|done|eauto].
Qed.

Lemma must_write_before_read_witness :
  ∃ c, NewClient demo_state demo_definition (0, 42) = (Ret c, (1, 42)) ∧
    MustWrite demo_state c (1, 42) = true ∧
    ReadMessage demo_state c 5 (1, 42) = (Ret (Some UnexpectedMessage), (1, 42)).
Proof.
  assert (NewClient demo_state demo_definition (0, 42) =
    (Ret (client_of demo_state demo_definition), (1, 42))) as H.
  { apply NewClient_Ret; [..|auto using demo_definition_ok].
    - apply (bool_decide_unpack _). vm_compute. exact I.
    - apply (bool_decide_unpack _). vm_compute. exact I. }
  eexists. split; [exact H|]. split; [vm_compute; reflexivity|].
  eapply (must_write_before_read demo_state demo_definition (0, 42) (1, 42)).
  - apply (bool_decide_unpack _). vm_compute. exact I.
  - apply (bool_decide_unpack _). vm_compute. exact I.
  - exact H.
  - reflexivity.
  - intros s ts t Hs Hin Ht. apply list_elem_of_singleton in Hs, Hin. simplify_eq.
    injection Hs as ->.
    apply list_elem_of_singleton in Ht as ->. apply (bool_decide_unpack _). vm_compute. exact I.
  - vm_compute. reflexivity.
Defined.
