(* ===== verification/Secure.v ===== *)
(** * Secure: encrypted connections ([lib/secure/conn.go])

    A [noiseConn] sends each payload as one Noise message behind its length.
    The cipher states of the Noise library are a parameter: the class
    [CipherState] has their operations, and [NoiseCipher] what the library
    documents of a pair of cipher states that came out of one handshake. *)

From S2P Require Import Prelude GoSem Packet.

Local Open Scope Z_scope.

Definition TagSize : Z := 16.
Definition MessageMaxSize : Z := Z.shiftl 1 16 - 1.
Definition PayloadMaxSize : Z := MessageMaxSize - TagSize.
Definition MessageSize (payloadLength : Z) : Z := payloadLength + TagSize.
Definition PayloadSize (messageLength : Z) : Z := messageLength - MessageSize 0.

Definition MessageTooLong : error := ErrText "noise message is too long".
Definition WriteIncomplete : error := ErrText "failed to write entire payload".
Definition BufferTooSmall : error := ErrText "buffer is too small".
Definition InvalidLengthField : error := ErrText "read invalid length field".
Definition UnexpectedPlaintext : error := ErrText "unexpected plaintext length".

(** [noise.CipherState]: both operations append to [out]. *)
Class CipherState (K : Type) : Type := {
  Encrypt : ∀ out ad plaintext : bytes, M K (bytes * option error);
  Decrypt : ∀ out ad ciphertext : bytes, M K (bytes * option error)
}.

(** A writing and a reading cipher state that can exchange [n] more messages:
    what the one encrypts the other decrypts, in the same order and with the
    same associated data, and a ciphertext is longer by the tag. *)
Class NoiseCipher (K : Type) `{!CipherState K} : Type := {
  in_sync : nat → K → K → Prop;
  encrypt_decrypt n kw kr out ad p :
    in_sync (S n) kw kr →
    ∃ ct kw' kr', Encrypt out ad p kw = (Ret (out ++ ct, None), kw') ∧
      zlen ct = zlen p + TagSize ∧
      Decrypt [] ad ct kr = (Ret (p, None), kr') ∧ in_sync n kw' kr'
}.

(** [noiseConn]: the connection, the identities of its ends and the two cipher
    states. *)
Record noiseConn (C K : Type) : Type := mkConn {
  identity_ : bytes;
  peerIdentity : bytes;
  Conn : C;
  writeCipher : K;
  readCipher : K
}.
Arguments mkConn {C K} _ _ _ _ _.
Arguments identity_ {C K} _.
Arguments peerIdentity {C K} _.
Arguments Conn {C K} _.
Arguments writeCipher {C K} _.
Arguments readCipher {C K} _.

Section NoiseConn.
Context {C K : Type} `{!io_Reader C} `{!io_Writer C} `{!CipherState K}.

Definition conn_field : lens (noiseConn C K) C :=
  Lens Conn (λ x c, mkConn (identity_ c) (peerIdentity c) x (writeCipher c) (readCipher c)).
Definition write_field : lens (noiseConn C K) K :=
  Lens writeCipher (λ k c, mkConn (identity_ c) (peerIdentity c) (Conn c) k (readCipher c)).
Definition read_field : lens (noiseConn C K) K :=
  Lens readCipher (λ k c, mkConn (identity_ c) (peerIdentity c) (Conn c) (writeCipher c) k).

Definition WrapConn (identity_ peerIdentity : bytes) (conn : C) (writeCipher readCipher : K)
  : noiseConn C K :=
  mkConn identity_ peerIdentity conn writeCipher readCipher.

Definition LocalIdentity (c : noiseConn C K) : bytes := identity_ c.
Definition RemoteIdentity (c : noiseConn C K) : bytes := peerIdentity c.

Definition Write (p : bytes) : M (noiseConn C K) (Z * option error) :=
  let size := MessageSize (zlen p) in
  if size >? MessageMaxSize then mret (0, Some MessageTooLong)
  else
    let lenBuf := Length_Bytes size in
    '(message, err) ← zoom write_field (Encrypt lenBuf lenBuf p);
    if negb (zlen message - zlen lenBuf =? size) then throw (PanicString "unexpected ciphertext length")
    else match err with
    | Some e => mret (0, Some e)
    | None =>
        '(m, err) ← zoom conn_field (io_Write message);
        match err with
        | Some e => mret (0, Some e)
        | None =>
            if negb (m =? zlen message) then mret (0, Some WriteIncomplete)
            else mret (zlen p, None)
        end
    end.

(** [Read] into a buffer of the given length and capacity; the bytes of the
    plaintext stand for the part of the buffer that was filled. *)
Definition Read (len cap : Z) : M (noiseConn C K) (bytes * option error) :=
  if len <? PayloadMaxSize then mret ([], Some BufferTooSmall)
  else
    '(lenBuf, err) ← zoom conn_field (io_Read LengthSize);
    match err with
    | Some e => mret ([], Some e)
    | None =>
        if negb (zlen lenBuf =? LengthSize) then mret ([], Some InvalidLengthField)
        else
          let '(size, err) := DecodeLength lenBuf in
          match err with
          | Some e => mret ([], Some e)
          | None =>
              if size >? cap then throw PanicSlice
              else
                '(ct, err) ← zoom conn_field (ReadFull size);
                match err with
                | Some e => mret ([], Some e)
                | None =>
                    '(plaintext, err) ← zoom read_field (Decrypt [] (Length_Bytes size) ct);
                    match err with
                    | Some e => mret ([], Some e)
                    | None =>
                        if negb (zlen plaintext =? PayloadSize size)
                        then mret ([], Some UnexpectedPlaintext)
                        else mret (plaintext, None)
                    end
                end
          end
    end.
End NoiseConn.

(** ** A stream of messages *)

(** Write payloads one after the other; read [n] of them. *)
Fixpoint WriteAll {C K} `{!io_Writer C} `{!CipherState K} (ps : list bytes)
  : M (noiseConn C K) (option error) :=
  match ps with
  | [] => mret None
  | p :: ps =>
      '(_, err) ← Write p;
      match err with Some e => mret (Some e) | None => WriteAll ps end
  end.

Fixpoint ReadMany {C K} `{!io_Reader C} `{!CipherState K} (n : nat) (len cap : Z)
  : M (noiseConn C K) (list bytes * option error) :=
  match n with
  | O => mret ([], None)
  | S n =>
      '(p, err) ← Read len cap;
      match err with
      | Some e => mret ([], Some e)
      | None => '(ps, err) ← ReadMany n len cap; mret (p :: ps, err)
      end
  end.

(** The segments of a connection carry the given messages, and the length of
    each message arrives in one piece. *)
Inductive framed : list bytes → list bytes → Prop :=
| framed_nil : framed [] []
| framed_cons ct cts s segs rest :
    2 ≤ zlen s → Forall (λ x, x ≠ []) segs → concat (s :: segs) = wire ct →
    framed cts rest → framed (ct :: cts) (s :: segs ++ rest).

(** Reading whole segments. *)
Lemma ReadAtLeast_segments fuel acc segs rest :
  Forall (λ x, x ≠ []) segs → (length (concat segs) < fuel)%nat →
  ReadAtLeast fuel (zlen (acc ++ concat segs)) acc (Segments (segs ++ rest)) =
  (Ret (acc ++ concat segs, None), Segments rest).
Proof.
  revert acc segs. induction fuel as [|fuel IH]; intros acc segs Hne Hf; [lia|]. simpl.
  destruct Hne as [|s segs Hs Hne]; simpl in *.
  - rewrite app_nil_r. by zcond.
  - rewrite length_app in Hf. assert (0 < length s)%nat by (destruct s; [done|simpl; lia]).
    rewrite !zlen_app. unfold zlen. zcond. unfold mbind, M_bind, io_Read, segments_io_Reader. simpl.
    rewrite drop_ge, take_ge by lia.
    specialize (IH (acc ++ s) segs Hne ltac:(lia)). rewrite <- app_assoc in IH.
    rewrite !zlen_app in IH. unfold zlen in IH. exact IH.
Qed.

Lemma ReadFull_segments segs rest :
  Forall (λ x, x ≠ []) segs →
  ReadFull (zlen (concat segs)) (Segments (segs ++ rest)) = (Ret (concat segs, None), Segments rest).
Proof.
  intros Hne. unfold ReadFull. rewrite (ReadAtLeast_segments _ [] segs rest Hne); [done|].
  unfold zlen. lia.
Qed.

(** Reading the length, then the rest of the message. *)
Lemma framed_head ct cts l :
  framed (ct :: cts) l → zlen ct < 2 ^ 16 →
  ∃ l1 l2, io_Read LengthSize (Segments l) = (Ret (Length_Bytes (zlen ct), None), Segments l1) ∧
    ReadFull (zlen ct) (Segments l1) = (Ret (ct, None), Segments l2) ∧ framed cts l2.
Proof.
  intros Hfr Hlen. inversion Hfr as [|? ? s segs rest Hs Hne Hc Hrest]; subst. clear Hfr.
  unfold wire in Hc. simpl in Hc.
  assert (take 2 s = Length_Bytes (zlen ct) ∧ drop 2 s ++ concat segs = ct) as [H1 H2].
  { unfold zlen in Hs. apply app_inj_1; [|by rewrite app_assoc, take_drop].
    rewrite length_take. unfold Length_Bytes. rewrite length_be_bytes. lia. }
  exists ((if drop 2 s is [] then segs else drop 2 s :: segs) ++ rest), rest. split_and!; [| |done].
  - unfold io_Read, segments_io_Reader. cbn [GoSem.segs]. change (Z.to_nat LengthSize) with 2%nat.
    rewrite H1. by destruct (drop 2 s).
  - rewrite <- H2. destruct (drop 2 s) as [|b s'] eqn:E; simpl; [by apply ReadFull_segments|].
    apply (ReadFull_segments ((b :: s') :: segs) rest). by constructor.
Qed.

Lemma MessageMaxSize_eq : MessageMaxSize = 65535.
Proof. reflexivity. Qed.

Section Messages.
Context {K : Type} `{NoiseCipher K}.
Implicit Types me peer : bytes.

(** What may be sent: a payload that fits. *)
Definition sendable (p : bytes) : Prop := zlen p ≤ PayloadMaxSize.

(** The write that [Write] does, on any connection. *)
Lemma Write_steps {C} `{!io_Writer C} me peer (c c' : C) kw kw' kx p ct :
  Encrypt (Length_Bytes (zlen ct)) (Length_Bytes (zlen ct)) p kw = (Ret (wire ct, None), kw') →
  zlen ct = MessageSize (zlen p) → sendable p →
  io_Write (wire ct) c = (Ret (zlen (wire ct), None), c') →
  Write p (mkConn me peer c kw kx) = (Ret (zlen p, None), mkConn me peer c' kw' kx).
Proof.
  intros HE Hct Hp HW. unfold sendable, PayloadMaxSize in Hp. rewrite MessageMaxSize_eq in Hp.
  unfold Write. rewrite MessageMaxSize_eq, <- Hct. unfold MessageSize, TagSize in *.
  rewrite Z.gtb_ltb. zcond. erewrite bind_Ret by (apply zoom_eq; exact HE). cbv beta iota.
  unfold wire at 1. rewrite zlen_app.
  replace (zlen (Length_Bytes (zlen ct)) + zlen ct - zlen (Length_Bytes (zlen ct)) =? zlen ct) with true by lia.
  cbn [negb]. erewrite bind_Ret by (apply zoom_eq; exact HW). cbv beta iota. by rewrite Z.eqb_refl.
Qed.

Lemma Write_ok {C} `{StreamWriter C} me peer (c : C) n kw kr kx p :
  in_sync (S n) kw kr → sendable p →
  ∃ ct c' kw' kr', Write p (mkConn me peer c kw kx) = (Ret (zlen p, None), mkConn me peer c' kw' kx) ∧
    written_to c' = written_to c ++ wire ct ∧ zlen ct = MessageSize (zlen p) ∧
    Decrypt [] (Length_Bytes (zlen ct)) ct kr = (Ret (p, None), kr') ∧ in_sync n kw' kr'.
Proof.
  intros Hs Hp. set (lb := Length_Bytes (MessageSize (zlen p))).
  destruct (encrypt_decrypt n kw kr lb lb p Hs) as (ct & kw' & kr' & HE & Hct & HD & Hs').
  assert (zlen ct = MessageSize (zlen p)) as Hsz by done.
  destruct (written_write c (wire ct)) as (c' & HW & Hc').
  exists ct, c', kw', kr'. unfold lb in *. rewrite <- Hsz in *.
  split; [by eapply Write_steps|]. split_and!; done.
Qed.

(** The two reads that [Read] does, on any connection. *)
Lemma Read_steps {C} `{!io_Reader C} me peer (c c1 c2 : C) kr kr' kx ct p len cap :
  io_Read LengthSize c = (Ret (Length_Bytes (zlen ct), None), c1) →
  ReadFull (zlen ct) c1 = (Ret (ct, None), c2) →
  Decrypt [] (Length_Bytes (zlen ct)) ct kr = (Ret (p, None), kr') →
  zlen ct = MessageSize (zlen p) → sendable p → PayloadMaxSize ≤ len → zlen ct ≤ cap →
  Read len cap (mkConn me peer c kx kr) = (Ret (p, None), mkConn me peer c2 kx kr').
Proof.
  intros H1 H2 HD Hct Hp Hlen Hcap. unfold sendable, PayloadMaxSize in Hp. pose proof (zlen_nonneg p).
  unfold MessageSize, TagSize in Hct. rewrite MessageMaxSize_eq in Hp. unfold TagSize in Hp.
  unfold Read. zcond.
  erewrite bind_Ret by (apply zoom_eq; exact H1). cbv beta iota.
  rewrite zlen_Length_Bytes, Z.eqb_refl. cbn [negb].
  rewrite DecodeLength_Bytes by lia. rewrite Z.gtb_ltb. zcond.
  erewrite bind_Ret by (apply zoom_eq; exact H2). cbv beta iota.
  erewrite bind_Ret by (apply zoom_eq; exact HD). cbv beta iota.
  unfold PayloadSize, MessageSize, TagSize. by replace (zlen p =? zlen ct - (0 + 16)) with true by lia.
Qed.

Lemma Read_ok me peer kr kr' kx ct p cts l len cap :
  framed (ct :: cts) l → zlen ct = MessageSize (zlen p) → sendable p →
  PayloadMaxSize ≤ len → zlen ct ≤ cap →
  Decrypt [] (Length_Bytes (zlen ct)) ct kr = (Ret (p, None), kr') →
  ∃ l', Read len cap (mkConn me peer (Segments l) kx kr) =
      (Ret (p, None), mkConn me peer (Segments l') kx kr') ∧
    framed cts l'.
Proof.
  intros Hfr Hct Hp Hlen Hcap HD.
  destruct (framed_head ct cts l Hfr) as (l1 & l2 & H1 & H2 & Hfr').
  { unfold sendable, PayloadMaxSize, MessageSize, TagSize in *. rewrite MessageMaxSize_eq in Hp.
    pose proof (zlen_nonneg p). lia. }
  exists l2. split; [|done]. by eapply Read_steps.
Qed.

Lemma stream_ok {C} `{StreamWriter C} me peer (c : C) kw kr kx ps :
  in_sync (length ps) kw kr → Forall sendable ps →
  ∃ c' kw' cts, WriteAll ps (mkConn me peer c kw kx) = (Ret None, mkConn me peer c' kw' kx) ∧
    written_to c' = written_to c ++ wire_all cts ∧ Forall (λ ct, zlen ct ≤ MessageMaxSize) cts ∧
    ∀ l ky len cap, framed cts l → PayloadMaxSize ≤ len → MessageMaxSize ≤ cap →
      ∃ l' kr', ReadMany (length ps) len cap (mkConn me peer (Segments l) ky kr) =
        (Ret (ps, None), mkConn me peer (Segments l') ky kr').
Proof.
  intros Hs Hps. revert c kw kr Hs.
  induction Hps as [|p ps Hp Hps IH]; intros c kw kr Hs.
  - exists c, kw, []. unfold wire_all. simpl. rewrite app_nil_r. split_and!; [done|done|constructor|].
    intros l ky len cap _ _ _. by exists l, kr.
  - destruct (Write_ok me peer c (length ps) kw kr kx p Hs Hp) as (ct & c1 & kw1 & kr1 & HW & Hc1 & Hct & HD & Hs1).
    destruct (IH c1 kw1 kr1 Hs1) as (c2 & kw2 & cts & HWA & Hc2 & Hcts & HR).
    assert (zlen ct ≤ MessageMaxSize) as Hle.
    { unfold sendable, PayloadMaxSize, MessageSize in *. lia. }
    exists c2, kw2, (ct :: cts). split_and!.
    + cbn [WriteAll]. by erewrite bind_Ret by exact HW.
    + by rewrite Hc2, Hc1, <- app_assoc, wire_all_cons.
    + by constructor.
    + intros l ky len cap Hfr Hlen Hcap.
      destruct (Read_ok me peer kr kr1 ky ct p cts l len cap) as (l1 & Hr & Hfr1); [done|done|done|done|lia|done|].
      destruct (HR l1 ky len cap Hfr1 Hlen Hcap) as (l' & kr' & Hm).
      exists l', kr'. cbn [ReadMany length]. erewrite bind_Ret by exact Hr. cbv beta iota.
      by erewrite bind_Ret by exact Hm.
Qed.
End Messages.

(** ** A cipher for the witnesses

    It appends a tag that carries the message number and checks the number on
    the way back. *)
Definition demo_tag (k : Z) : bytes := be_bytes 16 k.

#[export] Instance demo_cipher : CipherState Z := {|
  Encrypt out ad p k := (Ret (out ++ p ++ demo_tag k, None), k + 1);
  Decrypt out ad ct k :=
    let n := Z.to_nat (zlen ct - 16) in
    if bool_decide (drop n ct = demo_tag k) then (Ret (out ++ take n ct, None), k + 1)
    else (Ret ([], Some (ErrText "message authentication failed")), k)
|}.

#[export] Program Instance demo_noise : NoiseCipher Z := {| in_sync _ kw kr := kw = kr |}.
Next Obligation.
  intros n kw kr out ad p ->. exists (p ++ demo_tag kr), (kr + 1), (kr + 1). unfold Encrypt, Decrypt. simpl.
  assert (zlen (demo_tag kr) = 16) as Ht by apply zlen_be_bytes.
  rewrite !zlen_app, Ht. replace (Z.to_nat (zlen p + 16 - 16)) with (length p) by (unfold zlen; lia).
  rewrite drop_app_length, take_app_length, bool_decide_eq_true_2 by done. done.
Qed.

(** ** Properties *)

(** C23: payloads written to one end of an encrypted connection are read at the
    other end, in order and unchanged: writing payloads that fit succeeds and
    puts one length-prefixed message per payload on the connection, and reading
    into a buffer for a whole message gives the payloads back, however the
    bytes are cut into segments, as long as each length field arrives in one
    piece. *)
Theorem secure_stream_roundtrip {C K} `{StreamWriter C} `{NoiseCipher K}
    (me peer : bytes) (c : C) (kw kr k1 : K) (ps : list bytes) :
  in_sync (length ps) kw kr → Forall sendable ps →
  ∃ c' kw' cts,
    WriteAll ps (WrapConn me peer c kw k1) = (Ret None, mkConn me peer c' kw' k1) ∧
    written_to c' = written_to c ++ wire_all cts ∧
    ∀ l k2 len cap, framed cts l → PayloadMaxSize ≤ len → MessageMaxSize ≤ cap →
      ∃ l' kr', ReadMany (length ps) len cap (WrapConn me peer (Segments l) k2 kr) =
        (Ret (ps, None), mkConn me peer (Segments l') k2 kr').
Proof.
  intros Hs Hps. destruct (stream_ok me peer c kw kr k1 ps Hs Hps) as (c' & kw' & cts & H1 & H2 & _ & H3).
  exists c', kw', cts. done.
Qed.

Lemma secure_stream_roundtrip_witness :
  ∃ c' kw' cts,
    WriteAll [[Byte.x01; Byte.x02]; []] (WrapConn [] [] (C := bytes) [] 0 0) =
      (Ret None, mkConn [] [] c' kw' 0) ∧
    ∀ l, framed cts l → ∃ l' kr',
      ReadMany 2 65535 65535 (WrapConn [] [] (Segments l) 0 0) =
        (Ret ([[Byte.x01; Byte.x02]; []], None), mkConn [] [] (Segments l') 0 kr').
Proof.
  destruct (secure_stream_roundtrip (C := bytes) (K := Z) [] [] [] 0 0 0 [[Byte.x01; Byte.x02]; []])
    as (c' & kw' & cts & H1 & _ & H3).
  - reflexivity.
  - repeat constructor; vm_compute; discriminate.
  - exists c', kw', cts. split; [exact H1|]. intros l Hl.
    apply (H3 l 0 65535 65535 Hl); vm_compute; discriminate.
Defined.

(** A length field that arrives in two pieces makes [Read] fail: the two
    bytes are read with a single call, so an intact message whose first segment
    has one byte is answered with an error and that byte is lost. *)
Theorem secure_read_split_length {K} `{!CipherState K} (me peer : bytes) (kw kr : K) (b : byte) (l : list bytes)
    (len cap : Z) :
  PayloadMaxSize ≤ len →
  Read len cap (WrapConn me peer (Segments ([b] :: l)) kw kr) =
  (Ret ([], Some InvalidLengthField), WrapConn me peer (Segments l) kw kr).
Proof. intros Hlen. unfold Read. by zcond. Qed.

Lemma secure_read_split_length_witness :
  ∃ l, concat l = wire (demo_tag 0) ∧
    Read 65535 65535 (WrapConn [] [] (Segments l) 0 0) =
    (Ret ([], Some InvalidLengthField), WrapConn [] [] (Segments (tail l)) 0 0).
Proof.
  exists [[Byte.x00]; Byte.x10 :: demo_tag 0]. split; [vm_compute; reflexivity|].
  apply secure_read_split_length. vm_compute. discriminate.
Defined.

(** What [Read] checks about the buffer is not enough: a buffer that holds
    any payload but not any message (at least [PayloadMaxSize] bytes, less than
    the announced message size) makes [Read] panic when it takes the slice for
    the ciphertext.  With [MessageMaxSize] bytes [Read] returns, a payload or an
    error, whatever bytes the peer sends. *)
Theorem secure_read_buffer {R K} `{StreamReader R} `{!CipherState K} (me peer : bytes) (kw kr : K) :
  (∀ size len l, 0 ≤ size < 2 ^ 16 → PayloadMaxSize ≤ len < size →
     Read len len (WrapConn me peer (Segments (Length_Bytes size :: l)) kw kr) =
       (Panic PanicSlice, WrapConn me peer (Segments l) kw kr)) ∧
  (∀ (r : R) d len, pending r d → MessageMaxSize ≤ len →
     (∀ ad ct, ∃ x k', Decrypt [] ad ct kr = (Ret x, k')) →
     ∃ x, (Read len len (WrapConn me peer r kw kr)).1 = Ret x).
Proof.
  split.
  - intros size len l Hsize Hlen. unfold Read. zcond. erewrite bind_Ret by (apply zoom_eq; reflexivity).
    cbv beta iota. change (Z.to_nat LengthSize) with 2%nat.
    rewrite take_ge by (unfold Length_Bytes; by rewrite length_be_bytes).
    rewrite zlen_Length_Bytes, Z.eqb_refl. cbn [negb].
    rewrite DecodeLength_Bytes by done. rewrite Z.gtb_ltb. by zcond.
  - intros r d len Hp Hlen HD. unfold Read.
    destruct (len <? PayloadMaxSize); [by eexists|].
    assert (∃ lb err r1 rest, io_Read LengthSize r = (Ret (lb, err), r1) ∧ pending r1 rest)
      as (lb & err & r1 & rest & H1 & Hp1).
    { destruct (decide (d = [])) as [->|Hne].
      - destruct (pending_eof r LengthSize Hp) as (r1 & ? & ?); [done|]. eauto 6.
      - destruct (pending_read r d LengthSize Hp) as (ch & rest & r1 & err & ? & _ & _ & ? & _);
          [done|done|]. eauto 6. }
    erewrite bind_Ret by (apply zoom_eq; exact H1). cbv beta iota.
    destruct err; [by eexists|]. destruct (negb (zlen lb =? LengthSize)); [by eexists|].
    destruct (DecodeLength lb) as [size err] eqn:E. destruct err; [by eexists|].
    apply DecodeLength_inv in E as [_ Hsize]. rewrite MessageMaxSize_eq in Hlen.
    rewrite Z.gtb_ltb. zcond.
    assert (∃ ct err r2, ReadFull size r1 = (Ret (ct, err), r2)) as (ct & err & r2 & H2).
    { destruct (Z.lt_ge_cases (zlen rest) size) as [Hlt|Hge].
      - destruct (ReadFull_short r1 rest size Hp1 Hlt) as [r2 ?]. eauto.
      - rewrite <- (take_drop (Z.to_nat size) rest) in Hp1.
        destruct (ReadFull_pending r1 _ _ size Hp1) as (r2 & ? & _); [|by eauto].
        rewrite zlen_take. lia. }
    erewrite bind_Ret by (apply zoom_eq; exact H2). cbv beta iota.
    destruct err; [by eexists|]. destruct (HD (Length_Bytes size) ct) as ([p err] & k' & H3).
    erewrite bind_Ret by (apply zoom_eq; exact H3). cbv beta iota.
    destruct err; [by eexists|]. destruct (negb _); by eexists.
Qed.

Lemma secure_read_buffer_witness :
  Read 65519 65519 (WrapConn [] [] (Segments [Length_Bytes 65520]) 0 0) =
    (Panic PanicSlice, WrapConn [] [] (Segments []) 0 0) ∧
  ∃ x, (Read 65535 65535 (WrapConn [] [] (Segments [Length_Bytes 65520]) 0 0)).1 = Ret x.
Proof.
  destruct (secure_read_buffer (R := segments) [] [] 0 0) as [H1 H2]. split.
  - apply H1; split; vm_compute; (discriminate || reflexivity).
  - apply (H2 _ (Length_Bytes 65520)).
    + split; [|by rewrite <- (app_nil_r (Length_Bytes 65520)) at 1].
      constructor; [vm_compute; discriminate|constructor].
    + vm_compute. discriminate.
    + intros ad ct. unfold Decrypt, demo_cipher. case_bool_decide; eauto.
Defined.
