(* ===== verification/Channel.v ===== *)
(** * Channel: channels of a session ([lib/session/channel.go])

    Channel ids, the messages of a session and how a message of a channel's
    protocol is wrapped into one.  Protobuf's [Marshal] and [Unmarshal] are a
    parameter: [ProtoMessage] has the two functions, [ProtoRoundTrip] and
    [ProtoDataSize] state what the Protobuf documentation says about them. *)

From S2P Require Import Prelude GoSem Automaton Protocol Secure.

Local Open Scope Z_scope.

Definition firstChannelId : Z := 1.
Definition channelIdIncrement : Z := 2.

Definition NoMessageContent : error := ErrVar "session.NoMessageContent" "no message content".
Definition UnexpectedMessageType : error :=
  ErrVar "session.UnexpectedMessageType" "unexpected message type".
Definition ExpectedDataMessage : error :=
  ErrVar "session.ExpectedDataMessage" "expected data message type".
Definition IllegalRootMessageType : error :=
  ErrVar "session.IllegalRootMessageType" "illegal root message type".
Definition PayloadTooLarge : error :=
  ErrVar "session.PayloadTooLarge" "the payload is too large".

Definition ChannelTypeTransfer : Z := 1.

(** ** Messages ([session.proto]) *)

(** The oneof field of a session message. *)
Inductive Content : Type :=
| Open (channel_id channel_type : Z)
| Accept (channel_id : Z)
| Close (channel_id : Z)
| Data (channel_id message_type : Z) (payload : bytes).

#[export] Instance Content_eq_dec : EqDecision Content.
Proof. solve_decision. Defined.

(** [None] is a message without content. *)
Record Message : Type := mkMessage { content : option Content }.

(** ** Protobuf *)

(** [proto.Marshal(m)] and [proto.Unmarshal(b, m)]; the latter is given the
    empty message to fill. *)
Class ProtoMessage (X : Type) : Type := {
  Marshal : X → bytes + error;
  Unmarshal : bytes → X → X + error
}.

(** What was marshalled is unmarshalled into a message of the same type. *)
Class ProtoRoundTrip (X : Type) `{!ProtoMessage X} (same_type : X → X → Prop) : Prop :=
  unmarshal_marshal m m0 b : Marshal m = inl b → same_type m0 m → Unmarshal b m0 = inl m.

(** Sizes in the wire format: a varint takes a byte per seven bits, a field
    with a non-default value is preceded by a tag of one byte, and bytes and
    sub-messages by their length. *)
Definition varint_size (z : Z) : Z := 1 + Z.log2 z / 7.
Definition uint_field_size (z : Z) : Z := if z =? 0 then 0 else 1 + varint_size z.
Definition len_field_size (n : Z) : Z := 1 + varint_size n + n.
Definition data_size (id t n : Z) : Z :=
  len_field_size (uint_field_size id + uint_field_size t + (if n =? 0 then 0 else len_field_size n)).

(** The size of a marshalled [Data] message; Protobuf limits a message to 2 GiB. *)
Class ProtoDataSize `{!ProtoMessage Message} : Prop :=
  marshal_size id t p :
    0 ≤ id < 2 ^ 64 → 0 ≤ t < 2 ^ 31 → zlen p ≤ 2 ^ 30 →
    ∃ b, Marshal (mkMessage (Some (Data id t p))) = inl b ∧ zlen b = data_size id t (zlen p).

(** ** Payload size *)

(** The largest payload, found by marshalling a message with the largest ids. *)
Definition ComputePayloadMaxSize `{!ProtoMessage Message} : Z :=
  let payload := replicate (Z.to_nat PayloadMaxSize) Byte.x00 in
  match Marshal (mkMessage (Some (Data (2 ^ 64 - 1) (2 ^ 31 - 1) payload))) with
  | inr _ => PayloadMaxSize - 256
  | inl encoded =>
      let tooMuch := zlen encoded - PayloadMaxSize in
      PayloadMaxSize - tooMuch
  end.

(** ** Channel handles *)

Record channelHandle (Msg : Type) : Type := mkChannelHandle { ch_protocol : Protocol Msg; ch_id : Z }.
Arguments mkChannelHandle {Msg} _ _.
Arguments ch_protocol {Msg} _.
Arguments ch_id {Msg} _.

(** The factory's state: the next id, a [uint64]. *)
Record ChannelFactory : Type := mkFactory { nextId : Z }.

Definition NewChannelFactory (initiator : bool) : ChannelFactory :=
  if negb initiator then mkFactory (u64 (firstChannelId + 1)) else mkFactory firstChannelId.

Definition CreateChannelHandle {Msg} (p : Protocol Msg) : M ChannelFactory (channelHandle Msg) :=
  f ← get;
  put (mkFactory (u64 (nextId f + channelIdIncrement)));;
  mret (mkChannelHandle p (nextId f)).

Definition ChannelMessageTypeOpen : Z := 1.
Definition ChannelMessageTypeAccept : Z := 2.
Definition ChannelMessageTypeClose : Z := 3.
Definition ChannelMessageTypeData : Z := 4.

Record channelMessage : Type := mkChannelMessage {
  cm_Content : Content;
  cm_ChannelId : Z;
  cm_Type : Z
}.

Definition OpensChannel (m : channelMessage) : bool := cm_Type m =? ChannelMessageTypeOpen.
Definition AcceptsChannel (m : channelMessage) : bool := cm_Type m =? ChannelMessageTypeAccept.
Definition ClosesChannel (m : channelMessage) : bool := cm_Type m =? ChannelMessageTypeClose.
Definition IsData (m : channelMessage) : bool := cm_Type m =? ChannelMessageTypeData.

Definition UnwrapMessage (message : Message) : channelMessage + error :=
  match content message with
  | Some (Open i t) => inl (mkChannelMessage (Open i t) i ChannelMessageTypeOpen)
  | Some (Accept i) => inl (mkChannelMessage (Accept i) i ChannelMessageTypeAccept)
  | Some (Close i) => inl (mkChannelMessage (Close i) i ChannelMessageTypeClose)
  | Some (Data i t p) => inl (mkChannelMessage (Data i t p) i ChannelMessageTypeData)
  | None => inr NoMessageContent
  end.

Definition UnmarshalMessage `{!ProtoMessage Message} (b : bytes) : channelMessage + error :=
  match Unmarshal b (mkMessage None) with
  | inr e => inr e
  | inl message => UnwrapMessage message
  end.

Section Handle.
Context {Msg : Type} `{!ProtoMessage Message} `{!ProtoMessage Msg}.
Implicit Types c : channelHandle Msg.

(** [channelHandle.Type] *)
Definition Type_ c : Z := Id (ch_protocol c).
Definition OpenMessage c : Message := mkMessage (Some (Open (ch_id c) (Type_ c))).
Definition AcceptMessage c : Message := mkMessage (Some (Accept (ch_id c))).
Definition CloseMessage c : Message := mkMessage (Some (Close (ch_id c))).

Definition WrapMessage c (message : Msg) : outcome (Message + error) :=
  match Marshal message with
  | inr e => Ret (inr e)
  | inl payload =>
      if zlen payload >? ComputePayloadMaxSize then Ret (inr PayloadTooLarge)
      else
        t ← RawTypeOf (ch_protocol c) message;
        mret (inl (mkMessage (Some (Data (ch_id c) t payload))))
  end.

Definition MarshalMessage c (message : Msg) : outcome (bytes + error) :=
  r ← WrapMessage c message;
  match r with
  | inr e => mret (inr e)
  | inl result => mret (Marshal result)
  end.

(** [channelHandle.ReadMessage]: the error of [Unmarshal] is dropped, and the
    message is then what [Unmarshal] left behind, here the empty message. *)
Definition Handle_ReadMessage c (message : channelMessage)
  : outcome (TypedMessage.Message Msg * option error) :=
  if negb (IsData message) then Ret (TypedMessage.EmptyTypedMessage, Some ExpectedDataMessage)
  else match cm_Content message with
  | Data _ t payload =>
      match NewMessage (ch_protocol c) t with
      | (_, Some e) => Ret (TypedMessage.EmptyTypedMessage, Some e)
      | (None, None) => Panic PanicNil
      | (Some result, None) =>
          let result := match Unmarshal payload result with inl m => m | inr _ => result end in
          Ret (TypedMessage.mkMessage (Some result) (Some (KeyInt t)), None)
      end
  | _ => Panic (PanicString "message should have been of type data")
  end.
End Handle.

(** ** Channel ids *)

(** Create [n] handles, one after the other, and give their ids. *)
Fixpoint create_ids {Msg} (p : Protocol Msg) (n : nat) : M ChannelFactory (list Z) :=
  match n with
  | O => mret []
  | S n => h ← CreateChannelHandle p; l ← create_ids p n; mret (ch_id h :: l)
  end.

(** The ids a factory gives out from [next] on. *)
Definition ids_from (next : Z) (n : nat) : list Z :=
  (λ k, u64 (next + 2 * k)) <$> seqZ 0 (Z.of_nat n).

Lemma create_ids_eq {Msg} (p : Protocol Msg) n next :
  0 ≤ next < 2 ^ 64 →
  create_ids p n (mkFactory next) =
  (Ret (ids_from next n), mkFactory (u64 (next + 2 * Z.of_nat n))).
Proof.
  revert next. induction n as [|n IH]; intros next Hn.
  - unfold ids_from. simpl. by rewrite Z.add_0_r, u64_small.
  - cbn [create_ids]. erewrite bind_Ret by reflexivity. cbv beta.
    erewrite bind_Ret by (apply IH; apply u64_range). unfold mret, M_ret. cbn [ch_id nextId].
    unfold ids_from. rewrite Nat2Z.inj_succ, (seqZ_cons 0 (Z.succ (Z.of_nat n))) by lia. rewrite fmap_cons.
    assert (∀ x, u64 (u64 (next + channelIdIncrement) + x) = u64 (next + 2 + x)) as Hu.
    { intros x. unfold u64. by rewrite Zplus_mod_idemp_l. }
    rewrite Hu. replace (next + 2 + 2 * Z.of_nat n) with (next + 2 * Z.succ (Z.of_nat n)) by lia.
    f_equal. f_equal. f_equal; [by rewrite Z.add_0_r, u64_small|].
    rewrite Z.pred_succ. replace (Z.succ 0) with (0 + 1) by lia.
    rewrite <- (fmap_add_seqZ 1 0), <- list_fmap_compose.
    apply list_fmap_ext. intros i x _. simpl. rewrite Hu. f_equal. lia.
Qed.

Lemma elem_of_ids_from next n x :
  x ∈ ids_from next n ↔ ∃ k, x = u64 (next + 2 * k) ∧ 0 ≤ k < Z.of_nat n.
Proof.
  unfold ids_from. rewrite list_elem_of_fmap. setoid_rewrite elem_of_seqZ.
  split; intros (k & -> & ?); exists k; (split; [done|lia]).
Qed.

(** Ids keep the parity of the first one, also when the counter wraps around. *)
Lemma ids_from_parity next n x : x ∈ ids_from next n → Z.odd x = Z.odd next.
Proof.
  intros (k & -> & _)%elem_of_ids_from. unfold u64.
  rewrite <- !Z.bit0_odd, Z.mod_pow2_bits_low by lia.
  rewrite !Z.bit0_odd, Z.odd_add, Z.odd_mul. by destruct (Z.odd next).
Qed.

Lemma ids_from_NoDup next n : Z.of_nat n ≤ 2 ^ 63 → NoDup (ids_from next n).
Proof.
  intros Hn. unfold ids_from. apply NoDup_fmap_2_strong; [|apply NoDup_seqZ].
  intros x y Hx Hy E. apply elem_of_seqZ in Hx, Hy. unfold u64 in E.
  assert ((2 * (x - y)) mod 2 ^ 64 = 0) as H0.
  { replace (2 * (x - y)) with ((next + 2 * x) - (next + 2 * y)) by lia.
    by rewrite Zminus_mod, E, Z.sub_diag. }
  apply Z.mod_divide in H0 as [q Hq]; lia.
Qed.

(** C27: channel ids do not collide.  The ids an initiator and a responder give
    out differ always, also after the counters wrapped around; the ids of one
    side differ from each other for [2 ^ 63] channels; and 0 is not given out
    by the initiator, nor by the responder for its first [2 ^ 63 - 1] channels. *)
Theorem channel_ids_distinct {Msg} (p q : Protocol Msg) (n m : nat) :
  ∃ li lr f g,
    create_ids p n (NewChannelFactory true) = (Ret li, f) ∧
    create_ids q m (NewChannelFactory false) = (Ret lr, g) ∧
    (∀ x, x ∈ li → x ∉ lr) ∧ (0 ∉ li) ∧
    (Z.of_nat n ≤ 2 ^ 63 → NoDup li) ∧ (Z.of_nat m ≤ 2 ^ 63 → NoDup lr) ∧
    (Z.of_nat m < 2 ^ 63 → 0 ∉ lr).
Proof.
  exists (ids_from 1 n), (ids_from 2 m). eexists _, _.
  split; [by apply create_ids_eq|]. split; [by apply create_ids_eq|]. split_and!.
  - intros x Hi Hr. apply ids_from_parity in Hi, Hr. by rewrite Hr in Hi.
  - intros Hi. by apply ids_from_parity in Hi.
  - apply ids_from_NoDup.
  - apply ids_from_NoDup.
  - intros Hm (k & Hk & Hlt)%elem_of_ids_from. rewrite u64_small in Hk by lia. lia.
Qed.

(** ** Payload size *)

Lemma varint_size_mono a b : a ≤ b → varint_size a ≤ varint_size b.
Proof.
  intros. unfold varint_size. pose proof (Z.log2_le_mono a b).
  pose proof (Z.div_le_mono (Z.log2 a) (Z.log2 b) 7). lia.
Qed.

Lemma uint_field_size_bound z b : 0 ≤ z ≤ b → uint_field_size z ≤ 1 + varint_size b.
Proof.
  intros. pose proof (varint_size_mono z b). unfold uint_field_size. destruct (z =? 0); [|lia].
  unfold varint_size. pose proof (Z.log2_nonneg b). pose proof (Z.div_pos (Z.log2 b) 7). lia.
Qed.

Lemma len_field_size_mono a b : a ≤ b → len_field_size a ≤ len_field_size b.
Proof. intros. pose proof (varint_size_mono a b). unfold len_field_size. lia. Qed.

Lemma data_size_bound id t n :
  0 ≤ id < 2 ^ 64 → 0 ≤ t < 2 ^ 31 → 0 ≤ n ≤ 65494 → data_size id t n ≤ 65519.
Proof.
  intros Hid Ht Hn. unfold data_size.
  transitivity (len_field_size (11 + 6 + len_field_size 65494)); [|by vm_compute].
  apply len_field_size_mono.
  pose proof (uint_field_size_bound id (2 ^ 64 - 1) ltac:(lia)) as H1.
  pose proof (uint_field_size_bound t (2 ^ 31 - 1) ltac:(lia)) as H2.
  change (1 + varint_size (2 ^ 64 - 1)) with 11 in H1.
  change (1 + varint_size (2 ^ 31 - 1)) with 6 in H2.
  pose proof (len_field_size_mono n 65494 ltac:(lia)).
  destruct (n =? 0); [|lia]. change (len_field_size 65494) with 65498 in *. lia.
Qed.

Lemma ComputePayloadMaxSize_eq `{ProtoDataSize} : ComputePayloadMaxSize = 65494.
Proof.
  unfold ComputePayloadMaxSize.
  destruct (marshal_size (2 ^ 64 - 1) (2 ^ 31 - 1)
    (replicate (Z.to_nat PayloadMaxSize) Byte.x00)) as (b & -> & Hb); [lia|lia| |].
  { rewrite zlen_replicate. vm_compute. discriminate. }
  rewrite Hb, zlen_replicate. vm_compute. reflexivity.
Qed.

(** ** Protobuf for the witnesses *)

#[export] Instance byte_countable : Countable byte.
Proof. refine (inj_countable' byte_to_Z byte_of_Z byte_of_to_Z). Defined.

#[export] Instance Content_countable : Countable Content.
Proof.
  refine (inj_countable'
    (λ c, match c with
          | Open i t => inl (i, t) | Accept i => inr (inl i)
          | Close i => inr (inr (inl i)) | Data i t p => inr (inr (inr (i, t, p)))
          end)
    (λ x, match x with
          | inl (i, t) => Open i t | inr (inl i) => Accept i
          | inr (inr (inl i)) => Close i | inr (inr (inr (i, t, p))) => Data i t p
          end) _).
  by intros [].
Defined.

#[export] Instance Message_eq_dec : EqDecision Message.
Proof. solve_decision. Defined.

#[export] Instance Message_countable : Countable Message.
Proof. refine (inj_countable' content mkMessage _). by intros []. Defined.

(** An encoding that can be undone, for any countable type: the bits of the
    number of the message. *)
Fixpoint bits_of (p : positive) : bytes :=
  match p with
  | xH => []
  | xO p => Byte.x00 :: bits_of p
  | xI p => Byte.x01 :: bits_of p
  end.

Definition of_bits (l : bytes) : positive :=
  foldr (λ b p, if byte_to_Z b =? 0 then xO p else xI p) xH l.

Lemma of_bits_of p : of_bits (bits_of p) = p.
Proof. induction p as [p IH|p IH|]; simpl; by rewrite ?IH. Qed.

Definition bits_proto {X} `{Countable X} : ProtoMessage X := {|
  Marshal m := inl (bits_of (encode m));
  Unmarshal b _ :=
    match decode (of_bits b) with
    | Some m => inl m
    | None => inr (ErrText "cannot parse invalid wire-format data")
    end
|}.

Lemma bits_roundtrip {X} `{Countable X} (R : X → X → Prop) : @ProtoRoundTrip X bits_proto R.
Proof. intros m m0 b [= <-] _. simpl. by rewrite of_bits_of, decode_encode. Qed.

(** An encoding of the right size. *)
Definition sized_proto : ProtoMessage Message := {|
  Marshal m := inl (match content m with
                    | Some (Data i t p) => replicate (Z.to_nat (data_size i t (zlen p))) Byte.x00
                    | _ => []
                    end);
  Unmarshal _ m := inl m
|}.

Lemma data_size_nonneg i t n : 0 ≤ n → 0 ≤ data_size i t n.
Proof.
  intros Hn. assert (∀ z, 0 ≤ varint_size z) as Hv.
  { intros z. unfold varint_size. pose proof (Z.log2_nonneg z). pose proof (Z.div_pos (Z.log2 z) 7). lia. }
  assert (∀ z, 0 ≤ uint_field_size z) as Hu.
  { intros z. pose proof (Hv z). unfold uint_field_size. destruct (z =? 0); lia. }
  unfold data_size, len_field_size. pose proof (Hu i). pose proof (Hu t). pose proof (Hv n).
  destruct (n =? 0); match goal with |- 0 ≤ 1 + varint_size ?x + _ => pose proof (Hv x) end; lia.
Qed.

Lemma sized_size : @ProtoDataSize sized_proto.
Proof.
  intros i t p _ _ _. eexists. split; [reflexivity|]. cbn [content]. rewrite zlen_replicate.
  pose proof (data_size_nonneg i t (zlen p) (zlen_nonneg p)). lia.
Qed.

(** ** Properties *)

(** C26: a message that fits the payload size of a channel fits an encrypted
    message: the largest payload is 65494 bytes; a message whose encoding is
    not longer is wrapped for any channel id and message type into an encoding
    that the encrypted connection takes, and a longer one is refused. *)
Theorem channel_payload_fits {Msg} `{!ProtoMessage Message} `{!ProtoDataSize} `{!ProtoMessage Msg}
    (c : channelHandle Msg) (m : Msg) (payload : bytes) (t : Z) :
  Marshal m = inl payload → RawTypeOf (ch_protocol c) m = Ret t →
  0 ≤ t < 2 ^ 31 → 0 ≤ ch_id c < 2 ^ 64 →
  ComputePayloadMaxSize = 65494 ∧
  (zlen payload ≤ ComputePayloadMaxSize →
     ∃ b, MarshalMessage c m = Ret (inl b) ∧ MessageSize (zlen b) ≤ MessageMaxSize) ∧
  (ComputePayloadMaxSize < zlen payload → MarshalMessage c m = Ret (inr PayloadTooLarge)).
Proof.
  intros Hm Ht Htr Hid. rewrite ComputePayloadMaxSize_eq. split; [done|].
  unfold MarshalMessage, WrapMessage. rewrite Hm, ComputePayloadMaxSize_eq, Z.gtb_ltb. split.
  - intros Hle. zcond. rewrite Ht. simpl.
    destruct (marshal_size (ch_id c) t payload Hid Htr ltac:(lia)) as (b & -> & Hb).
    exists b. split; [done|]. rewrite Hb, MessageMaxSize_eq. unfold MessageSize, TagSize.
    pose proof (data_size_bound (ch_id c) t (zlen payload)). pose proof (zlen_nonneg payload). lia.
  - intros Hgt. by zcond.
Qed.

Definition demo_handle : channelHandle Z := mkChannelHandle demo_protocol 3.

Lemma channel_payload_fits_witness :
  ∃ b, @MarshalMessage Z sized_proto bits_proto demo_handle 5 = Ret (inl b) ∧
    MessageSize (zlen b) ≤ MessageMaxSize.
Proof.
  destruct (@channel_payload_fits Z sized_proto sized_size bits_proto demo_handle 5
    (bits_of (encode 5)) 0) as (Hmax & Hfit & _).
  - reflexivity.
  - reflexivity.
  - split; vm_compute; (discriminate || reflexivity).
  - split; vm_compute; (discriminate || reflexivity).
  - apply Hfit. rewrite Hmax. vm_compute. discriminate.
Defined.

(** C25: what a channel sends is what the other side reads: a protocol message
    that was marshalled for a channel is unmarshalled as a data message of that
    channel, from which the handle reads the message and its type; the open,
    accept and close messages arrive as what they are, with the channel's id. *)
Theorem channel_roundtrip {Msg} `{!ProtoMessage Message} `{!ProtoMessage Msg}
    `{!ProtoRoundTrip Message (λ _ _, True)} (same_type : Msg → Msg → Prop)
    `{!ProtoRoundTrip Msg same_type} (c : channelHandle Msg) :
  (∀ m t, RawTypeOf (ch_protocol c) m = Ret t →
     ∃ m0, NewMessage (ch_protocol c) t = (Some m0, None) ∧ same_type m0 m) →
  (∀ m b, MarshalMessage c m = Ret (inl b) →
     ∃ cm t, UnmarshalMessage b = inl cm ∧ cm_ChannelId cm = ch_id c ∧
       RawTypeOf (ch_protocol c) m = Ret t ∧
       Handle_ReadMessage c cm = Ret (TypedMessage.mkMessage (Some m) (Some (KeyInt t)), None)) ∧
  (∀ b, Marshal (OpenMessage c) = inl b → ∃ cm, UnmarshalMessage b = inl cm ∧
     OpensChannel cm = true ∧ cm_ChannelId cm = ch_id c) ∧
  (∀ b, Marshal (AcceptMessage c) = inl b → ∃ cm, UnmarshalMessage b = inl cm ∧
     AcceptsChannel cm = true ∧ cm_ChannelId cm = ch_id c) ∧
  (∀ b, Marshal (CloseMessage c) = inl b → ∃ cm, UnmarshalMessage b = inl cm ∧
     ClosesChannel cm = true ∧ cm_ChannelId cm = ch_id c).
Proof.
  intros Hproto.
  assert (∀ m b, Marshal m = inl b → UnmarshalMessage b = UnwrapMessage m) as Hu.
  { intros m b Hb. unfold UnmarshalMessage.
    by rewrite (unmarshal_marshal (same_type := λ _ _, True) m (mkMessage None) b Hb I). }
  split; [|by split_and!; intros b ->%Hu; eexists].
  intros m b Hb. unfold MarshalMessage, WrapMessage in Hb.
  destruct (Marshal m) as [payload|] eqn:Em; [|discriminate].
  destruct (_ >? _); [discriminate|].
  destruct (RawTypeOf (ch_protocol c) m) as [t| |] eqn:Et; [|discriminate..]. simpl in Hb.
  injection Hb as Hb. apply Hu in Hb. destruct (Hproto m t Et) as (m0 & Hn & Hs).
  eexists _, t. split; [exact Hb|]. split_and!; [done|done|].
  unfold Handle_ReadMessage. simpl. rewrite Hn.
  by rewrite (unmarshal_marshal m m0 payload Em Hs).
Qed.

Lemma channel_roundtrip_witness :
  ∃ b, Marshal (ProtoMessage := bits_proto) (OpenMessage demo_handle) = inl b ∧
    ∃ cm, @UnmarshalMessage bits_proto b = inl cm ∧
      OpensChannel cm = true ∧ cm_ChannelId cm = 3.
Proof.
  destruct (@channel_roundtrip Z bits_proto bits_proto (bits_roundtrip _) (λ _ _, True)
    (bits_roundtrip _) demo_handle) as (_ & H & _).
  - intros m t _. exists 0. split; [reflexivity|exact I].
  - eexists. split; [reflexivity|]. apply H. reflexivity.
Defined.
