(* ===== verification/Proto.v ===== *)
(** * Proto: the Protobuf wire format for flat messages

    Protobuf is a parameter of the development ([ProtoMessage]); this file
    gives the instance that its wire-format documentation describes for
    messages of scalar fields: a field is a tag (number and wire type) and a
    varint or length-prefixed bytes, a field with the default value is left
    out, and a reader takes the last value of a field and skips the numbers it
    does not know.  The round trip and the size of an encoded message are
    lemmas here, so a theorem that relies on Protobuf has an instance. *)

From S2P Require Import Prelude GoSem Channel.

Local Open Scope Z_scope.

(** The size of an encoded message: the bytes it carries and at most 40 bytes
    of tags, varints and lengths. *)
Class ProtoSize (X : Type) `{!ProtoMessage X} (wf : X → Prop) (carried : X → Z) : Prop :=
  marshal_bound m : wf m → carried m ≤ 2 ^ 20 →
    ∃ b, Marshal m = inl b ∧ zlen b ≤ carried m + 40.

(** ** Varints *)

Fixpoint put_varint (fuel : nat) (z : Z) : bytes :=
  match fuel with
  | O => []
  | S fuel =>
      if z <? 128 then [byte_of_Z z]
      else byte_of_Z (z mod 128 + 128) :: put_varint fuel (z / 128)
  end.

Fixpoint get_varint (fuel : nat) (l : bytes) : option (Z * bytes) :=
  match fuel, l with
  | S fuel, b :: l =>
      if byte_to_Z b <? 128 then Some (byte_to_Z b, l)
      else '(z, rest) ← get_varint fuel l; Some (byte_to_Z b - 128 + 128 * z, rest)
  | _, _ => None
  end.

Lemma get_put_varint fuel z rest :
  0 ≤ z < 128 ^ Z.of_nat (S fuel) →
  get_varint (S fuel) (put_varint (S fuel) z ++ rest) = Some (z, rest).
Proof.
  revert z. induction fuel as [|fuel IH]; intros z Hz.
  - change (128 ^ Z.of_nat 1) with 128 in Hz. simpl. zcond. simpl.
    rewrite byte_to_of_Z, Z.mod_small by lia. by zcond.
  - remember (S fuel) as n. cbn [put_varint get_varint].
    destruct (Z.ltb_spec z 128).
    + simpl. rewrite byte_to_of_Z, Z.mod_small by lia. by zcond.
    + cbn [app]. pose proof (Z.mod_pos_bound z 128 ltac:(lia)).
      rewrite byte_to_of_Z, Z.mod_small by lia. zcond.
      rewrite IH; [simpl; repeat f_equal; rewrite (Z.div_mod z 128) at 3; lia|].
      split; [apply Z.div_pos; lia|]. apply Z.div_lt_upper_bound; [lia|].
      replace (128 * 128 ^ Z.of_nat n) with (128 ^ Z.of_nat (S n)); [lia|].
      rewrite Nat2Z.inj_succ, Z.pow_succ_r; lia.
Qed.

Lemma zlen_put_varint fuel z k :
  0 ≤ z < 128 ^ Z.of_nat k → (0 < k)%nat → zlen (put_varint fuel z) ≤ Z.of_nat k.
Proof.
  revert z k. induction fuel as [|fuel IH]; intros z k Hz Hk; cbn [put_varint]; [len|].
  destruct (Z.ltb_spec z 128); [len|]. rewrite zlen_cons.
  destruct k as [|[|k]]; [lia|change (128 ^ Z.of_nat 1) with 128 in Hz; lia|].
  enough (zlen (put_varint fuel (z / 128)) ≤ Z.of_nat (S k)) by lia. apply IH; [|lia].
  rewrite Nat2Z.inj_succ, Z.pow_succ_r in Hz by lia.
  split; [apply Z.div_pos; lia|apply Z.div_lt_upper_bound; lia].
Qed.

(** The varint of a [uint64] has at most ten bytes. *)
Definition varint (z : Z) : bytes := put_varint 10 z.

(** Ten bytes may hold more than 64 bits, which a reader refuses. *)
Definition get_uint64 (l : bytes) : option (Z * bytes) :=
  '(z, l) ← get_varint 10 l; if z <? 2 ^ 64 then Some (z, l) else None.

Lemma get_uint64_varint z rest : 0 ≤ z < 2 ^ 64 → get_uint64 (varint z ++ rest) = Some (z, rest).
Proof.
  intros. unfold get_uint64, varint. assert (2 ^ 64 < 128 ^ Z.of_nat 10) by reflexivity.
  rewrite get_put_varint by lia. simpl. by rewrite (proj2 (Z.ltb_lt _ _)) by lia.
Qed.

Lemma get_varint_nonneg fuel l z rest : get_varint fuel l = Some (z, rest) → 0 ≤ z.
Proof.
  revert l z rest. induction fuel as [|fuel IH]; intros [|b l] z rest E; [done..|]. simpl in E.
  pose proof (byte_to_Z_range b). destruct (Z.ltb_spec (byte_to_Z b) 128); [simplify_eq; lia|].
  destruct (get_varint fuel l) as [[z' rest']|] eqn:E'; simplify_eq/=. apply IH in E'. lia.
Qed.

Lemma get_uint64_range l z rest : get_uint64 l = Some (z, rest) → 0 ≤ z < 2 ^ 64.
Proof.
  unfold get_uint64. destruct (get_varint 10 l) as [[z' rest']|] eqn:E; [|done].
  apply get_varint_nonneg in E. cbn [mbind option_bind]. destruct (Z.ltb_spec z' (2 ^ 64)); [|done].
  intros. simplify_eq. lia.
Qed.

Lemma zlen_varint z : 0 ≤ z < 2 ^ 64 → zlen (varint z) ≤ 10.
Proof.
  intros. apply (zlen_put_varint 10 z 10); [|lia].
  assert (2 ^ 64 < 128 ^ Z.of_nat 10) by reflexivity. lia.
Qed.

Lemma varint_cons z : ∃ b l, varint z = b :: l.
Proof. unfold varint. cbn [put_varint]. case_match; eauto. Qed.

#[global] Arguments varint : simpl never.
#[global] Arguments get_varint : simpl never.
#[global] Arguments get_uint64 : simpl never.

(** ** Fields *)

Inductive field : Type :=
| FVarint (number : Z) (v : Z)
| FBytes (number : Z) (b : bytes).

Definition put_field (f : field) : bytes :=
  match f with
  | FVarint n v => varint (8 * n) ++ varint v
  | FBytes n b => varint (8 * n + 2) ++ varint (zlen b) ++ b
  end.

Definition get_field (l : bytes) : option (field * bytes) :=
  '(tag, l) ← get_uint64 l;
  if tag / 8 <? 1 then None
  else if tag mod 8 =? 0 then '(v, l) ← get_uint64 l; Some (FVarint (tag / 8) v, l)
  else if tag mod 8 =? 2 then
    '(n, l) ← get_uint64 l;
    if n <=? zlen l then Some (FBytes (tag / 8) (take (Z.to_nat n) l), drop (Z.to_nat n) l) else None
  else None.

Fixpoint get_fields (fuel : nat) (l : bytes) : option (list field) :=
  match l, fuel with
  | [], _ => Some []
  | _, O => None
  | _, S fuel => '(f, l) ← get_field l; fs ← get_fields fuel l; Some (f :: fs)
  end.

Definition field_ok (f : field) : Prop :=
  match f with
  | FVarint n v => 0 < n < 2 ^ 29 ∧ 0 ≤ v < 2 ^ 64
  | FBytes n b => 0 < n < 2 ^ 29 ∧ zlen b < 2 ^ 64
  end.

Lemma get_put_field f rest : field_ok f → get_field (put_field f ++ rest) = Some (f, rest).
Proof.
  destruct f as [n v|n b]; intros [Hn Hv]; unfold get_field, put_field; rewrite <- !app_assoc.
  - rewrite get_uint64_varint by lia. simpl. rewrite Z.mul_comm, Z.mod_mul, Z.div_mul by lia.
    rewrite (proj2 (Z.ltb_ge _ _)) by lia. simpl.
    by rewrite get_uint64_varint by lia.
  - pose proof (zlen_nonneg b). pose proof (zlen_nonneg rest).
    rewrite get_uint64_varint by lia. simpl.
    rewrite (Z.add_comm (8 * n)), (Z.mul_comm 8), Z.mod_add, Z.div_add by lia.
    change (2 / 8) with 0. rewrite (proj2 (Z.ltb_ge _ _)) by lia. simpl.
    rewrite get_uint64_varint by lia. simpl. rewrite zlen_app, (proj2 (Z.leb_le _ _)) by lia.
    unfold zlen. by rewrite Nat2Z.id, take_app_length, drop_app_length.
Qed.

Lemma put_field_cons f : ∃ b l, put_field f = b :: l.
Proof.
  destruct f as [n v|n b]; unfold put_field;
    [destruct (varint_cons (8 * n)) as (? & ? & ->)|destruct (varint_cons (8 * n + 2)) as (? & ? & ->)];
    simpl; eauto.
Qed.

Lemma get_fields_put fs fuel :
  Forall field_ok fs → (length fs ≤ fuel)%nat → get_fields fuel (fs ≫= put_field) = Some fs.
Proof.
  intros H. revert fuel. induction H as [|f fs Hf _ IH]; intros fuel Hl; [by destruct fuel|].
  destruct fuel as [|fuel]; [simpl in Hl; lia|]. rewrite bind_cons.
  pose proof (get_put_field f (fs ≫= put_field) Hf) as E.
  destruct (put_field_cons f) as (b & l & Hp). rewrite Hp in *. cbn [app get_fields] in *.
  rewrite E. simpl. rewrite IH by (simpl in Hl; lia). done.
Qed.

(** The numbers that were read are in the range of a [uint64]. *)
Definition varint_in_range (f : field) : Prop := if f is FVarint _ v then 0 ≤ v < 2 ^ 64 else True.

Lemma get_field_range l f rest : get_field l = Some (f, rest) → varint_in_range f.
Proof.
  unfold get_field. destruct (get_uint64 l) as [[tag l1]|]; [|done]. simpl.
  repeat case_match; try done; destruct (get_uint64 l1) as [[v l2]|] eqn:E; simpl; try done.
  - intros. simplify_eq/=. by eapply get_uint64_range.
  - case_match; intros; simplify_eq/=. done.
Qed.

Lemma get_fields_range fuel l fs : get_fields fuel l = Some fs → Forall varint_in_range fs.
Proof.
  revert l fs. induction fuel as [|fuel IH]; intros [|b l] fs E; simplify_eq/=; [by constructor..|].
  destruct (get_field (b :: l)) as [[f l1]|] eqn:Ef; simplify_eq/=.
  destruct (get_fields fuel l1) as [fs1|] eqn:Efs; simplify_eq/=.
  constructor; [by eapply get_field_range|by eapply IH].
Qed.

(** ** Flat messages *)

(** A message as its fields: what is written, and what a list of fields that
    was read stands for. *)
Class FlatMessage (X : Type) : Type := {
  message_ok : X → Prop;
  message_ok_dec :: ∀ m, Decision (message_ok m);
  to_fields : X → list field;
  of_fields : list field → X;
  to_fields_ok m : message_ok m → Forall field_ok (to_fields m);
  of_to_fields m : message_ok m → of_fields (to_fields m) = m
}.

(** A field with the default value is not written. *)
Definition opt_varint (n v : Z) : list field := if v =? 0 then [] else [FVarint n v].
Definition opt_bytes (n : Z) (b : bytes) : list field := if b is [] then [] else [FBytes n b].

(** The last value of a field, or its default. *)
Definition varint_of (n : Z) (fs : list field) : Z :=
  fold_left (λ acc f, if f is FVarint n' v then if n' =? n then v else acc else acc) fs 0.
Definition bytes_of (n : Z) (fs : list field) : bytes :=
  fold_left (λ acc f, if f is FBytes n' b then if n' =? n then b else acc else acc) fs [].

Lemma varint_of_range n fs : Forall varint_in_range fs → 0 ≤ varint_of n fs < 2 ^ 64.
Proof.
  enough (∀ z, 0 ≤ z < 2 ^ 64 → Forall varint_in_range fs → 0 ≤ fold_left
    (λ acc f, if f is FVarint n' v then if n' =? n then v else acc else acc) fs z < 2 ^ 64) as H
    by (intros; by apply H).
  intros z Hz Hfs. revert z Hz. induction Hfs as [|[m v|m b] fs Hf _ IH]; intros z Hz; simpl; [done|..].
  - apply IH. by destruct (m =? n).
  - by apply IH.
Qed.

Definition wire_proto {X} `{!FlatMessage X} : ProtoMessage X := {|
  Marshal m :=
    if decide (message_ok m) then inl (to_fields m ≫= put_field)
    else inr (ErrText "value out of range");
  Unmarshal b _ :=
    match get_fields (length b) b with
    | Some fs => inl (of_fields fs)
    | None => inr (ErrText "cannot parse invalid wire-format data")
    end
|}.

Lemma wire_marshal {X} `{!FlatMessage X} (m : X) :
  message_ok m → Marshal (ProtoMessage := wire_proto) m = inl (to_fields m ≫= put_field).
Proof. intros Hok. unfold Marshal, wire_proto. by rewrite decide_True. Qed.

Lemma length_put_fields fs : (length fs ≤ length (fs ≫= put_field))%nat.
Proof.
  induction fs as [|f fs IH]; [simpl; lia|]. rewrite bind_cons, length_app.
  destruct (put_field_cons f) as (b & l & ->). simpl. lia.
Qed.

Lemma wire_roundtrip {X} `{!FlatMessage X} (R : X → X → Prop) : @ProtoRoundTrip X wire_proto R.
Proof.
  intros m m0 b Hb _. unfold Marshal, Unmarshal in *. simpl in *. case_decide; simplify_eq.
  rewrite get_fields_put by auto using to_fields_ok, length_put_fields. by rewrite of_to_fields.
Qed.

(** Field numbers below 16 have a tag of one byte. *)
Definition small_field (f : field) : Prop :=
  match f with FVarint n v => 0 < n < 16 ∧ 0 ≤ v < 2 ^ 64 | FBytes n b => 0 < n < 16 ∧ zlen b ≤ 2 ^ 20 end.

Definition carried_by (f : field) : Z := if f is FBytes _ b then zlen b else 0.

Lemma put_field_size f : small_field f → zlen (put_field f) ≤ 11 + carried_by f.
Proof.
  destruct f as [n v|n b]; intros [Hn Hv]; unfold put_field, carried_by, varint; rewrite !zlen_app.
  - pose proof (zlen_put_varint 10 (8 * n) 1 ltac:(lia) ltac:(lia)).
    pose proof (zlen_varint v Hv). unfold varint in *. lia.
  - pose proof (zlen_put_varint 10 (8 * n + 2) 1 ltac:(lia) ltac:(lia)). pose proof (zlen_nonneg b).
    assert (2 ^ 20 < 128 ^ Z.of_nat 3) by reflexivity.
    pose proof (zlen_put_varint 10 (zlen b) 3 ltac:(lia) ltac:(lia)). lia.
Qed.

Definition carried_by_all (fs : list field) : Z := foldr (λ f n, carried_by f + n) 0 fs.

Lemma put_fields_size fs :
  Forall small_field fs → zlen (fs ≫= put_field) ≤ 11 * zlen fs + carried_by_all fs.
Proof.
  induction 1 as [|f fs Hf _ IH]; [done|]. rewrite bind_cons, zlen_app, zlen_cons.
  pose proof (put_field_size f Hf). simpl. lia.
Qed.

(** ** The messages of a session

    A message of [session.proto] has one field, the number of which says what it
    is and the bytes of which are the fields of a sub-message. *)

Lemma zlen_put_varint_eq fuel z :
  0 ≤ z < 128 ^ Z.of_nat fuel → zlen (put_varint fuel z) = if (0 <? fuel)%nat then varint_size z else 0.
Proof.
  revert z. induction fuel as [|fuel IH]; intros z Hz; [done|]. cbn [put_varint]. unfold varint_size.
  rewrite Nat2Z.inj_succ, Z.pow_succ_r in Hz by lia. destruct (Z.ltb_spec z 128).
  - rewrite Z.div_small; [done|]. split; [apply Z.log2_nonneg|].
    destruct (decide (z = 0)) as [->|]; [done|]. apply Z.log2_lt_pow2; simpl; lia.
  - rewrite zlen_cons, IH by (split; [apply Z.div_pos; lia|apply Z.div_lt_upper_bound; lia]).
    destruct fuel as [|fuel]; [simpl in Hz; lia|]. cbn [Nat.ltb Nat.leb]. unfold varint_size.
    replace (z / 128) with (Z.shiftr z 7) by (by rewrite Z.shiftr_div_pow2).
    assert (7 ≤ Z.log2 z) by (apply Z.log2_le_pow2; simpl; lia).
    rewrite Z.log2_shiftr, Z.max_r by lia. replace (Z.log2 z - 7) with (Z.log2 z + (-1) * 7) by lia.
    rewrite Z.div_add; lia.
Qed.

Lemma zlen_varint_eq z : 0 ≤ z < 2 ^ 64 → zlen (varint z) = varint_size z.
Proof.
  intros. unfold varint. rewrite zlen_put_varint_eq; [done|].
  assert (2 ^ 64 < 128 ^ Z.of_nat 10) by reflexivity. lia.
Qed.

Lemma opt_varint_size n v :
  0 < n < 16 → 0 ≤ v < 2 ^ 64 → zlen (opt_varint n v ≫= put_field) = uint_field_size v.
Proof.
  intros Hn Hv. unfold opt_varint, uint_field_size. destruct (v =? 0); [done|].
  rewrite bind_cons. simpl. rewrite app_nil_r, zlen_app, (zlen_varint_eq v) by done.
  rewrite zlen_varint_eq by lia. f_equal.
  assert (Z.log2 (8 * n) < 7) by (apply Z.log2_lt_pow2; simpl; lia).
  unfold varint_size. rewrite Z.div_small; [done|]. split; [apply Z.log2_nonneg|lia].
Qed.

Lemma bytes_field_size n b :
  0 < n < 16 → zlen b < 2 ^ 64 → zlen (put_field (FBytes n b)) = len_field_size (zlen b).
Proof.
  intros Hn Hb. pose proof (zlen_nonneg b). simpl. unfold len_field_size.
  rewrite !zlen_app, (zlen_varint_eq (zlen b)) by lia. rewrite zlen_varint_eq by lia.
  assert (Z.log2 (8 * n + 2) < 7) by (apply Z.log2_lt_pow2; simpl; lia).
  unfold varint_size at 1. rewrite (Z.div_small (Z.log2 _)); [lia|]. split; [apply Z.log2_nonneg|lia].
Qed.

Definition content_number (x : Content) : Z :=
  match x with Open _ _ => 1 | Accept _ => 2 | Close _ => 3 | Data _ _ _ => 4 end.
Definition content_fields (x : Content) : list field :=
  match x with
  | Open id t => opt_varint 1 id ++ opt_varint 2 t
  | Accept id | Close id => opt_varint 1 id
  | Data id t p => opt_varint 1 id ++ opt_varint 2 t ++ opt_bytes 3 p
  end.
Definition content_ok (x : Content) : Prop :=
  match x with
  | Open id t => 0 ≤ id < 2 ^ 64 ∧ 0 ≤ t < 2 ^ 31
  | Accept id | Close id => 0 ≤ id < 2 ^ 64
  | Data id t p => 0 ≤ id < 2 ^ 64 ∧ 0 ≤ t < 2 ^ 31 ∧ zlen p ≤ 2 ^ 30
  end.

#[export] Instance content_ok_dec x : Decision (content_ok x).
Proof. destruct x; simpl; apply _. Defined.

(** A sub-message that was read: the field says which one. *)
Definition content_of (number : Z) (fs : list field) : option Content :=
  if number =? 1 then Some (Open (varint_of 1 fs) (varint_of 2 fs))
  else if number =? 2 then Some (Accept (varint_of 1 fs))
  else if number =? 3 then Some (Close (varint_of 1 fs))
  else if number =? 4 then Some (Data (varint_of 1 fs) (varint_of 2 fs) (bytes_of 3 fs))
  else None.

Lemma content_of_fields x : content_of (content_number x) (content_fields x) = Some x.
Proof.
  destruct x; simpl; unfold opt_varint, opt_bytes; repeat case_match; zbool; subst; reflexivity.
Qed.

Lemma content_fields_ok x : content_ok x → Forall field_ok (content_fields x).
Proof.
  destruct x; simpl; unfold opt_varint, opt_bytes; intros; destruct_and?;
    repeat case_match; simpl; repeat constructor; lia.
Qed.

Lemma content_size x : content_ok x → zlen (content_fields x ≫= put_field) < 2 ^ 32.
Proof.
  intros Hok. assert (∀ v, 0 ≤ v < 2 ^ 64 → uint_field_size v ≤ 11) as Hu.
  { intros v Hv. pose proof (uint_field_size_bound v (2 ^ 64 - 1) ltac:(lia)) as H.
    by change (1 + varint_size (2 ^ 64 - 1)) with 11 in H. }
  destruct x as [id t|id|id|id t p]; simpl in *; destruct_and?; rewrite ?bind_app, ?zlen_app, !opt_varint_size by lia;
    repeat match goal with |- context [uint_field_size ?v] =>
      pose proof (Hu v ltac:(lia)); generalize dependent (uint_field_size v); intros end; try lia.
  unfold opt_bytes. destruct p as [|b p]; [unfold zlen; simpl; lia|]. rewrite bind_cons, app_nil_r.
  pose proof (zlen_nonneg (b :: p)). rewrite bytes_field_size by lia.
  pose proof (len_field_size_mono (zlen (b :: p)) (2 ^ 30) ltac:(lia)) as Hl.
  change (len_field_size (2 ^ 30)) with (2 ^ 30 + 6) in Hl. lia.
Qed.

Definition session_ok (m : Message) : Prop := match content m with Some x => content_ok x | None => True end.

#[export] Instance session_ok_dec m : Decision (session_ok m).
Proof. unfold session_ok. destruct (content m); apply _. Defined.

(** The last sub-message that was read counts. *)
Definition session_of (fs : list field) : Message :=
  mkMessage (match last fs with
             | Some (FBytes n b) => get_fields (length b) b ≫= content_of n
             | _ => None
             end).

#[export] Program Instance flat_session : FlatMessage Message := {|
  message_ok := session_ok;
  to_fields m :=
    match content m with
    | Some x => [FBytes (content_number x) (content_fields x ≫= put_field)]
    | None => []
    end;
  of_fields := session_of
|}.
Next Obligation.
    intros [[x|]] Hok; simpl in *; [|done]. pose proof (content_size x Hok).
  repeat constructor; [by destruct x..|lia].
Qed.
Next Obligation.
  intros [[x|]] Hok; simpl in *; [|done]. unfold session_of. simpl.
  rewrite get_fields_put by auto using content_fields_ok, length_put_fields.
  simpl. by rewrite content_of_fields.
Qed.

(** The sizes that [Channel] relies on. *)
Lemma wire_data_size : @ProtoDataSize wire_proto.
Proof.
  intros id t p Hid Ht Hp. exists (to_fields (mkMessage (Some (Data id t p))) ≫= put_field).
  split; [by apply wire_marshal|].
  cbn [to_fields flat_session content]. pose proof (content_size (Data id t p) ltac:(done)) as Hs.
  rewrite bind_cons, app_nil_r, bytes_field_size by (simpl in *; lia). unfold data_size. f_equal.
  cbn [content_fields]. rewrite !bind_app, !zlen_app, !opt_varint_size by lia.
  unfold opt_bytes. destruct p as [|b p]; [unfold zlen; simpl; lia|]. rewrite bind_cons, app_nil_r.
  pose proof (zlen_nonneg p). rewrite bytes_field_size by lia. rewrite zlen_cons.
  destruct (Z.eqb_spec (1 + zlen p) 0); lia.
Qed.
