(* ===== verification/Session.v ===== *)
(** * Session: several channels over one connection ([lib/session/session.go])

    A session has a goroutine that reads from the connection ([readHandler]),
    a [broker] goroutine that keeps the maps of open and awaited channels, one
    goroutine per channel with that channel's queue, and the goroutines of the
    callers of [OpenChannel] and [AcceptChannel].  They meet on unbuffered Go
    channels: a send is a step that the sender and the receiver take together.
    The state of all of them is one record, an execution is a sequence of
    [session_step]s. *)

From S2P Require Import Prelude GoSem Automaton Protocol Secure Channel.

Local Open Scope Z_scope.

Definition ErrClosed : error := ErrVar "session.ErrClosed" "session is closed".
Definition ErrChannelClosed : error := ErrVar "session.ErrChannelClosed" "channel is closed".

(** ** Data *)

(** What a goroutine sends to the broker.  A Go channel on which a caller
    waits is named by the number of the call that made it. *)
Inductive broker_event : Type :=
| WaitOpen (protocolId : Z) (opened : nat)
| InOpen (channelId protocolId : Z)
| WaitAccept (channelId : Z) (accepted : nat)
| InAccept (channelId : Z)
| Register (r : nat)
| InData (channelId messageType : Z) (payload : bytes).

(** Where a goroutine of the session is.  The broker is in its [select], in
    the send [opened <- open.channelId], in the send [ch.in <- message], has
    returned or has panicked. *)
Inductive broker_phase (Msg : Type) : Type :=
| Selecting
| Opening (opened : nat) (channelId protocolId : Z)
| Delivering (r : nat) (message : Msg)
| BrokerReturned
| BrokerPanicked (p : panic).
Arguments Selecting {Msg}.
Arguments Opening {Msg} _ _ _.
Arguments Delivering {Msg} _ _.
Arguments BrokerReturned {Msg}.
Arguments BrokerPanicked {Msg} _.

(** [readHandler] is in [s.conn.Read], sends an event to the broker, has
    returned or has panicked. *)
Inductive reader_phase : Type :=
| Reading
| Passing (e : broker_event)
| ReaderReturned
| ReaderPanicked (p : panic).

(** A channel object and its goroutine ([handler] is false when it returned);
    [ch_done] tells whether the channel [done] is closed. *)
Record channel (Msg : Type) : Type := mkChannel {
  handle : channelHandle Msg;
  queue : list Msg;
  ch_done : bool;
  handler : bool
}.
Arguments mkChannel {Msg} _ _ _ _.
Arguments handle {Msg} _.
Arguments queue {Msg} _.
Arguments ch_done {Msg} _.
Arguments handler {Msg} _.

(** The calls of [OpenChannel] and [AcceptChannel], by the statement they are
    at; a call that returned has a channel object or an error. *)
Inductive call (Msg : Type) : Type :=
| OpenWaitAccept (h : channelHandle Msg) (openData : bytes)
| OpenWrite (h : channelHandle Msg) (openData : bytes)
| OpenWaiting (h : channelHandle Msg)
| AcceptWaitOpen (p : Protocol Msg)
| AcceptWaiting (p : Protocol Msg)
| AcceptWrite (h : channelHandle Msg) (acceptData : bytes)
| Registering (r : nat)
| CallReturned (result : nat + error).
Arguments OpenWaitAccept {Msg} _ _.
Arguments OpenWrite {Msg} _ _.
Arguments OpenWaiting {Msg} _.
Arguments AcceptWaitOpen {Msg} _.
Arguments AcceptWaiting {Msg} _.
Arguments AcceptWrite {Msg} _ _.
Arguments Registering {Msg} _.
Arguments CallReturned {Msg} _.

(** A call of [session.Close], which closes [done] first and the connection
    next. *)
Inductive close_phase : Type :=
| NotClosing
| ClosingConn
| CloseReturned (err : option error).

(** The maps of the broker hold references: to channel objects, and to the Go
    channels of the calls. [accepted] are the [accepted] channels it closed;
    [closed] tells whether the connection was closed here. *)
Record session (Msg : Type) : Type := mkSession {
  factory : ChannelFactory;
  channels : gmap Z nat;
  opens : gmap Z nat;
  accepts : gmap Z nat;
  accepted : list nat;
  broker : broker_phase Msg;
  reader : reader_phase;
  objects : list (channel Msg);
  calls : list (call Msg);
  sent : list bytes;
  done : bool;
  closed : bool;
  closer : close_phase
}.
Arguments mkSession {Msg} _ _ _ _ _ _ _ _ _ _ _ _ _.
Arguments factory {Msg} _.
Arguments channels {Msg} _.
Arguments opens {Msg} _.
Arguments accepts {Msg} _.
Arguments accepted {Msg} _.
Arguments broker {Msg} _.
Arguments reader {Msg} _.
Arguments objects {Msg} _.
Arguments calls {Msg} _.
Arguments sent {Msg} _.
Arguments done {Msg} _.
Arguments closed {Msg} _.
Arguments closer {Msg} _.

Section Session.
Context {Msg : Type} `{!ProtoMessage Message} `{!ProtoMessage Msg}.
Implicit Types (s : session Msg) (ch : channel Msg).

Definition NewSession (initiator : bool) : session Msg :=
  mkSession (NewChannelFactory initiator) ∅ ∅ ∅ [] Selecting Reading [] [] [] false false NotClosing.

Definition set_broker (b : broker_phase Msg) s : session Msg :=
  mkSession (factory s) (channels s) (opens s) (accepts s) (accepted s) b (reader s) (objects s)
    (calls s) (sent s) (done s) (closed s) (closer s).
Definition set_reader (r : reader_phase) s : session Msg :=
  mkSession (factory s) (channels s) (opens s) (accepts s) (accepted s) (broker s) r (objects s)
    (calls s) (sent s) (done s) (closed s) (closer s).
Definition set_maps (c o a : gmap Z nat) (l : list nat) s : session Msg :=
  mkSession (factory s) c o a l (broker s) (reader s) (objects s) (calls s) (sent s) (done s) (closed s) (closer s).
Definition set_objects (l : list (channel Msg)) s : session Msg :=
  mkSession (factory s) (channels s) (opens s) (accepts s) (accepted s) (broker s) (reader s) l
    (calls s) (sent s) (done s) (closed s) (closer s).
Definition set_call (i : nat) (c : call Msg) s : session Msg :=
  mkSession (factory s) (channels s) (opens s) (accepts s) (accepted s) (broker s) (reader s)
    (objects s) (<[i := c]> (calls s)) (sent s) (done s) (closed s) (closer s).
Definition send (b : bytes) s : session Msg :=
  mkSession (factory s) (channels s) (opens s) (accepts s) (accepted s) (broker s) (reader s)
    (objects s) (calls s) (sent s ++ [b]) (done s) (closed s) (closer s).
Definition new_call (f : ChannelFactory) (c : call Msg) s : session Msg :=
  mkSession f (channels s) (opens s) (accepts s) (accepted s) (broker s) (reader s)
    (objects s) (calls s ++ [c]) (sent s) (done s) (closed s) (closer s).

(** ** [readHandler] *)

(** What it passes on to the broker, if anything: the [switch] of the loop. *)
Definition dispatch (message : channelMessage) : option broker_event :=
  if IsData message then
    match cm_Content message with
    | Data id t payload => Some (InData id t payload)
    | _ => None
    end
  else if OpensChannel message then Some (InOpen (cm_ChannelId message) (cm_Type message))
  else if AcceptsChannel message then Some (InAccept (cm_ChannelId message))
  else None.

(** Bytes read from the connection. *)
Definition readHandler (data : bytes) : option broker_event :=
  match UnmarshalMessage data with
  | inr _ => None
  | inl message => dispatch message
  end.

(** The loop goes on with the next message once there is nothing to send. *)
Definition reader_next (e : option broker_event) : reader_phase :=
  match e with Some e => Passing e | None => Reading end.

(** A failed [s.conn.Read]: the loop returns when the connection was closed
    here or by the peer, and panics on every other error.  [text] is what
    [err.Error()] gives for an error of code outside the repository. *)
Definition readHandler_error (err : error) (text : string) : reader_phase :=
  if bool_decide (err = net_ErrClosed) then ReaderReturned
  else if strings_Contains (Error text err) "use of closed network connection" then ReaderReturned
  else if bool_decide (err = EOF) then ReaderReturned
  else ReaderPanicked (PanicError (ErrText ("unhandled read error: " +:+ Error text err))).

(** ** [broker] *)

Definition has (m : gmap Z nat) (k : Z) : bool := bool_decide (is_Some (m !! k)).

(** The body of the case of the [select] that receives the event. *)
Definition broker_case (e : broker_event) s : session Msg :=
  match e with
  | WaitOpen protocolId opened =>
      if has (opens s) protocolId
      then set_broker (BrokerPanicked (PanicString
             "waiting for opening of a channel which is already being waited for")) s
      else set_maps (channels s) (<[protocolId := opened]> (opens s)) (accepts s) (accepted s) s
  | InOpen channelId protocolId =>
      if has (channels s) channelId then s
      else match opens s !! protocolId with
      | None => s
      | Some opened => set_broker (Opening opened channelId protocolId) s
      end
  | WaitAccept channelId acc =>
      if has (accepts s) channelId
      then set_broker (BrokerPanicked (PanicString
             "waiting for an accept which is already being waited for")) s
      else if has (channels s) channelId
      then set_broker (BrokerPanicked (PanicString
             "waiting for an accept of a channel that already exists")) s
      else set_maps (channels s) (opens s) (<[channelId := acc]> (accepts s)) (accepted s) s
  | InAccept channelId =>
      if has (channels s) channelId then s
      else match accepts s !! channelId with
      | None => s
      | Some acc =>
          if bool_decide (acc ∈ accepted s) then set_broker (BrokerPanicked PanicClosed) s
          else set_maps (channels s) (opens s) (delete channelId (accepts s)) (acc :: accepted s) s
      end
  | Register r =>
      match objects s !! r with
      | None => s
      | Some ch =>
          if has (channels s) (ch_id (handle ch))
          then set_broker (BrokerPanicked (PanicString
                 "attempting to register a channel with an ID that is already opened")) s
          else set_maps (<[ch_id (handle ch) := r]> (channels s)) (opens s) (accepts s) (accepted s) s
      end
  | InData channelId messageType payload =>
      match channels s !! channelId ≫= λ r, (r,.) <$> objects s !! r with
      | None => s
      | Some (r, ch) =>
          match NewMessage (ch_protocol (handle ch)) messageType with
          | (Some message, None) =>
              match Unmarshal payload message with
              | inr _ => s
              | inl message => set_broker (Delivering r message) s
              end
          | _ => s
          end
      end
  end.

(** The broker receives an event: only in its [select]. *)
Definition broker_receive (e : broker_event) s : option (session Msg) :=
  match broker s with Selecting => Some (broker_case e s) | _ => None end.

(** ** Channels *)

(** [channel.Write]: what is written to the connection, or an error. *)
Definition channel_Write ch (message : Msg) : outcome (bytes + error) :=
  if ch_done ch then Ret (inr ErrChannelClosed) else MarshalMessage (handle ch) message.

(** The case [<-c.done] of [channel.Read]; the other one is [handler_next]. *)
Definition channel_Read_done ch : option error :=
  if ch_done ch then Some ErrChannelClosed else None.

(** [channel.Close]: it panics when the channel is closed already. *)
Definition channel_Close ch : outcome (channel Msg) :=
  if ch_done ch then Panic PanicClosed
  else Ret (mkChannel (handle ch) (queue ch) true (handler ch)).

Definition new_channel (h : channelHandle Msg) : channel Msg := mkChannel h [] false true.

(** The goroutine of a channel takes a message from the broker, passes one on
    to a caller of [channel.Read], or returns. *)
Definition handler_in (m : Msg) ch : option (channel Msg) :=
  if handler ch then Some (mkChannel (handle ch) (queue ch ++ [m]) (ch_done ch) true) else None.
Definition handler_next ch : option (Msg * channel Msg) :=
  match queue ch with
  | m :: l => if handler ch then Some (m, mkChannel (handle ch) l (ch_done ch) true) else None
  | [] => None
  end.
Definition handler_exit ch : option (channel Msg) :=
  if handler ch && ch_done ch then Some (mkChannel (handle ch) (queue ch) true false) else None.

(** ** [OpenChannel] and [AcceptChannel] *)

Definition marshalled (m : Message) (k : bytes → call Msg) : call Msg :=
  match Marshal m with inl b => k b | inr e => CallReturned (inr e) end.

Definition OpenChannel (p : Protocol Msg) s : option (session Msg) :=
  match CreateChannelHandle p (factory s) with
  | (Ret h, f) => Some (new_call f (marshalled (OpenMessage h) (OpenWaitAccept h)) s)
  | _ => None
  end.

Definition AcceptChannel (p : Protocol Msg) s : option (session Msg) :=
  Some (new_call (factory s) (AcceptWaitOpen p) s).

(** Make the channel object and start its goroutine. *)
Definition make_channel (i : nat) (h : channelHandle Msg) s : session Msg :=
  set_call i (Registering (length (objects s))) (set_objects (objects s ++ [new_channel h]) s).

(** The next statement of call [i]; [err] is the result of [s.conn.Write]. *)
Definition call_step (i : nat) (err : option error) s : option (session Msg) :=
  c ← calls s !! i;
  match c with
  | OpenWaitAccept h openData =>
      s ← broker_receive (WaitAccept (ch_id h) i) s;
      Some (set_call i (OpenWrite h openData) s)
  | OpenWrite h openData =>
      Some (match err with
            | Some e => set_call i (CallReturned (inr e)) s
            | None => set_call i (OpenWaiting h) (send openData s)
            end)
  | OpenWaiting h =>
      if bool_decide (i ∈ accepted s) then Some (make_channel i h s) else None
  | AcceptWaitOpen p =>
      s ← broker_receive (WaitOpen (Id p) i) s;
      Some (set_call i (AcceptWaiting p) s)
  | AcceptWaiting p =>
      match broker s with
      | Opening opened channelId protocolId =>
          if bool_decide (opened = i) then
            let s := set_broker Selecting
              (set_maps (channels s) (delete protocolId (opens s)) (accepts s) (accepted s) s) in
            let h := mkChannelHandle p channelId in
            Some (set_call i (marshalled (AcceptMessage h) (AcceptWrite h)) s)
          else None
      | _ => None
      end
  | AcceptWrite h acceptData =>
      Some (match err with
            | Some e => set_call i (CallReturned (inr e)) s
            | None => make_channel i h (send acceptData s)
            end)
  | Registering r =>
      s ← broker_receive (Register r) s;
      Some (set_call i (CallReturned (inl r)) s)
  | CallReturned _ => None
  end.

(** The case [<-s.done] of a call's [select]. *)
Definition call_done (i : nat) s : option (session Msg) :=
  match calls s !! i with
  | Some (OpenWaiting _) | Some (AcceptWaiting _) =>
      if done s then Some (set_call i (CallReturned (inr ErrClosed)) s) else None
  | _ => None
  end.

(** [session.Close] closes [done]; a second call panics in its caller. *)
Definition Session_Close s : outcome (session Msg) :=
  if done s then Panic PanicClosed
  else Ret (mkSession (factory s) (channels s) (opens s) (accepts s) (accepted s) (broker s)
              (reader s) (objects s) (calls s) (sent s) true (closed s) ClosingConn).

Definition set_closed (c : bool) (p : close_phase) s : session Msg :=
  mkSession (factory s) (channels s) (opens s) (accepts s) (accepted s) (broker s) (reader s)
    (objects s) (calls s) (sent s) (done s) c p.

(** [return s.conn.Close()]: closing a connection that is closed is an error. *)
Definition Session_CloseConn s : option (session Msg) :=
  match closer s with
  | ClosingConn => Some (set_closed true (CloseReturned (if closed s then Some net_ErrClosed else None)) s)
  | _ => None
  end.

(** The cases [<-s.done] of the broker: it closes the connection and returns; in
    the send to a channel it only returns. *)
Definition broker_exit s : option (session Msg) :=
  if done s then
    match broker s with
    | Selecting => Some (set_broker BrokerReturned (set_closed true (closer s) s))
    | Delivering _ _ => Some (set_broker BrokerReturned s)
    | _ => None
    end
  else None.

(** ** Steps *)

Inductive session_event : Type :=
| ReadConn (data : bytes)            (* readHandler has read a message *)
| ReadConnError (err : error) (text : string) (* readHandler could not read *)
| TakeRead                           (* the broker takes what readHandler sends *)
| StartOpen (p : Protocol Msg)
| StartAccept (p : Protocol Msg)
| StepCall (i : nat) (err : option error)
| DoneCall (i : nat)
| Deliver                            (* ch.in <- message *)
| WriteChannel (r : nat) (m : Msg) (err : option error) (* channel.Write; conn.Write gives err *)
| ReadChannel (r : nat)              (* a caller of channel.Read gets a message *)
| ReadClosedChannel (r : nat)        (* channel.Read fails *)
| ExitChannel (r : nat)
| CloseChannel (r : nat) (err : option error) (* channel.Close; conn.Write gives err *)
| CloseSession
| ExitBroker                         (* case <-s.done of the broker *)
| CloseConn.                         (* return s.conn.Close() of session.Close *)

(** What a step shows: a message was put in a channel's queue, or taken out; a
    message was written to the channel with the given id; a call of [Read],
    [Write] or [Close] of a channel object failed. *)
Inductive observation : Type :=
| Delivered (r : nat) (m : Msg)
| Taken (r : nat) (m : Msg)
| Written (id : Z) (m : Msg)
| CallFailed (r : nat) (err : error)
| Silent.

Definition silent (o : option (session Msg)) : option (session Msg * observation) :=
  (λ s, (s, Silent)) <$> o.

Definition session_step (e : session_event) s : option (session Msg * observation) :=
  match e with
  | ReadConn data =>
      match reader s with
      | Reading => silent (Some (set_reader (reader_next (readHandler data)) s))
      | _ => None
      end
  | ReadConnError err text =>
      match reader s with
      | Reading => silent (Some (set_reader (readHandler_error err text) s))
      | _ => None
      end
  | TakeRead =>
      match reader s with
      | Passing ev => silent (broker_receive ev (set_reader Reading s))
      | _ => None
      end
  | StartOpen p => silent (OpenChannel p s)
  | StartAccept p => silent (AcceptChannel p s)
  | StepCall i err => silent (call_step i err s)
  | DoneCall i => silent (call_done i s)
  | Deliver =>
      match broker s with
      | Delivering r m =>
          ch ← objects s !! r;
          ch ← handler_in m ch;
          Some (set_broker Selecting (set_objects (<[r := ch]> (objects s)) s), Delivered r m)
      | _ => None
      end
  | WriteChannel r m err =>
      ch ← objects s !! r;
      match channel_Write ch m, err with
      | Ret (inl b), None => Some (send b s, Written (ch_id (handle ch)) m)
      | Ret (inl _), Some e | Ret (inr e), _ => Some (s, CallFailed r e)
      | _, _ => None
      end
  | ReadChannel r =>
      ch ← objects s !! r;
      '(m, ch) ← handler_next ch;
      Some (set_objects (<[r := ch]> (objects s)) s, Taken r m)
  | ReadClosedChannel r =>
      ch ← objects s !! r;
      err ← channel_Read_done ch;
      Some (s, CallFailed r err)
  | ExitChannel r =>
      ch ← objects s !! r;
      ch ← handler_exit ch;
      silent (Some (set_objects (<[r := ch]> (objects s)) s))
  | CloseChannel r err =>
      ch ← objects s !! r;
      match channel_Close ch with
      | Ret ch' =>
          let s := set_objects (<[r := ch']> (objects s)) s in
          let closeData := match Marshal (CloseMessage (handle ch)) with inl b => b | inr _ => [] end in
          Some (match err with
                | Some e => (s, CallFailed r e)
                | None => (send closeData s, Silent)
                end)
      | _ => None
      end
  | CloseSession => match Session_Close s with Ret s => silent (Some s) | _ => None end
  | ExitBroker => silent (broker_exit s)
  | CloseConn => silent (Session_CloseConn s)
  end.

(** What the two ends of a connection's life change. *)
Lemma broker_exit_inv s s' :
  broker_exit s = Some s' →
  done s = true ∧ ∃ c, s' = set_broker BrokerReturned (set_closed c (closer s) s) ∧ (closed s = true → c = true).
Proof.
  unfold broker_exit. destruct (done s); [|discriminate]. destruct s as [? ? ? ? ? br]; simpl.
  destruct br; intros [= <-]; split; eauto.
Qed.

Lemma Session_CloseConn_inv s s' : Session_CloseConn s = Some s' → ∃ p, s' = set_closed true p s.
Proof. unfold Session_CloseConn. destruct (closer s); intros [= <-]. eauto. Qed.

(** An execution and what it shows. *)
Fixpoint session_run (es : list session_event) s : option (session Msg * list observation) :=
  match es with
  | [] => Some (s, [])
  | e :: es =>
      '(s, o) ← session_step e s;
      '(s, os) ← session_run es s;
      Some (s, o :: os)
  end.
End Session.

(** ** First in, first out *)
Section Fifo.
Context {Msg : Type} `{!ProtoMessage Message} `{!ProtoMessage Msg}.
Implicit Types (s : session Msg) (ch : channel Msg) (os : list (@observation Msg)).

Definition queue_of s (r : nat) : list Msg := default [] (queue <$> objects s !! r).

(** The messages that were put in the queue of a channel, and taken out. *)
Definition delivered (r : nat) os : list Msg :=
  omap (λ o, match o with Delivered r' m => if decide (r = r') then Some m else None | _ => None end) os.
Definition taken (r : nat) os : list Msg :=
  omap (λ o, match o with Taken r' m => if decide (r = r') then Some m else None | _ => None end) os.

Lemma queue_of_app s ch r : queue ch = [] → queue_of (set_objects (objects s ++ [ch]) s) r = queue_of s r.
Proof.
  intros Hq. unfold queue_of. simpl. destruct (decide (r < length (objects s))%nat).
  - by rewrite lookup_app_l.
  - rewrite lookup_app_r by lia. rewrite (lookup_ge_None_2 (objects s)) by lia.
    destruct (r - length (objects s))%nat; simpl; [by rewrite Hq|done].
Qed.

Lemma queue_of_insert s r r' ch ch' :
  objects s !! r = Some ch →
  queue_of (set_objects (<[r := ch']> (objects s)) s) r' =
  if decide (r' = r) then queue ch' else queue_of s r'.
Proof.
  intros Hr. unfold queue_of. simpl. case_decide as E; [subst|by rewrite list_lookup_insert_ne].
  by rewrite list_lookup_insert_eq by (by eapply lookup_lt_Some).
Qed.

Lemma objects_broker_case e s : objects (broker_case e s) = objects s.
Proof. destruct e; simpl; repeat case_match; done. Qed.

Lemma objects_broker_receive e s s' : broker_receive e s = Some s' → objects s' = objects s.
Proof. unfold broker_receive. destruct (broker s); intros [= <-]. apply objects_broker_case. Qed.

(** Equal objects have equal queues. *)
Lemma queue_of_eq s s' r : objects s' = objects s → queue_of s' r = queue_of s r.
Proof. unfold queue_of. by intros ->. Qed.

Lemma queue_of_call_step i err s s' r : call_step i err s = Some s' → queue_of s' r = queue_of s r.
Proof.
  unfold call_step. intros (c & Hc & H)%bind_Some.
  assert (∀ ev (k : session Msg → session Msg), (∀ s, objects (k s) = objects s) →
    (s1 ← broker_receive ev s; Some (k s1)) = Some s' → queue_of s' r = queue_of s r) as Hbr.
  { intros ev k Hk (s1 & H1 & [= <-])%bind_Some. apply queue_of_eq. rewrite Hk.
    by eapply objects_broker_receive. }
  assert (∀ h s1, objects s1 = objects s →
    queue_of (make_channel i h s1) r = queue_of s r) as Hmk.
  { intros h s1 Hs1. etransitivity; [by apply (queue_of_app s1 (new_channel h))|].
    by apply queue_of_eq. }
  destruct c; simpl in H.
  - by eapply Hbr; [|exact H].
  - injection H as <-. by destruct err.
  - case_bool_decide; [|discriminate]. injection H as <-. by apply Hmk.
  - by eapply Hbr; [|exact H].
  - repeat case_match; simplify_eq; done.
  - injection H as <-. destruct err; [done|by apply Hmk].
  - by eapply Hbr; [|exact H].
  - discriminate.
Qed.

Lemma session_step_fifo e s s' o r :
  session_step e s = Some (s', o) →
  queue_of s r ++ delivered r [o] = taken r [o] ++ queue_of s' r.
Proof.
  assert (∀ x, silent x = Some (s', o) → (∀ s1, x = Some s1 → queue_of s1 r = queue_of s r) →
    queue_of s r ++ delivered r [o] = taken r [o] ++ queue_of s' r) as Hsil.
  { intros x Hx Hq. destruct x as [s1|]; [|discriminate]. injection Hx as <- <-.
    rewrite (Hq _ eq_refl). apply app_nil_r. }
  destruct e; cbn [session_step]; intros H.
  - destruct (reader s); try discriminate. eapply Hsil; [exact H|]. by intros s1 [= <-].
  - destruct (reader s); try discriminate. eapply Hsil; [exact H|]. by intros s1 [= <-].
  - destruct (reader s); try discriminate. eapply Hsil; [exact H|].
    intros s1 H1. apply objects_broker_receive in H1. by apply queue_of_eq.
  - eapply Hsil; [exact H|]. by intros s1 [= <-].
  - eapply Hsil; [exact H|]. by intros s1 [= <-].
  - eapply Hsil; [exact H|]. intros s1. apply queue_of_call_step.
  - eapply Hsil; [exact H|]. intros s1. unfold call_done. repeat case_match; by intros [= <-].
  - destruct (broker s) as [| |r' m| |]; try discriminate.
    apply bind_Some in H as (ch & Hr & H). apply bind_Some in H as (ch' & Hch & [= <- <-]).
    unfold handler_in in Hch. destruct (handler ch); [|discriminate]. injection Hch as <-.
    change (queue_of (set_broker _ ?x) r) with (queue_of x r).
    rewrite (queue_of_insert s r' r ch) by done. unfold delivered, taken. simpl.
    destruct (decide (r = r')) as [->|]; [|by rewrite app_nil_r].
    unfold queue_of. by rewrite Hr.
  - apply bind_Some in H as (ch & Hr & H).
    destruct (channel_Write ch m) as [[b|e]| |], err; try discriminate; injection H as <- <-; apply app_nil_r.
  - apply bind_Some in H as (ch & Hr & H). apply bind_Some in H as ([m ch'] & Hn & [= <- <-]).
    rewrite (queue_of_insert s r0 r ch) by done. unfold delivered, taken. simpl. rewrite app_nil_r.
    unfold handler_next in Hn. destruct (queue ch) as [|m' l] eqn:Eq; [discriminate|].
    destruct (handler ch); [|discriminate]. injection Hn as <- <-.
    destruct (decide (r = r0)) as [->|]; [|done]. unfold queue_of. rewrite Hr. simpl. by rewrite Eq.
  - apply bind_Some in H as (ch & Hr & H). apply bind_Some in H as (err & _ & [= <- <-]).
    apply app_nil_r.
  - apply bind_Some in H as (ch & Hr & H). apply bind_Some in H as (ch' & Hx & H).
    eapply Hsil; [exact H|]. intros s1 [= <-]. rewrite (queue_of_insert s r0 r ch) by done.
    unfold handler_exit in Hx. destruct (_ && _); [|discriminate]. injection Hx as <-.
    case_decide as E; [|done]. subst. unfold queue_of. by rewrite Hr.
  - apply bind_Some in H as (ch & Hr & H). unfold channel_Close in H.
    destruct (ch_done ch); [discriminate|].
    assert (queue_of (set_objects (<[r0 := mkChannel (handle ch) (queue ch) true (handler ch)]>
      (objects s)) s) r = queue_of s r) as Hq.
    { rewrite (queue_of_insert s r0 r ch) by done. case_decide as E; [|done]. subst.
      unfold queue_of. by rewrite Hr. }
    destruct err; injection H as <- <-; rewrite <- Hq; apply app_nil_r.
  - unfold Session_Close in H. destruct (done s); [discriminate|].
    eapply Hsil; [exact H|]. by intros s1 [= <-].
  - eapply Hsil; [exact H|]. by intros s1 (_ & c & -> & _)%broker_exit_inv.
  - eapply Hsil; [exact H|]. by intros s1 (p & ->)%Session_CloseConn_inv.
Qed.
End Fifo.

(** ** Reachable sessions *)
Section Invariant.
Context {Msg : Type} `{!ProtoMessage Message} `{!ProtoMessage Msg}.
Implicit Types (s : session Msg) (ch : channel Msg).

Definition handles s : list (channelHandle Msg) := handle <$> objects s.

(** A call that waits for a channel of a protocol to be opened, or gave up. *)
Definition waits_for (pid : Z) (c : call Msg) : Prop :=
  match c with
  | AcceptWaiting p => Id p = pid
  | CallReturned _ => True
  | _ => False
  end.

(** What [readHandler] passes on: every open request is for protocol 1. *)
Definition from_peer (e : broker_event) : Prop :=
  match e with
  | InOpen _ pid => pid = 1
  | InAccept _ | InData _ _ _ => True
  | _ => False
  end.

(** Registered channels have the id they are registered with; what is awaited
    is awaited by a call of that protocol; and every open request that reaches
    the broker is for protocol 1. *)
Record session_inv s : Prop := {
  si_channels id r : channels s !! id = Some r → ∃ h, handles s !! r = Some h ∧ ch_id h = id;
  si_opens pid i : opens s !! pid = Some i → ∃ c, calls s !! i = Some c ∧ waits_for pid c;
  si_reader e : reader s = Passing e → from_peer e;
  si_broker w id pid : broker s = Opening w id pid → pid = 1 ∧ opens s !! 1 = Some w
}.

Lemma NewSession_inv b : session_inv (NewSession b).
Proof. split; simpl; intros; simplify_map_eq. Qed.

(** The invariant is about these parts of the state. *)
Lemma session_inv_ext s s' :
  session_inv s → channels s' = channels s → opens s' = opens s → calls s' = calls s →
  reader s' = reader s → broker s' = broker s →
  (∀ r h, handles s !! r = Some h → handles s' !! r = Some h) → session_inv s'.
Proof.
  intros [H1 H2 H3 H4] Hc Ho Hca Hr Hb Hh. split; rewrite ?Hc, ?Ho, ?Hca, ?Hr, ?Hb; auto.
  intros id r Hid. destruct (H1 id r Hid) as (h & ? & ?). eauto.
Qed.

Lemma dispatch_from_peer m e : dispatch m = Some e → from_peer e.
Proof.
  unfold dispatch, IsData, OpensChannel, AcceptsChannel.
  repeat case_goal; try discriminate; intros [= <-]; simpl; zbool; done.
Qed.

Lemma readHandler_from_peer data e : reader_next (readHandler data) = Passing e → from_peer e.
Proof.
  unfold readHandler. destruct (UnmarshalMessage data) as [m|]; [|discriminate].
  destruct (dispatch m) eqn:E; [|discriminate]. intros [= <-]. by eapply dispatch_from_peer.
Qed.

Lemma broker_case_inv e s :
  session_inv s → broker s = Selecting →
  (∀ id pid, e = InOpen id pid → pid = 1) →
  (∀ pid i, e = WaitOpen pid i → ∃ c, calls s !! i = Some c ∧ waits_for pid c) →
  session_inv (broker_case e s).
Proof.
  intros Hi Hb Hopen Hwait. pose proof Hi as [H1 H2 H3 H4].
  assert (∀ p, session_inv (set_broker (BrokerPanicked p) s)) as Hp by (intros p; by split).
  destruct e as [pid i|id pid|id acc|id|r|id t payload]; simpl.
  - case_goal; [done|]. split; simpl; auto; [|by rewrite Hb].
    intros pid' i' Hi'. destruct (decide (pid' = pid)) as [->|].
    + rewrite lookup_insert_eq in Hi'. simplify_eq. by apply Hwait.
    + rewrite lookup_insert_ne in Hi' by done. eauto.
  - case_goal; [done|]. destruct (opens s !! pid) as [w|] eqn:E; [|done].
    assert (pid = 1) as -> by eauto. split; simpl; auto. intros w' id' pid' [= <- _ <-]. done.
  - repeat case_goal; done.
  - repeat case_goal; done.
  - destruct (objects s !! r) as [ch|] eqn:Er; [|done]. case_goal; [done|].
    split; simpl; auto. intros id r' Hid.
    destruct (decide (id = ch_id (handle ch))) as [->|].
    + rewrite lookup_insert_eq in Hid. simplify_eq. exists (handle ch). split; [|done].
      unfold handles. simpl. by rewrite list_lookup_fmap, Er.
    + rewrite lookup_insert_ne in Hid by done. eauto.
  - repeat case_goal; done.
Qed.

Lemma calls_broker_case e s : calls (broker_case e s) = calls s.
Proof. destruct e; simpl; repeat case_match; done. Qed.

Lemma opens_set_call s i c :
  session_inv s → (∀ pid, opens s !! pid = Some i → waits_for pid c) → session_inv (set_call i c s).
Proof.
  intros [H1 H2 H3 H4] Hc. split; simpl; auto. intros pid j Hj.
  destruct (H2 pid j Hj) as (c' & Hc' & Hw). destruct (decide (j = i)) as [->|].
  - exists c. split; [|auto]. apply list_lookup_insert_eq. by eapply lookup_lt_Some.
  - exists c'. by rewrite list_lookup_insert_ne.
Qed.

(** A call that is not awaited by the broker may go anywhere. *)
Lemma not_waiting s i c pid :
  session_inv s → calls s !! i = Some c → (∀ p, c ≠ AcceptWaiting p) → (∀ x, c ≠ CallReturned x) →
  opens s !! pid ≠ Some i.
Proof.
  intros Hi Hc Hp Hx Ho. destruct (si_opens _ Hi _ _ Ho) as (c' & Hc' & Hw). simplify_eq.
  destruct c; simpl in Hw; naive_solver.
Qed.

Lemma handles_new s ch r h :
  handles s !! r = Some h → handles (set_objects (objects s ++ [ch]) s) !! r = Some h.
Proof. unfold handles. simpl. rewrite fmap_app. apply lookup_app_l_Some. Qed.

Lemma handles_update s r ch ch' r' h :
  objects s !! r = Some ch → handle ch' = handle ch → handles s !! r' = Some h →
  handles (set_objects (<[r := ch']> (objects s)) s) !! r' = Some h.
Proof.
  unfold handles. simpl. intros Hr Hh Hr'. rewrite list_fmap_insert, Hh.
  rewrite list_insert_id; [done|]. by rewrite list_lookup_fmap, Hr.
Qed.

Lemma broker_receive_inv e s s' :
  session_inv s → broker_receive e s = Some s' →
  (∀ id pid, e = InOpen id pid → pid = 1) →
  (∀ pid i, e = WaitOpen pid i → ∃ c, calls s !! i = Some c ∧ waits_for pid c) →
  session_inv s' ∧ calls s' = calls s.
Proof.
  unfold broker_receive. intros Hi. destruct (broker s) eqn:Hb; intros [= <-]; try done.
  intros H1 H2. split; [by apply broker_case_inv|apply calls_broker_case].
Qed.

(** A call that is not awaited by the broker meets the broker. *)
Lemma meet_broker_inv e s s1 i c c' :
  session_inv s → broker_receive e s = Some s1 → calls s !! i = Some c →
  (∀ p, c ≠ AcceptWaiting p) → (∀ x, c ≠ CallReturned x) →
  (∀ id pid, e ≠ InOpen id pid) → (∀ pid i, e ≠ WaitOpen pid i) →
  session_inv (set_call i c' s1).
Proof.
  intros Hi Hbr Hc Hn1 Hn2 He1 He2.
  destruct (broker_receive_inv e s s1 Hi Hbr) as [Hi1 Hcalls]; [naive_solver..|].
  apply opens_set_call; [done|]. intros pid Ho. exfalso.
  eapply (not_waiting s1 i c pid); [done|by rewrite Hcalls|done..].
Qed.

Lemma make_channel_inv i h s c :
  session_inv s → calls s !! i = Some c →
  (∀ p, c ≠ AcceptWaiting p) → (∀ x, c ≠ CallReturned x) → session_inv (make_channel i h s).
Proof.
  intros Hi Hc Hn1 Hn2. unfold make_channel. apply opens_set_call.
  - eapply session_inv_ext; [exact Hi|done..|]. intros r h'. apply handles_new.
  - intros pid Ho. exfalso. by eapply (not_waiting s i c pid).
Qed.

Lemma call_step_inv i err s s' : session_inv s → call_step i err s = Some s' → session_inv s'.
Proof.
  unfold call_step. intros Hi (c & Hc & H)%bind_Some.
  assert (∀ c', (∀ p, c ≠ AcceptWaiting p) → (∀ x, c ≠ CallReturned x) →
    ∀ b, session_inv (set_call i c' s) ∧ session_inv (set_call i c' (send b s))) as Hset.
  { intros c' Hn1 Hn2 b. split; (apply opens_set_call; [|intros pid Ho; exfalso;
      by eapply (not_waiting s i c pid)]); [done|]. by eapply session_inv_ext. }
  destruct c as [h b|h b|h|p|p|h b|r|x]; simpl in H.
  - apply bind_Some in H as (s1 & H1 & [= <-]). by eapply meet_broker_inv.
  - destruct err; injection H as <-; by apply (Hset _ ltac:(done) ltac:(done) b).
  - case_bool_decide; [|discriminate]. injection H as <-. by eapply make_channel_inv.
  - apply bind_Some in H as (s1 & H1 & [= <-]). unfold broker_receive in H1.
    destruct (broker s) eqn:Hb; try discriminate. apply (inj Some) in H1 as <-.
    assert (set_call i (AcceptWaiting p) (broker_case (WaitOpen (Id p) i) s) =
      broker_case (WaitOpen (Id p) i) (set_call i (AcceptWaiting p) s)) as ->
      by (simpl; by destruct (has (opens s) (Id p))).
    apply broker_case_inv; [apply (Hset _ ltac:(done) ltac:(done) [])|done|done|].
    intros pid j [= <- <-]. exists (AcceptWaiting p). split; [|done].
    apply list_lookup_insert_eq. by eapply lookup_lt_Some.
  - destruct (broker s) as [|w id pid| | |] eqn:Hb; try discriminate.
    case_bool_decide as E; [|discriminate]. subst w. injection H as <-.
    destruct (si_broker _ Hi _ _ _ Hb) as [-> Ho].
    destruct (si_opens _ Hi _ _ Ho) as (c' & Hc' & Hw). simplify_eq. simpl in Hw.
    apply opens_set_call.
    + destruct Hi as [H1 H2 H3 H4]. split; simpl; auto; [|done].
      intros pid j Hj. apply lookup_delete_Some in Hj as [_ Hj]. eauto.
    + simpl. intros pid Hj. apply lookup_delete_Some in Hj as [Hne Hj].
      destruct (si_opens _ Hi _ _ Hj) as (c' & Hc'' & Hw'). simplify_eq. simpl in Hw'. congruence.
  - destruct err as [e|]; injection H as <-; [by apply (Hset _ ltac:(done) ltac:(done) b)|].
    eapply make_channel_inv; [|exact Hc|done|done]. by eapply session_inv_ext.
  - apply bind_Some in H as (s1 & H1 & [= <-]). by eapply meet_broker_inv.
  - discriminate.
Qed.

Lemma new_call_inv f c s : session_inv s → session_inv (new_call f c s).
Proof.
  intros [H1 H2 H3 H4]. split; simpl; auto. intros pid i Hi.
  destruct (H2 pid i Hi) as (c' & Hc' & Hw). exists c'. split; [|done].
  by apply lookup_app_l_Some.
Qed.

Lemma set_broker_inv b s :
  session_inv s → (∀ w id pid, b ≠ Opening w id pid) → session_inv (set_broker b s).
Proof. intros [H1 H2 H3 H4] Hb. split; simpl; auto. intros w id pid E. by destruct (Hb w id pid). Qed.

Lemma update_inv s r ch ch' :
  session_inv s → objects s !! r = Some ch → handle ch' = handle ch →
  session_inv (set_objects (<[r := ch']> (objects s)) s).
Proof.
  intros Hi Hr Hh. eapply session_inv_ext; [exact Hi|done..|]. intros r' h.
  by apply (handles_update s r ch).
Qed.

Lemma session_step_inv e s s' o : session_inv s → session_step e s = Some (s', o) → session_inv s'.
Proof.
  intros Hi.
  assert (∀ x, silent x = Some (s', o) → (∀ s1, x = Some s1 → session_inv s1) → session_inv s') as Hsil.
  { intros [s1|] Hx Hq; [|discriminate]. injection Hx as <- _. auto. }
  destruct e; cbn [session_step]; intros H.
  - destruct (reader s); try discriminate. eapply Hsil; [exact H|]. intros s1 [= <-].
    destruct Hi as [H1 H2 H3 H4]. split; simpl; auto. intros e. apply readHandler_from_peer.
  - destruct (reader s); try discriminate. eapply Hsil; [exact H|]. intros s1 [= <-].
    destruct Hi as [H1 H2 H3 H4]. split; simpl; auto. unfold readHandler_error. intros e.
    by repeat case_match.
  - destruct (reader s) as [|ev| |] eqn:Hr; try discriminate. eapply Hsil; [exact H|]. intros s1 Hs1.
    pose proof (si_reader _ Hi _ Hr) as Hpeer.
    eapply broker_receive_inv in Hs1 as [? _]; [done|..].
    + destruct Hi as [H1 H2 H3 H4]. by split.
    + by intros id pid ->.
    + by intros pid i ->.
  - eapply Hsil; [exact H|]. intros s1 [= <-]. by apply new_call_inv.
  - eapply Hsil; [exact H|]. intros s1 [= <-]. by apply new_call_inv.
  - eapply Hsil; [exact H|]. intros s1. by apply call_step_inv.
  - eapply Hsil; [exact H|]. intros s1. unfold call_done.
    repeat case_match; intros [= <-]; by apply opens_set_call.
  - destruct (broker s) as [| |r m| |] eqn:Hb; try discriminate.
    apply bind_Some in H as (ch & Hr & H). apply bind_Some in H as (ch' & Hch & [= <- <-]).
    unfold handler_in in Hch. destruct (handler ch); [|discriminate]. injection Hch as <-.
    apply (set_broker_inv Selecting (set_objects _ s)); [|done]. eapply update_inv; [done|exact Hr|done].
  - apply bind_Some in H as (ch & Hr & H).
    destruct (channel_Write ch m) as [[b|e]| |], err; try discriminate; injection H as <- <-;
      [done|by eapply session_inv_ext|done..].
  - apply bind_Some in H as (ch & Hr & H). apply bind_Some in H as ([m ch'] & Hn & [= <- <-]).
    eapply update_inv; [done|exact Hr|]. unfold handler_next in Hn.
    repeat case_match; by simplify_eq.
  - apply bind_Some in H as (ch & Hr & H). by apply bind_Some in H as (err & _ & [= <- <-]).
  - apply bind_Some in H as (ch & Hr & H). apply bind_Some in H as (ch' & Hx & H).
    eapply Hsil; [exact H|]. intros s1 [= <-]. eapply update_inv; [done|exact Hr|].
    unfold handler_exit in Hx. case_match; by simplify_eq.
  - apply bind_Some in H as (ch & Hr & H). unfold channel_Close in H.
    destruct (ch_done ch); [discriminate|].
    pose proof (update_inv s r ch (mkChannel (handle ch) (queue ch) true (handler ch)) Hi Hr eq_refl) as Hu.
    destruct err; injection H as <- <-; [done|by apply (session_inv_ext _ _ Hu)].
  - unfold Session_Close in H. destruct (done s); [discriminate|].
    eapply Hsil; [exact H|]. intros s1 [= <-]. by eapply session_inv_ext.
  - eapply Hsil; [exact H|]. intros s1 (_ & c & -> & _)%broker_exit_inv.
    apply set_broker_inv; [|done..]. by eapply session_inv_ext.
  - eapply Hsil; [exact H|]. intros s1 (p & ->)%Session_CloseConn_inv. by eapply session_inv_ext.
Qed.

Lemma session_run_inv es s s' os :
  session_inv s → session_run es s = Some (s', os) → session_inv s'.
Proof.
  revert s os. induction es as [|e es IH]; intros s os Hi H; [by injection H as <- _|].
  cbn [session_run] in H. apply bind_Some in H as ([s1 o] & H1 & H).
  apply bind_Some in H as ([s2 os'] & H2 & [= <- _]). eapply IH; [|done]. by eapply session_step_inv.
Qed.
End Invariant.

(** ** A broker that waits for a channel that is gone *)
Section Blocked.
Context {Msg : Type} `{!ProtoMessage Message} `{!ProtoMessage Msg}.
Implicit Types (s : session Msg) (ch : channel Msg).

(** The broker wants to pass a message to a channel whose goroutine returned. *)
Definition blocked (r : nat) (m : Msg) s : Prop :=
  broker s = Delivering r m ∧ done s = false ∧
  ∃ ch, objects s !! r = Some ch ∧ handler ch = false.

Lemma blocked_ext r m s s' :
  blocked r m s → broker s' = broker s → done s' = done s → objects s' = objects s → blocked r m s'.
Proof. unfold blocked. by intros ? -> -> ->. Qed.

Lemma blocked_objects r m s l :
  blocked r m s → (∀ ch, objects s !! r = Some ch → handler ch = false →
    ∃ ch', l !! r = Some ch' ∧ handler ch' = false) → blocked r m (set_objects l s).
Proof. intros (Hb & Hd & ch & Hr & Hh) Hl. split_and!; [done|done|]. by apply (Hl ch). Qed.

Lemma blocked_call_step r m i err s s' : blocked r m s → call_step i err s = Some s' → blocked r m s'.
Proof.
  intros Hbl. pose proof Hbl as (Hb & Hd & ch & Hr & Hh). unfold call_step, broker_receive. rewrite Hb.
  intros (c & _ & H)%bind_Some. destruct c as [h b|h b|h|p|p|h b|r'|x]; simpl in H; try discriminate.
  - destruct err; injection H as <-; by eapply blocked_ext.
  - case_bool_decide; [|discriminate]. injection H as <-.
    eapply (blocked_ext _ _ (set_objects (objects s ++ [new_channel h]) s)); [|done..].
    apply blocked_objects; [done|]. intros ch' Hr' Hh'. exists ch'. split; [|done].
    by apply lookup_app_l_Some.
  - destruct err; injection H as <-; [by eapply blocked_ext|].
    eapply (blocked_ext _ _ (set_objects (objects s ++ [new_channel h]) s)); [|done..].
    apply blocked_objects; [done|]. intros ch' Hr' Hh'. exists ch'. split; [|done].
    by apply lookup_app_l_Some.
Qed.

Lemma insert_dead (l : list (channel Msg)) r r' ch ch' c :
  l !! r' = Some ch → (r = r' → handler ch' = false) → l !! r = Some c → handler c = false →
  ∃ c', <[r' := ch']> l !! r = Some c' ∧ handler c' = false.
Proof.
  intros Hr' Hd Hr Hc. destruct (decide (r = r')) as [->|].
  - exists ch'. split; [|auto]. apply list_lookup_insert_eq. by eapply lookup_lt_Some.
  - exists c. by rewrite list_lookup_insert_ne.
Qed.

Lemma blocked_step r m e s s' o :
  blocked r m s → e ≠ CloseSession → session_step e s = Some (s', o) →
  blocked r m s' ∧ ∀ r' m', o ≠ Delivered r' m'.
Proof.
  intros Hbl Hne. pose proof Hbl as (Hb & Hd & ch0 & Hr0 & Hh0).
  assert (∀ x, silent x = Some (s', o) → (∀ s1, x = Some s1 → blocked r m s1) →
    blocked r m s' ∧ ∀ r' m', o ≠ Delivered r' m') as Hsil.
  { intros [s1|] Hx Hq; [|discriminate]. injection Hx as <- <-. split; [auto|done]. }
  destruct e; cbn [session_step]; intros H; try done.
  - destruct (reader s); try discriminate. eapply Hsil; [exact H|]. by intros s1 [= <-].
  - destruct (reader s); try discriminate. eapply Hsil; [exact H|]. by intros s1 [= <-].
  - destruct (reader s); try discriminate. unfold broker_receive in H. simpl in H. by rewrite Hb in H.
  - eapply Hsil; [exact H|]. by intros s1 [= <-].
  - eapply Hsil; [exact H|]. by intros s1 [= <-].
  - eapply Hsil; [exact H|]. intros s1. by apply blocked_call_step.
  - eapply Hsil; [exact H|]. intros s1. unfold call_done. rewrite Hd. by repeat case_match.
  - rewrite Hb in H. rewrite Hr0 in H. simpl in H. unfold handler_in in H. by rewrite Hh0 in H.
  - apply bind_Some in H as (ch & Hr & H).
    destruct (channel_Write ch m0) as [[b|e]| |], err; try discriminate; by injection H as <- <-.
  - apply bind_Some in H as (ch & Hr & H). apply bind_Some in H as ([m1 ch'] & Hn & [= <- <-]).
    split; [|done]. apply blocked_objects; [done|]. intros c Hc Hdead.
    eapply insert_dead; [exact Hr| |exact Hc|done]. intros <-. rewrite Hc in Hr. injection Hr as <-.
    unfold handler_next in Hn. rewrite Hdead in Hn. by destruct (queue c).
  - apply bind_Some in H as (ch & Hr & H). by apply bind_Some in H as (err & _ & [= <- <-]).
  - apply bind_Some in H as (ch & Hr & H). apply bind_Some in H as (ch' & Hx & H).
    eapply Hsil; [exact H|]. intros s1 [= <-]. apply blocked_objects; [done|]. intros c Hc Hdead.
    eapply insert_dead; [exact Hr| |exact Hc|done]. intros <-.
    unfold handler_exit in Hx. case_match; by simplify_eq.
  - apply bind_Some in H as (ch & Hr & H). unfold channel_Close in H.
    destruct (ch_done ch); [discriminate|].
    assert (blocked r m (set_objects (<[r0 := mkChannel (handle ch) (queue ch) true (handler ch)]>
      (objects s)) s)) as Hs1.
    { apply blocked_objects; [done|]. intros c Hc Hdead.
      eapply insert_dead; [exact Hr| |exact Hc|done]. intros <-. by simplify_eq. }
    destruct err; injection H as <- <-; (split; [exact Hs1|done]).
  - eapply Hsil; [exact H|]. intros s1 (Hd' & _)%broker_exit_inv. congruence.
  - eapply Hsil; [exact H|]. intros s1 (p & ->)%Session_CloseConn_inv. by eapply blocked_ext.
Qed.
End Blocked.

(** ** Properties *)

(** *** A session to try them on

    The peer opens channel 1, which is accepted for a protocol of numbers. *)
Definition demo_numbers : Protocol Z :=
  mkProtocol 1 (λ _, Ret (KeyMessageType 0)) (λ _, Ret 0) (λ _, (Some 0, None)).

Definition demo_bytes (m : Message) : bytes := bits_of (encode m).
Definition demo_open : bytes := demo_bytes (mkMessage (Some (Open 1 9))).
Definition demo_data (n : Z) : bytes := demo_bytes (mkMessage (Some (Data 1 0 (bits_of (encode n))))).

(** Up to the point where the accept message is out and the channel object is
    made; the registration; and a message. *)
Definition demo_accept : list (@session_event Z) :=
  [StartAccept demo_numbers; StepCall 0 None; ReadConn demo_open; TakeRead; StepCall 0 None;
   StepCall 0 None].
Definition demo_register : list (@session_event Z) := [StepCall 0 None].
Definition demo_message (n : Z) : list (@session_event Z) := [ReadConn (demo_data n); TakeRead].

(** The queue of a channel is first-in first-out: whatever happens in the
    session, the messages the broker delivered to a channel are, in this order,
    the ones its readers have got so far followed by the ones still queued. *)
Theorem session_channel_fifo {Msg} `{!ProtoMessage Message} `{!ProtoMessage Msg}
    (es : list (@session_event Msg)) (s s' : session Msg) (os : list observation) (r : nat) :
  session_run es s = Some (s', os) →
  queue_of s r ++ delivered r os = taken r os ++ queue_of s' r.
Proof.
  revert s os. induction es as [|e es IH]; intros s os H.
  - injection H as <- <-. apply app_nil_r.
  - cbn [session_run] in H. apply bind_Some in H as ([s1 o] & H1 & H).
    apply bind_Some in H as ([s2 os'] & H2 & [= <- <-]).
    pose proof (session_step_fifo e s s1 o r H1) as Hstep. specialize (IH s1 os' H2).
    change (o :: os') with ([o] ++ os'). unfold delivered, taken in *. rewrite !omap_app.
    rewrite app_assoc, Hstep, <- !app_assoc. f_equal. exact IH.
Qed.

(** C12: data is delivered to the channel it names, and to no other one.  In
    every reachable session, when the broker takes a data message whose id is
    that of a registered channel, and the protocol of that channel makes a
    message of its type and payload, then the broker delivers that message to
    that channel, and if the goroutine of the channel runs, the next step puts it
    at the end of the channel's queue and of no other.  A message that names no
    registered channel, or of which the protocol makes nothing, is dropped and
    leaves everything as it was. *)
Theorem session_demux {Msg} `{!ProtoMessage Message} `{!ProtoMessage Msg}
    (initiator : bool) (es : list (@session_event Msg)) (s s' : session Msg)
    (os : list observation) (o : observation) (id t : Z) (payload : bytes) :
  session_run es (NewSession initiator) = Some (s, os) →
  reader s = Passing (InData id t payload) → session_step TakeRead s = Some (s', o) →
  (channels s !! id = None → s' = set_reader Reading s) ∧
  ∀ r, channels s !! id = Some r →
    ∃ ch, objects s !! r = Some ch ∧ ch_id (handle ch) = id ∧
      (∀ m0 m, NewMessage (ch_protocol (handle ch)) t = (Some m0, None) → Unmarshal payload m0 = inl m →
         broker s' = Delivering r m ∧
         (handler ch = true → ∃ s'', session_step Deliver s' = Some (s'', Delivered r m) ∧
            broker s'' = Selecting ∧
            ∀ r', queue_of s'' r' = if decide (r' = r) then queue_of s r ++ [m] else queue_of s r')) ∧
      ((∀ m0 m, NewMessage (ch_protocol (handle ch)) t = (Some m0, None) → Unmarshal payload m0 ≠ inl m) →
         s' = set_reader Reading s).
Proof.
  intros Hrun Hr H. pose proof (session_run_inv es _ _ _ (NewSession_inv initiator) Hrun) as Hi.
  cbn [session_step] in H. rewrite Hr in H. simpl in H.
  unfold broker_receive in H. destruct (broker (set_reader Reading s)); try discriminate.
  injection H as <- _. cbn [set_reader channels objects].
  split; [by intros ->|]. intros r Ec.
  destruct (si_channels _ Hi id r Ec) as (h & Hh & Hid). unfold handles in Hh.
  rewrite list_lookup_fmap in Hh. destruct (objects s !! r) as [ch|] eqn:Er; [|discriminate].
  injection Hh as <-. exists ch. split; [done|]. split; [done|]. rewrite Ec. simpl. rewrite Er. simpl. split.
  - intros m0 m -> ->. split; [done|]. intros Hh. cbn [session_step set_broker broker objects set_reader]. rewrite Er. simpl.
    unfold handler_in. rewrite Hh. eexists. split; [reflexivity|]. split; [done|]. intros r'.
    etrans; [by apply (queue_of_eq (set_objects (<[r := mkChannel (handle ch) (queue ch ++ [m]) (ch_done ch) true]>
      (objects s)) s))|].
    rewrite (queue_of_insert s r r' ch) by done. case_decide; [|done]. unfold queue_of. by rewrite Er.
  - intros Hno. destruct (NewMessage _ t) as [[m0|] [e|]] eqn:En; try done.
    destruct (Unmarshal payload m0) as [m|e] eqn:Eu; [|done]. by destruct (Hno m0 m).
Qed.

(** C34: a closed channel can stop a session.  Once the broker delivers to a
    channel whose goroutine has returned, no sequence of steps without a close
    of the whole session gets it out of that delivery, and no message reaches
    any channel any more. *)
Theorem session_closed_channel_blocks {Msg} `{!ProtoMessage Message} `{!ProtoMessage Msg}
    (es : list (@session_event Msg)) (s s' : session Msg) (os : list observation)
    (r : nat) (m : Msg) (ch : channel Msg) :
  broker s = Delivering r m → objects s !! r = Some ch → handler ch = false → done s = false →
  Forall (λ e, e ≠ CloseSession) es → session_run es s = Some (s', os) →
  broker s' = Delivering r m ∧ ∀ r', delivered r' os = [].
Proof.
  intros Hb Hr Hh Hd Hes. assert (blocked r m s) as Hbl by (split_and!; eauto). clear Hb Hr Hh Hd.
  revert s os Hbl. induction Hes as [|e es He Hes IH]; intros s os Hbl H.
  - injection H as <- <-. split; [apply Hbl|done].
  - cbn [session_run] in H. apply bind_Some in H as ([s1 o] & H1 & H).
    apply bind_Some in H as ([s2 os'] & H2 & [= <- <-]).
    destruct (blocked_step r m e s s1 o Hbl He H1) as [Hbl1 Ho].
    destruct (IH s1 os' Hbl1 H2) as [Hb' Hdel]. split; [done|]. intros r'. specialize (Hdel r').
    unfold delivered in *. destruct o as [r1 m1|r1 m1|id1 m1|r1 e1|]; simpl; try done. by destruct (Ho r1 m1).
Qed.

(** The channel type of an open request is ignored.  Whatever type the
    peer asks for, [readHandler] passes the request on as one for protocol 1
    (it takes the number of the message kind for the protocol); so a call of
    [AcceptChannel] only ever gets a channel if its protocol has the id 1. *)
Theorem session_open_type_ignored {Msg} `{!ProtoMessage Message} `{!ProtoMessage Msg}
    (initiator : bool) (es : list (@session_event Msg)) (s : session Msg) (os : list observation) :
  (∀ data id t, Unmarshal data (mkMessage None) = inl (mkMessage (Some (Open id t))) →
     readHandler data = Some (InOpen id 1)) ∧
  (session_run es (NewSession initiator) = Some (s, os) →
   ∀ i p err s', calls s !! i = Some (AcceptWaiting p) → call_step i err s = Some s' → Id p = 1).
Proof.
  split.
  - intros data id t Hu. unfold readHandler, UnmarshalMessage. by rewrite Hu.
  - intros Hrun i p err s' Hc H.
    pose proof (session_run_inv es _ _ _ (NewSession_inv initiator) Hrun) as Hi.
    unfold call_step in H. rewrite Hc in H. simpl in H.
    destruct (broker s) as [|w id pid| | |] eqn:Hb; try discriminate.
    case_bool_decide; [|discriminate]. subst w.
    destruct (si_broker _ Hi _ _ _ Hb) as [-> Ho].
    destruct (si_opens _ Hi _ _ Ho) as (c & Hc' & Hw). simplify_eq. done.
Qed.

(** Data that arrives before a channel is registered is lost.  A call that
    has made its channel object registers it with the broker in a later step
    (an accepting call has told the peer by then that it may send); a data
    message for the channel that the broker takes in between disappears and
    leaves the session as it was. *)
Theorem session_early_data_lost {Msg} `{!ProtoMessage Message} `{!ProtoMessage Msg}
    (s : session Msg) (i r : nat) (ch : channel Msg) (data payload : bytes) (t : Z) :
  calls s !! i = Some (Registering r) → objects s !! r = Some ch →
  channels s !! ch_id (handle ch) = None → broker s = Selecting → reader s = Reading →
  readHandler data = Some (InData (ch_id (handle ch)) t payload) →
  session_run [ReadConn data; TakeRead] s = Some (s, [Silent; Silent]).
Proof.
  intros Hc Hr Hn Hb Hrd Hdata. cbn [session_run session_step]. rewrite Hrd. simpl.
  rewrite Hdata. simpl. unfold broker_receive. simpl. rewrite Hb. simpl. rewrite Hn. simpl.
  destruct s. simpl in *. by subst.
Qed.

(** C29: [Close] closes the connection after it has told the broker to close it.
    Which of the two is first is up to the scheduler: when the broker waits in
    its [select], [Close] succeeds if its own close comes first, and fails with
    the error of a second close if the broker's does, although the connection
    is closed either way. *)
Theorem session_close_race {Msg} `{!ProtoMessage Message} `{!ProtoMessage Msg} (s : session Msg) :
  done s = false → closed s = false → broker s = Selecting →
  (∃ s', session_run [CloseSession; CloseConn; ExitBroker] s = Some (s', [Silent; Silent; Silent]) ∧
     closer s' = CloseReturned None ∧ closed s' = true ∧ broker s' = BrokerReturned) ∧
  (∃ s', session_run [CloseSession; ExitBroker; CloseConn] s = Some (s', [Silent; Silent; Silent]) ∧
     closer s' = CloseReturned (Some net_ErrClosed) ∧ closed s' = true ∧ broker s' = BrokerReturned).
Proof.
  destruct s as [? ? ? ? ? br ? ? ? ? d cl ?]. simpl. intros -> -> ->. by split; eexists; split.
Qed.

(** An open request that arrives before the call of [AcceptChannel] has
    reached the broker is lost, too: the session stays as it was, so the call
    that follows waits for a request that was sent already. *)
Theorem session_early_open_lost {Msg} `{!ProtoMessage Message} `{!ProtoMessage Msg}
    (s : session Msg) (data : bytes) (id pid : Z) :
  broker s = Selecting → reader s = Reading → opens s !! pid = None →
  readHandler data = Some (InOpen id pid) →
  session_run [ReadConn data; TakeRead] s = Some (s, [Silent; Silent]).
Proof.
  intros Hb Hrd Ho Hdata. cbn [session_run session_step]. rewrite Hrd. simpl.
  rewrite Hdata. simpl. unfold broker_receive. simpl. rewrite Hb. simpl. rewrite Ho.
  destruct (has _ _); simpl; destruct s; simpl in *; by subst.
Qed.

(** A read that fails for any reason but a closed connection ends the process:
    [readHandler] panics, for instance, when a read deadline passes. *)
Lemma readHandler_error_panics (err : error) (text : string) :
  err ≠ net_ErrClosed → err ≠ EOF →
  strings_Contains (Error text err) "use of closed network connection" = false →
  readHandler_error err text =
    ReaderPanicked (PanicError (ErrText ("unhandled read error: " +:+ Error text err))).
Proof. intros H1 H2 H3. unfold readHandler_error. by rewrite !bool_decide_eq_false_2, H3. Qed.

Definition os_ErrDeadlineExceeded : error := ErrVar "os.ErrDeadlineExceeded" "i/o timeout".

Example readHandler_timeout {Msg} `{!ProtoMessage Message} `{!ProtoMessage Msg} (s : session Msg) :
  reader s = Reading →
  session_run [ReadConnError os_ErrDeadlineExceeded ""] s =
    Some (set_reader (ReaderPanicked (PanicError (ErrText "unhandled read error: i/o timeout"))) s,
          [Silent]).
Proof. intros Hr. cbn [session_run session_step]. by rewrite Hr. Qed.

(** ** Witnesses *)

#[local] Existing Instance bits_proto.

Lemma session_channel_fifo_witness :
  ∃ s os, session_run (demo_accept ++ demo_register ++ demo_message 7 ++ [Deliver] ++ demo_message 8 ++
      [Deliver; ReadChannel 0]) (NewSession false) = Some (s, os) ∧
    delivered 0 os = [7; 8] ∧ taken 0 os = [7] ∧ queue_of s 0 = [8] ∧
    queue_of (NewSession (Msg := Z) false) 0 ++ delivered 0 os = taken 0 os ++ queue_of s 0.
Proof.
  eexists _, _. split; [vm_compute; reflexivity|]. do 3 (split; [vm_compute; reflexivity|]).
  eapply (session_channel_fifo (demo_accept ++ demo_register ++ demo_message 7 ++ [Deliver] ++
    demo_message 8 ++ [Deliver; ReadChannel 0]) (NewSession false)).
  vm_compute. reflexivity.
Defined.

Lemma session_demux_witness :
  ∃ s os s', session_run (demo_accept ++ demo_register ++ [ReadConn (demo_data 7)]) (NewSession false) =
      Some (s, os) ∧ session_step TakeRead s = Some (s', Silent) ∧ broker s' = Delivering 0 7 ∧
    ∃ s'', session_step Deliver s' = Some (s'', Delivered 0 7) ∧ queue_of s'' 0 = [7].
Proof.
  eexists _, _, _. split; [vm_compute; reflexivity|]. split; [vm_compute; reflexivity|].
  edestruct (session_demux false (demo_accept ++ demo_register ++ [ReadConn (demo_data 7)])) as [_ H].
  - vm_compute. reflexivity.
  - vm_compute. reflexivity.
  - vm_compute. reflexivity.
  - destruct (H 0%nat) as (ch & Hch & _ & Hd & _); [vm_compute; reflexivity|]. vm_compute in Hch. injection Hch as <-.
    destruct (Hd 0 7) as [Hb Hq]; [vm_compute; reflexivity..|]. split; [exact Hb|].
    destruct (Hq eq_refl) as (s'' & Hs & _ & Hr). exists s''. split; [exact Hs|]. exact (Hr 0%nat).
Defined.

(** The session after the given steps. *)
Definition demo_run (es : list session_event) : session Z :=
  match session_run es (NewSession false) with Some (s, _) => s | None => NewSession true end.

Lemma session_closed_channel_blocks_witness :
  let s := demo_run (demo_accept ++ demo_register ++ [CloseChannel 0 None; ExitChannel 0] ++ demo_message 7) in
  ∃ s' os', session_run [ReadConn (demo_data 8); StartAccept demo_numbers] s = Some (s', os') ∧
    broker s' = Delivering 0 7 ∧ delivered 0 os' = [].
Proof.
  set (s := demo_run _). eexists _, _. split; [vm_compute; reflexivity|].
  edestruct (session_closed_channel_blocks [ReadConn (demo_data 8); StartAccept demo_numbers] s)
    as [Hb Hd]; [..|split; [exact Hb|exact (Hd 0%nat)]].
  - vm_compute. reflexivity.
  - vm_compute. reflexivity.
  - vm_compute. reflexivity.
  - vm_compute. reflexivity.
  - repeat constructor; discriminate.
  - vm_compute. reflexivity.
Defined.

Lemma session_open_type_ignored_witness :
  readHandler demo_open = Some (InOpen 1 1) ∧
  ∃ s os s', session_run (take 4 demo_accept) (NewSession false) = Some (s, os) ∧
    calls s !! 0%nat = Some (AcceptWaiting demo_numbers) ∧ call_step 0 None s = Some s' ∧
    Id demo_numbers = 1.
Proof.
  split.
  - apply (proj1 (session_open_type_ignored (Msg := Z) false [] (NewSession false) [])) with (t := 9).
    vm_compute. reflexivity.
  - eexists _, _, _. split; [vm_compute; reflexivity|]. split; [vm_compute; reflexivity|].
    split; [vm_compute; reflexivity|].
    eapply (proj2 (session_open_type_ignored false (take 4 demo_accept) _ _)) with (i := 0%nat) (err := None).
    + vm_compute. reflexivity.
    + vm_compute. reflexivity.
    + vm_compute. reflexivity.
Defined.

Lemma session_early_data_lost_witness :
  ∃ s os, session_run demo_accept (NewSession false) = Some (s, os) ∧
    sent s = [demo_bytes (mkMessage (Some (Accept 1)))] ∧
    session_run (demo_message 7) s = Some (s, [Silent; Silent]).
Proof.
  eexists _, _. split; [vm_compute; reflexivity|]. split; [vm_compute; reflexivity|].
  eapply (session_early_data_lost _ 0 0).
  - vm_compute. reflexivity.
  - vm_compute. reflexivity.
  - vm_compute. reflexivity.
  - vm_compute. reflexivity.
  - vm_compute. reflexivity.
  - vm_compute. reflexivity.
Defined.

Lemma session_close_race_witness :
  ∃ s1 s2 os, session_run [CloseSession; CloseConn; ExitBroker] (NewSession (Msg := Z) true) = Some (s1, os) ∧
    session_run [CloseSession; ExitBroker; CloseConn] (NewSession (Msg := Z) true) = Some (s2, os) ∧
    closer s1 = CloseReturned None ∧ closer s2 = CloseReturned (Some net_ErrClosed).
Proof.
  destruct (session_close_race (NewSession (Msg := Z) true) eq_refl eq_refl eq_refl)
    as [(s1 & H1 & E1 & _) (s2 & H2 & E2 & _)].
  exists s1, s2, [Silent; Silent; Silent]. split; [exact H1|]. split; [exact H2|]. by split.
Defined.

(** The peer asks for the channel before it is waited for. *)
Lemma session_early_open_lost_witness :
  session_run [ReadConn demo_open; TakeRead] (NewSession (Msg := Z) false) =
    Some (NewSession false, [Silent; Silent]).
Proof.
  apply (session_early_open_lost (NewSession (Msg := Z) false) demo_open 1 1).
  - reflexivity.
  - reflexivity.
  - reflexivity.
  - vm_compute. reflexivity.
Defined.
