(* ===== verification/SessionSystem.v ===== *)
(** * SessionSystem: two sessions that are connected to each other

    Each side is a session of [Session]; what one side writes to its connection
    is read by the other side, message by message and in order (this is what
    [SecureSession] shows of an encrypted connection).  The steps of the two sides
    interleave in any way. *)

From S2P Require Import Prelude GoSem Automaton Protocol Secure Channel Session.

Local Open Scope Z_scope.

Section System.
Context {Msg : Type} `{!ProtoMessage Message} `{!ProtoMessage Msg}.

Record system : Type := mkSystem {
  left : session Msg;
  right : session Msg;
  to_right : list bytes;
  to_left : list bytes
}.

Definition NewSystem : system := mkSystem (NewSession true) (NewSession false) [] [].

Inductive system_event : Type :=
| LeftStep (e : @session_event Msg)
| RightStep (e : @session_event Msg)
| LeftReads
| RightReads.

(** What a session reads is given by the other side. *)
Definition is_read (e : @session_event Msg) : bool := if e is ReadConn _ then true else false.

(** The messages that a step has written to the connection. *)
Definition output (s s' : session Msg) : list bytes := drop (length (sent s)) (sent s').

Definition system_step (e : system_event) (s : system)
  : option (system * (@observation Msg + @observation Msg)) :=
  match e with
  | LeftStep e =>
      if is_read e then None
      else '(l, o) ← session_step e (left s);
           Some (mkSystem l (right s) (to_right s ++ output (left s) l) (to_left s), inl o)
  | RightStep e =>
      if is_read e then None
      else '(r, o) ← session_step e (right s);
           Some (mkSystem (left s) r (to_right s) (to_left s ++ output (right s) r), inr o)
  | LeftReads =>
      match to_left s with
      | [] => None
      | b :: rest =>
          '(l, o) ← session_step (ReadConn b) (left s);
          Some (mkSystem l (right s) (to_right s) rest, inl o)
      end
  | RightReads =>
      match to_right s with
      | [] => None
      | b :: rest =>
          '(r, o) ← session_step (ReadConn b) (right s);
          Some (mkSystem (left s) r rest (to_left s), inr o)
      end
  end.

Fixpoint system_run (es : list system_event) (s : system)
  : option (system * list (@observation Msg + @observation Msg)) :=
  match es with
  | [] => Some (s, [])
  | e :: es =>
      '(s, o) ← system_step e s;
      '(s, os) ← system_run es s;
      Some (s, o :: os)
  end.

(** What the two sides show. *)
Definition lefts (os : list (@observation Msg + @observation Msg)) : list observation :=
  omap (λ o, match o with inl o => Some o | inr _ => None end) os.
Definition rights (os : list (@observation Msg + @observation Msg)) : list observation :=
  omap (λ o, match o with inr o => Some o | inl _ => None end) os.

(** The messages written to the channels with an id. *)
Definition written (c : Z) (os : list (@observation Msg)) : list Msg :=
  omap (λ o, match o with Written id m => if decide (id = c) then Some m else None | _ => None end) os.

(** ** What a step keeps *)

Implicit Types (s : session Msg) (o : @observation Msg).

(** Bytes that are not data of any channel. *)
Definition quiet (b : bytes) : Prop := ∀ id t p, readHandler b ≠ Some (InData id t p).

(** The messages that a call has still to write. *)
Definition call_data (x : call Msg) : list bytes :=
  match x with
  | OpenWaitAccept _ b | OpenWrite _ b | AcceptWrite _ b => [b]
  | _ => []
  end.

Definition calls_quiet s : Prop := Forall (λ x, Forall quiet (call_data x)) (calls s).

(** The broker is gone. *)
Definition stopped s : Prop :=
  match broker s with BrokerReturned | BrokerPanicked _ => True | _ => False end.

Lemma handles_broker_case e s : handles (broker_case e s) = handles s.
Proof. unfold handles. by rewrite objects_broker_case. Qed.

Lemma channels_broker_case e s c r : channels s !! c = Some r → channels (broker_case e s) !! c = Some r.
Proof.
  intros Hc. destruct e; simpl; repeat case_match; try done. simpl.
  rewrite lookup_insert_ne; [done|]. intros <-. unfold has in *. rewrite Hc in *. done.
Qed.

Lemma sent_broker_case e s : sent (broker_case e s) = sent s.
Proof. destruct e; simpl; repeat case_match; done. Qed.

(** The parts of the state that only grow: handles and registered channels. *)
Definition grows s s' : Prop :=
  (∀ r h, handles s !! r = Some h → handles s' !! r = Some h) ∧
  (∀ c r, channels s !! c = Some r → channels s' !! c = Some r).

Lemma grows_refl s s' : handles s' = handles s → channels s' = channels s → grows s s'.
Proof. by unfold grows; intros -> ->. Qed.

Lemma grows_trans s1 s2 s3 : grows s1 s2 → grows s2 s3 → grows s1 s3.
Proof. intros [? ?] [? ?]. split; eauto. Qed.

Lemma grows_receive e s s' : broker_receive e s = Some s' → grows s s' ∧ sent s' = sent s ∧ calls s' = calls s.
Proof.
  unfold broker_receive. destruct (broker s); intros [= <-].
  split_and!; [split|apply sent_broker_case|apply calls_broker_case].
  - by rewrite handles_broker_case.
  - by apply channels_broker_case.
Qed.

(** What a step sends: the data of a write that it shows, or messages that are
    not data. *)
Definition sends s o (l : list bytes) : Prop :=
  (∃ m h b r, o = Written (ch_id h) m ∧ l = [b] ∧ handles s !! r = Some h ∧ MarshalMessage h m = Ret (inl b)) ∨
  (∀ id m, o ≠ Written id m) ∧ Forall quiet l.

Record effect s s' o : Prop := {
  ef_grows : grows s s';
  ef_quiet : calls_quiet s';
  ef_sends : ∃ l, sent s' = sent s ++ l ∧ sends s o l
}.

Lemma effect_silent s s' o :
  (∀ id m, o ≠ Written id m) → grows s s' → calls_quiet s' → sent s' = sent s → effect s s' o.
Proof. intros Ho Hg Hq Hs. split; [done|done|]. exists []. rewrite app_nil_r. split; [done|]. by right. Qed.

Context `{!ProtoRoundTrip Message (λ _ _, True)} (Hempty : readHandler [] = None).

(** Open, accept and close messages are not data. *)
Lemma marshalled_quiet m b :
  Marshal m = inl b → (∀ id t p, content m ≠ Some (Data id t p)) → quiet b.
Proof.
  intros Hb Hm id t p. unfold readHandler, UnmarshalMessage.
  rewrite (unmarshal_marshal (same_type := λ _ _, True) m (mkMessage None) b Hb I).
  unfold UnwrapMessage. destruct (content m) as [[]|]; simpl; try done. by destruct (Hm channel_id message_type payload).
Qed.

Lemma call_quiet_marshalled m k :
  (∀ id t p, content m ≠ Some (Data id t p)) → (∀ b, call_data (k b) = [b]) →
  Forall quiet (call_data (marshalled (Msg := Msg) m k)).
Proof.
  intros Hm Hk. unfold marshalled. destruct (Marshal m) as [b|] eqn:E; [|constructor].
  rewrite Hk. constructor; [|done]. by eapply marshalled_quiet.
Qed.

Lemma calls_quiet_call s i x s' :
  calls_quiet s → Forall quiet (call_data x) → calls s' = <[i := x]> (calls s) → calls_quiet s'.
Proof. intros Hq Hx E. unfold calls_quiet. rewrite E. by apply Forall_insert. Qed.

Lemma calls_quiet_eq s s' : calls_quiet s → calls s' = calls s → calls_quiet s'.
Proof. unfold calls_quiet. by intros ? ->. Qed.

(** A call goes on, after the broker has received something from it or not, and
    after it has written some of its messages. *)
Lemma set_call_effect s s1 i x l :
  calls_quiet s → grows s s1 → calls s1 = calls s → sent s1 = sent s ++ l → Forall quiet l →
  Forall quiet (call_data x) → effect s (set_call i x s1) Silent.
Proof.
  intros Hq Hg Hc Hs Hl Hx. split; [done| |].
  - eapply (calls_quiet_call s1 i x); [by eapply calls_quiet_eq|done|done].
  - exists l. split; [done|]. by right.
Qed.

Lemma make_channel_effect s s1 i h l :
  calls_quiet s → grows s s1 → calls s1 = calls s → sent s1 = sent s ++ l → Forall quiet l →
  effect s (make_channel i h s1) Silent.
Proof.
  intros Hq Hg Hc Hs Hl. unfold make_channel. eapply (set_call_effect _ _ _ _ l); [done| |done|done|done|constructor].
  eapply grows_trans; [exact Hg|]. split; [|done]. intros r h'. apply handles_new.
Qed.

Lemma meet_broker_effect s s1 i x e :
  calls_quiet s → broker_receive e s = Some s1 → Forall quiet (call_data x) → effect s (set_call i x s1) Silent.
Proof.
  intros Hq (Hg & Hs & Hc)%grows_receive Hx. apply (set_call_effect _ _ _ _ []); [done..| |done|done].
  by rewrite app_nil_r.
Qed.

Lemma call_step_effect i err s s' : calls_quiet s → call_step i err s = Some s' → effect s s' Silent.
Proof.
  intros Hq (x & Hx & H)%bind_Some. pose proof (Forall_lookup_1 _ _ _ _ Hq Hx) as Hd. simpl in Hd.
  assert (sent s = sent s ++ []) as Hnil by (by rewrite app_nil_r).
  assert (∀ b, sent (send b s) = sent s ++ [b]) as Hsend by done.
  destruct x as [h b|h b|h|p|p|h b|r|y]; simpl in H, Hd.
  - apply bind_Some in H as (s1 & H1 & [= <-]). by eapply meet_broker_effect.
  - destruct err; injection H as <-; [by apply (set_call_effect s s _ _ [])|].
    by apply (set_call_effect s (send b s) _ _ [b]).
  - case_bool_decide; [|discriminate]. injection H as <-. by apply (make_channel_effect s s _ _ []).
  - apply bind_Some in H as (s1 & H1 & [= <-]). by eapply meet_broker_effect.
  - destruct (broker s); try discriminate. case_bool_decide; [|discriminate]. injection H as <-.
    eapply (set_call_effect s _ _ _ []); [done|done|done|done|done|]. by apply call_quiet_marshalled.
  - destruct err; injection H as <-; [by apply (set_call_effect s s _ _ [])|].
    by apply (make_channel_effect s (send b s) _ _ [b]).
  - apply bind_Some in H as (s1 & H1 & [= <-]). by eapply meet_broker_effect.
  - discriminate.
Qed.

Lemma set_objects_grows s r ch ch' :
  objects s !! r = Some ch → handle ch' = handle ch → grows s (set_objects (<[r := ch']> (objects s)) s).
Proof. intros Hr Hh. split; [|done]. intros r' h. by apply (handles_update s r ch). Qed.

Lemma step_effect e s s' o : calls_quiet s → session_step e s = Some (s', o) → effect s s' o.
Proof.
  intros Hq.
  assert (∀ x, silent x = Some (s', o) → (∀ s1, x = Some s1 → effect s s1 Silent) → effect s s' o) as Hsil.
  { intros [s1|] Hx H1; [|discriminate]. injection Hx as <- <-. auto. }
  destruct e; cbn [session_step]; intros H.
  - destruct (reader s); try discriminate. eapply Hsil; [exact H|]. intros s1 [= <-]. by apply effect_silent.
  - destruct (reader s); try discriminate. eapply Hsil; [exact H|]. intros s1 [= <-]. by apply effect_silent.
  - destruct (reader s); try discriminate. eapply Hsil; [exact H|].
    intros s1 (Hg & Hs & Hc)%grows_receive. apply effect_silent; [done|done| |done]. by eapply calls_quiet_eq.
  - eapply Hsil; [exact H|]. intros s1 [= <-]. apply effect_silent; [done|done| |done].
    apply Forall_app. split; [done|]. constructor; [|done]. by apply call_quiet_marshalled.
  - eapply Hsil; [exact H|]. intros s1 [= <-]. apply effect_silent; [done|done| |done].
    apply Forall_app. split; [done|]. constructor; [|done]. constructor.
  - eapply Hsil; [exact H|]. intros s1. by apply call_step_effect.
  - eapply Hsil; [exact H|]. intros s1. unfold call_done. repeat case_match; intros [= <-];
      apply (set_call_effect s s _ _ []); try done; by rewrite app_nil_r.
  - destruct (broker s) as [| |r m| |]; try discriminate.
    apply bind_Some in H as (ch & Hr & H). apply bind_Some in H as (ch' & Hch & [= <- <-]).
    apply effect_silent; [done| |done|done]. apply (set_objects_grows s r ch); [done|].
    unfold handler_in in Hch. destruct (handler ch); by simplify_eq.
  - apply bind_Some in H as (ch & Hr & H).
    destruct (channel_Write ch m) as [[b|x]| |] eqn:Hw, err; try discriminate; injection H as <- <-;
      [by apply effect_silent| |by apply effect_silent..].
    split; [done|done|]. exists [b]. split; [done|]. left. exists m, (handle ch), b, r. split_and!; [done|done| |].
    + unfold handles. by rewrite list_lookup_fmap, Hr.
    + unfold channel_Write in Hw. by destruct (ch_done ch).
  - apply bind_Some in H as (ch & Hr & H). apply bind_Some in H as ([m ch'] & Hn & [= <- <-]).
    apply effect_silent; [done| |done|done]. apply (set_objects_grows s r ch); [done|].
    unfold handler_next in Hn. repeat case_match; by simplify_eq.
  - apply bind_Some in H as (ch & Hr & H). apply bind_Some in H as (err & _ & [= <- <-]). by apply effect_silent.
  - apply bind_Some in H as (ch & Hr & H). apply bind_Some in H as (ch' & Hx & H).
    eapply Hsil; [exact H|]. intros s1 [= <-]. apply effect_silent; [done| |done|done].
    apply (set_objects_grows s r ch); [done|]. unfold handler_exit in Hx. case_match; by simplify_eq.
  - apply bind_Some in H as (ch & Hr & H). unfold channel_Close in H.
    destruct (ch_done ch); [discriminate|].
    pose proof (set_objects_grows s r ch (mkChannel (handle ch) (queue ch) true (handler ch)) Hr eq_refl) as Hg.
    destruct err; injection H as <- <-; [by apply effect_silent|].
    split; [done|done|]. eexists [_]. split; [done|]. right. split; [done|]. constructor; [|done].
    destruct (Marshal (CloseMessage (handle ch))) as [b|] eqn:E; [by eapply marshalled_quiet|].
    unfold quiet. by rewrite Hempty.
  - unfold Session_Close in H. destruct (done s); [discriminate|].
    eapply Hsil; [exact H|]. intros s1 [= <-]. by apply effect_silent.
  - eapply Hsil; [exact H|]. intros s1 (_ & c & -> & _)%broker_exit_inv. by apply effect_silent.
  - eapply Hsil; [exact H|]. intros s1 (p & ->)%Session_CloseConn_inv. by apply effect_silent.
Qed.

(** ** What is on its way to a channel *)

Section Receiver.
Context (c : Z) (r : nat) (P : Protocol Msg).

(** The message that the broker makes of an event for the channel [c]. *)
Definition data_message (ev : broker_event) : list Msg :=
  match ev with
  | InData id t payload =>
      if decide (id = c) then
        match NewMessage P t with
        | (Some m0, None) => match Unmarshal payload m0 with inl m => [m] | inr _ => [] end
        | _ => []
        end
      else []
  | _ => []
  end.

Definition in_broker s : list Msg :=
  match broker s with Delivering r' m => if decide (r = r') then [m] else [] | _ => [] end.
Definition in_reader s : list Msg :=
  match reader s with Passing ev => data_message ev | _ => [] end.
Definition in_wire (bs : list bytes) : list Msg :=
  bs ≫= λ b, match readHandler b with Some ev => data_message ev | None => [] end.

(** The channel [c] is registered, as object [r] with the protocol [P]. *)
Definition registered s : Prop :=
  channels s !! c = Some r ∧ ∃ h, handles s !! r = Some h ∧ ch_protocol h = P.

Lemma registered_grows s s' : registered s → grows s s' → registered s'.
Proof. intros [Hc (h & Hh & Hp)] [H1 H2]. split; [by apply H2|]. exists h. auto. Qed.

Lemma broker_case_message ev s :
  session_inv s → registered s → broker s = Selecting → in_broker (broker_case ev s) = data_message ev.
Proof.
  intros Hi [Hc (h & Hh & Hp)] Hb. unfold in_broker.
  destruct ev as [pid i|id pid|id acc|id|i|id t payload]; simpl.
  { destruct (has _ _); simpl; by rewrite ?Hb. }
  { destruct (has _ _), (opens s !! pid); simpl; by rewrite ?Hb. }
  { destruct (has (accepts s) id), (has (channels s) id); simpl; by rewrite ?Hb. }
  { destruct (has _ _), (accepts s !! id); simpl; rewrite ?Hb; try done. case_bool_decide; simpl; by rewrite ?Hb. }
  { destruct (objects s !! i) as [ch|]; simpl; [|by rewrite Hb]. destruct (has _ _); simpl; by rewrite ?Hb. }
  destruct (decide (id = c)) as [->|Hne].
  - rewrite Hc. simpl. unfold handles in Hh. rewrite list_lookup_fmap in Hh.
    destruct (objects s !! r) as [ch|]; [|done]. simpl in *. injection Hh as ->. rewrite Hp.
    destruct (NewMessage P t) as [[m0|] [e|]]; simpl; rewrite ?Hb; try done.
    destruct (Unmarshal payload m0); simpl; rewrite ?Hb; [|done]. by rewrite decide_True.
  - destruct (channels s !! id) as [r'|] eqn:Hid; simpl; [|by rewrite Hb].
    destruct (objects s !! r') as [ch|]; simpl; [|by rewrite Hb].
    destruct (NewMessage _ t) as [[m0|] [e|]]; simpl; rewrite ?Hb; try done.
    destruct (Unmarshal payload m0); simpl; rewrite ?Hb; [|done]. rewrite decide_False; [done|].
    intros <-. destruct (si_channels _ Hi _ _ Hc) as (h1 & E1 & I1).
    destruct (si_channels _ Hi _ _ Hid) as (h2 & E2 & I2). congruence.
Qed.

(** A call changes neither what the reader has nor what the broker delivers. *)
Lemma call_step_flight i err s s' :
  session_inv s → registered s → call_step i err s = Some s' →
  reader s' = reader s ∧ in_broker s' = in_broker s.
Proof.
  intros Hi Hreg (x & Hx & H)%bind_Some.
  assert (∀ ev y s1, data_message ev = [] → broker_receive ev s = Some s1 →
    reader (set_call i y s1) = reader s ∧ in_broker (set_call i y s1) = in_broker s) as Hbr.
  { intros ev y s1 Hev H1. unfold broker_receive in H1.
    destruct (broker s) eqn:Hb; try discriminate. injection H1 as <-. split.
    - destruct ev; simpl; by repeat case_match.
    - change (in_broker (broker_case ev s) = in_broker s). rewrite broker_case_message by done.
      unfold in_broker. by rewrite Hev, Hb. }
  destruct x as [h b|h b|h|p|p|h b|j|y]; simpl in H.
  - apply bind_Some in H as (s1 & H1 & [= <-]). by eapply Hbr; [|exact H1].
  - destruct err; by injection H as <-.
  - case_bool_decide; [|discriminate]. by injection H as <-.
  - apply bind_Some in H as (s1 & H1 & [= <-]). by eapply Hbr; [|exact H1].
  - destruct (broker s) eqn:Hb; try discriminate. case_bool_decide; [|discriminate]. injection H as <-.
    split; [done|]. unfold in_broker. simpl. by rewrite Hb.
  - destruct err; by injection H as <-.
  - apply bind_Some in H as (s1 & H1 & [= <-]). by eapply Hbr; [|exact H1].
  - discriminate.
Qed.

Lemma delivered_silent o : (∀ r m, o ≠ Delivered r m) → delivered r [o] = [].
Proof. destruct o; try done. intros H. by destruct (H r0 m). Qed.

(** A step of the receiving side, when its broker goes on: what was on its way
    is delivered or still on its way. *)
Lemma step_receives e s s' o :
  session_inv s → registered s → session_step e s = Some (s', o) → ¬ stopped s' →
  in_broker s ++ in_reader s ++ (if e is ReadConn b then in_wire [b] else []) =
  delivered r [o] ++ in_broker s' ++ in_reader s'.
Proof.
  intros Hi Hreg H Hrun.
  assert (∀ x, silent x = Some (s', o) → o = Silent ∧ x = Some s') as Hsil.
  { intros [s1|] Hx; [|discriminate]. by injection Hx as <- <-. }
  assert (broker s' = broker s → reader s' = reader s → (∀ r m, o ≠ Delivered r m) → 
    in_broker s ++ in_reader s ++ [] = delivered r [o] ++ in_broker s' ++ in_reader s') as Hsame.
  { intros H1 H2 H3. unfold in_broker, in_reader. by rewrite H1, H2, app_nil_r, delivered_silent. }
  destruct e; cbn [session_step] in H.
  - destruct (reader s) eqn:Hr; try discriminate. apply Hsil in H as [-> [= <-]].
    unfold in_reader, in_broker, in_wire. simpl. rewrite Hr. simpl.
    destruct (readHandler data); simpl; by rewrite ?app_nil_r.
  - destruct (reader s) eqn:Hr; try discriminate. apply Hsil in H as [-> [= <-]].
    unfold in_reader, in_broker. simpl. rewrite Hr. unfold readHandler_error. by repeat case_match.
  - destruct (reader s) as [|ev| |] eqn:Hr; try discriminate. apply Hsil in H as [-> H].
    unfold broker_receive in H. simpl in H. destruct (broker s) eqn:Hb; try discriminate. injection H as <-.
    rewrite (broker_case_message ev (set_reader Reading s)); [|by destruct Hi as [? ? ? ?]; split|done|done].
    assert (reader (broker_case ev (set_reader Reading s)) = Reading) as Hrd
      by (destruct ev; simpl; by repeat case_match).
    unfold in_reader, in_broker. rewrite Hrd, Hr, Hb. by rewrite !app_nil_r.
  - apply Hsil in H as [-> [= <-]]. by apply Hsame.
  - apply Hsil in H as [-> [= <-]]. by apply Hsame.
  - apply Hsil in H as [-> H]. apply call_step_flight in H as [H1 H2]; [|done|done].
    unfold in_reader. by rewrite H1, H2, app_nil_r.
  - apply Hsil in H as [-> H]. unfold call_done in H. apply Hsame; by repeat case_match; simplify_eq.
  - destruct (broker s) as [| |r' m| |] eqn:Hb; try discriminate.
    apply bind_Some in H as (ch & Hr & H). apply bind_Some in H as (ch' & Hch & [= <- <-]).
    unfold in_broker, in_reader. simpl. rewrite Hb, app_nil_r. unfold delivered. simpl. by destruct (decide (r = r')).
  - apply bind_Some in H as (ch & Hr & H).
    destruct (channel_Write ch m) as [[b|x]| |], err; try discriminate; injection H as <- <-; by apply Hsame.
  - apply bind_Some in H as (ch & Hr & H). apply bind_Some in H as ([m ch'] & Hn & [= <- <-]). by apply Hsame.
  - apply bind_Some in H as (ch & Hr & H). apply bind_Some in H as (err & _ & [= <- <-]). by apply Hsame.
  - apply bind_Some in H as (ch & Hr & H). apply bind_Some in H as (ch' & Hx & H).
    apply Hsil in H as [-> [= <-]]. by apply Hsame.
  - apply bind_Some in H as (ch & Hr & H). unfold channel_Close in H. destruct (ch_done ch); [discriminate|].
    destruct err; injection H as <- <-; by apply Hsame.
  - unfold Session_Close in H. destruct (done s); [discriminate|]. apply Hsil in H as [-> [= <-]]. by apply Hsame.
  - apply Hsil in H as [-> (_ & b & -> & _)%broker_exit_inv]. exfalso. by apply Hrun.
  - apply Hsil in H as [-> (p & ->)%Session_CloseConn_inv]. by apply Hsame.
Qed.

(** Nothing is delivered by a step to or from a broker that is gone. *)
Lemma stopped_broker e s s' o :
  session_step e s = Some (s', o) → stopped s →
  broker s' = broker s ∧ (∀ r m, o ≠ Delivered r m).
Proof.
  unfold stopped. intros H Hst. assert (∀ ev s1, broker s1 = broker s → broker_receive ev s1 = None) as Hbr.
  { intros ev s1 E. unfold broker_receive. rewrite E. by destruct (broker s). }
  assert (∀ x, silent x = Some (s', o) → o = Silent ∧ x = Some s') as Hsil.
  { intros [s1|] Hx; [|discriminate]. by injection Hx as <- <-. }
  destruct e; cbn [session_step] in H.
  - destruct (reader s); try discriminate. by apply Hsil in H as [-> [= <-]].
  - destruct (reader s); try discriminate. by apply Hsil in H as [-> [= <-]].
  - destruct (reader s); try discriminate. rewrite Hbr in H by done. discriminate.
  - by apply Hsil in H as [-> [= <-]].
  - by apply Hsil in H as [-> [= <-]].
  - apply Hsil in H as [-> H]. split; [|done]. unfold call_step in H. apply bind_Some in H as (x & _ & H).
    destruct x; rewrite ?Hbr in H by done; simpl in H; try discriminate.
    all: try (destruct err; by injection H as <-).
    + case_bool_decide; by simplify_eq.
    + by destruct (broker s).
  - apply Hsil in H as [-> H]. unfold call_done in H. by repeat case_match; simplify_eq.
  - by destruct (broker s).
  - apply bind_Some in H as (ch & Hr & H).
    destruct (channel_Write ch m) as [[b|x]| |], err; try discriminate; by injection H as <- <-.
  - apply bind_Some in H as (ch & Hr & H). by apply bind_Some in H as ([m ch'] & Hn & [= <- <-]).
  - apply bind_Some in H as (ch & Hr & H). by apply bind_Some in H as (err & _ & [= <- <-]).
  - apply bind_Some in H as (ch & Hr & H). apply bind_Some in H as (ch' & Hx & H).
    by apply Hsil in H as [-> [= <-]].
  - apply bind_Some in H as (ch & Hr & H). unfold channel_Close in H. destruct (ch_done ch); [discriminate|].
    destruct err; by injection H as <- <-.
  - unfold Session_Close in H. destruct (done s); [discriminate|]. by apply Hsil in H as [-> [= <-]].
  - apply Hsil in H as [_ H]. unfold broker_exit in H. destruct (done s); [|discriminate]. by destruct (broker s).
  - by apply Hsil in H as [-> (p & ->)%Session_CloseConn_inv].
Qed.

Lemma delivered_running e s s' o r' m :
  session_step e s = Some (s', o) → o = Delivered r' m → ¬ stopped s'.
Proof.
  intros H ->. assert (∀ x, silent x ≠ Some (s', Delivered r' m)) as Hsil by (by intros [s1|]).
  destruct e; cbn [session_step] in H; try (by apply Hsil in H); try (by destruct (reader s); try done; apply Hsil in H).
  - destruct (broker s); try discriminate.
    apply bind_Some in H as (ch & Hr & H). apply bind_Some in H as (ch1 & Hch & H). injection H as <- _ _.
    intros [].
  - apply bind_Some in H as (ch & Hr & H). destruct (channel_Write ch m0) as [[b|x]| |], err; discriminate.
  - apply bind_Some in H as (ch & Hr & H). by apply bind_Some in H as ([m1 ch'] & Hn & [=]).
  - apply bind_Some in H as (ch & Hr & H). by apply bind_Some in H as (err & _ & [=]).
  - apply bind_Some in H as (ch & Hr & H). apply bind_Some in H as (ch' & Hx & H). by apply Hsil in H.
  - apply bind_Some in H as (ch & Hr & H). unfold channel_Close in H. destruct (ch_done ch); [discriminate|].
    by destruct err.
  - destruct (Session_Close s); done.
Qed.

(** ** The system *)

(** What is on its way from the left side to the channel on the right. *)
Definition in_flight (s : system) : list Msg :=
  in_broker (right s) ++ in_reader (right s) ++ in_wire (to_right s).

Lemma in_wire_app l k : in_wire (l ++ k) = in_wire l ++ in_wire k.
Proof. apply bind_app. Qed.

Lemma in_wire_quiet l : Forall quiet l → in_wire l = [].
Proof.
  induction 1 as [|b l Hb _ IH]; [done|]. unfold in_wire in *. rewrite bind_cons, IH, app_nil_r.
  unfold quiet in Hb. destruct (readHandler b) as [[]|]; try done. naive_solver.
Qed.

Context (same_type : Msg → Msg → Prop) `{!ProtoRoundTrip Msg same_type}.
Context (HP : ∀ m t, RawTypeOf P m = Ret t → ∃ m0, NewMessage P t = (Some m0, None) ∧ same_type m0 m).

(** A written message is what the other side makes of the bytes. *)
Lemma in_wire_written h m b :
  MarshalMessage h m = Ret (inl b) → (ch_id h = c → ch_protocol h = P) →
  in_wire [b] = if decide (ch_id h = c) then [m] else [].
Proof.
  intros Hb Hp. unfold MarshalMessage, Channel.WrapMessage in Hb.
  destruct (Marshal m) as [payload|] eqn:Em; [|discriminate]. destruct (_ >? _); [discriminate|].
  destruct (RawTypeOf (ch_protocol h) m) as [t| |] eqn:Et; [|discriminate..]. simpl in Hb. injection Hb as Hb.
  unfold in_wire. simpl. unfold readHandler, UnmarshalMessage.
  rewrite (unmarshal_marshal (same_type := λ _ _, True) _ (mkMessage None) b Hb I). simpl. rewrite app_nil_r.
  destruct (decide (ch_id h = c)) as [E|]; [|done]. rewrite Hp in Et by done.
  destruct (HP m t Et) as (m0 & -> & Hs). by rewrite (unmarshal_marshal m m0 payload Em Hs).
Qed.

(** The objects of the left side with the id of the channel have its protocol. *)
Definition speaks s : Prop := ∀ i h, handles s !! i = Some h → ch_id h = c → ch_protocol h = P.

Lemma sends_wire s o l : sends s o l → speaks s → in_wire l = written c [o].
Proof.
  intros [(m & h & b & i & -> & -> & Hh & Hb)|[Ho Hl]] Hsp.
  - rewrite (in_wire_written h m b Hb (Hsp i h Hh)). unfold written. simpl. by destruct (decide _).
  - rewrite in_wire_quiet by done. unfold written. destruct o; try done. by destruct (Ho id m).
Qed.

Record system_inv (s : system) : Prop := {
  sy_left : calls_quiet (left s);
  sy_right : session_inv (right s);
  sy_registered : registered (right s)
}.

Lemma system_step_inv e (s s' : system) (ob : observation + observation) :
  system_inv s → calls_quiet (right s) → system_step e s = Some (s', ob) →
  system_inv s' ∧ calls_quiet (right s') ∧ grows (left s) (left s').
Proof.
  intros [Hl Hr Hreg] Hq H. destruct e; cbn [system_step] in H.
  - destruct (is_read e); [done|]. apply bind_Some in H as ([l o'] & H1 & [= <- <-]).
    destruct (step_effect e _ _ _ Hl H1). split_and!; [by split|done|done].
  - destruct (is_read e); [done|]. apply bind_Some in H as ([l o'] & H1 & [= <- <-]).
    destruct (step_effect e _ _ _ Hq H1). split_and!; [split; simpl|done|done].
    + done.
    + by eapply session_step_inv.
    + by eapply registered_grows.
  - destruct (to_left s) as [|b rest]; [done|]. apply bind_Some in H as ([l o'] & H1 & [= <- <-]).
    destruct (step_effect _ _ _ _ Hl H1). split_and!; [by split|done|done].
  - destruct (to_right s) as [|b rest]; [done|]. apply bind_Some in H as ([l o'] & H1 & [= <- <-]).
    destruct (step_effect _ _ _ _ Hq H1). split_and!; [split; simpl|done|done].
    + done.
    + by eapply session_step_inv.
    + by eapply registered_grows.
Qed.

(** One step: what is on its way plus what is written is what is delivered plus
    what is on its way then. *)
Lemma system_step_flight e (s s' : system) (ob : observation + observation) :
  system_inv s → speaks (left s) → system_step e s = Some (s', ob) → ¬ stopped (right s') →
  in_flight s ++ written c (lefts [ob]) = delivered r (rights [ob]) ++ in_flight s'.
Proof.
  intros [Hl Hr Hreg] Hsp H Hrun. unfold in_flight. destruct e; cbn [system_step] in H.
  - destruct (is_read e); [done|]. apply bind_Some in H as ([l o'] & H1 & [= <- <-]).
    destruct (step_effect e _ _ _ Hl H1) as [_ _ (l' & Hs & Hsends)]. simpl.
    unfold output. rewrite Hs, drop_app_length, in_wire_app.
    rewrite (sends_wire _ _ _ Hsends Hsp). by rewrite <- !app_assoc.
  - destruct (is_read e) eqn:Er; [done|]. apply bind_Some in H as ([l o'] & H1 & [= <- <-]). simpl in *.
    pose proof (step_receives e _ _ _ Hr Hreg H1 Hrun) as E.
    replace (if e is ReadConn b then in_wire [b] else []) with (@nil Msg) in E by (by destruct e).
    rewrite app_nil_r in E. by rewrite app_nil_r, !app_assoc, E, <- !app_assoc.
  - destruct (to_left s) as [|b rest]; [done|]. apply bind_Some in H as ([l o'] & H1 & [= <- <-]). cbn [session_step] in H1.
    destruct (reader (left s)); try discriminate. injection H1 as _ <-. simpl. by rewrite app_nil_r.
  - destruct (to_right s) as [|b rest]; [done|]. apply bind_Some in H as ([l o'] & H1 & [= <- <-]).
    pose proof (step_receives (ReadConn b) _ _ _ Hr Hreg H1 Hrun) as E. cbn [right to_right] in E |- *.
    rewrite (in_wire_app [b] rest : in_wire (b :: rest) = _).
    change (written c (lefts [inr o'])) with (@nil Msg). change (rights [inr o']) with [o'].
    rewrite app_nil_r, !app_assoc in *. by rewrite E.
Qed.

#[local] Instance stopped_dec s : Decision (stopped s).
Proof. unfold stopped. destruct (broker s); apply _. Defined.

Lemma system_step_stopped e (s s' : system) (ob : observation + observation) :
  system_step e s = Some (s', ob) →
  (stopped (right s) → stopped (right s')) ∧ (stopped (right s') → delivered r (rights [ob]) = []).
Proof.
  intros H.
  assert (∀ e' s1 o', session_step e' (right s) = Some (s1, o') →
    (stopped (right s) → stopped s1) ∧ (stopped s1 → delivered r [o'] = [])) as Hright.
  { intros e' s1 o' H1. split.
    - intros Hst. destruct (stopped_broker e' _ _ _ H1 Hst) as [E _]. unfold stopped. by rewrite E.
    - intros Hst. apply delivered_silent. intros r' m ->. by eapply delivered_running in H1. }
  destruct e; cbn [system_step] in H.
  - destruct (is_read e); [done|]. by apply bind_Some in H as ([l o'] & H1 & [= <- <-]).
  - destruct (is_read e); [done|]. apply bind_Some in H as ([l o'] & H1 & [= <- <-]). by eapply Hright.
  - destruct (to_left s) as [|b rest]; [done|]. by apply bind_Some in H as ([l o'] & H1 & [= <- <-]).
  - destruct (to_right s) as [|b rest]; [done|]. apply bind_Some in H as ([l o'] & H1 & [= <- <-]). by eapply Hright.
Qed.

(** ** Runs *)

Lemma lefts_cons (ob : observation + observation) os : lefts (ob :: os) = lefts [ob] ++ lefts os.
Proof. by destruct ob. Qed.
Lemma rights_cons (ob : observation + observation) os : rights (ob :: os) = rights [ob] ++ rights os.
Proof. by destruct ob. Qed.

Lemma system_run_grows es (s s' : system) os :
  system_inv s → calls_quiet (right s) → system_run es s = Some (s', os) → grows (left s) (left s').
Proof.
  revert s os. induction es as [|e es IH]; intros s os Hi Hq H; [by injection H as <- _|].
  cbn [system_run] in H. apply bind_Some in H as ([s1 ob] & H1 & H).
  apply bind_Some in H as ([s2 os'] & H2 & [= <- _]).
  destruct (system_step_inv e s s1 ob Hi Hq H1) as (Hi1 & Hq1 & Hg).
  eapply grows_trans; [exact Hg|]. by eapply IH.
Qed.

Lemma system_run_stopped es (s s' : system) os :
  stopped (right s) → system_run es s = Some (s', os) →
  stopped (right s') ∧ delivered r (rights os) = [].
Proof.
  revert s os. induction es as [|e es IH]; intros s os Hst H; [by injection H as <- <-|].
  cbn [system_run] in H. apply bind_Some in H as ([s1 ob] & H1 & H).
  apply bind_Some in H as ([s2 os'] & H2 & [= <- <-]).
  destruct (system_step_stopped e s s1 ob H1) as [Hst1 Hd].
  destruct (IH s1 os' (Hst1 Hst) H2) as [Hst2 Hd']. split; [done|].
  rewrite rights_cons. unfold delivered in *. by rewrite omap_app, Hd, Hd' by auto.
Qed.

Lemma system_run_flight es (s s' : system) os :
  system_inv s → calls_quiet (right s) → system_run es s = Some (s', os) → speaks (left s') →
  ∃ rest, in_flight s ++ written c (lefts os) = delivered r (rights os) ++ rest ∧
    (¬ stopped (right s') → rest = in_flight s').
Proof.
  revert s os. induction es as [|e es IH]; intros s os Hi Hq H Hsp.
  { injection H as <- <-. exists (in_flight s). split; [apply app_nil_r|done]. }
  pose proof (system_run_grows _ _ _ _ Hi Hq H) as Hg.
  cbn [system_run] in H. apply bind_Some in H as ([s1 ob] & H1 & H).
  apply bind_Some in H as ([s2 os'] & H2 & [= <- <-]).
  destruct (system_step_inv e s s1 ob Hi Hq H1) as (Hi1 & Hq1 & _).
  rewrite lefts_cons, rights_cons. unfold written, delivered. rewrite !omap_app.
  fold (written c (lefts [ob])) (written c (lefts os')) (delivered r (rights [ob])) (delivered r (rights os')).
  destruct (decide (stopped (right s1))) as [Hst|Hrun].
  - destruct (system_run_stopped es s1 s2 os' Hst H2) as [Hst2 ->].
    rewrite (proj2 (system_step_stopped e s s1 ob H1) Hst). eexists. split; [reflexivity|]. done.
  - destruct (IH s1 os' Hi1 Hq1 H2 Hsp) as (rest & E & Hrest). exists rest. split; [|done].
    assert (speaks (left s)) as Hsp0 by (intros i h Hh; apply (Hsp i), Hg, Hh).
    pose proof (system_step_flight e s s1 ob Hi Hsp0 H1 Hrun) as Estep.
    by rewrite app_assoc, Estep, <- !app_assoc, E.
Qed.

Lemma system_run_fifo es (s s' : system) os :
  system_run es s = Some (s', os) →
  queue_of (right s) r ++ delivered r (rights os) = taken r (rights os) ++ queue_of (right s') r.
Proof.
  revert s os. induction es as [|e es IH]; intros s os H; [injection H as <- <-; apply app_nil_r|].
  cbn [system_run] in H. apply bind_Some in H as ([s1 ob] & H1 & H).
  apply bind_Some in H as ([s2 os'] & H2 & [= <- <-]). rewrite rights_cons.
  assert (queue_of (right s) r ++ delivered r (rights [ob]) = taken r (rights [ob]) ++ queue_of (right s1) r) as E.
  { destruct e; cbn [system_step] in H1.
    - destruct (is_read e); [done|]. apply bind_Some in H1 as ([l o'] & H1 & [= <- <-]). apply app_nil_r.
    - destruct (is_read e); [done|]. apply bind_Some in H1 as ([l o'] & H1 & [= <- <-]). by eapply session_step_fifo.
    - destruct (to_left s) as [|b rest]; [done|]. apply bind_Some in H1 as ([l o'] & H1 & [= <- <-]). apply app_nil_r.
    - destruct (to_right s) as [|b rest]; [done|]. apply bind_Some in H1 as ([l o'] & H1 & [= <- <-]). by eapply session_step_fifo. }
  specialize (IH s1 os' H2). unfold delivered, taken in *.
  by rewrite !omap_app, app_assoc, E, <- !app_assoc, IH.
Qed.
End Receiver.

Lemma reachable_inv es (s : system) os :
  system_run es NewSystem = Some (s, os) →
  calls_quiet (left s) ∧ calls_quiet (right s) ∧ session_inv (right s).
Proof.
  assert (∀ s0 : system, calls_quiet (left s0) ∧ calls_quiet (right s0) ∧ session_inv (right s0) →
    system_run es s0 = Some (s, os) → calls_quiet (left s) ∧ calls_quiet (right s) ∧ session_inv (right s)) as Hgen.
  { revert os. induction es as [|e es IH]; intros os s0 (Hl & Hr & Hi) H; [by injection H as <- _|].
    cbn [system_run] in H. apply bind_Some in H as ([s1 ob] & H1 & H).
    apply bind_Some in H as ([s2 os'] & H2 & [= <- _]). eapply IH; [|exact H2].
    destruct e; cbn [system_step] in H1.
    - destruct (is_read e); [done|]. apply bind_Some in H1 as ([l o'] & H1 & [= <- <-]).
      by destruct (step_effect e _ _ _ Hl H1).
    - destruct (is_read e); [done|]. apply bind_Some in H1 as ([l o'] & H1 & [= <- <-]).
      destruct (step_effect e _ _ _ Hr H1). split_and!; [done|done|]. by eapply session_step_inv.
    - destruct (to_left s0) as [|b rest]; [done|]. apply bind_Some in H1 as ([l o'] & H1 & [= <- <-]).
      by destruct (step_effect _ _ _ _ Hl H1).
    - destruct (to_right s0) as [|b rest]; [done|]. apply bind_Some in H1 as ([l o'] & H1 & [= <- <-]).
      destruct (step_effect _ _ _ _ Hr H1). split_and!; [done|done|]. by eapply session_step_inv. }
  apply Hgen. split_and!; [constructor|constructor|apply NewSession_inv].
Qed.
End System.
Arguments system Msg : clear implicits.

(** ** Properties *)

(** C6: a channel is reliable from end to end.  Two sessions are connected to
    each other and run in any interleaving.  From any point on at which the
    right side has registered a channel, with nothing queued and nothing on its
    way to it, the messages that calls of [channel.Write] put on the channel on
    the left are, in this order, the ones that calls of [channel.Read] got on
    the right, the ones in the queue of the channel and the rest; unless the
    broker of the right side has ended the rest is exactly what is still on its
    way.  So nothing is lost, duplicated, reordered or taken from another
    channel. *)
Theorem session_end_to_end {Msg} `{!ProtoMessage Message} `{!ProtoMessage Msg}
    `{!ProtoRoundTrip Message (λ _ _, True)} (same_type : Msg → Msg → Prop)
    `{!ProtoRoundTrip Msg same_type}
    (es es' : list system_event) (s s' : system Msg) (os os' : list (observation + observation))
    (c : Z) (r : nat) (ch : channel Msg) :
  readHandler [] = None →
  (∀ m t, RawTypeOf (ch_protocol (handle ch)) m = Ret t →
     ∃ m0, NewMessage (ch_protocol (handle ch)) t = (Some m0, None) ∧ same_type m0 m) →
  system_run es NewSystem = Some (s, os) →
  channels (right s) !! c = Some r → objects (right s) !! r = Some ch →
  in_flight c r (ch_protocol (handle ch)) s = [] → queue_of (right s) r = [] →
  system_run es' s = Some (s', os') →
  (∀ i ch', objects (left s') !! i = Some ch' → ch_id (handle ch') = c →
     ch_protocol (handle ch') = ch_protocol (handle ch)) →
  ∃ rest, written c (lefts os') = taken r (rights os') ++ queue_of (right s') r ++ rest ∧
    (¬ stopped (right s') → rest = in_flight c r (ch_protocol (handle ch)) s').
Proof.
  intros Hempty HP Hreach Hc Hr Hflight Hqueue Hrun Hleft.
  destruct (reachable_inv Hempty es s os Hreach) as (Hql & Hqr & Hi).
  assert (registered c r (ch_protocol (handle ch)) (right s)) as Hreg.
  { split; [done|]. exists (handle ch). split; [|done]. unfold handles. by rewrite list_lookup_fmap, Hr. }
  assert (speaks c (ch_protocol (handle ch)) (left s')) as Hsp.
  { intros i h Hh. unfold handles in Hh. rewrite list_lookup_fmap in Hh.
    destruct (objects (left s') !! i) as [ch'|] eqn:Ei; [|done]. injection Hh as <-. by eapply Hleft. }
  destruct (system_run_flight Hempty c r _ same_type HP es' s s' os' (Build_system_inv _ _ _ _ Hql Hi Hreg) Hqr Hrun Hsp)
    as (rest & E & Hrest).
  exists rest. split; [|done]. pose proof (system_run_fifo r es' s s' os' Hrun) as Hf.
  rewrite Hflight in E. rewrite Hqueue in Hf. simpl in E, Hf. by rewrite E, Hf, <- app_assoc.
Qed.

(** ** A run of two sessions

    The encoding fails for the message by which the largest payload is found,
    so that the model can be run. *)
Definition demo_proto : ProtoMessage Message := {|
  Marshal m :=
    match content m with
    | Some (Data id _ _) => if id =? 2 ^ 64 - 1 then inr EOF else Marshal (ProtoMessage := bits_proto) m
    | _ => Marshal (ProtoMessage := bits_proto) m
    end;
  Unmarshal := Unmarshal (ProtoMessage := bits_proto)
|}.

Lemma demo_roundtrip : @ProtoRoundTrip Message demo_proto (λ _ _, True).
Proof.
  intros m m0 b Hb _. apply (bits_roundtrip (λ _ _, True)); [|done]. simpl in Hb.
  destruct (content m) as [[]|]; try done. by destruct (channel_id =? _).
Qed.

(** The right side accepts the channel that the left side opens. *)
Definition demo_open_channel : list (@system_event Z) :=
  [RightStep (StartAccept demo_numbers); RightStep (StepCall 0 None);
   LeftStep (StartOpen demo_numbers); LeftStep (StepCall 0 None); LeftStep (StepCall 0 None);
   RightReads; RightStep TakeRead; RightStep (StepCall 0 None); RightStep (StepCall 0 None);
   RightStep (StepCall 0 None);
   LeftReads; LeftStep TakeRead; LeftStep (StepCall 0 None); LeftStep (StepCall 0 None)].

(** The left side writes 7, 8 and 9; one message is read on the right, one is in
    the queue and one on its way. *)
Definition demo_messages : list (@system_event Z) :=
  [LeftStep (WriteChannel 0 7 None); LeftStep (WriteChannel 0 8 None); RightReads;
   LeftStep (WriteChannel 0 9 None); RightStep TakeRead; RightReads; RightStep Deliver; RightStep (ReadChannel 0);
   RightStep TakeRead; RightStep Deliver; RightReads].

Definition demo_system_run (es : list (@system_event Z)) (s : system Z) :
  option (system Z * list (@observation Z + @observation Z)) :=
  @system_run Z demo_proto bits_proto es s.
Definition demo_possible (es : list (@system_event Z)) (s : system Z) : bool :=
  if demo_system_run es s is Some _ then true else false.
Definition demo_after (es : list (@system_event Z)) (s : system Z) :
  system Z * list (@observation Z + @observation Z) :=
  default (NewSystem, []) (demo_system_run es s).

Lemma demo_possible_run es s :
  demo_possible es s = true → @system_run Z demo_proto bits_proto es s = Some ((demo_after es s).1, (demo_after es s).2).
Proof.
  unfold demo_possible, demo_after. change (@system_run Z demo_proto bits_proto es s) with (demo_system_run es s).
  by destruct (demo_system_run es s) as [[]|].
Qed.

Definition demo_opened : system Z := (demo_after demo_open_channel NewSystem).1.
Definition demo_end : system Z * list (@observation Z + @observation Z) := demo_after demo_messages demo_opened.
Definition demo_channel : channel Z := mkChannel (mkChannelHandle demo_numbers 1) [] false true.

Lemma demo_opens : demo_possible demo_open_channel NewSystem = true.
Proof. vm_compute. reflexivity. Qed.
Lemma demo_sends : demo_possible demo_messages demo_opened = true.
Proof. vm_compute. reflexivity. Qed.
Lemma demo_left_objects : objects (left demo_end.1) = [demo_channel].
Proof. vm_compute. reflexivity. Qed.

Lemma session_end_to_end_witness :
  ∃ rest, written 1 (lefts demo_end.2) = taken 0 (rights demo_end.2) ++ queue_of (right demo_end.1) 0 ++ rest ∧
    rest = @in_flight Z demo_proto bits_proto 1 0 demo_numbers demo_end.1.
Proof.
  destruct (@session_end_to_end Z demo_proto bits_proto demo_roundtrip (λ _ _, True) (bits_roundtrip _)
    demo_open_channel demo_messages demo_opened demo_end.1 (demo_after demo_open_channel NewSystem).2 demo_end.2
    1 0 demo_channel) as (rest & E & Hrest).
  - vm_compute. reflexivity.
  - intros m t _. exists 0. split; [reflexivity|exact I].
  - exact (demo_possible_run demo_open_channel NewSystem demo_opens).
  - vm_compute. reflexivity.
  - vm_compute. reflexivity.
  - vm_compute. reflexivity.
  - vm_compute. reflexivity.
  - exact (demo_possible_run demo_messages demo_opened demo_sends).
  - rewrite demo_left_objects. intros [|[|i]] ch' Hi _; [|discriminate Hi..]. by injection Hi as <-.
  - exists rest. split; [exact E|]. apply Hrest. vm_compute. exact (λ H, H).
Defined.
