(* ===== verification/SecureSession.v ===== *)
(** * SecureSession: two sessions over an encrypted connection

    [SessionSystem] hands the messages that one session writes to the other one
    by one.  Here both sessions have the encrypted connection that they are made
    for: every write of a session is a [Write] of its [noiseConn], the connection
    carries bytes, and [readHandler] calls the [Read] of its [noiseConn] on bytes
    that arrive in segments.  The file shows that the executions are those of
    [SessionSystem] that respect a connection ([connected_run]): what is proved of
    the executions of [SessionSystem] holds of these, too, and the other way round
    whatever the connection lets two sessions do, closing included, can happen. *)

From S2P Require Import Prelude GoSem Packet Automaton Protocol Secure Channel Session SessionSystem.

Local Open Scope Z_scope.

(** ** The bytes from one side to the other *)

(** What one side has sent and the other has not read; the side that sends may
    have closed the connection. *)
Record pipe : Type := mkPipe { shut : bool; flying : bytes }.

#[export] Instance pipe_io_Writer : io_Writer pipe := λ p w,
  if shut w then (Ret (0, Some net_ErrClosed), w)
  else (Ret (zlen p, None), mkPipe false (flying w ++ p)).

(** How the bytes on the connection may arrive: in segments, with the first
    length field in one piece. *)
Definition arrives (segs : list bytes) (d : bytes) : Prop :=
  Forall (λ x, x ≠ []) segs ∧ 2 ≤ zlen (hd [] segs) ∧ concat segs = d.

#[export] Instance arrives_dec segs d : Decision (arrives segs d).
Proof. unfold arrives. apply _. Defined.

(** ** One side *)
Section Side.
Context {Msg K : Type} `{!ProtoMessage Message} `{!ProtoMessage Msg} `{!CipherState K}.

(** The event with the given result of its [conn.Write], if it has one. *)
Definition with_result (err : option error) (e : @session_event Msg) : session_event :=
  match e with
  | StepCall i _ => StepCall i err
  | WriteChannel r m _ => WriteChannel r m err
  | CloseChannel r _ => CloseChannel r err
  | e => e
  end.

Record side : Type := mkSide {
  sess : session Msg;
  me : bytes;
  peer : bytes;
  wcipher : K;
  rcipher : K;
  out : bytes
}.

(** A step of the session: what it writes goes through [Write] of the encrypted
    connection, whose error the session gets. *)
Definition side_step (e : @session_event Msg) (x : side) : option (side * observation) :=
  '(s, o) ← session_step (with_result None e) (sess x);
  match WriteAll (output (sess x) s)
          (WrapConn (me x) (peer x) (mkPipe (closed (sess x)) (out x)) (wcipher x) (rcipher x)) with
  | (Ret None, c) =>
      Some (mkSide s (me x) (peer x) (writeCipher c) (rcipher x) (flying (Conn c)), o)
  | (Ret (Some err), c) =>
      '(s, o) ← session_step (with_result (Some err) e) (sess x);
      Some (mkSide s (me x) (peer x) (writeCipher c) (rcipher x) (flying (Conn c)), o)
  | _ => None
  end.

(** [readHandler] reads a message into its buffer of [MessageMaxSize] bytes from
    the bytes [d], which arrive as [segs]; what is not read stays on the
    connection.  [text] is the text of an error that comes from other code. *)
Definition side_read (segs : list bytes) (text : string) (d : bytes) (x : side)
  : option (side * bytes * observation) :=
  if closed (sess x) || negb (bool_decide (arrives segs d)) then None
  else
    let next e (c : noiseConn segments K) :=
      '(s, o) ← session_step e (sess x);
      Some (mkSide s (me x) (peer x) (wcipher x) (readCipher c) (out x), concat (GoSem.segs (Conn c)), o) in
    match Read MessageMaxSize MessageMaxSize
            (WrapConn (me x) (peer x) (Segments segs) (wcipher x) (rcipher x)) with
    | (Ret (p, None), c) => next (ReadConn p) c
    | (Ret (_, Some err), c) => next (ReadConnError err text) c
    | _ => None
    end.
End Side.
Arguments side : clear implicits.
Arguments mkSide {Msg K} _ _ _ _ _ _.
Arguments sess {Msg K} _.
Arguments me {Msg K} _.
Arguments peer {Msg K} _.
Arguments wcipher {Msg K} _.
Arguments rcipher {Msg K} _.
Arguments out {Msg K} _.

(** ** Both sides *)
Section System.
Context {Msg K : Type} `{!ProtoMessage Message} `{!ProtoMessage Msg} `{!CipherState K}.

(** The bytes that fly to a side are the [out] of the other one. *)
Record secure_system : Type := mkSecure {
  s_left : side Msg K;
  s_right : side Msg K
}.

Inductive secure_event : Type :=
| SecureLeft (e : @session_event Msg)
| SecureRight (e : @session_event Msg)
| SecureLeftReads (segs : list bytes) (text : string)
| SecureRightReads (segs : list bytes) (text : string).

Definition set_out (d : bytes) (x : side Msg K) : side Msg K :=
  mkSide (sess x) (me x) (peer x) (wcipher x) (rcipher x) d.

(** What a session reads is given by the connection; reading fails on its own
    account only when a side has closed the connection. *)
Definition allowed (net : secure_system) (e : @session_event Msg) : bool :=
  match e with
  | ReadConn _ => false
  | ReadConnError _ _ => closed (sess (s_left net)) || closed (sess (s_right net))
  | _ => true
  end.

Definition secure_step (e : secure_event) (net : secure_system)
  : option (secure_system * (@observation Msg + @observation Msg)) :=
  match e with
  | SecureLeft e =>
      if allowed net e then
        '(x, o) ← side_step e (s_left net); Some (mkSecure x (s_right net), inl o)
      else None
  | SecureRight e =>
      if allowed net e then
        '(x, o) ← side_step e (s_right net); Some (mkSecure (s_left net) x, inr o)
      else None
  | SecureLeftReads segs text =>
      '(x, d, o) ← side_read segs text (out (s_right net)) (s_left net);
      Some (mkSecure x (set_out d (s_right net)), inl o)
  | SecureRightReads segs text =>
      '(x, d, o) ← side_read segs text (out (s_left net)) (s_right net);
      Some (mkSecure (set_out d (s_left net)) x, inr o)
  end.

Fixpoint secure_run (es : list secure_event) (net : secure_system)
  : option (secure_system * list (@observation Msg + @observation Msg)) :=
  match es with
  | [] => Some (net, [])
  | e :: es =>
      '(net, o) ← secure_step e net;
      '(net, os) ← secure_run es net;
      Some (net, o :: os)
  end.

(** [NewSession] on an encrypted connection; nothing was sent on it so far. *)
Definition session_over {C} (conn : noiseConn C K) (initiator : bool) : side Msg K :=
  mkSide (NewSession initiator) (identity_ conn) (peerIdentity conn) (writeCipher conn) (readCipher conn) [].

(** Two fresh sessions on the two ends of an encrypted connection. *)
Definition NewSecure {C D} (na : noiseConn C K) (nb : noiseConn D K) : secure_system :=
  mkSecure (session_over na true) (session_over nb false).
End System.
Arguments secure_system : clear implicits.
Arguments secure_event : clear implicits.

(** ** What a step writes *)
Section Output.
Context {Msg : Type} `{!ProtoMessage Message} `{!ProtoMessage Msg}.
Implicit Types (s : session Msg) (o : @observation Msg) (e : @session_event Msg).

Definition writes (e : @session_event Msg) : bool :=
  match e with
  | StepCall _ None | WriteChannel _ _ None | CloseChannel _ None => true
  | _ => false
  end.

(** A step writes at most one message, and only [session.Close] and the broker
    close the connection. *)
Record step_shape e s s' : Prop := {
  sh_sent : ∃ l, sent s' = sent s ++ l ∧ (length l ≤ if writes e then 1 else 0)%nat;
  sh_closed : e ≠ ExitBroker → e ≠ CloseConn → closed s' = closed s;
  sh_open : closed s' = false → closed s = false
}.

Lemma shape_same e s s' : sent s' = sent s → closed s' = closed s → step_shape e s s'.
Proof.
  intros H1 H2. split; [|done|by rewrite H2]. exists []. rewrite app_nil_r. split; [done|]. simpl. lia.
Qed.

Lemma shape_send e s s' b : writes e = true → sent s' = sent s ++ [b] → closed s' = closed s → step_shape e s s'.
Proof. intros He H1 H2. split; [|done|by rewrite H2]. exists [b]. rewrite He. by split. Qed.

Lemma shape_receive e ev s s' : broker_receive ev s = Some s' → step_shape e s s'.
Proof.
  unfold broker_receive. destruct (broker s); intros [= <-].
  apply shape_same; [apply sent_broker_case|]. destruct ev; simpl; by repeat case_match.
Qed.

Lemma shape_set_call e i x s s' : step_shape e s s' → step_shape e s (set_call i x s').
Proof. by intros [H1 H2 H3]. Qed.

Lemma call_step_shape i err s s' : call_step i err s = Some s' → step_shape (StepCall i err) s s'.
Proof.
  intros (x & _ & H)%bind_Some. destruct x as [h b|h b|h|p|p|h b|r|y]; simpl in H.
  - apply bind_Some in H as (s1 & H1 & [= <-]). by eapply shape_set_call, shape_receive.
  - destruct err; injection H as <-; [by apply shape_same|by apply (shape_send _ _ _ b)].
  - case_bool_decide; [|discriminate]. injection H as <-. by apply shape_same.
  - apply bind_Some in H as (s1 & H1 & [= <-]). by eapply shape_set_call, shape_receive.
  - destruct (broker s); try discriminate. case_bool_decide; [|discriminate]. injection H as <-. by apply shape_same.
  - destruct err; injection H as <-; [by apply shape_same|by apply (shape_send _ _ _ b)].
  - apply bind_Some in H as (s1 & H1 & [= <-]). by eapply shape_set_call, shape_receive.
  - discriminate.
Qed.

Lemma step_has_shape e s s' o : session_step e s = Some (s', o) → step_shape e s s'.
Proof.
  intros H. assert (∀ x, silent x = Some (s', o) → x = Some s') as Hsil.
  { intros [s1|] Hx; [|discriminate]. by injection Hx as <- <-. }
  destruct e; cbn [session_step] in H.
  - destruct (reader s); try discriminate. apply Hsil in H as [= <-]. by apply shape_same.
  - destruct (reader s); try discriminate. apply Hsil in H as [= <-]. by apply shape_same.
  - destruct (reader s); try discriminate. apply Hsil, (shape_receive TakeRead) in H.
    destruct H as [H1 H2 H3]. by split.
  - apply Hsil in H as [= <-]. by apply shape_same.
  - apply Hsil in H as [= <-]. by apply shape_same.
  - by apply Hsil, call_step_shape in H.
  - apply Hsil in H. unfold call_done in H. apply shape_same; by repeat case_match; simplify_eq.
  - destruct (broker s); try discriminate. apply bind_Some in H as (ch & _ & H).
    apply bind_Some in H as (ch' & _ & [= <- <-]). by apply shape_same.
  - apply bind_Some in H as (ch & _ & H).
    destruct (channel_Write ch m) as [[b|x]| |], err; try discriminate; injection H as <- <-;
      first [by apply shape_same|by eapply shape_send].
  - apply bind_Some in H as (ch & _ & H). apply bind_Some in H as ([m ch'] & _ & [= <- <-]). by apply shape_same.
  - apply bind_Some in H as (ch & _ & H). apply bind_Some in H as (err & _ & [= <- <-]). by apply shape_same.
  - apply bind_Some in H as (ch & _ & H). apply bind_Some in H as (ch' & _ & H). apply Hsil in H as [= <-].
    by apply shape_same.
  - apply bind_Some in H as (ch & _ & H). destruct (channel_Close ch); try discriminate.
    destruct err; injection H as <- <-; [by apply shape_same|]. by eapply shape_send.
  - unfold Session_Close in H. destruct (done s); [discriminate|]. apply Hsil in H as [= <-].
    by apply shape_same.
  - apply Hsil, broker_exit_inv in H as (_ & c & -> & Hc). split; [|done|].
    + exists []. rewrite app_nil_r. split; [done|]. simpl. lia.
    + simpl. intros ->. destruct (closed s); [by specialize (Hc eq_refl)|done].
  - apply Hsil, Session_CloseConn_inv in H as (p & ->). split; [|done|done].
    exists []. rewrite app_nil_r. split; [done|]. simpl. lia.
Qed.

Lemma writes_error err e : writes (with_result (Some err) e) = false.
Proof. by destruct e. Qed.
Lemma is_read_with_result err e : is_read (with_result err e) = is_read e.
Proof. by destruct e. Qed.

(** A step whose write fails puts nothing on the connection. *)
Lemma output_failed err e s s' o :
  session_step (with_result (Some err) e) s = Some (s', o) → output s s' = [].
Proof.
  intros [(l & Hl & Hn) _ _]%step_has_shape. rewrite writes_error in Hn. destruct l; [|simpl in Hn; lia].
  unfold output. by rewrite Hl, drop_app_length.
Qed.

Lemma output_length e s s' o :
  session_step e s = Some (s', o) → (length (output s s') ≤ if writes e then 1 else 0)%nat.
Proof. intros [(l & Hl & Hn) _ _]%step_has_shape. unfold output. by rewrite Hl, drop_app_length. Qed.
End Output.

(** ** What the connection lets two sessions do

    The executions over queues of messages that respect what the encrypted
    connection does: the result of a write is not arbitrary, a session that has
    closed the connection reads nothing more from it, and reading fails only
    when a side has closed it. *)
Section Connected.
Context {Msg : Type} `{!ProtoMessage Message} `{!ProtoMessage Msg}.
Implicit Types (sys : system Msg) (s : session Msg).

(** The result of writing what a step writes, to a connection that its own side
    has closed or not. *)
Definition write_result (ended : bool) (l : list bytes) : option error :=
  match l with
  | [] => None
  | p :: _ =>
      if bool_decide (Secure.sendable p) then if ended then Some net_ErrClosed else None
      else Some MessageTooLong
  end.

Definition resulting (e : @session_event Msg) s : option session_event :=
  '(s', _) ← session_step (with_result None e) s;
  Some (with_result (write_result (closed s) (output s s')) e).

Definition may_happen sys (e : @session_event Msg) : bool :=
  match e with
  | ReadConn _ => false
  | ReadConnError _ _ => closed (left sys) || closed (right sys)
  | _ => true
  end.

Definition connected_event (e : @system_event Msg) sys : option system_event :=
  match e with
  | LeftStep e => if may_happen sys e then LeftStep <$> resulting e (left sys) else None
  | RightStep e => if may_happen sys e then RightStep <$> resulting e (right sys) else None
  | LeftReads => if closed (left sys) then None else Some LeftReads
  | RightReads => if closed (right sys) then None else Some RightReads
  end.

Definition connected_step (e : @system_event Msg) sys : option (system Msg * (@observation Msg + @observation Msg)) :=
  e ← connected_event e sys; SessionSystem.system_step e sys.

Fixpoint connected_run (es : list system_event) sys
  : option (system Msg * list (@observation Msg + @observation Msg)) :=
  match es with
  | [] => Some (sys, [])
  | e :: es =>
      '(sys, o) ← connected_step e sys;
      '(sys, os) ← connected_run es sys;
      Some (sys, o :: os)
  end.

Lemma connected_run_system es : ∀ sys sys' os,
  connected_run es sys = Some (sys', os) → ∃ es', SessionSystem.system_run es' sys = Some (sys', os).
Proof.
  induction es as [|e es IH]; intros sys sys' os Hr; simpl in Hr; [injection Hr as <- <-; by exists []|].
  apply bind_Some in Hr as ([s1 o1] & (e' & _ & H1)%bind_Some & Hr).
  apply bind_Some in Hr as ([s2 o2] & H2 & [= <- <-]). destruct (IH _ _ _ H2) as [es' H3].
  exists (e' :: es'). simpl. rewrite H1. simpl. by rewrite H3.
Qed.

Lemma with_result_twice err err' (e : @session_event Msg) : with_result err (with_result err' e) = with_result err e.
Proof. by destruct e. Qed.

Lemma resulting_inv e s e' : resulting e s = Some e' → ∃ err, e' = with_result err e.
Proof. unfold resulting. destruct (session_step _ s) as [[s' o]|]; [|done]. intros [= <-]. by eexists. Qed.

Lemma resulting_result err e s : resulting (with_result err e) s = resulting e s.
Proof.
  unfold resulting. rewrite with_result_twice. destruct (session_step _ s) as [[s' o]|]; [|done]. simpl.
  by rewrite with_result_twice.
Qed.
Lemma may_happen_result err sys e : may_happen sys (with_result err e) = may_happen sys e.
Proof. by destruct e. Qed.
Lemma may_happen_is_read sys e : may_happen sys e = true → is_read e = false.
Proof. by destruct e. Qed.
End Connected.

(** ** One direction of the connection *)
Section Direction.
Context {K : Type} `{NoiseCipher K}.
Implicit Types (kw kr kx : K) (d p : bytes) (ps cts : list bytes) (id : bytes).

(** The reading cipher state gives the payloads [ps] for the messages [cts]. *)
Inductive decrypts : K → list bytes → list bytes → K → Prop :=
| decrypts_nil kr : decrypts kr [] [] kr
| decrypts_cons kr kr1 kr2 ct p cts ps :
    Decrypt [] (Length_Bytes (zlen ct)) ct kr = (Ret (p, None), kr1) →
    zlen ct = MessageSize (zlen p) → Secure.sendable p →
    decrypts kr1 cts ps kr2 → decrypts kr (ct :: cts) (p :: ps) kr2.

Lemma decrypts_app kr cts ps kr1 cts' ps' kr2 :
  decrypts kr cts ps kr1 → decrypts kr1 cts' ps' kr2 → decrypts kr (cts ++ cts') (ps ++ ps') kr2.
Proof. induction 1; simpl; [done|]. intros. econstructor; eauto. Qed.

(** The bytes [d] carry the payloads [ps] from a side with the cipher state [kw]
    to one with [kr], and [n] more can be encrypted; when the writing side has
    closed the connection, they do not get to the other one. *)
Definition carries (n : nat) (ended : bool) kw kr d ps : Prop :=
  ∃ cts kr', d = wire_all cts ∧ decrypts kr cts ps kr' ∧
    ∃ n' kr'', (n ≤ n')%nat ∧ in_sync n' kw kr'' ∧ (ended = false → kr'' = kr').

Lemma carries_nil n kw kr : in_sync n kw kr → carries n false kw kr [] [].
Proof. intros Hs. exists [], kr. split_and!; [done|constructor|]. exists n, kr. done. Qed.

Lemma carries_le n n' ended ended' kw kr d ps :
  carries n ended kw kr d ps → (n' ≤ n)%nat → (ended' = false → ended = false) →
  carries n' ended' kw kr d ps.
Proof.
  intros (cts & kr' & H1 & H2 & n2 & kr'' & H3 & H4 & H5) Hle Hc. exists cts, kr'. split_and!; [done|done|].
  exists n2, kr''. split_and!; [lia|done|auto].
Qed.

(** [Write] on an open connection: the payload is on its way, or it was too long
    and nothing has happened. *)
Lemma carries_write n id1 id2 kw kr kx d ps p :
  carries (S n) false kw kr d ps → Secure.sendable p →
  ∃ d' kw', Write p (mkConn id1 id2 (mkPipe false d) kw kx) =
      (Ret (zlen p, None), mkConn id1 id2 (mkPipe false d') kw' kx) ∧
    carries n false kw' kr d' (ps ++ [p]).
Proof.
  intros (cts & kr' & -> & Hd & [|n'] & kr'' & Hn & Hsync & E) Hp; [lia|]. specialize (E eq_refl) as ->.
  set (lb := Length_Bytes (MessageSize (zlen p))).
  destruct (encrypt_decrypt n' kw kr' lb lb p Hsync) as (ct & kw' & kr1 & HE & Hct & HD & Hs').
  assert (zlen ct = MessageSize (zlen p)) as Hsz by done. unfold lb in *. rewrite <- Hsz in *.
  exists (wire_all cts ++ wire ct), kw'. split; [by eapply Write_steps|].
  exists (cts ++ [ct]), kr1. split_and!.
  - unfold wire_all. rewrite fmap_app, concat_app. simpl. by rewrite app_nil_r.
  - eapply decrypts_app; [exact Hd|]. econstructor; [done..|constructor].
  - exists n', kr1. split_and!; [lia|done|done].
Qed.

Lemma write_too_long {C} `{!io_Writer C} p (c : noiseConn C K) :
  ¬ Secure.sendable p → Write p c = (Ret (0, Some MessageTooLong), c).
Proof.
  intros Hp. unfold Write. unfold Secure.sendable, PayloadMaxSize in Hp. unfold MessageSize.
  rewrite Z.gtb_ltb. by zcond.
Qed.

(** [Write] on a connection that its own side has closed fails; the cipher state
    has moved on. *)
Lemma write_shut n p id1 id2 d kw kr kx :
  in_sync (S n) kw kr → Secure.sendable p →
  ∃ kw' kr', Write p (mkConn id1 id2 (mkPipe true d) kw kx) =
      (Ret (0, Some net_ErrClosed), mkConn id1 id2 (mkPipe true d) kw' kx) ∧ in_sync n kw' kr'.
Proof.
  intros Hs Hp. set (lb := Length_Bytes (MessageSize (zlen p))).
  destruct (encrypt_decrypt n kw kr lb lb p Hs) as (ct & kw' & kr' & HE & Hct & _ & Hs').
  assert (zlen ct = MessageSize (zlen p)) as Hsz by done. exists kw', kr'. split; [|done].
  unfold Secure.sendable, PayloadMaxSize in Hp. rewrite MessageMaxSize_eq in Hp.
  unfold Write. rewrite MessageMaxSize_eq. unfold MessageSize, TagSize in *. rewrite Z.gtb_ltb. zcond.
  erewrite bind_Ret by (apply zoom_eq; exact HE). cbv beta iota.
  rewrite zlen_app. fold lb. by replace (zlen lb + zlen ct - zlen lb =? zlen p + 16) with true by lia.
Qed.

(** What a step writes, one message at most, gets the result of the connection;
    it is on its way when the write succeeds. *)
Lemma write_all_result n k ended id1 id2 kw kr kx d ps l :
  carries (k + n) ended kw kr d ps → (length l ≤ k ≤ 1)%nat →
  ∃ c, WriteAll l (mkConn id1 id2 (mkPipe ended d) kw kx) = (Ret (write_result ended l), c) ∧
    carries n ended (writeCipher c) kr (flying (Conn c))
      (match write_result ended l with None => ps ++ l | Some _ => ps end).
Proof.
  intros Hc Hl. destruct l as [|p [|]]; [| |simpl in Hl; lia]; cbn [length WriteAll write_result] in *.
  { eexists. split; [done|]. rewrite app_nil_r. eapply carries_le; [exact Hc|lia|done]. }
  replace k with 1%nat in Hc by lia. case_bool_decide as Hp.
  - destruct ended.
    + destruct Hc as (cts & kr' & Hd & Hdec & [|n'] & kr'' & Hn & Hs & _); [lia|].
      destruct (write_shut n' p id1 id2 d kw kr'' kx Hs Hp) as (kw' & kr1 & HW & Hs').
      eexists. split; [by erewrite bind_Ret by exact HW|]. simpl.
      exists cts, kr'. split_and!; [done|done|]. exists n', kr1. split_and!; [lia|done|done].
    + destruct (carries_write n id1 id2 kw kr kx d ps p Hc Hp) as (d' & kw' & HW & Hc').
      eexists. split; [by erewrite bind_Ret by exact HW|done].
  - eexists. split; [erewrite bind_Ret by (by apply write_too_long); done|].
    eapply carries_le; [exact Hc|lia|done].
Qed.

(** [Read] gives the next payload, in whatever segments the bytes arrive. *)
Lemma carries_read n ended id1 id2 kw kr kx d ps segs :
  carries n ended kw kr d ps → arrives segs d →
  ∃ p ps' c, ps = p :: ps' ∧
    Read MessageMaxSize MessageMaxSize (mkConn id1 id2 (Segments segs) kx kr) = (Ret (p, None), c) ∧
    carries n ended kw (readCipher c) (concat (GoSem.segs (Conn c))) ps'.
Proof.
  intros (cts & kr' & -> & Hd & Hs) (Hne & Hhd & Hcat).
  destruct segs as [|s segs]; [change (2 ≤ 0) in Hhd; lia|]. cbn [hd] in Hhd. apply Forall_cons in Hne as [_ Hne].
  inversion Hd as [|? kr1 ? ct p cts' ps' HD Hct Hp Hd']; subst.
  { destruct s; [change (2 ≤ 0) in Hhd; lia|done]. }
  rewrite wire_all_cons in Hcat. unfold wire in Hcat. rewrite <- app_assoc in Hcat. simpl in Hcat.
  assert (take 2 s = Length_Bytes (zlen ct) ∧ drop 2 s ++ concat segs = ct ++ wire_all cts') as [H1 H2].
  { unfold zlen in Hhd. apply app_inj_1; [|by rewrite app_assoc, take_drop].
    rewrite length_take. unfold Length_Bytes. rewrite length_be_bytes. lia. }
  set (r1 := Segments (if drop 2 s is [] then segs else drop 2 s :: segs)).
  assert (pending r1 (ct ++ wire_all cts')) as Hpend.
  { rewrite <- H2. unfold r1. destruct (drop 2 s); split; simpl; try done. by constructor. }
  destruct (ReadFull_pending r1 ct (wire_all cts') (zlen ct) Hpend eq_refl) as (r2 & HR & Hp2).
  exists p, ps', (mkConn id1 id2 r2 kx kr1). split; [done|]. split.
  - eapply Read_steps; [|exact HR|exact HD|done|done|done|].
    + unfold io_Read, segments_io_Reader. cbn [GoSem.segs]. change (Z.to_nat LengthSize) with 2%nat. by rewrite H1.
    + unfold Secure.sendable, PayloadMaxSize, MessageSize in *. lia.
  - simpl. exists cts', kr'. split_and!; [|done|done]. symmetry. apply Hp2.
Qed.

(** Bytes that carry something may arrive in one piece. *)
Lemma carries_arrives n ended kw kr d p ps : carries n ended kw kr d (p :: ps) → arrives [d] d.
Proof.
  intros (cts & kr' & -> & Hd & _). inversion Hd as [|? ? ? ct ? cts']; subst.
  assert (2 ≤ zlen (wire_all (ct :: cts'))) as Hlen.
  { rewrite wire_all_cons. unfold wire. rewrite !zlen_app, zlen_Length_Bytes.
    pose proof (zlen_nonneg ct). pose proof (zlen_nonneg (wire_all cts')). unfold LengthSize. lia. }
  split_and!; [|done|simpl; by rewrite app_nil_r]. constructor; [|done].
  intros E. rewrite E in Hlen. change (2 ≤ 0) in Hlen. lia.
Qed.
End Direction.

(** ** The encrypted connection implements the queues of messages *)
Section Refinement.
Context {Msg K : Type} `{!ProtoMessage Message} `{!ProtoMessage Msg} `{NoiseCipher K}.
Implicit Types (net : secure_system Msg K) (sys : system Msg) (x : side Msg K).

(** The state of [SessionSystem] that a state stands for; [n] more messages may
    be written in each direction. *)
Record secured (n : nat) net sys : Prop := {
  sc_left : left sys = sess (s_left net);
  sc_right : right sys = sess (s_right net);
  sc_to_right : carries n (closed (sess (s_left net))) (wcipher (s_left net)) (rcipher (s_right net))
    (out (s_left net)) (to_right sys);
  sc_to_left : carries n (closed (sess (s_right net))) (wcipher (s_right net)) (rcipher (s_left net))
    (out (s_right net)) (to_left sys)
}.

Lemma secured_le n n' net sys : secured n net sys → (n' ≤ n)%nat → secured n' net sys.
Proof. intros [H1 H2 H3 H4] Hn. split; [done|done|by eapply carries_le..]. Qed.

(** The messages that a step may write. *)
Definition cost (e : @session_event Msg) : nat := if writes (with_result None e) then 1 else 0.
Definition secure_cost (e : secure_event Msg) : nat :=
  match e with SecureLeft e | SecureRight e => cost e | _ => 0 end.

Lemma cost_bound e : (cost e ≤ 1)%nat.
Proof. unfold cost. case_match; lia. Qed.
Lemma secure_cost_bound e : (secure_cost e ≤ 1)%nat.
Proof. destruct e; simpl; auto using cost_bound. Qed.

(** A step of a side is the step of its session with the result of the write,
    and it is possible when that step is. *)
Lemma side_step_result n e x kr ps :
  carries (cost e + n) (closed (sess x)) (wcipher x) kr (out x) ps →
  match resulting e (sess x) ≫= λ e', session_step e' (sess x) with
  | None => side_step e x = None
  | Some (s, o) =>
      ∃ x', side_step e x = Some (x', o) ∧ sess x' = s ∧ rcipher x' = rcipher x ∧
        carries n (closed s) (wcipher x') kr (out x') (ps ++ output (sess x) s)
  end.
Proof.
  intros Hc. unfold resulting, side_step. destruct (session_step (with_result None e) (sess x)) as [[s1 o1]|] eqn:H1;
    [|done]. simpl.
  destruct (write_all_result n _ _ (me x) (peer x) _ _ (rcipher x) _ _ _ Hc (conj (output_length _ _ _ _ H1) (cost_bound e)))
    as (c & HW & Hc').
  unfold WrapConn. rewrite HW. destruct (write_result _ _) as [err|] eqn:Hw.
  - destruct (session_step (with_result (Some err) e) (sess x)) as [[s2 o2]|] eqn:H2; [|done]. simpl.
    eexists. split_and!; [done|done|done|]. simpl. rewrite (output_failed _ _ _ _ _ H2), app_nil_r.
    eapply carries_le; [exact Hc'|lia|]. by destruct (step_has_shape _ _ _ _ H2).
  - rewrite H1. eexists. split_and!; [done|done|done|]. simpl. eapply carries_le; [exact Hc'|lia|].
    by destruct (step_has_shape _ _ _ _ H1).
Qed.

(** A read of a side is a read of the next message by its session. *)
Lemma side_read_refines n ended kw segs text d x x' d' o ps :
  carries n ended kw (rcipher x) d ps → side_read segs text d x = Some (x', d', o) →
  ∃ p ps', ps = p :: ps' ∧ session_step (ReadConn p) (sess x) = Some (sess x', o) ∧
    wcipher x' = wcipher x ∧ out x' = out x ∧ carries n ended kw (rcipher x') d' ps'.
Proof.
  intros Hc Hs. unfold side_read in Hs. destruct (closed _ || _) eqn:Hd; [discriminate|].
  apply orb_false_iff in Hd as [_ Ha%negb_false_iff%bool_decide_eq_true].
  destruct (carries_read n ended (me x) (peer x) kw (rcipher x) (wcipher x) d ps segs Hc Ha)
    as (p & ps' & c & -> & HR & Hc'). unfold WrapConn in Hs. rewrite HR in Hs.
  apply bind_Some in Hs as ([s1 o1] & H1 & [= <- <- <-]). by exists p, ps'.
Qed.

Lemma closed_read p s s' o : @session_step Msg _ _ (ReadConn p) s = Some (s', o) → closed s' = closed s.
Proof. intros Hs%step_has_shape. by apply Hs. Qed.

(** The state over queues after a step that leads to the sessions of [net']. *)
Definition follow (e : secure_event Msg) sys net' : system Msg :=
  let l := sess (s_left net') in
  let r := sess (s_right net') in
  match e with
  | SecureLeft _ => SessionSystem.mkSystem l r (to_right sys ++ output (left sys) l) (to_left sys)
  | SecureRight _ => SessionSystem.mkSystem l r (to_right sys) (to_left sys ++ output (right sys) r)
  | SecureLeftReads _ _ => SessionSystem.mkSystem l r (to_right sys) (tail (to_left sys))
  | SecureRightReads _ _ => SessionSystem.mkSystem l r (tail (to_right sys)) (to_left sys)
  end.

Definition abstract_event (err : option error) (e : secure_event Msg) : @system_event Msg :=
  match e with
  | SecureLeft e => LeftStep (with_result err e)
  | SecureRight e => RightStep (with_result err e)
  | SecureLeftReads _ _ => LeftReads
  | SecureRightReads _ _ => RightReads
  end.

Lemma allowed_happens n net sys e : secured n net sys → may_happen sys e = allowed net e.
Proof. intros [Hl Hr _ _]. unfold may_happen, allowed. by rewrite Hl, Hr. Qed.

Lemma connected_left e sys : may_happen sys e = true →
  connected_step (LeftStep e) sys =
    '(l, o) ← resulting e (left sys) ≫= λ e', session_step e' (left sys);
    Some (SessionSystem.mkSystem l (right sys) (to_right sys ++ output (left sys) l) (to_left sys), inl o).
Proof.
  intros Hm. unfold connected_step, connected_event. rewrite Hm.
  destruct (resulting e (left sys)) as [e'|] eqn:He; [|done]. destruct (resulting_inv _ _ _ He) as [err ->].
  simpl. by rewrite is_read_with_result, (may_happen_is_read sys e Hm).
Qed.

Lemma connected_right e sys : may_happen sys e = true →
  connected_step (RightStep e) sys =
    '(r, o) ← resulting e (right sys) ≫= λ e', session_step e' (right sys);
    Some (SessionSystem.mkSystem (left sys) r (to_right sys) (to_left sys ++ output (right sys) r), inr o).
Proof.
  intros Hm. unfold connected_step, connected_event. rewrite Hm.
  destruct (resulting e (right sys)) as [e'|] eqn:He; [|done]. destruct (resulting_inv _ _ _ He) as [err ->].
  simpl. by rewrite is_read_with_result, (may_happen_is_read sys e Hm).
Qed.

Lemma side_read_open segs text d x r : side_read segs text d x = Some r → closed (sess x) = false.
Proof. unfold side_read. by destruct (closed (sess x)). Qed.

(** Every step of the sessions over the encrypted connection is a step of the
    sessions over queues of messages that the connection allows, and shows the
    same. *)
Lemma secure_step_connected n e net net' ob sys :
  secured (secure_cost e + n) net sys → secure_step e net = Some (net', ob) →
  connected_step (abstract_event None e) sys = Some (follow e sys net', ob) ∧ secured n net' (follow e sys net').
Proof.
  intros Hsec Hs. pose proof Hsec as [Hl Hr H1 H2].
  destruct e as [e|e|segs text|segs text]; cbn [secure_step secure_cost abstract_event] in *.
  - destruct (allowed net e) eqn:Ha; [|discriminate]. apply bind_Some in Hs as ([x o] & Hs & [= <- <-]).
    pose proof (side_step_result _ _ _ _ _ H1) as Hst. unfold follow. cbn [s_left s_right].
    assert (may_happen sys (with_result None e) = true) as Hm
      by (rewrite may_happen_result, (allowed_happens _ _ _ _ Hsec); exact Ha).
    rewrite connected_left, resulting_result by done. unfold resulting in *. rewrite Hl.
    destruct (session_step (with_result None e) (sess (s_left net))) as [[s1 o1]|]; [|simpl in Hst; congruence].
    simpl in *. destruct (session_step _ _) as [[s2 o2]|] eqn:E; [|simpl in Hst; congruence].
    destruct Hst as (x' & Hx & <- & Hrc & Hc). simplify_eq. simpl. rewrite Hr. split; [done|].
    split; simpl; [done|done|by rewrite ?Hl|]. rewrite Hrc. eapply carries_le; [exact H2|lia|done].
  - destruct (allowed net e) eqn:Ha; [|discriminate]. apply bind_Some in Hs as ([x o] & Hs & [= <- <-]).
    pose proof (side_step_result _ _ _ _ _ H2) as Hst. unfold follow. cbn [s_left s_right].
    assert (may_happen sys (with_result None e) = true) as Hm
      by (rewrite may_happen_result, (allowed_happens _ _ _ _ Hsec); exact Ha).
    rewrite connected_right, resulting_result by done. unfold resulting in *. rewrite Hr.
    destruct (session_step (with_result None e) (sess (s_right net))) as [[s1 o1]|]; [|simpl in Hst; congruence].
    simpl in *. destruct (session_step _ _) as [[s2 o2]|] eqn:E; [|simpl in Hst; congruence].
    destruct Hst as (x' & Hx & <- & Hrc & Hc). simplify_eq. simpl. rewrite Hl. split; [done|].
    split; simpl; [done|done| |by rewrite ?Hr]. rewrite Hrc. eapply carries_le; [exact H1|lia|done].
  - apply bind_Some in Hs as ([[x d'] o] & Hs & [= <- <-]).
    destruct (side_read_refines _ _ _ _ _ _ _ _ _ _ _ H2 Hs) as (p & ps' & Hps & Hst & Hw & Ho & Hc).
    unfold follow, connected_step, connected_event. cbn [s_left s_right set_out sess].
    rewrite Hl, (side_read_open _ _ _ _ _ Hs).
    split; [cbn [mbind option_bind SessionSystem.system_step]; rewrite Hps, ?Hl, Hst; simpl; by rewrite Hr|]. rewrite Hps.
    split; simpl; [done|done| |].
    + rewrite (closed_read _ _ _ _ Hst), Hw, Ho. eapply carries_le; [exact H1|lia|done].
    + eapply carries_le; [exact Hc|lia|done].
  - apply bind_Some in Hs as ([[x d'] o] & Hs & [= <- <-]).
    destruct (side_read_refines _ _ _ _ _ _ _ _ _ _ _ H1 Hs) as (p & ps' & Hps & Hst & Hw & Ho & Hc).
    unfold follow, connected_step, connected_event. cbn [s_left s_right set_out sess].
    rewrite Hr, (side_read_open _ _ _ _ _ Hs).
    split; [cbn [mbind option_bind SessionSystem.system_step]; rewrite Hps, ?Hr, Hst; simpl; by rewrite Hl|]. rewrite Hps.
    split; simpl; [done|done| |].
    + eapply carries_le; [exact Hc|lia|done].
    + rewrite (closed_read _ _ _ _ Hst), Hw, Ho. eapply carries_le; [exact H2|lia|done].
Qed.

Lemma secure_step_refines n e net net' ob sys :
  secured (secure_cost e + n) net sys → secure_step e net = Some (net', ob) →
  ∃ err, SessionSystem.system_step (abstract_event err e) sys = Some (follow e sys net', ob) ∧
    secured n net' (follow e sys net').
Proof.
  intros Hsec Hs. destruct (secure_step_connected _ _ _ _ _ _ Hsec Hs) as [(e' & He & Hst)%bind_Some Hsec'].
  assert (∃ err, e' = abstract_event err e) as [err ->]; [|by exists err].
  destruct e as [e|e|segs text|segs text]; simpl in He; repeat case_match; simplify_eq/=; try by exists None.
  all: apply fmap_Some in He as (e2 & [err ->]%resulting_inv & ->); exists err; by rewrite with_result_twice.
Qed.

Lemma secure_run_connected es : ∀ n net net' os sys,
  secured (length es + n) net sys → secure_run es net = Some (net', os) →
  ∃ sys', connected_run (abstract_event None <$> es) sys = Some (sys', os) ∧ secured n net' sys'.
Proof.
  induction es as [|e es IH]; intros n net net' os sys Hsec Hrun; simpl in Hrun.
  - injection Hrun as <- <-. by exists sys.
  - apply bind_Some in Hrun as ([net1 ob] & H1 & Hrun). apply bind_Some in Hrun as ([net2 os2] & H2 & [= <- <-]).
    pose proof (secure_cost_bound e).
    destruct (secure_step_connected (length es + n) e net net1 ob sys) as [Hs Hsec1]; [|done|].
    { eapply secured_le; [exact Hsec|]. simpl. lia. }
    destruct (IH _ _ _ _ _ Hsec1 H2) as (sys' & Hr & Hsec').
    exists sys'. split; [|done]. rewrite fmap_cons. cbn [connected_run]. rewrite Hs. cbn [mbind option_bind].
    by rewrite Hr.
Qed.

Lemma secured_new {C D} n (na : noiseConn C K) (nb : noiseConn D K) :
  in_sync n (writeCipher na) (readCipher nb) → in_sync n (writeCipher nb) (readCipher na) →
  secured n (NewSecure na nb) NewSystem.
Proof. intros H1 H2. split; [done|done|by apply carries_nil..]. Qed.

(** *** The other direction: what the connection allows, the sessions can do over
    it. *)

(** A step of a session whose writes and reads do not fail and that does not
    close it. *)
Definition working (e : @session_event Msg) : bool :=
  match e with
  | StepCall _ (Some _) | WriteChannel _ _ (Some _) | CloseChannel _ (Some _) => false
  | ReadConn _ | ReadConnError _ _ | ExitBroker | CloseConn => false
  | _ => true
  end.
Definition system_working (e : @system_event Msg) : bool :=
  match e with LeftStep e | RightStep e => working e | LeftReads | RightReads => true end.

Lemma working_with_result e : working e = true → with_result None e = e.
Proof. destruct e as [| | | | |? []| | |? ? []| | | |? []| | |]; by simpl. Qed.
Lemma working_allowed net e : working e = true → allowed net e = true.
Proof. by destruct e. Qed.
Lemma working_open e : working e = true → e ≠ ExitBroker ∧ e ≠ CloseConn.
Proof. by destruct e. Qed.

Lemma output_sent e (s s' : session Msg) o :
  session_step e s = Some (s', o) → sent s' = sent s ++ output s s'.
Proof. intros [(l & Hl & _) _ _]%step_has_shape. unfold output. by rewrite Hl, drop_app_length. Qed.

Lemma side_read_ok n ended kw segs text d x p ps s o :
  carries n ended kw (rcipher x) d (p :: ps) → closed (sess x) = false → arrives segs d →
  session_step (ReadConn p) (sess x) = Some (s, o) →
  ∃ x' d', side_read segs text d x = Some (x', d', o) ∧ sess x' = s.
Proof.
  intros Hc Hd Ha Hs.
  destruct (carries_read n ended (me x) (peer x) kw (rcipher x) (wcipher x) d (p :: ps) segs Hc Ha)
    as (p' & ps' & c & [= <- <-] & HR & _).
  eexists _, _. unfold side_read, WrapConn. rewrite Hd, bool_decide_eq_true_2, HR, Hs by done. simpl. split; reflexivity.
Qed.

(** The steps that may stand for a step over queues: the bytes may arrive in any
    segments. *)
Definition implements net (e : @system_event Msg) (e' : secure_event Msg) : Prop :=
  match e, e' with
  | LeftStep e, SecureLeft e' | RightStep e, SecureRight e' => e = e'
  | LeftReads, SecureLeftReads segs _ => arrives segs (out (s_right net))
  | RightReads, SecureRightReads segs _ => arrives segs (out (s_left net))
  | _, _ => False
  end.

Lemma connected_step_complete n e e' net sys sys' ob :
  secured (secure_cost e' + n) net sys → implements net e e' → connected_step e sys = Some (sys', ob) →
  ∃ net', secure_step e' net = Some (net', ob) ∧ secured n net' sys'.
Proof.
  intros Hsec Hi Hs. pose proof Hsec as [Hl Hr H1 H2].
  assert (∃ net', secure_step e' net = Some (net', ob)) as [net' Hstep].
  { destruct e as [e|e| |], e' as [e'|e'|segs text|segs text]; try done; cbn [implements secure_cost secure_step] in *.
    - subst e'. destruct (may_happen sys e) eqn:Hm; [|unfold connected_step, connected_event in Hs; by rewrite Hm in Hs].
      rewrite connected_left, Hl in Hs by done. rewrite <- (allowed_happens _ _ _ _ Hsec), Hm.
      pose proof (side_step_result _ _ _ _ _ H1) as Hst. destruct (resulting e (sess (s_left net)) ≫= λ e', session_step e' (sess (s_left net))) as [[s o]|]; [|done].
      destruct Hst as (x' & -> & _). simplify_eq/=. by eexists.
    - subst e'. destruct (may_happen sys e) eqn:Hm; [|unfold connected_step, connected_event in Hs; by rewrite Hm in Hs].
      rewrite connected_right, Hr in Hs by done. rewrite <- (allowed_happens _ _ _ _ Hsec), Hm.
      pose proof (side_step_result _ _ _ _ _ H2) as Hst. destruct (resulting e (sess (s_right net)) ≫= λ e', session_step e' (sess (s_right net))) as [[s o]|]; [|done].
      destruct Hst as (x' & -> & _). simplify_eq/=. by eexists.
    - unfold connected_step in Hs. cbn [connected_event] in Hs. destruct (closed (left sys)) eqn:Hdl; [done|].
      simpl in Hs. destruct (to_left sys) as [|b rest]; [discriminate|].
      apply bind_Some in Hs as ([s o] & Hs & [= <- <-]). rewrite Hl in Hs, Hdl.
      destruct (side_read_ok _ _ _ segs text _ _ _ _ _ _ H2 Hdl Hi Hs) as (x' & d' & Hx & Ex). rewrite Hx. by eexists.
    - unfold connected_step in Hs. cbn [connected_event] in Hs. destruct (closed (right sys)) eqn:Hdr; [done|].
      simpl in Hs. destruct (to_right sys) as [|b rest]; [discriminate|].
      apply bind_Some in Hs as ([s o] & Hs & [= <- <-]). rewrite Hr in Hs, Hdr.
      destruct (side_read_ok _ _ _ segs text _ _ _ _ _ _ H1 Hdr Hi Hs) as (x' & d' & Hx & Ex). rewrite Hx. by eexists. }
  exists net'. split; [done|]. destruct (secure_step_connected _ _ _ _ _ _ Hsec Hstep) as [Hc Hsec'].
  replace sys' with (follow e' sys net'); [done|].
  enough (connected_step e sys = connected_step (abstract_event None e') sys) as E
    by (rewrite Hs, Hc in E; by simplify_eq).
  destruct e as [e|e| |], e' as [e'|e'|segs text|segs text]; try done; simpl in Hi; subst.
  all: unfold connected_step; simpl; by rewrite resulting_result, may_happen_result.
Qed.

(** While the connection works, it allows whatever the sessions do. *)
Lemma working_connected e sys sys' ob :
  closed (left sys) = false → closed (right sys) = false → system_working e = true →
  SessionSystem.system_step e sys = Some (sys', ob) →
  Forall Secure.sendable (output (left sys) (left sys')) → Forall Secure.sendable (output (right sys) (right sys')) →
  connected_step e sys = Some (sys', ob).
Proof.
  intros Hdl Hdr He Hs Fl Fr.
  assert (∀ l, Forall Secure.sendable l → write_result false l = None) as Hok.
  { intros l [|p l' Hp _]; [done|]. simpl. by rewrite bool_decide_eq_true_2. }
  destruct e as [e|e| |]; cbn [system_working] in He.
  - assert (may_happen sys e = true) as Hm by (by destruct e). rewrite connected_left by done.
    unfold resulting. rewrite working_with_result by done. cbn [SessionSystem.system_step] in Hs.
    rewrite (may_happen_is_read sys e Hm) in Hs. apply bind_Some in Hs as ([s o] & Hst & [= <- <-]).
    rewrite Hst, Hdl. simpl in *. rewrite Hok, working_with_result, Hst by done. done.
  - assert (may_happen sys e = true) as Hm by (by destruct e). rewrite connected_right by done.
    unfold resulting. rewrite working_with_result by done. cbn [SessionSystem.system_step] in Hs.
    rewrite (may_happen_is_read sys e Hm) in Hs. apply bind_Some in Hs as ([s o] & Hst & [= <- <-]).
    rewrite Hst, Hdr. simpl in *. rewrite Hok, working_with_result, Hst by done. done.
  - unfold connected_step. cbn [connected_event]. by rewrite Hdl.
  - unfold connected_step. cbn [connected_event]. by rewrite Hdr.
Qed.

Lemma secure_step_complete n e e' net sys sys' ob :
  secured (secure_cost e' + n) net sys → closed (left sys) = false → closed (right sys) = false →
  system_working e = true → implements net e e' → SessionSystem.system_step e sys = Some (sys', ob) →
  Forall Secure.sendable (output (left sys) (left sys')) → Forall Secure.sendable (output (right sys) (right sys')) →
  ∃ net', secure_step e' net = Some (net', ob) ∧ secured n net' sys'.
Proof. intros. eapply connected_step_complete; [done..|]. by apply working_connected. Qed.

(** Some step stands for it. *)
Lemma implements_exists n e net sys next :
  secured n net sys → SessionSystem.system_step e sys = Some next → ∃ e', implements net e e'.
Proof.
  intros [Hl Hr H1 H2] Hs. destruct e as [e|e| |]; cbn [SessionSystem.system_step] in Hs.
  - by exists (SecureLeft e).
  - by exists (SecureRight e).
  - destruct (to_left sys); [discriminate|].
    exists (SecureLeftReads [out (s_right net)] ""). simpl. by eapply carries_arrives.
  - destruct (to_right sys); [discriminate|].
    exists (SecureRightReads [out (s_left net)] ""). simpl. by eapply carries_arrives.
Qed.

Lemma connected_exists n e net sys next :
  secured n net sys → connected_step e sys = Some next → ∃ e', implements net e e'.
Proof.
  intros Hsec (e' & He & Hs)%bind_Some. destruct e as [e|e| |]; [by exists (SecureLeft e)|by exists (SecureRight e)|..];
    simpl in He; case_match; simplify_eq; by eapply implements_exists.
Qed.

Lemma connected_run_complete es : ∀ n net sys sys' os,
  secured (length es + n) net sys → connected_run es sys = Some (sys', os) →
  ∃ es' net', secure_run es' net = Some (net', os) ∧ secured n net' sys'.
Proof.
  induction es as [|e es IH]; intros n net sys sys' os Hsec Hrun; simpl in Hrun.
  - injection Hrun as <- <-. by exists [], net.
  - apply bind_Some in Hrun as ([s1 o1] & H1 & Hrun). apply bind_Some in Hrun as ([s2 o2] & H2 & [= <- <-]).
    destruct (connected_exists _ _ _ _ _ Hsec H1) as [e' Hi]. pose proof (secure_cost_bound e').
    destruct (connected_step_complete (length es + n) e e' net sys s1 o1) as (net1 & Hs1 & Hsec1);
      [eapply secured_le; [exact Hsec|simpl; lia]|done|done|].
    destruct (IH n net1 s1 s2 o2) as (es' & net' & Hr & Hsec'); [done..|].
    exists (e' :: es'), net'. split; [|done]. simpl. rewrite Hs1. simpl. by rewrite Hr.
Qed.

Lemma system_step_kept e sys sys' ob :
  system_working e = true → SessionSystem.system_step e sys = Some (sys', ob) →
  closed (left sys') = closed (left sys) ∧ closed (right sys') = closed (right sys) ∧
  sent (left sys') = sent (left sys) ++ output (left sys) (left sys') ∧
  sent (right sys') = sent (right sys) ++ output (right sys) (right sys').
Proof.
  intros He Hs. assert (∀ e (s s' : session Msg) o, e ≠ ExitBroker ∧ e ≠ CloseConn → session_step e s = Some (s', o) →
    closed s' = closed s ∧ sent s' = sent s ++ output s s') as Hkept.
  { intros e' s s' o [Hne1 Hne2] Hst. split; [by destruct (step_has_shape _ _ _ _ Hst); auto|].
    by eapply output_sent. }
  assert (∀ s : session Msg, sent s = sent s ++ output s s) as Hsame.
  { intros s. unfold output. by rewrite drop_all, app_nil_r. }
  destruct e as [e|e| |]; cbn [SessionSystem.system_step] in Hs.
  1, 2: apply working_open in He; destruct (is_read e); [discriminate|].
  3: destruct (to_left sys); [discriminate|].
  4: destruct (to_right sys); [discriminate|].
  all: apply bind_Some in Hs as ([s o] & Hst & [= <- <-]); simpl; apply Hkept in Hst as [? ?]; [|done..];
    by split_and!.
Qed.

Lemma system_run_sent es : ∀ sys sys' os,
  Forall system_working es → SessionSystem.system_run es sys = Some (sys', os) →
  sent (left sys) `prefix_of` sent (left sys') ∧ sent (right sys) `prefix_of` sent (right sys').
Proof.
  induction es as [|e es IH]; intros sys sys' os Hw Hrun; simpl in Hrun.
  - by injection Hrun as <- <-.
  - apply Forall_cons in Hw as [He Hw]. apply bind_Some in Hrun as ([s1 o1] & H1 & Hrun).
    apply bind_Some in Hrun as ([s2 o2] & H2 & [= <- <-]).
    destruct (system_step_kept e sys s1 o1) as (_ & _ & El & Er); [by apply Is_true_true|done|].
    destruct (IH _ _ _ Hw H2) as [Pl Pr]. rewrite El in Pl. rewrite Er in Pr.
    split; (etrans; [|done]); by apply prefix_app_r.
Qed.

Lemma secure_run_complete es : ∀ n net sys sys' os,
  secured (length es + n) net sys → closed (left sys) = false → closed (right sys) = false →
  Forall system_working es → SessionSystem.system_run es sys = Some (sys', os) →
  Forall Secure.sendable (sent (left sys')) → Forall Secure.sendable (sent (right sys')) →
  ∃ es' net', secure_run es' net = Some (net', os) ∧ secured n net' sys'.
Proof.
  induction es as [|e es IH]; intros n net sys sys' os Hsec Hdl Hdr Hw Hrun Fl Fr; simpl in Hrun.
  - injection Hrun as <- <-. by exists [], net.
  - apply Forall_cons in Hw as [He%Is_true_true Hw]. apply bind_Some in Hrun as ([s1 o1] & H1 & Hrun).
    apply bind_Some in Hrun as ([s2 o2] & H2 & [= <- <-]).
    destruct (system_step_kept _ _ _ _ He H1) as (Kl & Kr & El & Er).
    destruct (system_run_sent _ _ _ _ Hw H2) as [[l Pl] [r Pr]].
    destruct (implements_exists _ _ _ _ _ Hsec H1) as [e' Hi].
    pose proof (secure_cost_bound e').
    destruct (secure_step_complete (length es + n) e e' net sys s1 o1) as (net1 & Hs1 & Hsec1);
      [eapply secured_le; [exact Hsec|simpl; lia]|done..| | |].
    { rewrite Pl, El in Fl. by apply Forall_app in Fl as [[_ ?]%Forall_app _]. }
    { rewrite Pr, Er in Fr. by apply Forall_app in Fr as [[_ ?]%Forall_app _]. }
    destruct (IH n net1 s1 s2 o2) as (es' & net' & Hr & Hsec'); [done|congruence|congruence|done..|].
    exists (e' :: es'), net'. split; [|done]. simpl. rewrite Hs1. simpl. by rewrite Hr.
Qed.
End Refinement.

(** ** Properties *)

(** C7: sessions over an encrypted connection are sessions over queues of
    messages.  Two fresh sessions use the two ends of an encrypted connection
    whose cipher states belong together for [n] messages, and the bytes arrive in
    any segments that keep length fields whole.  The executions of at most [n]
    steps over the encrypted connection and those over queues that respect a
    connection ([connected_run]) are the same: for each one there is one of the
    other kind that shows the same and reaches the same states of both sessions.
    Respecting a connection means that a write fails exactly when the message is
    too long or its own side has closed the connection, and with the error of
    that, that a side which has closed the connection reads nothing, and that a
    read fails only when a side has closed it.  Closing, the end of the broker and
    the failures that follow are among these steps; and executions that respect
    the connection are executions of [SessionSystem]. *)
Theorem secure_sessions_refine {Msg K C D} `{!ProtoMessage Message} `{!ProtoMessage Msg} `{NoiseCipher K}
    (na : noiseConn C K) (nb : noiseConn D K) (n : nat) :
  in_sync n (writeCipher na) (readCipher nb) → in_sync n (writeCipher nb) (readCipher na) →
  (∀ es (net : secure_system Msg K) os,
     (length es ≤ n)%nat → secure_run es (NewSecure na nb) = Some (net, os) →
     ∃ es' sys, connected_run es' NewSystem = Some (sys, os) ∧
       left sys = sess (s_left net) ∧ right sys = sess (s_right net)) ∧
  (∀ es (sys : system Msg) os,
     (length es ≤ n)%nat → connected_run es NewSystem = Some (sys, os) →
     ∃ es' net, secure_run es' (NewSecure na nb) = Some (net, os) ∧
       left sys = sess (s_left net) ∧ right sys = sess (s_right net)) ∧
  (∀ es (sys : system Msg) os,
     connected_run es NewSystem = Some (sys, os) → ∃ es', SessionSystem.system_run es' NewSystem = Some (sys, os)).
Proof.
  intros H1 H2. pose proof (secured_new (Msg := Msg) n na nb H1 H2) as H0. split_and!.
  - intros es net os Hn Hrun. replace n with (length es + (n - length es))%nat in H0 by lia.
    destruct (secure_run_connected _ _ _ _ _ _ H0 Hrun) as (sys & Hr & [? ?]). eauto.
  - intros es sys os Hn Hrun. replace n with (length es + (n - length es))%nat in H0 by lia.
    destruct (connected_run_complete es _ _ _ _ _ H0 Hrun) as (es' & net & Hr & [? ?]). eauto.
  - intros es sys os Hrun. by eapply connected_run_system.
Qed.

Definition demo_conn : noiseConn unit Z := mkConn [] [] () 0 0.

(** Two sessions open a channel and send three messages; then the left one is
    closed, its broker closes the connection and [session.Close] returns an
    error; a write fails, and so does a read of the other side. *)
Definition demo_closing : list (@system_event Z) :=
  demo_open_channel ++ demo_messages ++
  [LeftStep CloseSession; LeftStep ExitBroker; LeftStep CloseConn; LeftStep (WriteChannel 0 7 None);
   RightStep TakeRead; RightStep (ReadConnError EOF "EOF")].

Definition demo_connected : option (system Z * list (@observation Z + @observation Z)) :=
  @connected_run Z demo_proto bits_proto demo_closing NewSystem.
Definition demo_closed := default (NewSystem, []) demo_connected.

Lemma secure_sessions_refine_witness :
  ∃ es' net, @secure_run Z Z demo_proto bits_proto demo_cipher es' (NewSecure demo_conn demo_conn) =
      Some (net, demo_closed.2) ∧
    sess (s_left net) = left demo_closed.1 ∧ sess (s_right net) = right demo_closed.1 ∧
    closed (left demo_closed.1) = true ∧ reader (right demo_closed.1) = ReaderReturned ∧
    inl (CallFailed 0 net_ErrClosed) ∈ demo_closed.2.
Proof.
  destruct (@secure_sessions_refine Z Z unit unit demo_proto bits_proto demo_cipher demo_noise demo_conn demo_conn 40
    eq_refl eq_refl) as (_ & H & _).
  destruct (H demo_closing demo_closed.1 demo_closed.2) as (es' & net & Hrun & Hl & Hr).
  - vm_compute. lia.
  - unfold demo_closed. destruct demo_connected as [[sys os]|] eqn:E; [exact E|]. vm_compute in E. discriminate E.
  - exists es', net. split; [exact Hrun|]. split; [symmetry; exact Hl|]. split; [symmetry; exact Hr|].
    split; [vm_compute; reflexivity|]. split; [vm_compute; reflexivity|].
    apply (list_elem_of_lookup_2 _ 28). vm_compute. reflexivity.
Defined.
