(* ===== verification/Transfer.v ===== *)
(** * Transfer: the file transfer protocol of [lib/session/transfer]

    [state.go] and the states of both sides, [transfer.go] (the message types
    of the protocol), [sender.go] and [receiver.go] (the two clients, each a
    protocol definition whose handlers work on the fields of the client). *)

From S2P Require Import Prelude GoSem Channel Sha256 Files Block Automaton Protocol.

Local Open Scope Z_scope.

(** ** Messages ([transfer.proto]) *)

Record Metadata : Type := mkMetadata { Filename : string }.

#[export] Instance Metadata_eq_dec : EqDecision Metadata.
Proof. solve_decision. Defined.

(** The messages of the protocol.  The sub-message of a header may be missing,
    and a [*Block] may be a nil pointer; [OtherMessage] is a protobuf message
    of any other type. *)
Inductive Message : Type :=
| Header (metadata : option Metadata) (total_size block_size : Z)
| Acknowledge
| BlockMsg (b : option Block)
| BlockReceived (index : Z)
| RedoBlock (index : Z)
| DataSent (total_checksum : bytes)
| DataReceived
| Abort (reason : Z)
| OtherMessage.

#[export] Instance Message_eq_dec : EqDecision Message.
Proof. solve_decision. Defined.

Definition MessageTypeHeader : Z := 2.
Definition MessageTypeAcknowledge : Z := 3.
Definition MessageTypeBlock : Z := 4.
Definition MessageTypeBlockReceived : Z := 5.
Definition MessageTypeRedoBlock : Z := 6.
Definition MessageTypeDataSent : Z := 7.
Definition MessageTypeDataReceived : Z := 8.
Definition MessageTypeAbort : Z := 9.

(** ** [transfer.go] *)

Definition MessageTypeOf (message : Message) : outcome Z :=
  match message with
  | Header _ _ _ => Ret MessageTypeHeader
  | Acknowledge => Ret MessageTypeAcknowledge
  | BlockMsg _ => Ret MessageTypeBlock
  | BlockReceived _ => Ret MessageTypeBlockReceived
  | RedoBlock _ => Ret MessageTypeRedoBlock
  | DataSent _ => Ret MessageTypeDataSent
  | DataReceived => Ret MessageTypeDataReceived
  | Abort _ => Ret MessageTypeAbort
  | OtherMessage => Panic (PanicError IllegalRootMessageType)
  end.

Definition TransferTypeOf (message : Message) : outcome Key :=
  t ← MessageTypeOf message; mret (KeyMessageType t).

(** [protocol.MessageType(p.TypeOf(message).(MessageType))] *)
Definition TransferRawTypeOf (message : Message) : outcome Z :=
  key ← TransferTypeOf message;
  match key with KeyMessageType t => Ret t | _ => Panic PanicAssertion end.

Definition TransferNewMessage (messageType : Z) : option Message * option error :=
  if messageType =? MessageTypeHeader then (Some (Header None 0 0), None)
  else if messageType =? MessageTypeAcknowledge then (Some Acknowledge, None)
  else if messageType =? MessageTypeBlock then (Some (BlockMsg (Some (mkBlock 0 [] []))), None)
  else if messageType =? MessageTypeBlockReceived then (Some (BlockReceived 0), None)
  else if messageType =? MessageTypeRedoBlock then (Some (RedoBlock 0), None)
  else if messageType =? MessageTypeDataSent then (Some (DataSent []), None)
  else if messageType =? MessageTypeDataReceived then (Some DataReceived, None)
  else if messageType =? MessageTypeAbort then (Some (Abort 0), None)
  else (None, Some UnexpectedMessageType).

Definition TransferProtocol : Protocol Message :=
  mkProtocol ChannelTypeTransfer TransferTypeOf TransferRawTypeOf TransferNewMessage.

(** ** [state.go] *)

Definition initialized : State := 1.
Definition done_ : State := 2.
Definition sendAbort : State := 3.
Definition aborted : State := 4.
Definition firstState : State := 5.

(** ** [sender.go] *)
Module Sender.

Definition inPrologue : State := 0 + firstState.
Definition inProgress : State := 1 + firstState.
Definition needAcknowledge : State := 2 + firstState.
Definition transferred : State := 3 + firstState.
Definition needDataReceived : State := 4 + firstState.

Definition DuplicateBlockReceived : error :=
  ErrVar "transfer.DuplicateBlockReceived" "block receipt is already acknowledged".
Definition RedoForUnwrittenBlock : error :=
  ErrVar "transfer.RedoForUnwrittenBlock" "redo requested for block that was not yet written".
Definition RedoForReceivedBlock : error :=
  ErrVar "transfer.RedoForReceivedBlock" "redo requested for acknowledged block".
Definition DuplicateRedoBlock : error :=
  ErrVar "transfer.DuplicateRedoBlock" "redo already requested for specified block".
Definition InvalidDataReceived : error :=
  ErrVar "transfer.InvalidDataReceived"
    "data receipt was acknowledged before all blocks were acknowledged".

(** [state] is the cell that the embedded client points to. *)
Record Sender (F : Type) : Type := mkSender {
  state : State;
  reader : Reader.Reader F;
  received : list bool;
  receivedCount : Z;
  metadata : option Metadata
}.
Arguments mkSender {F} _ _ _ _ _.
Arguments state {F} _.
Arguments reader {F} _.
Arguments received {F} _.
Arguments receivedCount {F} _.
Arguments metadata {F} _.

Section Sender.
Context {F : Type} `{!ReadSeekCloser F}.

Definition state_cell : lens (Sender F) State :=
  Lens state (λ st s, mkSender st (reader s) (received s) (receivedCount s) (metadata s)).

Definition reader_field : lens (Sender F) (Reader.Reader F) :=
  Lens reader (λ r s, mkSender (state s) r (received s) (receivedCount s) (metadata s)).

Abbreviation HM := (M (Sender F * StateHandle)).

(** A field access, and a call that works on the sender's reader. *)
Definition field {A} (f : Sender F → A) : HM A := gets (f ∘ fst).
Definition on_reader {A} (m : M (Reader.Reader F) A) : HM A :=
  zoom fst_lens (zoom reader_field m).

Definition createHeader (s : Sender F) : Message :=
  Header (metadata s) (Reader.totalSize (reader s)) (Reader.blockSize (reader s)).

(** The [Do] of the write transitions at [initialized], [transferred] and [sendAbort]. *)
Definition writeHeader : HM (option Message * option error) :=
  s ← gets fst; mret (Some (createHeader s), None).
Definition writeDataSent : HM (option Message * option error) := mret (Some (DataSent []), None).
Definition writeAbort : HM (option Message * option error) := mret (Some (Abort 0), None).

(** The [Do] of the write transitions at [inPrologue] and [inProgress], which
    differ in the states they set.  The message is a [*Block] also when
    [NextBlock] returns a nil block. *)
Definition writeBlock (whenDone otherwise : State) : HM (option Message * option error) :=
  hasData ← field (Reader.HasData ∘ reader);
  if negb hasData then throw (PanicString "expected data but no data to write")
  else
    '(b, err) ← on_reader Reader.NextBlock;
    match err with
    | Some e => mret (Some (BlockMsg b), Some e)
    | None =>
        isDone ← field (Reader.IsDone ∘ reader);
        (if isDone : bool then Set_ state_cell whenDone else Set_ state_cell otherwise);;
        mret (Some (BlockMsg b), None)
    end.

(** The [Do] of the three transitions for [BlockReceived]. *)
Definition readBlockReceived (message : Message) : HM (option error) :=
  match message with
  | BlockReceived i =>
      r ← field received;
      already ← lift (index r i);
      if already : bool then mret (Some DuplicateBlockReceived)
      else
        r ← lift (assign r i true);
        modify (λ '(s, h), (mkSender (state s) (reader s) r (u64 (receivedCount s + 1)) (metadata s), h));;
        s ← gets fst;
        count ← lift (Reader.BlockCount (reader s));
        if receivedCount s >? count
        then throw (PanicString "sent more blocks than there should be available")
        else mret None
  | _ => throw PanicAssertion
  end.

(** The [Do] of the three transitions for [RedoBlock]. *)
Definition readRedoBlock (message : Message) : HM (option error) :=
  match message with
  | RedoBlock i =>
      r ← field received;
      already ← lift (index r i);
      if already : bool then mret (Some RedoForReceivedBlock)
      else
        next ← field (Reader.NextBlockIndex ∘ reader);
        if i >=? next then mret (Some RedoForUnwrittenBlock)
        else
          '(queued, err) ← on_reader (Reader.RedoBlock i);
          match err with
          | Some e => mret (Some e)
          | None => if negb queued then mret (Some DuplicateRedoBlock) else mret None
          end
  | _ => throw PanicAssertion
  end.

(** The [Do] of the transition for [DataReceived]. *)
Definition readDataReceived (message : Message) : HM (option error) :=
  s ← gets fst;
  count ← lift (Reader.BlockCount (reader s));
  if receivedCount s <? count then mret (Some InvalidDataReceived) else mret None.

Definition write_table : list (Key * list (Transition (DoHandler Message (Sender F)))) := [
  (KeyState initialized,
    [mkTransition None None inPrologue (Some (WriteMessageHandler writeHeader))]);
  (KeyState inPrologue,
    [mkTransition None (Some [inPrologue; needAcknowledge]) NoState
      (Some (WriteMessageHandler (writeBlock needAcknowledge inPrologue)))]);
  (KeyState inProgress,
    [mkTransition None (Some [inProgress; transferred]) NoState
      (Some (WriteMessageHandler (writeBlock transferred inProgress)))]);
  (KeyState transferred,
    [mkTransition None None needDataReceived (Some (WriteMessageHandler writeDataSent))]);
  (KeyState sendAbort,
    [mkTransition None None aborted (Some (WriteMessageHandler writeAbort))])
].

Definition read_table : list (Key * list (Transition (DoHandler Message (Sender F)))) := [
  (KeyMessageType MessageTypeAcknowledge, [
    mkTransition (Some [inPrologue]) None inProgress None;
    mkTransition (Some [needAcknowledge]) None transferred None]);
  (KeyMessageType MessageTypeBlockReceived, [
    mkTransition (Some [inProgress]) None NoState (Some (ReadMessageHandler readBlockReceived));
    mkTransition (Some [transferred]) None NoState (Some (ReadMessageHandler readBlockReceived));
    mkTransition (Some [needDataReceived]) None NoState (Some (ReadMessageHandler readBlockReceived))]);
  (KeyMessageType MessageTypeRedoBlock, [
    mkTransition (Some [inProgress]) None NoState (Some (ReadMessageHandler readRedoBlock));
    mkTransition (Some [transferred]) None inProgress (Some (ReadMessageHandler readRedoBlock));
    mkTransition (Some [needDataReceived]) None inProgress (Some (ReadMessageHandler readRedoBlock))]);
  (KeyMessageType MessageTypeDataReceived, [
    mkTransition (Some [needDataReceived]) None done_ (Some (ReadMessageHandler readDataReceived))]);
  (KeyMessageType MessageTypeAbort, [
    mkTransition (Some [initialized; inPrologue; inProgress; needAcknowledge;
                        transferred; needDataReceived; sendAbort]) None aborted None])
].

Definition protocolDefinition : Definition_ Message (Sender F) :=
  mkDefinition TransferProtocol false initialized done_ write_table read_table.

Definition NewSender (metadata : option Metadata) (reader : Reader.Reader F)
  : outcome (Client Message (Sender F) * Sender F) :=
  count ← Reader.BlockCount reader;
  received ← make_slice false 1 count;
  match NewClient state_cell protocolDefinition (mkSender NoState reader received 0 metadata) with
  | (Ret c, s) => Ret (c, s)
  | (Panic p, _) => Panic p
  | (Hang, _) => Hang
  end.

Definition IsAborted (s : Sender F) : bool := State_Is (state s) aborted.
Definition IsDone (s : Sender F) : bool := State_Is (state s) done_ || IsAborted s.
Definition Abort_ : M (Sender F) (option error) := throw (PanicString "not implemented").
End Sender.
End Sender.

(** ** [receiver.go] *)
Module Receiver.

Definition sendAcknowledge : State := 0 + firstState.
Definition needBlock : State := 1 + firstState.
Definition handleBlock : State := 2 + firstState.
Definition needDataSent : State := 3 + firstState.
Definition sendDataReceived : State := 4 + firstState.

Definition NoMetadata : error := ErrText "header does not contain metadata".
Definition ZeroBlockSize : error := ErrText "header contains an illegal block size of 0".

(** A nil pointer or a nil slice is [None]. *)
Record Receiver (F : Type) : Type := mkReceiver {
  state : State;
  writer : option (Writer.Writer F);
  nextBlockIndex : Z;
  lastBlock : option Block;
  redoBlocks : option (list Z);
  header : option Message
}.
Arguments mkReceiver {F} _ _ _ _ _ _.
Arguments state {F} _.
Arguments writer {F} _.
Arguments nextBlockIndex {F} _.
Arguments lastBlock {F} _.
Arguments redoBlocks {F} _.
Arguments header {F} _.

Section Receiver.
Context {F : Type} `{!WriteSeekCloser F}.

(** [WriterFactory]: opens the file to write to, or fails. *)
Context (writerFactory : Metadata → Z → outcome (F + error)).

Definition set_state (st : State) (s : Receiver F) : Receiver F :=
  mkReceiver st (writer s) (nextBlockIndex s) (lastBlock s) (redoBlocks s) (header s).
Definition set_writer (w : option (Writer.Writer F)) (s : Receiver F) : Receiver F :=
  mkReceiver (state s) w (nextBlockIndex s) (lastBlock s) (redoBlocks s) (header s).
Definition set_next (n : Z) (s : Receiver F) : Receiver F :=
  mkReceiver (state s) (writer s) n (lastBlock s) (redoBlocks s) (header s).
Definition set_last (b : option Block) (s : Receiver F) : Receiver F :=
  mkReceiver (state s) (writer s) (nextBlockIndex s) b (redoBlocks s) (header s).
Definition set_redo (l : option (list Z)) (s : Receiver F) : Receiver F :=
  mkReceiver (state s) (writer s) (nextBlockIndex s) (lastBlock s) l (header s).
Definition set_header (h : option Message) (s : Receiver F) : Receiver F :=
  mkReceiver (state s) (writer s) (nextBlockIndex s) (lastBlock s) (redoBlocks s) h.

Definition state_cell : lens (Receiver F) State := Lens state set_state.

Abbreviation HM := (M (Receiver F * StateHandle)).

Definition field {A} (f : Receiver F → A) : HM A := gets (f ∘ fst).
Definition update (f : Receiver F → Receiver F) : HM unit := modify (λ '(s, h), (f s, h)).

(** [s.writer.WriteBlock(b)]; the writer or the block may be nil. *)
Definition writer_WriteBlock (b : option Block) : HM (option error) :=
  w ← field writer;
  match w, b with
  | Some w, Some b =>
      let '(r, w') := Writer.WriteBlock b w in
      update (set_writer (Some w'));; lift r
  | _, _ => throw PanicNil
  end.

(** [s.writer.IsDone()] *)
Definition writer_IsDone : HM bool :=
  w ← field writer;
  match w with None => throw PanicNil | Some w => lift (Writer.IsDone w) end.

Definition writeAcknowledge : HM (option Message * option error) := mret (Some Acknowledge, None).
Definition writeDataReceived : HM (option Message * option error) := mret (Some DataReceived, None).
Definition writeAbort : HM (option Message * option error) := mret (Some (Abort 0), None).

(** The [Do] of the write transition at [handleBlock]. *)
Definition writeHandleBlock : HM (option Message * option error) :=
  last ← field lastBlock;
  redo ← field redoBlocks;
  message ← match last, redo with
            | Some b, _ => update (set_last None);; mret (Some (BlockReceived (Index b)))
            | None, Some l =>
                redoIndex ← lift (index l 0);
                (if zlen l =? 1 then update (set_redo None) else update (set_redo (Some (tail l))));;
                mret (Some (RedoBlock redoIndex))
            | None, None => mret None
            end;
  redo ← field redoBlocks;
  (if negb (is_nil redo) then Set_ state_cell handleBlock
   else
     isDone ← writer_IsDone;
     if isDone : bool then Set_ state_cell needDataSent else Set_ state_cell needBlock);;
  mret (message, None).

(** The [Do] of the transition for [Header]. *)
Definition readHeader (message : Message) : HM (option error) :=
  match message with
  | Header meta total_size block_size =>
      match meta with
      | None => mret (Some NoMetadata)
      | Some m =>
          if block_size =? 0 then mret (Some ZeroBlockSize)
          else
            file ← lift (writerFactory m total_size);
            match file with
            | inr e => mret (Some e)
            | inl f =>
                w ← lift (Writer.NewWriter f total_size block_size);
                update (set_writer (Some w));;
                update (set_header (Some message));;
                mret None
            end
      end
  | _ => throw PanicAssertion
  end.

(** The [Do] of the transition for [Block]. *)
Definition readBlock (message : Message) : HM (option error) :=
  match message with
  | BlockMsg b =>
      err ← writer_WriteBlock b;
      match b with
      | None => throw PanicNil
      | Some b =>
          if bool_decide (err = Some Writer.BadBlockChecksum)
          then update (set_redo (Some [Index b]));; mret None
          else match err with
          | Some e => mret (Some e)
          | None =>
              next ← field nextBlockIndex;
              (if Index b >? next then
                 _ ← lift (make_slice 0 8 (Index b - next));
                 update (set_redo (Some (seqZ next (Index b - next))))
               else if Index b <? next then throw (PanicString "block already written")
               else update (set_next (u64 (next + 1))));;
              update (set_last (Some b));;
              mret None
          end
      end
  | _ => throw PanicAssertion
  end.

Definition write_table : list (Key * list (Transition (DoHandler Message (Receiver F)))) := [
  (KeyState sendAcknowledge,
    [mkTransition None None needBlock (Some (WriteMessageHandler writeAcknowledge))]);
  (KeyState handleBlock,
    [mkTransition None (Some [handleBlock; needBlock; needDataSent]) NoState
      (Some (WriteMessageHandler writeHandleBlock))]);
  (KeyState sendDataReceived,
    [mkTransition None None done_ (Some (WriteMessageHandler writeDataReceived))]);
  (KeyState sendAbort,
    [mkTransition None None aborted (Some (WriteMessageHandler writeAbort))])
].

Definition read_table : list (Key * list (Transition (DoHandler Message (Receiver F)))) := [
  (KeyMessageType MessageTypeHeader, [
    mkTransition (Some [initialized]) None sendAcknowledge (Some (ReadMessageHandler readHeader))]);
  (KeyMessageType MessageTypeBlock, [
    mkTransition (Some [needBlock]) None handleBlock (Some (ReadMessageHandler readBlock))]);
  (KeyMessageType MessageTypeDataSent, [
    mkTransition (Some [needDataSent]) None sendDataReceived None])
].

Definition protocolDefinition : Definition_ Message (Receiver F) :=
  mkDefinition TransferProtocol true initialized done_ write_table read_table.

Definition NewReceiver : outcome (Client Message (Receiver F) * Receiver F) :=
  match NewClient state_cell protocolDefinition (mkReceiver NoState None 0 None None None) with
  | (Ret c, s) => Ret (c, s)
  | (Panic p, _) => Panic p
  | (Hang, _) => Hang
  end.

Definition IsAborted (s : Receiver F) : bool := State_Is (state s) aborted.
Definition IsDone (s : Receiver F) : bool := State_Is (state s) done_ || IsAborted s.
Definition Abort_ : M (Receiver F) (option error) := throw (PanicString "not implemented").
End Receiver.
End Receiver.
