(* ===== verification/TransferProps.v ===== *)
(** * TransferProps: what the two sides of a transfer do

    The protocol definitions of [Sender] and [Receiver] are well formed; the
    message types are encoded and decoded consistently; and, for a transfer of
    a file [d], what each side writes and reads at every point of the
    transfer, described by how many messages it has written and read. *)

From S2P Require Import Prelude GoSem Sha256 Files Block BlockProps Automaton Protocol Transfer.

Local Open Scope Z_scope.

(** ** The definitions are well formed *)

(** Decide the conditions on a transition table by computation. *)
Ltac table_ok_tac :=
  split; [by apply (bool_decide_unpack _); vm_compute|];
  repeat constructor; simpl; auto; by apply (bool_decide_unpack _); vm_compute.

#[export] Instance sender_state_laws {F} : LensLaws (@Sender.state_cell F).
Proof. split; by intros; destruct s. Qed.
#[export] Instance receiver_state_laws {F} : LensLaws (@Receiver.state_cell F).
Proof. split; by intros; destruct s. Qed.

Lemma sender_definition_ok {F} `{!ReadSeekCloser F} :
  definition_ok (@Sender.state_cell F) Sender.protocolDefinition.
Proof. split_and!; [done|done|table_ok_tac|table_ok_tac|by repeat constructor]. Qed.

Lemma receiver_definition_ok {F} `{!WriteSeekCloser F} wf :
  definition_ok (@Receiver.state_cell F) (Receiver.protocolDefinition wf).
Proof. split_and!; [done|done|table_ok_tac|table_ok_tac|by repeat constructor]. Qed.

(** What [NewReceiver] makes. *)
Lemma NewReceiver_eq {F} `{!WriteSeekCloser F} wf :
  Receiver.NewReceiver wf =
  Ret (client_of Receiver.state_cell (Receiver.protocolDefinition wf),
       Receiver.mkReceiver (F := F) initialized None 0 None None None).
Proof.
  unfold Receiver.NewReceiver. set (r0 := Receiver.mkReceiver _ _ _ _ _ _).
  pose proof (receiver_definition_ok wf) as Hok.
  by rewrite (proj2 (NewClient_Ret Receiver.state_cell (Receiver.protocolDefinition wf) r0 _ _
    (proj1 (proj1 (proj2 (proj2 Hok)))) (proj1 (proj1 (proj2 (proj2 (proj2 Hok))))))
    (conj Hok (conj eq_refl eq_refl))).
Qed.

(** ** Positions in a transfer

    A transfer of [N] blocks takes [N + 2] messages in each direction: the
    sender writes the header, the blocks in order and [DataSent], the receiver
    answers with [Acknowledge], one [BlockReceived] per block and
    [DataReceived].  A side is described by the number of messages it has
    written and the number it has read. *)
Section Positions.
Context (d : bytes) (bs : Z) (meta : Metadata).

Abbreviation N := (nblocks (zlen d) bs).

(** The messages of each side, by their position. *)
Definition sender_msg (i : Z) : Message :=
  if i =? 0 then Header (Some meta) (zlen d) bs
  else if i <=? N then BlockMsg (Some (the_block d bs (i - 1)))
  else DataSent [].
Definition receiver_msg (i : Z) : Message :=
  if i =? 0 then Acknowledge else if i <=? N then BlockReceived (i - 1) else DataReceived.

(** Blocks among the first [i] messages. *)
Definition blocks_in (i : Z) : Z := Z.max 0 (Z.min (i - 1) N).

Definition sender_state (a c : Z) : State :=
  if a =? 0 then initialized
  else if a <=? N then (if c =? 0 then Sender.inPrologue else Sender.inProgress)
  else if a =? N + 1 then (if c =? 0 then Sender.needAcknowledge else Sender.transferred)
  else if c =? N + 2 then done_ else Sender.needDataReceived.

Definition receiver_state (b d : Z) : State :=
  if b =? 0 then initialized
  else if b =? d then
    (if b <=? N then Receiver.needBlock else if b =? N + 1 then Receiver.needDataSent else done_)
  else
    (if b =? 1 then Receiver.sendAcknowledge
     else if b <=? N + 1 then Receiver.handleBlock else Receiver.sendDataReceived).

(** The blocks below [k] are marked. *)
Definition bits (k : Z) : list bool := (λ i, bool_decide (i < k)) <$> seqZ 0 N.

Lemma lookup_bits k i : 0 ≤ i < N → bits k !! Z.to_nat i = Some (bool_decide (i < k)).
Proof.
  intros Hi. unfold bits. rewrite list_lookup_fmap, lookup_seqZ_lt by lia. simpl.
  by rewrite Z.add_0_l, Z2Nat.id by lia.
Qed.

Lemma length_bits k : length (bits k) = Z.to_nat N.
Proof. unfold bits. by rewrite length_fmap, length_seqZ. Qed.

Lemma bits_0 : bits 0 = replicate (Z.to_nat N) false.
Proof.
  apply list_eq. intros i. unfold bits. rewrite list_lookup_fmap.
  destruct (decide (i < Z.to_nat N)%nat).
  - rewrite lookup_seqZ_lt by lia. simpl.
    rewrite bool_decide_eq_false_2 by lia. symmetry. by apply lookup_replicate_2.
  - rewrite lookup_seqZ_ge by lia. symmetry. apply lookup_replicate_None. lia.
Qed.

Lemma bits_mark k : 0 ≤ k < N → <[Z.to_nat k := true]> (bits k) = bits (k + 1).
Proof.
  intros Hk. apply list_eq. intros i. destruct (decide (i < Z.to_nat N)%nat) as [Hi|Hi].
  - replace i with (Z.to_nat (Z.of_nat i)) by lia. rewrite (lookup_bits (k + 1)) by lia.
    destruct (decide (k = Z.of_nat i)) as [->|Hne].
    + rewrite list_lookup_insert_eq by (rewrite length_bits; lia).
      by rewrite bool_decide_eq_true_2 by lia.
    + rewrite list_lookup_insert_ne, lookup_bits by lia. f_equal. apply bool_decide_ext. lia.
  - rewrite !lookup_ge_None_2; [done|..]; rewrite ?length_insert, length_bits; lia.
Qed.
End Positions.

Ltac positions :=
  unfold sender_msg, receiver_msg, blocks_in, sender_state, receiver_state in *;
  repeat (case_goal; zbool; try lia); try done.

(** ** The sender *)
Section SenderSteps.
Context {F : Type} `{FileReader F}.
Context (d : bytes) (bs : Z) (meta : Metadata) (Hd : dims (zlen d) bs) (Hne : 0 < zlen d).
Abbreviation N := (nblocks (zlen d) bs).
Abbreviation client := (client_of Sender.state_cell (@Sender.protocolDefinition F _)).
Implicit Types s : Sender.Sender F.

Lemma N_pos : 0 < N.
Proof. apply (nblocks_lt _ _ Hd); lia. Qed.

(** The sender after it has written [a] messages and read [c]. *)
Record sender_at (a c : Z) s : Prop := {
  sa_state : Sender.state s = sender_state d bs a c;
  sa_reader : reader_inv d bs (Sender.reader s);
  sa_redo : Reader.redoBlocks (Sender.reader s) = [];
  sa_next : Reader.nextIndex (Sender.reader s) = blocks_in d bs a;
  sa_received : Sender.received s = bits d bs (blocks_in d bs c);
  sa_count : Sender.receivedCount s = blocks_in d bs c;
  sa_meta : Sender.metadata s = Some meta
}.

Lemma NewSender_at f :
  fr_holds f d →
  ∃ s, Sender.NewSender (Some meta) (Reader.NewBlockReader f (zlen d) bs) = Ret (client, s) ∧
    sender_at 0 0 s.
Proof.
  intros Hf. unfold Sender.NewSender, Reader.BlockCount. simpl.
  pose proof (nblocks_nonneg _ _ Hd). pose proof (nblocks_bound _ _ Hd). pose proof Hd as [? _].
  rewrite (BlockCount_eq _ _ Hd). simpl. rewrite make_slice_ok by lia. simpl.
  set (s0 := Sender.mkSender _ _ _ _ _).
  pose proof (NewClient_Ret Sender.state_cell (@Sender.protocolDefinition F _) s0) as HN.
  rewrite (proj2 (HN _ _ (proj1 (proj1 (proj2 (proj2 sender_definition_ok))))
    (proj1 (proj1 (proj2 (proj2 (proj2 sender_definition_ok))))))
    (conj sender_definition_ok (conj eq_refl eq_refl))).
  eexists. split; [done|]. split; simpl; try done.
  - by apply NewBlockReader_inv.
  - unfold blocks_in. lia.
  - replace (blocks_in d bs 0) with 0 by (unfold blocks_in; lia). by rewrite bits_0.
  - unfold blocks_in. lia.
Qed.

Lemma sender_CanWrite a c s :
  sender_at a c s → 0 ≤ a ≤ N + 2 → 0 ≤ c →
  CanWrite Sender.state_cell client s = (a <=? N) || ((a =? N + 1) && negb (c =? 0)).
Proof.
  intros Hs Ha Hc. unfold CanWrite. cbn [lget Sender.state_cell]. rewrite (sa_state _ _ _ Hs).
  unfold sender_state. pose proof N_pos.
  destruct (Z.eqb_spec a 0); [zcond; reflexivity|].
  destruct (Z.leb_spec a N); [by destruct (c =? 0)|].
  destruct (Z.eqb_spec a (N + 1)); [by destruct (c =? 0)|].
  by destruct (c =? N + 2).
Qed.

(** The handler that writes the next block. *)
Lemma writeBlock_ok a c s whenDone otherwise :
  sender_at a c s → 1 ≤ a ≤ N →
  ∃ r', Sender.writeBlock whenDone otherwise
      (s, NewStateHandle [Sender.state s] [otherwise; whenDone]) =
    (Ret (Some (sender_msg d bs meta a), None),
     (Sender.mkSender (if a =? N then whenDone else otherwise) r' (Sender.received s)
        (Sender.receivedCount s) (Sender.metadata s),
      mkHandle [Sender.state s] [otherwise; whenDone] true)) ∧
    reader_inv d bs r' ∧ Reader.redoBlocks r' = [] ∧ Reader.nextIndex r' = a.
Proof.
  intros Hs Ha. pose proof (sa_next _ _ _ Hs) as Hnext. pose proof (sa_reader _ _ _ Hs) as Hr.
  replace (blocks_in d bs a) with (a - 1) in Hnext by (unfold blocks_in; lia).
  assert (Reader.HasData (Sender.reader s) = true) as Hdata.
  { unfold Reader.HasData. rewrite (Reader_IsDone_iff d bs Hd _ Hr), bool_decide_eq_false_2; [done|].
    intros [_ ?]. lia. }
  destruct (NextBlock_ok d bs Hd _ Hr Hdata) as (i & r' & HN & Hr' & Hi & Hrest).
  rewrite (sa_redo _ _ _ Hs) in Hrest. destruct Hrest as (-> & Hredo & Hn').
  exists r'. split; [|split_and!; [done|done|lia]].
  unfold Sender.writeBlock, Sender.field. rewrite bind_gets. simpl. rewrite Hdata. simpl.
  erewrite bind_Ret; [|apply zoom_fst, zoom_eq; exact HN]. cbv beta iota. rewrite bind_gets. simpl.
  rewrite (Reader_IsDone_iff d bs Hd _ Hr'), Hnext.
  replace (sender_msg d bs meta a) with (BlockMsg (Some (the_block d bs (a - 1))))
    by (unfold sender_msg; zcond; done).
  destruct (Z.eqb_spec a N).
  - rewrite bool_decide_eq_true_2 by (split; [done|lia]).
    erewrite bind_Ret by (apply Set_ok; [by right; left|done]). done.
  - rewrite bool_decide_eq_false_2 by (intros [_ ?]; lia).
    erewrite bind_Ret by (apply Set_ok; [by left|done]). done.
Qed.

(** Either state in which a block is written. *)
Lemma sender_write_block a c s cur whenDone otherwise :
  sender_at a c s → 1 ≤ a ≤ N → sender_state d bs a c = cur →
  sender_state d bs (a + 1) c = (if a =? N then whenDone else otherwise) →
  (KeyState cur, [mkTransition None (Some [otherwise; whenDone]) NoState
     (Some (WriteMessageHandler (Sender.writeBlock whenDone otherwise)))]) ∈ Sender.write_table →
  ∃ s', WriteMessage Sender.state_cell client s = (Ret (Some (sender_msg d bs meta a), None), s') ∧
    sender_at (a + 1) c s'.
Proof.
  intros Hs Ha Hcur Hto Hin. pose proof Hs as [Hst Hr Hredo Hnext Hrec Hcnt Hmeta].
  destruct (writeBlock_ok a c s whenDone otherwise Hs Ha) as (r' & HW & Hr' & Hredo' & Hn').
  rewrite Hst, Hcur in HW. eexists. split.
  - eapply WriteMessage_ok; [apply sender_definition_ok| |exact Hin|exact HW|done].
    by rewrite <- Hcur.
  - split; simpl; try done. rewrite Hn'. unfold blocks_in. lia.
Qed.

(** The sender writes the message that is due. *)
Lemma sender_write a c s :
  sender_at a c s → 0 ≤ a ≤ N + 1 → 0 ≤ c ≤ a → (a = N + 1 → 0 < c) →
  ∃ s', WriteMessage Sender.state_cell client s = (Ret (Some (sender_msg d bs meta a), None), s') ∧
    sender_at (a + 1) c s'.
Proof.
  intros Hs Ha Hc Hlast. pose proof N_pos as HN. pose proof Hs as [Hst Hr Hredo Hnext Hrec Hcnt Hmeta].
  assert (a = 0 ∨ (1 ≤ a ≤ N ∧ c = 0) ∨ (1 ≤ a ≤ N ∧ 0 < c) ∨ a = N + 1)
    as [->|[[Hb ->]|[[Hb Hc0]| ->]]] by lia.
  - eexists. split.
    + eapply WriteMessage_ok; [apply sender_definition_ok|exact Hst|left| |done].
      unfold Sender.writeHeader, mbind, M_bind, gets. simpl. unfold Sender.createHeader.
      by rewrite (ri_total _ _ _ Hr), (ri_bs _ _ _ Hr), Hmeta.
    + split; simpl; try done; unfold sender_state, blocks_in in *; zcond; (done || lia).
  - eapply sender_write_block; [done|done|unfold sender_state; by zcond| |right; left].
    unfold sender_state. zcond. destruct (Z.eqb_spec a N); by zcond.
  - eapply sender_write_block; [done|done|unfold sender_state; by zcond| |right; right; left].
    unfold sender_state. zcond. destruct (Z.eqb_spec a N); by zcond.
  - eexists. split.
    + eapply WriteMessage_ok; [apply sender_definition_ok| |do 3 right; left|..].
      * etransitivity; [exact Hst|]. unfold sender_state. by zcond.
      * unfold Sender.writeDataSent, mret, M_ret, sender_msg. by zcond.
      * done.
    + split; simpl; try done; unfold sender_state, blocks_in in *; zcond; (done || lia).
Qed.

(** The handler that notes the receipt of a block. *)
Lemma readBlockReceived_ok a c s at_ :
  sender_at a c s → 1 ≤ c ≤ N →
  Sender.readBlockReceived (receiver_msg d bs c) (s, NewStateHandle at_ []) =
  (Ret None, (Sender.mkSender (Sender.state s) (Sender.reader s) (bits d bs c) c
                (Sender.metadata s), NewStateHandle at_ [])).
Proof.
  intros [Hst Hr Hredo Hnext Hrec Hcnt Hmeta] Hc.
  replace (blocks_in d bs c) with (c - 1) in * by (unfold blocks_in; lia).
  replace (receiver_msg d bs c) with (BlockReceived (c - 1)) by (unfold receiver_msg; by zcond).
  unfold Sender.readBlockReceived, Sender.field. rewrite bind_gets. simpl. rewrite Hrec.
  assert (index (bits d bs (c - 1)) (c - 1) = Ret false) as Hget.
  { apply index_Some; [lia|]. rewrite lookup_bits by lia. by rewrite bool_decide_eq_false_2 by lia. }
  assert (assign (bits d bs (c - 1)) (c - 1) true = Ret (bits d bs c)) as Hset.
  { rewrite assign_in, bits_mark, Z.sub_add; [done|lia|].
    pose proof (length_bits d bs (c - 1)). unfold zlen at 1. lia. }
  pose proof (nblocks_bound _ _ Hd). pose proof Hd as [? _]. rewrite max_alloc_eq in *.
  unfold lift, mbind, M_bind, modify, gets. rewrite Hget, Hset. simpl.
  unfold Reader.BlockCount. rewrite (ri_total _ _ _ Hr), (ri_bs _ _ _ Hr), (BlockCount_eq _ _ Hd).
  rewrite Hcnt, Z.sub_add, u64_small, Z.gtb_ltb by lia. by zcond.
Qed.

(** A receipt is taken in each of the three states that follow the prologue. *)
Lemma sender_read_receipt a c s st :
  sender_at a c s → 1 ≤ c ≤ N → Sender.state s = st →
  st ∈ [Sender.inProgress; Sender.transferred; Sender.needDataReceived] →
  ReadMessage Sender.state_cell client (receiver_msg d bs c) s =
  (Ret None, Sender.mkSender st (Sender.reader s) (bits d bs c) c (Sender.metadata s)).
Proof.
  intros Hs Hc Hst Hin.
  assert (mkTransition (Some [st]) None NoState (Some (ReadMessageHandler Sender.readBlockReceived))
    ∈ (λ x, mkTransition (Some [x]) None NoState
         (Some (ReadMessageHandler (@Sender.readBlockReceived F)))) <$>
       [Sender.inProgress; Sender.transferred; Sender.needDataReceived]) as Ht
    by (apply list_elem_of_fmap; eauto).
  etransitivity; [eapply ReadMessage_ok|].
  - apply sender_definition_ok.
  - unfold receiver_msg. zcond. reflexivity.
  - done.
  - exact Hst.
  - right. left.
  - exact Ht.
  - by left.
  - by apply readBlockReceived_ok with (a := a).
  - by rewrite <- Hst.
Qed.

(** The sender reads the message that is due. *)
Lemma sender_read a c s :
  sender_at a c s → 0 ≤ c ≤ N + 1 → c + 1 ≤ a ≤ N + 2 → (c = 0 → a ≤ N + 1) →
  ∃ s', ReadMessage Sender.state_cell client (receiver_msg d bs c) s = (Ret None, s') ∧
    sender_at a (c + 1) s'.
Proof.
  intros Hs Hc Ha Hack. pose proof N_pos as HN. pose proof Hs as [Hst Hr Hredo Hnext Hrec Hcnt Hmeta].
  assert (c = 0 ∨ 1 ≤ c ≤ N ∨ c = N + 1) as [->|[Hb| ->]] by lia.
  - assert (blocks_in d bs (0 + 1) = blocks_in d bs 0) as Hbl by (unfold blocks_in; lia).
    rewrite <- Hbl in Hrec, Hcnt. destruct (decide (a = N + 1)) as [->|].
    + eexists. split.
      * eapply ReadMessage_move; [apply sender_definition_ok|done|done|exact Hst|left|right; left| |done].
        unfold sender_state. zcond. by left.
      * split; simpl; try done. unfold sender_state. by zcond.
    + eexists. split.
      * eapply ReadMessage_move; [apply sender_definition_ok|done|done|exact Hst|left|left| |done].
        unfold sender_state. zcond. by left.
      * split; simpl; try done. unfold sender_state. by zcond.
  - assert (TransferTypeOf (receiver_msg d bs c) = Ret (KeyMessageType MessageTypeBlockReceived))
      as Hty by (unfold receiver_msg; by zcond).
    assert (blocks_in d bs (c + 1) = c) as Hbl by (unfold blocks_in; lia).
    assert (sender_state d bs a (c + 1) = sender_state d bs a c) as Hsame
      by (unfold sender_state; by zcond).
    eexists. split; [apply (sender_read_receipt a c s (Sender.state s) Hs Hb eq_refl)|].
    + rewrite Hst. unfold sender_state. zcond.
      destruct (a <=? N), (a =? N + 1); try zcond; set_solver.
    + split; simpl; try done; by rewrite ?Hbl, ?Hsame.
  - assert (a = N + 2) as -> by lia. eexists. split.
    + eapply (ReadMessage_ok _ _ _ _ _ (KeyMessageType MessageTypeDataReceived));
        [apply sender_definition_ok| |done|exact Hst|do 3 right; left|left| |].
      * unfold receiver_msg. by zcond.
      * unfold sender_state. zcond. by left.
      * unfold Sender.readDataReceived. rewrite bind_gets. simpl. unfold lift, mbind, M_bind, Reader.BlockCount.
        rewrite (ri_total _ _ _ Hr), (ri_bs _ _ _ Hr), (BlockCount_eq _ _ Hd), Hcnt.
        unfold blocks_in. by zcond.
    + assert (blocks_in d bs (N + 1 + 1) = blocks_in d bs (N + 1)) as Hbl by (unfold blocks_in; lia).
      rewrite <- Hbl in Hrec, Hcnt. split; simpl; try done. unfold sender_state. by zcond.
Qed.
End SenderSteps.

(** ** The receiver *)
Section ReceiverSteps.
Context {F : Type} `{FileWriter F}.
Context (d : bytes) (bs : Z) (meta : Metadata) (Hd : dims (zlen d) bs) (Hne : 0 < zlen d).
(** The factory opens a file of the announced size. *)
Context (wf : Metadata → Z → outcome (F + error)) (f0 : F) (c0 : bytes).
Context (Hwf : wf meta (zlen d) = Ret (inl f0)) (Hf0 : fw_holds f0 c0) (Hc0 : zlen c0 = zlen d).
Abbreviation N := (nblocks (zlen d) bs).
Abbreviation client := (client_of Receiver.state_cell (Receiver.protocolDefinition wf)).
Implicit Types r : Receiver.Receiver F.

(** The receiver has written the first [k] blocks to its file. *)
Definition has_written (k : Z) (w : option (Writer.Writer F)) : Prop :=
  ∃ w' c l, w = Some w' ∧ writer_rep (zlen d) bs w' c (blocks_of d bs l) ∧
    ∀ i, i ∈ l ↔ 0 ≤ i < k.

(** The receiver after it has read [b] messages and written [e]. *)
Record receiver_at (b e : Z) r : Prop := {
  ra_state : Receiver.state r = receiver_state d bs b e;
  ra_writer : 0 < b → has_written (blocks_in d bs b) (Receiver.writer r);
  ra_next : Receiver.nextBlockIndex r = blocks_in d bs b;
  ra_last : Receiver.lastBlock r =
    if (b =? e + 1) && (2 <=? b) && (b <=? N + 1) then Some (the_block d bs (b - 2)) else None;
  ra_redo : Receiver.redoBlocks r = None
}.

Lemma has_written_IsDone k w' c l :
  writer_rep (zlen d) bs w' c (blocks_of d bs l) → (∀ i, i ∈ l ↔ 0 ≤ i < k) → 0 ≤ k ≤ N →
  Writer.IsDone w' = Ret (k =? N).
Proof.
  intros Hrep Hl Hk. erewrite Writer_IsDone_iff by done. f_equal.
  destruct (Z.eqb_spec k N) as [->|Hkn].
  - apply bool_decide_eq_true_2, store_full_blocks_of. intros i Hi. apply elem_of_seqZ in Hi. apply Hl. lia.
  - apply bool_decide_eq_false_2. rewrite store_full_lookup. intros Hfull.
    destruct (Hfull k ltac:(lia)) as [x Hx]. rewrite lookup_blocks_of in Hx.
    rewrite bool_decide_eq_false_2 in Hx; [done|]. rewrite Hl. lia.
Qed.

Lemma NewReceiver_at :
  ∃ r, Receiver.NewReceiver wf = Ret (client, r) ∧ receiver_at 0 0 r.
Proof.
  rewrite NewReceiver_eq.
  eexists. split; [done|]. split; simpl; try done; try lia. unfold blocks_in. lia.
Qed.

Lemma receiver_CanWrite b e r :
  receiver_at b e r → 0 ≤ e ≤ b → b ≤ N + 2 → CanWrite Receiver.state_cell client r = negb (b =? e).
Proof.
  intros Hr He Hb. unfold CanWrite. cbn [lget Receiver.state_cell]. rewrite (ra_state _ _ _ Hr).
  unfold receiver_state. pose proof (nblocks_nonneg _ _ Hd).
  destruct (Z.eqb_spec b 0); [by zcond|].
  destruct (Z.eqb_spec b e); [by destruct (b <=? N), (b =? N + 1)|].
  by destruct (b =? 1), (b <=? N + 1).
Qed.

(** The receiver reads the message that is due. *)
Lemma receiver_read b r :
  receiver_at b b r → 0 ≤ b ≤ N + 1 →
  ∃ r', ReadMessage Receiver.state_cell client (sender_msg d bs meta b) r = (Ret None, r') ∧
    receiver_at (b + 1) b r'.
Proof.
  intros Hr Hb. pose proof (N_pos d bs Hd Hne) as HN. pose proof Hr as [Hst Hw Hnext Hlast Hredo].
  revert Hlast. zcond. cbn [andb]. intros Hlast.
  assert (b = 0 ∨ 1 ≤ b ≤ N ∨ b = N + 1) as [->|[Hbl| ->]] by lia.
  - destruct (NewWriter_rep (zlen d) bs Hd f0 c0 Hf0 Hc0) as (w & HW & Hrep).
    eexists. split.
    + eapply ReadMessage_ok; [apply receiver_definition_ok|done|done|exact Hst|left|left|by left|].
      simpl. pose proof Hd as [_ ?]. zcond. unfold lift, mbind, M_bind. rewrite Hwf, HW. done.
    + split; simpl; try done.
      * intros _. exists w, c0, []. split_and!; [done|done|]. intros i.
        unfold blocks_in. rewrite elem_of_nil. lia.
      * rewrite Hnext. unfold blocks_in. lia.
  - destruct (Hw ltac:(lia)) as (w & c & l & Hwr & Hrep & Hl).
    assert (blocks_in d bs b = b - 1) as Hbi by (unfold blocks_in; lia).
    rewrite Hbi in *.
    destruct (WriteBlock_new d bs Hd w c l (b - 1) Hrep) as (w' & c' & HW & Hrep');
      [lia|rewrite Hl; lia|].
    eexists. split.
    + eapply (ReadMessage_ok _ _ _ _ _ (KeyMessageType MessageTypeBlock));
        [apply receiver_definition_ok| |done|exact Hst|right; left|left| |].
      * unfold sender_msg. by zcond.
      * unfold receiver_state. zcond. by left.
      * unfold sender_msg. zcond.
        unfold Receiver.readBlock, Receiver.writer_WriteBlock, Receiver.field, Receiver.update.
        unfold gets, lift, mbind, M_bind, modify. simpl. rewrite Hwr. simpl. rewrite HW. simpl.
        rewrite Hnext, Z.gtb_ltb, Z.ltb_irrefl. done.
    + split; simpl; try done.
      * unfold receiver_state. zcond. done.
      * intros _. exists w', c', (b - 1 :: l). split_and!; [done|done|].
        intros i. rewrite elem_of_cons, Hl. unfold blocks_in. lia.
      * pose proof (nblocks_bound _ _ Hd). pose proof Hd as [? _].
        rewrite max_alloc_eq in *. unfold blocks_in. rewrite u64_small by lia. lia.
      * zcond. cbn [andb]. by replace (b + 1 - 2) with (b - 1) by lia.
  - eexists. split.
    + eapply (ReadMessage_move _ _ _ _ _ (KeyMessageType MessageTypeDataSent));
        [apply receiver_definition_ok| |done|exact Hst|do 2 right; left|left| |done].
      * unfold sender_msg. by zcond.
      * unfold receiver_state. zcond. by left.
    + split; simpl; try done.
      * unfold receiver_state. by zcond.
      * intros _. replace (blocks_in d bs (N + 1 + 1)) with (blocks_in d bs (N + 1))
          by (unfold blocks_in; lia). apply Hw. lia.
      * rewrite Hnext. unfold blocks_in. lia.
      * rewrite Hlast. by zcond.
Qed.

(** The handler that acknowledges a block. *)
Lemma writeHandleBlock_ok b r w :
  Receiver.lastBlock r = Some (the_block d bs (b - 1)) → Receiver.redoBlocks r = None →
  Receiver.writer r = Some w → Writer.IsDone w = Ret (b =? N) → 1 ≤ b ≤ N →
  let targets := [Receiver.handleBlock; Receiver.needBlock; Receiver.needDataSent] in
  Receiver.writeHandleBlock (r, NewStateHandle [Receiver.handleBlock] targets) =
  (Ret (Some (receiver_msg d bs b), None),
   (Receiver.set_state (if b =? N then Receiver.needDataSent else Receiver.needBlock)
      (Receiver.set_last None r),
    mkHandle [Receiver.handleBlock] targets true)).
Proof.
  intros Hlast Hredo Hw Hdone Hb targets.
  unfold Receiver.writeHandleBlock, Receiver.field, Receiver.update.
  unfold gets, modify, mbind, M_bind. simpl. rewrite Hlast. simpl. rewrite Hredo. simpl.
  unfold Receiver.writer_IsDone, Receiver.field, gets, mbind, M_bind, lift. simpl.
  rewrite Hw, Hdone. unfold receiver_msg. zcond.
  destruct (b =? N); rewrite Set_ok; first [done | apply (bool_decide_unpack _); exact I].
Qed.

(** The receiver writes the message that is due. *)
Lemma receiver_write b r :
  receiver_at (b + 1) b r → 0 ≤ b ≤ N + 1 →
  ∃ r', WriteMessage Receiver.state_cell client r = (Ret (Some (receiver_msg d bs b), None), r') ∧
    receiver_at (b + 1) (b + 1) r'.
Proof.
  intros Hr Hb. pose proof (N_pos d bs Hd Hne) as HN. pose proof Hr as [Hst Hw Hnext Hlast Hredo].
  revert Hlast. zcond. cbn [andb]. intros Hlast.
  assert (b = 0 ∨ 1 ≤ b ≤ N ∨ b = N + 1) as [->|[Hbl| ->]] by lia.
  - eexists. split.
    + by eapply WriteMessage_ok; [apply receiver_definition_ok|exact Hst|left| |].
    + split; simpl; try done; unfold receiver_state; by zcond.
  - destruct (Hw ltac:(lia)) as (w & c & l & Hwr & Hrep & Hl).
    assert (blocks_in d bs (b + 1) = b) as Hbi by (unfold blocks_in; lia).
    rewrite Hbi in *. revert Hlast. zcond. cbn [andb]. intros Hlast.
    pose proof (has_written_IsDone b w c l Hrep Hl ltac:(lia)) as Hdone.
    assert (Receiver.lastBlock r = Some (the_block d bs (b - 1))) as Hlast'
      by (rewrite Hlast; replace (b + 1 - 2) with (b - 1) by lia; reflexivity).
    pose proof (writeHandleBlock_ok b r w Hlast' Hredo Hwr Hdone Hbl) as Hh.
    eexists. split.
    + eapply WriteMessage_ok; [apply receiver_definition_ok| |right; left|exact Hh|done].
      etransitivity; [exact Hst|]. unfold receiver_state. by zcond.
    + split; simpl; try done.
      * unfold receiver_state. zcond. destruct (Z.eqb_spec b N); by zcond.
      * intros _. rewrite Hbi. by exists w, c, l.
      * by rewrite Hbi.
      * by zcond.
  - eexists. split.
    + eapply WriteMessage_ok; [apply receiver_definition_ok| |do 2 right; left| |].
      * etransitivity; [exact Hst|]. unfold receiver_state. by zcond.
      * unfold Receiver.writeDataReceived, mret, M_ret, receiver_msg. by zcond.
      * done.
    + split; simpl; try done; unfold receiver_state; zcond; try done.
      rewrite Hlast. by zcond.
Qed.
End ReceiverSteps.
