(* ===== verification/Loop.v ===== *)
(** * Loop: the read-write loop of a protocol client ([lib/protocol/loop.go])

    [Loop.Run] starts a goroutine that reads messages from the connection and
    offers them on a channel; the calling goroutine writes the client's
    messages and takes the offered ones.  The two goroutines are the two
    halves of a [Loop] state and an execution is a sequence of their steps, in
    any order.  A step is named by an [event]; which events can happen in a
    state, and what they do, is an executable function. *)

From S2P Require Import Prelude GoSem Automaton Protocol.

Local Open Scope Z_scope.

(** The interface [ReadWriter].  A call that cannot proceed is [None]. *)
Class ReadWriter (C Msg : Type) : Type := {
  conn_Write : Msg → C → option (option error * C);
  conn_Read : C → option ((Msg + error) * C)
}.

(** ** States of the two goroutines *)

(** The reading goroutine: in [l.conn.Read()]; between the read and the
    [select]; blocked in the [select]; ended. *)
Inductive reader_phase (Msg : Type) : Type :=
| Reading
| Got (m : Msg)
| Offering (m : Msg)
| Exited.
Arguments Reading {Msg}.
Arguments Got {Msg} _.
Arguments Offering {Msg} _.
Arguments Exited {Msg}.

(** The calling goroutine: in the loop; returned; ended by a panic; blocked. *)
Inductive main_phase : Type :=
| Running
| Returned (err : option error)
| Panicked (p : panic)
| Blocked.

Record Loop (Msg W : Type) : Type := mkLoop {
  store : W;
  main : main_phase;
  reading : reader_phase Msg;
  errs : option error;
  done_closed : bool
}.
Arguments mkLoop {Msg W} _ _ _ _ _.
Arguments store {Msg W} _.
Arguments main {Msg W} _.
Arguments reading {Msg W} _.
Arguments errs {Msg W} _.
Arguments done_closed {Msg W} _.

(** The state in which [Run] enters its loop. *)
Definition Run_start {Msg W} (w : W) : Loop Msg W := mkLoop w Running Reading None false.

(** What a goroutine does next. *)
Inductive event : Type :=
| ReaderRead      (* l.conn.Read() returns *)
| ReaderOffer     (* the select of the reading goroutine is entered *)
| ReaderExit      (* its case <-done is taken *)
| MainDone        (* the protocol is done *)
| MainWrite       (* l.write() *)
| MainReceive     (* case message = <-in *)
| MainError.      (* case err = <-errs *)

Section Loop.
Context {Msg W C : Type} `{!ReadWriter C Msg} (st : lens W State) (client : Client Msg W).
Implicit Types l : Loop Msg W.

Definition set_main (w : W) (m : main_phase) l : Loop Msg W :=
  mkLoop w m (reading l) (errs l) (done_closed l).
Definition set_reading (r : reader_phase Msg) l : Loop Msg W :=
  mkLoop (store l) (main l) r (errs l) (done_closed l).

(** How the loop goes on after a call that may return an error. *)
Definition continue (err : option error) : main_phase :=
  match err with None => Running | Some e => Returned (Some e) end.

(** [Loop.write] *)
Definition write l (c : C) : option (Loop Msg W * C) :=
  match WriteMessage st client (store l) with
  | (Panic p, w) => Some (set_main w (Panicked p) l, c)
  | (Hang, w) => Some (set_main w Blocked l, c)
  | (Ret (_, Some e), w) => Some (set_main w (Returned (Some e)) l, c)
  | (Ret (None, None), w) => Some (set_main w (Panicked PanicNil) l, c)
  | (Ret (Some m, None), w) =>
      '(err, c) ← conn_Write m c;
      Some (set_main w (continue err) l, c)
  end.

(** [err = l.client.ReadMessage(message); if err != nil { return }] *)
Definition receive (m : Msg) l : Loop Msg W :=
  match ReadMessage st client m (store l) with
  | (Panic p, w) => set_main w (Panicked p) l
  | (Hang, w) => set_main w Blocked l
  | (Ret err, w) => set_main w (continue err) l
  end.

(** The loop is past the test for [IsDone]. *)
Definition in_loop l : bool :=
  match main l with Running => negb (IsDone st client (store l)) | _ => false end.

(** A case of the main goroutine's [select] is ready. *)
Definition ready l : bool :=
  match reading l with Offering _ => true | _ => negb (is_nil (errs l)) end.

Definition loop_step (e : event) (s : Loop Msg W * C) : option (Loop Msg W * C) :=
  let '(l, c) := s in
  match e with
  | ReaderRead =>
      match reading l with
      | Reading =>
          '(r, c) ← conn_Read c;
          Some (match r with
                | inl m => set_reading (Got m) l
                | inr err => mkLoop (store l) (main l) Exited (Some err) (done_closed l)
                end, c)
      | _ => None
      end
  | ReaderOffer =>
      match reading l with Got m => Some (set_reading (Offering m) l, c) | _ => None end
  | ReaderExit =>
      match reading l with
      | Offering _ => if done_closed l then Some (set_reading Exited l, c) else None
      | _ => None
      end
  | MainDone =>
      match main l with
      | Running =>
          if IsDone st client (store l)
          then Some (mkLoop (store l) (Returned None) (reading l) (errs l) true, c) else None
      | _ => None
      end
  | MainWrite =>
      if in_loop l && (MustWrite st client (store l) ||
                       (CanWrite st client (store l) && negb (ready l)))
      then write l c else None
  | MainReceive =>
      match reading l with
      | Offering m =>
          if in_loop l && negb (MustWrite st client (store l))
          then Some (set_reading Reading (receive m l), c) else None
      | _ => None
      end
  | MainError =>
      match errs l with
      | Some err =>
          if in_loop l && negb (MustWrite st client (store l))
          then Some (mkLoop (store l) (Returned (Some err)) (reading l) None (done_closed l), c)
          else None
      | None => None
      end
  end.

(** One step of one of the goroutines. *)
Definition step (s s' : Loop Msg W * C) : Prop := ∃ e, loop_step e s = Some s'.
End Loop.

(** A connection of unbounded first-in first-out queues: what is to be read
    and what was written. *)
#[export] Instance queue_ReadWriter {Msg} : ReadWriter (list Msg * list Msg) Msg := {|
  conn_Write m c := Some (None, (c.1, c.2 ++ [m]));
  conn_Read c := match c.1 with m :: l => Some (inl m, (l, c.2)) | [] => None end
|}.

(** ** What a loop guarantees *)
Section LoopProps.
Context {Msg W C : Type} `{!ReadWriter C Msg} (st : lens W State) (client : Client Msg W).
Implicit Types l : Loop Msg W.

(** The loop ends without an error only when the protocol is done, and it
    closes [done] exactly then. *)
Definition ends_done l : Prop :=
  (main l = Returned None ↔ done_closed l = true) ∧
  (main l = Returned None → IsDone st client (store l) = true).

Lemma continue_not_nil err : continue err ≠ Returned None.
Proof. by destruct err. Qed.

Lemma in_loop_running l : in_loop st client l = true → main l = Running.
Proof. unfold in_loop. by destruct (main l). Qed.

(** A step of the main goroutine that does not end the loop without an error. *)
Lemma set_main_ends l w m r e :
  ends_done l → in_loop st client l = true → m ≠ Returned None →
  ends_done (mkLoop w m r e (done_closed l)).
Proof.
  intros [Hiff _] Hin Hm. apply in_loop_running in Hin. rewrite Hin in Hiff.
  split; simpl; [|done]. split; [done|]. intros Hc. apply Hiff in Hc. done.
Qed.

Lemma loop_step_ends e l (c : C) l' c' :
  ends_done l → loop_step st client e (l, c) = Some (l', c') → ends_done l'.
Proof.
  intros Hl H. destruct e; simpl in H.
  - destruct (reading l); try discriminate. destruct (conn_Read c) as [[[m|err] c1]|]; simplify_eq/=; done.
  - destruct (reading l); simplify_eq/=; done.
  - destruct (reading l); try discriminate. destruct (done_closed l) eqn:E; simplify_eq/=.
    destruct Hl as [Hiff Hdone]. split; simpl; [by rewrite Hiff, E|done].
  - destruct (main l); try discriminate. destruct (IsDone _ _ _) eqn:E; simplify_eq/=. done.
  - destruct (in_loop st client l) eqn:Hin; [|discriminate]. simpl in H.
    destruct (_ || _); [|discriminate]. unfold write in H.
    destruct (WriteMessage _ _ _) as [[[[m|] [err|]]|p|] w]; simplify_eq/=;
      try (by apply set_main_ends).
    destruct (conn_Write m c) as [[err c1]|]; simplify_eq/=.
    apply set_main_ends; [done|done|apply continue_not_nil].
  - destruct (reading l); try discriminate.
    destruct (in_loop st client l) eqn:Hin; [|discriminate]. simpl in H.
    destruct (negb _); simplify_eq/=. unfold receive.
    destruct (ReadMessage _ _ _ _) as [[err|p|] w]; unfold set_reading, set_main; simpl;
      apply set_main_ends; try done. apply continue_not_nil.
  - destruct (errs l) eqn:Ee; try discriminate.
    destruct (in_loop st client l) eqn:Hin; [|discriminate]. simpl in H.
    destruct (negb _); simplify_eq/=. by apply set_main_ends.
Qed.
End LoopProps.

(** ** Properties *)

(** C28: when [Run] returns without an error the protocol is done.  For every
    client, every connection and every interleaving of the two goroutines. *)
Theorem loop_returns_done {Msg W C} `{!ReadWriter C Msg} (st : lens W State) (client : Client Msg W)
    (w : W) (c c' : C) (l : Loop Msg W) (n : nat) :
  steps_n (step st client) n (Run_start w, c) (l, c') →
  main l = Returned None → IsDone st client (store l) = true ∧ done_closed l = true.
Proof.
  intros Hn Hm.
  assert (ends_done st client (l, c').1) as [Hiff Hdone].
  { apply (steps_n_invariant _ (λ s : Loop Msg W * C, ends_done st client s.1)) in Hn; [done| |by split].
    intros [l1 c1] [l2 c2] Hl [e He]. by eapply loop_step_ends. }
  split; [auto|by apply Hiff].
Qed.

(** The demo client of a protocol of two messages, at its end. *)
Definition demo_client : Client Z (State * Z) := client_of demo_state demo_definition.

Lemma loop_returns_done_witness :
  ∃ (l : Loop Z (State * Z)) (c : list Z * list Z) n,
    steps_n (step demo_state demo_client) n (Run_start (1, 42), ([5], [])) (l, c) ∧
    main l = Returned None ∧ store l = (2, 5) ∧ c = ([], [42]) ∧
    IsDone demo_state demo_client (store l) = true.
Proof.
  assert (steps_n (step demo_state demo_client) 5 (Run_start (1, 42), ([5], []))
    (mkLoop (2, 5) (Returned None) Reading None true, ([], [42]))) as H.
  { eapply steps_next; [exists MainWrite; vm_compute; reflexivity|].
    eapply steps_next; [exists ReaderRead; vm_compute; reflexivity|].
    eapply steps_next; [exists ReaderOffer; vm_compute; reflexivity|].
    eapply steps_next; [exists MainReceive; vm_compute; reflexivity|].
    eapply steps_next; [exists MainDone; vm_compute; reflexivity|]. constructor. }
  eexists _, _, _. split; [exact H|]. split; [reflexivity|]. split; [reflexivity|].
  split; [reflexivity|]. exact (proj1 (loop_returns_done _ _ _ _ _ _ _ H eq_refl)).
Defined.

(** The reading goroutine outlives [Run] after an error.  When [Run] has
    returned an error while the goroutine offers a message, nothing can happen
    any more: the goroutine is blocked in its [select] for good, since [done]
    is only closed on the way out without an error. *)
Theorem loop_error_leaks_reader {Msg W C} `{!ReadWriter C Msg} (st : lens W State)
    (client : Client Msg W) (w : W) (c c' : C) (l : Loop Msg W) (n : nat) (e : error) (m : Msg) :
  steps_n (step st client) n (Run_start w, c) (l, c') →
  main l = Returned (Some e) → reading l = Offering m →
  stuck (step st client) (l, c').
Proof.
  intros Hn Hm Hr s' [ev He].
  assert (ends_done st client (l, c').1) as [Hiff _].
  { apply (steps_n_invariant _ (λ s : Loop Msg W * C, ends_done st client s.1)) in Hn; [done| |by split].
    intros [l1 c1] [l2 c2] Hl [e' He']. by eapply loop_step_ends. }
  simpl in Hiff. rewrite Hm in Hiff.
  destruct ev; simpl in He; unfold in_loop in He; rewrite ?Hr, ?Hm in He; try discriminate.
  - destruct (done_closed l); [|discriminate]. discriminate (proj2 Hiff eq_refl).
  - by destruct (errs l).
Qed.

Lemma loop_error_leaks_reader_witness :
  ∃ (l : Loop Z (State * Z)) (c : list Z * list Z) n,
    steps_n (step demo_state demo_client) n (Run_start (5, 0), ([7; 8], [])) (l, c) ∧
    main l = Returned (Some UnexpectedMessage) ∧ reading l = Offering 8 ∧
    stuck (step demo_state demo_client) (l, c).
Proof.
  assert (steps_n (step demo_state demo_client) 5 (Run_start (5, 0), ([7; 8], []))
    (mkLoop (5, 0) (Returned (Some UnexpectedMessage)) (Offering 8) None false, ([], []))) as H.
  { eapply steps_next; [exists ReaderRead; vm_compute; reflexivity|].
    eapply steps_next; [exists ReaderOffer; vm_compute; reflexivity|].
    eapply steps_next; [exists MainReceive; vm_compute; reflexivity|].
    eapply steps_next; [exists ReaderRead; vm_compute; reflexivity|].
    eapply steps_next; [exists ReaderOffer; vm_compute; reflexivity|]. constructor. }
  eexists _, _, _. split; [exact H|]. split; [reflexivity|]. split; [reflexivity|].
  exact (loop_error_leaks_reader _ _ _ _ _ _ _ _ _ H eq_refl eq_refl).
Defined.
