(* ===== verification/SessionChannel.v ===== *)
(** * SessionChannel: a protocol loop on top of a session channel

    [Loop] runs a client over a [ReadWriter]; in the program that is a channel
    of a session ([channel.Read] and [channel.Write] of
    [lib/session/session.go]).  This file connects the two: the channel of two
    connected sessions ([SessionSystem]) as a [ReadWriter], and the proof that it
    behaves as a pair of first-in first-out queues whose messages need three
    more steps each to arrive. *)

From S2P Require Import Prelude GoSem Automaton Protocol Secure Channel Session SessionSystem Loop.

Local Open Scope Z_scope.

(** ** A channel of a session as a connection *)
Section Connection.
Context {Msg : Type} `{!ProtoMessage Message} `{!ProtoMessage Msg}.

(** An observation of the left or of the right side. *)
Abbreviation either := (@observation Msg + @observation Msg)%type.

(** What a step of a call on a channel object comes to: [side] picks the
    observation of the side that made it. *)
Definition call_result {N} (side : either → option (@observation Msg))
    (r : option (N * either)) : option (@observation Msg * N) :=
  '(s, ob) ← r; o ← side ob; Some (o, s).

Definition left_observation (ob : either) : option (@observation Msg) :=
  match ob with inl o => Some o | inr _ => None end.
Definition right_observation (ob : either) : option (@observation Msg) :=
  match ob with inr o => Some o | inl _ => None end.

(** [channel.Write] and [channel.Read] of the channel object [r]; [step] makes a
    step of the session of this side. *)
Definition channel_conn {N} (step : @session_event Msg → N → option (@observation Msg * N)) (r : nat)
  : ReadWriter N Msg := {|
  conn_Write m s :=
    match step (WriteChannel r m None) s with
    | Some (Written _ _, s) => Some (None, s)
    | Some (CallFailed _ e, s) => Some (Some e, s)
    | _ => None
    end;
  conn_Read s :=
    match step (ReadChannel r) s with
    | Some (Taken _ m, s) => Some (inl m, s)
    | _ =>
        match step (ReadClosedChannel r) s with
        | Some (CallFailed _ e, s) => Some (inr e, s)
        | _ => None
        end
    end
|}.

Definition left_conn : nat → ReadWriter (system Msg) Msg :=
  channel_conn (λ e s, call_result left_observation (system_step (LeftStep e) s)).
Definition right_conn : nat → ReadWriter (system Msg) Msg :=
  channel_conn (λ e s, call_result right_observation (system_step (RightStep e) s)).
End Connection.

(** ** One direction of a channel *)
Section Flow.
Context {Msg : Type} `{!ProtoMessage Message} `{!ProtoMessage Msg}.
Context (c : Z) (P : Protocol Msg).
Implicit Types (s : session Msg) (m : Msg).

(** The broker makes the message [m] of the payload [p] of type [t]. *)
Definition decodes (t : Z) (p : bytes) m : Prop :=
  ∃ m0, NewMessage P t = (Some m0, None) ∧ Unmarshal p m0 = inl m.

(** Bytes on the connection that carry [m] on the channel. *)
Definition encodes (b : bytes) m : Prop := ∃ t p, readHandler b = Some (InData c t p) ∧ decodes t p m.

(** A message that can be sent over the channel: its bytes are a payload of the
    connection. *)
Definition sendable m : Prop :=
  ∃ b, MarshalMessage (mkChannelHandle P c) m = Ret (inl b) ∧ encodes b m ∧ Secure.sendable b.

(** The messages [q] are on their way from the wire to the readers of the
    channel [r] of a session: in the queue of the channel ([Q]), in the hands of
    the broker ([B]) and of the reader ([R]), and on the wire ([W]); [n] steps
    bring all of them to the queue.  The reader may have seen the end of the wire,
    and the broker may have returned when there is nothing for it. *)
Record flow_at (r : nat) (Q : list Msg) (B R : option Msg) (W : list Msg) s (wire : list bytes) : Prop := {
  fl_channels : channels s !! c = Some r;
  fl_object : objects s !! r = Some (mkChannel (mkChannelHandle P c) Q false true);
  fl_broker : match B with
              | Some m => broker s = Delivering r m
              | None => broker s = Selecting ∨ broker s = BrokerReturned ∧ R = None ∧ W = []
              end;
  fl_reader : match R with
              | Some m => ∃ t p, reader s = Passing (InData c t p) ∧ decodes t p m
              | None => reader s = Session.Reading ∨ reader s = ReaderReturned ∧ W = []
              end;
  fl_wire : Forall2 encodes wire W
}.

Definition hold (o : option Msg) : list Msg := match o with Some m => [m] | None => [] end.

Definition flow (r : nat) (q : list Msg) (n : Z) s (wire : list bytes) : Prop :=
  ∃ Q B R W, flow_at r Q B R W s wire ∧ q = Q ++ hold B ++ hold R ++ W ∧
    n = zlen (hold B) + 2 * zlen (hold R) + 3 * zlen W.

Lemma flow_nonneg r q n s wire : flow r q n s wire → 0 ≤ n.
Proof.
  intros (Q & B & R & W & _ & _ & ->). pose proof (zlen_nonneg W).
  destruct B, R; unfold zlen; simpl; unfold zlen in *; lia.
Qed.

(** Only these parts of the session matter. *)
Lemma flow_ext r q n s s' wire :
  flow r q n s wire → channels s' = channels s → objects s' = objects s → broker s' = broker s →
  reader s' = reader s → flow r q n s' wire.
Proof.
  intros (Q & B & R & W & [H1 H2 H3 H4 H5] & Hq & Hn) E1 E2 E3 E4.
  exists Q, B, R, W. split; [|done]. split; rewrite ?E1, ?E2, ?E3, ?E4; done.
Qed.

(** The goroutines of the session have not returned. *)
Definition alive s : Prop := broker s ≠ BrokerReturned ∧ reader s ≠ ReaderReturned.

(** Something is put on the wire. *)
Lemma flow_send r q n s wire b m :
  flow r q n s wire → alive s → encodes b m → flow r (q ++ [m]) (n + 3) s (wire ++ [b]).
Proof.
  intros (Q & B & R & W & [H1 H2 H3 H4 H5] & -> & ->) [Ha Ha'] Hb. exists Q, B, R, (W ++ [m]). split_and!.
  - split; try done.
    + destruct B; [done|]. destruct H3 as [?|[? _]]; [by left|done].
    + destruct R; [done|]. destruct H4 as [?|[? _]]; [by left|done].
    + apply Forall2_app; [done|]. by constructor.
  - by rewrite <- !app_assoc.
  - rewrite zlen_app. unfold zlen. simpl. lia.
Qed.

(** [channel.Write] succeeds. *)
Lemma flow_write r q n s wire m :
  flow r q n s wire → sendable m →
  ∃ b, encodes b m ∧ Secure.sendable b ∧ session_step (WriteChannel r m None) s = Some (send b s, Written c m).
Proof.
  intros (Q & B & R & W & [_ Hobj _ _ _] & _) (b & Hb & He & Hs). exists b. split_and!; [done|done|].
  cbn [session_step]. rewrite Hobj. simpl. unfold channel_Write. simpl. by rewrite Hb.
Qed.

(** [channel.Read] takes the first message, when it has arrived. *)
Lemma flow_read r q n s wire s' o :
  flow r q n s wire → session_step (ReadChannel r) s = Some (s', o) →
  ∃ m q', o = Taken r m ∧ q = m :: q' ∧ flow r q' n s' wire ∧ sent s' = sent s.
Proof.
  intros (Q & B & R & W & [H1 H2 H3 H4 H5] & -> & ->) H. cbn [session_step] in H. rewrite H2 in H.
  simpl in H. unfold handler_next in H. simpl in H. destruct Q as [|m Q]; [discriminate|].
  simpl in H. injection H as <- <-. exists m, (Q ++ hold B ++ hold R ++ W). split_and!; try done.
  exists Q, B, R, W. split_and!; [|done|done]. split; simpl; try done.
  apply list_lookup_insert_eq. by eapply lookup_lt_Some.
Qed.

(** The channel is open: [channel.Read] does not fail. *)
Lemma flow_open r q n s wire : flow r q n s wire → session_step (ReadClosedChannel r) s = None.
Proof.
  intros (Q & B & R & W & [H1 H2 H3 H4 H5] & _). cbn [session_step]. rewrite H2. done.
Qed.

(** The broker takes a message from the reader. *)
Lemma flow_take r q n s wire s' o :
  flow r q n s wire → session_step TakeRead s = Some (s', o) → flow r q (n - 1) s' wire ∧ sent s' = sent s.
Proof.
  intros (Q & B & R & W & [H1 H2 H3 H4 H5] & -> & ->) H. cbn [session_step] in H.
  destruct R as [m|]; [|by destruct H4 as [E|[E _]]; rewrite E in H].
  destruct H4 as (t & p & Hr & m0 & Hn & Hu). rewrite Hr in H.
  unfold broker_receive in H. simpl in H. destruct B as [m'|]; [by rewrite H3 in H|].
  destruct H3 as [H3|(_ & [=] & _)]. rewrite H3 in H.
  simpl in H. rewrite H1 in H. simpl in H. rewrite H2 in H. simpl in H. rewrite Hn in H. simpl in H.
  rewrite Hu in H. injection H as <- <-. split; [|done].
  exists Q, (Some m), None, W. split_and!; [|done|unfold zlen; simpl; lia]. split; try done. by left.
Qed.

(** The channel takes a message from the broker. *)
Lemma flow_deliver r q n s wire s' o :
  flow r q n s wire → session_step Deliver s = Some (s', o) → flow r q (n - 1) s' wire ∧ sent s' = sent s.
Proof.
  intros (Q & B & R & W & [H1 H2 H3 H4 H5] & -> & ->) H. cbn [session_step] in H.
  destruct B as [m|]; [rewrite H3 in H|by destruct H3 as [E|[E _]]; rewrite E in H].
  rewrite H2 in H. simpl in H. injection H as <- <-. split; [|done].
  exists (Q ++ [m]), None, R, W. split_and!; [|by rewrite <- app_assoc|unfold zlen; simpl; lia].
  split; simpl; try done; [|by left]. apply list_lookup_insert_eq. by eapply lookup_lt_Some.
Qed.

(** The reader takes a message from the wire. *)
Lemma flow_receive r q n s b wire s' o :
  flow r q n s (b :: wire) → session_step (ReadConn b) s = Some (s', o) →
  flow r q (n - 1) s' wire ∧ sent s' = sent s.
Proof.
  intros (Q & B & R & W & [H1 H2 H3 H4 H5] & -> & ->) H. cbn [session_step] in H.
  apply Forall2_cons_inv_l in H5 as (m & W' & (t & p & Hb & Hd) & HW & ->).
  destruct R as [m'|]; [destruct H4 as (t' & p' & Hr & _); by rewrite Hr in H|].
  destruct H4 as [H4|[_ [=]]]. rewrite H4 in H. injection H as <- <-. split; [|done].
  exists Q, B, (Some m), W'. split_and!; [|by rewrite <- ?app_assoc|rewrite zlen_cons; unfold zlen; simpl; lia].
  split; simpl; try done; [|rewrite Hb; by exists t, p].
  destruct B; [done|]. destruct H3 as [?|(_ & _ & [=])]. by left.
Qed.

(** The end of the wire, and the broker that returns with nothing to do. *)
Lemma flow_end r q n s s' o err text :
  flow r q n s [] → readHandler_error err text = ReaderReturned →
  session_step (ReadConnError err text) s = Some (s', o) → flow r q n s' [] ∧ sent s' = sent s.
Proof.
  intros (Q & B & R & W & [H1 H2 H3 H4 H5] & -> & ->) He H. apply Forall2_nil_inv_l in H5 as ->.
  cbn [session_step] in H. destruct R as [m|]; [destruct H4 as (t & p & Hr & _); by rewrite Hr in H|].
  destruct H4 as [H4|[H4 _]]; rewrite H4 in H; [|done]. injection H as <- <-. split; [|done].
  exists Q, B, None, []. split_and!; [|done|done]. split; simpl; try done. rewrite He. by right.
Qed.

Lemma flow_exit r n s wire s' :
  flow r [] n s wire → broker_exit s = Some s' → flow r [] n s' wire ∧ sent s' = sent s.
Proof.
  intros (Q & B & R & W & [H1 H2 H3 H4 H5] & Hq & ->) (_ & x & -> & _)%broker_exit_inv.
  destruct Q, B, R, W; try done. split; [|done].
  exists [], None, None, []. split_and!; [|done|done]. split; simpl; try done. by right.
Qed.

(** What is on its way can go on; when nothing is, the queue of the channel has
    all messages. *)
Lemma flow_progress r q n s wire :
  flow r q n s wire →
  (∃ x, session_step Deliver s = Some x) ∨ (∃ x, session_step TakeRead s = Some x) ∨
  (∃ b rest x, wire = b :: rest ∧ session_step (ReadConn b) s = Some x) ∨
  (n = 0 ∧ ∀ m q', q = m :: q' → ∃ x, session_step (ReadChannel r) s = Some x).
Proof.
  intros (Q & B & R & W & [H1 H2 H3 H4 H5] & -> & ->). destruct B as [m|].
  { left. eexists. cbn [session_step]. rewrite H3, H2. simpl. done. }
  right. destruct R as [m|].
  { left. destruct H4 as (t & p & Hr & _). destruct H3 as [H3|(_ & [=] & _)]. eexists. cbn [session_step]. rewrite Hr.
    unfold broker_receive. simpl. rewrite H3. simpl. done. }
  right. inversion H5 as [|b m wire' W' Hb HW]; subst.
  - right. split; [done|]. simpl. rewrite app_nil_r. intros m q' ->.
    eexists. cbn [session_step]. rewrite H2. simpl. done.
  - left. destruct H4 as [H4|[_ [=]]]. exists b, wire'. eexists. split; [done|].
    cbn [session_step]. rewrite H4. simpl. done.
Qed.
End Flow.

(** ** Connections that behave as queues

    What a loop needs of its connection: reads and writes that follow the two
    queues [q] (what is to be read, what was written), where [n] steps of the
    connection itself may be needed until all messages can be read.  [e] messages
    were written so far, and the connection is made for fewer than [limit]. *)
Class QueueLike {C Msg : Type} {RW : ReadWriter C Msg} (limit : Z) (sendable : Msg → Prop) (moves : C → Prop)
    (rel : list Msg * list Msg → Z → Z → C → Prop) : Prop := {
  ql_write q n e c m : rel q n e c → e < limit → sendable m →
    ∃ c', conn_Write m c = Some (None, c') ∧ rel (q.1, q.2 ++ [m]) (n + 3) (e + 1) c';
  ql_read q n e c x c' : rel q n e c → conn_Read c = Some (x, c') →
    ∃ m q', x = inl m ∧ q.1 = m :: q' ∧ rel (q', q.2) n e c';
  ql_arrives q n e c m q' : rel q n e c → q.1 = m :: q' → is_Some (conn_Read c) ∨ moves c
}.

Section Simulation.
Context {C Msg W : Type} {RW : ReadWriter C Msg} {limit : Z} {sendable : Msg → Prop} {moves : C → Prop}.
Context {rel : list Msg * list Msg → Z → Z → C → Prop} `{!QueueLike limit sendable moves rel}.
Context (st : lens W State) (client : Client Msg W).
Implicit Types (l : Loop Msg W) (c : C) (q : list Msg * list Msg).

(** The main goroutine may write. *)
Definition writing l : bool :=
  in_loop st client l && (MustWrite st client (store l) || (CanWrite st client (store l) && negb (ready l))).

(** When the main goroutine writes, the message can be sent. *)
Definition writes_sendable l : Prop :=
  writing l = true → ∀ m w, WriteMessage st client (store l) = (Ret (Some m, None), w) → sendable m.

(** A step of the loop is a step over the queues. *)
Lemma loop_step_queues ev l c l' c' q n e :
  rel q n e c → (writing l = true → e < limit) → writes_sendable l → loop_step st client ev (l, c) = Some (l', c') →
  ∃ q' n' e', loop_step st client ev (l, q) = Some (l', q') ∧ rel q' n' e' c' ∧ n' ≤ n + 3 ∧
    (e' = e ∨ e < limit ∧ e' = e + 1).
Proof.
  intros Hrel Hlim Hs H. destruct ev; cbn [loop_step] in H |- *.
  - destruct (reading l); try discriminate. apply bind_Some in H as ([x c1] & Hr & [= <- <-]).
    destruct (ql_read q n e c x c1 Hrel Hr) as (m & q' & -> & Hq & Hrel').
    exists (q', q.2), n, e. split_and!; [|done|lia|by left]. simpl. by rewrite Hq.
  - destruct (reading l); simplify_eq. exists q, n, e. split_and!; [done|done|lia|by left].
  - destruct (reading l); try discriminate. destruct (done_closed l); simplify_eq.
    exists q, n, e. split_and!; [done|done|lia|by left].
  - destruct (main l); try discriminate. destruct (IsDone st client (store l)); simplify_eq.
    exists q, n, e. split_and!; [done|done|lia|by left].
  - destruct (in_loop st client l && _) eqn:Hg; [|discriminate]. specialize (Hs Hg). specialize (Hlim Hg). unfold write in *.
    destruct (WriteMessage st client (store l)) as [[[[m|] [err|]]|p|] w]; simplify_eq;
      try (exists q, n, e; split_and!; [done|done|lia|by left]).
    destruct (ql_write q n e c m Hrel Hlim (Hs m w eq_refl)) as (c1 & Hw & Hrel'). rewrite Hw in H. simplify_eq/=.
    eexists _, _, _. split_and!; [done|exact Hrel'|lia|by right].
  - destruct (reading l); try discriminate. destruct (_ && _); simplify_eq.
    exists q, n, e. split_and!; [done|done|lia|by left].
  - destruct (errs l); try discriminate. destruct (_ && _); simplify_eq.
    exists q, n, e. split_and!; [done|done|lia|by left].
Qed.

(** When the loop could go on over the queues, it can go on or the connection
    can. *)
Lemma loop_step_progress ev l c q n e x :
  rel q n e c → (writing l = true → e < limit) → writes_sendable l → loop_step st client ev (l, q) = Some x →
  (∃ y, loop_step st client ev (l, c) = Some y) ∨ moves c.
Proof.
  intros Hrel Hlim Hs H. destruct ev; cbn [loop_step] in H |- *.
  - destruct (reading l); try discriminate. apply bind_Some in H as ([y q1] & Hr & _).
    simpl in Hr. destruct (q.1) as [|m q'] eqn:Hq; [discriminate|].
    destruct (ql_arrives q n e c m q' Hrel Hq) as [[[z c1] Hz]|Hm]; [left|by right]. rewrite Hz. eexists. done.
  - left. destruct (reading l); simplify_eq. eexists. done.
  - left. destruct (reading l); try discriminate. destruct (done_closed l); simplify_eq. eexists. done.
  - left. destruct (main l); try discriminate. destruct (IsDone st client (store l)); simplify_eq. eexists. done.
  - left. destruct (in_loop st client l && _) eqn:Hg; [|discriminate]. specialize (Hs Hg). specialize (Hlim Hg). unfold write in *.
    destruct (WriteMessage st client (store l)) as [[[[m|] [err|]]|p|] w]; try (by eexists).
    destruct (ql_write q n e c m Hrel Hlim (Hs m w eq_refl)) as (c1 & Hw & _). rewrite Hw. by eexists.
  - left. destruct (reading l); try discriminate. destruct (_ && _); simplify_eq. eexists. done.
  - left. destruct (errs l); try discriminate. destruct (_ && _); simplify_eq. eexists. done.
Qed.
End Simulation.
Arguments writes_sendable {_ _} _ _ _ _.
Arguments writing {_ _} _ _ _.

(** ** How a session ends *)
Section Life.
Context {Msg : Type} `{!ProtoMessage Message} `{!ProtoMessage Msg}.
Implicit Types (s : session Msg) (e : @session_event Msg).

(** What is left of a session: its [done], its connection, the call of [Close],
    the broker and the reader. *)
Definition life s : bool * bool * close_phase * bool * bool :=
  (done s, closed s, closer s, match broker s with BrokerReturned => true | _ => false end,
   match reader s with ReaderReturned => true | _ => false end).

(** The steps that are still needed to end all of it. *)
Definition remaining s : Z :=
  (if done s then 0 else 1) + (match closer s with CloseReturned _ => 0 | _ => 1 end) +
  (match broker s with BrokerReturned => 0 | _ => 1 end) + (match reader s with ReaderReturned => 0 | _ => 1 end).

Definition ends_session e : bool :=
  match e with ReadConnError _ _ | CloseSession | ExitBroker | CloseConn => true | _ => false end.

Lemma remaining_nonneg s : 0 ≤ remaining s.
Proof. unfold remaining. destruct (done s), (closer s), (broker s), (reader s); lia. Qed.

Lemma remaining_life s s' : life s' = life s → remaining s' = remaining s.
Proof.
  unfold life, remaining. intros [= -> _ -> Hb Hr].
  destruct (broker s), (broker s'), (reader s), (reader s'); done.
Qed.

Lemma life_receive ev s s' : broker_receive ev s = Some s' → life s' = life s.
Proof.
  unfold broker_receive. destruct (broker s) eqn:Hb; try done. intros [= <-].
  destruct ev; simpl; repeat case_match; unfold life; simpl; by rewrite ?Hb.
Qed.

Lemma life_call_step i err s s' : call_step i err s = Some s' → life s' = life s.
Proof.
  intros (x & _ & H)%bind_Some. destruct x as [h b|h b|h|p|p|h b|r|y]; simpl in H.
  - apply bind_Some in H as (s1 & H1 & [= <-]). by apply life_receive in H1.
  - destruct err; by injection H as <-.
  - case_bool_decide; [|discriminate]. by injection H as <-.
  - apply bind_Some in H as (s1 & H1 & [= <-]). by apply life_receive in H1.
  - destruct (broker s) eqn:Hb; try discriminate. case_bool_decide; [|discriminate]. injection H as <-.
    unfold life. simpl. by rewrite Hb.
  - destruct err; by injection H as <-.
  - apply bind_Some in H as (s1 & H1 & [= <-]). by apply life_receive in H1.
  - discriminate.
Qed.

(** Every other step leaves it as it is. *)
Lemma life_step e s s' o : ends_session e = false → session_step e s = Some (s', o) → life s' = life s.
Proof.
  intros He H. assert (∀ x, silent x = Some (s', o) → x = Some s') as Hsil.
  { intros [s1|] Hx; [|discriminate]. by injection Hx as <- <-. }
  destruct e; try discriminate; cbn [session_step] in H.
  - destruct (reader s) eqn:Hr; try discriminate. apply Hsil in H as [= <-]. unfold life. simpl. rewrite Hr.
    by destruct (readHandler data).
  - destruct (reader s) eqn:Hr; try discriminate. apply Hsil, life_receive in H. rewrite H. unfold life. simpl.
    by rewrite Hr.
  - by apply Hsil in H as [= <-].
  - by apply Hsil in H as [= <-].
  - by apply Hsil, life_call_step in H.
  - apply Hsil in H. unfold call_done in H. by repeat case_match; simplify_eq.
  - destruct (broker s) eqn:Hb; try discriminate. apply bind_Some in H as (ch & _ & H).
    apply bind_Some in H as (ch' & _ & [= <- <-]). unfold life. simpl. by rewrite Hb.
  - apply bind_Some in H as (ch & _ & H).
    destruct (channel_Write ch m) as [[b|x]| |], err; try discriminate; by injection H as <- <-.
  - apply bind_Some in H as (ch & _ & H). by apply bind_Some in H as ([m ch'] & _ & [= <- <-]).
  - apply bind_Some in H as (ch & _ & H). by apply bind_Some in H as (err & _ & [= <- <-]).
  - apply bind_Some in H as (ch & _ & H). apply bind_Some in H as (ch' & _ & H). by apply Hsil in H as [= <-].
  - apply bind_Some in H as (ch & _ & H). destruct (channel_Close ch); try discriminate.
    destruct err; by injection H as <- <-.
Qed.

(** What [Close] leaves behind fits together. *)
Record closing_ok s : Prop := {
  co_closer : match closer s with
              | NotClosing => done s = false
              | ClosingConn | CloseReturned None | CloseReturned (Some _) => done s = true
              end;
  co_result : ∀ err, closer s = CloseReturned (Some err) → err = net_ErrClosed;
  co_closed : closed s = true → done s = true;
  co_broker : broker s = BrokerReturned → done s = true
}.

Lemma closing_ok_life s s' : closing_ok s → life s' = life s → closing_ok s'.
Proof.
  intros [H1 H2 H3 H4] [= Ed Ec Ep Eb _]. split; rewrite ?Ed, ?Ec, ?Ep; try done.
  intros Hb. apply H4. rewrite Hb in Eb. by destruct (broker s).
Qed.
End Life.

(** ** One side of a channel, up to its end *)
Section Half.
Context {Msg : Type} `{!ProtoMessage Message} `{!ProtoMessage Msg}.
Context (c : Z) (P : Protocol Msg).
Implicit Types (own peer : session Msg) (e : @session_event Msg) (q : list Msg).

(** How the reading goroutine ends: its connection was closed here, or the peer
    has closed it and nothing is left on the wire. *)
Definition ends own peer (nothing : bool) : option (@session_event Msg) :=
  if closed own then Some (ReadConnError net_ErrClosed "")
  else if closed peer && nothing then Some (ReadConnError EOF "") else None.

(** The messages [q] are on their way to the channel [r] of [own]; [n] steps bring
    them to the queue and end the session. *)
Record half (r : nat) q (n : Z) own peer (wire : list bytes) : Prop := {
  hf_flow : ∃ n0, flow c P r q n0 own wire ∧ n = n0 + remaining own;
  hf_closing : closing_ok own;
  hf_reader : reader own = ReaderReturned → done own = true ∨ done peer = true;
  hf_done : done own = true → q = []
}.

Lemma half_nonneg r q n own peer wire : half r q n own peer wire → 0 ≤ n.
Proof. intros [(n0 & H%flow_nonneg & ->) _ _ _]. pose proof (remaining_nonneg own). lia. Qed.

Lemma half_peer r q n own peer peer' wire :
  half r q n own peer wire → (done peer = true → done peer' = true) → half r q n own peer' wire.
Proof. intros [H1 H2 H3 H4] Hp. split; [done..| |done]. intros Hr. destruct (H3 Hr); auto. Qed.

Lemma half_life r q n q' k own own' peer wire wire' :
  half r q n own peer wire → life own' = life own → (q = [] → q' = []) →
  (∀ n0, flow c P r q n0 own wire → flow c P r q' (n0 + k) own' wire') → half r q' (n + k) own' peer wire'.
Proof.
  intros [(n0 & Hf & ->) H2 H3 H4] Hl Hq Hflow. split.
  - exists (n0 + k). split; [auto|]. rewrite (remaining_life _ _ Hl). lia.
  - by eapply closing_ok_life.
  - injection Hl as Ed _ _ _ Er. rewrite Ed. intros Hr. apply H3. rewrite Hr in Er. by destruct (reader own).
  - injection Hl as Ed _ _ _ _. rewrite Ed. auto.
Qed.

Lemma done_life (own own' : session Msg) : life own' = life own → done own' = done own.
Proof. by intros [= ->]. Qed.

(** The broker takes and delivers. *)
Lemma half_broker r q n e own own' peer wire o :
  e = TakeRead ∨ e = Deliver → half r q n own peer wire → session_step e own = Some (own', o) →
  half r q (n - 1) own' peer wire ∧ sent own' = sent own ∧ done own' = done own.
Proof.
  intros He Hh Hs. pose proof (life_step e own own' o ltac:(by destruct He; subst) Hs) as Hl.
  assert (∀ n0, flow c P r q n0 own wire → flow c P r q (n0 - 1) own' wire ∧ sent own' = sent own) as Hf.
  { intros n0 Hf. destruct He; subst; [by eapply flow_take|by eapply flow_deliver]. }
  split_and!.
  - apply (half_life r q n q (-1) own own' peer wire wire); [done|done|done|apply Hf].
  - destruct Hh as [(n0 & Hf0 & _) _ _ _]. by apply (Hf n0).
  - by apply done_life.
Qed.

Lemma half_receive r q n b own own' peer wire o :
  half r q n own peer (b :: wire) → session_step (ReadConn b) own = Some (own', o) →
  half r q (n - 1) own' peer wire ∧ sent own' = sent own ∧ done own' = done own.
Proof.
  intros Hh Hs. pose proof (life_step (ReadConn b) own own' o eq_refl Hs) as Hl. split_and!.
  - apply (half_life r q n q (-1) own own' peer (b :: wire) wire); [done|done|done|].
    intros n0 Hf. by eapply flow_receive.
  - destruct Hh as [(n0 & Hf0 & _) _ _ _]. by eapply flow_receive.
  - by apply done_life.
Qed.

(** The reader ends and the broker returns. *)
Lemma half_end r q n nothing e own own' peer wire o :
  half r q n own peer wire → closing_ok peer → (nothing = true → wire = []) → ends own peer nothing = Some e →
  session_step e own = Some (own', o) →
  half r q (n - 1) own' peer wire ∧ sent own' = sent own ∧ done own' = done own.
Proof.
  intros [(n0 & Hf & ->) H2 H3 H4] Hp Hw He Hs. unfold ends in He.
  assert (∃ err, e = ReadConnError err "" ∧ readHandler_error err "" = ReaderReturned ∧ wire = [] ∧
    (done own = true ∨ done peer = true)) as (err & -> & Herr & -> & Hd).
  { destruct (closed own) eqn:Hc.
    - injection He as <-. exists net_ErrClosed. pose proof (co_closed _ H2 Hc) as Hd.
      split_and!; [done|done| |by left].
      specialize (H4 Hd). subst q. destruct Hf as (Q & B & R & W & [_ _ _ _ H5] & Hq & _).
      destruct Q, B, R, W; try done. by apply Forall2_nil_inv_r in H5.
    - destruct (closed peer) eqn:Hcp; [|done]. destruct nothing; [|done]. injection He as <-. exists EOF.
      split_and!; [done|by vm_compute|auto|right; by apply (co_closed _ Hp)]. }
  assert (reader own = Session.Reading) as Hr.
  { cbn [session_step] in Hs. by destruct (reader own). }
  destruct (flow_end c P r q n0 own own' o err "" Hf Herr Hs) as [Hf' Hsent].
  cbn [session_step] in Hs. rewrite Hr in Hs. injection Hs as <- <-. rewrite Herr in *.
  split_and!; [|done|done]. split; [|by destruct H2|done|done].
  exists n0. split; [done|]. unfold remaining. simpl. rewrite Hr. lia.
Qed.

Lemma half_exit r q n own own' peer wire o :
  half r q n own peer wire → session_step ExitBroker own = Some (own', o) →
  half r q (n - 1) own' peer wire ∧ sent own' = sent own ∧ done own' = done own.
Proof.
  intros [(n0 & Hf & ->) [C1 C2 C3 C4] H3 H4] Hs. cbn [session_step] in Hs.
  destruct (broker_exit own) as [s1|] eqn:Hx; [|done]. injection Hs as <- <-.
  destruct (broker_exit_inv _ _ Hx) as (Hd & x & -> & Hx').
  specialize (H4 Hd). subst q. destruct (flow_exit c P r n0 own wire _ Hf Hx) as [Hf' Hsent].
  assert (broker own ≠ BrokerReturned) as Hb.
  { unfold broker_exit in Hx. rewrite Hd in Hx. intros E. by rewrite E in Hx. }
  split_and!; [|done|done]. split; [|by split|done|done].
  exists n0. split; [done|]. unfold remaining. simpl. destruct (broker own); (done || lia).
Qed.

(** [Close], once nothing is on the way. *)
Lemma half_finish r n e own own' peer wire o :
  e = CloseSession ∨ e = CloseConn → half r [] n own peer wire → session_step e own = Some (own', o) →
  half r [] (n - 1) own' peer wire ∧ sent own' = sent own ∧ done own' = true.
Proof.
  intros He [(n0 & Hf & ->) [C1 C2 C3 C4] H3 H4] Hs. destruct He as [->| ->]; cbn [session_step] in Hs.
  - unfold Session_Close in Hs. destruct (done own) eqn:Hd; [done|]. injection Hs as <- <-.
    split_and!; [|done|done]. split; [|by split|by left|done].
    exists n0. split; [by eapply flow_ext|]. unfold remaining. simpl. rewrite Hd.
    destruct (closer own) as [| |[]]; (done || lia).
  - unfold Session_CloseConn in Hs. destruct (closer own) eqn:Hc; try done. injection Hs as <- <-. simpl in C1.
    split_and!; [|done|done]. split; [| |by left|done].
    + exists n0. split; [by eapply flow_ext|]. unfold remaining. simpl. rewrite Hc. lia.
    + split; simpl; [by destruct (closed own)|by destruct (closed own); intros err [= <-]|done|done].
Qed.

(** Reading from the channel and writing to it. *)
Lemma half_read r q n own own' peer wire o :
  half r q n own peer wire → session_step (ReadChannel r) own = Some (own', o) →
  ∃ m q', o = Taken r m ∧ q = m :: q' ∧ half r q' n own' peer wire ∧ sent own' = sent own ∧ done own' = done own.
Proof.
  intros Hh Hs. pose proof (life_step (ReadChannel r) own own' o eq_refl Hs) as Hl.
  pose proof Hh as [(n0 & Hf & ->) _ _ _].
  destruct (flow_read c P _ _ _ _ _ _ _ Hf Hs) as (m & q' & -> & -> & Hf' & Hsent).
  exists m, q'. split_and!; [done|done| |done|by apply done_life].
  destruct Hh as [_ H2 H3 H4]. split.
  - exists n0. split; [done|]. by rewrite (remaining_life _ _ Hl).
  - by eapply closing_ok_life.
  - injection Hl as Ed _ _ _ Er. rewrite Ed. intros Hr. apply H3. rewrite Hr in Er. by destruct (reader own).
  - rewrite (done_life _ _ Hl). intros Hd. by specialize (H4 Hd).
Qed.

Lemma half_send r q n own peer wire b m :
  half r q n own peer wire → done own = false → done peer = false → encodes c P b m →
  half r (q ++ [m]) (n + 3) own peer (wire ++ [b]).
Proof.
  intros [(n0 & Hf & ->) H2 H3 H4] Ho Hp Hb. split; [|done|done|by rewrite Ho].
  exists (n0 + 3). split; [|lia]. apply flow_send; [done| |done]. split.
  - intros E. rewrite (co_broker _ H2 E) in Ho. done.
  - intros E. destruct (H3 E); congruence.
Qed.

Lemma half_written r q n own peer wire b : half r q n own peer wire → half r q n (send b own) peer wire.
Proof.
  intros Hh. replace n with (n + 0) by lia. eapply half_life; [exact Hh|done|done|].
  intros n0 Hf. rewrite Z.add_0_r. by eapply flow_ext.
Qed.
End Half.

(** ** The channel of two connected sessions behaves as two queues *)
Section Linked.
Context {Msg : Type} `{!ProtoMessage Message} `{!ProtoMessage Msg}.
Context (c : Z) (P : Protocol Msg) (rl rr : nat).

(** The steps that move messages from the connection to the channels, and those
    by which the goroutines of a session return. *)
Inductive transport : Type :=
| LeftReceives | LeftTakes | LeftDelivers | LeftEnds | LeftExits
| RightReceives | RightTakes | RightDelivers | RightEnds | RightExits.

Definition transport_event (t : transport) (net : system Msg) : option (@system_event Msg) :=
  match t with
  | LeftReceives => Some LeftReads
  | LeftTakes => Some (LeftStep TakeRead)
  | LeftDelivers => Some (LeftStep Deliver)
  | LeftEnds => LeftStep <$> ends (left net) (right net) (bool_decide (to_left net = []))
  | LeftExits => Some (LeftStep ExitBroker)
  | RightReceives => Some RightReads
  | RightTakes => Some (RightStep TakeRead)
  | RightDelivers => Some (RightStep Deliver)
  | RightEnds => RightStep <$> ends (right net) (left net) (bool_decide (to_right net = []))
  | RightExits => Some (RightStep ExitBroker)
  end.

Definition session_move (t : transport) (net : system Msg) : option (system Msg) :=
  e ← transport_event t net; fst <$> system_step e net.

Definition transports (net : system Msg) : Prop := ∃ t net', session_move t net = Some net'.

(** [session.Close] of one side: its two statements. *)
Inductive finish : Type := StartClose | FinishClose.
Definition finish_event (f : finish) : @session_event Msg :=
  match f with StartClose => CloseSession | FinishClose => CloseConn end.
Definition left_finish (f : finish) (net : system Msg) : option (system Msg) :=
  fst <$> system_step (LeftStep (finish_event f)) net.
Definition right_finish (f : finish) (net : system Msg) : option (system Msg) :=
  fst <$> system_step (RightStep (finish_event f)) net.

(** [q12] is on its way to the right, [q21] to the left; fewer than [limit]
    messages were written, or a side closes its session. *)
Definition linked (limit : Z) (q12 q21 : list Msg) (n e : Z) (net : system Msg) : Prop :=
  ∃ n1 n2, half c P rr q12 n1 (right net) (left net) (to_right net) ∧
    half c P rl q21 n2 (left net) (right net) (to_left net) ∧ n = n1 + n2 ∧
    (e < limit → done (left net) = false ∧ done (right net) = false).

Lemma linked_nonneg limit q12 q21 n e net : linked limit q12 q21 n e net → 0 ≤ n.
Proof. intros (n1 & n2 & H1%half_nonneg & H2%half_nonneg & -> & _). lia. Qed.

Lemma output_same (s s' : session Msg) : sent s' = sent s → output s s' = [].
Proof. intros E. unfold output. by rewrite E, drop_all. Qed.
Lemma output_send (s : session Msg) b : output s (send b s) = [b].
Proof. unfold output. simpl. apply drop_app_length. Qed.

(** A step of a side that writes nothing, and what it does to that side. *)
Lemma linked_left limit q12 q21 q21' n k e e' ev net net' ob :
  linked limit q12 q21 n e net → system_step (LeftStep ev) net = Some (net', ob) → e ≤ e' →
  (∀ n2 s o, session_step ev (left net) = Some (s, o) → half c P rl q21 n2 (left net) (right net) (to_left net) →
     half c P rl q21' (n2 + k) s (right net) (to_left net) ∧ sent s = sent (left net) ∧
     (done (left net) = true → done s = true) ∧ (e' < limit → done s = done (left net))) →
  linked limit q12 q21' (n + k) e' net'.
Proof.
  intros (n1 & n2 & H1 & H2 & -> & Hd) Hs He Hk. cbn [system_step] in Hs. destruct (is_read ev); [done|].
  apply bind_Some in Hs as ([s o] & Hst & [= <- <-]). destruct (Hk n2 s o Hst H2) as (H2' & Hsent & Hmono & Hsame).
  exists n1, (n2 + k). cbn [left right to_left to_right]. rewrite output_same, app_nil_r by done.
  split_and!; [by eapply half_peer|done|lia|]. intros Hlt. rewrite Hsame by done. apply Hd. lia.
Qed.

Lemma linked_right limit q12 q12' q21 n k e e' ev net net' ob :
  linked limit q12 q21 n e net → system_step (RightStep ev) net = Some (net', ob) → e ≤ e' →
  (∀ n1 s o, session_step ev (right net) = Some (s, o) → half c P rr q12 n1 (right net) (left net) (to_right net) →
     half c P rr q12' (n1 + k) s (left net) (to_right net) ∧ sent s = sent (right net) ∧
     (done (right net) = true → done s = true) ∧ (e' < limit → done s = done (right net))) →
  linked limit q12' q21 (n + k) e' net'.
Proof.
  intros (n1 & n2 & H1 & H2 & -> & Hd) Hs He Hk. cbn [system_step] in Hs. destruct (is_read ev); [done|].
  apply bind_Some in Hs as ([s o] & Hst & [= <- <-]). destruct (Hk n1 s o Hst H1) as (H1' & Hsent & Hmono & Hsame).
  exists (n1 + k), n2. cbn [left right to_left to_right]. rewrite output_same, app_nil_r by done.
  split_and!; [done|by eapply half_peer|lia|]. intros Hlt. rewrite Hsame by done. apply Hd. lia.
Qed.

(** Every step of the connection brings the messages or the end closer. *)
Lemma linked_transport limit q12 q21 n e net t net' :
  linked limit q12 q21 n e net → session_move t net = Some net' → linked limit q12 q21 (n - 1) e net'.
Proof.
  intros Hl (ev & Hev & ([net1 ob] & Hs & ->)%fmap_Some)%bind_Some. cbn [fst].
  pose proof Hl as (n1 & n2 & [_ Cr _ _] & [_ Cl _ _] & _).
  assert (∀ s s' : session Msg, done s' = done s → (done s = true → done s' = true) ∧ (e < limit → done s' = done s))
    as Hdone by (intros s s' ->; done).
  destruct t; simpl in Hev.
  1, 6: injection Hev as <-; destruct Hl as (m1 & m2 & H1 & H2 & -> & Hd); cbn [system_step] in Hs;
    case_match eqn:Ew; [discriminate|]; apply bind_Some in Hs as ([s o] & Hs & [= <- <-]).
  1: { destruct (half_receive c P _ _ _ _ _ _ _ _ _ H2 Hs) as (H2' & _ & Ed).
    exists m1, (m2 - 1). split_and!; [eapply half_peer; [done|simpl; by rewrite Ed]|done|lia|]. simpl. by rewrite Ed. }
  1: { destruct (half_receive c P _ _ _ _ _ _ _ _ _ H1 Hs) as (H1' & _ & Ed).
    exists (m1 - 1), m2. split_and!; [done|eapply half_peer; [done|simpl; by rewrite Ed]|lia|]. simpl. by rewrite Ed. }
  1, 2, 4: injection Hev as <-; eapply linked_left; [done|done|done|]; intros k s o Hst Hh.
  1, 2: edestruct half_broker as (? & ? & ?); [|exact Hh|exact Hst|]; eauto.
  1: edestruct half_exit as (? & ? & ?); [exact Hh|exact Hst|]; eauto.
  2, 3, 5: injection Hev as <-; eapply linked_right; [done|done|done|]; intros k s o Hst Hh.
  2, 3: edestruct half_broker as (? & ? & ?); [|exact Hh|exact Hst|]; eauto.
  2: edestruct half_exit as (? & ? & ?); [exact Hh|exact Hst|]; eauto.
  - apply fmap_Some in Hev as (ev' & Hev & ->). eapply linked_left; [done|done|done|]. intros k s o Hst Hh.
    edestruct half_end as (? & ? & ?); [exact Hh|exact Cr| |exact Hev|exact Hst|]; [apply bool_decide_eq_true|eauto].
  - apply fmap_Some in Hev as (ev' & Hev & ->). eapply linked_right; [done|done|done|]. intros k s o Hst Hh.
    edestruct half_end as (? & ? & ?); [exact Hh|exact Cl| |exact Hev|exact Hst|]; [apply bool_decide_eq_true|eauto].
Qed.

(** A side that has read everything may close its session. *)
Lemma linked_left_finish limit q12 n e f net net' :
  linked limit q12 [] n e net → e ≤ limit → left_finish f net = Some net' → linked limit q12 [] (n - 1) limit net'.
Proof.
  intros Hl He ([net1 ob] & Hs & ->)%fmap_Some. eapply linked_left; [done|done|done|]. intros k s o Hst Hh.
  edestruct half_finish as (? & ? & ?); [|exact Hh|exact Hst|]; [destruct f; auto|]. split_and!; [done|done|done|lia].
Qed.

Lemma linked_right_finish limit q21 n e f net net' :
  linked limit [] q21 n e net → e ≤ limit → right_finish f net = Some net' → linked limit [] q21 (n - 1) limit net'.
Proof.
  intros Hl He ([net1 ob] & Hs & ->)%fmap_Some. eapply linked_right; [done|done|done|]. intros k s o Hst Hh.
  edestruct half_finish as (? & ? & ?); [|exact Hh|exact Hst|]; [destruct f; auto|]. split_and!; [done|done|done|lia].
Qed.

(** When both calls of [Close] are over, they have closed the connection, or the
    broker has done so before. *)
Definition close_returned (s : session Msg) : Prop :=
  closer s = CloseReturned None ∨ closer s = CloseReturned (Some net_ErrClosed).

Lemma left_finished limit q12 q21 n e net :
  linked limit q12 q21 n e net → (∀ f, left_finish f net = None) → close_returned (left net).
Proof.
  intros (n1 & n2 & _ & [_ [C1 C2 _ _] _ _] & _) Hf. pose proof (Hf StartClose) as F1. pose proof (Hf FinishClose) as F2.
  unfold left_finish, close_returned in *. cbn [system_step is_read finish_event session_step] in F1, F2.
  unfold Session_Close in F1. unfold Session_CloseConn in F2.
  destruct (closer (left net)) as [| |[err|]]; [by rewrite C1 in F1|done| |by left].
  right. by rewrite (C2 err eq_refl).
Qed.

Lemma right_finished limit q12 q21 n e net :
  linked limit q12 q21 n e net → (∀ f, right_finish f net = None) → close_returned (right net).
Proof.
  intros (n1 & n2 & [_ [C1 C2 _ _] _ _] & _) Hf. pose proof (Hf StartClose) as F1. pose proof (Hf FinishClose) as F2.
  unfold right_finish, close_returned in *. cbn [system_step is_read finish_event session_step] in F1, F2.
  unfold Session_Close in F1. unfold Session_CloseConn in F2.
  destruct (closer (right net)) as [| |[err|]]; [by rewrite C1 in F1|done| |by left].
  right. by rewrite (C2 err eq_refl).
Qed.

(** A channel that has something to be read from can be read, or transports. *)
Lemma linked_arrives_left limit q12 n e net m q' :
  linked limit q12 (m :: q') n e net →
  (∃ x, session_step (ReadChannel rl) (left net) = Some x) ∨ transports net.
Proof.
  intros (n1 & n2 & _ & [(n0 & H2 & _) _ _ _] & _).
  destruct (flow_progress c P _ _ _ _ _ H2) as [[[x o] Hx]|[[[x o] Hx]|[(b & rest & [x o] & Hw & Hx)|[_ Hx]]]].
  - right. eexists LeftDelivers, _. unfold session_move. cbn [transport_event mbind option_bind system_step is_read]. rewrite Hx. done.
  - right. eexists LeftTakes, _. unfold session_move. cbn [transport_event mbind option_bind system_step is_read]. rewrite Hx. done.
  - right. eexists LeftReceives, _. unfold session_move. cbn [transport_event mbind option_bind system_step]. rewrite Hw, Hx. done.
  - left. eauto.
Qed.

Lemma linked_arrives_right limit q21 n e net m q' :
  linked limit (m :: q') q21 n e net →
  (∃ x, session_step (ReadChannel rr) (right net) = Some x) ∨ transports net.
Proof.
  intros (n1 & n2 & [(n0 & H1 & _) _ _ _] & _).
  destruct (flow_progress c P _ _ _ _ _ H1) as [[[x o] Hx]|[[[x o] Hx]|[(b & rest & [x o] & Hw & Hx)|[_ Hx]]]].
  - right. eexists RightDelivers, _. unfold session_move. cbn [transport_event mbind option_bind system_step is_read]. rewrite Hx. done.
  - right. eexists RightTakes, _. unfold session_move. cbn [transport_event mbind option_bind system_step is_read]. rewrite Hx. done.
  - right. eexists RightReceives, _. unfold session_move. cbn [transport_event mbind option_bind system_step]. rewrite Hw, Hx. done.
  - left. eauto.
Qed.

#[export] Instance left_queue limit :
  QueueLike (RW := left_conn rl) limit (sendable c P) transports (λ q n e net, linked limit q.2 q.1 n e net).
Proof.
  split.
  - intros q n e net m (n1 & n2 & H1 & H2 & -> & Hd) Hlt Hm. destruct (Hd Hlt) as [Dl Dr].
    pose proof H2 as [(n0 & Hf & _) _ _ _].
    destruct (flow_write c P _ _ _ _ _ m Hf Hm) as (b & Hb & _ & Hw).
    eexists. split.
    { cbn [conn_Write left_conn right_conn channel_conn system_step is_read]. rewrite Hw. simpl. reflexivity. }
    simpl. rewrite output_send. exists (n1 + 3), n2. split_and!; [|by apply half_written|lia|done].
    by apply half_send; [eapply half_peer|..].
  - intros q n e net x net' Hl H. pose proof Hl as (n1 & n2 & H1 & H2 & -> & Hd).
    pose proof H2 as [(n0 & Hf & _) _ _ _].
    cbn [conn_Read left_conn right_conn channel_conn system_step is_read] in H.
    rewrite (flow_open c P _ _ _ _ _ Hf) in H.
    destruct (session_step (ReadChannel rl) (left net)) as [[s o]|] eqn:Hr; simpl in H; [|done].
    destruct (half_read c P _ _ _ _ _ _ _ _ H2 Hr) as (m & q' & -> & Hq & Hh & Hs & Ed). injection H as <- <-.
    exists m, q'. split_and!; [done|done|]. exists n1, n2. simpl. rewrite output_same, app_nil_r, Ed by done.
    split_and!; [|done|done|done]. eapply half_peer; [done|]. simpl. by rewrite Ed.
  - intros q n e net m q' Hl Hq. rewrite Hq in Hl.
    destruct (linked_arrives_left _ _ _ _ _ _ _ Hl) as [[[s o] Hx]|]; [left|by right].
    destruct Hl as (n1 & n2 & H1 & H2 & _).
    destruct (half_read c P _ _ _ _ _ _ _ _ H2 Hx) as (m' & q1 & -> & _). eexists.
    cbn [conn_Read left_conn right_conn channel_conn system_step is_read]. rewrite Hx. simpl. reflexivity.
Qed.

#[export] Instance right_queue limit :
  QueueLike (RW := right_conn rr) limit (sendable c P) transports (λ q n e net, linked limit q.1 q.2 n e net).
Proof.
  split.
  - intros q n e net m (n1 & n2 & H1 & H2 & -> & Hd) Hlt Hm. destruct (Hd Hlt) as [Dl Dr].
    pose proof H1 as [(n0 & Hf & _) _ _ _].
    destruct (flow_write c P _ _ _ _ _ m Hf Hm) as (b & Hb & _ & Hw).
    eexists. split.
    { cbn [conn_Write left_conn right_conn channel_conn system_step is_read]. rewrite Hw. simpl. reflexivity. }
    simpl. rewrite output_send. exists n1, (n2 + 3). split_and!; [by apply half_written| |lia|done].
    by apply half_send; [eapply half_peer|..].
  - intros q n e net x net' Hl H. pose proof Hl as (n1 & n2 & H1 & H2 & -> & Hd).
    pose proof H1 as [(n0 & Hf & _) _ _ _].
    cbn [conn_Read left_conn right_conn channel_conn system_step is_read] in H.
    rewrite (flow_open c P _ _ _ _ _ Hf) in H.
    destruct (session_step (ReadChannel rr) (right net)) as [[s o]|] eqn:Hr; simpl in H; [|done].
    destruct (half_read c P _ _ _ _ _ _ _ _ H1 Hr) as (m & q' & -> & Hq & Hh & Hs & Ed). injection H as <- <-.
    exists m, q'. split_and!; [done|done|]. exists n1, n2. simpl. rewrite output_same, app_nil_r, Ed by done.
    split_and!; [done| |done|done]. eapply half_peer; [done|]. simpl. by rewrite Ed.
  - intros q n e net m q' Hl Hq. rewrite Hq in Hl.
    destruct (linked_arrives_right _ _ _ _ _ _ _ Hl) as [[[s o] Hx]|]; [left|by right].
    destruct Hl as (n1 & n2 & H1 & H2 & _).
    destruct (half_read c P _ _ _ _ _ _ _ _ H1 Hx) as (m' & q1 & -> & _). eexists.
    cbn [conn_Read left_conn right_conn channel_conn system_step is_read]. rewrite Hx. simpl. reflexivity.
Qed.
End Linked.
