(* ===== verification/TransferSystem.v ===== *)
(** * TransferSystem: a whole transfer, sender and receiver side by side

    The loop of a [Sender] and the loop of a [Receiver], connected by two
    first-in first-out queues (what a pair of session channels provides).
    Every interleaving of the four goroutines is an execution.  The main
    result: no execution goes wrong or runs forever, and one that cannot go on
    has copied the file. *)

From S2P Require Import Prelude GoSem Sha256 Files Block BlockProps.
From S2P Require Import Automaton Protocol Transfer TransferProps Loop.

Local Open Scope Z_scope.

(** ** The system *)
Section System.
Context {F G : Type} `{!ReadSeekCloser F} `{!WriteSeekCloser G}.
Context (sc : Client Message (Sender.Sender F)) (rc : Client Message (Receiver.Receiver G)).

Record System : Type := mkSystem {
  sender : Loop Message (Sender.Sender F);
  receiver : Loop Message (Receiver.Receiver G);
  to_receiver : list Message;
  to_sender : list Message
}.

(** A step of a goroutine of the sender ([inl]) or of the receiver ([inr]). *)
Definition system_step (e : event + event) (s : System) : option System :=
  match e with
  | inl e =>
      '(l, q) ← loop_step Sender.state_cell sc e (sender s, (to_sender s, to_receiver s));
      Some (mkSystem l (receiver s) q.2 q.1)
  | inr e =>
      '(l, q) ← loop_step Receiver.state_cell rc e (receiver s, (to_receiver s, to_sender s));
      Some (mkSystem (sender s) l q.1 q.2)
  end.

Definition system_steps (s s' : System) : Prop := ∃ e, system_step e s = Some s'.
End System.
Arguments System : clear implicits.
Arguments mkSystem {F G} _ _ _ _.
Arguments sender {F G} _.
Arguments receiver {F G} _.
Arguments to_receiver {F G} _.
Arguments to_sender {F G} _.

(** ** Invariant *)
Section Correctness.
Context {F G : Type} `{HF : FileReader F} `{HG : FileWriter G}.
Context (d : bytes) (bs : Z) (meta : Metadata) (Hd : dims (zlen d) bs) (Hne : 0 < zlen d).
Context (wf : Metadata → Z → outcome (G + error)) (g0 : G) (c0 : bytes).
Context (Hwf : wf meta (zlen d) = Ret (inl g0)) (Hg0 : fw_holds g0 c0) (Hc0 : zlen c0 = zlen d).
Abbreviation N := (nblocks (zlen d) bs).
Abbreviation sclient := (client_of Sender.state_cell (@Sender.protocolDefinition F _)).
Abbreviation rclient := (client_of Receiver.state_cell (Receiver.protocolDefinition wf)).
Implicit Types s : System F G.

(** Steps a reading goroutine has taken on the message in its hands. *)
Definition phase_steps (p : reader_phase Message) : Z :=
  match p with Reading => 0 | Got _ => 1 | Offering _ => 2 | Exited => 0 end.

(** The reading goroutine and the queue it reads from hold the messages
    [c .. a - 1] of the stream [msg]. *)
Definition in_transit (msg : Z → Message) (p : reader_phase Message) (q : list Message) (c a : Z) : Prop :=
  match p with
  | Reading => q = msg <$> seqZ c (a - c)
  | Got m | Offering m => m = msg c ∧ c < a ∧ q = msg <$> seqZ (c + 1) (a - c - 1)
  | Exited => False
  end.

Definition running_or_done {W} (l : Loop Message W) (finished : Prop) : Prop :=
  errs l = None ∧
  ((main l = Running ∧ done_closed l = false) ∨
   (main l = Returned None ∧ done_closed l = true ∧ finished)).

Definition returned {W} (l : Loop Message W) : Z := match main l with Running => 0 | _ => 1 end.

(** The sender has written [a] messages and read [c], the receiver has read
    [b] and written [e]; [k] steps were taken so far. *)
Record inv_at (a b c e k : Z) s : Prop := {
  i_order : 0 ≤ c ≤ e ∧ e ≤ b ≤ e + 1 ∧ b ≤ a ≤ N + 2 ∧ (a = N + 2 → 0 < c);
  i_sender : sender_at d bs meta a c (store (sender s));
  i_receiver : receiver_at d bs b e (store (receiver s));
  i_smain : running_or_done (sender s) (c = N + 2);
  i_rmain : running_or_done (receiver s) (e = N + 2);
  i_sr : in_transit (sender_msg d bs meta) (reading (receiver s)) (to_receiver s) b a;
  i_rs : in_transit (receiver_msg d bs) (reading (sender s)) (to_sender s) c e;
  i_steps : k = a + e + 3 * b + 3 * c + phase_steps (reading (receiver s)) +
            phase_steps (reading (sender s)) + returned (sender s) + returned (receiver s)
}.

Definition inv (k : Z) s : Prop := ∃ a b c e, inv_at a b c e k s.

(** *** What is in transit *)

Lemma in_transit_write msg p q c a :
  in_transit msg p q c a → c ≤ a → in_transit msg p (q ++ [msg a]) c (a + 1).
Proof.
  intros H Hc. destruct p as [|m|m|]; simpl in *; [|destruct H as (-> & Hlt & ->)..|done].
  - rewrite H. replace (a + 1 - c) with ((a - c) + 1) by lia.
    rewrite seqZ_app, fmap_app by lia. simpl. by replace (c + (a - c)) with a by lia.
  - split_and!; [done|lia|]. replace (a + 1 - c - 1) with ((a - c - 1) + 1) by lia.
    rewrite seqZ_app, fmap_app by lia. simpl. by replace (c + 1 + (a - c - 1)) with a by lia.
  - split_and!; [done|lia|]. replace (a + 1 - c - 1) with ((a - c - 1) + 1) by lia.
    rewrite seqZ_app, fmap_app by lia. simpl. by replace (c + 1 + (a - c - 1)) with a by lia.
Qed.

Lemma in_transit_read msg m q c a :
  in_transit msg Reading (m :: q) c a → in_transit msg (Got m) q c a.
Proof.
  simpl. intros H. assert (0 < a - c) as Hlt.
  { destruct (decide (0 < a - c)); [done|]. by rewrite seqZ_nil in H by lia. }
  rewrite seqZ_cons in H by done. injection H as -> ->.
  split_and!; [done|lia|]. do 2 f_equal; lia.
Qed.

Lemma in_transit_receive msg m q c a :
  in_transit msg (Offering m) q c a → in_transit msg Reading q (c + 1) a.
Proof. simpl. intros (_ & _ & ->). do 2 f_equal. lia. Qed.

Lemma in_transit_queue msg q c a :
  in_transit msg Reading q c a → c < a → ∃ m q', q = m :: q'.
Proof. simpl. intros -> Hlt. rewrite seqZ_cons by lia. simpl. eauto. Qed.

(** *** When the clients are done *)

Lemma sender_IsDone a c (w : Sender.Sender F) :
  sender_at d bs meta a c w → 0 ≤ c ≤ a → a ≤ N + 2 →
  Protocol.IsDone Sender.state_cell sclient w = (c =? N + 2).
Proof.
  intros Hs Hc Ha. unfold Protocol.IsDone. simpl. rewrite (sa_state _ _ _ _ _ _ Hs).
  pose proof (nblocks_nonneg _ _ Hd). unfold sender_state.
  destruct (Z.eqb_spec c (N + 2)) as [->|].
  - by zcond.
  - by destruct (a =? 0), (a <=? N), (c =? 0), (a =? N + 1).
Qed.

Lemma receiver_IsDone b e (w : Receiver.Receiver G) :
  receiver_at d bs b e w → 0 ≤ e ≤ b → b ≤ e + 1 → b ≤ N + 2 →
  Protocol.IsDone Receiver.state_cell rclient w = (e =? N + 2).
Proof.
  intros Hr He Hb Hb2. unfold Protocol.IsDone. simpl. rewrite (ra_state _ _ _ _ _ Hr).
  pose proof (nblocks_nonneg _ _ Hd). unfold receiver_state.
  destruct (Z.eqb_spec e (N + 2)) as [->|].
  - by zcond.
  - destruct (Z.eqb_spec b 0), (Z.eqb_spec b e), (Z.leb_spec b N), (Z.eqb_spec b (N + 1));
      try done; try lia; by destruct (b =? 1), (b <=? N + 1).
Qed.

(** *** Every step keeps the invariant *)

Ltac positions := unfold returned; simpl; lia.

Lemma running_in_loop {W} (st : lens W State) (cl : Client Message W) (l : Loop Message W) P :
  running_or_done l P → in_loop st cl l = true →
  main l = Running ∧ done_closed l = false ∧ errs l = None ∧
  Protocol.IsDone st cl (store l) = false.
Proof.
  unfold in_loop. intros [He [[Hm Hc]|(Hm & _)]]; rewrite Hm; [|done].
  intros Hd'%negb_true_iff. done.
Qed.

Lemma sender_loop_inv a b c e k s ev l q :
  inv_at a b c e k s →
  loop_step Sender.state_cell sclient ev (sender s, (to_sender s, to_receiver s)) = Some (l, q) →
  inv (k + 1) (mkSystem l (receiver s) q.2 q.1).
Proof.
  intros [Hord Hs Hr Hsm Hrm Hsr Hrs Hk] Hstep. destruct_ands.
  destruct s as [[w m rd er dc] rl qr qs]. simpl in *. destruct ev; simpl in Hstep.
  - (* ReaderRead *)
    destruct rd; try discriminate. destruct qs as [|msg qs]; simplify_eq/=.
    exists a, b, c, e. split; simpl; try done; try positions. by apply in_transit_read.
  - (* ReaderOffer *)
    destruct rd as [|msg|msg|]; simplify_eq/=.
    exists a, b, c, e. split; simpl; try done; positions.
  - (* ReaderExit *)
    destruct rd as [|msg|msg|]; try discriminate. destruct dc; try discriminate.
    destruct Hsm as [_ [[_ ?]|(_ & _ & ?)]], Hrs as (_ & ? & _); simpl in *; [done|lia].
  - (* MainDone *)
    destruct m; try discriminate. erewrite sender_IsDone in Hstep by (done || lia).
    destruct (Z.eqb_spec c (N + 2)); simplify_eq/=.
    exists a, b, (N + 2), e. split; simpl; try done; try positions.
    split; [by destruct Hsm|]. right. done.
  - (* MainWrite *)
    destruct (in_loop _ _ _) eqn:Hin; [|discriminate]. simpl in Hstep.
    destruct (running_in_loop _ _ _ _ Hsm Hin) as (Hm & Hdc & He & Hdone). simpl in *. subst m dc er.
    destruct (CanWrite _ _ _ && _) eqn:Hcan; [|discriminate].
    rewrite andb_true_iff in Hcan. destruct Hcan as [Hcan _].
    erewrite sender_CanWrite in Hcan by (done || lia).
    assert (a ≤ N ∨ a = N + 1 ∧ 0 < c) as Hac by lia.
    destruct (sender_write d bs meta Hd Hne a c w Hs) as (w' & HW & Hs'); [lia..|].
    unfold write in Hstep. simpl in Hstep. rewrite HW in Hstep. simplify_eq/=.
    exists (a + 1), b, c, e. split; simpl; try done; try positions.
    by apply in_transit_write; [|lia].
  - (* MainReceive *)
    destruct rd as [|msg|msg|]; try discriminate.
    destruct (in_loop _ _ _) eqn:Hin; [|discriminate].
    destruct (running_in_loop _ _ _ _ Hsm Hin) as (Hm & Hdc & He & Hdone). simpl in *. subst m dc er.
    destruct Hrs as (-> & Hlt & Hq).
    destruct (sender_read d bs meta Hd Hne a c w Hs) as (w' & HR & Hs'); [lia..|].
    unfold receive in Hstep. simpl in Hstep. rewrite HR in Hstep. simplify_eq/=.
    exists a, b, (c + 1), e. split; simpl; try done; try positions.
    + by split; [|left].
    + do 2 f_equal; lia.
  - (* MainError *)
    destruct Hsm as [He _]. simpl in He. by subst er.
Qed.

Lemma receiver_loop_inv a b c e k s ev l q :
  inv_at a b c e k s →
  loop_step Receiver.state_cell rclient ev (receiver s, (to_receiver s, to_sender s)) = Some (l, q) →
  inv (k + 1) (mkSystem (sender s) l q.1 q.2).
Proof.
  intros [Hord Hs Hr Hsm Hrm Hsr Hrs Hk] Hstep. destruct_ands.
  destruct s as [sl [w m rd er dc] qr qs]. simpl in *. destruct ev; simpl in Hstep.
  - (* ReaderRead *)
    destruct rd; try discriminate. destruct qr as [|msg qr]; simplify_eq/=.
    exists a, b, c, e. split; simpl; try done; try positions. by apply in_transit_read.
  - (* ReaderOffer *)
    destruct rd as [|msg|msg|]; simplify_eq/=.
    exists a, b, c, e. split; simpl; try done; positions.
  - (* ReaderExit *)
    destruct rd as [|msg|msg|]; try discriminate. destruct dc; try discriminate.
    destruct Hrm as [_ [[_ ?]|(_ & _ & ?)]], Hsr as (_ & ? & _); simpl in *; [done|lia].
  - (* MainDone *)
    destruct m; try discriminate. erewrite receiver_IsDone in Hstep by (done || lia).
    destruct (Z.eqb_spec e (N + 2)); simplify_eq/=.
    exists a, b, c, (N + 2). split; simpl; try done; try positions.
    split; [by destruct Hrm|]. right. done.
  - (* MainWrite *)
    destruct (in_loop _ _ _) eqn:Hin; [|discriminate]. simpl in Hstep.
    destruct (running_in_loop _ _ _ _ Hrm Hin) as (Hm & Hdc & He & Hdone). simpl in *. subst m dc er.
    unfold MustWrite in Hstep. erewrite receiver_CanWrite in Hstep by (done || lia).
    destruct (Z.eqb_spec b e); [done|]. assert (b = e + 1) as -> by lia. simpl in Hstep.
    destruct (receiver_write d bs Hd Hne wf e w Hr) as (w' & HW & Hr'); [lia..|].
    unfold write in Hstep. simpl in Hstep. rewrite HW in Hstep. simplify_eq/=.
    exists a, (e + 1), c, (e + 1). split; simpl; try done; try positions.
    + by split; [|left].
    + by apply in_transit_write; [|lia].
  - (* MainReceive *)
    destruct rd as [|msg|msg|]; try discriminate.
    destruct (in_loop _ _ _) eqn:Hin; [|discriminate].
    destruct (running_in_loop _ _ _ _ Hrm Hin) as (Hm & Hdc & He & Hdone). simpl in *. subst m dc er.
    unfold MustWrite in Hstep. erewrite receiver_CanWrite in Hstep by (done || lia).
    destruct (Z.eqb_spec b e) as [->|]; [|done]. simpl in Hstep.
    destruct Hsr as (-> & Hlt & Hq).
    destruct (receiver_read d bs meta Hd Hne wf g0 c0 Hwf Hg0 Hc0 e w Hr) as (w' & HR & Hr'); [lia..|].
    unfold receive in Hstep. simpl in Hstep. rewrite HR in Hstep. simplify_eq/=.
    exists a, (e + 1), c, e. split; simpl; try done; try positions.
    do 2 f_equal; lia.
  - (* MainError *)
    destruct Hrm as [He _]. simpl in He. by subst er.
Qed.

Lemma system_inv k s s' : inv k s → system_steps sclient rclient s s' → inv (k + 1) s'.
Proof.
  intros (a & b & c & e & Hi) [[ev|ev] Hs]; apply bind_Some in Hs as ([l q] & E & [= <-]).
  - by eapply sender_loop_inv.
  - by eapply receiver_loop_inv.
Qed.

(** *** A state that cannot move has finished *)

(** A reading goroutine with something to read or in its hands can move. *)
Lemma reader_moves {W} (st : lens W State) (cl : Client Message W) (l : Loop Message W) qi qo msg c a :
  in_transit msg (reading l) qi c a → c < a →
  (∃ m, reading l = Offering m) ∨ ∃ ev x, loop_step st cl ev (l, (qi, qo)) = Some x.
Proof.
  intros H Hlt. destruct (reading l) as [|m|m|] eqn:E; [|..|done].
  - destruct (in_transit_queue _ _ _ _ H Hlt) as (m & q' & ->).
    right. exists ReaderRead. eexists. simpl. by rewrite E.
  - right. exists ReaderOffer. eexists. simpl. by rewrite E.
  - eauto.
Qed.

(** A running loop that may read and is offered a message can move. *)
Lemma main_receives {W} (st : lens W State) (cl : Client Message W) (l : Loop Message W) c m :
  main l = Running → Protocol.IsDone st cl (store l) = false →
  MustWrite st cl (store l) = false → reading l = Offering m →
  ∃ ev x, loop_step (C := list Message * list Message) st cl ev (l, c) = Some x.
Proof.
  intros Hm Hd' Hmust E. exists MainReceive. eexists. simpl. unfold in_loop.
  by rewrite E, Hm, Hd', Hmust.
Qed.

Lemma main_finishes {W} (st : lens W State) (cl : Client Message W) (l : Loop Message W) c :
  main l = Running → Protocol.IsDone st cl (store l) = true →
  ∃ ev x, loop_step (C := list Message * list Message) st cl ev (l, c) = Some x.
Proof. intros Hm Hd'. exists MainDone. eexists. simpl. by rewrite Hm, Hd'. Qed.

(** The receiver moves unless it has returned or waits for the sender. *)
Lemma receiver_progress a b c e k s :
  inv_at a b c e k s →
  (main (receiver s) = Returned None ∧ e = N + 2) ∨ (a = b ∧ b = e ∧ e < N + 2) ∨
  ∃ ev x, loop_step Receiver.state_cell rclient ev
    (receiver s, (to_receiver s, to_sender s)) = Some x.
Proof.
  intros [Hord Hs Hr Hsm [Herr [[Hm Hdc]|(Hm & _ & He)]] Hsr Hrs Hk]; [|by left].
  destruct_ands. right. pose proof (receiver_IsDone b e _ Hr) as Hdone.
  pose proof (receiver_CanWrite d bs Hd wf b e _ Hr) as Hcan.
  destruct (Z.eqb_spec e (N + 2)); [right; apply main_finishes; [done|rewrite Hdone by lia; done]|].
  destruct (Z.eqb_spec b e) as [->|].
  - destruct (decide (a = e)); [left; lia|]. right.
    destruct (reader_moves Receiver.state_cell rclient (receiver s) _ (to_sender s) _ _ _ Hsr)
      as [[m E]|]; [lia| |done].
    eapply main_receives; [done|rewrite Hdone by lia; done| |done].
    unfold MustWrite. rewrite Hcan by lia. done.
  - right. assert (b = e + 1) as -> by lia.
    destruct (receiver_write d bs Hd Hne wf e _ Hr) as (w' & HW & Hr'); [lia..|].
    exists MainWrite. eexists. simpl. unfold in_loop, MustWrite, write.
    rewrite Hm, Hdone, Hcan, HW by lia. done.
Qed.

(** The sender moves unless it has returned or waits for the receiver. *)
Lemma sender_progress a b c e k s :
  inv_at a b c e k s →
  (main (sender s) = Returned None ∧ c = N + 2) ∨ (c = e ∧ c < N + 2 ∧ (N < a) ∧ (c = 0 ∨ a = N + 2)) ∨
  ∃ ev x, loop_step Sender.state_cell sclient ev
    (sender s, (to_sender s, to_receiver s)) = Some x.
Proof.
  intros [Hord Hs Hr [Herr [[Hm Hdc]|(Hm & _ & He)]] Hrm Hsr Hrs Hk]; [|by left].
  destruct_ands. right. pose proof (sender_IsDone a c _ Hs) as Hdone.
  pose proof (sender_CanWrite d bs meta Hd Hne a c _ Hs) as Hcan.
  destruct (Z.eqb_spec c (N + 2)); [right; apply main_finishes; [done|rewrite Hdone by lia; done]|].
  assert ((∃ m, reading (sender s) = Offering m) → ∃ ev x, loop_step Sender.state_cell sclient ev
    (sender s, (to_sender s, to_receiver s)) = Some x) as Hrecv.
  { intros [m E]. eapply main_receives; [done|rewrite Hdone by lia; done|done|done]. }
  destruct (decide (c < e)).
  - right. destruct (reader_moves Sender.state_cell sclient (sender s) _ (to_receiver s) _ _ _ Hrs)
      as [?|]; [lia| |done]. auto.
  - destruct (CanWrite Sender.state_cell sclient (store (sender s))) eqn:Ec.
    + specialize (Hcan ltac:(lia) ltac:(lia)). right.
      destruct (reading (sender s)) as [| |m|] eqn:E; [..|done].
      1, 2: destruct (sender_write d bs meta Hd Hne a c _ Hs) as (w' & HW & Hs'); [lia..|];
        exists MainWrite; eexists; simpl; unfold in_loop, ready, write;
        rewrite Hm, Hdone, Ec, E, Herr, HW by lia; done.
      eauto.
    + specialize (Hcan ltac:(lia) ltac:(lia)). left. lia.
Qed.

Lemma system_finished k s :
  inv k s → stuck (system_steps sclient rclient) s →
  k = 8 * N + 18 ∧ main (sender s) = Returned None ∧ main (receiver s) = Returned None ∧
  (∃ w, Receiver.writer (store (receiver s)) = Some w ∧ fw_holds (Writer.writer w) d) ∧
  fr_holds (Reader.reader (Sender.reader (store (sender s)))) d.
Proof.
  intros (a & b & c & e & Hi) Hstuck. pose proof (N_pos d bs Hd Hne) as HN.
  assert (∀ ev, loop_step Receiver.state_cell rclient ev
    (receiver s, (to_receiver s, to_sender s)) = None) as Hr.
  { intros ev. destruct (loop_step _ _ ev _) as [[l q]|] eqn:E; [|done]. exfalso.
    eapply Hstuck. exists (inr ev). cbn [system_step]. by rewrite E. }
  assert (∀ ev, loop_step Sender.state_cell sclient ev
    (sender s, (to_sender s, to_receiver s)) = None) as Hs.
  { intros ev. destruct (loop_step _ _ ev _) as [[l q]|] eqn:E; [|done]. exfalso.
    eapply Hstuck. exists (inl ev). cbn [system_step]. by rewrite E. }
  pose proof (i_order _ _ _ _ _ _ Hi) as Hord. destruct_ands.
  destruct (receiver_progress _ _ _ _ _ _ Hi) as [[Hrm He]|[Hw|(ev & x & E)]]; [| |by rewrite Hr in E].
  - destruct (sender_progress _ _ _ _ _ _ Hi) as [[Hsm Hc]|[Hw|(ev & x & E)]]; [|lia|by rewrite Hs in E].
    destruct Hi as [_ Hsa Hra _ _ Hsr Hrs Hk]. assert (a = N + 2) as -> by lia.
    assert (b = N + 2) as -> by lia. subst c e. split_and!; [|done|done| |apply Hsa].
    + unfold returned in Hk. rewrite Hsm, Hrm in Hk.
      destruct (reading (receiver s)), (reading (sender s)); simpl in *; lia.
    + destruct (ra_writer _ _ _ _ _ Hra) as (w & c & l & Hw & Hrep & Hl); [lia|].
      exists w. split; [done|].
      rewrite (writer_rep_full d bs Hd w c l Hrep) in Hrep; [apply Hrep|].
      intros i Hin%elem_of_seqZ. apply Hl. unfold blocks_in. lia.
  - destruct (sender_progress _ _ _ _ _ _ Hi) as [[Hsm Hc]|[Hw2|(ev & x & E)]]; [lia|lia|by rewrite Hs in E].
Qed.
Lemma inv_bound k s : inv k s → k ≤ 8 * N + 18.
Proof.
  intros (a & b & c & e & [Hord _ _ _ _ Hsr Hrs Hk]). destruct_ands.
  unfold returned, in_transit in *.
  destruct (reading (receiver s)), (reading (sender s)); destruct_ands; try done;
    simpl in *; destruct (main (sender s)), (main (receiver s)); lia.
Qed.

Lemma inv_start (s0 : Sender.Sender F) (r0 : Receiver.Receiver G) :
  sender_at d bs meta 0 0 s0 → receiver_at d bs 0 0 r0 →
  inv 0 (mkSystem (Run_start s0) (Run_start r0) [] []).
Proof.
  intros Hs Hr. pose proof (nblocks_nonneg _ _ Hd). exists 0, 0, 0, 0.
  split; simpl; try done; try lia; by split; [|left].
Qed.

(** No goroutine has panicked or returned an error. *)
Lemma inv_main k s :
  inv k s →
  (main (sender s) = Running ∨ main (sender s) = Returned None) ∧
  (main (receiver s) = Running ∨ main (receiver s) = Returned None).
Proof.
  intros (a & b & c & e & [_ _ _ [_ Hs] [_ Hr] _ _ _]).
  split; [destruct Hs as [[? _]|[? _]] | destruct Hr as [[? _]|[? _]]]; auto.
Qed.
End Correctness.

(** ** Running a system

    A scheduler that takes the first step that is possible, in a given order
    of the events; it gives up when it runs out of fuel. *)
Section Run.
Context {F G : Type} `{!ReadSeekCloser F} `{!WriteSeekCloser G}.
Context (sc : Client Message (Sender.Sender F)) (rc : Client Message (Receiver.Receiver G)).

Definition loop_events : list event :=
  [ReaderRead; ReaderOffer; ReaderExit; MainDone; MainWrite; MainReceive; MainError].
Definition all_events : list (event + event) := (inl <$> loop_events) ++ (inr <$> loop_events).

Definition next (order : list (event + event)) (s : System F G) : option (System F G) :=
  foldr (λ e r, match system_step sc rc e s with Some s' => Some s' | None => r end) None order.

Fixpoint run (fuel : nat) (order : list (event + event)) (s : System F G) : System F G :=
  match fuel with
  | O => s
  | S fuel => match next order s with Some s' => run fuel order s' | None => s end
  end.
End Run.

(** The bounds of a run and what is true at its end. *)
Lemma transfer_runs {F G} `{HF : FileReader F} `{HG : FileWriter G}
    (d : bytes) (bs : Z) (meta : Metadata) (f : F) (g : G) (c0 : bytes)
    (wf : Metadata → Z → outcome (G + error)) :
  dims (zlen d) bs → 0 < zlen d → fr_holds f d →
  wf meta (zlen d) = Ret (inl g) → fw_holds g c0 → zlen c0 = zlen d →
  ∃ sc s0 rc r0,
    Sender.NewSender (Some meta) (Reader.NewBlockReader f (zlen d) bs) = Ret (sc, s0) ∧
    Receiver.NewReceiver wf = Ret (rc, r0) ∧
    ∀ n s,
      steps_n (system_steps sc rc) n (mkSystem (Run_start s0) (Run_start r0) [] []) s →
      Z.of_nat n ≤ 8 * nblocks (zlen d) bs + 18 ∧
      (main (sender s) = Running ∨ main (sender s) = Returned None) ∧
      (main (receiver s) = Running ∨ main (receiver s) = Returned None) ∧
      (stuck (system_steps sc rc) s ↔ Z.of_nat n = 8 * nblocks (zlen d) bs + 18) ∧
      (stuck (system_steps sc rc) s →
         main (sender s) = Returned None ∧ main (receiver s) = Returned None ∧
         ∃ w, Receiver.writer (store (receiver s)) = Some w ∧ fw_holds (Writer.writer w) d).
Proof.
  intros Hd Hne Hf Hwf Hg Hc0.
  destruct (NewSender_at d bs meta Hd f Hf) as (s0 & HS & Hs0).
  destruct (NewReceiver_at d bs wf) as (r0 & HR & Hr0).
  eexists _, s0, _, r0. split_and!; [exact HS|exact HR|]. intros n s Hn.
  pose proof (inv_start d bs meta Hd s0 r0 Hs0 Hr0) as H0.
  pose proof (system_inv d bs meta Hd Hne wf g c0 Hwf Hg Hc0) as Hstep.
  pose proof (steps_n_count _ _ Hstep _ _ _ Hn 0 H0) as Hi. rewrite Z.add_0_l in Hi.
  pose proof (inv_bound d bs meta _ _ Hi) as Hb.
  pose proof (system_finished d bs meta Hd Hne wf _ _ Hi) as Hfin.
  destruct (inv_main d bs meta _ _ Hi) as [Hms Hmr]. split_and!; [done|done|done|split|].
  - intros Hstuck. by destruct (Hfin Hstuck).
  - intros Hn' s' Hs'. pose proof (inv_bound d bs meta _ _ (Hstep _ _ _ Hi Hs')). lia.
  - intros Hstuck. destruct (Hfin Hstuck) as (_ & ? & ? & ? & _). done.
Qed.

(** ** Properties *)

(** C1: a transfer of a file of any non-zero size, in blocks of any non-zero
    size, run by the read-write loops of both sides over two first-in first-out
    queues.  Creating the two sides succeeds.  In every interleaving of the
    goroutines no side panics or returns an error; every execution takes at
    most [8 * n + 18] steps for [n] blocks, so it terminates; it can go on until
    exactly that many steps were taken; and then both loops have returned
    without an error and the receiver's file has the contents of the sender's. *)
Theorem transfer_correct {F G} `{HF : FileReader F} `{HG : FileWriter G}
    (d : bytes) (bs : Z) (meta : Metadata) (f : F) (g : G) (c0 : bytes)
    (wf : Metadata → Z → outcome (G + error)) :
  dims (zlen d) bs → 0 < zlen d → fr_holds f d →
  wf meta (zlen d) = Ret (inl g) → fw_holds g c0 → zlen c0 = zlen d →
  ∃ sc s0 rc r0,
    Sender.NewSender (Some meta) (Reader.NewBlockReader f (zlen d) bs) = Ret (sc, s0) ∧
    Receiver.NewReceiver wf = Ret (rc, r0) ∧
    ∀ n s,
      steps_n (system_steps sc rc) n (mkSystem (Run_start s0) (Run_start r0) [] []) s →
      Z.of_nat n ≤ 8 * nblocks (zlen d) bs + 18 ∧
      (main (sender s) = Running ∨ main (sender s) = Returned None) ∧
      (main (receiver s) = Running ∨ main (receiver s) = Returned None) ∧
      (stuck (system_steps sc rc) s ↔ Z.of_nat n = 8 * nblocks (zlen d) bs + 18) ∧
      (stuck (system_steps sc rc) s →
         main (sender s) = Returned None ∧ main (receiver s) = Returned None ∧
         ∃ w, Receiver.writer (store (receiver s)) = Some w ∧ fw_holds (Writer.writer w) d).
Proof. apply transfer_runs. Qed.

(** A file of five bytes, sent in blocks of two to a buffer of zeros. *)
Definition demo_data : bytes := [Byte.x01; Byte.x02; Byte.x03; Byte.x04; Byte.x05].
Definition demo_meta : Metadata := mkMetadata "demo".
Definition demo_writer : Metadata → Z → outcome (Buffer.Buffer + error) :=
  λ _ size, Ret (inl (Buffer.NewBuffer (replicate (Z.to_nat size) Byte.x00))).

Lemma transfer_correct_witness :
  ∃ sc s0 rc r0,
    Sender.NewSender (Some demo_meta) (Reader.NewBlockReader (Buffer.NewBuffer demo_data) 5 2) =
      Ret (sc, s0) ∧
    Receiver.NewReceiver demo_writer = Ret (rc, r0) ∧
    ∀ n s,
      steps_n (system_steps sc rc) n (mkSystem (Run_start s0) (Run_start r0) [] []) s →
      stuck (system_steps sc rc) s →
      n = 42%nat ∧ ∃ w, Receiver.writer (store (receiver s)) = Some w ∧
        Buffer.Data (Writer.writer w) = demo_data.
Proof.
  destruct (transfer_correct demo_data 2 demo_meta (Buffer.NewBuffer demo_data)
    (Buffer.NewBuffer (replicate 5 Byte.x00)) (replicate 5 Byte.x00) demo_writer)
    as (sc & s0 & rc & r0 & HS & HR & H).
  - apply (bool_decide_unpack _). vm_compute. exact I.
  - vm_compute. reflexivity.
  - apply Buffer.NewBuffer_holds. vm_compute. discriminate.
  - reflexivity.
  - apply Buffer.NewBuffer_holds. vm_compute. discriminate.
  - reflexivity.
  - exists sc, s0, rc, r0. split; [exact HS|]. split; [exact HR|].
    intros n s Hn Hstuck. destruct (H n s Hn) as (_ & _ & _ & Hex & Hfin). split.
    + apply Hex in Hstuck. change (Z.of_nat n = 42) in Hstuck. lia.
    + destruct (Hfin Hstuck) as (_ & _ & w & Hw & (_ & Hd & _)). eauto.
Defined.

(** The scheduler runs that transfer to its end, whichever goroutines it favours. *)
Example demo_transfer_runs :
  ∀ order, order ∈ [all_events; rev all_events] →
  match Sender.NewSender (Some demo_meta) (Reader.NewBlockReader (Buffer.NewBuffer demo_data) 5 2),
        Receiver.NewReceiver demo_writer with
  | Ret (sc, s0), Ret (rc, r0) =>
      let s := run sc rc 100 order (mkSystem (Run_start s0) (Run_start r0) [] []) in
      (main (sender s), main (receiver s),
       (Buffer.Data ∘ Writer.writer) <$> Receiver.writer (store (receiver s))) =
      (Returned None, Returned None, Some demo_data)
  | _, _ => False
  end.
Proof. intros order H. repeat (apply elem_of_cons in H as [->|H]; [vm_compute; reflexivity|]). by apply not_elem_of_nil in H. Qed.
