(* ===== verification/TransferSession.v ===== *)
(** * TransferSession: a transfer over a channel of two sessions

    [TransferSystem] runs a sender and a receiver over two queues, and
    [SessionSystem] two sessions that are connected to each other.  Here the
    loops of the sender and of the receiver use the [Read] and [Write] of a
    channel of the sessions, and the two brokers, the two reading goroutines and
    the connection take steps of their own.  Every execution of this stack is
    an execution over queues with steps of the transport in between
    ([SessionChannel]), so the transfer succeeds over the sessions, too. *)

From S2P Require Import Prelude GoSem Sha256 Files Block BlockProps.
From S2P Require Import Automaton Protocol Secure Channel Proto Session SessionSystem.
From S2P Require Import Transfer TransferProps Loop SessionChannel TransferSystem.

Local Open Scope Z_scope.

(** ** The stack

    Two loops over a network: [left_rw] and [right_rw] are the connections that
    the network gives to the two sides, [move] the steps it takes itself, and
    [left_end] and [right_end] what a side does when its loop has returned: the
    commands close the session. *)
Section Stack.
Context {F G Net T E : Type} `{!ReadSeekCloser F} `{!WriteSeekCloser G}.
Context (left_rw right_rw : ReadWriter Net Transfer.Message) (move : T → Net → option Net).
Context (left_end right_end : E → Net → option Net).
Context (sc : Client Transfer.Message (Sender.Sender F)) (rc : Client Transfer.Message (Receiver.Receiver G)).

Record stack : Type := mkStack {
  st_sender : Loop Transfer.Message (Sender.Sender F);
  st_receiver : Loop Transfer.Message (Receiver.Receiver G);
  st_net : Net
}.

(** A goroutine of the sender's or of the receiver's loop, or of the network; or
    the main goroutine of a command after [loop.Run]. *)
Inductive stack_event : Type :=
| SenderEvent (e : Loop.event)
| ReceiverEvent (e : Loop.event)
| TransportEvent (t : T)
| SenderEnds (f : E)
| ReceiverEnds (f : E).

Definition run_ok {W} (l : Loop Transfer.Message W) : bool :=
  match main l with Returned None => true | _ => false end.

Definition stack_step (e : stack_event) (s : stack) : option stack :=
  match e with
  | SenderEvent e =>
      '(l, net) ← loop_step (ReadWriter0 := left_rw) Sender.state_cell sc e (st_sender s, st_net s);
      Some (mkStack l (st_receiver s) net)
  | ReceiverEvent e =>
      '(l, net) ← loop_step (ReadWriter0 := right_rw) Receiver.state_cell rc e (st_receiver s, st_net s);
      Some (mkStack (st_sender s) l net)
  | TransportEvent t =>
      net ← move t (st_net s);
      Some (mkStack (st_sender s) (st_receiver s) net)
  | SenderEnds f =>
      if run_ok (st_sender s) then
        net ← left_end f (st_net s); Some (mkStack (st_sender s) (st_receiver s) net)
      else None
  | ReceiverEnds f =>
      if run_ok (st_receiver s) then
        net ← right_end f (st_net s); Some (mkStack (st_sender s) (st_receiver s) net)
      else None
  end.

Definition stack_steps (s s' : stack) : Prop := ∃ e, stack_step e s = Some s'.
End Stack.
Arguments stack : clear implicits.
Arguments mkStack {F G Net} _ _ _.
Arguments st_sender {F G Net} _.
Arguments st_receiver {F G Net} _.
Arguments st_net {F G Net} _.

(** ** Messages that can be sent *)

(** Messages of the same Go type; a nil [*Block] has no counterpart that is
    read, because an empty message is read in its place. *)
Definition same_message (m0 m : Transfer.Message) : Prop :=
  MessageTypeOf m0 = MessageTypeOf m ∧ m ≠ BlockMsg None ∧ m ≠ OtherMessage.

(** The fields have the range of their Protobuf types; [utf8] are the strings
    that Protobuf takes. *)
Definition transfer_ok (utf8 : string → Prop) (m : Transfer.Message) : Prop :=
  match m with
  | Header meta total bs =>
      0 ≤ total < 2 ^ 64 ∧ 0 ≤ bs < 2 ^ 64 ∧ match meta with Some x => utf8 (Filename x) | None => True end
  | BlockMsg (Some b) => 0 ≤ Index b < 2 ^ 64
  | BlockReceived i | RedoBlock i => 0 ≤ i < 2 ^ 64
  | Abort r => 0 ≤ r < 2 ^ 31
  | OtherMessage => False
  | _ => True
  end.

Definition name_bytes (meta : option Metadata) : bytes :=
  match meta with Some x => String.list_byte_of_string (Filename x) | None => [] end.

(** The bytes that a message carries. *)
Definition transfer_carried (m : Transfer.Message) : Z :=
  match m with
  | Header meta _ _ => zlen (name_bytes meta)
  | BlockMsg (Some b) => zlen (Block.Data b) + zlen (Checksum b)
  | DataSent c => zlen c
  | _ => 0
  end.

(** A message whose encoding is not too large can be sent over a channel. *)
Section Sendable.
Context `{!ProtoMessage Channel.Message} `{!ProtoRoundTrip Channel.Message (λ _ _, True)} `{!ProtoDataSize}.
Context `{!ProtoMessage Transfer.Message} `{!ProtoRoundTrip Transfer.Message same_message}.
Context {utf8 : string → Prop} `{!ProtoSize Transfer.Message (transfer_ok utf8) transfer_carried}.

Lemma NewMessage_type m t :
  MessageTypeOf m = Ret t → m ≠ BlockMsg None →
  0 ≤ t < 2 ^ 31 ∧ ∃ m0, NewMessage TransferProtocol t = (Some m0, None) ∧ same_message m0 m.
Proof.
  intros Ht Hm. destruct m; try discriminate; injection Ht as <-;
    (split; [split; by vm_compute|]); eexists; (split; [reflexivity|]); by split_and!.
Qed.

Lemma message_sendable c m :
  0 ≤ c < 2 ^ 64 → transfer_ok utf8 m → m ≠ BlockMsg None → transfer_carried m ≤ 65454 →
  sendable c TransferProtocol m.
Proof.
  intros Hc Hok Hnil Hsize.
  destruct (marshal_bound (wf := transfer_ok utf8) (carried := transfer_carried) m Hok) as (p & Hp & Hlen); [lia|].
  assert (∃ t, MessageTypeOf m = Ret t) as [t Ht] by (destruct m; try done; by eexists).
  destruct (NewMessage_type m t Ht Hnil) as (Hr & m0 & Hn & Hs).
  destruct (marshal_size c t p Hc Hr ltac:(lia)) as (b & Hb & Hbl). exists b. split_and!.
  - unfold MarshalMessage, WrapMessage. rewrite Hp, ComputePayloadMaxSize_eq, Z.gtb_ltb. zcond.
    simpl. unfold TransferRawTypeOf, TransferTypeOf. rewrite Ht. simpl. by rewrite Hb.
  - exists t, p. split.
    + unfold readHandler, UnmarshalMessage.
      by rewrite (unmarshal_marshal (same_type := λ _ _, True) _ (mkMessage None) b Hb I).
    + exists m0. split; [done|]. by apply (unmarshal_marshal m m0 p Hp).
  - unfold Secure.sendable. rewrite Hbl. apply data_size_bound; [done|done|]. pose proof (zlen_nonneg p). lia.
Qed.

(** The messages of a transfer: the block size and the name must leave room for
    the other fields. *)
Lemma sender_msg_sendable c d bs meta i :
  0 ≤ c < 2 ^ 64 → dims (zlen d) bs → bs ≤ 65422 → utf8 (Filename meta) →
  zlen (name_bytes (Some meta)) ≤ 65454 → 0 ≤ i →
  sendable c TransferProtocol (sender_msg d bs meta i).
Proof.
  intros Hc Hd Hbs Hu Hname Hi. pose proof Hd as [Ht Hb]. rewrite max_alloc_eq in *.
  unfold sender_msg. destruct (Z.eqb_spec i 0); [|destruct (Z.leb_spec i (nblocks (zlen d) bs))];
    apply message_sendable; try done; simpl; try lia.
  - split_and!; [lia..|done].
  - pose proof (nblocks_bound _ _ Hd). lia.
  - rewrite zlen_block_data by (done || lia). unfold ComputeChecksum. rewrite zlen_sha256.
    unfold block_len. lia.
Qed.

Lemma receiver_msg_sendable c d bs i :
  0 ≤ c < 2 ^ 64 → dims (zlen d) bs → 0 ≤ i → sendable c TransferProtocol (receiver_msg d bs i).
Proof.
  intros Hc Hd Hi. pose proof Hd as [Ht Hb]. rewrite max_alloc_eq in *. pose proof (nblocks_bound _ _ Hd).
  unfold receiver_msg. destruct (Z.eqb_spec i 0); [|destruct (Z.leb_spec i (nblocks (zlen d) bs))];
    apply message_sendable; try done; simpl; lia.
Qed.
End Sendable.

(** ** The stack behaves as the system over queues *)
Section Correctness.
Context {F G Net T E : Type} `{HF : FileReader F} `{HG : FileWriter G}.
Context (left_rw right_rw : ReadWriter Net Transfer.Message) (move : T → Net → option Net).
Context (left_end right_end : E → Net → option Net).
Context (d : bytes) (bs : Z) (meta : Metadata) (Hd : dims (zlen d) bs) (Hne : 0 < zlen d).
Context (wf : Metadata → Z → outcome (G + error)) (g0 : G) (c0 : bytes).
Context (Hwf : wf meta (zlen d) = Ret (inl g0)) (Hg0 : fw_holds g0 c0) (Hc0 : zlen c0 = zlen d).
Abbreviation N := (nblocks (zlen d) bs).
Abbreviation sclient := (client_of Sender.state_cell (@Sender.protocolDefinition F _)).
Abbreviation rclient := (client_of Receiver.state_cell (Receiver.protocolDefinition wf)).
Abbreviation step := (stack_steps left_rw right_rw move left_end right_end sclient rclient).

(** The network carries two queues to both sides, the steps that it takes itself
    bring messages closer to their readers, and it is made for all messages of a
    transfer.  A side that has nothing to read any more may end it for both. *)
Definition moves (net : Net) : Prop := ∃ t net', move t net = Some net'.

Context (limit : Z) (sendable : Transfer.Message → Prop).
Context (rel : list Transfer.Message → list Transfer.Message → Z → Z → Net → Prop).
Context (HL : QueueLike (RW := left_rw) limit sendable moves (λ q n e net, rel q.2 q.1 n e net)).
Context (HR : QueueLike (RW := right_rw) limit sendable moves (λ q n e net, rel q.1 q.2 n e net)).
Context (Hmove : ∀ q12 q21 n e net t net', rel q12 q21 n e net → move t net = Some net' → rel q12 q21 (n - 1) e net').
Context (Hnonneg : ∀ q12 q21 n e net, rel q12 q21 n e net → 0 ≤ n).
Context (Hleft : ∀ q12 n e net f net', rel q12 [] n e net → e ≤ limit → left_end f net = Some net' →
  rel q12 [] (n - 1) limit net').
Context (Hright : ∀ q21 n e net f net', rel [] q21 n e net → e ≤ limit → right_end f net = Some net' →
  rel [] q21 (n - 1) limit net').
Context (Hlimit : 8 * N + 18 < limit).
Context (Hsend : ∀ i, 0 ≤ i → sendable (sender_msg d bs meta i)).
Context (Hrecv : ∀ i, 0 ≤ i → sendable (receiver_msg d bs i)).

(** The receiver has written everything. *)
Abbreviation receiver_done l := (Protocol.IsDone Receiver.state_cell rclient (store l) = true).

(** The stack after [n] steps: a state of the system over queues that was
    reached in [k] steps with [e] writes, and [m] steps that the network has still
    to take; a side ends the connection only after all writes. *)
Definition stack_inv (n : Z) (s : stack F G Net) : Prop :=
  ∃ k m e q12 q21,
    TransferSystem.inv d bs meta k (TransferSystem.mkSystem (st_sender s) (st_receiver s) q12 q21) ∧
    rel q12 q21 m e (st_net s) ∧ n + m ≤ 4 * k + 8 ∧ e ≤ limit ∧ (e ≤ k ∨ receiver_done (st_receiver s)).

(** What the loops write can be sent. *)
Lemma inv_writes_sendable k (s : System F G) :
  TransferSystem.inv d bs meta k s →
  writes_sendable sendable Sender.state_cell sclient (sender s) ∧
  writes_sendable sendable Receiver.state_cell rclient (receiver s).
Proof.
  intros (a & b & e & e' & [Hord Hs Hr Hsm Hrm _ _ _]). destruct_ands.
  split; intros [Hin Hcan]%andb_true_iff m w HW.
  - destruct (running_in_loop _ _ _ _ Hsm Hin) as (_ & _ & _ & Hdone).
    erewrite (sender_CanWrite d bs meta Hd Hne) in Hcan by (done || lia). simpl in Hcan.
    destruct (sender_write d bs meta Hd Hne a e _ Hs) as (w' & HW' & _); [lia..|].
    rewrite HW' in HW. simplify_eq. apply Hsend. lia.
  - destruct (running_in_loop _ _ _ _ Hrm Hin) as (_ & _ & _ & Hdone). unfold MustWrite in Hcan.
    erewrite (receiver_CanWrite d bs Hd wf) in Hcan by (done || lia).
    destruct (Z.eqb_spec b e'); [done|]. assert (b = e' + 1) as -> by lia.
    destruct (receiver_write d bs Hd Hne wf e' _ Hr) as (w' & HW' & _); [lia..|].
    rewrite HW' in HW. simplify_eq. apply Hrecv. lia.
Qed.

(** A side that has returned has read everything, and all writes are over. *)
Lemma inv_returned k (s : System F G) :
  TransferSystem.inv d bs meta k s →
  (main (sender s) = Returned None → to_sender s = [] ∧ receiver_done (receiver s)) ∧
  (main (receiver s) = Returned None → to_receiver s = [] ∧ receiver_done (receiver s)).
Proof.
  intros (a & b & e & e' & [Hord Hs Hr Hsm Hrm Hsr Hrs _]). destruct_ands. split; intros Hm.
  - destruct Hsm as [_ [[Em _]|(_ & _ & ->)]]; [congruence|]. assert (e' = N + 2) as -> by lia. split.
    + destruct (reading (sender s)); simpl in Hrs; [by rewrite seqZ_nil in Hrs by lia|lia|lia|done].
    + rewrite (receiver_IsDone d bs Hd wf b (N + 2) _ Hr) by lia. by apply Z.eqb_eq.
  - destruct Hrm as [_ [[Em _]|(_ & _ & ->)]]; [congruence|]. split.
    + destruct (reading (receiver s)); simpl in Hsr; [by rewrite seqZ_nil in Hsr by lia|lia|lia|done].
    + rewrite (receiver_IsDone d bs Hd wf b (N + 2) _ Hr) by lia. by apply Z.eqb_eq.
Qed.

Lemma inv_no_writes k (s : System F G) :
  TransferSystem.inv d bs meta k s → receiver_done (receiver s) →
  writing Sender.state_cell sclient (sender s) = false ∧ writing Receiver.state_cell rclient (receiver s) = false.
Proof.
  intros (a & b & e & e' & [Hord Hs Hr Hsm Hrm Hsr Hrs _]) Hdone. destruct_ands.
  rewrite (receiver_IsDone d bs Hd wf b e' _ Hr) in Hdone by lia. apply Z.eqb_eq in Hdone. subst e'. split.
  - unfold writing. destruct (in_loop _ _ _) eqn:Hin; [|done]. simpl.
    destruct (running_in_loop _ _ _ _ Hsm Hin) as (_ & _ & _ & Hnd).
    rewrite (sender_CanWrite d bs meta Hd Hne a e _ Hs) by lia. replace a with (N + 2) by lia.
    pose proof (nblocks_nonneg _ _ Hd). by zcond.
  - unfold writing, in_loop. rewrite (receiver_IsDone d bs Hd wf b (N + 2) _ Hr), Z.eqb_refl by lia.
    by destruct (main (receiver s)).
Qed.

Lemma receiver_done_step ev l (c : list Transfer.Message * list Transfer.Message) l' c' :
  receiver_done l → loop_step Receiver.state_cell rclient ev (l, c) = Some (l', c') → receiver_done l'.
Proof.
  intros Hdone H. assert (in_loop Receiver.state_cell rclient l = false) as Hin.
  { unfold in_loop. rewrite Hdone. by destruct (main l). }
  destruct ev; cbn [loop_step] in H; rewrite ?Hin in H; simpl in H; try done.
  - destruct (reading l); try done. apply bind_Some in H as ([x c1] & _ & [= <- _]). by destruct x.
  - destruct (reading l); simplify_eq. done.
  - destruct (reading l); try done. destruct (done_closed l); simplify_eq. done.
  - destruct (main l); try done. rewrite Hdone in H. by injection H as <- _.
  - by destruct (reading l).
  - by destruct (errs l).
Qed.

(** While the loops write, the network takes it. *)
Lemma writes_in_time k e (s : System F G) :
  TransferSystem.inv d bs meta k s → (e ≤ k ∨ receiver_done (receiver s)) →
  (writing Sender.state_cell sclient (sender s) = true → e < limit) ∧
  (writing Receiver.state_cell rclient (receiver s) = true → e < limit).
Proof.
  intros Hi He. pose proof (inv_bound d bs meta _ _ Hi) as Hk.
  destruct He as [He|Hdone]; [split; lia|]. destruct (inv_no_writes _ _ Hi Hdone) as [-> ->]. done.
Qed.

Lemma stack_inv_step n s s' : stack_inv n s → step s s' → stack_inv (n + 1) s'.
Proof.
  intros (k & m & e & q12 & q21 & Hi & Hl & Hn & Hlim & He) [ev Hs].
  destruct (writes_in_time _ e _ Hi He) as [Hts Htr]. destruct (inv_writes_sendable _ _ Hi) as [Hws Hwr].
  destruct (inv_returned _ _ Hi) as [Hrs Hrr]. simpl in *.
  pose proof (system_inv d bs meta Hd Hne wf g0 c0 Hwf Hg0 Hc0 k) as Hstep.
  destruct ev as [ev|ev|t|f|f]; cbn [stack_step] in Hs.
  1, 2: apply bind_Some in Hs as ([x y] & H & [= <-]).
  - destruct (loop_step_queues (QueueLike0 := HL)
      Sender.state_cell sclient ev _ _ _ _ (q21, q12) m e Hl Hts Hws H) as (q & m' & e' & Hq & Hl' & Hm & He').
    exists (k + 1), m', e', q.2, q.1. split_and!; [|done|lia|lia|]; [|simpl; destruct He; [left; lia|by right]].
    eapply Hstep; [exact Hi|]. exists (inl ev).
    cbn [TransferSystem.system_step sender receiver to_sender to_receiver]. by rewrite Hq.
  - destruct (loop_step_queues (QueueLike0 := HR)
      Receiver.state_cell rclient ev _ _ _ _ (q12, q21) m e Hl Htr Hwr H) as (q & m' & e' & Hq & Hl' & Hm & He').
    exists (k + 1), m', e', q.1, q.2. split_and!; [|done|lia|lia|].
    + eapply Hstep; [exact Hi|]. exists (inr ev).
      cbn [TransferSystem.system_step sender receiver to_sender to_receiver]. by rewrite Hq.
    + simpl. destruct He; [left; lia|right]. by eapply receiver_done_step.
  - apply bind_Some in Hs as (net & H & [= <-]).
    exists k, (m - 1), e, q12, q21. split_and!; [done|by eapply Hmove|lia|done|done].
  - unfold run_ok in Hs. destruct (main (st_sender s)) as [|[|]| |] eqn:Hm; try discriminate.
    destruct (Hrs eq_refl) as [-> Hdone]. apply bind_Some in Hs as (net & H & [= <-]).
    exists k, (m - 1), limit, q12, []. split_and!; [done|by eapply Hleft|lia|done|by right].
  - unfold run_ok in Hs. destruct (main (st_receiver s)) as [|[|]| |] eqn:Hm; try discriminate.
    destruct (Hrr eq_refl) as [-> Hdone]. apply bind_Some in Hs as (net & H & [= <-]).
    exists k, (m - 1), limit, [], q21. split_and!; [done|by eapply Hright|lia|done|by right].
Qed.

(** A stack that cannot go on is a system that cannot go on, and both sides have
    ended the connection. *)
Lemma stack_stuck n s :
  stack_inv n s → stuck step s →
  main (st_sender s) = Returned None ∧ main (st_receiver s) = Returned None ∧
  (∃ w, Receiver.writer (store (st_receiver s)) = Some w ∧ fw_holds (Writer.writer w) d) ∧
  (∀ f, left_end f (st_net s) = None ∧ right_end f (st_net s) = None).
Proof.
  intros (k & m & e & q12 & q21 & Hi & Hl & Hn & Hlim & He) Hstuck.
  destruct (writes_in_time _ e _ Hi He) as [Hts Htr]. destruct (inv_writes_sendable _ _ Hi) as [Hws Hwr].
  simpl in *. assert (¬ moves (st_net s)) as Hquiet.
  { intros (t & net & Ht). eapply Hstuck. exists (TransportEvent t). cbn [stack_step]. by rewrite Ht. }
  destruct (system_finished d bs meta Hd Hne wf _ _ Hi) as (_ & Hs & Hr & Hw & _).
  - intros s' [[ev|ev] Hev]; cbn [TransferSystem.system_step] in Hev; apply bind_Some in Hev as ([l q] & H & [= <-]).
    + destruct (loop_step_progress (QueueLike0 := HL)
        Sender.state_cell sclient ev _ _ (q21, q12) m e _ Hl Hts Hws H) as [[[l' net] Hx]|]; [|done].
      eapply Hstuck. exists (SenderEvent ev). cbn [stack_step]. by rewrite Hx.
    + destruct (loop_step_progress (QueueLike0 := HR)
        Receiver.state_cell rclient ev _ _ (q12, q21) m e _ Hl Htr Hwr H) as [[[l' net] Hx]|]; [|done].
      eapply Hstuck. exists (ReceiverEvent ev). cbn [stack_step]. by rewrite Hx.
  - simpl in Hs, Hr, Hw. split_and!; [done|done|done|]. intros f. split; apply eq_None_not_Some; intros [net Hf];
      eapply Hstuck; [exists (SenderEnds f)|exists (ReceiverEnds f)]; cbn [stack_step]; unfold run_ok.
    + by rewrite Hs, Hf.
    + by rewrite Hr, Hf.
Qed.

Lemma stack_inv_bound n s : stack_inv n s → n ≤ 4 * (8 * N + 18) + 8.
Proof.
  intros (k & m & e & q12 & q21 & Hi & Hl%Hnonneg & Hn & _ & _).
  pose proof (inv_bound d bs meta _ _ Hi). lia.
Qed.

(** What a transfer over the network comes to; [ended] is the state of the network
    after both sides have ended the connection. *)
Definition transfers (ended : Net → Prop) sc rc (s0 : Sender.Sender F) (r0 : Receiver.Receiver G) (net : Net) : Prop :=
  ∀ n s,
    steps_n (stack_steps left_rw right_rw move left_end right_end sc rc) n (mkStack (Run_start s0) (Run_start r0) net) s →
    Z.of_nat n ≤ 4 * (8 * N + 18) + 8 ∧
    (main (st_sender s) = Running ∨ main (st_sender s) = Returned None) ∧
    (main (st_receiver s) = Running ∨ main (st_receiver s) = Returned None) ∧
    (stuck (stack_steps left_rw right_rw move left_end right_end sc rc) s →
       main (st_sender s) = Returned None ∧ main (st_receiver s) = Returned None ∧
       (∃ w, Receiver.writer (store (st_receiver s)) = Some w ∧ fw_holds (Writer.writer w) d) ∧
       ended (st_net s)).

Lemma stack_transfers ended f net :
  (∀ q12 q21 n e net, rel q12 q21 n e net → (∀ x, left_end x net = None ∧ right_end x net = None) → ended net) →
  fr_holds f d → rel [] [] 8 0 net →
  ∃ sc s0 rc r0,
    Sender.NewSender (Some meta) (Reader.NewBlockReader f (zlen d) bs) = Ret (sc, s0) ∧
    Receiver.NewReceiver wf = Ret (rc, r0) ∧ transfers ended sc rc s0 r0 net.
Proof.
  intros Hended Hf Hnet. destruct (NewSender_at d bs meta Hd f Hf) as (s0 & HS & Hs0).
  destruct (NewReceiver_at d bs wf) as (r0 & HRe & Hr0).
  eexists _, s0, _, r0. split_and!; [exact HS|exact HRe|]. intros n s Hn.
  assert (stack_inv 0 (mkStack (Run_start s0) (Run_start r0) net)) as H0.
  { pose proof (nblocks_nonneg _ _ Hd). exists 0, 8, 0, [], []. split_and!; [by apply inv_start|done|lia..|left; lia]. }
  pose proof (steps_n_count _ _ stack_inv_step _ _ _ Hn 0 H0) as Hi. rewrite Z.add_0_l in Hi.
  pose proof (stack_inv_bound _ _ Hi) as Hb. pose proof (stack_stuck _ _ Hi) as Hfin.
  destruct Hi as (k & m & e & q12 & q21 & Hi & Hrel & _). destruct (inv_main d bs meta _ _ Hi).
  split_and!; [done..|]. intros (? & ? & ? & ?)%Hfin. split_and!; [done..|]. by eapply Hended.
Qed.
End Correctness.

(** ** An open channel *)
Section Established.
Context {Msg : Type} `{!ProtoMessage Channel.Message} `{!ProtoMessage Msg}.
Context (c : Z) (P : Protocol Msg).

(** The channel is registered and open, nothing is queued or on its way to it, and
    the session is open. *)
Record idle (r : nat) (s : session Msg) : Prop := {
  idle_channel : channels s !! c = Some r;
  idle_object : objects s !! r = Some (new_channel (mkChannelHandle P c));
  idle_broker : broker s = Selecting;
  idle_reader : Session.reader s = Session.Reading;
  idle_open : done s = false ∧ closed s = false ∧ closer s = NotClosing
}.

Record established (rl rr : nat) (net : SessionSystem.system Msg) : Prop := {
  es_left : idle rl (left net);
  es_right : idle rr (right net);
  es_to_right : to_right net = [];
  es_to_left : to_left net = []
}.

Lemma idle_half r s peer : idle r s → half c P r [] 4 s peer [].
Proof.
  intros [H1 H2 H3 H4 (H5 & H6 & H7)]. split.
  - exists 0. split; [|unfold remaining; by rewrite H3, H4, H5, H7].
    exists [], None, None, []. split; [|done]. split; [done|done|by left|by left|done].
  - split; rewrite ?H3, ?H6, ?H7; done.
  - by rewrite H4.
  - by rewrite H5.
Qed.

Lemma established_linked limit rl rr net : established rl rr net → linked c P rl rr limit [] [] 8 0 net.
Proof.
  intros [H1 H2 Er El]. exists 4, 4. rewrite Er, El. split_and!; [by apply idle_half..|done|].
  destruct H1 as [_ _ _ _ [? _]], H2 as [_ _ _ _ [? _]]. done.
Qed.
End Established.

(** The calls and the steps of both sessions that open the first channel: the
    right side waits for it, the left side opens it, the right side accepts and
    both register it. *)
Definition open_channel {Msg} (P : Protocol Msg) : list (@SessionSystem.system_event Msg) :=
  [RightStep (StartAccept P); RightStep (StepCall 0 None);
   LeftStep (StartOpen P); LeftStep (StepCall 0 None); LeftStep (StepCall 0 None);
   RightReads; RightStep TakeRead; RightStep (StepCall 0 None); RightStep (StepCall 0 None);
   RightStep (StepCall 0 None);
   LeftReads; LeftStep TakeRead; LeftStep (StepCall 0 None); LeftStep (StepCall 0 None)].

Lemma system_run_cons {Msg} `{!ProtoMessage Channel.Message} `{!ProtoMessage Msg}
    e es (s s1 : SessionSystem.system Msg) o (Q : SessionSystem.system Msg → Prop) :
  SessionSystem.system_step e s = Some (s1, o) →
  (∃ net os, SessionSystem.system_run es s1 = Some (net, os) ∧ Q net) →
  ∃ net os, SessionSystem.system_run (e :: es) s = Some (net, os) ∧ Q net.
Proof.
  intros Hs (net & os & Hr & HQ). exists net, (o :: os). split; [|done].
  cbn [SessionSystem.system_run]. rewrite Hs. simpl. by rewrite Hr.
Qed.

(** The call of [OpenChannel] or [AcceptChannel] has returned the channel. *)
Definition opened {Msg} (s : session Msg) : Prop := calls s = [CallReturned (inl 0%nat)].

Lemma open_established {Msg} `{!ProtoMessage Channel.Message} `{!ProtoMessage Msg}
    `{!ProtoRoundTrip Channel.Message (λ _ _, True)} (P : Protocol Msg) (bo ba : bytes) :
  Id P = ChannelMessageTypeOpen →
  Marshal (mkMessage (Some (Open 1 (Id P)))) = inl bo → Marshal (mkMessage (Some (Accept 1))) = inl ba →
  ∃ net os, SessionSystem.system_run (open_channel P) NewSystem = Some (net, os) ∧ established 1 P 0 0 net ∧
    (sent (left net) = [bo] ∧ sent (right net) = [ba]) ∧ opened (left net) ∧ opened (right net).
Proof.
  intros Hid Ho Ha.
  pose proof (unmarshal_marshal (same_type := λ _ _, True) _ (mkMessage None) bo Ho I) as Hro.
  pose proof (unmarshal_marshal (same_type := λ _ _, True) _ (mkMessage None) ba Ha I) as Hra.
  destruct P as [pid tf rf nm]. simpl in Hid. subst pid. cbn [Id] in *.
  change ChannelMessageTypeOpen with 1 in *. destruct ProtoMessage0 as [marshal unmarshal]. simpl in Ho, Ha, Hro, Hra.
  unfold open_channel.
  do 14 (eapply system_run_cons; [vm_compute; rewrite ?Ho, ?Hro, ?Ha, ?Hra; vm_compute; reflexivity|]).
  eexists _, _. split; [reflexivity|]. split; [split; [split; [..|split_and!]|split; [..|split_and!]|..]|split_and!]; reflexivity.
Qed.

(** ** The wire format of the messages of a transfer *)

Definition meta_fields (meta : option Metadata) : list field :=
  match meta with
  | Some x => [FBytes 1 (opt_bytes 1 (String.list_byte_of_string (Filename x)) ≫= put_field)]
  | None => []
  end.

Definition transfer_fields (m : Transfer.Message) : list field :=
  match m with
  | Header meta total bs => meta_fields meta ++ opt_varint 2 total ++ opt_varint 3 bs
  | BlockMsg (Some b) => opt_varint 1 (Index b) ++ opt_bytes 2 (Block.Data b) ++ opt_bytes 3 (Checksum b)
  | BlockReceived i | RedoBlock i => opt_varint 1 i
  | DataSent c => opt_bytes 1 c
  | Abort r => opt_varint 1 r
  | _ => []
  end.

Definition meta_of (fs : list field) : option Metadata :=
  match fs with
  | FBytes 1 b :: _ =>
      mkMetadata ∘ String.string_of_list_byte ∘ bytes_of 1 <$> get_fields (length b) b
  | _ => None
  end.

(** The fields are read into a message of the type of [m0]. *)
Definition transfer_of (m0 : Transfer.Message) (fs : list field) : Transfer.Message :=
  match m0 with
  | Header _ _ _ => Header (meta_of fs) (varint_of 2 fs) (varint_of 3 fs)
  | BlockMsg _ => BlockMsg (Some (mkBlock (varint_of 1 fs) (bytes_of 2 fs) (bytes_of 3 fs)))
  | BlockReceived _ => BlockReceived (varint_of 1 fs)
  | RedoBlock _ => RedoBlock (varint_of 1 fs)
  | DataSent _ => DataSent (bytes_of 1 fs)
  | Abort _ => Abort (varint_of 1 fs)
  | m => m
  end.

(** Names are ASCII here. *)
Definition ascii_name (x : string) : Prop := Forall (λ b, byte_to_Z b < 128) (String.list_byte_of_string x).

Definition transfer_fits (m : Transfer.Message) : Prop :=
  transfer_ok ascii_name m ∧ transfer_carried m ≤ 2 ^ 20.

#[export] Instance transfer_fits_dec m : Decision (transfer_fits m).
Proof.
  apply and_dec; [|apply _].
  destruct m as [[]| |[]| | | | | |]; simpl; try apply _; unfold ascii_name; apply _.
Defined.

Definition wire_transfer : ProtoMessage Transfer.Message := {|
  Marshal m :=
    if decide (transfer_fits m) then inl (transfer_fields m ≫= put_field)
    else inr (ErrText "string field contains invalid UTF-8");
  Unmarshal b m0 :=
    match get_fields (length b) b with
    | Some fs => inl (transfer_of m0 fs)
    | None => inr (ErrText "cannot parse invalid wire-format data")
    end
|}.

Lemma opt_bytes_small n b : 0 < n < 16 → zlen b ≤ 2 ^ 20 → Forall small_field (opt_bytes n b).
Proof. intros. unfold opt_bytes. case_match; repeat constructor; simpl; lia. Qed.

Lemma opt_varint_small n v : 0 < n < 16 → 0 ≤ v < 2 ^ 64 → Forall small_field (opt_varint n v).
Proof. intros. unfold opt_varint. case_match; repeat constructor; simpl; lia. Qed.

Lemma opt_bytes_carried n b : carried_by_all (opt_bytes n b) = zlen b.
Proof. unfold opt_bytes. case_match; unfold zlen; simpl; unfold zlen; simpl; lia. Qed.

Lemma small_field_ok f : small_field f → field_ok f.
Proof. destruct f; simpl; lia. Qed.

Lemma zlen_opt_varint n v : zlen (opt_varint n v) ≤ 1.
Proof. unfold opt_varint. by case_match. Qed.
Lemma zlen_opt_bytes n b : zlen (opt_bytes n b) ≤ 1.
Proof. unfold opt_bytes. by case_match. Qed.
Lemma opt_varint_carried n v : carried_by_all (opt_varint n v) = 0.
Proof. unfold opt_varint. by case_match. Qed.
Lemma carried_by_app fs fs' : carried_by_all (fs ++ fs') = carried_by_all fs + carried_by_all fs'.
Proof. induction fs as [|f fs IH]; simpl; [done|]. rewrite IH. lia. Qed.

Lemma meta_fields_size meta :
  zlen (name_bytes meta) ≤ 2 ^ 20 →
  Forall field_ok (meta_fields meta) ∧ zlen (meta_fields meta ≫= put_field) ≤ zlen (name_bytes meta) + 18.
Proof.
  destruct meta as [x|]; simpl; [|by split; [constructor|]]. intros Hx.
  pose proof (put_fields_size _ (opt_bytes_small 1 _ ltac:(lia) Hx)) as Hs.
  rewrite opt_bytes_carried in Hs. pose proof (zlen_opt_bytes 1 (String.list_byte_of_string (Filename x))).
  set (inner := opt_bytes 1 _ ≫= put_field) in *. split.
  - repeat constructor; simpl; lia.
  - rewrite app_nil_r. change (zlen (put_field (FBytes 1 inner)) ≤ zlen (String.list_byte_of_string (Filename x)) + 18).
    rewrite bytes_field_size by lia. unfold len_field_size. pose proof (zlen_nonneg inner).
    pose proof (varint_size_mono (zlen inner) (2 ^ 21 - 1) ltac:(lia)) as Hv.
    change (varint_size (2 ^ 21 - 1)) with 3 in Hv. lia.
Qed.

Lemma small_fields_sized fs n :
  Forall small_field fs → 11 * zlen fs + carried_by_all fs ≤ n →
  Forall field_ok fs ∧ zlen (fs ≫= put_field) ≤ n.
Proof.
  intros Hs Hn. split; [by eapply Forall_impl; [exact Hs|apply small_field_ok]|].
  pose proof (put_fields_size _ Hs). lia.
Qed.

Lemma transfer_fields_sized m :
  transfer_fits m →
  Forall field_ok (transfer_fields m) ∧ zlen (transfer_fields m ≫= put_field) ≤ transfer_carried m + 40.
Proof.
  intros [Hok Hc]. destruct m as [meta total bs| |[b|]|i|i|sum| |r|]; simpl in *;
    try (by split; [constructor|]); destruct_and?.
  - destruct (meta_fields_size meta Hc) as [Hm Hs].
    destruct (small_fields_sized (opt_varint 2 total ++ opt_varint 3 bs) 22) as [Hf Hs'].
    { apply Forall_app; split; apply opt_varint_small; lia. }
    { rewrite zlen_app, carried_by_app, !opt_varint_carried.
      pose proof (zlen_opt_varint 2 total). pose proof (zlen_opt_varint 3 bs). lia. }
    split; [by apply Forall_app|]. rewrite bind_app, zlen_app. lia.
  - pose proof (zlen_nonneg (Block.Data b)). pose proof (zlen_nonneg (Checksum b)). apply small_fields_sized.
    + repeat (apply Forall_app; split); [apply opt_varint_small|apply opt_bytes_small..]; lia.
    + rewrite !zlen_app, !carried_by_app, opt_varint_carried, !opt_bytes_carried.
      pose proof (zlen_opt_varint 1 (Index b)). pose proof (zlen_opt_bytes 2 (Block.Data b)).
      pose proof (zlen_opt_bytes 3 (Checksum b)). lia.
  - apply small_fields_sized; [apply opt_varint_small; lia|].
    rewrite opt_varint_carried. pose proof (zlen_opt_varint 1 i). lia.
  - apply small_fields_sized; [apply opt_varint_small; lia|].
    rewrite opt_varint_carried. pose proof (zlen_opt_varint 1 i). lia.
  - apply small_fields_sized; [apply opt_bytes_small; lia|].
    rewrite opt_bytes_carried. pose proof (zlen_opt_bytes 1 sum). lia.
  - apply small_fields_sized; [apply opt_varint_small; lia|].
    rewrite opt_varint_carried. pose proof (zlen_opt_varint 1 r). lia.
Qed.

Lemma wire_transfer_size : @ProtoSize Transfer.Message wire_transfer (transfer_ok ascii_name) transfer_carried.
Proof.
  intros m Hok Hc. exists (transfer_fields m ≫= put_field). unfold Marshal, wire_transfer.
  rewrite decide_True by done. split; [done|]. by apply transfer_fields_sized.
Qed.

Lemma bytes_of_opt n b : bytes_of n (opt_bytes n b) = b.
Proof. unfold opt_bytes. case_match; [done|]. unfold bytes_of. simpl. by rewrite Z.eqb_refl. Qed.

Lemma transfer_of_fields m0 m :
  transfer_fits m → same_message m0 m → transfer_of m0 (transfer_fields m) = m.
Proof.
  intros [Hok Hc] (Ht & Hb & Ho). destruct m as [meta total bs| |[b|]|i|i|sum| |r|]; try done;
    destruct m0; try discriminate; simpl; try (unfold opt_varint, opt_bytes; repeat case_match; zbool; by subst).
  - f_equal.
    + destruct meta as [x|]; simpl; [|unfold opt_varint; by repeat case_match].
      rewrite get_fields_put.
      * destruct x as [x]. simpl. rewrite bytes_of_opt. by rewrite String.string_of_list_byte_of_string.
      * eapply Forall_impl; [by apply opt_bytes_small|apply small_field_ok].
      * apply length_put_fields.
    + destruct meta; simpl; unfold opt_varint; repeat case_match; zbool; by subst.
    + destruct meta; simpl; unfold opt_varint; repeat case_match; zbool; by subst.
  - destruct b. simpl. unfold opt_varint, opt_bytes; repeat case_match; zbool; by subst.
Qed.

Lemma wire_transfer_roundtrip : @ProtoRoundTrip Transfer.Message wire_transfer same_message.
Proof.
  intros m m0 b Hm Hs. unfold Marshal, Unmarshal in *. simpl in *. case_decide as Hf; simplify_eq.
  destruct (transfer_fields_sized m Hf) as [Hok _].
  rewrite get_fields_put by auto using length_put_fields. by rewrite transfer_of_fields.
Qed.

(** ** Properties *)

(** A file transfer over sessions.  Two sessions have opened a channel for the
    transfer protocol; the loop of a sender uses it on the one side, the loop of a
    receiver on the other, and each side closes its session once its loop has
    returned.  The goroutines of the loops, the brokers and the reading goroutines
    of the sessions, the connection and the two calls of [Close] interleave in any
    way.  When the blocks have at most 65422 bytes and the name at most 65454, no
    loop panics or returns an error, every execution ends, after at most
    [4 * (8 * n + 18) + 8] steps for [n] blocks, and then both loops have returned
    without an error, the receiver's file has the contents of the sender's, and
    both calls of [Close] have returned. *)
Theorem transfer_over_sessions {F G} `{HF : FileReader F} `{HG : FileWriter G}
    `{!ProtoMessage Channel.Message} `{!ProtoRoundTrip Channel.Message (λ _ _, True)} `{!ProtoDataSize}
    `{!ProtoMessage Transfer.Message} `{!ProtoRoundTrip Transfer.Message same_message}
    (utf8 : string → Prop) `{!ProtoSize Transfer.Message (transfer_ok utf8) transfer_carried}
    (d : bytes) (bs : Z) (meta : Metadata) (f : F) (g : G) (c0 : bytes)
    (wf : Metadata → Z → outcome (G + error))
    (c : Z) (rl rr : nat) (net : SessionSystem.system Transfer.Message) :
  dims (zlen d) bs → 0 < zlen d → fr_holds f d →
  wf meta (zlen d) = Ret (inl g) → fw_holds g c0 → zlen c0 = zlen d →
  bs ≤ 65422 → utf8 (Filename meta) → zlen (name_bytes (Some meta)) ≤ 65454 →
  0 ≤ c < 2 ^ 64 → established c TransferProtocol rl rr net →
  ∃ sc s0 rc r0,
    Sender.NewSender (Some meta) (Reader.NewBlockReader f (zlen d) bs) = Ret (sc, s0) ∧
    Receiver.NewReceiver wf = Ret (rc, r0) ∧
    transfers (left_conn rl) (right_conn rr) session_move left_finish right_finish d bs
      (λ net, close_returned (left net) ∧ close_returned (right net)) sc rc s0 r0 net.
Proof.
  intros Hd Hne Hf Hwf Hg Hc0 Hbs Hutf Hname Hc Hnet.
  set (limit := 8 * nblocks (zlen d) bs + 19).
  apply (stack_transfers (left_conn rl) (right_conn rr) session_move left_finish right_finish d bs meta Hd Hne
    wf g c0 Hwf Hg Hc0 limit (sendable c TransferProtocol) (linked c TransferProtocol rl rr limit)).
  - apply left_queue.
  - apply right_queue.
  - intros q12 q21 n e x t x'. apply linked_transport.
  - intros q12 q21 n e x. apply linked_nonneg.
  - intros q12 n e x f' x'. apply linked_left_finish.
  - intros q21 n e x f' x'. apply linked_right_finish.
  - lia.
  - intros i Hi. by apply (sender_msg_sendable (utf8 := utf8)).
  - intros i Hi. by apply (receiver_msg_sendable (utf8 := utf8)).
  - intros q12 q21 n e x Hl Hx. split.
    + eapply left_finished; [done|]. intros f'. apply Hx.
    + eapply right_finished; [done|]. intros f'. apply Hx.
  - done.
  - by apply established_linked.
Qed.

(** Two fresh sessions open their first channel and run the transfer of five
    bytes over it; Protobuf is its wire format. *)
Lemma transfer_over_sessions_witness :
  ∃ net os,
    @SessionSystem.system_run Transfer.Message wire_proto wire_transfer (open_channel TransferProtocol) NewSystem =
      Some (net, os) ∧
    ∃ sc s0 rc r0,
      Sender.NewSender (Some demo_meta) (Reader.NewBlockReader (Buffer.NewBuffer demo_data) 5 2) = Ret (sc, s0) ∧
      Receiver.NewReceiver demo_writer = Ret (rc, r0) ∧
      transfers (@left_conn _ wire_proto wire_transfer 0) (@right_conn _ wire_proto wire_transfer 0)
        (@session_move _ wire_proto wire_transfer) (@left_finish _ wire_proto wire_transfer)
        (@right_finish _ wire_proto wire_transfer) demo_data 2
        (λ net, close_returned (left net) ∧ close_returned (right net)) sc rc s0 r0 net.
Proof.
  destruct (@open_established Transfer.Message wire_proto wire_transfer (wire_roundtrip _) TransferProtocol
    (to_fields (mkMessage (Some (Open 1 1))) ≫= put_field) (to_fields (mkMessage (Some (Accept 1))) ≫= put_field))
    as (net & os & Hrun & Hnet & _).
  { reflexivity. }
  { apply wire_marshal. split; split; vm_compute; (discriminate || reflexivity). }
  { apply wire_marshal. split; vm_compute; (discriminate || reflexivity). }
  exists net, os. split; [exact Hrun|].
  apply (@transfer_over_sessions _ _ _ _ _ _ wire_proto (wire_roundtrip _) wire_data_size wire_transfer
    wire_transfer_roundtrip ascii_name wire_transfer_size demo_data 2 demo_meta (Buffer.NewBuffer demo_data)
    (Buffer.NewBuffer (replicate 5 Byte.x00)) (replicate 5 Byte.x00) demo_writer 1 0 0 net).
  - apply (bool_decide_unpack _). vm_compute. exact I.
  - vm_compute. reflexivity.
  - apply Buffer.NewBuffer_holds. vm_compute. discriminate.
  - reflexivity.
  - apply Buffer.NewBuffer_holds. vm_compute. discriminate.
  - reflexivity.
  - vm_compute. discriminate.
  - apply (bool_decide_unpack _). vm_compute. exact I.
  - vm_compute. discriminate.
  - split; vm_compute; [discriminate|reflexivity].
  - exact Hnet.
Defined.
