(* ===== verification/SecureTransfer.v ===== *)
(** * SecureTransfer: a transfer over sessions over an encrypted connection

    The whole stack below a file transfer: the loops of the sender and of the
    receiver ([Loop], [Transfer]) use a channel of two sessions ([Session]) that
    use the two ends of an encrypted connection ([Secure], [SecureSession]),
    whose bytes arrive in segments. *)

From S2P Require Import Prelude GoSem Packet Files Block BlockProps.
From S2P Require Import Automaton Protocol Secure Channel Proto Session SessionSystem SecureSession.
From S2P Require Import Transfer TransferProps Loop SessionChannel TransferSystem TransferSession.

Local Open Scope Z_scope.

(** ** A channel over the encrypted connection *)
Section Connection.
Context {Msg K : Type} `{!ProtoMessage Channel.Message} `{!ProtoMessage Msg} `{!CipherState K}.

Definition secure_left_conn : nat → ReadWriter (secure_system Msg K) Msg :=
  channel_conn (λ e net, call_result left_observation (secure_step (SecureLeft e) net)).
Definition secure_right_conn : nat → ReadWriter (secure_system Msg K) Msg :=
  channel_conn (λ e net, call_result right_observation (secure_step (SecureRight e) net)).

(** The steps that move messages and by which the goroutines of the sessions
    return; a session that reads does so from the given segments. *)
Definition secure_transport (t : transport * list bytes) (net : secure_system Msg K) : option (secure_event Msg) :=
  let l := sess (s_left net) in
  let r := sess (s_right net) in
  match t.1 with
  | LeftReceives => Some (SecureLeftReads t.2 "")
  | LeftTakes => Some (SecureLeft TakeRead)
  | LeftDelivers => Some (SecureLeft Deliver)
  | LeftEnds => SecureLeft <$> ends l r (bool_decide (out (s_right net) = []))
  | LeftExits => Some (SecureLeft ExitBroker)
  | RightReceives => Some (SecureRightReads t.2 "")
  | RightTakes => Some (SecureRight TakeRead)
  | RightDelivers => Some (SecureRight Deliver)
  | RightEnds => SecureRight <$> ends r l (bool_decide (out (s_left net) = []))
  | RightExits => Some (SecureRight ExitBroker)
  end.

Definition secure_move (t : transport * list bytes) (net : secure_system Msg K) : option (secure_system Msg K) :=
  e ← secure_transport t net; fst <$> secure_step e net.

(** [session.Close] of one side. *)
Definition secure_left_finish (f : finish) (net : secure_system Msg K) : option (secure_system Msg K) :=
  fst <$> secure_step (SecureLeft (finish_event f)) net.
Definition secure_right_finish (f : finish) (net : secure_system Msg K) : option (secure_system Msg K) :=
  fst <$> secure_step (SecureRight (finish_event f)) net.
End Connection.

(** ** It behaves as two queues *)
Section Queues.
Context {Msg K : Type} `{!ProtoMessage Channel.Message} `{!ProtoMessage Msg} `{NoiseCipher K}.
Context (c : Z) (P : Protocol Msg) (rl rr : nat) (limit : Z).
Implicit Types (net : secure_system Msg K) (sys : SessionSystem.system Msg).

(** The connection stands for two sessions over queues that carry the messages;
    it is made for [limit] messages, of which [e] were written. *)
Definition secure_rel (q12 q21 : list Msg) (n e : Z) net : Prop :=
  ∃ sys, secured (Z.to_nat (limit - e)) net sys ∧ linked c P rl rr limit q12 q21 n e sys.

Abbreviation moving := (λ net, ∃ t net', secure_move t net = Some net').

(** A side that has closed its connection has nothing to read. *)
Definition reads_open sys : Prop :=
  (closed (left sys) = true → to_left sys = []) ∧ (closed (right sys) = true → to_right sys = []).

Lemma half_reads_open r q n own peer wire : half c P r q n own peer wire → closed own = true → wire = [].
Proof.
  intros [(n0 & (Q & B & R & W & [_ _ _ _ H5] & Hq & _) & _) H2 _ H4] Hc.
  rewrite (H4 (co_closed _ H2 Hc)) in Hq. destruct Q, B, R, W; try done. by apply Forall2_nil_inv_r in H5.
Qed.

Lemma linked_reads_open q12 q21 n e sys : linked c P rl rr limit q12 q21 n e sys → reads_open sys.
Proof. intros (n1 & n2 & H1 & H2 & _). split; by eapply half_reads_open. Qed.

Lemma linked_open q12 q21 n e sys :
  linked c P rl rr limit q12 q21 n e sys → e < limit → closed (left sys) = false ∧ closed (right sys) = false.
Proof.
  intros (n1 & n2 & [_ C1 _ _] & [_ C2 _ _] & _ & Hd) He. destruct (Hd He) as [Dl Dr].
  split; apply not_true_is_false; intros Hc.
  - rewrite (co_closed _ C2 Hc) in Dl. done.
  - rewrite (co_closed _ C1 Hc) in Dr. done.
Qed.

(** Steps that write nothing keep the budget and show the same on both levels. *)
Lemma quiet_step_refines k e net net' ob sys :
  secured k net sys → secure_cost e = 0%nat → secure_step e net = Some (net', ob) →
  ∃ sys', SessionSystem.system_step (abstract_event None e) sys = Some (sys', ob) ∧ secured k net' sys'.
Proof.
  intros Hsec Hcost Hs.
  destruct (secure_step_refines k e net net' ob sys) as (err & Hst & Hsec'); [by rewrite Hcost|done|].
  assert (abstract_event err e = abstract_event None e) as E.
  { destruct e as [e|e| |]; try done; by destruct e. }
  rewrite E in Hst. eauto.
Qed.

Lemma output_refl (s : session Msg) : output s s = [].
Proof. by apply output_same. Qed.

Lemma quiet_event (e : @session_event Msg) : cost e = 0%nat → with_result None e = e ∧ writes e = false.
Proof. destruct e; try done; destruct err; done. Qed.

Lemma quiet_side e (x : side Msg K) s o :
  cost e = 0%nat → session_step e (sess x) = Some (s, o) → ∃ x', side_step e x = Some (x', o).
Proof.
  intros [E Hw]%quiet_event Hs. pose proof (output_length _ _ _ _ Hs) as Hlen. rewrite Hw in Hlen.
  apply Nat.le_0_r, nil_length_inv in Hlen. unfold side_step. rewrite E, Hs. simpl. rewrite Hlen. by eexists.
Qed.

Lemma quiet_step_complete k e e' net sys sys' ob :
  secured k net sys → reads_open sys → secure_cost e' = 0%nat → implements net e e' →
  match e' with SecureLeft e' | SecureRight e' => allowed net e' = true | _ => True end →
  SessionSystem.system_step e sys = Some (sys', ob) → ∃ net', secure_step e' net = Some (net', ob).
Proof.
  intros [Hl Hr H1 H2] [Ol Or] Hcost Hi Ha Hs.
  destruct e as [e|e| |], e' as [e'|e'|segs text|segs text]; try done; cbn [implements secure_cost] in *;
    cbn [SessionSystem.system_step secure_step] in *.
  - subst e'. rewrite Ha. destruct (is_read e); [done|]. apply bind_Some in Hs as ([s o] & Hs & [= <- <-]).
    rewrite Hl in Hs. destruct (quiet_side _ _ _ _ Hcost Hs) as [x' Hx]. rewrite Hx. by eexists.
  - subst e'. rewrite Ha. destruct (is_read e); [done|]. apply bind_Some in Hs as ([s o] & Hs & [= <- <-]).
    rewrite Hr in Hs. destruct (quiet_side _ _ _ _ Hcost Hs) as [x' Hx]. rewrite Hx. by eexists.
  - destruct (to_left sys) as [|b rest]; [discriminate|]. apply bind_Some in Hs as ([s o] & Hs & [= <- <-]).
    rewrite Hl in Hs, Ol. assert (closed (sess (s_left net)) = false) as Hc
      by (apply not_true_is_false; intros E; by specialize (Ol E)).
    destruct (side_read_ok _ _ _ segs text _ _ _ _ _ _ H2 Hc Hi Hs) as (x' & d' & Hx & _). rewrite Hx. by eexists.
  - destruct (to_right sys) as [|b rest]; [discriminate|]. apply bind_Some in Hs as ([s o] & Hs & [= <- <-]).
    rewrite Hr in Hs, Or. assert (closed (sess (s_right net)) = false) as Hc
      by (apply not_true_is_false; intros E; by specialize (Or E)).
    destruct (side_read_ok _ _ _ segs text _ _ _ _ _ _ H1 Hc Hi Hs) as (x' & d' & Hx & _). rewrite Hx. by eexists.
Qed.

(** *** The steps of the connection on both levels *)

Lemma carries_empty n ended (kw kr : K) d ps : carries n ended kw kr d ps → d = [] ↔ ps = [].
Proof.
  intros Hc. split; [|intros ->].
  - intros ->. destruct ps as [|p ps]; [done|]. by destruct (carries_arrives _ _ _ _ _ _ _ Hc) as (Hne & _); inversion Hne.
  - destruct Hc as (cts & kr' & -> & Hd & _). by inversion Hd.
Qed.

Lemma ends_allowed own peer nothing e net :
  ends own peer nothing = Some e → closed own || closed peer = closed (sess (s_left net)) || closed (sess (s_right net)) →
  allowed net e = true ∧ with_result None e = e ∧ cost e = 0%nat.
Proof.
  unfold ends. intros He E. destruct (closed own); simpl in *; [injection He as <-|].
  - unfold allowed. by rewrite <- E.
  - destruct (closed peer); [|done]. destruct nothing; [|done]. injection He as <-. unfold allowed. by rewrite <- E.
Qed.

Lemma transport_agree k t segs net sys :
  secured k net sys → (abstract_event None <$> secure_transport (t, segs) net) = transport_event t sys.
Proof.
  intros [Hl Hr H1 H2]. apply carries_empty in H1, H2.
  assert (∀ own peer nothing (f : @session_event Msg → secure_event Msg) (g : @session_event Msg → @system_event Msg),
    (∀ e, abstract_event None (f e) = g (with_result None e)) →
    (abstract_event None <$> (f <$> ends own peer nothing)) = (g <$> ends own peer nothing)) as Hends.
  { intros own peer nothing f g Hfg. unfold ends. destruct (closed own); simpl; [by rewrite Hfg|].
    destruct (closed peer && nothing); simpl; [by rewrite Hfg|done]. }
  destruct t; try done; cbn [secure_transport transport_event fst]; rewrite Hl, Hr.
  - rewrite (bool_decide_ext _ _ H2). by apply Hends.
  - rewrite (bool_decide_ext _ _ H1). by apply Hends.
Qed.

Lemma transport_quiet t net e :
  secure_transport t net = Some e →
  secure_cost e = 0%nat ∧ match e with SecureLeft e | SecureRight e => allowed net e = true | _ => True end.
Proof.
  destruct t as [t segs]. intros He. destruct t; simpl in He; try (injection He as <-; done).
  - apply fmap_Some in He as (e' & He & ->). by destruct (ends_allowed _ _ _ _ net He eq_refl) as (? & _ & ?).
  - apply fmap_Some in He as (e' & He & ->).
    destruct (ends_allowed _ _ _ _ net He (orb_comm _ _)) as (? & _ & ?). done.
Qed.

(** The network moves when the sessions over queues do. *)
Lemma secure_moves k net sys : secured k net sys → reads_open sys → transports sys → moving net.
Proof.
  intros Hsec Ho (t & sys' & (e & He & ([s ob] & Hs & ->)%fmap_Some)%bind_Some).
  assert (∃ segs e', secure_transport (t, segs) net = Some e' ∧ implements net e e') as (segs & e' & He' & Hi).
  { destruct (implements_exists _ _ _ _ _ Hsec Hs) as [e' Hi].
    pose proof (transport_agree k t [] net sys Hsec) as Ha. rewrite He in Ha.
    apply fmap_Some in Ha as (e1 & He1 & ->).
    destruct e1 as [e1|e1|s1 x1|s1 x1].
    - exists [], (SecureLeft e1). split; [done|]. simpl. destruct (transport_quiet _ _ _ He1) as [Hc _].
      by destruct (quiet_event _ Hc) as [-> _].
    - exists [], (SecureRight e1). split; [done|]. simpl. destruct (transport_quiet _ _ _ He1) as [Hc _].
      by destruct (quiet_event _ Hc) as [-> _].
    - destruct e' as [| |segs text|]; try done.
      exists segs, (SecureLeftReads segs ""). split; [|done]. destruct t; try done; simpl in He1;
        by apply fmap_Some in He1 as (? & _ & [=]).
    - destruct e' as [| | |segs text]; try done.
      exists segs, (SecureRightReads segs ""). split; [|done]. destruct t; try done; simpl in He1;
        by apply fmap_Some in He1 as (? & _ & [=]). }
  destruct (transport_quiet _ _ _ He') as [Hc Ha].
  destruct (quiet_step_complete k e e' net sys s ob) as [net' Hn]; try done.
  exists (t, segs), net'. unfold secure_move. rewrite He'. simpl. by rewrite Hn.
Qed.

Lemma secure_rel_move q12 q21 n e net t net' :
  secure_rel q12 q21 n e net → secure_move t net = Some net' → secure_rel q12 q21 (n - 1) e net'.
Proof.
  intros (sys & Hsec & Hl) (ev & Hev & ([s ob] & Hs & ->)%fmap_Some)%bind_Some. destruct t as [t segs].
  destruct (transport_quiet _ _ _ Hev) as [Hc _].
  destruct (quiet_step_refines _ _ _ _ _ _ Hsec Hc Hs) as (sys' & Hst & Hsec').
  exists sys'. split; [done|]. eapply linked_transport; [exact Hl|]. instantiate (1 := t). unfold session_move.
  rewrite <- (transport_agree _ t segs _ _ Hsec), Hev. simpl. by rewrite Hst.
Qed.

Lemma secure_left_finish_rel q12 n e net f net' :
  secure_rel q12 [] n e net → e ≤ limit → secure_left_finish f net = Some net' → secure_rel q12 [] (n - 1) limit net'.
Proof.
  intros (sys & Hsec & Hl) He ([s ob] & Hs & ->)%fmap_Some.
  destruct (quiet_step_refines _ (SecureLeft (finish_event f)) net s ob sys Hsec) as (sys' & Hst & Hsec');
    [by destruct f|done|].
  exists sys'. split; [eapply secured_le; [exact Hsec'|lia]|]. eapply linked_left_finish; [exact Hl|done|].
  unfold left_finish. replace (finish_event f) with (with_result None (@finish_event Msg f)) by (by destruct f).
  cbn [abstract_event] in Hst. by rewrite Hst.
Qed.

Lemma secure_right_finish_rel q21 n e net f net' :
  secure_rel [] q21 n e net → e ≤ limit → secure_right_finish f net = Some net' → secure_rel [] q21 (n - 1) limit net'.
Proof.
  intros (sys & Hsec & Hl) He ([s ob] & Hs & ->)%fmap_Some.
  destruct (quiet_step_refines _ (SecureRight (finish_event f)) net s ob sys Hsec) as (sys' & Hst & Hsec');
    [by destruct f|done|].
  exists sys'. split; [eapply secured_le; [exact Hsec'|lia]|]. eapply linked_right_finish; [exact Hl|done|].
  unfold right_finish. replace (finish_event f) with (with_result None (@finish_event Msg f)) by (by destruct f).
  cbn [abstract_event] in Hst. by rewrite Hst.
Qed.

(** *** One side: [se e] and [ae e] are the steps of its session, over the
    encrypted connection and over queues, [obs] is what they show. *)
Section OneSide.
Context (se : @session_event Msg → secure_event Msg) (ae : @session_event Msg → @system_event Msg).
Context (obs : @observation Msg + @observation Msg → option (@observation Msg)) (r : nat).
Context (lk : list Msg * list Msg → Z → Z → SessionSystem.system Msg → Prop).
Context (Hae : ∀ e, abstract_event None (se e) = ae (with_result None e)).
Context (Himp : ∀ net e, implements net (ae e) (se e)).
Context (Hcost : ∀ e, secure_cost (se e) = cost e) (Hwork : ∀ e, system_working (ae e) = working e).
Context (Hse : ∀ net e, allowed net e = true →
  match se e with SecureLeft e' | SecureRight e' => allowed net e' = true | _ => True end).

Abbreviation sys_step := (λ e sys, call_result obs (SessionSystem.system_step (ae e) sys)).
Abbreviation net_step := (λ e net, call_result obs (secure_step (se e) net)).

Context (HQ : QueueLike (RW := channel_conn sys_step r) limit (sendable c P) transports lk).
Context (Hreads : ∀ q n e sys, lk q n e sys → reads_open sys).
Context (Hopen : ∀ q n e sys, lk q n e sys → e < limit → closed (left sys) = false ∧ closed (right sys) = false).
Context (Hout : ∀ q n e sys m sys' ob, lk q n e sys → sendable c P m →
  SessionSystem.system_step (ae (WriteChannel r m None)) sys = Some (sys', ob) →
  Forall Secure.sendable (output (left sys) (left sys')) ∧ Forall Secure.sendable (output (right sys) (right sys'))).

(** The same sessions on both levels, after the same observation. *)
Definition agree {A} (k : nat) (a : A * secure_system Msg K) (b : A * SessionSystem.system Msg) : Prop :=
  a.1 = b.1 ∧ secured k a.2 b.2.

Lemma call_result_Some {N} (x : option (N * (@observation Msg + @observation Msg))) o (s : N) :
  call_result obs x = Some (o, s) ↔ ∃ ob, x = Some (s, ob) ∧ obs ob = Some o.
Proof.
  unfold call_result. destruct x as [[s' ob]|]; simpl; [|split; [done|by intros (? & ? & _)]].
  split; [intros (o' & Ho & [= -> ->])%bind_Some; eauto|]. intros (ob' & [= -> ->] & ->). done.
Qed.

Lemma quiet_agree k e net sys :
  secured k net sys → reads_open sys → working e = true → cost e = 0%nat →
  option_Forall2 (agree k) (net_step e net) (sys_step e sys).
Proof.
  intros Hsec Ho He Hc. cbv beta.
  assert (abstract_event None (se e) = ae e) as E by (by rewrite Hae, working_with_result).
  destruct (call_result obs (secure_step (se e) net)) as [[o net']|] eqn:Hn.
  - apply call_result_Some in Hn as (ob & Hn & Hob).
    destruct (quiet_step_refines k (se e) net net' ob sys) as (sys' & Hs & Hsec'); [done|by rewrite Hcost|done|].
    rewrite E in Hs. rewrite (proj2 (call_result_Some _ o sys')); [|eauto]. by constructor.
  - destruct (call_result obs (SessionSystem.system_step (ae e) sys)) as [[o sys']|] eqn:Hs; [|constructor].
    apply call_result_Some in Hs as (ob & Hs & Hob).
    destruct (quiet_step_complete k (ae e) (se e) net sys sys' ob) as [net' Hn'];
      [done|done|by rewrite Hcost|done|by apply Hse, working_allowed|done|].
    rewrite (proj2 (call_result_Some _ o net')) in Hn; [done|eauto].
Qed.

(** [channel.Read] gives the same. *)
Lemma read_agree k net sys :
  secured k net sys → reads_open sys →
  option_Forall2 (agree k) (conn_Read (ReadWriter := channel_conn net_step r) net)
    (conn_Read (ReadWriter := channel_conn sys_step r) sys).
Proof.
  intros Hsec Ho. cbn [conn_Read channel_conn].
  pose proof (quiet_agree k (ReadChannel r) net sys Hsec Ho eq_refl eq_refl) as H1.
  pose proof (quiet_agree k (ReadClosedChannel r) net sys Hsec Ho eq_refl eq_refl) as H2.
  inversion H1 as [[o1 a1] [o1' b1] [E1 R1]|]; inversion H2 as [[o2 a2] [o2' b2] [E2 R2]|]; simpl in *; subst;
    repeat case_match; try constructor; simplify_eq; by split.
Qed.

Lemma side_queue :
  QueueLike (RW := channel_conn net_step r) limit (sendable c P) moving
    (λ q n e net, ∃ sys, secured (Z.to_nat (limit - e)) net sys ∧ lk q n e sys).
Proof.
  split.
  - intros q n e net m (sys & Hsec & Hl) He Hm. destruct (Hopen _ _ _ _ Hl He) as [Hcl Hcr].
    destruct (ql_write (QueueLike := HQ) q n e sys m Hl He Hm) as (sys' & HW & Hl').
    cbn [conn_Write channel_conn] in HW |- *.
    destruct (call_result obs (SessionSystem.system_step _ sys)) as [[o s1]|] eqn:Hs; [|discriminate].
    destruct o as [| |id m'| |]; simplify_eq. apply call_result_Some in Hs as (ob & Hs & Ho).
    destruct (Hout q n e sys m sys' ob Hl Hm Hs) as [Fl Fr].
    destruct (secure_step_complete (Z.to_nat (limit - (e + 1))) (ae (WriteChannel r m None))
      (se (WriteChannel r m None)) net sys sys' ob) as (net' & Hn & Hsec'); [|done|done|by rewrite Hwork|done..|].
    { rewrite Hcost. eapply secured_le; [exact Hsec|]. change (cost _) with 1%nat. lia. }
    exists net'. rewrite (proj2 (call_result_Some _ (Written id m') net')); [|eauto]. split; [done|]. by exists sys'.
  - intros q n e net x net' (sys & Hsec & Hl) Hr.
    pose proof (read_agree _ _ _ Hsec (Hreads _ _ _ _ Hl)) as Ha. rewrite Hr in Ha.
    inversion Ha as [a [x' sys'] (E & Hsec') Ex Es|]; subst. simpl in *. subst x'.
    destruct (ql_read (QueueLike := HQ) q n e sys x sys' Hl) as (m & q' & -> & Hq & Hl'); [done|].
    exists m, q'. split_and!; [done|done|]. by exists sys'.
  - intros q n e net m q' (sys & Hsec & Hl) Hq.
    destruct (ql_arrives (QueueLike := HQ) q n e sys m q' Hl Hq) as [[x Hx]|Hm]; [left|right].
    + pose proof (read_agree _ _ _ Hsec (Hreads _ _ _ _ Hl)) as Ha. rewrite Hx in Ha. inversion Ha; subst. by eexists.
    + eapply secure_moves; [exact Hsec|by eapply Hreads|done].
Qed.
End OneSide.

Lemma write_fits r q n s wire m s' o :
  flow c P r q n s wire → sendable c P m → session_step (WriteChannel r m None) s = Some (s', o) →
  Forall Secure.sendable (output s s').
Proof.
  intros Hf Hm Hs. destruct (flow_write c P _ _ _ _ _ m Hf Hm) as (b & _ & Hb & Hw). rewrite Hw in Hs.
  injection Hs as <- <-. rewrite output_send. by constructor.
Qed.

#[export] Instance secure_left_queue :
  QueueLike (RW := secure_left_conn rl) limit (sendable c P) moving (λ q n e net, secure_rel q.2 q.1 n e net).
Proof.
  apply (side_queue SecureLeft LeftStep left_observation rl (λ q n e sys, linked c P rl rr limit q.2 q.1 n e sys));
    try done; [apply left_queue|by intros; eapply linked_reads_open|by intros; eapply linked_open|].
  intros q n e sys m sys' ob (n1 & n2 & _ & [(n0 & Hf & _) _ _ _] & _) Hm Hs.
  cbn [SessionSystem.system_step is_read] in Hs. apply bind_Some in Hs as ([s o] & Hs & [= <- <-]).
  cbn [left right]. rewrite output_refl. split; [by eapply write_fits|constructor].
Qed.

#[export] Instance secure_right_queue :
  QueueLike (RW := secure_right_conn rr) limit (sendable c P) moving (λ q n e net, secure_rel q.1 q.2 n e net).
Proof.
  apply (side_queue SecureRight RightStep right_observation rr (λ q n e sys, linked c P rl rr limit q.1 q.2 n e sys));
    try done; [apply right_queue|by intros; eapply linked_reads_open|by intros; eapply linked_open|].
  intros q n e sys m sys' ob (n1 & n2 & [(n0 & Hf & _) _ _ _] & _) Hm Hs.
  cbn [SessionSystem.system_step is_read] in Hs. apply bind_Some in Hs as ([s o] & Hs & [= <- <-]).
  cbn [left right]. rewrite output_refl. split; [constructor|by eapply write_fits].
Qed.

(** When both calls of [Close] are over. *)
Definition secure_closed net : Prop :=
  close_returned (sess (s_left net)) ∧ close_returned (sess (s_right net)).

Lemma finish_complete k f net sys :
  secured k net sys → reads_open sys →
  (secure_left_finish f net = None → left_finish f sys = None) ∧
  (secure_right_finish f net = None → right_finish f sys = None).
Proof.
  intros Hsec Ho. unfold secure_left_finish, left_finish, secure_right_finish, right_finish.
  split; intros Hn; apply fmap_None in Hn; apply fmap_None, eq_None_not_Some; intros [[s ob] Hs].
  - destruct (quiet_step_complete k (LeftStep (finish_event f)) (SecureLeft (finish_event f)) net sys s ob Hsec Ho)
      as [net' Hn']; [by destruct f|done|by destruct f|done|congruence].
  - destruct (quiet_step_complete k (RightStep (finish_event f)) (SecureRight (finish_event f)) net sys s ob Hsec Ho)
      as [net' Hn']; [by destruct f|done|by destruct f|done|congruence].
Qed.

Lemma secure_rel_finished q12 q21 n e net :
  secure_rel q12 q21 n e net → (∀ f, secure_left_finish f net = None ∧ secure_right_finish f net = None) →
  secure_closed net.
Proof.
  intros (sys & Hsec & Hl) Hf. pose proof (linked_reads_open _ _ _ _ _ Hl) as Ho.
  pose proof Hsec as [El Er _ _]. unfold secure_closed. rewrite <- El, <- Er. split.
  - eapply left_finished; [exact Hl|]. intros f. eapply finish_complete; [done|done|apply Hf].
  - eapply right_finished; [exact Hl|]. intros f. eapply finish_complete; [done|done|apply Hf].
Qed.
End Queues.

(** ** An open channel *)
Section Established.
Context {Msg K : Type} `{!ProtoMessage Channel.Message} `{!ProtoMessage Msg} `{NoiseCipher K}.
Context (c : Z) (P : Protocol Msg).

(** Cipher states that can exchange [n] messages, or more. *)
Definition synced (n : nat) (kw kr : K) : Prop := ∃ n', (n ≤ n')%nat ∧ in_sync n' kw kr.

(** The channel is registered and open on both sides, the connection is open and
    empty, and the cipher states of the two ends belong together. *)
Record secure_established (rl rr : nat) (n : nat) (net : secure_system Msg K) : Prop := {
  se_left : idle c P rl (sess (s_left net));
  se_right : idle c P rr (sess (s_right net));
  se_empty : out (s_left net) = [] ∧ out (s_right net) = [];
  se_to_right : synced n (wcipher (s_left net)) (rcipher (s_right net));
  se_to_left : synced n (wcipher (s_right net)) (rcipher (s_left net))
}.

Lemma synced_carries n kw kr : synced n kw kr ↔ carries n false kw kr [] [].
Proof.
  split.
  - intros (n' & Hn & Hs). eapply carries_le; [by apply carries_nil|done|done].
  - intros (cts & kr' & _ & Hd & n' & kr'' & Hn & Hs & E). inversion Hd; subst. rewrite (E eq_refl) in Hs. by exists n'.
Qed.

Lemma secure_established_rel rl rr n net :
  secure_established rl rr n net → secure_rel c P rl rr (Z.of_nat n) [] [] 8 0 net.
Proof.
  intros [Hl Hr [Ol Or] Sr Sl].
  exists (SessionSystem.mkSystem (sess (s_left net)) (sess (s_right net)) [] []).
  split; [|by apply established_linked]. rewrite Z.sub_0_r, Nat2Z.id.
  pose proof Hl as [_ _ _ _ (_ & Cl & _)]. pose proof Hr as [_ _ _ _ (_ & Cr & _)].
  split; simpl; [done|done|rewrite Cl, Ol|rewrite Cr, Or]; by apply synced_carries.
Qed.

Lemma secured_established rl rr n net sys :
  secured n net sys → established c P rl rr sys → secure_established rl rr n net.
Proof.
  intros [El Er Hr Hl] [I1 I2 Er' El']. rewrite El in *. rewrite Er in *. rewrite Er' in Hr. rewrite El' in Hl.
  pose proof I1 as [_ _ _ _ (_ & Cl & _)]. pose proof I2 as [_ _ _ _ (_ & Cr & _)].
  pose proof (proj2 (carries_empty _ _ _ _ _ _ Hr) eq_refl) as Or.
  pose proof (proj2 (carries_empty _ _ _ _ _ _ Hl) eq_refl) as Ol.
  rewrite Cl, Or in Hr. rewrite Cr, Ol in Hl. split; [done..|by apply synced_carries|by apply synced_carries].
Qed.
End Established.

(** Two fresh sessions on the ends of an encrypted connection open their first
    channel. *)
Lemma secure_open_established {Msg K C D} `{!ProtoMessage Channel.Message} `{!ProtoMessage Msg} `{NoiseCipher K}
    `{!ProtoRoundTrip Channel.Message (λ _ _, True)} (P : Protocol Msg) (bo ba : bytes)
    (na : noiseConn C K) (nb : noiseConn D K) n :
  Id P = ChannelMessageTypeOpen →
  Marshal (mkMessage (Some (Open 1 (Id P)))) = inl bo → Marshal (mkMessage (Some (Accept 1))) = inl ba →
  Secure.sendable bo → Secure.sendable ba →
  in_sync (14 + n) (writeCipher na) (readCipher nb) → in_sync (14 + n) (writeCipher nb) (readCipher na) →
  ∃ es net os, secure_run es (NewSecure na nb) = Some (net, os) ∧
    secure_established 1 P 0 0 n net ∧ opened (sess (s_left net)) ∧ opened (sess (s_right net)).
Proof.
  intros Hid Ho Ha Fo Fa H1 H2.
  destruct (open_established P bo ba Hid Ho Ha) as (sys & os & Hrun & He & [Sl Sr] & Cl & Cr).
  destruct (secure_run_complete (open_channel P) n (NewSecure na nb) NewSystem sys os)
    as (es & net & Hs & Hsec); try done.
  - by apply secured_new.
  - repeat constructor.
  - rewrite Sl. by constructor.
  - rewrite Sr. by constructor.
  - exists es, net, os. split; [done|]. pose proof Hsec as [El Er _ _]. rewrite <- El, <- Er.
    split_and!; [by eapply secured_established|done|done].
Qed.

(** A transfer over an open channel. *)
Section Transfers.
Context {F G K : Type} `{HF : FileReader F} `{HG : FileWriter G} `{NoiseCipher K}.
Context `{!ProtoMessage Channel.Message} `{!ProtoRoundTrip Channel.Message (λ _ _, True)} `{!ProtoDataSize}.
Context `{!ProtoMessage Transfer.Message} `{!ProtoRoundTrip Transfer.Message same_message}.
Context (utf8 : string → Prop) `{!ProtoSize Transfer.Message (transfer_ok utf8) transfer_carried}.
Context (d : bytes) (bs : Z) (meta : Metadata) (f : F) (g : G) (c0 : bytes).
Context (wf : Metadata → Z → outcome (G + error)).

Lemma established_transfers c rl rr n (net : secure_system Transfer.Message K) :
  dims (zlen d) bs → 0 < zlen d → fr_holds f d →
  wf meta (zlen d) = Ret (inl g) → fw_holds g c0 → zlen c0 = zlen d →
  bs ≤ 65422 → utf8 (Filename meta) → zlen (name_bytes (Some meta)) ≤ 65454 →
  0 ≤ c < 2 ^ 64 → 8 * nblocks (zlen d) bs + 18 < Z.of_nat n →
  secure_established c TransferProtocol rl rr n net →
  ∃ sc s0 rc r0,
    Sender.NewSender (Some meta) (Reader.NewBlockReader f (zlen d) bs) = Ret (sc, s0) ∧
    Receiver.NewReceiver wf = Ret (rc, r0) ∧
    transfers (secure_left_conn rl) (secure_right_conn rr) secure_move secure_left_finish secure_right_finish
      d bs secure_closed sc rc s0 r0 net.
Proof.
  intros Hd Hne Hf Hwf Hg Hc0 Hbs Hutf Hname Hc Hn Hnet.
  apply (stack_transfers (secure_left_conn rl) (secure_right_conn rr) secure_move secure_left_finish
    secure_right_finish d bs meta Hd Hne wf g c0 Hwf Hg Hc0
    (Z.of_nat n) (sendable c TransferProtocol) (secure_rel c TransferProtocol rl rr (Z.of_nat n))).
  - apply secure_left_queue.
  - apply secure_right_queue.
  - intros q12 q21 k e x t x'. apply secure_rel_move.
  - intros q12 q21 k e x (sys & _ & Hl). by eapply linked_nonneg.
  - intros q12 k e x t x'. apply secure_left_finish_rel.
  - intros q21 k e x t x'. apply secure_right_finish_rel.
  - done.
  - intros i Hi. by apply (sender_msg_sendable (utf8 := utf8)).
  - intros i Hi. by apply (receiver_msg_sendable (utf8 := utf8)).
  - intros q12 q21 k e x. apply secure_rel_finished.
  - done.
  - by apply secure_established_rel.
Qed.
End Transfers.

(** ** Properties *)

(** C2: a file transfer over the whole stack, from the open channel to the end of
    both sessions.  The loops of a sender and of a receiver use a channel of two
    sessions on the two ends of an encrypted connection, whose cipher states belong
    together for more than [8 * n + 18] messages for [n] blocks; each side closes
    its session once its loop has returned.  All goroutines, the connection and the
    calls of [Close] interleave in any way, and the bytes arrive in any segments
    that keep length fields whole.  When the blocks have at most 65422 bytes and
    the name at most 65454, no loop panics or returns an error, every execution
    ends, after at most [4 * (8 * n + 18) + 8] steps, and then both loops have
    returned without an error, the receiver's file has the contents of the
    sender's, and both calls of [Close] have returned. *)
Theorem transfer_over_secure_sessions {F G K} `{HF : FileReader F} `{HG : FileWriter G} `{NoiseCipher K}
    `{!ProtoMessage Channel.Message} `{!ProtoRoundTrip Channel.Message (λ _ _, True)} `{!ProtoDataSize}
    `{!ProtoMessage Transfer.Message} `{!ProtoRoundTrip Transfer.Message same_message}
    (utf8 : string → Prop) `{!ProtoSize Transfer.Message (transfer_ok utf8) transfer_carried}
    (d : bytes) (bs : Z) (meta : Metadata) (f : F) (g : G) (c0 : bytes)
    (wf : Metadata → Z → outcome (G + error))
    (c : Z) (rl rr n : nat) (net : secure_system Transfer.Message K) :
  dims (zlen d) bs → 0 < zlen d → fr_holds f d →
  wf meta (zlen d) = Ret (inl g) → fw_holds g c0 → zlen c0 = zlen d →
  bs ≤ 65422 → utf8 (Filename meta) → zlen (name_bytes (Some meta)) ≤ 65454 →
  0 ≤ c < 2 ^ 64 → 8 * nblocks (zlen d) bs + 18 < Z.of_nat n →
  secure_established c TransferProtocol rl rr n net →
  ∃ sc s0 rc r0,
    Sender.NewSender (Some meta) (Reader.NewBlockReader f (zlen d) bs) = Ret (sc, s0) ∧
    Receiver.NewReceiver wf = Ret (rc, r0) ∧
    transfers (secure_left_conn rl) (secure_right_conn rr) secure_move secure_left_finish secure_right_finish
      d bs secure_closed sc rc s0 r0 net.
Proof. intros. by apply (established_transfers utf8 d bs meta f g c0 wf c rl rr n). Qed.

(** Two fresh sessions on an encrypted connection open their first channel and
    run the transfer of five bytes over it; Protobuf is its wire format. *)
Lemma transfer_over_secure_sessions_witness :
  ∃ es net os,
    @secure_run Transfer.Message Z wire_proto wire_transfer demo_cipher es (NewSecure demo_conn demo_conn) = Some (net, os) ∧
    ∃ sc s0 rc r0,
      Sender.NewSender (Some demo_meta) (Reader.NewBlockReader (Buffer.NewBuffer demo_data) 5 2) = Ret (sc, s0) ∧
      Receiver.NewReceiver demo_writer = Ret (rc, r0) ∧
      transfers (@secure_left_conn _ Z wire_proto wire_transfer demo_cipher 0)
        (@secure_right_conn _ Z wire_proto wire_transfer demo_cipher 0)
        (@secure_move _ Z wire_proto wire_transfer demo_cipher)
        (@secure_left_finish _ Z wire_proto wire_transfer demo_cipher)
        (@secure_right_finish _ Z wire_proto wire_transfer demo_cipher)
        demo_data 2 secure_closed sc rc s0 r0 net.
Proof.
  destruct (@secure_open_established Transfer.Message Z unit unit wire_proto wire_transfer demo_cipher demo_noise
    (wire_roundtrip _) TransferProtocol
    (to_fields (mkMessage (Some (Open 1 1))) ≫= put_field) (to_fields (mkMessage (Some (Accept 1))) ≫= put_field)
    demo_conn demo_conn 43)
    as (es & net & os & Hrun & Hnet & _).
  { reflexivity. }
  { apply wire_marshal. split; split; vm_compute; (discriminate || reflexivity). }
  { apply wire_marshal. split; vm_compute; (discriminate || reflexivity). }
  { vm_compute. discriminate. }
  { vm_compute. discriminate. }
  { reflexivity. }
  { reflexivity. }
  exists es, net, os. split; [exact Hrun|].
  apply (@transfer_over_secure_sessions _ _ Z _ _ _ _ demo_cipher demo_noise wire_proto (wire_roundtrip _) wire_data_size
    wire_transfer wire_transfer_roundtrip ascii_name wire_transfer_size demo_data 2 demo_meta
    (Buffer.NewBuffer demo_data) (Buffer.NewBuffer (replicate 5 Byte.x00)) (replicate 5 Byte.x00) demo_writer
    1 0 0 43 net).
  - apply (bool_decide_unpack _). vm_compute. exact I.
  - vm_compute. reflexivity.
  - apply Buffer.NewBuffer_holds. vm_compute. discriminate.
  - reflexivity.
  - apply Buffer.NewBuffer_holds. vm_compute. discriminate.
  - reflexivity.
  - vm_compute. discriminate.
  - apply (bool_decide_unpack _). vm_compute. exact I.
  - vm_compute. discriminate.
  - split; vm_compute; [discriminate|reflexivity].
  - vm_compute. reflexivity.
  - exact Hnet.
Defined.
