(* ===== verification/Opening.v ===== *)
(** * Opening: how two sessions open a channel ([lib/session/session.go])

    The calls of [OpenChannel] on one side and of [AcceptChannel] on the other
    one, with the steps of both brokers and readers that serve them, in every
    order.  The state of the two sessions while a channel is opened is a pair of
    stages ([opener], [acceptor]); every step of the sessions is a step of the
    stages, over queues of messages first and then over the two ends of an
    encrypted connection.  In one order the code loses the request: when the
    broker of the accepting side is given it before [AcceptChannel] has told the
    broker that it waits.  The stages after that are [ALost] and [ALostWaits]. *)

From S2P Require Import Prelude GoSem Automaton Protocol Secure Channel Proto Session SessionSystem SecureSession.
From S2P Require Import SessionChannel TransferSession SecureTransfer.

Local Open Scope Z_scope.

(** ** Stages *)

(** How far the side is that opens the channel, and the one that accepts it. *)
Inductive opener : Type := OCalled | ORegistered | ORequested | OAnswered | OAccepted | OMade | OReturned.
Inductive acceptor : Type :=
| ACalled | AWaits | AHasRequest | ATaking | AOpening | AReady | AAnswered | AReturned | ALost | ALostWaits.

#[export] Instance opener_eq_dec : EqDecision opener.
Proof. solve_decision. Defined.
#[export] Instance acceptor_eq_dec : EqDecision acceptor.
Proof. solve_decision. Defined.

Definition o_rank (x : opener) : nat :=
  match x with
  | OCalled => 0 | ORegistered => 1 | ORequested => 2 | OAnswered => 3 | OAccepted => 4 | OMade => 5 | OReturned => 6
  end.
Definition a_rank (y : acceptor) : nat :=
  match y with
  | ACalled => 0 | AWaits | AHasRequest => 1 | ATaking | ALost => 2 | AOpening | ALostWaits => 3 | AReady => 4
  | AAnswered => 5 | AReturned => 6
  end.
Definition rank (p : opener * acceptor) : nat := o_rank p.1 + a_rank p.2.

(** The request reaches the accepting side once it was written, the answer the
    opening side once it was written.  It is lost when the broker has taken it
    while nobody waited for it. *)
Definition early (y : acceptor) : bool := match y with ACalled | AWaits => true | _ => false end.
Definition answered (y : acceptor) : bool := match y with AAnswered | AReturned => true | _ => false end.
Definition lost (y : acceptor) : bool := match y with ALost | ALostWaits => true | _ => false end.
Definition possible (p : opener * acceptor) : bool :=
  match p.1 with
  | OCalled | ORegistered => early p.2
  | ORequested => true
  | _ => answered p.2
  end.

(** A step of the opening: the statement at which a call is, or a step of a
    reader or a broker. *)
Inductive opening_move : Type := OpenerCalls | OpenerReads | OpenerTakes | AcceptorCalls | AcceptorReads | AcceptorTakes.

Definition next (t : opening_move) (p : opener * acceptor) : option (opener * acceptor) :=
  match t, p with
  | OpenerCalls, (OCalled, y) => Some (ORegistered, y)
  | OpenerCalls, (ORegistered, y) => Some (ORequested, y)
  | OpenerCalls, (OAccepted, y) => Some (OMade, y)
  | OpenerCalls, (OMade, y) => Some (OReturned, y)
  | OpenerReads, (ORequested, y) => if answered y then Some (OAnswered, y) else None
  | OpenerTakes, (OAnswered, y) => Some (OAccepted, y)
  | AcceptorCalls, (x, ACalled) => Some (x, AWaits)
  | AcceptorCalls, (x, AHasRequest) => Some (x, ATaking)
  | AcceptorCalls, (x, AOpening) => Some (x, AReady)
  | AcceptorCalls, (x, AReady) => Some (x, AAnswered)
  | AcceptorCalls, (x, AAnswered) => Some (x, AReturned)
  | AcceptorReads, (ORequested, ACalled) => Some (ORequested, AHasRequest)
  | AcceptorReads, (ORequested, AWaits) => Some (ORequested, ATaking)
  | AcceptorTakes, (x, ATaking) => Some (x, AOpening)
  | AcceptorTakes, (x, AHasRequest) => Some (x, ALost)
  | AcceptorCalls, (x, ALost) => Some (x, ALostWaits)
  | _, _ => None
  end.

Lemma next_possible t p p' : possible p = true → next t p = Some p' → possible p' = true.
Proof. destruct p as [x y]; destruct t, x, y; intros Hp Hn; simpl in *; simplify_eq; done. Qed.

Lemma next_rank t p p' : possible p = true → next t p = Some p' → rank p' = S (rank p).
Proof. destruct p as [x y]; destruct t, x, y; intros Hp Hn; simpl in *; simplify_eq; done. Qed.

(** Only the last stages have no next one; a stage that has one has one at which
    the request is not lost by this step. *)
Lemma next_exists p :
  possible p = true → p ≠ (OReturned, AReturned) → p ≠ (ORequested, ALostWaits) →
  ∃ t p', next t p = Some p' ∧ (lost p.2 = false → lost p'.2 = false).
Proof.
  destruct p as [x y]; destruct x, y; intros Hp Hn Hn'; try discriminate Hp; try by destruct Hn; try by destruct Hn'.
  all: first [by eexists OpenerCalls, _ | by eexists AcceptorCalls, _ | by eexists AcceptorTakes, _
    | by eexists OpenerReads, _ | by eexists OpenerTakes, _ | by eexists AcceptorReads, _].
Qed.

Lemma rank_bound p : (rank p ≤ 12)%nat.
Proof. destruct p as [x y]; destruct x, y; unfold rank; simpl; lia. Qed.

(** ** The sessions at a stage *)
Section Stages.
Context {Msg : Type} `{!ProtoMessage Channel.Message} `{!ProtoMessage Msg}.
Context (P : Protocol Msg) (bo ba : bytes).

Definition one (b : bool) : gmap Z nat := if b then {[1 := 0%nat]} else ∅.

Definition opener_at (x : opener) : session Msg :=
  let h := mkChannelHandle P 1 in
  mkSession (mkFactory 3)
    (one (6 <=? o_rank x)%nat) ∅ (one ((1 <=? o_rank x)%nat && (o_rank x <=? 3)%nat))
    (if (4 <=? o_rank x)%nat then [0%nat] else [])
    Selecting (match x with OAnswered => Passing (InAccept 1) | _ => Session.Reading end)
    (if (5 <=? o_rank x)%nat then [new_channel h] else [])
    [match x with
     | OCalled => OpenWaitAccept h bo
     | ORegistered => OpenWrite h bo
     | ORequested | OAnswered | OAccepted => OpenWaiting h
     | OMade => Registering 0
     | OReturned => CallReturned (inl 0%nat)
     end]
    (if (2 <=? o_rank x)%nat then [bo] else []) false false NotClosing.

Definition acceptor_at (y : acceptor) : session Msg :=
  let h := mkChannelHandle P 1 in
  mkSession (mkFactory 2)
    (one (6 <=? a_rank y)%nat) (one (match y with AWaits | ATaking | AOpening | ALostWaits => true | _ => false end)) ∅ []
    (match y with AOpening => Opening 0 1 1 | _ => Selecting end)
    (match y with AHasRequest | ATaking => Passing (InOpen 1 1) | _ => Session.Reading end)
    (if (5 <=? a_rank y)%nat then [new_channel h] else [])
    [match y with
     | ACalled | AHasRequest | ALost => AcceptWaitOpen P
     | AWaits | ATaking | AOpening | ALostWaits => AcceptWaiting P
     | AReady => AcceptWrite h ba
     | AAnswered => Registering 0
     | AReturned => CallReturned (inl 0%nat)
     end]
    (if (5 <=? a_rank y)%nat then [ba] else []) false false NotClosing.

(** The request is on its way until it was read, and so is the answer. *)
Definition system_at (p : opener * acceptor) : SessionSystem.system Msg :=
  SessionSystem.mkSystem (opener_at p.1) (acceptor_at p.2)
    (match p with (ORequested, y) => if early y then [bo] else [] | _ => [] end)
    (match p with (ORequested, y) => if answered y then [ba] else [] | _ => [] end).

Definition opening_event (t : opening_move) : @SessionSystem.system_event Msg :=
  match t with
  | OpenerCalls => LeftStep (StepCall 0 None)
  | OpenerReads => LeftReads
  | OpenerTakes => LeftStep TakeRead
  | AcceptorCalls => RightStep (StepCall 0 None)
  | AcceptorReads => RightReads
  | AcceptorTakes => RightStep TakeRead
  end.

(** Somebody waits for what the broker is given; otherwise the broker drops it
    ([Session.broker_case]). *)
Definition wanted (ev : broker_event) (s : session Msg) : bool :=
  match ev with
  | InOpen channelId protocolId => negb (has (channels s) channelId) && has (opens s) protocolId
  | InAccept channelId => negb (has (channels s) channelId) && has (accepts s) channelId
  | InData channelId _ _ => has (channels s) channelId
  | _ => true
  end.

(** What the reader passes on is not dropped. *)
Definition reads_wanted (s : session Msg) : bool :=
  match Session.reader s with Passing ev => wanted ev s | _ => true end.

Definition in_time (t : opening_move) (l r : session Msg) : bool :=
  match t with
  | OpenerTakes => reads_wanted l
  | AcceptorTakes => reads_wanted r
  | _ => true
  end.

End Stages.

Lemma system_at_step {Msg} `{!ProtoMessage Channel.Message} `{!ProtoMessage Msg}
    `{!ProtoRoundTrip Channel.Message (λ _ _, True)} (P : Protocol Msg) (bo ba : bytes) t p :
  Id P = 1 → Marshal (mkMessage (Some (Open 1 1))) = inl bo → Marshal (mkMessage (Some (Accept 1))) = inl ba →
  possible p = true →
  fst <$> SessionSystem.system_step (opening_event t) (system_at P bo ba p) = system_at P bo ba <$> next t p.
Proof.
  intros HP Ho Ha.
  pose proof (unmarshal_marshal (same_type := λ _ _, True) _ (mkMessage None) bo Ho I) as Hro.
  pose proof (unmarshal_marshal (same_type := λ _ _, True) _ (mkMessage None) ba Ha I) as Hra.
  destruct P as [pid tf rf nm]. simpl in HP. subst pid.
  destruct ProtoMessage0 as [marshal unmarshal]. simpl in Ho, Ha, Hro, Hra.
  destruct p as [x y]. intros Hp.
  destruct t, x, y; try discriminate Hp;
    vm_compute; rewrite ?Hro, ?Hra, ?Ha; vm_compute; reflexivity.
Qed.

Lemma calls_start {Msg} `{!ProtoMessage Channel.Message} `{!ProtoMessage Msg} (P : Protocol Msg) (bo ba : bytes) :
  Id P = 1 → Marshal (mkMessage (Some (Open 1 1))) = inl bo →
  SessionSystem.system_step (LeftStep (StartOpen P))
    (SessionSystem.mkSystem (NewSession true) (acceptor_at P ba ACalled) [] []) =
  Some (system_at P bo ba (OCalled, ACalled), inl Silent).
Proof.
  intros HP Ho. destruct P as [pid tf rf nm]. simpl in HP. subst pid.
  destruct ProtoMessage0 as [marshal unmarshal]. simpl in Ho. vm_compute. rewrite Ho. reflexivity.
Qed.

(** The request is lost by the step that is not in time, and by no other one. *)
Lemma next_in_time {Msg} `{!ProtoMessage Channel.Message} (P : Protocol Msg) bo ba t p p' :
  Id P = 1 → possible p = true → next t p = Some p' →
  in_time t (opener_at P bo p.1) (acceptor_at P ba p.2) = eqb (lost p.2) (lost p'.2).
Proof.
  destruct P as [pid tf rf nm]. simpl. intros ->.
  destruct p as [x y]; destruct t, x, y; intros Hp Hn; simpl in Hn; try discriminate; simplify_eq; vm_compute; reflexivity.
Qed.

(** ** Over the encrypted connection *)
Section Secure.
Context {Msg K : Type} `{!ProtoMessage Channel.Message} `{!ProtoMessage Msg} `{NoiseCipher K}.
Context `{!ProtoRoundTrip Channel.Message (λ _ _, True)}.
Context (P : Protocol Msg) (bo ba : bytes) (HP : Id P = 1).
Context (Ho : Marshal (mkMessage (Some (Open 1 1))) = inl bo) (Ha : Marshal (mkMessage (Some (Accept 1))) = inl ba).
Context (Fo : Secure.sendable bo) (Fa : Secure.sendable ba).
Implicit Types (net : secure_system Msg K).

(** A session that reads does so from the given segments. *)
Definition secure_opening_event (t : opening_move * list bytes) : secure_event Msg :=
  match t.1 with
  | OpenerCalls => SecureLeft (StepCall 0 None)
  | OpenerReads => SecureLeftReads t.2 ""
  | OpenerTakes => SecureLeft TakeRead
  | AcceptorCalls => SecureRight (StepCall 0 None)
  | AcceptorReads => SecureRightReads t.2 ""
  | AcceptorTakes => SecureRight TakeRead
  end.

(** A step of the calls, the readers or the brokers; and one by which no message
    is dropped. *)
Definition opening_step net net' : Prop := ∃ t, fst <$> secure_step (secure_opening_event t) net = Some net'.
Definition timely_step net net' : Prop :=
  ∃ t, in_time t.1 (sess (s_left net)) (sess (s_right net)) = true ∧
    fst <$> secure_step (secure_opening_event t) net = Some net'.

Lemma no_next t segs err p :
  possible p = true → next t p = None →
  SessionSystem.system_step (abstract_event err (secure_opening_event (t, segs))) (system_at P bo ba p) = None.
Proof.
  destruct p as [x y]. intros Hp Hn.
  destruct t, x, y; try discriminate Hp; try discriminate Hn; reflexivity.
Qed.

(** Neither side has written anything but the two messages, or closed. *)
Lemma system_at_sent p :
  Forall Secure.sendable (sent (left (system_at P bo ba p))) ∧
  Forall Secure.sendable (sent (right (system_at P bo ba p))).
Proof. destruct p as [x y]. destruct x, y; simpl; auto. Qed.

Lemma at_step t p p' :
  possible p = true → next t p = Some p' →
  ∃ ob, SessionSystem.system_step (opening_event t) (system_at P bo ba p) = Some (system_at P bo ba p', ob).
Proof.
  intros Hp Hn. pose proof (system_at_step P bo ba t p HP Ho Ha Hp) as Hs.
  rewrite Hn in Hs. apply fmap_Some in Hs as ([sys ob] & -> & ->). by exists ob.
Qed.

(** The state [net] is at the stages [p]; after the opening [n] more messages can
    follow. *)
Definition opening_at (n : nat) (p : opener * acceptor) net : Prop :=
  possible p = true ∧ secured (13 - rank p + n) net (system_at P bo ba p).

Lemma opening_at_budget n p p' t net (e : secure_event Msg) :
  opening_at n p net → next t p = Some p' → secured (secure_cost e + (13 - rank p' + n)) net (system_at P bo ba p).
Proof.
  intros [Hp Hsec] Hn. pose proof (next_rank _ _ _ Hp Hn) as Hr. pose proof (rank_bound p') as Hb.
  eapply secured_le; [exact Hsec|]. pose proof (secure_cost_bound e). lia.
Qed.

(** The step over the connection that stands for a step of the stages. *)
Lemma opening_step_complete n t e' p p' net :
  opening_at n p net → next t p = Some p' → implements net (opening_event t) e' →
  ∃ net' ob, secure_step e' net = Some (net', ob) ∧ opening_at n p' net'.
Proof.
  intros Hat Hn Hi. pose proof Hat as [Hp _]. destruct (at_step t p p' Hp Hn) as [ob Hs].
  destruct (system_at_sent p') as [Fl Fr].
  destruct (secure_step_complete (13 - rank p' + n) (opening_event t) e' net _ (system_at P bo ba p') ob
    (opening_at_budget _ _ _ _ _ _ Hat Hn) eq_refl eq_refl) as (net' & Hn' & Hsec');
    [by destruct t|done|exact Hs|by apply Forall_drop..|].
  exists net', ob. split; [done|]. split; [by eapply next_possible|done].
Qed.

(** Every step is a step of the stages, *)
Lemma opening_at_step n p t net net' ob :
  opening_at n p net → secure_step (secure_opening_event t) net = Some (net', ob) →
  ∃ p', next t.1 p = Some p' ∧ opening_at n p' net'.
Proof.
  intros Hat Hs. destruct t as [t segs]. cbn [fst]. pose proof Hat as [Hp Hsec].
  set (e := secure_opening_event (t, segs)) in *.
  destruct (next t p) as [p'|] eqn:Hn.
  - exists p'. split; [done|].
    assert (secure_cost e = 0%nat ∨ implements net (opening_event t) e) as [Hc|Hi] by (destruct t; simpl; auto).
    + pose proof (opening_at_budget _ _ _ _ _ e Hat Hn) as Hsec0. rewrite Hc in Hsec0.
      destruct (at_step t p p' Hp Hn) as [ob' Hst].
      destruct (quiet_step_refines _ e net net' ob _ Hsec0 Hc Hs) as (sys' & Hs' & Hsec').
      replace (abstract_event None e) with (@opening_event Msg t) in Hs' by (by destruct t). simplify_eq.
      split; [by eapply next_possible|done].
    + destruct (opening_step_complete n t e p p' net Hat Hn Hi) as (net2 & ob2 & Hs2 & Hat2). by simplify_eq.
  - exfalso. pose proof (rank_bound p). pose proof (secure_cost_bound e).
    destruct (secure_step_refines (12 - rank p + n) e net net' ob (system_at P bo ba p)) as (err & Hst & _);
      [eapply secured_le; [exact Hsec|lia]|done|].
    unfold e in Hst. by rewrite no_next in Hst.
Qed.

(** and every step of the stages is possible. *)
Lemma opening_at_next n p t p' net :
  opening_at n p net → next t p = Some p' →
  ∃ segs net' ob, secure_step (secure_opening_event (t, segs)) net = Some (net', ob) ∧ opening_at n p' net'.
Proof.
  intros Hat Hn. pose proof Hat as [Hp Hsec]. destruct (at_step t p p' Hp Hn) as [ob Hs].
  destruct (implements_exists _ _ _ _ _ Hsec Hs) as [e' Hi].
  assert (∃ segs, implements net (opening_event t) (secure_opening_event (t, segs))) as [segs Hi'].
  { destruct t, e' as [| |segs text|segs text]; try done; first [by exists segs | by exists []]. }
  exists segs. by eapply opening_step_complete.
Qed.

Lemma opening_at_in_time n p t p' net :
  opening_at n p net → next t p = Some p' →
  in_time t (sess (s_left net)) (sess (s_right net)) = eqb (lost p.2) (lost p'.2).
Proof. intros [Hp [El Er _ _]] Hn. rewrite <- El, <- Er. by eapply next_in_time. Qed.

Lemma opening_at_opened n net :
  opening_at n (OReturned, AReturned) net →
  secure_established 1 P 0 0 n net ∧ opened (sess (s_left net)) ∧ opened (sess (s_right net)).
Proof.
  intros [_ Hsec]. pose proof Hsec as [El Er _ _]. rewrite <- El, <- Er. split_and!; [|done|done].
  apply (secured_established _ _ _ _ _ _ (system_at P bo ba (OReturned, AReturned))).
  - eapply secured_le; [exact Hsec|lia].
  - split; [..|done|done]; split; try done; by split_and!.
Qed.

(** *** The two ends *)

(** The request is lost: both calls wait, nothing is on its way and nothing can be
    taken. *)
Definition request_lost net : Prop :=
  calls (sess (s_left net)) = [OpenWaiting (mkChannelHandle P 1)] ∧
  calls (sess (s_right net)) = [AcceptWaiting P] ∧
  out (s_left net) = [] ∧ out (s_right net) = [] ∧
  Session.reader (sess (s_left net)) = Session.Reading ∧ Session.reader (sess (s_right net)) = Session.Reading.

Lemma opening_at_lost n net : opening_at n (ORequested, ALostWaits) net → request_lost net.
Proof.
  intros [_ [El Er Hr%carries_empty Hl%carries_empty]]. unfold request_lost. rewrite <- El, <- Er.
  split_and!; [done|done|by apply Hr|by apply Hl|done|done].
Qed.

(** After [k] steps the stages are of rank [k]; [b]: no message was dropped. *)
Definition opening_inv (n : nat) (b : bool) (k : Z) net : Prop :=
  ∃ p, opening_at n p net ∧ Z.of_nat (rank p) = k ∧ (b = true → lost p.2 = false).

Lemma opening_inv_step n (k : Z) net net' :
  opening_inv n false k net → opening_step net net' → opening_inv n false (k + 1) net'.
Proof.
  intros (p & Hat & Hk & _) ([t segs] & ([net1 ob] & Hs & ->)%fmap_Some).
  destruct (opening_at_step n p (t, segs) net net1 ob Hat Hs) as (p' & Hn & Hat').
  exists p'. split_and!; [done| |done]. pose proof (next_rank _ _ _ (proj1 Hat) Hn). lia.
Qed.

Lemma timely_inv_step n (k : Z) net net' :
  opening_inv n true k net → timely_step net net' → opening_inv n true (k + 1) net'.
Proof.
  intros (p & Hat & Hk & Hl) ([t segs] & Ht & ([net1 ob] & Hs & ->)%fmap_Some).
  destruct (opening_at_step n p (t, segs) net net1 ob Hat Hs) as (p' & Hn & Hat').
  exists p'. split_and!; [done| |].
  - pose proof (next_rank _ _ _ (proj1 Hat) Hn). lia.
  - intros _. cbn [fst] in *. rewrite (opening_at_in_time n p t p' net Hat Hn), (Hl eq_refl) in Ht. by destruct (lost p'.2).
Qed.

Lemma timely_exists n p net :
  opening_at n p net → lost p.2 = false → p ≠ (OReturned, AReturned) →
  ∃ t p' net' ob, in_time t.1 (sess (s_left net)) (sess (s_right net)) = true ∧ next t.1 p = Some p' ∧
    secure_step (secure_opening_event t) net = Some (net', ob) ∧ opening_at n p' net'.
Proof.
  intros Hat Hl Hne. destruct (next_exists p (proj1 Hat) Hne) as (t & p' & Hn & Hl'); [by intros ->|].
  destruct (opening_at_next _ _ _ _ _ Hat Hn) as (segs & net' & ob & Hs & Hat').
  exists (t, segs), p', net', ob. split_and!; [|done..]. cbn [fst].
  by rewrite (opening_at_in_time n p t p' net Hat Hn), Hl, Hl'.
Qed.

(** *** From fresh sessions *)

(** Once both calls have been started, the opening ends after at most 12 steps,
    in every order of the steps.  Then both calls have returned the channel and
    [Q] holds, or the request was lost; it is lost only by an order in which the
    broker drops it, and there is such an order. *)
Definition opens_channel {C D} (na : noiseConn C K) (nb : noiseConn D K) (Q : secure_system Msg K → Prop) : Prop :=
  ∃ net os, secure_run [SecureRight (StartAccept P); SecureLeft (StartOpen P)] (NewSecure na nb) = Some (net, os) ∧
    (∀ k net', steps_n opening_step k net net' →
      (k ≤ 12)%nat ∧
      (stuck opening_step net' →
         (opened (sess (s_left net')) ∧ opened (sess (s_right net')) ∧ Q net') ∨ request_lost net')) ∧
    (∀ k net', steps_n timely_step k net net' → stuck timely_step net' →
      opened (sess (s_left net')) ∧ opened (sess (s_right net')) ∧ Q net') ∧
    (∃ k net', steps_n opening_step k net net' ∧ stuck opening_step net' ∧ request_lost net').

Lemma calls_started {C D} n (na : noiseConn C K) (nb : noiseConn D K) :
  in_sync (13 + n) (writeCipher na) (readCipher nb) → in_sync (13 + n) (writeCipher nb) (readCipher na) →
  ∃ net os, secure_run [SecureRight (StartAccept P); SecureLeft (StartOpen P)] (NewSecure na nb) = Some (net, os) ∧
    opening_at n (OCalled, ACalled) net.
Proof.
  intros H1 H2. pose proof (secured_new (Msg := Msg) _ na nb H1 H2) as Hsec.
  destruct (secure_step_complete (13 + n) (RightStep (StartAccept P)) (SecureRight (StartAccept P)) _ _
    (SessionSystem.mkSystem (NewSession true) (acceptor_at P ba ACalled) [] []) (inr Silent) Hsec)
    as (net1 & Hs1 & Hsec1); [done..|by constructor|by constructor|].
  destruct (secure_step_complete (13 + n) (LeftStep (StartOpen P)) (SecureLeft (StartOpen P)) net1 _
    (system_at P bo ba (OCalled, ACalled)) (inl Silent) Hsec1)
    as (net2 & Hs2 & Hsec2); [done..| |by constructor|by constructor|].
  { by apply calls_start. }
  exists net2, [inr Silent; inl Silent]. split; [|done].
  cbn [secure_run]. rewrite Hs1. cbn -[secure_step]. by rewrite Hs2.
Qed.

(** The order of the steps that loses the request. *)
Lemma losing_order n net :
  opening_at n (OCalled, ACalled) net → ∃ net', steps_n opening_step 5 net net' ∧ opening_at n (ORequested, ALostWaits) net'.
Proof.
  intros H0.
  assert (∀ t p p' x y, next t p = Some p' → (∃ z, steps_n opening_step x y z ∧ opening_at n p z) →
    ∃ z, steps_n opening_step (S x) y z ∧ opening_at n p' z) as Hgo.
  { intros t p p' x y Hn (z & Hz & Hat). destruct (opening_at_next _ _ _ _ _ Hat Hn) as (segs & z' & ob & Hs & Hat').
    exists z'. split; [|done]. eapply steps_n_r; [exact Hz|]. exists (t, segs). by rewrite Hs. }
  apply (Hgo AcceptorCalls (ORequested, ALost) _ _ _ eq_refl).
  apply (Hgo AcceptorTakes (ORequested, AHasRequest) _ _ _ eq_refl).
  apply (Hgo AcceptorReads (ORequested, ACalled) _ _ _ eq_refl).
  apply (Hgo OpenerCalls (ORegistered, ACalled) _ _ _ eq_refl).
  apply (Hgo OpenerCalls (OCalled, ACalled) _ _ _ eq_refl).
  exists net. split; [constructor|done].
Qed.

Lemma opens_established {C D} n (na : noiseConn C K) (nb : noiseConn D K) (Q : secure_system Msg K → Prop) :
  in_sync (13 + n) (writeCipher na) (readCipher nb) → in_sync (13 + n) (writeCipher nb) (readCipher na) →
  (∀ net, secure_established 1 P 0 0 n net → Q net) → opens_channel na nb Q.
Proof.
  intros H1 H2 HQ. destruct (calls_started n na nb H1 H2) as (net & os & Hrun & H0).
  assert (∀ b, opening_inv n b 0 net) as Hi0 by (intros b; by exists (OCalled, ACalled)).
  assert (∀ net', opening_at n (OReturned, AReturned) net' →
    opened (sess (s_left net')) ∧ opened (sess (s_right net')) ∧ Q net') as Hend.
  { intros net' (He & Hl & Hr)%opening_at_opened. split_and!; auto. }
  exists net, os. split; [done|]. split_and!.
  - intros k net' Hk.
    destruct (steps_n_count _ (opening_inv n false) (opening_inv_step n) _ _ _ Hk 0 (Hi0 _)) as (p & Hat & Hr & _).
    pose proof (rank_bound p). split; [lia|]. intros Hstuck.
    destruct (decide (p = (OReturned, AReturned))) as [->|Hne]; [left; by apply Hend|].
    destruct (decide (p = (ORequested, ALostWaits))) as [->|Hne']; [right; by eapply opening_at_lost|].
    destruct (next_exists p (proj1 Hat) Hne Hne') as (t & p' & Hn & _).
    destruct (opening_at_next _ _ _ _ _ Hat Hn) as (segs & net2 & ob & Hs & _).
    destruct (Hstuck net2). exists (t, segs). by rewrite Hs.
  - intros k net' Hk Hstuck.
    destruct (steps_n_count _ (opening_inv n true) (timely_inv_step n) _ _ _ Hk 0 (Hi0 _)) as (p & Hat & Hr & Hl).
    destruct (decide (p = (OReturned, AReturned))) as [->|Hne]; [by apply Hend|].
    destruct (timely_exists n p net' Hat (Hl eq_refl) Hne) as (t & p' & net2 & ob & Ht & _ & Hs & _).
    destruct (Hstuck net2). exists t. by rewrite Hs.
  - destruct (losing_order n net H0) as (net' & Hk & Hat). exists 5%nat, net'. split; [done|].
    split; [|by eapply opening_at_lost]. intros net2 ([t segs] & ([net3 ob] & Hs & _)%fmap_Some).
    destruct (opening_at_step _ _ _ _ _ _ Hat Hs) as (p' & Hn & _). by destruct t.
Qed.
End Secure.

(** ** Properties *)

(** C8: two sessions on the ends of an encrypted connection open a channel.  In
    every order of the steps of both calls, brokers and readers and for every
    segmentation of the bytes, the opening is over after at most 12 steps, and
    then one of two things holds: [OpenChannel] and [AcceptChannel] have returned
    the channel, which is registered on both sides, with nothing on its way; or
    the request was lost and both calls wait for ever ([request_lost]).  The first
    one holds whenever no broker was given a message that nobody waited for, that
    is, when [AcceptChannel] has told its broker to wait before the broker is
    given the request; and the second one can happen. *)
Theorem channel_opens {Msg K C D} `{!ProtoMessage Channel.Message} `{!ProtoMessage Msg} `{NoiseCipher K}
    `{!ProtoRoundTrip Channel.Message (λ _ _, True)} (P : Protocol Msg) (bo ba : bytes)
    (na : noiseConn C K) (nb : noiseConn D K) (n : nat) :
  Id P = 1 → Marshal (mkMessage (Some (Open 1 1))) = inl bo → Marshal (mkMessage (Some (Accept 1))) = inl ba →
  Secure.sendable bo → Secure.sendable ba →
  in_sync (13 + n) (writeCipher na) (readCipher nb) → in_sync (13 + n) (writeCipher nb) (readCipher na) →
  opens_channel P na nb (secure_established 1 P 0 0 n).
Proof. intros HP Ho Ha Fo Fa H1 H2. by apply (opens_established P bo ba HP Ho Ha Fo Fa n). Qed.

Lemma channel_opens_witness :
  @opens_channel Z Z wire_proto bits_proto demo_cipher demo_numbers _ _ demo_conn demo_conn
    (@secure_established Z Z demo_cipher demo_noise 1 demo_numbers 0 0 5).
Proof.
  apply (@channel_opens Z Z unit unit wire_proto bits_proto demo_cipher demo_noise (wire_roundtrip _) demo_numbers
    (to_fields (mkMessage (Some (Open 1 1))) ≫= put_field) (to_fields (mkMessage (Some (Accept 1))) ≫= put_field)
    demo_conn demo_conn 5).
  - reflexivity.
  - apply wire_marshal. split; split; vm_compute; (discriminate || reflexivity).
  - apply wire_marshal. split; vm_compute; (discriminate || reflexivity).
  - vm_compute. discriminate.
  - vm_compute. discriminate.
  - reflexivity.
  - reflexivity.
Defined.
