(* ===== verification/OpenTransfer.v ===== *)
(** * OpenTransfer: the opening of a channel and a transfer over it

    [Opening] has the calls that open a channel, [SecureTransfer] the transfer
    over an open one.  Here both are one system, as in the commands: each side
    starts its loop when its own call has returned, whatever the other side has
    done so far, and all goroutines interleave.  The sender may write its first
    message before the accepting side has registered the channel, and the receiver
    may wait for it before [OpenChannel] has returned.  The executions are those in
    which no broker is given a message that nobody waits for ([keeps]); the other
    ones lose the request to open the channel or data. *)

From S2P Require Import Prelude GoSem Packet Files Block BlockProps.
From S2P Require Import Automaton Protocol Secure Channel Proto Session SessionSystem SecureSession.
From S2P Require Import Transfer TransferProps Loop SessionChannel TransferSystem TransferSession SecureTransfer Opening.

Local Open Scope Z_scope.

(** ** The program *)
Section Program.
Context {F G K : Type} `{!ReadSeekCloser F} `{!WriteSeekCloser G} `{!CipherState K}.
Context `{!ProtoMessage Channel.Message} `{!ProtoMessage Transfer.Message}.
Context (sc : Client Transfer.Message (Sender.Sender F)) (rc : Client Transfer.Message (Receiver.Receiver G)).
Abbreviation net := (secure_system Transfer.Message K).
Abbreviation program := (stack F G net).

(** A step of a call of [OpenChannel] or [AcceptChannel], or of what runs once it
    has returned. *)
Inductive program_event : Type :=
| SenderCalls
| ReceiverCalls
| Runs (e : stack_event (T := transport * list bytes) (E := finish)).

(** The channel that the call of a side has returned. *)
Definition channel_of (s : session Transfer.Message) : option nat :=
  match calls s with [CallReturned (inl r)] => Some r | _ => None end.

(** What runs on a side uses the channel that its call has returned. *)
Definition channel_for (e : stack_event (T := transport * list bytes) (E := finish)) (n : net) : option nat :=
  match e with
  | SenderEvent _ | SenderEnds _ => channel_of (sess (s_left n))
  | ReceiverEvent _ | ReceiverEnds _ => channel_of (sess (s_right n))
  | TransportEvent _ => Some 0%nat
  end.

Definition program_step (e : program_event) (s : program) : option program :=
  match e with
  | SenderCalls =>
      '(n, _) ← secure_step (SecureLeft (StepCall 0 None)) (st_net s);
      Some (mkStack (st_sender s) (st_receiver s) n)
  | ReceiverCalls =>
      '(n, _) ← secure_step (SecureRight (StepCall 0 None)) (st_net s);
      Some (mkStack (st_sender s) (st_receiver s) n)
  | Runs e =>
      r ← channel_for e (st_net s);
      stack_step (secure_left_conn r) (secure_right_conn r) secure_move secure_left_finish secure_right_finish
        sc rc e s
  end.

(** No broker drops what it is given. *)
Definition keeps (e : program_event) (n : net) : bool :=
  match e with
  | Runs (TransportEvent (LeftTakes, _)) => reads_wanted (sess (s_left n))
  | Runs (TransportEvent (RightTakes, _)) => reads_wanted (sess (s_right n))
  | _ => true
  end.

Definition program_steps (s s' : program) : Prop := ∃ e, keeps e (st_net s) = true ∧ program_step e s = Some s'.
End Program.

(** ** The calls, once they have returned *)
Section Calls.
Context {Msg K : Type} `{!ProtoMessage Channel.Message} `{!ProtoMessage Msg} `{!CipherState K}.
Implicit Types (s : session Msg) (net : secure_system Msg K) (e : @session_event Msg).

(** Only these steps change the calls. *)
Definition is_call e : bool :=
  match e with StepCall _ _ | DoneCall _ | StartOpen _ | StartAccept _ => true | _ => false end.

Lemma calls_kept e s s' o : is_call e = false → session_step e s = Some (s', o) → calls s' = calls s.
Proof.
  intros He H. assert (∀ x, silent x = Some (s', o) → x = Some s') as Hsil.
  { intros [s1|] Hx; [|discriminate]. by injection Hx as <- <-. }
  destruct e; try discriminate; cbn [session_step] in H.
  - destruct (Session.reader s); try discriminate. by apply Hsil in H as [= <-].
  - destruct (Session.reader s); try discriminate. by apply Hsil in H as [= <-].
  - destruct (Session.reader s); try discriminate. apply Hsil in H. by apply grows_receive in H as (_ & _ & ->).
  - destruct (broker s); try discriminate. apply bind_Some in H as (ch & _ & H).
    by apply bind_Some in H as (ch' & _ & [= <- <-]).
  - apply bind_Some in H as (ch & _ & H).
    destruct (channel_Write ch m) as [[b|x]| |], err; try discriminate; by injection H as <- <-.
  - apply bind_Some in H as (ch & _ & H). by apply bind_Some in H as ([m ch'] & _ & [= <- <-]).
  - apply bind_Some in H as (ch & _ & H). by apply bind_Some in H as (err & _ & [= <- <-]).
  - apply bind_Some in H as (ch & _ & H). apply bind_Some in H as (ch' & _ & H). by apply Hsil in H as [= <-].
  - apply bind_Some in H as (ch & _ & H). destruct (channel_Close ch); try discriminate.
    destruct err; by injection H as <- <-.
  - unfold Session_Close in H. destruct (done s); [discriminate|]. by apply Hsil in H as [= <-].
  - by apply Hsil, broker_exit_inv in H as (_ & x & -> & _).
  - by apply Hsil, Session_CloseConn_inv in H as (p & ->).
Qed.

Definition is_secure_call (e : secure_event Msg) : bool :=
  match e with SecureLeft e | SecureRight e => is_call e | _ => false end.

Lemma side_calls_kept e (x x' : side Msg K) o :
  is_call e = false → side_step e x = Some (x', o) → calls (sess x') = calls (sess x).
Proof.
  intros He Hs. unfold side_step in Hs. apply bind_Some in Hs as ([s1 o1] & H1 & Hs).
  destruct (WriteAll _ _) as [[[err|]| |] c]; try discriminate.
  - apply bind_Some in Hs as ([s2 o2] & H2 & [= <- <-]). eapply calls_kept; [|exact H2]. by destruct e.
  - injection Hs as <- <-. eapply calls_kept; [|exact H1]. by destruct e.
Qed.

Lemma side_read_calls segs text d (x x' : side Msg K) d' o :
  side_read segs text d x = Some (x', d', o) → calls (sess x') = calls (sess x).
Proof.
  unfold side_read. destruct (_ || _); [done|]. destruct (Read _ _ _) as [[[p [err|]]| |] c]; intros Hs; try done;
    apply bind_Some in Hs as ([s1 o1] & H1 & [= <- _ _]); by eapply calls_kept; [|exact H1].
Qed.

(** Both sides have the channel. *)
Definition both_opened net : Prop := opened (sess (s_left net)) ∧ opened (sess (s_right net)).

Lemma secure_calls_kept (e : secure_event Msg) net net' ob :
  is_secure_call e = false → secure_step e net = Some (net', ob) →
  calls (sess (s_left net')) = calls (sess (s_left net)) ∧ calls (sess (s_right net')) = calls (sess (s_right net)).
Proof.
  intros He Hs. destruct e as [e|e|segs text|segs text]; cbn [secure_step] in Hs.
  1, 2: destruct (allowed net e); [|discriminate]; apply bind_Some in Hs as ([x o] & Hs & [= <- <-]); simpl;
    by rewrite (side_calls_kept _ _ _ _ He Hs).
  all: apply bind_Some in Hs as ([[x d'] o] & Hs & [= <- <-]); simpl; by rewrite (side_read_calls _ _ _ _ _ _ _ Hs).
Qed.

Lemma both_opened_kept (e : secure_event Msg) net net' ob :
  is_secure_call e = false → secure_step e net = Some (net', ob) → both_opened net → both_opened net'.
Proof. intros He Hs. destruct (secure_calls_kept _ _ _ _ He Hs) as [E1 E2]. unfold both_opened, opened. by rewrite E1, E2. Qed.

Lemma opened_channel s : opened s → calls s = [CallReturned (inl 0%nat)].
Proof. done. Qed.

(** A call that has returned has no further step. *)
Lemma opened_no_call s o : opened s → session_step (StepCall 0 o) s = None.
Proof. intros E. cbn [session_step]. unfold call_step. by rewrite E. Qed.

Lemma no_side_step e (x : side Msg K) : session_step (with_result None e) (sess x) = None → side_step e x = None.
Proof. intros E. unfold side_step. by rewrite E. Qed.

(** *** What a loop does to its connection *)

(** What [Read] and [Write] of a connection keep, the loop keeps. *)
Lemma loop_step_keeps {W C M} `{!ReadWriter C M} (Q : C → Prop) (st : lens W State) (client : Client M W) ev l c l' c' :
  (∀ m c r c', conn_Write m c = Some (r, c') → Q c → Q c') →
  (∀ c r c', conn_Read c = Some (r, c') → Q c → Q c') →
  loop_step st client ev (l, c) = Some (l', c') → Q c → Q c'.
Proof.
  intros Hw Hr H. destruct ev; cbn [loop_step] in H.
  - destruct (reading l); try done. apply bind_Some in H as ([x c1] & H1 & [= <- <-]). by eapply Hr.
  - destruct (reading l); by simplify_eq.
  - destruct (reading l); try done. destruct (done_closed l); by simplify_eq.
  - destruct (main l); try done. destruct (IsDone _ _ _); by simplify_eq.
  - destruct (_ && _); [|done]. unfold write in H.
    destruct (WriteMessage st client (store l)) as [[[[m|] [err|]]|p|] w]; simplify_eq; try done.
    apply bind_Some in H as ([x c1] & H1 & [= <- <-]). by eapply Hw.
  - destruct (reading l); try done. destruct (_ && _); by simplify_eq.
  - destruct (errs l); try done. destruct (_ && _); by simplify_eq.
Qed.

(** The steps of a channel are steps of the session that are no calls. *)
Lemma channel_conn_keeps {N} (Q : N → Prop) (step : @session_event Msg → N → option (@observation Msg * N)) r :
  (∀ e n o n', is_call e = false → step e n = Some (o, n') → Q n → Q n') →
  (∀ m c x c', conn_Write (ReadWriter := channel_conn step r) m c = Some (x, c') → Q c → Q c') ∧
  (∀ c x c', conn_Read (ReadWriter := channel_conn step r) c = Some (x, c') → Q c → Q c').
Proof.
  intros HQ. split.
  - intros m c x c' H. cbn [conn_Write channel_conn] in H.
    destruct (step (WriteChannel r m None) c) as [[o n]|] eqn:E; [|done]. intros Hc.
    pose proof (HQ (WriteChannel r m None) _ _ _ eq_refl E Hc). by destruct o; simplify_eq.
  - intros c x c' H Hc. cbn [conn_Read channel_conn] in H.
    destruct (step (ReadChannel r) c) as [[o n]|] eqn:E; [pose proof (HQ (ReadChannel r) _ _ _ eq_refl E Hc)|];
    destruct (step (ReadClosedChannel r) c) as [[o' n']|] eqn:E';
      try pose proof (HQ (ReadClosedChannel r) _ _ _ eq_refl E' Hc);
      repeat (case_match; simplify_eq); done.
Qed.

Lemma left_conn_keeps (Q : secure_system Msg K → Prop) r :
  (∀ (e : secure_event Msg) net net' ob, is_secure_call e = false → secure_step e net = Some (net', ob) → Q net → Q net') →
  (∀ m c x c', conn_Write (ReadWriter := secure_left_conn r) m c = Some (x, c') → Q c → Q c') ∧
  (∀ c x c', conn_Read (ReadWriter := secure_left_conn r) c = Some (x, c') → Q c → Q c').
Proof.
  intros HQ. apply channel_conn_keeps. intros e n o n' He H. apply bind_Some in H as ([s ob] & H & H').
  apply bind_Some in H' as (o' & _ & [= <- <-]). exact (HQ (SecureLeft e) _ _ _ He H).
Qed.

Lemma right_conn_keeps (Q : secure_system Msg K → Prop) r :
  (∀ (e : secure_event Msg) net net' ob, is_secure_call e = false → secure_step e net = Some (net', ob) → Q net → Q net') →
  (∀ m c x c', conn_Write (ReadWriter := secure_right_conn r) m c = Some (x, c') → Q c → Q c') ∧
  (∀ c x c', conn_Read (ReadWriter := secure_right_conn r) c = Some (x, c') → Q c → Q c').
Proof.
  intros HQ. apply channel_conn_keeps. intros e n o n' He H. apply bind_Some in H as ([s ob] & H & H').
  apply bind_Some in H' as (o' & _ & [= <- <-]). exact (HQ (SecureRight e) _ _ _ He H).
Qed.

Lemma secure_move_event t net net' :
  secure_move t net = Some net' → ∃ (e : secure_event Msg) ob, is_secure_call e = false ∧ secure_step e net = Some (net', ob).
Proof.
  intros (e & He & ([n ob] & Hs & ->)%fmap_Some)%bind_Some. exists e, ob. split; [|done].
  assert (∀ own peer nothing (ev : @session_event Msg), ends own peer nothing = Some ev → is_call ev = false) as Hends.
  { intros own peer nothing ev. unfold ends. destruct (closed own), (closed peer), nothing; simpl; by intros [= <-]. }
  destruct t as [[] segs]; cbn [secure_transport fst] in He; simplify_eq; try done;
    apply fmap_Some in He as (ev & He & ->); simpl; by eapply Hends.
Qed.
End Calls.

(** ** The channel is open on the left side, and not yet registered on the right one *)
Section Early.
Context {Msg K : Type} `{!ProtoMessage Channel.Message} `{!ProtoMessage Msg} `{NoiseCipher K}.
Context (c : Z) (P : Protocol Msg) (limit : Z).
Implicit Types (s : session Msg) (sys : SessionSystem.system Msg) (net : secure_system Msg K).

(** The session has made its channel, which its call registers next. *)
Definition registering s : Prop := channels s = ∅ ∧ calls s = [Registering 0] ∧ broker s = Selecting.

(** The session once this is done. *)
Definition register s : session Msg :=
  mkSession (factory s) {[c := 0%nat]} (opens s) (accepts s) (accepted s) (broker s) (Session.reader s) (objects s)
    [CallReturned (inl 0%nat)] (sent s) (done s) (closed s) (closer s).

Definition completed sys : SessionSystem.system Msg :=
  SessionSystem.mkSystem (left sys) (register (right sys)) (to_right sys) (to_left sys).

(** The messages [q12] are on their way to the right side, none to the left one. *)
Definition early_linked (q12 q21 : list Msg) (n e : Z) sys : Prop :=
  registering (right sys) ∧ linked c P 0 0 limit q12 q21 n e (completed sys) ∧ q21 = [].

Lemma register_step s h q d a :
  registering s → objects s !! 0%nat = Some (mkChannel h q d a) → ch_id h = c →
  session_step (StepCall 0 None) s = Some (register s, Silent).
Proof.
  intros (Hc & Hcalls & Hb) Ho H0. cbn [session_step]. unfold call_step. rewrite Hcalls. simpl.
  unfold broker_receive. rewrite Hb. simpl. rewrite Ho. simpl. rewrite Hc. unfold has. rewrite lookup_empty.
  rewrite bool_decide_eq_false_2 by (by intros [? [=]]). simpl. unfold register, set_call, set_maps. simpl. by rewrite Hcalls, H0.
Qed.

Lemma completed_left ev sys :
  SessionSystem.system_step (LeftStep ev) (completed sys) =
    prod_map completed id <$> SessionSystem.system_step (LeftStep ev) sys.
Proof. cbn [SessionSystem.system_step]. destruct (is_read ev); [done|]. simpl. by destruct (session_step ev (left sys)) as [[s o]|]. Qed.

Lemma left_step_other ev sys sys' ob :
  SessionSystem.system_step (LeftStep ev) sys = Some (sys', ob) → right sys' = right sys.
Proof.
  cbn [SessionSystem.system_step]. destruct (is_read ev); [done|].
  destruct (session_step ev (left sys)) as [[s o]|]; [|done]. by intros [= <- _].
Qed.

Lemma completed_left_reads sys :
  SessionSystem.system_step LeftReads (completed sys) = prod_map completed id <$> SessionSystem.system_step LeftReads sys.
Proof.
  cbn [SessionSystem.system_step]. change (to_left (completed sys)) with (to_left sys).
  destruct (to_left sys) as [|b rest]; [done|]. change (left (completed sys)) with (left sys).
  by destruct (session_step (ReadConn b) (left sys)) as [[s o]|].
Qed.

Lemma left_reads_other sys sys' ob :
  SessionSystem.system_step LeftReads sys = Some (sys', ob) → right sys' = right sys.
Proof.
  cbn [SessionSystem.system_step]. destruct (to_left sys) as [|b rest]; [done|].
  destruct (session_step (ReadConn b) (left sys)) as [[s o]|]; [|done]. by intros [= <- _].
Qed.

Lemma completed_Write m sys :
  conn_Write (ReadWriter := left_conn 0) m (completed sys) =
    prod_map id completed <$> conn_Write (ReadWriter := left_conn 0) m sys.
Proof.
  cbn [conn_Write left_conn channel_conn]. unfold call_result. rewrite completed_left.
  destruct (SessionSystem.system_step _ sys) as [[s [[]|[]]]|]; done.
Qed.

Lemma completed_Read sys :
  conn_Read (ReadWriter := left_conn 0) (completed sys) =
    prod_map id completed <$> conn_Read (ReadWriter := left_conn 0) sys.
Proof.
  cbn [conn_Read left_conn channel_conn]. unfold call_result. rewrite !completed_left.
  destruct (SessionSystem.system_step (LeftStep (ReadChannel 0)) sys) as [[s [[]|[]]]|];
    destruct (SessionSystem.system_step (LeftStep (ReadClosedChannel 0)) sys) as [[s' [[]|[]]]|]; done.
Qed.

Lemma left_write_other m sys x sys' :
  conn_Write (ReadWriter := left_conn 0) m sys = Some (x, sys') → right sys' = right sys.
Proof.
  cbn [conn_Write left_conn channel_conn]. unfold call_result.
  destruct (SessionSystem.system_step _ sys) as [[s [o|o]]|] eqn:Hs; try done.
  pose proof (left_step_other _ _ _ _ Hs). simpl. by destruct o; intros [= _ <-].
Qed.

#[export] Instance early_queue :
  QueueLike (RW := left_conn 0) limit (sendable c P) transports (λ q n e sys, early_linked q.2 q.1 n e sys).
Proof.
  split.
  - intros q n e sys m (Hr & Hl & Hq) Hlt Hm.
    destruct (ql_write (QueueLike := left_queue c P 0 0 limit) q n e (completed sys) m Hl Hlt Hm) as (s1 & HW & Hl1).
    rewrite completed_Write in HW. apply fmap_Some in HW as ([x s2] & HW & [= -> ->]). exists s2. split; [done|].
    split_and!; [|done|done]. by rewrite (left_write_other _ _ _ _ HW).
  - intros q n e sys x sys' (Hr & Hl & Hq) HR. exfalso.
    destruct (ql_read (QueueLike := left_queue c P 0 0 limit) q n e (completed sys) x (completed sys') Hl)
      as (m & q' & _ & Hq' & _); [by rewrite completed_Read, HR|congruence].
  - intros q n e sys m q' (Hr & Hl & Hq) Hq'. congruence.
Qed.

Lemma early_open q12 q21 n e sys :
  early_linked q12 q21 n e sys → e < limit → done (left sys) = false ∧ done (right sys) = false ∧
    closed (left sys) = false ∧ closed (right sys) = false.
Proof.
  intros (_ & Hl & _) He. destruct (linked_open _ _ _ _ _ _ _ _ _ _ Hl He) as [? ?].
  destruct Hl as (n1 & n2 & _ & _ & _ & Hd). destruct (Hd He). by split_and!.
Qed.

(** The steps of the connection, when the broker does not drop what is on its way. *)
Lemma early_transport q12 q21 n e sys t sys' :
  early_linked q12 q21 n e sys → e < limit → session_move t sys = Some sys' →
  (t = RightTakes → reads_wanted (right sys) = true) → early_linked q12 q21 (n - 1) e sys'.
Proof.
  intros Hearly He Hm Hw. destruct (early_open _ _ _ _ _ Hearly He) as (Dl & Dr & Cl & Cr).
  pose proof Hearly as ((Hch & Hcalls & Hb) & Hl & Hq).
  assert (session_move t (completed sys) = Some (completed sys') ∧ registering (right sys')) as [Hm' Hr'].
  2: { split_and!; [done| |done]. by eapply linked_transport. }
  unfold session_move in *. apply bind_Some in Hm as (ev & Hev & ([s1 ob] & Hs & ->)%fmap_Some). cbn [fst].
  assert (∀ own peer nothing, closed own = false → closed peer = false → ends (Msg := Msg) own peer nothing = None) as Hends.
  { intros own peer nothing E1 E2. unfold ends. by rewrite E1, E2. }
  destruct t; cbn [transport_event] in Hev |- *;
    try (rewrite Hends in Hev by done; discriminate Hev); injection Hev as <-; cbn [mbind option_bind].
  - rewrite completed_left_reads, Hs. simpl. by rewrite (left_reads_other _ _ _ Hs).
  - rewrite completed_left, Hs. simpl. by rewrite (left_step_other _ _ _ _ Hs).
  - rewrite completed_left, Hs. simpl. by rewrite (left_step_other _ _ _ _ Hs).
  - cbn [SessionSystem.system_step is_read session_step] in Hs. unfold broker_exit in Hs. by rewrite Dl in Hs.
  - cbn [SessionSystem.system_step] in *. simpl. destruct (to_right sys) as [|b rest]; [done|].
    cbn [session_step] in *. simpl. destruct (Session.reader (right sys)) eqn:Er; try done. simpl in *. by simplify_eq.
  - exfalso. specialize (Hw eq_refl). unfold reads_wanted in Hw.
    destruct Hl as (n1 & n2 & [(n0 & (Q & B & R & W & [_ _ _ H4 _] & _) & _) _ _ _] & _). cbn in H4.
    cbn [SessionSystem.system_step is_read session_step] in Hs. destruct R as [m|].
    + destruct H4 as (t & p & Hr & _). rewrite Hr in Hw. simpl in Hw. unfold has in Hw. rewrite Hch, lookup_empty in Hw.
      by apply bool_decide_eq_true in Hw as [? [=]].
    + destruct H4 as [Hr|[Hr _]]; by rewrite Hr in Hs.
  - cbn [SessionSystem.system_step is_read session_step] in Hs. by rewrite Hb in Hs.
  - cbn [SessionSystem.system_step is_read session_step] in Hs. unfold broker_exit in Hs. by rewrite Dr in Hs.
Qed.

(** *** Over the encrypted connection *)

Definition early_rel (q12 q21 : list Msg) (n e : Z) net : Prop :=
  ∃ sys, secured (Z.to_nat (limit - e)) net sys ∧ early_linked q12 q21 n e sys.

#[export] Instance early_left_queue :
  QueueLike (RW := secure_left_conn 0) limit (sendable c P) (λ net, ∃ t net', secure_move t net = Some net')
    (λ q n e net, early_rel q.2 q.1 n e net).
Proof.
  apply (side_queue c P limit SecureLeft LeftStep left_observation 0 (λ q n e sys, early_linked q.2 q.1 n e sys));
    try done; [apply early_queue|..].
  - intros q n e sys (_ & Hl & _). exact (linked_reads_open _ _ _ _ _ _ _ _ _ _ Hl).
  - intros q n e sys He Hlt. by destruct (early_open _ _ _ _ _ He Hlt) as (_ & _ & ? & ?).
  - intros q n e sys m sys' ob (_ & (n1 & n2 & _ & [(n0 & Hf & _) _ _ _] & _) & _) Hm Hs.
    cbn [SessionSystem.system_step is_read] in Hs. apply bind_Some in Hs as ([s o] & Hs & [= <- <-]).
    cbn [left right]. rewrite output_refl. split; [by eapply write_fits|constructor].
Qed.

Lemma early_rel_move q12 q21 n e net t net' :
  early_rel q12 q21 n e net → e < limit → secure_move t net = Some net' →
  (t.1 = RightTakes → reads_wanted (sess (s_right net)) = true) → early_rel q12 q21 (n - 1) e net'.
Proof.
  intros (sys & Hsec & Hl) He (ev & Hev & ([s ob] & Hs & ->)%fmap_Some)%bind_Some Hw. destruct t as [t segs].
  destruct (transport_quiet _ _ _ Hev) as [Hc _].
  destruct (quiet_step_refines _ _ _ _ _ _ Hsec Hc Hs) as (sys' & Hst & Hsec').
  exists sys'. split; [done|]. eapply (early_transport _ _ _ _ _ t); [exact Hl|done| |].
  - unfold session_move. rewrite <- (transport_agree _ t segs _ _ Hsec), Hev. simpl. by rewrite Hst.
  - cbn [fst] in Hw. by rewrite (sc_right _ _ _ Hsec).
Qed.

(** The right side registers the channel. *)
Lemma early_registers q12 q21 n e net :
  early_rel q12 q21 n e net → e < limit →
  ∃ net' ob, secure_step (SecureRight (StepCall 0 None)) net = Some (net', ob) ∧
    secure_rel c P 0 0 (limit - 1) q12 q21 n e net' ∧ calls (sess (s_left net')) = calls (sess (s_left net)) ∧
    opened (sess (s_right net')).
Proof.
  intros (sys & Hsec & Hearly) He. destruct (early_open _ _ _ _ _ Hearly He) as (Dl & Dr & Cl & Cr).
  pose proof Hearly as (Hr & Hl & Hq).
  assert (SessionSystem.system_step (RightStep (StepCall 0 None)) sys = Some (completed sys, inr Silent)) as Hs.
  { destruct Hl as (n1 & n2 & [(n0 & (Q & B & R & W & [_ H2 _ _ _] & _) & _) _ _ _] & _). cbn in H2.
    cbn [SessionSystem.system_step is_read]. erewrite register_step by (done || exact H2). simpl.
    rewrite output_same, app_nil_r by done. done. }
  destruct (secure_step_complete (Z.to_nat (limit - 1 - e)) (RightStep (StepCall 0 None))
    (SecureRight (StepCall 0 None)) net sys (completed sys) (inr Silent)) as (net' & Hn & Hsec'); try done.
  { eapply secured_le; [exact Hsec|]. change (secure_cost _) with 1%nat. lia. }
  { simpl. rewrite output_refl. constructor. }
  { simpl. rewrite output_same by done. constructor. }
  exists net', (inr Silent). split; [done|]. destruct Hsec as [El Er _ _], Hsec' as [El' Er' ? ?].
  split_and!; [|by rewrite <- El', <- El|by rewrite <- Er'].
  exists (completed sys). split; [by split|]. destruct Hl as (n1 & n2 & ? & ? & ? & Hd). exists n1, n2.
  split_and!; [done..|]. intros Hlt. apply Hd. lia.
Qed.
End Early.

(** ** The program is correct *)
Section Whole.
Context {F G K : Type} `{HF : FileReader F} `{HG : FileWriter G} `{NoiseCipher K}.
Context `{!ProtoMessage Channel.Message} `{!ProtoRoundTrip Channel.Message (λ _ _, True)}.
Context `{!ProtoMessage Transfer.Message}.
Context (d : bytes) (bs : Z) (meta : Metadata) (Hd : dims (zlen d) bs) (Hne : 0 < zlen d).
Context (wf : Metadata → Z → outcome (G + error)) (g0 : G) (c0 : bytes).
Context (Hwf : wf meta (zlen d) = Ret (inl g0)) (Hg0 : fw_holds g0 c0) (Hc0 : zlen c0 = zlen d).
Context (bo ba : bytes) (Fo : Secure.sendable bo) (Fa : Secure.sendable ba).
Context (Ho : Marshal (Channel.mkMessage (Some (Open 1 1))) = inl bo).
Context (Ha : Marshal (Channel.mkMessage (Some (Accept 1))) = inl ba).
Context (Hsend : ∀ i, 0 ≤ i → sendable 1 TransferProtocol (sender_msg d bs meta i)).
Context (Hrecv : ∀ i, 0 ≤ i → sendable 1 TransferProtocol (receiver_msg d bs i)).
Context (n : nat) (Hn : 8 * nblocks (zlen d) bs + 18 < Z.of_nat n).
Context (s0 : Sender.Sender F) (Hs0 : sender_at d bs meta 0 0 s0).
Context (r0 : Receiver.Receiver G) (Hr0 : receiver_at d bs 0 0 r0).
Abbreviation sclient := (client_of Sender.state_cell (@Sender.protocolDefinition F _)).
Abbreviation rclient := (client_of Receiver.state_cell (Receiver.protocolDefinition wf)).
Abbreviation program := (stack F G (secure_system Transfer.Message K)).
Abbreviation limit := (Z.of_nat n).
Abbreviation rel := (secure_rel 1 TransferProtocol 0 0 limit).
Abbreviation inv := (TransferSystem.inv d bs meta).
Abbreviation step := (program_steps sclient rclient).
Abbreviation transfer_step :=
  (stack_steps (secure_left_conn 0) (secure_right_conn 0) secure_move secure_left_finish secure_right_finish sclient rclient).
Abbreviation opening := (opening_at TransferProtocol bo ba n).
Abbreviation receiver_done l := (Protocol.IsDone Receiver.state_cell rclient (store l) = true).
Implicit Types (s : program) (net : secure_system Transfer.Message K).

(** *** The transfer over the open channel ([TransferSession]) *)

Abbreviation transferring k s := (stack_inv d bs meta wf limit rel k s).

Lemma transferring_step k s s' : transferring k s → transfer_step s s' → transferring (k + 1) s'.
Proof.
  apply (stack_inv_step (secure_left_conn 0) (secure_right_conn 0) secure_move secure_left_finish secure_right_finish
    d bs meta Hd Hne wf g0 c0 Hwf Hg0 Hc0 limit (sendable 1 TransferProtocol) rel); try done.
  - apply secure_left_queue.
  - apply secure_right_queue.
  - intros q12 q21 k' e x t x'. apply secure_rel_move.
  - intros q12 k' e x t x'. apply secure_left_finish_rel.
  - intros q21 k' e x t x'. apply secure_right_finish_rel.
Qed.

Lemma transferring_end k s :
  transferring k s → stuck transfer_step s →
  main (st_sender s) = Returned None ∧ main (st_receiver s) = Returned None ∧
  (∃ w, Receiver.writer (store (st_receiver s)) = Some w ∧ fw_holds (Writer.writer w) d) ∧
  secure_closed (st_net s).
Proof.
  intros Hi Hstuck.
  destruct (stack_stuck (secure_left_conn 0) (secure_right_conn 0) secure_move secure_left_finish secure_right_finish
    d bs meta Hd Hne wf limit (sendable 1 TransferProtocol) rel (secure_left_queue _ _ _ _ _)
    (secure_right_queue _ _ _ _ _) Hn Hsend Hrecv k s Hi Hstuck) as (? & ? & ? & Hf).
  split_and!; [done..|]. destruct Hi as (j & m & e & q12 & q21 & _ & Hrel & _). by eapply secure_rel_finished.
Qed.

(** Everything that a broker is given is for the channel. *)
Lemma flow_wanted {Msg} `{!ProtoMessage Msg} c (P : Protocol Msg) r q k (x : session Msg) wire :
  flow c P r q k x wire → reads_wanted x = true.
Proof.
  intros (Q & B & R & W & [H1 _ _ H4 _] & _). unfold reads_wanted. destruct R as [m|].
  - destruct H4 as (t & p & -> & _). simpl. unfold has. rewrite H1. by apply bool_decide_eq_true_2.
  - by destruct H4 as [->|[-> _]].
Qed.

Lemma transferring_wanted k s :
  transferring k s → reads_wanted (sess (s_left (st_net s))) = true ∧ reads_wanted (sess (s_right (st_net s))) = true.
Proof.
  intros (j & m & e & q12 & q21 & _ & (sys & [El Er _ _] & n1 & n2 & [(? & H1 & _) _ _ _] & [(? & H2 & _) _ _ _] & _) & _).
  rewrite <- El, <- Er. split; by eapply flow_wanted.
Qed.

(** *** The receiver while the sender has not started *)

Lemma sender_not_started j l q12 q21 :
  inv j (TransferSystem.mkSystem (Run_start s0) l q12 q21) →
  writing Receiver.state_cell rclient l = false ∧ ¬ receiver_done l.
Proof.
  intros (a & b & c & e & [Hord Hs Hr _ _ _ _ _]). simpl in *. pose proof (nblocks_nonneg _ _ Hd). destruct_ands.
  assert (a = 0) as ->.
  { pose proof (sa_state _ _ _ _ _ _ Hs) as E. rewrite (sa_state _ _ _ _ _ _ Hs0) in E. unfold sender_state in E.
    simpl in E. destruct (Z.eqb_spec a 0); [done|].
    destruct (a <=? _); [by destruct (c =? 0)|]. destruct (a =? _); [by destruct (c =? 0)|]. by destruct (c =? _). }
  assert (b = 0) as -> by lia. assert (e = 0) as -> by lia.
  assert (CanWrite Receiver.state_cell rclient (store l) = false) as Hcan.
  { rewrite (receiver_CanWrite d bs Hd wf 0 0 _ Hr) by lia. done. }
  split.
  - unfold writing, MustWrite. rewrite Hcan. by destruct (in_loop _ _ _).
  - rewrite (receiver_IsDone d bs Hd wf 0 0 _ Hr) by lia. by zcond.
Qed.

Lemma receiver_not_done : ¬ receiver_done (Run_start (Msg := Transfer.Message) r0).
Proof.
  pose proof (nblocks_nonneg _ _ Hd). simpl. rewrite (receiver_IsDone d bs Hd wf 0 0 _ Hr0) by lia. by zcond.
Qed.

(** *** The phases, after [k] steps *)

(** [OpenChannel] has not returned: the sender has not started.  When
    [AcceptChannel] has returned, the receiver runs and waits for it. *)
Definition opening_phase (k : Z) s : Prop :=
  ∃ p j, opening p (st_net s) ∧ lost p.2 = false ∧ p.1 ≠ OReturned ∧ st_sender s = Run_start s0 ∧
    (p.2 ≠ AReturned → st_receiver s = Run_start r0) ∧
    inv j (TransferSystem.mkSystem (st_sender s) (st_receiver s) [] []) ∧ 0 ≤ j ∧ k = Z.of_nat (rank p) + j.

(** [OpenChannel] has returned, and the other side has still to register the
    channel: the sender runs. *)
Definition early_phase (k : Z) s : Prop :=
  ∃ j m e q12, inv j (TransferSystem.mkSystem (st_sender s) (st_receiver s) q12 []) ∧ st_receiver s = Run_start r0 ∧
    early_rel 1 TransferProtocol (limit + 1) q12 [] m e (st_net s) ∧ opened (sess (s_left (st_net s))) ∧
    k + m ≤ 4 * j + 19 ∧ e ≤ j.

(** Both have returned. *)
Definition transfer_phase (k : Z) s : Prop := transferring (k - 12) s ∧ both_opened (st_net s).

Definition program_inv (k : Z) s : Prop := opening_phase k s ∨ early_phase k s ∨ transfer_phase k s.

(** *** The opening *)

(** A step of the opening. *)
Lemma opening_phase_next k s p j t p' net' :
  opening p (st_net s) → p.1 ≠ OReturned → st_sender s = Run_start s0 →
  (p.2 ≠ AReturned → st_receiver s = Run_start r0) →
  inv j (TransferSystem.mkSystem (st_sender s) (st_receiver s) [] []) → 0 ≤ j → k = Z.of_nat (rank p) + j →
  next t p = Some p' → lost p'.2 = false → opening p' net' →
  program_inv (k + 1) (mkStack (st_sender s) (st_receiver s) net').
Proof.
  intros Hat Hp Hs Hr Hi Hj -> Hnext Hlost Hat'.
  pose proof (next_rank _ _ _ (proj1 Hat) Hnext) as Hrank.
  assert (p'.2 ≠ AReturned → p.2 ≠ AReturned) as Hback by (destruct p as [x []], t, x; simpl in Hnext; simplify_eq/=; done).
  destruct (decide (p'.1 = OReturned)) as [E|E]; [|left; exists p', j; split_and!; simpl; auto; lia].
  right. pose proof Hat' as [Hposs Hsec]. destruct p' as [x y]. simpl in E. subst x.
  destruct y; try discriminate Hposs; simpl in Hposs.
  - left. exists j, 8, 0, []. split_and!; [done|apply Hr, Hback; done| | |change (rank (OReturned, AAnswered)) with 11%nat in Hrank; lia|done].
    + exists (system_at TransferProtocol bo ba (OReturned, AAnswered)). split.
      * eapply secured_le; [exact Hsec|]. unfold rank. simpl. lia.
      * split; [by split_and!|]. split; [|done]. apply (established_linked 1 TransferProtocol (limit + 1)).
        split; [..|done|done]; split; try done; by split_and!.
    + simpl. destruct Hsec as [<- _ _ _]. done.
  - right. destruct (opening_at_opened _ _ _ _ _ Hat') as (He & Hl & Hr'). split; [|done].
    exists j, 8, 0, [], []. split_and!; [done|by apply secure_established_rel| | |left; done].
    + change (rank (OReturned, AReturned)) with 12%nat in Hrank. lia.
    + lia.
Qed.

(** The sessions do nothing else while they open a channel. *)
Lemma opening_other p net ev :
  opening p net → ev = Deliver ∨ ev = ExitBroker →
  secure_step (SecureLeft ev) net = None ∧ secure_step (SecureRight ev) net = None.
Proof.
  intros [Hp [El Er _ _]] Hev.
  assert (side_step ev (s_left net) = None ∧ side_step ev (s_right net) = None) as [E1 E2].
  { split; apply no_side_step; [rewrite <- El|rewrite <- Er]; destruct p as [x y], Hev as [-> | ->];
      destruct x, y; try discriminate Hp; reflexivity. }
  destruct Hev as [-> | ->]; cbn [secure_step allowed]; by rewrite ?E1, ?E2.
Qed.

Lemma opening_move_event p net t net' :
  opening p net → secure_move t net = Some net' →
  ∃ mv ob, secure_step (secure_opening_event (mv, t.2)) net = Some (net', ob) ∧
    (in_time mv (sess (s_left net)) (sess (s_right net)) =
       keeps (Runs (TransportEvent t)) net).
Proof.
  intros Hat (e & He & ([n1 ob] & Hs & ->)%fmap_Some)%bind_Some. cbn [fst].
  pose proof Hat as [Hp [El Er _ _]].
  destruct (opening_other p net Deliver Hat (or_introl eq_refl)) as [D1 D2].
  destruct (opening_other p net ExitBroker Hat (or_intror eq_refl)) as [X1 X2].
  assert (closed (sess (s_left net)) = false ∧ closed (sess (s_right net)) = false) as [Cl Cr].
  { rewrite <- El, <- Er. by destruct p as [[] []]. }
  destruct t as [t segs]. destruct t; cbn [secure_transport fst snd] in He |- *;
    unfold ends in He; rewrite ?Cl, ?Cr in He; simpl in He; simplify_eq.
  - by exists OpenerReads, ob.
  - by exists OpenerTakes, ob.
  - by exists AcceptorReads, ob.
  - by exists AcceptorTakes, ob.
Qed.

Lemma opening_channels p net :
  opening p net →
  channel_of (sess (s_left net)) = (if decide (p.1 = OReturned) then Some 0%nat else None) ∧
  channel_of (sess (s_right net)) = (if decide (p.2 = AReturned) then Some 0%nat else None).
Proof. intros [Hp [<- <- _ _]]. by destruct p as [[] []]. Qed.

(** The receiver has nothing to read, *)
Lemma receiver_waits p net :
  opening p net → p.2 = AReturned → conn_Read (ReadWriter := secure_right_conn 0) net = None.
Proof.
  intros [Hp [_ Er _ _]] Hy. cbn [conn_Read secure_right_conn channel_conn secure_step allowed].
  assert (∀ ev, ev = ReadChannel 0 ∨ ev = ReadClosedChannel 0 → side_step ev (s_right net) = None) as Hnone.
  { intros ev Hev. apply no_side_step. rewrite <- Er. destruct p as [x y]. simpl in Hy. subst y. by destruct Hev as [-> | ->]. }
  rewrite !Hnone by auto. done.
Qed.

(** and as it writes nothing, its connection stays as it is. *)
Lemma receiver_idle p net :
  opening p net → p.2 = AReturned →
  QueueLike (RW := secure_right_conn 0) 0 (λ _ : Transfer.Message, False)
    (λ x : secure_system Transfer.Message K, ∃ t x', secure_move t x = Some x')
    (λ q _ _ x, q = ([], []) ∧ x = net).
Proof.
  intros Hat Hy. split.
  - done.
  - intros q m e x y x' [-> ->] Hr. by rewrite (receiver_waits p net Hat Hy) in Hr.
  - intros q m e x y q' [-> _]. done.
Qed.

Lemma opening_phase_receives k s p j ev l net' :
  opening p (st_net s) → p.2 = AReturned → lost p.2 = false → p.1 ≠ OReturned → st_sender s = Run_start s0 →
  inv j (TransferSystem.mkSystem (st_sender s) (st_receiver s) [] []) → 0 ≤ j → k = Z.of_nat (rank p) + j →
  loop_step (ReadWriter0 := secure_right_conn 0) Receiver.state_cell rclient ev (st_receiver s, st_net s) = Some (l, net') →
  opening_phase (k + 1) (mkStack (st_sender s) l net').
Proof.
  intros Hat Hy Hlost Hp Hs Hi Hj -> Hst. pose proof Hi as Hi'. rewrite Hs in Hi'.
  destruct (sender_not_started _ _ _ _ Hi') as [Hw _].
  assert (writing Receiver.state_cell rclient (st_receiver s) = true → 0 < 0) as Hlim by (by rewrite Hw).
  assert (writes_sendable (λ _, False) Receiver.state_cell rclient (st_receiver s)) as Hno by (intros E; by rewrite Hw in E).
  destruct (loop_step_queues (QueueLike0 := receiver_idle p (st_net s) Hat Hy) Receiver.state_cell rclient ev _ _ _ _
    ([], []) 0 0 (conj eq_refl eq_refl) Hlim Hno Hst) as (q & m & e & Hq & [-> ->] & _).
  exists p, (j + 1). simpl. split_and!; [done|done|done|done|by rewrite Hy| |lia|lia].
  eapply (system_inv d bs meta Hd Hne wf g0 c0 Hwf Hg0 Hc0); [exact Hi|]. exists (inr ev).
  cbn [TransferSystem.system_step sender receiver to_sender to_receiver]. by rewrite Hq.
Qed.

Lemma opening_phase_step k s s' : opening_phase k s → step s s' → program_inv (k + 1) s'.
Proof.
  intros (p & j & Hat & Hlost & Hp & Hs & Hr & Hi & Hj & Hk) (ev & Hkeep & Hst).
  destruct (opening_channels _ _ Hat) as [Cl Cr]. rewrite decide_False in Cl by done.
  assert (∀ mv segs net' ob, in_time mv (sess (s_left (st_net s))) (sess (s_right (st_net s))) = true →
    secure_step (secure_opening_event (mv, segs)) (st_net s) = Some (net', ob) →
    program_inv (k + 1) (mkStack (st_sender s) (st_receiver s) net')) as Hopen.
  { intros mv segs net' ob Ht Hst'.
    destruct (opening_at_step TransferProtocol bo ba eq_refl Ho Ha Fo Fa n p (mv, segs) _ _ _ Hat Hst') as (p' & Hnext & Hat').
    eapply opening_phase_next; try done. cbn [fst] in Hnext.
    rewrite (opening_at_in_time TransferProtocol bo ba eq_refl n p mv p' _ Hat Hnext), Hlost in Ht.
    by destruct (lost p'.2). }
  destruct ev as [| |ev]; cbn [program_step] in Hst.
  - apply bind_Some in Hst as ([net' ob] & Hst & [= <-]). by apply (Hopen OpenerCalls [] _ ob).
  - apply bind_Some in Hst as ([net' ob] & Hst & [= <-]). by apply (Hopen AcceptorCalls [] _ ob).
  - destruct ev as [ev|ev|t|f|f]; cbn [channel_for] in Hst; rewrite ?Cl, ?Cr in Hst; try done.
    + case_decide as Hy; [|done]. simpl in Hst. apply bind_Some in Hst as ([l net'] & Hst & [= <-]).
      left. by eapply opening_phase_receives.
    + simpl in Hst. apply bind_Some in Hst as (net' & Hst & [= <-]).
      destruct (opening_move_event _ _ _ _ Hat Hst) as (mv & ob & Hst' & Ht). rewrite Hkeep in Ht. by eapply Hopen.
    + case_decide as Hy; [|done]. simpl in Hst. unfold run_ok in Hst.
      destruct (main (st_receiver s)) as [|[|]| |] eqn:Hm; try done.
      destruct (inv_returned d bs meta Hd wf _ _ Hi) as [_ Hdone]. destruct (Hdone Hm) as [_ Hdone'].
      rewrite Hs in Hi. by destruct (sender_not_started _ _ _ _ Hi).
Qed.

(** *** The sender before the channel is registered *)

Lemma early_phase_calls q12 q21 m e net :
  early_rel 1 TransferProtocol (limit + 1) q12 q21 m e net → calls (sess (s_right net)) = [Registering 0].
Proof. intros (sys & [_ <- _ _] & (_ & ? & _) & _). done. Qed.

Lemma early_phase_step k s s' : early_phase k s → step s s' → program_inv (k + 1) s'.
Proof.
  intros (j & m & e & q12 & Hi & Hr & Hrel & Hopen & Hk & He) (ev & Hkeep & Hst). right.
  pose proof (inv_bound d bs meta _ _ Hi) as Hb. pose proof (early_phase_calls _ _ _ _ _ Hrel) as Hcalls.
  assert (e < limit + 1) as Hlt by lia.
  assert (channel_of (sess (s_right (st_net s))) = None) as Cr by (unfold channel_of; by rewrite Hcalls).
  assert (channel_of (sess (s_left (st_net s))) = Some 0%nat) as Cl by (unfold channel_of; by rewrite Hopen).
  destruct ev as [| |ev]; cbn [program_step] in Hst.
  - apply bind_Some in Hst as ([net' ob] & Hst & _). cbn [secure_step allowed] in Hst.
    rewrite no_side_step in Hst; [done|]. by apply opened_no_call.
  - apply bind_Some in Hst as ([net' ob] & Hst & [= <-]). right.
    destruct (early_registers _ _ _ _ _ _ _ _ Hrel Hlt) as (net1 & ob1 & Hst' & Hrel' & Hl & Hr'). simplify_eq.
    split; [|split; [by unfold opened; simpl; rewrite Hl|done]].
    exists j, m, e, q12, []. replace (limit + 1 - 1) with limit in Hrel' by lia.
    split_and!; [done|done|lia|lia|by left].
  - destruct ev as [ev|ev|t|f|f]; cbn [channel_for] in Hst; rewrite ?Cl, ?Cr in Hst; try done; simpl in Hst.
    + apply bind_Some in Hst as ([l net'] & Hst & [= <-]). left.
      destruct (inv_writes_sendable d bs meta Hd Hne wf _ Hsend Hrecv _ _ Hi) as [Hws _]. cbn [sender] in Hws.
      destruct (loop_step_queues (QueueLike0 := early_left_queue 1 TransferProtocol (limit + 1)) Sender.state_cell sclient
        ev _ _ _ _ ([], q12) m e Hrel (λ _, Hlt) Hws Hst) as (q & m' & e' & Hq & Hrel' & Hm & He').
      assert (q.1 = []) as Eq by (by destruct Hrel' as (sys & _ & _ & _ & ?)).
      rewrite Eq in Hrel'. exists (j + 1), m', e', q.2. split_and!; [|done|done| |lia|lia].
      * rewrite <- Eq. eapply (system_inv d bs meta Hd Hne wf g0 c0 Hwf Hg0 Hc0); [exact Hi|]. exists (inl ev).
        cbn [TransferSystem.system_step sender receiver to_sender to_receiver]. by rewrite Hq.
      * destruct (left_conn_keeps (λ x, opened (sess (s_left x))) 0) as [Kw Kr].
        { intros e1 x x' ob He1 Hx. unfold opened. by destruct (secure_calls_kept _ _ _ _ He1 Hx) as [-> _]. }
        simpl. by eapply (loop_step_keeps (ReadWriter0 := secure_left_conn 0) _ _ _ _ _ _ _ _ Kw Kr Hst).
    + apply bind_Some in Hst as (net' & Hst & [= <-]). left.
      exists j, (m - 1), e, q12. split_and!; [done|done| | |lia|done].
      * eapply early_rel_move; [exact Hrel|done|exact Hst|]. intros Ht. by destruct t as [[] segs].
      * destruct (secure_move_event _ _ _ Hst) as (e1 & ob & He1 & Hx). unfold opened. simpl.
        by destruct (secure_calls_kept _ _ _ _ He1 Hx) as [-> _].
    + unfold run_ok in Hst. destruct (main (st_sender s)) as [|[|]| |] eqn:Hm; try done.
      destruct (inv_returned d bs meta Hd wf _ _ Hi) as [Hdone _]. destruct (Hdone Hm) as [_ Hdone'].
      simpl in Hdone'. rewrite Hr in Hdone'. by destruct receiver_not_done.
Qed.

(** *** The transfer *)

Lemma transfer_phase_step k s s' : transfer_phase k s → step s s' → program_inv (k + 1) s'.
Proof.
  intros [Hi [Ol Or]] (ev & _ & Hst). right. right.
  assert (∀ r e, channel_for e (st_net s) = Some r → r = 0%nat) as Hch.
  { intros r e. destruct e; cbn [channel_for]; unfold channel_of; rewrite ?Ol, ?Or; by intros [= <-]. }
  assert (∀ (e : secure_event Transfer.Message) net net' ob, is_secure_call e = false → secure_step e net = Some (net', ob) →
    both_opened net → both_opened net') as Hkeep by (intros; by eapply both_opened_kept).
  destruct ev as [| |ev]; cbn [program_step] in Hst.
  1, 2: apply bind_Some in Hst as ([net' ob] & Hst & _); cbn [secure_step allowed] in Hst;
    rewrite no_side_step in Hst; [done|by apply opened_no_call].
  apply bind_Some in Hst as (r & ->%Hch & Hst). split.
  - replace (k + 1 - 12) with (k - 12 + 1) by lia. eapply transferring_step; [exact Hi|by exists ev].
  - assert (both_opened (st_net s)) as Hb by done. destruct ev as [ev|ev|t|f|f]; cbn [stack_step] in Hst.
    + apply bind_Some in Hst as ([l net'] & Hst & [= <-]). destruct (left_conn_keeps both_opened 0 Hkeep) as [Kw Kr].
      by eapply (loop_step_keeps (ReadWriter0 := secure_left_conn 0) _ _ _ _ _ _ _ _ Kw Kr Hst).
    + apply bind_Some in Hst as ([l net'] & Hst & [= <-]). destruct (right_conn_keeps both_opened 0 Hkeep) as [Kw Kr].
      by eapply (loop_step_keeps (ReadWriter0 := secure_right_conn 0) _ _ _ _ _ _ _ _ Kw Kr Hst).
    + apply bind_Some in Hst as (net' & Hst & [= <-]). destruct (secure_move_event _ _ _ Hst) as (e1 & ob & He1 & Hx).
      by eapply Hkeep.
    + destruct (run_ok _); [|done]. apply bind_Some in Hst as (net' & ([x ob] & Hx & ->)%fmap_Some & [= <-]).
      eapply (Hkeep (SecureLeft (finish_event f))); [by destruct f|exact Hx|done].
    + destruct (run_ok _); [|done]. apply bind_Some in Hst as (net' & ([x ob] & Hx & ->)%fmap_Some & [= <-]).
      eapply (Hkeep (SecureRight (finish_event f))); [by destruct f|exact Hx|done].
Qed.

Lemma program_inv_step k s s' : program_inv k s → step s s' → program_inv (k + 1) s'.
Proof.
  intros [Hi|[Hi|Hi]]; eauto using opening_phase_step, early_phase_step, transfer_phase_step.
Qed.

(** *** The end *)

Lemma program_inv_bound k s : program_inv k s → k ≤ 4 * (8 * nblocks (zlen d) bs + 18) + 20.
Proof.
  pose proof (nblocks_nonneg _ _ Hd).
  intros [(p & j & Hat & _ & _ & _ & _ & Hi & Hj & ->)|[(j & m & e & q12 & Hi & _ & Hrel & _ & Hk & _)|[Hi _]]].
  - pose proof (rank_bound p). pose proof (inv_bound d bs meta _ _ Hi). lia.
  - pose proof (inv_bound d bs meta _ _ Hi). destruct Hrel as (sys & _ & _ & Hm%linked_nonneg & _). lia.
  - pose proof (stack_inv_bound d bs meta wf limit rel) as Hb. apply Hb in Hi; [lia|].
    intros q12 q21 m e x (sys & _ & Hl). by eapply linked_nonneg.
Qed.

Lemma program_inv_main k s :
  program_inv k s →
  (main (st_sender s) = Running ∨ main (st_sender s) = Returned None) ∧
  (main (st_receiver s) = Running ∨ main (st_receiver s) = Returned None).
Proof.
  intros [(p & j & _ & _ & _ & _ & _ & Hi & _)|[(j & m & e & q12 & Hi & _)|[(j & m & e & q12 & q21 & Hi & _) _]]];
    exact (inv_main d bs meta _ _ Hi).
Qed.

(** A program that cannot go on has finished the transfer. *)
Lemma opening_phase_goes_on k s : opening_phase k s → ¬ stuck step s.
Proof.
  intros (p & j & Hat & Hlost & Hp & _) Hstuck.
  destruct (timely_exists TransferProtocol bo ba eq_refl Ho Ha Fo Fa n p _ Hat Hlost)
    as ([mv segs] & p' & net' & ob & Ht & _ & Hst & _); [by intros ->|]. cbn [fst] in Ht.
  eapply (Hstuck (mkStack (st_sender s) (st_receiver s) net')).
  destruct mv; [exists SenderCalls|exists (Runs (TransportEvent (LeftReceives, segs)))
    |exists (Runs (TransportEvent (LeftTakes, segs)))|exists ReceiverCalls
    |exists (Runs (TransportEvent (RightReceives, segs)))|exists (Runs (TransportEvent (RightTakes, segs)))];
    (split; [done|]); cbn [program_step channel_for mbind option_bind stack_step]; unfold secure_move;
    cbn [secure_transport fst snd mbind option_bind]; cbn [secure_opening_event fst snd] in Hst; by rewrite Hst.
Qed.

Lemma early_phase_goes_on k s : early_phase k s → ¬ stuck step s.
Proof.
  intros (j & m & e & q12 & Hi & _ & Hrel & _ & _ & He) Hstuck. pose proof (inv_bound d bs meta _ _ Hi).
  destruct (early_registers _ _ _ _ _ _ _ _ Hrel) as (net' & ob & Hst & _); [lia|].
  eapply (Hstuck (mkStack (st_sender s) (st_receiver s) net')). exists ReceiverCalls. split; [done|].
  cbn [program_step]. by rewrite Hst.
Qed.

Lemma program_end k s :
  program_inv k s → stuck step s →
  main (st_sender s) = Returned None ∧ main (st_receiver s) = Returned None ∧
  (∃ w, Receiver.writer (store (st_receiver s)) = Some w ∧ fw_holds (Writer.writer w) d) ∧
  secure_closed (st_net s).
Proof.
  intros [Hi|[Hi|[Hi [Ol Or]]]] Hstuck; [by destruct (opening_phase_goes_on _ _ Hi Hstuck)
    |by destruct (early_phase_goes_on _ _ Hi Hstuck)|].
  eapply transferring_end; [exact Hi|]. intros s' [ev Hev]. destruct (transferring_wanted _ _ Hi) as [Wl Wr].
  eapply (Hstuck s'). exists (Runs ev). split.
  - destruct ev as [| |[[] segs]| |]; done.
  - cbn [program_step]. replace (channel_for ev (st_net s)) with (Some 0%nat); [done|].
    destruct ev; cbn [channel_for]; unfold channel_of; by rewrite ?Ol, ?Or.
Qed.

(** From the two calls on. *)
Lemma program_runs net k s :
  opening (OCalled, ACalled) net →
  steps_n step k (mkStack (Run_start s0) (Run_start r0) net) s →
  Z.of_nat k ≤ 4 * (8 * nblocks (zlen d) bs + 18) + 20 ∧
  (main (st_sender s) = Running ∨ main (st_sender s) = Returned None) ∧
  (main (st_receiver s) = Running ∨ main (st_receiver s) = Returned None) ∧
  (stuck step s →
     main (st_sender s) = Returned None ∧ main (st_receiver s) = Returned None ∧
     (∃ w, Receiver.writer (store (st_receiver s)) = Some w ∧ fw_holds (Writer.writer w) d) ∧
     secure_closed (st_net s)).
Proof.
  intros Hat Hk.
  assert (program_inv 0 (mkStack (Run_start s0) (Run_start r0) net)) as H0.
  { left. exists (OCalled, ACalled), 0. split_and!; try done. by apply inv_start. }
  pose proof (steps_n_count _ _ program_inv_step _ _ _ Hk 0 H0) as Hi. rewrite Z.add_0_l in Hi.
  destruct (program_inv_main _ _ Hi). split_and!; [exact (program_inv_bound _ _ Hi)|done|done|exact (program_end _ _ Hi)].
Qed.
End Whole.
