(* ===== verification/TransferSafety.v ===== *)
(** * TransferSafety: a transfer with a peer that does anything

    What each side of a transfer guarantees whatever messages it is given in
    whatever order, and the places where a message of the peer brings a side
    into a panic or into a state it should not be in. *)

From S2P Require Import Prelude GoSem Channel Sha256 Files Block BlockProps.
From S2P Require Import Automaton Protocol Transfer TransferProps Loop.

Local Open Scope Z_scope.

(** ** Message types *)

(** The type of a message determines the message: [NewMessage] of the raw
    type of a message makes a message of that type, and gives an error exactly
    for the numbers that are no message type; [TypeOf] panics exactly for
    messages that are not of the protocol. *)
Theorem transfer_message_types :
  (∀ m t, TransferRawTypeOf m = Ret t →
     ∃ m', TransferNewMessage t = (Some m', None) ∧ TransferRawTypeOf m' = Ret t) ∧
  (∀ t, TransferNewMessage t = (None, Some UnexpectedMessageType) ↔
     ∀ m, TransferRawTypeOf m ≠ Ret t) ∧
  (∀ m, TransferTypeOf m = Panic (PanicError IllegalRootMessageType) ↔ m = OtherMessage).
Proof.
  assert (∀ m t, TransferRawTypeOf m = Ret t →
     ∃ m', TransferNewMessage t = (Some m', None) ∧ TransferRawTypeOf m' = Ret t) as H1.
  { intros [] t; intros [= <-]; eexists; split; reflexivity. }
  split; [done|]. split.
  - intros t. split.
    + intros Hn m Hm. apply H1 in Hm as (m' & Hm & _). congruence.
    + intros Hno. unfold TransferNewMessage.
      repeat (case_goal; zbool; [exfalso; subst|]); [..|done];
        by eapply Hno; first [apply (eq_refl : TransferRawTypeOf (Header None 0 0) = _)
          | apply (eq_refl : TransferRawTypeOf Acknowledge = _)
          | apply (eq_refl : TransferRawTypeOf (BlockMsg None) = _)
          | apply (eq_refl : TransferRawTypeOf (BlockReceived 0) = _)
          | apply (eq_refl : TransferRawTypeOf (RedoBlock 0) = _)
          | apply (eq_refl : TransferRawTypeOf (DataSent []) = _)
          | apply (eq_refl : TransferRawTypeOf DataReceived = _)
          | apply (eq_refl : TransferRawTypeOf (Abort 0) = _)].
  - intros []; split; by (intros; discriminate || done).
Qed.

(** ** The receiver *)
Section Receiver.
Context {F : Type} `{FW : FileWriter F} (wf : Metadata → Z → outcome (F + error)).
Context (Hwf : ∀ meta total f, wf meta total = Ret (inl f) → ∃ c, fw_holds f c ∧ zlen c = total).
Abbreviation client := (client_of Receiver.state_cell (Receiver.protocolDefinition wf)).
Implicit Types r : Receiver.Receiver F.

(** The states from which the receiver only confirms the transfer. *)
Definition final_states : list State := [Receiver.needDataSent; Receiver.sendDataReceived; done_].

(** In these states every block has been written. *)
Definition complete r : Prop :=
  Receiver.state r ∈ final_states →
  ∃ w, Receiver.writer r = Some w ∧ Writer.IsDone w = Ret true.

Lemma not_final_complete r : Receiver.state r ∉ final_states → complete r.
Proof. by intros ? ?. Qed.

Lemma to_complete key (t : Transition (DoHandler Message (Receiver.Receiver F))) i r out err r'
    (h : TransitionHandlerFactory) :
  To t ≠ NoState → To t ∉ final_states →
  compiled (In := Message) (Out := Message) Receiver.state_cell h key t i r = (Ret (out, err), r') →
  complete r'.
Proof.
  intros Hto Hnf H. apply not_final_complete. unfold compiled in H.
  apply (invoker_To Receiver.state_cell) in H; [|done]. simpl in H. by rewrite H.
Qed.

(** The handler at [handleBlock] moves to a final state only with a full writer. *)
Lemma writeHandleBlock_complete r hd out err r' hd' :
  mutated hd = false →
  Receiver.writeHandleBlock (r, hd) = (Ret (out, err), (r', hd')) → complete r'.
Proof.
  intros Hm H. unfold Receiver.writeHandleBlock in H.
  apply bind_Ret_iff in H as (last & s1 & [= <- <-] & H).
  apply bind_Ret_iff in H as (redo & s1 & [= <- <-] & H).
  apply bind_Ret_iff in H as (msg & [r1 hd1] & Hmsg & H).
  assert (hd1 = hd) as ->.
  { simpl in Hmsg. unfold mbind, M_bind, Receiver.update, modify, mret, M_ret, lift in Hmsg.
    repeat case_match; simplify_eq/=; done. }
  apply bind_Ret_iff in H as (redo & s1 & [= <- <-] & H).
  apply bind_Ret_iff in H as ([] & [r2 hd2] & Hset & [= <- <- <- <-]).
  simpl in Hset. destruct (negb (is_nil (Receiver.redoBlocks r1))).
  - apply (Set_inv Receiver.state_cell) in Hset as [-> _]. apply not_final_complete. simpl.
    apply (bool_decide_unpack _). exact I.
  - apply bind_Ret_iff in Hset as (isDone & [r3 hd3] & Hdone & Hset).
    unfold Receiver.writer_IsDone in Hdone. apply bind_Ret_iff in Hdone as (w & s1 & [= <- <-] & Hdone).
    simpl in Hdone. destruct (Receiver.writer r1) as [w|] eqn:Ew; [|discriminate].
    injection Hdone as Hdone <- <-. destruct isDone.
    + apply (Set_inv Receiver.state_cell) in Hset as [-> _]. intros _. exists w. done.
    + apply (Set_inv Receiver.state_cell) in Hset as [-> _]. apply not_final_complete. simpl.
      apply (bool_decide_unpack _). exact I.
Qed.

(** The blocks among the messages. *)
Definition offered (ms : list Message) : list Block :=
  omap (λ m, match m with BlockMsg b => b | _ => None end) ms.

(** The writer is for the file that a header has announced, and the blocks it
    holds are among those that were offered. *)
Definition stores (ms : list Message) (w : Writer.Writer F) : Prop :=
  ∃ meta total bs, Header (Some meta) total bs ∈ ms ∧
    (dims total bs → ∃ c m, writer_rep total bs w c m ∧ blocks_from (offered ms) m).

Definition stored (ms : list Message) r : Prop := ∀ w, Receiver.writer r = Some w → stores ms w.

Lemma stores_more ms m w : stores ms w → stores (ms ++ [m]) w.
Proof.
  intros (meta & total & bs & Hin & Hrep). exists meta, total, bs. split; [apply elem_of_app; by left|].
  intros Hd. destruct (Hrep Hd) as (c & st & Hst & Hbl). exists c, st. split; [done|].
  intros i x (b & Hb & ?)%Hbl. exists b. split; [|done]. unfold offered. rewrite omap_app. apply elem_of_app. by left.
Qed.

Lemma stored_same ms r r' : Receiver.writer r' = Receiver.writer r → stored ms r → stored ms r'.
Proof. unfold stored. by intros ->. Qed.

Lemma readHeader_stored ms m r hd err r' hd' :
  stored ms r → Receiver.readHeader wf m (r, hd) = (Ret err, (r', hd')) → stored (ms ++ [m]) r'.
Proof.
  intros Hst H. assert (Receiver.writer r' = Receiver.writer r → stored (ms ++ [m]) r') as Hsame.
  { intros E w Hw. apply stores_more, Hst. congruence. }
  unfold Receiver.readHeader in H. destruct m as [[meta|] total bs| | | | | | | |]; try discriminate;
    [|by injection H as <- <- <-; apply Hsame].
  destruct (bs =? 0); [by injection H as <- <- <-; apply Hsame|].
  apply bind_Ret_iff in H as (file & s1 & Hf & H). unfold lift in Hf. injection Hf as Hf <-.
  destruct file as [f|e]; [|by injection H as <- <- <-; apply Hsame].
  apply bind_Ret_iff in H as (w & s1 & Hw & H). unfold lift in Hw. injection Hw as Hw <-.
  injection H as <- <- <-. intros w' [= <-]. exists meta, total, bs. split; [apply elem_of_app; right; by left|].
  intros Hd. destruct (Hwf meta total f Hf) as (c & Hc & Hlen).
  destruct (NewWriter_rep total bs Hd f c Hc Hlen) as (w' & Hw' & Hrep). rewrite Hw in Hw'. injection Hw' as <-.
  exists c, ∅. split; [done|]. by intros i x.
Qed.

Lemma readBlock_stored ms m r hd err r' hd' :
  stored ms r → Receiver.readBlock m (r, hd) = (Ret err, (r', hd')) → stored (ms ++ [m]) r'.
Proof.
  intros Hst H. unfold Receiver.readBlock in H. destruct m as [| |ob| | | | | |]; try discriminate.
  apply bind_Ret_iff in H as (e & [r1 hd1] & HW & H). unfold Receiver.writer_WriteBlock in HW.
  apply bind_Ret_iff in HW as (ow & s1 & [= <- <-] & HW). simpl in HW.
  destruct (Receiver.writer r) as [w|] eqn:Ew; [|discriminate]. destruct ob as [b|]; [|discriminate].
  destruct (Writer.WriteBlock b w) as [e' w'] eqn:HB.
  apply seq_Ret_iff in HW as (s1 & [= <-] & HW). unfold lift in HW. injection HW as -> <- <-.
  assert (Receiver.writer r' = Some w') as Hr'.
  { unfold Receiver.update, modify, Receiver.field, gets, throw, mret, M_ret, mbind, M_bind, lift in H.
    repeat (case_match; simplify_eq/=; try done). }
  intros w1. rewrite Hr'. intros [= <-]. destruct (Hst w Ew) as (meta & total & bs & Hin & Hrep).
  exists meta, total, bs. split; [apply elem_of_app; by left|]. intros Hd. destruct (Hrep Hd) as (c & st & Hc & Hbl).
  unfold offered. rewrite omap_app. simpl.
  assert (∀ st' : gmap Z bytes, blocks_from (b :: offered ms) st' → blocks_from (offered ms ++ [b]) st') as Hperm.
  { intros st' Hst' i x (b' & Hb' & ?)%Hst'. exists b'. split; [|done]. by rewrite <- Permutation_cons_append. }
  destruct (WriteBlock_cases total bs Hd w c st b e w' Hc HB) as [[_ ->]|(_ & Hck & _ & c' & Hc')].
  - exists c, st. split; [done|]. by apply Hperm, blocks_from_cons.
  - exists c', (<[Index b := Block.Data b]> st). split; [done|]. by apply Hperm, blocks_from_insert.
Qed.

Lemma writeHandleBlock_writer r hd out err r' hd' :
  Receiver.writeHandleBlock (r, hd) = (Ret (out, err), (r', hd')) → Receiver.writer r' = Receiver.writer r.
Proof.
  intros H. unfold Receiver.writeHandleBlock in H.
  apply bind_Ret_iff in H as (last & s1 & [= <- <-] & H).
  apply bind_Ret_iff in H as (redo & s1 & [= <- <-] & H).
  apply bind_Ret_iff in H as (msg & [r1 hd1] & Hmsg & H).
  assert (Receiver.writer r1 = Receiver.writer r) as <-.
  { simpl in Hmsg. unfold mbind, M_bind, Receiver.update, modify, mret, M_ret, lift in Hmsg.
    repeat case_match; simplify_eq/=; done. }
  apply bind_Ret_iff in H as (redo & s1 & [= <- <-] & H).
  apply bind_Ret_iff in H as ([] & [r2 hd2] & Hset & [= <- <- <- <-]).
  simpl in Hset. destruct (negb (is_nil (Receiver.redoBlocks r1))).
  - by apply (Set_inv Receiver.state_cell) in Hset as [-> _].
  - apply bind_Ret_iff in Hset as (isDone & [r3 hd3] & Hdone & Hset).
    unfold Receiver.writer_IsDone in Hdone. apply bind_Ret_iff in Hdone as (w & s1 & [= <- <-] & Hdone).
    simpl in Hdone. destruct (Receiver.writer r1) as [w|] eqn:Ew; [|discriminate].
    injection Hdone as Hdone <- <-. destruct isDone; apply (Set_inv Receiver.state_cell) in Hset as [-> _]; exact Ew.
Qed.

Lemma read_complete m err r r' :
  complete r → ReadMessage Receiver.state_cell client m r = (Ret err, r') → complete r'.
Proof.
  intros Hc HR. apply ReadMessage_cases in HR as [->|(key & ts & t & out & err' & Hty & Hin & Ht & Hs & HC)];
    [done| |apply receiver_definition_ok].
  repeat (apply elem_of_cons in Hin as [[= -> ->]|Hin]; [|]); [..|by apply not_elem_of_nil in Hin];
    apply list_elem_of_singleton in Ht as ->.
  - eapply to_complete; [..|exact HC]; [done|apply (bool_decide_unpack _); exact I].
  - eapply to_complete; [..|exact HC]; [done|apply (bool_decide_unpack _); exact I].
  - injection HC as <- <- <-. intros _. apply Hc. simpl in Hs.
    apply list_elem_of_singleton in Hs as ->. by left.
Qed.

Lemma write_complete out err r r' :
  complete r → WriteMessage Receiver.state_cell client r = (Ret (out, err), r') → complete r'.
Proof.
  intros Hc HW. apply WriteMessage_cases in HW as [->|(t & out' & err' & Hin & HC)];
    [done| |apply receiver_definition_ok].
  repeat (apply elem_of_cons in Hin as [[= Hst ->]|Hin]; [|]); [..|by apply not_elem_of_nil in Hin].
  - eapply to_complete; [..|exact HC]; [done|apply (bool_decide_unpack _); exact I].
  - apply invoker_Ret in HC as (r1 & hd & HC & E).
    cbn [handler_of Do Ok To triggers default negb is_nil writeMessageHandlerFactory] in HC.
    apply bind_Ret_iff in HC as ([o e] & [r2 hd2] & HC & Ho).
    apply writeHandleBlock_complete in HC; [|done].
    destruct (is_nil o); [discriminate|]. injection Ho as <- <- <- <-. destruct E as [->| ->]; [done|].
    apply not_final_complete, (bool_decide_unpack _). exact I.
  - injection HC as <- <- <-. intros _. apply Hc. simpl in Hst.
    rewrite Hst. by right; left.
  - eapply to_complete; [..|exact HC]; [done|apply (bool_decide_unpack _); exact I].
Qed.

Lemma read_stored ms m err r r' :
  stored ms r → ReadMessage Receiver.state_cell client m r = (Ret err, r') → stored (ms ++ [m]) r'.
Proof.
  intros Hst HR. assert (∀ r', Receiver.writer r' = Receiver.writer r → stored (ms ++ [m]) r') as Hsame.
  { intros r1 E w Hw. apply stores_more, Hst. congruence. }
  apply ReadMessage_cases in HR as [->|(key & ts & t & out & err' & Hty & Hin & Ht & Hs & HC)];
    [by apply Hsame| |apply receiver_definition_ok].
  apply invoker_Ret in HC as (r1 & hd & HC & E). enough (stored (ms ++ [m]) r1) as Hr1.
  { by destruct E as [->| ->]. }
  repeat (apply elem_of_cons in Hin as [[= -> ->]|Hin]; [|]); [..|by apply not_elem_of_nil in Hin];
    apply list_elem_of_singleton in Ht as ->;
    cbn [handler_of Do Ok To triggers default negb is_nil readMessageHandlerFactory] in HC.
  - apply bind_Ret_iff in HC as (e & [r2 hd2] & HC & [= <- <- <- <-]). by eapply readHeader_stored.
  - apply bind_Ret_iff in HC as (e & [r2 hd2] & HC & [= <- <- <- <-]). by eapply readBlock_stored.
  - injection HC as <- <- <- <-. by apply Hsame.
Qed.

Lemma write_stored ms out err r r' :
  stored ms r → WriteMessage Receiver.state_cell client r = (Ret (out, err), r') → stored ms r'.
Proof.
  intros Hst HW. apply WriteMessage_cases in HW as [->|(t & out' & err' & Hin & HC)];
    [done| |apply receiver_definition_ok].
  apply invoker_Ret in HC as (r1 & hd & HC & E). enough (Receiver.writer r1 = Receiver.writer r) as Hr1.
  { eapply stored_same; [|exact Hst]. by destruct E as [->| ->]. }
  repeat (apply elem_of_cons in Hin as [[= _ ->]|Hin]; [|]); [..|by apply not_elem_of_nil in Hin];
    cbn [handler_of Do Ok To triggers default negb is_nil writeMessageHandlerFactory] in HC;
    apply bind_Ret_iff in HC as ([o e] & [r2 hd2] & HC & Ho);
    (destruct (is_nil o); [discriminate|]); injection Ho as <- <- <- <-;
    first [by injection HC as <- <- <- <- | by eapply writeHandleBlock_writer].
Qed.
End Receiver.

(** The client that [NewSender] makes. *)
Lemma NewSender_Ret {F} `{!ReadSeekCloser F} meta rd c (s : Sender.Sender F) :
  Sender.NewSender meta rd = Ret (c, s) →
  c = client_of Sender.state_cell Sender.protocolDefinition ∧
  ∃ n, Reader.BlockCount rd = Ret n ∧
    s = Sender.mkSender initialized rd (replicate (Z.to_nat n) false) 0 meta.
Proof.
  unfold Sender.NewSender. destruct (Reader.BlockCount rd) as [n| |] eqn:En; [|discriminate..]. simpl.
  unfold make_slice. destruct (_ || _); [discriminate|]. simpl.
  destruct (NewClient _ _ _) as [[c'| |] s'] eqn:E; [|discriminate..].
  intros [= <- <-]. apply NewClient_Ret in E as (_ & -> & ->); [eauto|..]; apply sender_definition_ok.
Qed.

(** C16: a receiver that confirms a transfer has written every block.  Whatever
    messages the receiver is given, in whatever order, and whenever it is asked
    to write: a state from which it only waits for [DataSent] and sends
    [DataReceived] is reached with a writer that answers that it is done.  When
    the sizes that the header announced are at most [2 ^ 48], the file of that
    writer has the announced length and consists of blocks that were received:
    each one was in a message, with its index and the checksum of its data.  The
    factory of the receiver gives files of the announced length. *)
Theorem receiver_confirms_complete {F} `{FW : FileWriter F}
    (wf : Metadata → Z → outcome (F + error)) (c : Client Message (Receiver.Receiver F))
    (r0 r : Receiver.Receiver F) (ms : list Message) :
  (∀ meta total f, wf meta total = Ret (inl f) → ∃ content, fw_holds f content ∧ zlen content = total) →
  Receiver.NewReceiver wf = Ret (c, r0) → client_run Receiver.state_cell c ms r0 r →
  Receiver.state r ∈ final_states →
  ∃ w meta total bs, Receiver.writer r = Some w ∧ Writer.IsDone w = Ret true ∧
    Header (Some meta) total bs ∈ ms ∧
    (dims total bs → ∃ content, fw_holds (Writer.writer w) content ∧ zlen content = total ∧
       ∀ i, 0 ≤ i < nblocks total bs → ∃ b, BlockMsg (Some b) ∈ ms ∧ Index b = i ∧
         Block.Data b = block_data content bs i ∧ Checksum b = ComputeChecksum i (Block.Data b)).
Proof.
  intros Hwf. rewrite NewReceiver_eq. intros [= <- <-] Hrun Hfinal.
  assert (complete r) as Hc.
  { eapply (client_run_invariant _ _ (λ _, complete)); [| |exact Hrun|].
    - intros ? m err w1 w2. apply read_complete.
    - intros ? out err w1 w2. apply write_complete.
    - apply not_final_complete, (bool_decide_unpack _). exact I. }
  assert (stored ms r) as Hst.
  { eapply (client_run_invariant _ _ stored); [| |exact Hrun|by intros w [=]].
    - intros ? m err w1 w2. by apply read_stored.
    - intros ? out err w1 w2. apply write_stored. }
  destruct (Hc Hfinal) as (w & Hw & Hdone). destruct (Hst w Hw) as (meta & total & bs & Hin & Hrep).
  exists w, meta, total, bs. split_and!; [done..|]. intros Hd. destruct (Hrep Hd) as (content & m & Hm & Hbl).
  exists content. split_and!; [by eapply wr_file|by eapply wr_len|]. intros i Hi.
  rewrite (Writer_IsDone_iff _ _ Hd _ _ _ Hm) in Hdone. injection Hdone as Hfull%bool_decide_eq_true.
  rewrite store_full_lookup in Hfull. destruct (Hfull i Hi) as [x Hx]. destruct (Hbl i x Hx) as (b & Hb & <- & <- & Hck).
  unfold offered in Hb. apply list_elem_of_omap in Hb as (msg & Hmsg & Hb).
  destruct msg as [| |ob| | | | | |]; try discriminate. simpl in Hb. subst ob.
  exists b. split_and!; [done..| |done]. unfold block_data. rewrite (wr_len _ _ _ _ _ Hm).
  by rewrite (wr_data _ _ _ _ _ Hm _ _ Hx).
Qed.

(** A transfer of one byte, as seen by the receiver up to the receipt of the block. *)
Definition demo_messages : list Message :=
  [Header (Some (mkMetadata "demo")) 1 1;
   BlockMsg (Some (mkBlock 0 [Byte.x2a] (ComputeChecksum 0 [Byte.x2a])))].

Definition demo_factory : Metadata → Z → outcome (Buffer.Buffer + error) :=
  λ _ size, data ← make_slice Byte.x00 1 size; mret (inl (Buffer.NewBuffer data)).

(** Read a message and write the answer, for each message. *)
Definition exchange {F} (c : Client Message (Receiver.Receiver F)) (l : list Message)
  : M (Receiver.Receiver F) unit :=
  for_each l (λ m, _ ← ReadMessage Receiver.state_cell c m;
                   _ ← WriteMessage Receiver.state_cell c; mret ()).

Lemma exchange_run {F} (c : Client Message (Receiver.Receiver F)) l ms r0 r r' :
  client_run Receiver.state_cell c ms r0 r → exchange c l r = (Ret (), r') →
  client_run Receiver.state_cell c (ms ++ l) r0 r'.
Proof.
  unfold exchange. revert ms r. induction l as [|m l IH]; intros ms r Hrun H.
  - injection H as <-. by rewrite app_nil_r.
  - simpl in H. apply seq_Ret_iff in H as (r1 & H1 & H).
    apply bind_Ret_iff in H1 as (err & r2 & HR & H1).
    apply bind_Ret_iff in H1 as ([out err'] & r3 & HW & [= <-]).
    rewrite cons_middle, (assoc_L (++)). eapply IH; [|exact H].
    eapply run_write; [|exact HW]. by eapply run_read.
Qed.

Lemma demo_factory_length meta total f :
  demo_factory meta total = Ret (inl f) → ∃ content, fw_holds f content ∧ zlen content = total.
Proof.
  unfold demo_factory, make_slice. rewrite Z.mul_1_r. destruct (_ || _) eqn:E; [done|]. zbool. intros [= <-].
  exists (replicate (Z.to_nat total) Byte.x00). rewrite zlen_replicate. split; [|lia].
  apply Buffer.NewBuffer_holds. rewrite zlen_replicate. unfold max_i64, max_alloc in *. lia.
Qed.

Lemma receiver_confirms_complete_witness :
  ∃ c r0 r, Receiver.NewReceiver demo_factory = Ret (c, r0) ∧
    exchange c demo_messages r0 = (Ret (), r) ∧
    ∃ w, Receiver.writer r = Some w ∧ Writer.IsDone w = Ret true.
Proof.
  eexists _, _, _. split; [apply NewReceiver_eq|]. split; [vm_compute; reflexivity|].
  match goal with |- ∃ w, Receiver.writer ?r = _ ∧ _ =>
    destruct (receiver_confirms_complete demo_factory _ _ r demo_messages demo_factory_length (NewReceiver_eq _))
      as (w & meta & total & bs & Hw & Hdone & _) end.
  - eapply (exchange_run _ demo_messages []); [constructor|]. vm_compute. reflexivity.
  - apply (bool_decide_unpack _). vm_compute. exact I.
  - exists w. split; [exact Hw|exact Hdone].
Defined.

(** A receiver has no transition for [Abort]: in every state it answers
    one with [UnexpectedMessage] and stays where it is. *)
Theorem receiver_refuses_abort {F} `{!WriteSeekCloser F}
    (wf : Metadata → Z → outcome (F + error)) (c : Client Message (Receiver.Receiver F))
    (r0 r : Receiver.Receiver F) (reason : Z) :
  Receiver.NewReceiver wf = Ret (c, r0) →
  ReadMessage Receiver.state_cell c (Abort reason) r = (Ret (Some UnexpectedMessage), r).
Proof.
  rewrite NewReceiver_eq. intros [= <- _].
  eapply ReadMessage_unexpected; [apply receiver_definition_ok|reflexivity|].
  intros ts t Hin _ _. by repeat (apply elem_of_cons in Hin as [[=]|Hin]); apply not_elem_of_nil in Hin.
Qed.

Lemma receiver_refuses_abort_witness :
  ∃ c r0, Receiver.NewReceiver demo_factory = Ret (c, r0) ∧
    ReadMessage Receiver.state_cell c (Abort 1) r0 = (Ret (Some UnexpectedMessage), r0).
Proof.
  eexists _, _. split; [apply NewReceiver_eq|].
  exact (receiver_refuses_abort demo_factory _ _ _ 1 (NewReceiver_eq _)).
Defined.

(** ** The sender *)

(** The states in which the sender takes receipts and requests for blocks. *)
Definition receipt_states : list State :=
  [Sender.inProgress; Sender.transferred; Sender.needDataReceived].

(** C33: the index in a [BlockReceived] or [RedoBlock] message is not checked:
    in every state that takes such a message an index that is not below the
    number of blocks makes the sender panic. *)
Theorem sender_index_panics {F} `{!ReadSeekCloser F} (meta : option Metadata)
    (rd : Reader.Reader F) (c : Client Message (Sender.Sender F)) (s0 s : Sender.Sender F) (i : Z) :
  Sender.NewSender meta rd = Ret (c, s0) →
  Sender.state s ∈ receipt_states → zlen (Sender.received s) ≤ i →
  (∃ s', ReadMessage Sender.state_cell c (BlockReceived i) s = (Panic PanicIndex, s')) ∧
  (∃ s', ReadMessage Sender.state_cell c (RedoBlock i) s = (Panic PanicIndex, s')).
Proof.
  intros [-> _]%NewSender_Ret Hst Hi.
  assert (∀ hd, Sender.readBlockReceived (BlockReceived i) (s, hd) = (Panic PanicIndex, (s, hd))) as Hb.
  { intros hd. unfold Sender.readBlockReceived, Sender.field. rewrite bind_gets.
    unfold lift, mbind, M_bind. by rewrite index_out. }
  assert (∀ hd, Sender.readRedoBlock (RedoBlock i) (s, hd) = (Panic PanicIndex, (s, hd))) as Hr.
  { intros hd. unfold Sender.readRedoBlock, Sender.field. rewrite bind_gets.
    unfold lift, mbind, M_bind. by rewrite index_out. }
  assert (∃ to ts, (KeyMessageType MessageTypeBlockReceived, ts) ∈ Sender.read_table ∧
    mkTransition (Some [Sender.state s]) None to
      (Some (ReadMessageHandler (@Sender.readBlockReceived F))) ∈ ts) as (to & ts & Hts & Ht).
  { repeat (apply elem_of_cons in Hst as [->|Hst]); [..|by apply not_elem_of_nil in Hst];
      eexists _, _; (split; [right; left|]); [left|right; left|right; right; left]. }
  assert (∃ to ts, (KeyMessageType MessageTypeRedoBlock, ts) ∈ Sender.read_table ∧
    mkTransition (Some [Sender.state s]) None to
      (Some (ReadMessageHandler (@Sender.readRedoBlock F))) ∈ ts) as (to' & ts' & Hts' & Ht').
  { repeat (apply elem_of_cons in Hst as [->|Hst]); [..|by apply not_elem_of_nil in Hst];
      eexists _, _; (split; [right; right; left|]); [left|right; left|right; right; left]. }
  split; exists s; (eapply ReadMessage_panics;
    [apply sender_definition_ok|reflexivity|reflexivity|reflexivity|eassumption|eassumption|by left|done]).
Qed.

(** A sender of one byte that is waiting for the final confirmation without
    having got the receipt of its block. *)
Definition demo_reader : Reader.Reader Buffer.Buffer :=
  Reader.NewBlockReader (Buffer.NewBuffer [Byte.x2a]) 1 1.
Definition demo_sender : Sender.Sender Buffer.Buffer :=
  Sender.mkSender Sender.needDataReceived demo_reader [false] 0 None.

Lemma NewSender_eq {F} `{!ReadSeekCloser F} meta (rd : Reader.Reader F) n :
  Reader.BlockCount rd = Ret n → 0 ≤ n ≤ max_alloc →
  Sender.NewSender meta rd =
  Ret (client_of Sender.state_cell Sender.protocolDefinition,
       Sender.mkSender initialized rd (replicate (Z.to_nat n) false) 0 meta).
Proof.
  intros Hn Hm. unfold Sender.NewSender. rewrite Hn. simpl. rewrite make_slice_ok by done. simpl.
  set (s0 := Sender.mkSender _ _ _ _ _). pose proof (@sender_definition_ok F _) as Hok.
  by rewrite (proj2 (NewClient_Ret Sender.state_cell Sender.protocolDefinition s0 _ _
    (proj1 (proj1 (proj2 (proj2 Hok)))) (proj1 (proj1 (proj2 (proj2 (proj2 Hok))))))
    (conj Hok (conj eq_refl eq_refl))).
Qed.

Lemma sender_index_panics_witness :
  ∃ c s0 s', Sender.NewSender None demo_reader = Ret (c, s0) ∧
    ReadMessage Sender.state_cell c (BlockReceived 1) demo_sender = (Panic PanicIndex, s').
Proof.
  pose proof (NewSender_eq None demo_reader 1 eq_refl ltac:(vm_compute; split; discriminate)) as E.
  destruct (sender_index_panics None demo_reader _ _ demo_sender 1 E) as [[s' Hs'] _].
  - apply (bool_decide_unpack _). vm_compute. exact I.
  - vm_compute. discriminate.
  - eexists _, _, s'. split; [exact E|exact Hs'].
Defined.

(** What the sender makes of [DataReceived] when it waits for it: it is
    done in any case; the call reports [InvalidDataReceived] exactly if receipts
    are missing, so that a sender can be done (and [IsDone] true) although the
    confirmation was refused. *)
Theorem sender_data_received {F} `{!ReadSeekCloser F} (meta : option Metadata)
    (rd : Reader.Reader F) (c : Client Message (Sender.Sender F)) (s0 s : Sender.Sender F) (n : Z) :
  Sender.NewSender meta rd = Ret (c, s0) →
  Sender.state s = Sender.needDataReceived → Reader.BlockCount (Sender.reader s) = Ret n →
  let s' := lset Sender.state_cell done_ s in
  ReadMessage Sender.state_cell c DataReceived s =
    (Ret (if Sender.receivedCount s <? n then Some Sender.InvalidDataReceived else None), s') ∧
  Protocol.IsDone Sender.state_cell c s' = true ∧ Sender.IsDone s' = true.
Proof.
  intros [-> _]%NewSender_Ret Hst Hn s'. split; [|done].
  assert (∀ hd, Sender.readDataReceived DataReceived (s, hd) = (Ret
    (if Sender.receivedCount s <? n then Some Sender.InvalidDataReceived else None), (s, hd))) as Hh.
  { intros hd. unfold Sender.readDataReceived. rewrite bind_gets. unfold lift, mbind, M_bind.
    cbn [fst]. rewrite Hn. by destruct (_ <? _). }
  erewrite ReadMessage_runs; [|apply sender_definition_ok|reflexivity|do 3 right; left|left|].
  - unfold compiled, invoker. cbn [handler_of Do]. unfold readMessageHandlerFactory, mbind, M_bind.
    cbn -[Sender.readDataReceived]. rewrite Hh. by destruct (_ <? _).
  - simpl. rewrite Hst. by left.
Qed.

Lemma sender_data_received_witness :
  ∃ c s0, Sender.NewSender None demo_reader = Ret (c, s0) ∧
    (ReadMessage Sender.state_cell c DataReceived demo_sender).1 =
      Ret (Some Sender.InvalidDataReceived) ∧
    Sender.IsDone (ReadMessage Sender.state_cell c DataReceived demo_sender).2 = true.
Proof.
  pose proof (NewSender_eq None demo_reader 1 eq_refl ltac:(vm_compute; split; discriminate)) as E.
  destruct (sender_data_received None demo_reader _ _ demo_sender 1 E eq_refl eq_refl) as (H & _ & Hd).
  eexists _, _. split; [exact E|]. rewrite H. split; [reflexivity|exact Hd].
Defined.

(** After an [Abort] the sender is aborted and says so, but its client is
    not done and has nothing to write: the read-write loop neither returns nor
    writes any more, it can only wait for the connection. *)
Theorem sender_abort_keeps_loop {F C} `{!ReadSeekCloser F} `{!ReadWriter C Message}
    (meta : option Metadata) (rd : Reader.Reader F) (c : Client Message (Sender.Sender F))
    (s0 s : Sender.Sender F) (reason : Z) :
  Sender.NewSender meta rd = Ret (c, s0) →
  Sender.state s ∈ [initialized; Sender.inPrologue; Sender.inProgress; Sender.needAcknowledge;
                    Sender.transferred; Sender.needDataReceived; sendAbort] →
  ∃ s', ReadMessage Sender.state_cell c (Abort reason) s = (Ret None, s') ∧
    Sender.IsAborted s' = true ∧ Sender.IsDone s' = true ∧
    ∀ (l : Loop Message (Sender.Sender F)) (conn : C), store l = s' →
      loop_step Sender.state_cell c MainDone (l, conn) = None ∧
      loop_step Sender.state_cell c MainWrite (l, conn) = None.
Proof.
  intros [-> _]%NewSender_Ret Hst. eexists. split.
  - eapply ReadMessage_move; [apply sender_definition_ok|reflexivity|reflexivity|reflexivity
      |do 4 right; left|left|exact Hst|done].
  - split_and!; [done|done|]. intros l conn Hl. split.
    + cbn [loop_step]. rewrite Hl. by destruct (main l).
    + cbn [loop_step]. unfold in_loop, MustWrite. rewrite Hl. by destruct (main l).
Qed.

Lemma sender_abort_keeps_loop_witness :
  ∃ c s0 s', Sender.NewSender None demo_reader = Ret (c, s0) ∧
    ReadMessage Sender.state_cell c (Abort 1) demo_sender = (Ret None, s') ∧
    loop_step (C := list Message * list Message) Sender.state_cell c MainDone
      (Run_start s', ([], [])) = None.
Proof.
  pose proof (NewSender_eq None demo_reader 1 eq_refl ltac:(vm_compute; split; discriminate)) as E.
  destruct (sender_abort_keeps_loop (C := list Message * list Message) None demo_reader
    _ _ demo_sender 1 E) as (s' & H & _ & _ & Hl).
  - apply (bool_decide_unpack _). vm_compute. exact I.
  - eexists _, _, s'. split; [exact E|]. split; [exact H|]. exact (proj1 (Hl (Run_start s') ([], []) eq_refl)).
Defined.

(** An empty file cannot be sent: the sender writes its header and then
    panics on the next message, since there is no block to write. *)
Theorem sender_empty_file_panics {F} `{!ReadSeekCloser F} (meta : option Metadata) (f : F) (bs : Z)
    (c : Client Message (Sender.Sender F)) (s0 : Sender.Sender F) :
  Sender.NewSender meta (Reader.NewBlockReader f 0 bs) = Ret (c, s0) →
  ∃ s1 s2, WriteMessage Sender.state_cell c s0 = (Ret (Some (Header meta 0 bs), None), s1) ∧
    CanWrite Sender.state_cell c s1 = true ∧
    WriteMessage Sender.state_cell c s1 =
      (Panic (PanicString "expected data but no data to write"), s2).
Proof.
  intros [-> (n & Hn & ->)]%NewSender_Ret. injection Hn as <-. eexists _, _. split_and!.
  - eapply WriteMessage_ok; [apply sender_definition_ok|reflexivity|left|reflexivity|reflexivity].
  - reflexivity.
  - erewrite WriteMessage_runs; [|apply sender_definition_ok|right; left]. reflexivity.
Qed.

Lemma sender_empty_file_panics_witness :
  ∃ c s0 s1 s2,
    Sender.NewSender None (Reader.NewBlockReader (Buffer.NewBuffer []) 0 4) = Ret (c, s0) ∧
    WriteMessage Sender.state_cell c s0 = (Ret (Some (Header None 0 4), None), s1) ∧
    WriteMessage Sender.state_cell c s1 =
      (Panic (PanicString "expected data but no data to write"), s2).
Proof.
  pose proof (NewSender_eq None (Reader.NewBlockReader (Buffer.NewBuffer []) 0 4) 0 eq_refl
    ltac:(vm_compute; split; discriminate)) as E.
  destruct (sender_empty_file_panics _ _ _ _ _ E) as (s1 & s2 & H1 & _ & H2).
  eexists _, _, s1, s2. split; [exact E|]. split; [exact H1|exact H2].
Defined.
