(* ===== verification/Relay.v ===== *)
(** * Relay: messages of the relay protocols ([lib/relay])

    [protocol.go]: the messages between a relay server and its clients, how
    they are wrapped and unwrapped; the functions of [protocol_server.go] and
    [protocol_client.go] that write one; [protocol_client_session.go]: how a
    client joins a session. *)

From S2P Require Import Prelude GoSem Packet Automaton Protocol Channel.

Local Open Scope Z_scope.

(** [device.Identity]: the bytes of a public key. *)
Abbreviation Identity := bytes.

(** ** Messages ([relay.proto], [session.proto]) *)

Record SessionDescription : Type := mkDescription { Key_ : bytes; Port : Z }.

#[export] Instance SessionDescription_eq_dec : EqDecision SessionDescription.
Proof. solve_decision. Defined.

(** [RelayError] is the enumeration [Error] of the protocol. *)
Abbreviation RelayError := Z.
Definition ErrorNone : RelayError := 0.
Definition ErrorTargetUnavailable : RelayError := 1.
Definition ErrorSessionExists : RelayError := 2.
Definition ErrorUnknownSession : RelayError := 3.
Definition ErrorSessionAlreadyAccepted : RelayError := 4.
Definition ErrorInitiatorUnavailable : RelayError := 5.

(** A sub-message may be missing; [OtherMessage] is a protobuf message of any
    other type. *)
Inductive RelayMessage : Type :=
| Connected
| AlreadyConnected
| RequestSession (target_identity : Identity) (additional_data : bytes)
| SessionFailed (reason : RelayError) (peer_identity : Identity)
| SessionCreated (session : option SessionDescription) (target_identity : Identity)
| SessionInvitation (session : option SessionDescription) (initiator_identity : Identity)
    (additional_data : bytes)
| AcceptSession (initiator_identity : Identity) (additional_data : bytes)
| SessionAccepted (target_identity : Identity) (additional_data : bytes)
| SessionEstablished (initiator_identity : Identity)
| OtherMessage.

#[export] Instance RelayMessage_eq_dec : EqDecision RelayMessage.
Proof. solve_decision. Defined.

(** The message of [relay.proto] that carries another one. *)
Record RootMessage : Type := mkRoot { root_Type : Z; root_Content : bytes }.

#[export] Instance RootMessage_eq_dec : EqDecision RootMessage.
Proof. solve_decision. Defined.

Definition MessageTypeConnected : Z := 1.
Definition MessageTypeAlreadyConnected : Z := 2.
Definition MessageTypeRequestSession : Z := 3.
Definition MessageTypeSessionFailed : Z := 4.
Definition MessageTypeSessionCreated : Z := 5.
Definition MessageTypeSessionInvitation : Z := 6.
Definition MessageTypeAcceptSession : Z := 7.
Definition MessageTypeSessionAccepted : Z := 8.
Definition MessageTypeSessionEstablished : Z := 9.

Definition SessionStateConnected : Z := 1.
Definition SessionStateAlreadyConnected : Z := 2.
Definition SessionStateInvalidKey : Z := 3.

Record AuthenticateSession : Type := mkAuthenticate { auth_Key : bytes }.
Record SessionResponse : Type := mkResponse { State_ : Z }.

(** ** [protocol.go] *)

Definition RelayTypeOf (message : RelayMessage) : outcome Key :=
  match message with
  | Connected => Ret (KeyMessageType MessageTypeConnected)
  | AlreadyConnected => Ret (KeyMessageType MessageTypeAlreadyConnected)
  | RequestSession _ _ => Ret (KeyMessageType MessageTypeRequestSession)
  | SessionFailed _ _ => Ret (KeyMessageType MessageTypeSessionFailed)
  | SessionCreated _ _ => Ret (KeyMessageType MessageTypeSessionCreated)
  | SessionInvitation _ _ _ => Ret (KeyMessageType MessageTypeSessionInvitation)
  | AcceptSession _ _ => Ret (KeyMessageType MessageTypeAcceptSession)
  | SessionAccepted _ _ => Ret (KeyMessageType MessageTypeSessionAccepted)
  | SessionEstablished _ => Ret (KeyMessageType MessageTypeSessionEstablished)
  | OtherMessage => Panic (PanicError IllegalMessageType)
  end.

Definition RelayRawTypeOf (message : RelayMessage) : outcome Z :=
  key ← RelayTypeOf message;
  match key with KeyMessageType t => Ret t | _ => Panic PanicAssertion end.

Definition RelayNewMessage (messageType : Z) : option RelayMessage * option error :=
  if messageType =? MessageTypeConnected then (Some Connected, None)
  else if messageType =? MessageTypeAlreadyConnected then (Some AlreadyConnected, None)
  else if messageType =? MessageTypeRequestSession then (Some (RequestSession [] []), None)
  else if messageType =? MessageTypeSessionFailed then (Some (SessionFailed 0 []), None)
  else if messageType =? MessageTypeSessionCreated then (Some (SessionCreated None []), None)
  else if messageType =? MessageTypeSessionInvitation then (Some (SessionInvitation None [] []), None)
  else if messageType =? MessageTypeAcceptSession then (Some (AcceptSession [] []), None)
  else if messageType =? MessageTypeSessionAccepted then (Some (SessionAccepted [] []), None)
  else if messageType =? MessageTypeSessionEstablished then (Some (SessionEstablished []), None)
  else (None, Some IllegalMessageType).

Definition RelayProtocol : Protocol RelayMessage :=
  mkProtocol 1 RelayTypeOf RelayRawTypeOf RelayNewMessage.

Section Messages.
Context `{!ProtoMessage RelayMessage} `{!ProtoMessage RootMessage}.

Definition WrapMessage (message : RelayMessage) : outcome (bytes + error) :=
  match Marshal message with
  | inr e => Ret (inr e)
  | inl content =>
      t ← RelayRawTypeOf message;
      mret (Marshal (mkRoot t content))
  end.

Definition UnwrapMessage (wrapped : bytes) : option RelayMessage * option error :=
  match Unmarshal wrapped (mkRoot 0 []) with
  | inr e => (None, Some e)
  | inl root =>
      match RelayNewMessage (root_Type root) with
      | (message, Some e) => (message, Some e)
      | (None, None) => (None, None)
      | (Some message, None) =>
          match Unmarshal (root_Content root) message with
          | inr e => (None, Some e)
          | inl message => (Some message, None)
          end
      end
  end.

(** ** Writing and reading a message *)

Section Write.
Context {W : Type} `{!io_Writer W} `{!io_Closer W}.

(** [ServerProtocol.write] and [ClientProtocol.write]: the deferred function
    closes the connection after an error. *)
Definition write (message : RelayMessage) : M W bool :=
  r ← lift (WrapMessage message);
  match r with
  | inr e => _ ← io_Close; mret false
  | inl data =>
      '(n, err) ← Packet_WriteTo (New data);
      match err with
      | Some e => _ ← io_Close; mret false
      | None => mret true
      end
  end.

(** [writeAndClose], which nothing calls. *)
Definition writeAndClose (message : RelayMessage) : M W unit :=
  ok ← write message;
  if ok : bool then _ ← io_Close; mret () else mret ().

Fixpoint write_all (ms : list RelayMessage) : M W (list bool) :=
  match ms with
  | [] => mret []
  | m :: ms => ok ← write m; oks ← write_all ms; mret (ok :: oks)
  end.
End Write.

Section Read.
Context {R : Type} `{!io_Reader R}.

(** How [handleClient], [messageHandler] and [Start] get a message. *)
Definition read_message : M R (option RelayMessage * option error) :=
  '(data, err) ← DecodeFrom;
  match err with
  | Some e => mret (None, Some e)
  | None => mret (UnwrapMessage (default [] data))
  end.

Fixpoint read_messages (n : nat) : M R (list (option RelayMessage * option error)) :=
  match n with
  | O => mret []
  | S n => m ← read_message; ms ← read_messages n; mret (m :: ms)
  end.
End Read.
End Messages.

(** ** [protocol_client.go]: errors *)

Definition ErrTargetUnavailable : error :=
  ErrVar "relay.ErrTargetUnavailable" "the target is not available on this server".
Definition ErrSessionExists : error :=
  ErrVar "relay.ErrSessionExists" "the requested session already exists".
Definition ErrUnknownSession : error :=
  ErrVar "relay.ErrUnknownSession" "the session does not exists".
Definition ErrSessionAlreadyAccepted : error :=
  ErrVar "relay.ErrSessionAlreadyAccepted" "the session was already accepted".
Definition ErrInitiatorUnavailable : error :=
  ErrVar "relay.ErrInitiatorUnavailable" "the initiator of the session is not available anymore".
Definition ErrAlreadyConnected : error :=
  ErrVar "relay.ErrAlreadyConnected" "this identity is already connected to the relay".
Definition ErrAlreadyRequested : error :=
  ErrVar "relay.ErrAlreadyRequested" "a request for this identity is already in progress".

Definition reasonToError (reason : RelayError) : error :=
  if reason =? ErrorTargetUnavailable then ErrTargetUnavailable
  else if reason =? ErrorSessionExists then ErrSessionExists
  else if reason =? ErrorUnknownSession then ErrUnknownSession
  else if reason =? ErrorSessionAlreadyAccepted then ErrSessionAlreadyAccepted
  else if reason =? ErrorInitiatorUnavailable then ErrInitiatorUnavailable
  else ErrText "received an invalid error response from server".

(** ** [protocol_client_session.go] *)

Definition ErrSessionAlreadyConnected : error :=
  ErrVar "relay.ErrSessionAlreadyConnected" "already connected to this session".
Definition ErrSessionKeyInvalid : error :=
  ErrVar "relay.ErrSessionKeyInvalid" "the session key is invalid".

Definition sessionStateToError (state : Z) : outcome error :=
  if state =? SessionStateAlreadyConnected then Ret ErrSessionAlreadyConnected
  else if state =? SessionStateInvalidKey then Ret ErrSessionKeyInvalid
  else if state =? SessionStateConnected then Panic (PanicString "connected is not an error")
  else Ret UnexpectedMessage.

Section SessionClient.
Context `{!ProtoMessage AuthenticateSession} `{!ProtoMessage SessionResponse}.
Context {C : Type} `{!io_Reader C} `{!io_Writer C}.

(** On success the connection itself is the result. *)
Definition Authenticate (key : bytes) : M C (option error) :=
  match Marshal (mkAuthenticate key) with
  | inr e => mret (Some e)
  | inl data =>
      '(n, err) ← Packet_WriteTo (New data);
      match err with
      | Some e => mret (Some e)
      | None =>
          '(result, err) ← DecodeFrom;
          match err with
          | Some e => mret (Some e)
          | None =>
              match Unmarshal (default [] result) (mkResponse 0) with
              | inr e => mret (Some e)
              | inl message =>
                  if negb (State_ message =? SessionStateConnected) then
                    e ← lift (sessionStateToError (State_ message));
                    mret (Some e)
                  else mret None
              end
          end
      end
  end.
End SessionClient.

(** [writeSessionResponse], of the server. *)
Definition writeSessionResponse `{!ProtoMessage SessionResponse} {W} `{!io_Writer W} (state : Z)
  : M W (option error) :=
  match Marshal (mkResponse state) with
  | inr e => mret (Some e)
  | inl data => '(n, err) ← Packet_WriteTo (New data); mret err
  end.

(** ** Properties of messages *)

(** Messages of the same Go type. *)
Definition same_type (m m' : RelayMessage) : Prop := RelayTypeOf m = RelayTypeOf m'.

(** A message of one of the types of the protocol. *)
Definition relayed (m : RelayMessage) : Prop := m ≠ OtherMessage.

Lemma RelayNewMessage_RawTypeOf m :
  relayed m → ∃ t m0, RelayRawTypeOf m = Ret t ∧ RelayNewMessage t = (Some m0, None) ∧ same_type m0 m.
Proof. destruct m; intros Hm; [by eexists _, _..|by destruct Hm]. Qed.

Section RoundTrip.
Context `{!ProtoMessage RelayMessage} `{!ProtoMessage RootMessage}.

Lemma WrapMessage_relayed m : relayed m → ∃ r, WrapMessage m = Ret r.
Proof.
  intros Hm. unfold WrapMessage. destruct (Marshal m); [|by eexists].
  destruct (RelayNewMessage_RawTypeOf m Hm) as (t & m0 & -> & _). by eexists.
Qed.

Lemma WrapMessage_inl m b : WrapMessage m = Ret (inl b) → relayed m.
Proof.
  unfold WrapMessage. intros H ->. destruct (Marshal OtherMessage); discriminate.
Qed.

Context `{!ProtoRoundTrip RelayMessage same_type} `{!ProtoRoundTrip RootMessage (λ _ _, True)}.

Lemma UnwrapMessage_wrapped m b : WrapMessage m = Ret (inl b) → UnwrapMessage b = (Some m, None).
Proof.
  intros Hw. pose proof (WrapMessage_inl m b Hw) as Hm.
  destruct (RelayNewMessage_RawTypeOf m Hm) as (t & m0 & Ht & Hn & Hs).
  unfold WrapMessage in Hw. destruct (Marshal m) as [c|] eqn:Ec; [|discriminate].
  rewrite Ht in Hw. injection Hw as Hb. unfold UnwrapMessage.
  rewrite (unmarshal_marshal (same_type := λ _ _, True) (mkRoot t c) (mkRoot 0 []) b Hb I).
  simpl. rewrite Hn. by rewrite (unmarshal_marshal m m0 c Ec Hs).
Qed.
End RoundTrip.

Section Stream.
Context `{!ProtoMessage RelayMessage} `{!ProtoMessage RootMessage}.
Context `{!ProtoRoundTrip RelayMessage same_type} `{!ProtoRoundTrip RootMessage (λ _ _, True)}.
Context {W R : Type} `{StreamWriter W} `{!io_Closer W} `{StreamReader R}.

(** [b] is the encoding of [m] and is not too long for a packet. *)
Definition encoded (m : RelayMessage) (b : bytes) : Prop := WrapMessage m = Ret (inl b) ∧ fits b.

Lemma write_encoded m b (w : W) :
  encoded m b → ∃ w', write m w = (Ret true, w') ∧ written_to w' = written_to w ++ wire b.
Proof.
  intros [Hm Hb]. unfold write. rewrite Hm. simpl.
  destruct (Packet_WriteTo_wire w b Hb) as (w' & Hw & Hw'). exists w'. split; [|done].
  change (mbind (M := M W) ?f (lift (Ret ?x)) ?s) with (f x s). cbv beta iota.
  by rewrite (bind_Ret _ _ _ _ _ Hw).
Qed.

Lemma write_all_encoded ms bs (w : W) :
  Forall2 encoded ms bs →
  ∃ w', write_all ms w = (Ret (replicate (length ms) true), w') ∧
        written_to w' = written_to w ++ wire_all bs.
Proof.
  intros Hf. revert w. induction Hf as [|m b ms bs Hm _ IH]; intros w.
  - exists w. split; [done|]. by rewrite app_nil_r.
  - destruct (write_encoded m b w Hm) as (w1 & Hw1 & E1).
    destruct (IH w1) as (w2 & Hw2 & E2). exists w2. simpl.
    rewrite (bind_Ret _ _ _ _ _ Hw1), (bind_Ret _ _ _ _ _ Hw2). split; [done|].
    by rewrite E2, E1, wire_all_cons, app_assoc.
Qed.

Lemma read_message_encoded m b (r : R) rest :
  encoded m b → pending r (wire b ++ rest) →
  ∃ r', read_message r = (Ret (Some m, None), r') ∧ pending r' rest.
Proof.
  intros [Hm Hb] Hp. destruct (DecodeFrom_wire r b rest Hb Hp) as (r' & Hr & Hp').
  exists r'. unfold read_message. rewrite (bind_Ret _ _ _ _ _ Hr). simpl.
  by rewrite (UnwrapMessage_wrapped m b Hm).
Qed.

Lemma read_messages_encoded ms bs (r : R) rest :
  Forall2 encoded ms bs → pending r (wire_all bs ++ rest) →
  ∃ r', read_messages (length ms) r = (Ret ((λ m, (Some m, None)) <$> ms), r') ∧ pending r' rest.
Proof.
  intros Hf. revert r. induction Hf as [|m b ms bs Hm _ IH]; intros r Hp; [by eexists|].
  rewrite wire_all_cons, <- app_assoc in Hp.
  destruct (read_message_encoded m b r _ Hm Hp) as (r1 & Hr1 & Hp1).
  destruct (IH r1 Hp1) as (r2 & Hr2 & Hp2). exists r2. simpl.
  by rewrite (bind_Ret _ _ _ _ _ Hr1), (bind_Ret _ _ _ _ _ Hr2).
Qed.
End Stream.

(** *** A concrete encoding *)

#[export] Instance SessionDescription_countable : Countable SessionDescription.
Proof.
  refine (inj_countable' (λ d, (Key_ d, Port d)) (λ '(k, p), mkDescription k p) _). by intros [].
Defined.

#[export] Instance RootMessage_countable : Countable RootMessage.
Proof.
  refine (inj_countable' (λ d, (root_Type d, root_Content d)) (λ '(t, c), mkRoot t c) _). by intros [].
Defined.

#[export] Instance RelayMessage_countable : Countable RelayMessage.
Proof.
  refine (inj_countable'
    (λ m, match m with
          | Connected => (0, [], [], None) | AlreadyConnected => (1, [], [], None)
          | RequestSession t a => (2, t, a, None)
          | SessionFailed r p => (3, p, [], Some (mkDescription [] r))
          | SessionCreated s t => (4, t, [], s)
          | SessionInvitation s i a => (5, i, a, s)
          | AcceptSession i a => (6, i, a, None)
          | SessionAccepted t a => (7, t, a, None)
          | SessionEstablished i => (8, i, [], None)
          | OtherMessage => (9, [], [], None)
          end)
    (λ '(n, x, y, d),
      if n =? 0 then Connected else if n =? 1 then AlreadyConnected
      else if n =? 2 then RequestSession x y
      else if n =? 3 then SessionFailed (from_option Port 0 d) x
      else if n =? 4 then SessionCreated d x
      else if n =? 5 then SessionInvitation d x y
      else if n =? 6 then AcceptSession x y
      else if n =? 7 then SessionAccepted x y
      else if n =? 8 then SessionEstablished x else OtherMessage) _).
  by intros [].
Defined.

#[export] Instance buffer_io_Closer : io_Closer bytes := λ w, (Ret None, w).

(** ** Properties *)

(** Relay messages survive the trip over the wire.  A sequence of messages
    of the protocol whose encodings fit into packets is written without an
    error, and the other side reads the same messages in the same order, however
    the bytes are cut into segments on the way. *)
Theorem relay_stream_roundtrip `{!ProtoMessage RelayMessage} `{!ProtoMessage RootMessage}
    `{!ProtoRoundTrip RelayMessage same_type} `{!ProtoRoundTrip RootMessage (λ _ _, True)}
    {W R} `{StreamWriter W} `{!io_Closer W} `{StreamReader R}
    (ms : list RelayMessage) (w : W) (r : R) (rest : bytes) :
  Forall (λ m, ∃ b, WrapMessage m = Ret (inl b) ∧ zlen b ≤ MaxLength) ms → written_to w = [] →
  ∃ w', write_all ms w = (Ret (replicate (length ms) true), w') ∧
    (pending r (written_to w' ++ rest) →
     ∃ r', read_messages (length ms) r = (Ret ((λ m, (Some m, None)) <$> ms), r') ∧ pending r' rest).
Proof.
  intros (bs & Hbs)%Forall_exists_Forall2_l Hw.
  destruct (write_all_encoded ms bs w Hbs) as (w' & Hw' & E). exists w'. split; [done|].
  rewrite E, Hw. by apply read_messages_encoded.
Qed.

Lemma relay_stream_roundtrip_witness :
  ∃ w', @write_all bits_proto bits_proto bytes _ _ [Connected; AcceptSession [Byte.x01] []] []
        = (Ret [true; true], w') ∧
    ∃ r', @read_messages bits_proto bits_proto segments _ 2 (Segments [w'])
        = (Ret [(Some Connected, None); (Some (AcceptSession [Byte.x01] []), None)], r').
Proof.
  destruct (@relay_stream_roundtrip bits_proto bits_proto (bits_roundtrip _) (bits_roundtrip _)
    bytes segments _ _ _ _ _ [Connected; AcceptSession [Byte.x01] []] []
    (Segments [concat (wire <$> [bits_of (encode (mkRoot 1 (bits_of (encode Connected))));
                    bits_of (encode (mkRoot 7 (bits_of (encode (AcceptSession [Byte.x01] [])))))])]) [])
    as (w' & Hw & Hr).
  - repeat constructor; eexists; (split; [reflexivity|vm_compute; discriminate]).
  - reflexivity.
  - vm_compute in Hw. injection Hw as Hw. subst w'. eexists. split; [vm_compute; reflexivity|].
    destruct Hr as (r' & Hr & _); [|exists r'; vm_compute in Hr |- *; exact Hr].
    vm_compute. split; [|reflexivity]. repeat constructor; discriminate.
Defined.
