(* ===== verification/RelayServer.v ===== *)
(** * RelayServer: the relay server ([lib/relay/protocol_server.go])

    The server has two goroutines that own its tables ([clientHandler] and
    [sessionHandler]) and starts one goroutine per client, per session, per
    direction of a session, per connection to a session and per message it
    sends.  The goroutines meet on unbuffered Go channels: a send is a step that
    the sender and the receiver take together.  All goroutines and tables are
    the record [server], an execution is a sequence of [server_step]s, and an
    [event] says which goroutine moves and what the network answers. *)

From S2P Require Import Prelude GoSem Hex Packet Protocol Channel Relay.

Local Open Scope Z_scope.

(** ** Identities as map keys *)

Abbreviation identityHex := string.
Abbreviation sessionIdentifier := string.

Definition newSessionIdentifier (id1 id2 : Identity) : sessionIdentifier :=
  EncodeToString id1 +:+ EncodeToString id2.

(** ** Data

    A [net.Conn] is named by a number, and so is a session: number [n] has the
    Go channels [ch1], [ch2] ([(n, false)] and [(n, true)]), [accepted], and the
    channels [d1], [d2] of its two relaying goroutines. *)
Abbreviation net_Conn := nat.
Abbreviation side := (nat * bool)%type.

Record identityConn : Type := mkIdentityConn { ic_identity : Identity; ic_conn : net_Conn }.

Record sessionHandle : Type := mkSessionHandle {
  initiatorIdentity : Identity;
  targetIdentity : Identity;
  sh_keys : bytes * bytes;
  sh_accepted : nat
}.

Record sessionKeyHandle : Type := mkKeyHandle { kh_id : sessionIdentifier; inConn : side }.

Record sessionOutput : Type := mkOutput {
  initiatorDescription : option SessionDescription;
  targetDescription : option SessionDescription;
  out_error : RelayError
}.

(** A function of [handleSession]'s error group: not at its [select] yet, at
    it, writing the response, or returned, with the connection it took and its
    error. *)
Inductive joining : Type :=
| Starting
| Waiting
| Responding (c : net_Conn)
| Joined (c : option net_Conn) (err : option error).

(** The goroutines, by the statement they are at. *)
Inductive goroutine : Type :=
| RefuseClient (c : net_Conn)                               (* clientHandler, AlreadyConnected *)
| WelcomeClient (identity : Identity) (c : net_Conn)        (* clientHandler, Connected *)
| Writing (c : net_Conn) (m : RelayMessage)                 (* go s.write *)
| ClientReading (identity : Identity) (c : net_Conn)        (* handleClient, DecodeFrom *)
| RequestTarget (identity : Identity) (c : net_Conn) (target : Identity) (ad : bytes)
| RequestCreate (identity : Identity) (c : net_Conn) (target : Identity) (ad : bytes) (targetConn : net_Conn)
| AcceptLookup (identity : Identity) (c : net_Conn) (initiator : Identity) (ad : bytes)
| AcceptInitiator (identity : Identity) (c : net_Conn) (initiator : Identity) (ad : bytes)
| ClientLeaving (identity : Identity) (c : net_Conn)        (* handleClient, deferred function *)
| SessionJoining (n : nat) (id : sessionIdentifier) (j1 j2 : joining)
| SessionAccepting (n : nat) (id : sessionIdentifier) (conn1 conn2 : net_Conn)
| SessionRelaying (n : nat) (id : sessionIdentifier) (conn1 conn2 : net_Conn)
| SessionDeleting (n : nat) (id : sessionIdentifier) (conn1 conn2 : net_Conn)
| RelayReading (d : side) (src dst : net_Conn)
| RelayWriting (d : side) (src dst : net_Conn) (data : bytes)
| RelayChecking (d : side) (src dst : net_Conn)
| JoinReading (c : net_Conn)                                (* AddSessionClient *)
| JoinLookup (c : net_Conn) (key : bytes)
| JoinOffering (c : net_Conn) (key : bytes) (ch : side)
| JoinRefusing (c : net_Conn) (state : Z)
| Returned.

(** What the server has written to connections. *)
Inductive output : Type :=
| OutMessage (m : RelayMessage)
| OutResponse (state : Z)
| OutData (data : bytes).

(** [accepted] and [ended] are the closed channels [accepted], [d1] and [d2];
    [errs] holds the variable [err] that the two relaying goroutines of a session
    share; a panic in any goroutine ends the process. *)
Record server : Type := mkServer {
  sessionPort : Z;
  clients : gmap identityHex identityConn;
  clientHandler : bool;
  sessions : gmap sessionIdentifier sessionHandle;
  keys : gmap string sessionKeyHandle;
  sessionHandler : bool;
  accepted : list nat;
  ended : list side;
  errs : gmap nat error;
  nextSession : nat;
  goroutines : list goroutine;
  sent : list (net_Conn * output);
  closed : list net_Conn;
  done : bool;
  crashed : option panic
}.

Definition NewServerProtocol (port : Z) : server :=
  mkServer port ∅ false ∅ ∅ false [] [] ∅ 0 [] [] [] false None.

Implicit Types (s : server) (g : goroutine).

Definition set_clients m s : server :=
  mkServer (sessionPort s) m (clientHandler s) (sessions s) (keys s) (sessionHandler s) (accepted s)
    (ended s) (errs s) (nextSession s) (goroutines s) (sent s) (closed s) (done s) (crashed s).
Definition set_handlers b1 b2 s : server :=
  mkServer (sessionPort s) (clients s) b1 (sessions s) (keys s) b2 (accepted s)
    (ended s) (errs s) (nextSession s) (goroutines s) (sent s) (closed s) (done s) (crashed s).
Definition set_tables m k s : server :=
  mkServer (sessionPort s) (clients s) (clientHandler s) m k (sessionHandler s) (accepted s)
    (ended s) (errs s) (nextSession s) (goroutines s) (sent s) (closed s) (done s) (crashed s).
Definition set_accepted l s : server :=
  mkServer (sessionPort s) (clients s) (clientHandler s) (sessions s) (keys s) (sessionHandler s) l
    (ended s) (errs s) (nextSession s) (goroutines s) (sent s) (closed s) (done s) (crashed s).
Definition set_ended l s : server :=
  mkServer (sessionPort s) (clients s) (clientHandler s) (sessions s) (keys s) (sessionHandler s)
    (accepted s) l (errs s) (nextSession s) (goroutines s) (sent s) (closed s) (done s) (crashed s).
Definition set_errs m s : server :=
  mkServer (sessionPort s) (clients s) (clientHandler s) (sessions s) (keys s) (sessionHandler s)
    (accepted s) (ended s) m (nextSession s) (goroutines s) (sent s) (closed s) (done s) (crashed s).
Definition set_next n s : server :=
  mkServer (sessionPort s) (clients s) (clientHandler s) (sessions s) (keys s) (sessionHandler s)
    (accepted s) (ended s) (errs s) n (goroutines s) (sent s) (closed s) (done s) (crashed s).
Definition set_goroutines l s : server :=
  mkServer (sessionPort s) (clients s) (clientHandler s) (sessions s) (keys s) (sessionHandler s)
    (accepted s) (ended s) (errs s) (nextSession s) l (sent s) (closed s) (done s) (crashed s).
Definition set_sent l s : server :=
  mkServer (sessionPort s) (clients s) (clientHandler s) (sessions s) (keys s) (sessionHandler s)
    (accepted s) (ended s) (errs s) (nextSession s) (goroutines s) l (closed s) (done s) (crashed s).
Definition set_closed l s : server :=
  mkServer (sessionPort s) (clients s) (clientHandler s) (sessions s) (keys s) (sessionHandler s)
    (accepted s) (ended s) (errs s) (nextSession s) (goroutines s) (sent s) l (done s) (crashed s).
Definition set_done s : server :=
  mkServer (sessionPort s) (clients s) (clientHandler s) (sessions s) (keys s) (sessionHandler s)
    (accepted s) (ended s) (errs s) (nextSession s) (goroutines s) (sent s) (closed s) true (crashed s).
Definition crash p s : server :=
  mkServer (sessionPort s) (clients s) (clientHandler s) (sessions s) (keys s) (sessionHandler s)
    (accepted s) (ended s) (errs s) (nextSession s) (goroutines s) (sent s) (closed s) (done s) (Some p).

(** [go f()], the next statement of goroutine [i], and effects on connections. *)
Definition start g s : server := set_goroutines (goroutines s ++ [g]) s.
Definition goto (i : nat) g s : server := set_goroutines (<[i := g]> (goroutines s)) s.
Definition emit (c : net_Conn) (o : output) s : server := set_sent (sent s ++ [(c, o)]) s.
Definition close_conn (c : net_Conn) s : server := set_closed (closed s ++ [c]) s.

(** [close] of one of the channels [d1] and [d2]. *)
Definition close_ended (d : side) s : server :=
  if bool_decide (d ∈ ended s) then crash PanicClosed s else set_ended (d :: ended s) s.

(** ** [clientHandler] *)

Definition case_newClient (client : identityConn) s : server :=
  let id := EncodeToString (ic_identity client) in
  match clients s !! id with
  | Some _ => start (RefuseClient (ic_conn client)) s
  | None =>
      start (WelcomeClient (ic_identity client) (ic_conn client))
        (set_clients (<[id := client]> (clients s)) s)
  end.

Definition case_getClient (identity : Identity) s : option net_Conn :=
  ic_conn <$> clients s !! EncodeToString identity.

Definition case_deleteClient (identity : Identity) s : server :=
  let id := EncodeToString identity in
  match clients s !! id with
  | None => crash (PanicString "attempting to delete a client that does not exist") s
  | Some _ => set_clients (delete id (clients s)) s
  end.

(** The case [<-s.done]. *)
Definition clientHandler_done s : server :=
  set_handlers false (sessionHandler s)
    (set_closed (closed s ++ ((λ p, ic_conn p.2) <$> map_to_list (clients s))) s).

(** ** [sessionHandler] *)

Definition SessionKeySize : Z := 16.

(** [rand.Read] fills the key or fails, which ends the process. *)
Definition newSessionKey (rand : bytes + error) : outcome bytes :=
  match rand with
  | inl key => Ret key
  | inr e => Panic (Fatal "failed to create new session key:")
  end.

Definition createSessionDescription (key : bytes) s : SessionDescription :=
  mkDescription key (u32 (sessionPort s)).

Definition failure (e : RelayError) : sessionOutput := mkOutput None None e.

Definition case_newSession (initiator target : Identity) (r1 r2 : bytes + error) s
  : sessionOutput * server :=
  let id := newSessionIdentifier initiator target in
  match sessions s !! id with
  | Some _ => (failure ErrorSessionExists, s)
  | None =>
      match newSessionKey r1, newSessionKey r2 with
      | Ret key1, Ret key2 =>
          let n := nextSession s in
          let ks := <[EncodeToString key2 := mkKeyHandle id (n, true)]>
                      (<[EncodeToString key1 := mkKeyHandle id (n, false)]> (keys s)) in
          let handle := mkSessionHandle initiator target (key1, key2) n in
          (mkOutput (Some (createSessionDescription key1 s)) (Some (createSessionDescription key2 s))
             ErrorNone,
           start (SessionJoining n id Starting Starting)
             (set_next (S n) (set_tables (<[id := handle]> (sessions s)) ks s)))
      | Panic p, _ | _, Panic p => (failure ErrorNone, crash p s)
      | _, _ => (failure ErrorNone, s)
      end
  end.

Definition case_acceptSession (initiator target : Identity) s : sessionOutput * server :=
  match sessions s !! newSessionIdentifier initiator target with
  | None => (failure ErrorUnknownSession, s)
  | Some handle =>
      if bool_decide (sh_accepted handle ∈ accepted s)
      then (failure ErrorSessionAlreadyAccepted, s)
      else (failure ErrorNone, set_accepted (sh_accepted handle :: accepted s) s)
  end.

Definition case_deleteSession (id : sessionIdentifier) s : server :=
  match sessions s !! id with
  | None => crash (PanicString "attempting to delete a session that does not exist") s
  | Some handle =>
      let '(key1, key2) := sh_keys handle in
      set_tables (delete id (sessions s))
        (delete (EncodeToString key2) (delete (EncodeToString key1) (keys s))) s
  end.

Definition case_getSessionChan (key : bytes) s : option side :=
  inConn <$> keys s !! EncodeToString key.

(** ** Starting and closing *)

Definition Start s : server := set_handlers true true s.

(** [Close] closes [done]: a second call panics in its caller. *)
Definition Close s : outcome server := if done s then Panic PanicClosed else Ret (set_done s).

Definition SessionBufSize : Z := 1024.

(** What the network, the clock or the random generator answers a goroutine. *)
Inductive answer : Type :=
| Next
| Succeeds
| Fails (e : error)
| Reads (data : bytes)
| Random (r1 r2 : bytes + error).

Section Steps.
Context `{!ProtoMessage RelayMessage} `{!ProtoMessage RootMessage} `{!ProtoMessage AuthenticateSession}.

(** [s.write(c, m)] and whether it succeeded. *)
Definition do_write (c : net_Conn) (m : RelayMessage) (a : answer) s : option (bool * server) :=
  match WrapMessage m with
  | Panic p => Some (false, crash p s)
  | Hang => None
  | Ret (inr e) => Some (false, close_conn c s)
  | Ret (inl data) =>
      match (LengthOf data).2, a with
      | Some e, _ => Some (false, close_conn c s)
      | None, Succeeds => Some (true, emit c (OutMessage m) s)
      | None, Fails e => Some (false, close_conn c s)
      | None, _ => None
      end
  end.

(** [handleClient] with a packet it has read, up to what [handleMessage] does
    first; [i] is the goroutine. *)
Definition handleMessage (i : nat) (identity : Identity) (c : net_Conn) (data : bytes) s : server :=
  if done s then goto i (ClientLeaving identity c) s
  else match UnwrapMessage data with
  | (_, Some e) => goto i (ClientLeaving identity c) s
  | (None, None) => crash PanicNil s
  | (Some (RequestSession target ad), None) => goto i (RequestTarget identity c target ad) s
  | (Some (AcceptSession initiator ad), None) => goto i (AcceptLookup identity c initiator ad) s
  | (Some _, None) => goto i (ClientLeaving identity c) s
  end.

(** The second half of [handleSessionRequest], from [s.newSession] on. *)
Definition handleSessionRequest (identity : Identity) (c : net_Conn) (target : Identity) (ad : bytes)
    (targetConn : net_Conn) (r1 r2 : bytes + error) s : server :=
  let '(session, s) := case_newSession identity target r1 r2 s in
  if negb (out_error session =? ErrorNone)
  then start (Writing c (SessionFailed (out_error session) target)) s
  else start (Writing targetConn (SessionInvitation (targetDescription session) identity ad))
         (start (Writing c (SessionCreated (initiatorDescription session) target)) s).

Definition conns_of (j : joining) : list net_Conn :=
  match j with Joined (Some c) _ => [c] | _ => [] end.

Definition is_waiting (d : side) g : bool :=
  match g with
  | SessionJoining n _ j1 j2 =>
      bool_decide (d.1 = n) && match (if d.2 then j2 else j1) with Waiting => true | _ => false end
  | _ => false
  end.

(** The next statement of goroutine [i], which is at [g]: a goroutine that writes
    a message, or [handleClient]. *)
Definition run_client (i : nat) (a : answer) g s : option server :=
  match g, a with
  | RefuseClient c, _ =>
      '(_, s) ← do_write c AlreadyConnected a s;
      Some (goto i Returned (close_conn c s))
  | WelcomeClient identity c, _ =>
      '(ok, s) ← do_write c Connected a s;
      Some (goto i (if ok : bool then ClientReading identity c else Returned) s)
  | Writing c m, _ =>
      '(_, s) ← do_write c m a s;
      Some (goto i Returned s)
  | ClientReading identity c, Fails e => Some (goto i (ClientLeaving identity c) s)
  | ClientReading identity c, Reads data => Some (handleMessage i identity c data s)
  | RequestTarget identity c target ad, Next =>
      guard (clientHandler s);;
      Some (match case_getClient target s with
            | None =>
                start (Writing c (SessionFailed ErrorTargetUnavailable target))
                  (goto i (ClientReading identity c) s)
            | Some targetConn => goto i (RequestCreate identity c target ad targetConn) s
            end)
  | RequestCreate identity c target ad targetConn, Random r1 r2 =>
      guard (sessionHandler s);;
      Some (handleSessionRequest identity c target ad targetConn r1 r2
              (goto i (ClientReading identity c) s))
  | AcceptLookup identity c initiator ad, Next =>
      guard (sessionHandler s);;
      let '(session, s) := case_acceptSession initiator identity s in
      Some (if negb (out_error session =? ErrorNone)
            then start (Writing c (SessionFailed (out_error session) initiator))
                   (goto i (ClientReading identity c) s)
            else goto i (AcceptInitiator identity c initiator ad) s)
  | AcceptInitiator identity c initiator ad, Next =>
      guard (clientHandler s);;
      let s' := goto i (ClientReading identity c) s in
      Some (match case_getClient initiator s with
            | None => start (Writing c (SessionFailed ErrorInitiatorUnavailable initiator)) s'
            | Some initiatorConn =>
                start (Writing c (SessionEstablished initiator))
                  (start (Writing initiatorConn (SessionAccepted identity ad)) s')
            end)
  | ClientLeaving identity c, Next =>
      guard (clientHandler s);;
      Some (close_conn c (case_deleteClient identity (goto i Returned s)))
  | _, _ => None
  end.

(** [handleSession]; a failure while it relays is the end of the server. *)
Definition run_session (i : nat) (a : answer) g s : option server :=
  match g, a with
  | SessionJoining n id (Joined c1 e1) (Joined c2 e2), Next =>
      match e1, e2, c1, c2 with
      | None, None, Some conn1, Some conn2 => Some (goto i (SessionAccepting n id conn1 conn2) s)
      | None, None, _, _ => None
      | _, _, _, _ =>
          Some (goto i Returned
                  (set_closed (closed s ++ conns_of (Joined c1 e1) ++ conns_of (Joined c2 e2)) s))
      end
  | SessionAccepting n id conn1 conn2, Next =>
      guard (n ∈ accepted s);;
      Some (start (RelayReading (n, true) conn2 conn1)
              (start (RelayReading (n, false) conn1 conn2)
                 (goto i (SessionRelaying n id conn1 conn2) s)))
  | SessionRelaying n id conn1 conn2, Next =>
      guard ((n, false) ∈ ended s ∨ (n, true) ∈ ended s);;
      Some (goto i (SessionDeleting n id conn1 conn2) s)
  | SessionRelaying n id conn1 conn2, Fails _ =>
      guard (done s);;
      Some (goto i Returned (close_conn conn2 (close_conn conn1 s)))
  | SessionDeleting n id conn1 conn2, Next =>
      guard (sessionHandler s);;
      Some (close_conn conn2 (close_conn conn1 (case_deleteSession id (goto i Returned s))))
  | _, _ => None
  end.

(** The function [relay] of [handleSession]. *)
Definition run_relay (i : nat) (a : answer) g s : option server :=
  match g, a with
  | RelayReading d src dst, Fails e => Some (close_ended d (goto i Returned s))
  | RelayReading d src dst, Reads data =>
      guard (zlen data ≤ SessionBufSize);;
      Some (goto i (if done s then Returned else RelayWriting d src dst data) s)
  | RelayWriting d src dst data, Succeeds =>
      Some (goto i (RelayChecking d src dst)
              (emit dst (OutData data) (set_errs (delete d.1 (errs s)) s)))
  | RelayWriting d src dst data, Fails e =>
      Some (goto i (RelayChecking d src dst) (set_errs (<[d.1 := e]> (errs s)) s))
  | RelayChecking d src dst, Next =>
      Some (match errs s !! d.1 with
            | Some e => close_ended d (goto i Returned s)
            | None => goto i (if done s then Returned else RelayReading d src dst) s
            end)
  | _, _ => None
  end.

(** The goroutine of [AddSessionClient]. *)
Definition run_join (i : nat) (a : answer) g s : option server :=
  match g, a with
  | JoinReading c, Fails e => Some (goto i Returned s)
  | JoinReading c, Reads data =>
      Some (match Unmarshal data (mkAuthenticate []) with
            | inr e => goto i Returned s
            | inl message => goto i (JoinLookup c (auth_Key message)) s
            end)
  | JoinLookup c key, Next =>
      guard (sessionHandler s);;
      Some (match case_getSessionChan key s with
            | None => goto i (JoinRefusing c SessionStateInvalidKey) s
            | Some ch => goto i (JoinOffering c key ch) s
            end)
  | JoinOffering c key ch, Next =>
      if existsb (is_waiting ch) (goroutines s) then None
      else Some (goto i (JoinRefusing c SessionStateAlreadyConnected) s)
  | JoinRefusing c state, Succeeds => Some (goto i Returned (emit c (OutResponse state) s))
  | JoinRefusing c state, Fails e => Some (goto i Returned s)
  | _, _ => None
  end.

Definition run (i : nat) (a : answer) s : option server :=
  g ← goroutines s !! i;
  match g with
  | SessionJoining _ _ _ _ | SessionAccepting _ _ _ _ | SessionRelaying _ _ _ _
  | SessionDeleting _ _ _ _ => run_session i a g s
  | RelayReading _ _ _ | RelayWriting _ _ _ _ | RelayChecking _ _ _ => run_relay i a g s
  | JoinReading _ | JoinLookup _ _ | JoinOffering _ _ _ | JoinRefusing _ _ => run_join i a g s
  | _ => run_client i a g s
  end.

(** The next statement of a function of the error group of [handleSession]; a
    failure while it waits is the end of the time limit. *)
Definition joining_step (j : joining) (a : answer) : option (joining * list (net_Conn * output)) :=
  match j, a with
  | Starting, Next => Some (Waiting, [])
  | Waiting, Fails e => Some (Joined None (Some e), [])
  | Responding c, Succeeds => Some (Joined (Some c) None, [(c, OutResponse SessionStateConnected)])
  | Responding c, Fails e => Some (Joined (Some c) (Some e), [])
  | _, _ => None
  end.

Definition set_joining (n : nat) (id : sessionIdentifier) (j1 j2 : joining) (b : bool) (j : joining) : goroutine :=
  if b then SessionJoining n id j1 j else SessionJoining n id j j2.

Definition run_joining (i : nat) (b : bool) (a : answer) s : option server :=
  match goroutines s !! i with
  | Some (SessionJoining n id j1 j2) =>
      '(j, o) ← joining_step (if b then j2 else j1) a;
      Some (goto i (set_joining n id j1 j2 b j) (set_sent (sent s ++ o) s))
  | _ => None
  end.

(** [in <- conn] of [AddSessionClient] (goroutine [k]) meets [conn1 = <-ch1] or
    [conn2 = <-ch2] of [handleSession] (goroutine [i]). *)
Definition join (i : nat) (b : bool) (k : nat) s : option server :=
  match goroutines s !! i, goroutines s !! k with
  | Some (SessionJoining n id j1 j2), Some (JoinOffering c key ch) =>
      guard (ch = (n, b));;
      match (if b then j2 else j1) with
      | Waiting => Some (goto k Returned (goto i (set_joining n id j1 j2 b (Responding c)) s))
      | _ => None
      end
  | _, _ => None
  end.

Inductive event : Type :=
| AddClient (identity : Identity) (c : net_Conn)
| AddSessionClient (c : net_Conn)
| Run (i : nat) (a : answer)
| RunJoining (i : nat) (b : bool) (a : answer)
| Join (i : nat) (b : bool) (k : nat)
| ClientHandlerDone
| SessionHandlerDone
| CloseServer.

Definition server_step (e : event) s : option server :=
  match crashed s with
  | Some _ => None
  | None =>
      match e with
      | AddClient client_identity c =>
          guard (clientHandler s);; Some (case_newClient (mkIdentityConn client_identity c) s)
      | AddSessionClient c => Some (start (JoinReading c) s)
      | Run i a => run i a s
      | RunJoining i b a => run_joining i b a s
      | Join i b k => join i b k s
      | ClientHandlerDone => guard (clientHandler s ∧ done s);; Some (clientHandler_done s)
      | SessionHandlerDone =>
          guard (sessionHandler s ∧ done s);; Some (set_handlers (clientHandler s) false s)
      | CloseServer => match Close s with Ret s => Some s | _ => None end
      end
  end.

Fixpoint server_run (es : list event) s : option server :=
  match es with
  | [] => Some s
  | e :: es => s ← server_step e s; server_run es s
  end.
End Steps.
