(* ===== verification/RelayServerProps.v ===== *)
(** * RelayServerProps: what holds of every run of the relay server

    The invariant of the server's tables and goroutines, and the theorems that
    follow from it: the server does not panic, the table of keys is the inverse
    of the table of sessions, a session is accepted only by its target, and what
    goes wrong when a session times out or a write fails. *)

From S2P Require Import Prelude GoSem Hex Packet Protocol Channel Relay RelayServer.

Local Open Scope Z_scope.

Implicit Types (s : server) (g : goroutine).

(** ** Identifiers *)

(** The identifier of a session names its target when the target's identity has
    the length of a public key, and then also its initiator. *)
Lemma newSessionIdentifier_inj i t i' t' :
  zlen t = zlen t' → newSessionIdentifier i t = newSessionIdentifier i' t' → i = i' ∧ t = t'.
Proof.
  unfold newSessionIdentifier. rewrite <- !EncodeToString_app. intros Hl E%(inj _).
  unfold zlen in Hl. apply app_inj_2 in E; [done|lia].
Qed.

(** ** Views of the goroutines *)

(** The client a goroutine acts for. *)
Definition client_of g : option identityConn :=
  match g with
  | WelcomeClient i c | ClientReading i c | RequestTarget i c _ _ | RequestCreate i c _ _ _
  | AcceptLookup i c _ _ | AcceptInitiator i c _ _ | ClientLeaving i c => Some (mkIdentityConn i c)
  | _ => None
  end.

(** The session a goroutine is the [handleSession] of. *)
Definition session_of g : option (nat * sessionIdentifier) :=
  match g with
  | SessionJoining n id _ _ | SessionAccepting n id _ _ | SessionRelaying n id _ _
  | SessionDeleting n id _ _ => Some (n, id)
  | _ => None
  end.

(** A session that does not relay yet. *)
Definition forming g : option nat :=
  match g with
  | SessionJoining n _ _ _ | SessionAccepting n _ _ _ => Some n
  | _ => None
  end.

Definition relay_of g : option side :=
  match g with
  | RelayReading d _ _ | RelayWriting d _ _ _ | RelayChecking d _ _ => Some d
  | _ => None
  end.

(** What a goroutine knows by itself: the message it writes has a type, and the
    target of a request has been found. *)
Definition sane g : Prop :=
  match g with
  | Writing _ m => relayed m
  | RequestCreate _ _ target _ _ => zlen target = 32
  | _ => True
  end.

Lemma omap_insert_perm {A B} (f : A → option B) (l : list A) i x y :
  l !! i = Some x →
  omap f l ≡ₚ option_list (f x) ++ omap f (delete i l) ∧
  omap f (<[i := y]> l) ≡ₚ option_list (f y) ++ omap f (delete i l).
Proof.
  intros Hi. assert (∀ z, <[i := z]> l ≡ₚ z :: delete i l) as H.
  { intros z. rewrite insert_take_drop, delete_take_drop by (by eapply lookup_lt_Some).
    by rewrite Permutation_middle. }
  split.
  - rewrite <- (list_insert_id l i x Hi) at 1. rewrite (H x). simpl. by destruct (f x).
  - rewrite (H y). simpl. by destruct (f y).
Qed.

Lemma omap_snoc {A B} (f : A → option B) (l : list A) y : omap f (l ++ [y]) = omap f l ++ option_list (f y).
Proof. rewrite omap_app. simpl. by destruct (f y). Qed.

(** ** The invariant *)

Definition hexid (ic : identityConn) : identityHex := EncodeToString (ic_identity ic).

(** It depends on the tables, the counter, the closed channels [d1] and [d2] and
    the views: at most one goroutine acts for a client and its client is in the
    table; a session is in the table as long as it has its goroutine; a relaying
    goroutine has not closed its channel. *)
Record views_ok (cs : gmap identityHex identityConn) (ss : gmap sessionIdentifier sessionHandle)
    (next : nat) (ends : list side)
    (vc : list identityConn) (vs : list (nat * sessionIdentifier)) (vr : list side) (vf : list nat)
    : Prop := {
  ok_clients ic : ic ∈ vc → cs !! hexid ic = Some ic;
  ok_clients_nodup : NoDup (hexid <$> vc);
  ok_sessions n id : (n, id) ∈ vs → ∃ h, ss !! id = Some h ∧ sh_accepted h = n;
  ok_sessions_nodup : NoDup vs.*1;
  ok_next id h : ss !! id = Some h → (sh_accepted h < next)%nat;
  ok_relays_nodup : NoDup vr;
  ok_relays d : d ∈ vr → d ∉ ends;
  ok_forming_nodup : NoDup vf;
  ok_forming n b : n ∈ vf → ((n, b) ∉ vr) ∧ ((n, b) ∉ ends);
  ok_forming_next n : n ∈ vf → (n < next)%nat;
  ok_sides d : d ∈ vr ∨ d ∈ ends → (d.1 < next)%nat
}.

#[export] Instance views_ok_proper cs ss n ends :
  Proper ((≡ₚ) ==> (≡ₚ) ==> (≡ₚ) ==> (≡ₚ) ==> iff) (views_ok cs ss n ends).
Proof.
  intros c c' Hc v v' Hv r r' Hr f f' Hf. split; intros [].
  - split; intros *; rewrite <- ?Hc, <- ?Hv, <- ?Hr, <- ?Hf; eauto.
  - split; intros *; rewrite ?Hc, ?Hv, ?Hr, ?Hf; eauto.
Qed.

(** The identities in the tables have the length of a public key. *)
Record tables_ok (cs : gmap identityHex identityConn) (ss : gmap sessionIdentifier sessionHandle)
    : Prop := {
  ok_client_ids k ic : cs !! k = Some ic → k = hexid ic ∧ zlen (ic_identity ic) = 32;
  ok_session_ids id h : ss !! id = Some h →
    id = newSessionIdentifier (initiatorIdentity h) (targetIdentity h) ∧
    zlen (initiatorIdentity h) = 32 ∧ zlen (targetIdentity h) = 32
}.

Definition views s : Prop :=
  views_ok (clients s) (sessions s) (nextSession s) (ended s)
    (omap client_of (goroutines s)) (omap session_of (goroutines s))
    (omap relay_of (goroutines s)) (omap forming (goroutines s)).

Record inv s : Prop := {
  inv_views : views s;
  inv_sane : Forall sane (goroutines s);
  inv_tables : tables_ok (clients s) (sessions s)
}.

Lemma inv_init port : inv (Start (NewServerProtocol port)).
Proof.
  split; [split|constructor|split]; simpl; try (by intros; set_solver); try apply NoDup_nil_2;
    intros *; rewrite lookup_empty; done.
Qed.

(** *** How the views change *)

(** Goroutine [i] goes from [g] to [g']: what the others contribute stays. *)
Lemma views_goto s i g g' :
  goroutines s !! i = Some g → views s →
  ∃ vc vs vr vf,
    views_ok (clients s) (sessions s) (nextSession s) (ended s)
      (option_list (client_of g) ++ vc) (option_list (session_of g) ++ vs)
      (option_list (relay_of g) ++ vr) (option_list (forming g) ++ vf) ∧
    ∀ s', goroutines s' = <[i := g']> (goroutines s) →
      views_ok (clients s') (sessions s') (nextSession s') (ended s')
        (option_list (client_of g') ++ vc) (option_list (session_of g') ++ vs)
        (option_list (relay_of g') ++ vr) (option_list (forming g') ++ vf) → views s'.
Proof.
  intros Hi Hv. set (l := delete i (goroutines s)).
  exists (omap client_of l), (omap session_of l), (omap relay_of l), (omap forming l).
  split; [|intros s' H5; unfold views; rewrite H5].
  - unfold views in Hv.
    by rewrite (proj1 (omap_insert_perm client_of _ i g g' Hi)),
      (proj1 (omap_insert_perm session_of _ i g g' Hi)),
      (proj1 (omap_insert_perm relay_of _ i g g' Hi)),
      (proj1 (omap_insert_perm forming _ i g g' Hi)) in Hv.
  - by rewrite (proj2 (omap_insert_perm client_of _ i g g' Hi)),
      (proj2 (omap_insert_perm session_of _ i g g' Hi)),
      (proj2 (omap_insert_perm relay_of _ i g g' Hi)), (proj2 (omap_insert_perm forming _ i g g' Hi)).
Qed.

(** Fewer views are fine. *)
Lemma views_ok_mono cs ss n ends vc vs vr vf vc' vs' vr' vf' :
  sublist vc' vc → sublist vs' vs → sublist vr' vr → sublist vf' vf →
  views_ok cs ss n ends vc vs vr vf → views_ok cs ss n ends vc' vs' vr' vf'.
Proof.
  intros Hc Hs Hr Hf [].
  pose proof (fmap_sublist hexid _ _ Hc). pose proof (fmap_sublist fst _ _ Hs).
  split; intros *; try (by eapply sublist_NoDup); eauto using elem_of_sublist.
  - by apply (sublist_NoDup _ vs.*1).
  - intros Hn. destruct (ok_forming0 n0 b) as [H1 H2]; [by eapply elem_of_sublist|].
    split; [|done]. intros ?. by apply H1, (elem_of_sublist vr' vr).
  - intros [?|?]; eauto using elem_of_sublist.
Qed.

Lemma inv_ext s s' :
  clients s' = clients s → sessions s' = sessions s → nextSession s' = nextSession s →
  ended s' = ended s → goroutines s' = goroutines s → inv s → inv s'.
Proof. unfold views. intros H1 H2 H3 H4 H5 [Hv Hs Ht]. unfold views in Hv. split; unfold views; congruence. Qed.

(** [g'] is nothing that [g] is not. *)
Definition less {A} (f : goroutine → option A) g g' : Prop := f g' = f g ∨ f g' = None.

Lemma less_sublist {A} (f : goroutine → option A) g g' l :
  less f g g' → sublist (option_list (f g') ++ l) (option_list (f g) ++ l).
Proof. intros [->| ->]; [done|]. by apply sublist_inserts_l. Qed.

Lemma inv_goto i g g' s :
  goroutines s !! i = Some g →
  less client_of g g' → less session_of g g' → less relay_of g g' → less forming g g' → sane g' →
  inv s → inv (goto i g' s).
Proof.
  intros Hi Hc Hs Hr Hf Hg [Hv Hsane Ht].
  destruct (views_goto s i g g' Hi Hv) as (vc & vs & vr & vf & Hv1 & Hv2). split; [|by apply Forall_insert|done].
  apply Hv2; [done|]. revert Hv1. apply views_ok_mono; by apply less_sublist.
Qed.

(** A new goroutine that is nothing special. *)
Lemma inv_start_goroutine g s :
  client_of g = None → session_of g = None → relay_of g = None → forming g = None → sane g →
  inv s → inv (start g s).
Proof.
  intros Hc Hs Hr Hf Hg [Hv Hsane Ht]. split; [|by apply Forall_app; auto|done].
  unfold views, start. simpl. by rewrite !omap_snoc, Hc, Hs, Hr, Hf, !app_nil_r.
Qed.

Lemma inv_newClient client s :
  zlen (ic_identity client) = 32 → inv s → inv (case_newClient client s).
Proof.
  intros Hl Hinv. unfold case_newClient. destruct (clients s !! _) as [ic|] eqn:E; [by apply inv_start_goroutine|].
  destruct Hinv as [Hv Hsane Ht]. split; [|by apply Forall_app; split; [|repeat constructor]|].
  - unfold views, start in *. simpl. rewrite !omap_snoc. simpl. rewrite !app_nil_r, <- Permutation_cons_append.
    destruct client as [identity c]; simpl in *. destruct Hv. split; auto.
    + intros ic [->|Hic]%elem_of_cons; [apply lookup_insert_eq|].
      rewrite lookup_insert_ne; [auto|]. intros Heq. apply ok_clients0 in Hic. unfold hexid in Heq, Hic. congruence.
    + simpl. apply NoDup_cons. split; [|done].
      intros (ic & Heq & Hic)%list_elem_of_fmap. apply ok_clients0 in Hic.
      unfold hexid in Heq, Hic. simpl in Heq. congruence.
  - destruct Ht as [Hc Hs]. split; [|done]. simpl.
    intros k ic [[<- <-]|[_ H]]%lookup_insert_Some; eauto.
Qed.

(** The goroutine of a client leaves. *)
Lemma inv_leave i identity c s :
  goroutines s !! i = Some (ClientLeaving identity c) → inv s →
  inv (case_deleteClient identity (goto i Returned s)) ∧
  crashed (case_deleteClient identity (goto i Returned s)) = crashed s.
Proof.
  intros Hi [Hv Hsane Ht].
  destruct (views_goto s i _ Returned Hi Hv) as (vc & vs & vr & vf & Hv1 & Hv2). simpl in *.
  pose proof (ok_clients _ _ _ _ _ _ _ _ Hv1 _ (list_elem_of_here _ _)) as Hcl. unfold hexid in Hcl.
  simpl in Hcl. unfold case_deleteClient, goto. simpl. rewrite Hcl. split; [|done].
  split; [|by apply Forall_insert|].
  - apply Hv2; [done|]. simpl. destruct Hv1. simpl in ok_clients_nodup0.
    apply NoDup_cons in ok_clients_nodup0 as [Hn Hnd]. split; auto.
    intros ic Hic. rewrite lookup_delete_ne; [by apply ok_clients0, list_elem_of_further|].
    intros Heq. apply Hn, list_elem_of_fmap. by exists ic.
  - destruct Ht as [Hc Hs]. split; [|done]. simpl. intros k ic [_ H]%lookup_delete_Some. eauto.
Qed.

Lemma inv_newSession initiator target r1 r2 s :
  zlen initiator = 32 → zlen target = 32 → inv s → inv (case_newSession initiator target r1 r2 s).2.
Proof.
  intros Hli Hlt Hinv. unfold case_newSession. set (id := newSessionIdentifier initiator target).
  destruct (sessions s !! id) eqn:E; [done|].
  destruct r1 as [key1|], r2 as [key2|]; simpl; [|by apply (inv_ext s)..].
  destruct Hinv as [Hv Hsane Ht]. split; [|by apply Forall_app; split; [|repeat constructor]|].
  - unfold views, start in *. simpl. rewrite !omap_snoc. simpl. rewrite !app_nil_r, <- !Permutation_cons_append.
    set (next := nextSession s) in *. destruct Hv.
    assert (∀ n, n ∈ (omap session_of (goroutines s)).*1 → (n < next)%nat) as Hold.
    { intros n ([n' i'] & -> & H)%list_elem_of_fmap. apply ok_sessions0 in H as (h & Hh & <-). eauto. }
    split; auto.
    + intros n i' [[= -> ->]|H]%elem_of_cons.
      * eexists. split; [apply lookup_insert_eq|done].
      * destruct (ok_sessions0 _ _ H) as (h & Hh & Hn). exists h. split; [|done].
        rewrite lookup_insert_ne; [done|congruence].
    + simpl. apply NoDup_cons. split; [|done]. intros H%Hold. lia.
    + intros i' h [[<- <-]|[_ H]]%lookup_insert_Some; [simpl; lia|]. apply ok_next0 in H. lia.
    + apply NoDup_cons. split; [|done]. intros H%ok_forming_next0. lia.
    + intros n b [->|H]%elem_of_cons; [|auto].
      split; intros H; [specialize (ok_sides0 _ (or_introl H))|specialize (ok_sides0 _ (or_intror H))];
        simpl in *; lia.
    + intros n [->|H%ok_forming_next0]%elem_of_cons; lia.
    + intros d H%ok_sides0. lia.
  - destruct Ht as [Hc Hs]. split; [done|]. simpl.
    intros i' h [[<- <-]|[_ H]]%lookup_insert_Some; eauto.
Qed.

(** The goroutine of a session deletes it. *)
Lemma inv_deleteSession i n id conn1 conn2 s :
  goroutines s !! i = Some (SessionDeleting n id conn1 conn2) → inv s →
  inv (case_deleteSession id (goto i Returned s)) ∧
  crashed (case_deleteSession id (goto i Returned s)) = crashed s.
Proof.
  intros Hi [Hv Hsane Ht].
  destruct (views_goto s i _ Returned Hi Hv) as (vc & vs & vr & vf & Hv1 & Hv2). simpl in *.
  destruct (ok_sessions _ _ _ _ _ _ _ _ Hv1 _ _ (list_elem_of_here _ _)) as (h & Hh & Hn).
  unfold case_deleteSession, goto. simpl. rewrite Hh. destruct (sh_keys h) as [key1 key2]. split; [|done].
  split; [|by apply Forall_insert|].
  - apply Hv2; [done|]. simpl. destruct Hv1. simpl in ok_sessions_nodup0.
    apply NoDup_cons in ok_sessions_nodup0 as [Hnot Hnd]. split; auto.
    + intros n' id' H. destruct (ok_sessions0 n' id') as (h' & Hh' & Hn'); [by apply list_elem_of_further|].
      exists h'. split; [|done]. rewrite lookup_delete_ne; [done|]. intros ->.
      apply Hnot, list_elem_of_fmap. exists (n', id'). split; [simpl; congruence|done].
    + intros id' h' [_ H]%lookup_delete_Some. eauto.
  - destruct Ht as [Hc Hs]. split; [done|]. simpl. intros id' h' [_ H]%lookup_delete_Some. eauto.
Qed.

(** A relaying goroutine closes its channel and returns. *)
Lemma inv_close_ended i d g s :
  goroutines s !! i = Some g → relay_of g = Some d → inv s →
  inv (close_ended d (goto i Returned s)) ∧
  crashed (close_ended d (goto i Returned s)) = crashed s.
Proof.
  intros Hi Hd [Hv Hsane Ht].
  destruct (views_goto s i _ Returned Hi Hv) as (vc & vs & vr & vf & Hv1 & Hv2).
  assert (client_of g = None ∧ session_of g = None ∧ forming g = None) as (Hc & Hs & Hf) by by destruct g.
  rewrite Hc, Hs, Hf, Hd in Hv1. simpl in Hv1, Hv2.
  pose proof (ok_relays _ _ _ _ _ _ _ _ Hv1 _ (list_elem_of_here _ _)) as Hnot.
  unfold close_ended, goto. simpl. rewrite bool_decide_eq_false_2 by done. split; [|done].
  split; [|by apply Forall_insert|done]. apply Hv2; [done|]. simpl. destruct Hv1.
  apply NoDup_cons in ok_relays_nodup0 as [Hd1 Hd2]. split; auto.
  - intros d' H [->|H']%elem_of_cons; [done|]. by apply (ok_relays0 d'); [apply list_elem_of_further|].
  - intros n b H. destruct (ok_forming0 n b H) as [H1 H2]. apply not_elem_of_cons in H1 as [H0 H1].
    split; [done|]. by apply not_elem_of_cons.
  - intros d' H. apply ok_sides0. destruct H as [H|[->|H]%elem_of_cons];
      auto using list_elem_of_further, list_elem_of_here.
Qed.

(** A session starts to relay. *)
Lemma inv_relay i n id conn1 conn2 s :
  goroutines s !! i = Some (SessionAccepting n id conn1 conn2) → inv s →
  inv (start (RelayReading (n, true) conn2 conn1) (start (RelayReading (n, false) conn1 conn2)
         (goto i (SessionRelaying n id conn1 conn2) s))).
Proof.
  intros Hi [Hv Hsane Ht].
  destruct (views_goto s i _ (SessionRelaying n id conn1 conn2) Hi Hv)
    as (vc & vs & vr & vf & Hv1 & Hv2). simpl in *.
  set (s1 := goto i (SessionRelaying n id conn1 conn2) s).
  assert (views s1) as Hs1. { apply Hv2; [done|]. revert Hv1. apply views_ok_mono; try done. by apply sublist_cons. }
  assert ((n ∉ omap forming (goroutines s1)) ∧ (n < nextSession s)%nat ∧
          ∀ b, ((n, b) ∉ omap relay_of (goroutines s1)) ∧ ((n, b) ∉ ended s)) as (Hnf & Hnn & Hnr).
  { pose proof (omap_insert_perm forming _ i _ (SessionRelaying n id conn1 conn2) Hi) as [F1 F2].
    pose proof (omap_insert_perm relay_of _ i _ (SessionRelaying n id conn1 conn2) Hi) as [R1 R2].
    unfold views in Hv. simpl in *. destruct Hv. rewrite F1 in ok_forming_nodup0.
    apply NoDup_cons in ok_forming_nodup0 as [Hn _].
    assert (n ∈ omap forming (goroutines s)) as Hin by (rewrite F1; apply list_elem_of_here).
    split_and!; [by rewrite F2|auto|]. intros b. rewrite R2, <- R1. auto. }
  split; [|by repeat (apply Forall_app; split; [|by repeat constructor]); apply Forall_insert|done].
  unfold views, start in *. simpl. rewrite !omap_snoc. simpl. rewrite !app_nil_r, <- !Permutation_cons_append.
  destruct Hs1. split; auto.
  - apply NoDup_cons. split; [apply not_elem_of_cons; split; [done|apply Hnr]|].
    apply NoDup_cons. split; [apply Hnr|done].
  - intros d [->|[->|H]%elem_of_cons]%elem_of_cons; [apply Hnr..|by apply ok_relays0].
  - intros n' b H. assert (n' ≠ n) by (intros ->; done). destruct (ok_forming0 n' b H) as [H1 H2].
    split; [|done]. by repeat (apply not_elem_of_cons; split; [congruence|]).
  - intros d [[->|[->|H]%elem_of_cons]%elem_of_cons|H]; [done..| |]; apply ok_sides0; auto.
Qed.

(** *** Every step keeps the invariant *)

(** The only panic: no random key can be made. *)
Definition no_random : panic := Fatal "failed to create new session key:".

Definition alive s : Prop := crashed s = None ∨ crashed s = Some no_random.

(** Identities are the public keys of certificates. *)
Definition event_ok (e : event) : Prop :=
  match e with AddClient identity _ => zlen identity = 32 | _ => True end.

Lemma crashed_newSession i t r1 r2 s :
  crashed s = None → alive (case_newSession i t r1 r2 s).2.
Proof.
  intros H. unfold case_newSession, alive. destruct (sessions s !! _); [by left|].
  destruct r1, r2; simpl; auto.
Qed.

(** Close a goal [inv s'] for a state that differs from one with the invariant in
    goroutines that go on or start. *)
Ltac solve_inv s :=
  repeat first
    [ assumption
    | apply inv_start_goroutine; [done..|]
    | eapply inv_goto; [eassumption|first [by left|by right]..|done|]
    | apply (inv_ext s); [reflexivity..|] ].

(** Take a guard and the resulting state apart. *)
Ltac run_case :=
  simpl in *; repeat (case_guard; simpl in *; [|discriminate]); simplify_eq/=.

Section StepInv.
Context `{!ProtoMessage RelayMessage} `{!ProtoMessage RootMessage} `{!ProtoMessage AuthenticateSession}.

Lemma do_write_cases c m a s ok s' :
  relayed m → do_write c m a s = Some (ok, s') →
  (ok = true ∧ s' = emit c (OutMessage m) s) ∨ (ok = false ∧ s' = close_conn c s).
Proof.
  intros Hm. unfold do_write. destruct (WrapMessage_relayed m Hm) as [[data|e] ->]; [|naive_solver].
  destruct (LengthOf data).2, a; naive_solver.
Qed.

Lemma UnwrapMessage_some b : UnwrapMessage b ≠ (None, None).
Proof.
  unfold UnwrapMessage. destruct (Unmarshal b _) as [[t c]|]; [|done]. simpl.
  destruct (RelayNewMessage t) as [[m|] [e|]] eqn:E; try done.
  - by destruct (Unmarshal c m).
  - exfalso. revert E. unfold RelayNewMessage. repeat case_goal; done.
Qed.

Lemma handleMessage_inv i identity c data s :
  goroutines s !! i = Some (ClientReading identity c) → inv s → crashed s = None →
  inv (handleMessage i identity c data s) ∧ alive (handleMessage i identity c data s).
Proof.
  intros Hi Hinv Hc. unfold handleMessage, alive.
  destruct (done s); [split; [solve_inv s|by left]|].
  pose proof (UnwrapMessage_some data) as Hsome.
  destruct (UnwrapMessage data) as [[m|] [e|]]; [| |split; [solve_inv s|by left]|done].
  - destruct m; (split; [solve_inv s|by left]).
  - destruct m; (split; [solve_inv s|by left]).
Qed.

Lemma client_found i identity c s g :
  goroutines s !! i = Some g → client_of g = Some (mkIdentityConn identity c) → inv s →
  clients s !! EncodeToString identity = Some (mkIdentityConn identity c) ∧ zlen identity = 32.
Proof.
  intros Hi Hg [[] _ [Hids _]].
  assert (clients s !! EncodeToString identity = Some (mkIdentityConn identity c)) as Hl.
  { apply (ok_clients0 (mkIdentityConn identity c)). apply list_elem_of_omap. exists g. split; [|done].
    by eapply list_elem_of_lookup_2. }
  split; [done|]. by apply Hids in Hl as [_ Hl].
Qed.

Lemma getClient_found target c s :
  inv s → case_getClient target s = Some c → zlen target = 32.
Proof.
  intros [_ _ [Hids _]]. unfold case_getClient. intros (ic & Hic & ->)%fmap_Some.
  apply Hids in Hic as [Heq%(inj EncodeToString) Hl]. by rewrite Heq.
Qed.

Lemma handleSessionRequest_inv i identity c target ad tc r1 r2 s :
  goroutines s !! i = Some (RequestCreate identity c target ad tc) → inv s → crashed s = None →
  let s' := handleSessionRequest identity c target ad tc r1 r2 (goto i (ClientReading identity c) s) in
  inv s' ∧ alive s'.
Proof.
  intros Hi Hinv Hc s'. subst s'. unfold handleSessionRequest.
  destruct (client_found i identity c s _ Hi eq_refl Hinv) as [_ Hid].
  assert (zlen target = 32) as Ht.
  { destruct Hinv as [_ Hs _]. exact (Forall_lookup_1 _ _ _ _ Hs Hi). }
  assert (inv (goto i (ClientReading identity c) s)) as Hg by solve_inv s.
  pose proof (inv_newSession identity target r1 r2 _ Hid Ht Hg) as Hn.
  pose proof (crashed_newSession identity target r1 r2 (goto i (ClientReading identity c) s) Hc) as Hcr.
  destruct (case_newSession _ _ _ _ _) as [session s']. simpl in Hn, Hcr.
  destruct (negb _); (split; [|exact Hcr]); solve_inv s'.
Qed.

Lemma write_step_inv i g c m a s ok s1 g' :
  goroutines s !! i = Some g → do_write c m a s = Some (ok, s1) → relayed m → inv s → crashed s = None →
  less client_of g g' → less session_of g g' → less relay_of g g' → less forming g g' → sane g' →
  inv (goto i g' s1) ∧ alive (goto i g' s1).
Proof.
  intros Hi Hw Hm Hinv Hc ?????.
  apply do_write_cases in Hw as [[_ ->]|[_ ->]]; [| |done]; (split; [|by left]);
    (eapply inv_goto; [exact Hi|done..|]); by apply (inv_ext s).
Qed.

Lemma run_inv i a s s' :
  inv s → crashed s = None → run i a s = Some s' → inv s' ∧ alive s'.
Proof.
  intros Hinv Hc. unfold run, run_client, run_session, run_relay, run_join. destruct (goroutines s !! i) as [g|] eqn:Hi; [|done]. simpl.
  destruct g; intros Hrun; try discriminate.
  - destruct (do_write _ _ _ _) as [[ok s1]|] eqn:E; simplify_eq/=.
    destruct (write_step_inv i _ _ _ _ _ _ _ Returned Hi E ltac:(done) Hinv Hc) as [H1 H2]; [by right..|done|].
    split; [|done]. by apply (inv_ext (goto i Returned s1)).
  - destruct (do_write _ _ _ _) as [[ok s1]|] eqn:E; simplify_eq/=.
    destruct ok; eapply (write_step_inv i _ _ _ _ _ _ _ _ Hi E ltac:(done) Hinv Hc); first [by left|by right|done].
  - destruct (do_write _ _ _ _) as [[ok s1]|] eqn:E; simplify_eq/=.
    assert (relayed m) as Hm. { destruct Hinv as [_ Hs _]. exact (Forall_lookup_1 _ _ _ _ Hs Hi). }
    eapply (write_step_inv i _ _ _ _ _ _ _ _ Hi E Hm Hinv Hc); first [by right|done].
  - destruct a; simplify_eq/=; [split; [solve_inv s|by left]|by apply handleMessage_inv].
  - destruct a; try discriminate. run_case. destruct (case_getClient target s) eqn:E; (split; [|by left]); [|solve_inv s].
    pose proof (getClient_found _ _ _ Hinv E). solve_inv s.
  - destruct a; try discriminate. run_case. by apply handleSessionRequest_inv.
  - destruct a; try discriminate. run_case. unfold case_acceptSession in *.
    destruct (sessions s !! _); [destruct (bool_decide _)|]; simplify_eq/=; (split; [solve_inv s|by left]).
  - destruct a; try discriminate. run_case. destruct (case_getClient _ _); (split; [solve_inv s|by left]).
  - destruct a; try discriminate. run_case. destruct (inv_leave _ _ _ _ Hi Hinv) as [H1 H2].
    split; [by eapply inv_ext, H1|left; simpl; congruence].
  - destruct j1, j2, a; try discriminate. destruct err, err0, c, c0; run_case; (split; [solve_inv s|by left]).
  - destruct a; try discriminate. run_case. split; [by apply inv_relay|by left].
  - destruct a; try discriminate; run_case; (split; [solve_inv s|by left]).
  - destruct a; try discriminate. run_case. destruct (inv_deleteSession _ _ _ _ _ _ Hi Hinv) as [H1 H2].
    split; [by eapply inv_ext, H1|left; simpl; congruence].
  - destruct a; try discriminate; run_case.
    + destruct (inv_close_ended i d _ s Hi eq_refl Hinv) as [H1 H2]. split; [done|left; congruence].
    + split; [destruct (done s); solve_inv s|by left].
  - destruct a; try discriminate; run_case; (split; [solve_inv s|by left]).
  - destruct a; try discriminate; run_case. destruct (errs s !! d.1).
    + destruct (inv_close_ended i d _ s Hi eq_refl Hinv) as [H1 H2]. split; [done|left; congruence].
    + split; [destruct (done s); solve_inv s|by left].
  - destruct a; try discriminate; run_case; [split; [solve_inv s|by left]|].
    destruct (Unmarshal _ _); (split; [solve_inv s|by left]).
  - destruct a; try discriminate; run_case. destruct (case_getSessionChan _ _); (split; [solve_inv s|by left]).
  - destruct a; try discriminate. destruct (existsb _ _); simplify_eq/=. split; [solve_inv s|by left].
  - destruct a; try discriminate; run_case; (split; [solve_inv s|by left]).
Qed.

Lemma set_joining_goto i n id j1 j2 b j s :
  goroutines s !! i = Some (SessionJoining n id j1 j2) → inv s → inv (goto i (set_joining n id j1 j2 b j) s).
Proof. intros Hi Hinv. destruct b; solve_inv s. Qed.

Lemma run_joining_inv i b a s s' :
  inv s → run_joining i b a s = Some s' → inv s' ∧ crashed s' = crashed s.
Proof.
  intros Hinv. unfold run_joining. destruct (goroutines s !! i) as [[]|] eqn:Hi; try done.
  intros H. destruct (joining_step _ _) as [[j o]|]; simplify_eq/=. split; [|done].
  apply set_joining_goto; [done|]. by apply (inv_ext s).
Qed.

Lemma join_inv i b k s s' :
  inv s → join i b k s = Some s' → inv s' ∧ crashed s' = crashed s.
Proof.
  intros Hinv. unfold join. destruct (goroutines s !! i) as [[]|] eqn:Hi; try done.
  destruct (goroutines s !! k) as [[]|] eqn:Hk; try done. simpl.
  case_guard; [|done]. intros Hs.
  destruct (if b then j2 else j1); simplify_eq/=. split; [|done].
  assert (i ≠ k) by congruence.
  eapply inv_goto; [simpl; rewrite list_lookup_insert_ne by done; exact Hk|by right..|done|].
  by apply set_joining_goto.
Qed.

Lemma step_inv e s s' :
  event_ok e → inv s → server_step e s = Some s' → inv s' ∧ alive s'.
Proof.
  intros He Hinv. unfold server_step. destruct (crashed s) eqn:Hc; [done|].
  destruct e; simpl in *; intros Hstep.
  - run_case. split; [by apply inv_newClient|]. left. unfold case_newClient. by destruct (clients s !! _).
  - run_case. split; [solve_inv s|by left].
  - by apply (run_inv i a s).
  - destruct (run_joining_inv i b a s s' Hinv Hstep) as [H1 H2]. split; [done|left; congruence].
  - destruct (join_inv i b k s s' Hinv Hstep) as [H1 H2]. split; [done|left; congruence].
  - run_case. split; [solve_inv s|by left].
  - run_case. split; [solve_inv s|by left].
  - unfold Close in Hstep. destruct (done s); run_case. split; [solve_inv s|by left].
Qed.

Lemma server_run_app es es' s s'' :
  server_run (es ++ es') s = Some s'' ↔ ∃ s', server_run es s = Some s' ∧ server_run es' s' = Some s''.
Proof.
  revert s. induction es as [|e es IH]; intros s; simpl; [naive_solver|].
  destruct (server_step e s); simpl; [apply IH|]. naive_solver.
Qed.

(** Invariants of steps are invariants of runs. *)
Lemma server_run_ind (P : server → Prop) (ok : event → Prop) es s s' :
  (∀ e s1 s2, ok e → P s1 → server_step e s1 = Some s2 → P s2) →
  Forall ok es → P s → server_run es s = Some s' → P s'.
Proof.
  intros HP. revert s. induction es as [|e es IH]; intros s Hok Hs; simpl; [by intros [= <-]|].
  apply Forall_cons in Hok as [He Hok].
  destruct (server_step e s) as [s1|] eqn:E; simpl; [|done]. apply IH; [done|]. by eapply HP.
Qed.

Lemma run_inv_alive port es s :
  Forall event_ok es → server_run es (Start (NewServerProtocol port)) = Some s → inv s ∧ alive s.
Proof.
  intros Hok. apply (server_run_ind (λ s, inv s ∧ alive s) event_ok); [|done|].
  - intros e s1 s2 He [H1 _] Hs. by eapply step_inv.
  - split; [apply inv_init|by left].
Qed.
End StepInv.

(** ** The tables of sessions and keys *)

(** What a step does to them: nothing, a session and two keys are added, or the
    goroutine of a session deletes it. *)
Inductive tables_step (e : event) s s' : Prop :=
| TablesSame :
    sessions s' = sessions s → keys s' = keys s → tables_step e s s'
| TablesCreated i t key1 key2 k :
    e = Run k (Random (inl key1) (inl key2)) → sessions s !! newSessionIdentifier i t = None →
    sessions s' = <[newSessionIdentifier i t := mkSessionHandle i t (key1, key2) (nextSession s)]> (sessions s) →
    keys s' = <[EncodeToString key2 := mkKeyHandle (newSessionIdentifier i t) (nextSession s, true)]>
                (<[EncodeToString key1 := mkKeyHandle (newSessionIdentifier i t) (nextSession s, false)]>
                  (keys s)) →
    tables_step e s s'
| TablesDeleted n id h :
    (n, id) ∈ omap session_of (goroutines s) → sessions s !! id = Some h →
    sessions s' = delete id (sessions s) →
    keys s' = delete (EncodeToString (sh_keys h).2) (delete (EncodeToString (sh_keys h).1) (keys s)) →
    tables_step e s s'.

(** Close a goal about a step that does not change the tables. *)
Ltac same := by apply TablesSame.

Section Tables.
Context `{!ProtoMessage RelayMessage} `{!ProtoMessage RootMessage} `{!ProtoMessage AuthenticateSession}.

Lemma do_write_tables c m a s ok s' :
  do_write c m a s = Some (ok, s') → sessions s' = sessions s ∧ keys s' = keys s.
Proof.
  unfold do_write. destruct (WrapMessage m) as [[data|]| |]; [|naive_solver..].
  destruct (LengthOf data).2, a; naive_solver.
Qed.

Lemma run_tables i a s s' : run i a s = Some s' → tables_step (Run i a) s s'.
Proof.
  unfold run, run_client, run_session, run_relay, run_join. destruct (goroutines s !! i) as [g|] eqn:Hi; [|done]. simpl.
  destruct g; intros Hrun; try discriminate.
  1-3: destruct (do_write _ _ _ _) as [[ok s1]|] eqn:E; simplify_eq/=;
       apply do_write_tables in E as [E1 E2]; by apply TablesSame.
  all: destruct a; try discriminate; run_case; try same.
  - unfold handleMessage. destruct (done s); [same|].
    destruct (UnwrapMessage data) as [[[]|] []]; same.
  - destruct (case_getClient target s); same.
  - unfold handleSessionRequest, case_newSession. simpl.
    destruct (sessions s !! _) eqn:E; simpl; [same|]. destruct r1, r2; simpl; try same.
    by eapply TablesCreated.
  - unfold case_acceptSession in *.
    destruct (sessions s !! _); [destruct (bool_decide _)|]; simplify_eq/=; same.
  - destruct (case_getClient initiator s); same.
  - unfold case_deleteClient. simpl. destruct (clients s !! _); same.
  - destruct j1, j2; try discriminate. destruct err, err0, c, c0; run_case; same.
  - destruct j1, j2; discriminate.
  - destruct j1, j2; discriminate.
  - destruct j1, j2; discriminate.
  - destruct j1, j2; discriminate.
  - unfold case_deleteSession. simpl. destruct (sessions s !! id) as [h|] eqn:E; [|same].
    destruct h as [ii tt [key1 key2] n']. simpl. eapply (TablesDeleted _ _ _ n id); [|exact E|done..].
    apply list_elem_of_omap. eexists. split; [by eapply list_elem_of_lookup_2|done].
  - unfold close_ended. destruct (bool_decide _); same.
  - destruct (errs s !! d.1); [|same]. unfold close_ended. destruct (bool_decide _); same.
  - destruct (Unmarshal _ _); same.
  - destruct (case_getSessionChan _ _); same.
  - destruct (existsb _ _); simplify_eq/=; same.
Qed.

Lemma step_tables e s s' : server_step e s = Some s' → tables_step e s s'.
Proof.
  unfold server_step. destruct (crashed s); [done|]. destruct e; intros Hstep.
  - run_case. unfold case_newClient. destruct (clients s !! _); same.
  - run_case. same.
  - by apply run_tables.
  - unfold run_joining in Hstep. destruct (goroutines s !! i) as [[]|]; try done.
    destruct (joining_step _ _) as [[]|]; simplify_eq/=. same.
  - unfold join in Hstep. destruct (goroutines s !! i) as [[]|]; try done.
    destruct (goroutines s !! k) as [[]|]; try done. run_case.
    destruct (if b then j2 else j1); simplify_eq/=. same.
  - run_case. same.
  - run_case. same.
  - unfold Close in Hstep. destruct (done s); simplify_eq/=. same.
Qed.
End Tables.

(** *** Keys *)

(** The key of one side of a session. *)
Definition key_of (h : sessionHandle) (b : bool) : bytes := if b then (sh_keys h).2 else (sh_keys h).1.

(** The table of keys is the inverse of the table of sessions. *)
Definition keys_ok s : Prop :=
  ∀ key id d, keys s !! EncodeToString key = Some (mkKeyHandle id d) ↔
    ∃ h, sessions s !! id = Some h ∧ d.1 = sh_accepted h ∧ key_of h d.2 = key.

(** The random keys of an event. *)
Definition random_keys (e : event) : list bytes :=
  match e with Run _ (Random (inl key1) (inl key2)) => [key1; key2] | _ => [] end.

Lemma keys_ok_create i t key1 key2 s s' :
  keys_ok s → key1 ≠ key2 →
  keys s !! EncodeToString key1 = None → keys s !! EncodeToString key2 = None →
  sessions s !! newSessionIdentifier i t = None →
  sessions s' = <[newSessionIdentifier i t := mkSessionHandle i t (key1, key2) (nextSession s)]> (sessions s) →
  keys s' = <[EncodeToString key2 := mkKeyHandle (newSessionIdentifier i t) (nextSession s, true)]>
              (<[EncodeToString key1 := mkKeyHandle (newSessionIdentifier i t) (nextSession s, false)]>
                (keys s)) →
  keys_ok s'.
Proof.
  intros Hk Hne H1 H2 Hnew Hs Hks key id d. rewrite Hs, Hks, !lookup_insert_Some, (Hk key id d). split.
  - intros [[Heq%(inj EncodeToString) [= <- <-]]|[_ [[Heq%(inj EncodeToString) [= <- <-]]|[_ (h & Hh & Hd)]]]].
    + subst key. eexists. by rewrite lookup_insert_eq.
    + subst key. eexists. by rewrite lookup_insert_eq.
    + exists h. split; [|done]. rewrite lookup_insert_ne; [done|congruence].
  - intros (h & [[<- <-]|[Hid Hh]]%lookup_insert_Some & Hd & Hkey).
    + destruct d as [n [|]]; simpl in *; subst; [by left|]. right. split; [|by left].
      intros Heq%(inj EncodeToString). congruence.
    + assert (keys s !! EncodeToString key = Some (mkKeyHandle id d)) as Hl by (apply Hk; eauto).
      right. split; [intros Heq; congruence|]. right. split; [intros Heq; congruence|]. eauto.
Qed.

Lemma keys_ok_delete id h s s' :
  keys_ok s → sessions s !! id = Some h →
  sessions s' = delete id (sessions s) →
  keys s' = delete (EncodeToString (sh_keys h).2) (delete (EncodeToString (sh_keys h).1) (keys s)) →
  keys_ok s'.
Proof.
  intros Hk Hh Hs Hks key id' d. rewrite Hs, Hks, !lookup_delete_Some, (Hk key id' d). split.
  - intros (Hn2 & Hn1 & h' & Hh' & Hd & Hkey). exists h'. split; [|done].
    apply lookup_delete_Some. split; [|done]. intros ->. rewrite Hh in Hh'. injection Hh' as ->.
    unfold key_of in Hkey. destruct d.2; congruence.
  - intros (h' & [Hne Hh']%lookup_delete_Some & Hd & Hkey).
    assert (keys s !! EncodeToString key = Some (mkKeyHandle id' d)) as Hl by (apply Hk; eauto).
    assert (∀ b, keys s !! EncodeToString (key_of h b) = Some (mkKeyHandle id (sh_accepted h, b))) as Ho
      by (intros b; apply Hk; eauto).
    split_and!; [| |eauto].
    + intros Heq. specialize (Ho true). unfold key_of in Ho. congruence.
    + intros Heq. specialize (Ho false). unfold key_of in Ho. congruence.
Qed.

Section KeysRun.
Context `{!ProtoMessage RelayMessage} `{!ProtoMessage RootMessage} `{!ProtoMessage AuthenticateSession}.

Lemma step_keys e s s' (drawn : list bytes) :
  NoDup (random_keys e ++ drawn) → (∀ key, is_Some (keys s !! EncodeToString key) → key ∈ drawn) →
  keys_ok s → server_step e s = Some s' →
  keys_ok s' ∧ ∀ key, is_Some (keys s' !! EncodeToString key) → key ∈ random_keys e ++ drawn.
Proof.
  intros Hnd Hdrawn Hk [Hs Hks|i t key1 key2 k -> Hnew Hs Hks|n id h _ Hh Hs Hks]%step_tables.
  - split; [intros key id d; rewrite Hs, Hks; apply Hk|].
    intros key. rewrite Hks. intros ?%Hdrawn. apply elem_of_app. by right.
  - simpl in Hnd. apply NoDup_cons in Hnd as [[Hne Hn1]%not_elem_of_cons [Hn2 _]%NoDup_cons].
    split; [|].
    + eapply (keys_ok_create i t key1 key2 s); try done.
      * apply eq_None_not_Some. intros ?%Hdrawn. done.
      * apply eq_None_not_Some. intros ?%Hdrawn. done.
    + intros key. rewrite Hks, !lookup_insert_is_Some. simpl.
      intros [Heq%(inj EncodeToString)|[_ [Heq%(inj EncodeToString)|[_ H%Hdrawn]]]]; subst; set_solver.
  - split; [by eapply keys_ok_delete|]. intros key. rewrite Hks. intros [x [_ [_ H]%lookup_delete_Some]%lookup_delete_Some].
    apply elem_of_app. right. eauto.
Qed.

Lemma run_keys es s s' (drawn : list bytes) :
  NoDup ((es ≫= random_keys) ++ drawn) → (∀ key, is_Some (keys s !! EncodeToString key) → key ∈ drawn) →
  keys_ok s → server_run es s = Some s' → keys_ok s'.
Proof.
  revert s drawn. induction es as [|e es IH]; intros s drawn Hnd Hdrawn Hk; simpl; [by intros [= <-]|].
  destruct (server_step e s) as [s1|] eqn:E; simpl; [|done].
  change ((e :: es) ≫= random_keys) with (random_keys e ++ (es ≫= random_keys)) in Hnd.
  assert (NoDup ((es ≫= random_keys) ++ random_keys e ++ drawn)) as Hnd'.
  { by rewrite <- (Permutation_app_swap_app (random_keys e)), app_assoc. }
  destruct (step_keys e s s1 drawn) as [H1 H2]; [|done..|by apply (IH s1 (random_keys e ++ drawn))].
  by apply NoDup_app in Hnd' as (_ & _ & ?).
Qed.
End KeysRun.

(** ** Sessions without a goroutine *)

(** The sessions that have a goroutine in [s'] had one in [s] or are new. *)
Definition no_more_sessions s s' : Prop :=
  ∀ x, x ∈ omap session_of (goroutines s') → x ∈ omap session_of (goroutines s) ∨ x.1 = nextSession s.

Lemma more_ext s s' : goroutines s' = goroutines s → no_more_sessions s s'.
Proof. intros H x. rewrite H. by left. Qed.

Lemma more_start g s s' :
  session_of g = None → no_more_sessions s s' → no_more_sessions s (start g s').
Proof. intros Hg H x. unfold start. simpl. rewrite omap_snoc, Hg, app_nil_r. apply H. Qed.

Lemma more_goto i g g' s s' :
  goroutines s !! i = Some g → less session_of g g' →
  no_more_sessions s s' → no_more_sessions s (goto i g' s').
Proof.
  intros Hi Hg H x. unfold goto. simpl. intros (y & Hy & Hx)%list_elem_of_omap.
  apply list_elem_of_lookup in Hy as [j Hy].
  apply list_lookup_insert_Some in Hy as [(_ & <- & _)|[_ Hy]].
  - left. destruct Hg as [Hg|Hg]; [|congruence]. apply list_elem_of_omap. exists g.
    split; [by eapply list_elem_of_lookup_2|congruence].
  - apply H, list_elem_of_omap. eauto using list_elem_of_lookup_2.
Qed.

Ltac solve_more s :=
  repeat first
    [ assumption
    | apply more_start; [done|]
    | eapply more_goto; [eassumption|first [by left|by right]|]
    | by apply more_ext ].

Section More.
Context `{!ProtoMessage RelayMessage} `{!ProtoMessage RootMessage} `{!ProtoMessage AuthenticateSession}.

Lemma do_write_more c m a s ok s' : do_write c m a s = Some (ok, s') → no_more_sessions s s'.
Proof.
  unfold do_write. destruct (WrapMessage m) as [[data|]| |]; [|by intros; simplify_eq/=; apply more_ext..].
  destruct (LengthOf data).2, a; intros; simplify_eq/=; by apply more_ext.
Qed.

Lemma newSession_more i t r1 r2 s s' :
  no_more_sessions s s' → nextSession s' = nextSession s →
  no_more_sessions s (case_newSession i t r1 r2 s').2.
Proof.
  intros H Hn. unfold case_newSession. destruct (sessions s' !! _); [done|]. destruct r1, r2; try done.
  simpl. intros x. simpl. rewrite omap_snoc, elem_of_app. simpl.
  intros [Hx|Hx%list_elem_of_singleton]; [by apply H|right; by subst x].
Qed.

Lemma run_more i a s s' : run i a s = Some s' → no_more_sessions s s'.
Proof.
  unfold run, run_client, run_session, run_relay, run_join. destruct (goroutines s !! i) as [g|] eqn:Hi; [|done]. simpl.
  destruct g; intros Hrun; try discriminate.
  1-3: destruct (do_write _ _ _ _) as [[ok s1]|] eqn:E; simplify_eq/=;
       apply do_write_more in E; try destruct ok; solve_more s.
  all: destruct a; try discriminate; run_case; try solve [solve_more s].
  - unfold handleMessage. destruct (done s); [solve_more s|].
    destruct (UnwrapMessage data) as [[[]|] []]; solve_more s.
  - destruct (case_getClient target s); solve_more s.
  - unfold handleSessionRequest.
    pose proof (newSession_more identity target r1 r2 s (goto i (ClientReading identity c) s)
      ltac:(solve_more s) eq_refl) as Hn.
    destruct (case_newSession _ _ _ _ _) as [session s']. simpl in Hn. destruct (negb _); solve_more s.
  - unfold case_acceptSession in *.
    destruct (sessions s !! _); [destruct (bool_decide _)|]; simplify_eq/=; solve_more s.
  - destruct (case_getClient initiator s); solve_more s.
  - unfold case_deleteClient. simpl. destruct (clients s !! _); change (no_more_sessions s (goto i Returned s)); solve_more s.
  - destruct j1, j2; try discriminate. destruct err, err0, c, c0; run_case; solve_more s.
  - destruct j1, j2; discriminate.
  - destruct j1, j2; discriminate.
  - destruct j1, j2; discriminate.
  - destruct j1, j2; discriminate.
  - unfold case_deleteSession. simpl. destruct (sessions s !! id) as [[? ? [] ?]|];
      change (no_more_sessions s (goto i Returned s)); solve_more s.
  - unfold close_ended. destruct (bool_decide _); change (no_more_sessions s (goto i Returned s)); solve_more s.
  - destruct (done s); solve_more s.
  - destruct (errs s !! d.1); [|destruct (done s); solve_more s].
    unfold close_ended. destruct (bool_decide _); change (no_more_sessions s (goto i Returned s)); solve_more s.
  - destruct (Unmarshal _ _); solve_more s.
  - destruct (case_getSessionChan _ _); solve_more s.
  - destruct (existsb _ _); simplify_eq/=; solve_more s.
Qed.
End More.

(** A session that is in the table and has no goroutine. *)
Definition dead (id : sessionIdentifier) s : Prop :=
  ∃ h, sessions s !! id = Some h ∧ sh_accepted h ∉ (omap session_of (goroutines s)).*1.

Section Dead.
Context `{!ProtoMessage RelayMessage} `{!ProtoMessage RootMessage} `{!ProtoMessage AuthenticateSession}.

Lemma step_more e s s' : server_step e s = Some s' → no_more_sessions s s'.
Proof.
  unfold server_step. destruct (crashed s); [done|]. destruct e; intros Hstep.
  - run_case. unfold case_newClient. destruct (clients s !! _); solve_more s.
  - run_case. solve_more s.
  - by eapply run_more.
  - unfold run_joining in Hstep. destruct (goroutines s !! i) as [[]|] eqn:Hi; try done.
    destruct (joining_step _ _) as [[]|]; simplify_eq/=. destruct b; solve_more s.
  - unfold join in Hstep. destruct (goroutines s !! i) as [[]|] eqn:Hi; try done.
    destruct (goroutines s !! k) as [[]|] eqn:Hk; try done. run_case.
    destruct b, j1, j2; simplify_eq/=; solve_more s.
  - run_case. solve_more s.
  - run_case. solve_more s.
  - unfold Close in Hstep. destruct (done s); simplify_eq/=. solve_more s.
Qed.

Lemma step_dead e id s s' : inv s → dead id s → server_step e s = Some s' → dead id s'.
Proof.
  intros [Hv _ _] (h & Hh & Hn) Hstep. destruct Hv.
  assert (sh_accepted h ∉ (omap session_of (goroutines s')).*1) as Hn'.
  { intros ([n id'] & Heq & Hx)%list_elem_of_fmap. simpl in Heq. subst n.
    destruct (step_more e s s' Hstep _ Hx) as [Hx'|Hx'].
    - apply Hn, list_elem_of_fmap. by exists (sh_accepted h, id').
    - apply ok_next0 in Hh. simpl in Hx'. lia. }
  exists h. split; [|done].
  apply step_tables in Hstep as [Hs _|i t key1 key2 k _ Hnew Hs _|n id' h' Hx Hh' Hs _]; rewrite Hs; [done| |].
  - rewrite lookup_insert_ne; [done|congruence].
  - rewrite lookup_delete_ne; [done|]. intros ->. apply Hn, list_elem_of_fmap. exists (n, id).
    split; [|done]. destruct (ok_sessions0 n id Hx) as (h2 & H2 & <-). simpl. congruence.
Qed.

Lemma run_dead es id s s' :
  Forall event_ok es → inv s → dead id s → server_run es s = Some s' → dead id s'.
Proof.
  intros Hok Hinv Hd Hr.
  apply (server_run_ind (λ s, inv s ∧ dead id s) event_ok es s s'); [|done..].
  intros e s1 s2 He [H1 H2] Hs. split; [by eapply step_inv|by eapply step_dead].
Qed.

(** A session whose goroutine gives up while clients join is dead. *)
Lemma timeout_dead i n id c1 c2 e1 e2 s s' :
  inv s → goroutines s !! i = Some (SessionJoining n id (Joined c1 e1) (Joined c2 e2)) →
  e1 ≠ None ∨ e2 ≠ None → server_step (Run i Next) s = Some s' → dead id s'.
Proof.
  intros [Hv _ _] Hi He. unfold server_step, run, run_session. destruct (crashed s); [done|]. rewrite Hi. simpl.
  intros Hs.
  assert (s' = goto i Returned
    (set_closed (closed s ++ conns_of (Joined c1 e1) ++ conns_of (Joined c2 e2)) s)) as ->.
  { destruct e1, e2, c1, c2; simplify_eq/=; try done; by destruct He. }
  destruct (omap_insert_perm session_of _ i _ Returned Hi) as [H1 H2]. simpl in H1, H2.
  destruct Hv. destruct (ok_sessions0 n id) as (h & Hh & Hn); [rewrite H1; apply list_elem_of_here|].
  exists h. split; [done|]. unfold goto. simpl. rewrite H2, Hn. rewrite H1 in ok_sessions_nodup0.
  by apply NoDup_cons in ok_sessions_nodup0 as [? _].
Qed.
End Dead.

(** ** A concrete run *)

(** An encoding that is enough for the messages of the run. *)
#[local] Instance demo_relay_proto : ProtoMessage RelayMessage := {|
  Marshal m := inl (match m with RequestSession x y | AcceptSession x y => x ++ y | _ => [] end);
  Unmarshal b m := inl (match m with
    | RequestSession _ _ => RequestSession (take 32 b) (drop 32 b)
    | AcceptSession _ _ => AcceptSession (take 32 b) (drop 32 b)
    | m => m
    end)
|}.
#[local] Instance demo_root_proto : ProtoMessage RootMessage := {|
  Marshal r := inl (byte_of_Z (root_Type r) :: root_Content r);
  Unmarshal b r := match b with [] => inl r | t :: c => inl (mkRoot (byte_to_Z t) c) end
|}.
#[local] Instance demo_auth_proto : ProtoMessage AuthenticateSession := {|
  Marshal a := inl (auth_Key a);
  Unmarshal b _ := inl (mkAuthenticate b)
|}.

Definition demo_alice : Identity := replicate 32 Byte.x01.
Definition demo_bob : Identity := replicate 32 Byte.x02.
Definition demo_key1 : bytes := replicate 16 Byte.x03.
Definition demo_key2 : bytes := replicate 16 Byte.x04.
Definition demo_wrapped (m : RelayMessage) : bytes :=
  match WrapMessage m with Ret (inl b) => b | _ => [] end.

(** Alice and Bob connect, Alice requests a session. *)
Definition demo_request : list event :=
  [AddClient demo_alice 1; Run 0 Succeeds; AddClient demo_bob 2; Run 1 Succeeds;
   Run 0 (Reads (demo_wrapped (RequestSession demo_bob []))); Run 0 Next;
   Run 0 (Random (inl demo_key1) (inl demo_key2))].
(** Nobody joins in time. *)
Definition demo_timeout : list event :=
  [RunJoining 2 false Next; RunJoining 2 true Next;
   RunJoining 2 false (Fails (ErrExternal 0)); RunJoining 2 true (Fails (ErrExternal 0))].
(** Bob disconnects. *)
Definition demo_leave : list event := [Run 1 (Fails EOF); Run 1 Next].

Definition demo_start : server := Start (NewServerProtocol 23521).

(** The states the server is in after these events. *)
Definition demo_id : sessionIdentifier := newSessionIdentifier demo_alice demo_bob.
Definition demo_clients : gmap identityHex identityConn :=
  <[EncodeToString demo_bob := mkIdentityConn demo_bob 2]>
    (<[EncodeToString demo_alice := mkIdentityConn demo_alice 1]> ∅).
Definition demo_sessions : gmap sessionIdentifier sessionHandle :=
  <[demo_id := mkSessionHandle demo_alice demo_bob (demo_key1, demo_key2) 0]> ∅.
Definition demo_keys : gmap string sessionKeyHandle :=
  <[EncodeToString demo_key2 := mkKeyHandle demo_id (0%nat, true)]>
    (<[EncodeToString demo_key1 := mkKeyHandle demo_id (0%nat, false)]> ∅).
Definition demo_server (cs : gmap identityHex identityConn) (bob session : goroutine) (cl : list net_Conn) : server :=
  mkServer 23521 cs true demo_sessions demo_keys true [] [] ∅ 1
    [ClientReading demo_alice 1; bob; session;
     Writing 1 (SessionCreated (Some (mkDescription demo_key1 23521)) demo_bob);
     Writing 2 (SessionInvitation (Some (mkDescription demo_key2 23521)) demo_alice [])]
    [(1%nat, OutMessage Connected); (2%nat, OutMessage Connected)] cl false None.
Definition demo_requested : server :=
  demo_server demo_clients (ClientReading demo_bob 2) (SessionJoining 0 demo_id Starting Starting) [].
Definition demo_timed_out : server :=
  let j := Joined None (Some (ErrExternal 0)) in
  demo_server demo_clients (ClientReading demo_bob 2) (SessionJoining 0 demo_id j j) [].
Definition demo_given_up : server := demo_server demo_clients (ClientReading demo_bob 2) Returned [].
Definition demo_left : server :=
  demo_server (delete (EncodeToString demo_bob) demo_clients) Returned
    (SessionJoining 0 demo_id Starting Starting) [2%nat].

Lemma demo_hex_ne : EncodeToString demo_alice ≠ EncodeToString demo_bob.
Proof. intros H%(inj EncodeToString). discriminate. Qed.

(** Steps that look into a table, with the result of the lookup given. *)
Lemma demo_AddClient identity c s :
  crashed s = None → clientHandler s = true → clients s !! EncodeToString identity = None →
  server_step (AddClient identity c) s =
  Some (start (WelcomeClient identity c)
    (set_clients (<[EncodeToString identity := mkIdentityConn identity c]> (clients s)) s)).
Proof. intros Hc Hh Hl. unfold server_step, case_newClient. rewrite Hc, Hh. simpl. by rewrite Hl. Qed.

Lemma demo_RequestTarget i identity c target ad ic s :
  crashed s = None → clientHandler s = true →
  goroutines s !! i = Some (RequestTarget identity c target ad) →
  clients s !! EncodeToString target = Some ic →
  server_step (Run i Next) s = Some (goto i (RequestCreate identity c target ad (ic_conn ic)) s).
Proof.
  intros Hc Hh Hi Hl. unfold server_step, run, run_client, case_getClient. rewrite Hc, Hi. simpl.
  rewrite Hh. simpl. by rewrite Hl.
Qed.

Lemma demo_RequestCreate i identity c target ad tc key1 key2 s :
  crashed s = None → sessionHandler s = true →
  goroutines s !! i = Some (RequestCreate identity c target ad tc) →
  sessions s !! newSessionIdentifier identity target = None →
  let s1 := goto i (ClientReading identity c) s in
  let id := newSessionIdentifier identity target in
  let n := nextSession s in
  server_step (Run i (Random (inl key1) (inl key2))) s = Some
    (start (Writing tc (SessionInvitation (Some (createSessionDescription key2 s)) identity ad))
    (start (Writing c (SessionCreated (Some (createSessionDescription key1 s)) target))
    (start (SessionJoining n id Starting Starting) (set_next (S n)
      (set_tables (<[id := mkSessionHandle identity target (key1, key2) n]> (sessions s))
        (<[EncodeToString key2 := mkKeyHandle id (n, true)]>
          (<[EncodeToString key1 := mkKeyHandle id (n, false)]> (keys s))) s1))))).
Proof.
  intros Hc Hh Hi Hl. unfold server_step, run, run_client, handleSessionRequest, case_newSession.
  rewrite Hc, Hi. simpl. rewrite Hh. simpl. by rewrite Hl.
Qed.

Lemma server_run_cons e es s s' : server_step e s = Some s' → server_run (e :: es) s = server_run es s'.
Proof. intros H. simpl. by rewrite H. Qed.

Lemma demo_request_run : server_run demo_request demo_start = Some demo_requested.
Proof.
  set (d1 := start (WelcomeClient demo_alice 1)
    (set_clients (<[EncodeToString demo_alice := mkIdentityConn demo_alice 1]> ∅) demo_start)).
  set (d2 := goto 0 (ClientReading demo_alice 1) (emit 1 (OutMessage Connected) d1)).
  set (d3 := start (WelcomeClient demo_bob 2) (set_clients demo_clients d2)).
  set (d4 := goto 1 (ClientReading demo_bob 2) (emit 2 (OutMessage Connected) d3)).
  set (d5 := goto 0 (RequestTarget demo_alice 1 demo_bob []) d4).
  set (d6 := goto 0 (RequestCreate demo_alice 1 demo_bob [] 2) d5).
  assert (server_step (AddClient demo_alice 1) demo_start = Some d1) as E1.
  { apply demo_AddClient; [reflexivity..|apply lookup_empty]. }
  assert (server_step (AddClient demo_bob 2) d2 = Some d3) as E3.
  { apply demo_AddClient; [reflexivity..|]. cbn [clients d2 goto emit set_goroutines set_sent d1 start set_clients].
    rewrite lookup_insert_ne by exact demo_hex_ne. apply lookup_empty. }
  assert (server_step (Run 0 Next) d5 = Some d6) as E6.
  { apply (demo_RequestTarget 0 demo_alice 1 demo_bob [] (mkIdentityConn demo_bob 2)); [reflexivity..|].
    apply lookup_insert_eq. }
  unfold demo_request.
  rewrite (server_run_cons _ _ _ _ E1), (server_run_cons (Run 0 Succeeds) _ d1 d2 eq_refl), (server_run_cons _ _ _ _ E3),
    (server_run_cons (Run 1 Succeeds) _ d3 d4 eq_refl),
    (server_run_cons (Run 0 (Reads (demo_wrapped (RequestSession demo_bob [])))) _ d4 d5 eq_refl), (server_run_cons _ _ _ _ E6).
  erewrite server_run_cons by
    (apply (demo_RequestCreate 0 demo_alice 1 demo_bob [] 2); [reflexivity..|apply lookup_empty]).
  reflexivity.
Qed.

Lemma demo_timeout_run : server_run (demo_request ++ demo_timeout) demo_start = Some demo_timed_out.
Proof. apply server_run_app. exists demo_requested. split; [apply demo_request_run|reflexivity]. Qed.

Lemma demo_leave_run : server_run (demo_request ++ demo_leave) demo_start = Some demo_left.
Proof.
  apply server_run_app. exists demo_requested. split; [apply demo_request_run|].
  unfold demo_leave. erewrite server_run_cons by reflexivity.
  erewrite server_run_cons; [reflexivity|]. unfold server_step, run, run_client. simpl.
  unfold case_deleteClient. simpl. unfold demo_clients at 1. by rewrite lookup_insert_eq.
Qed.

(** ** Properties *)

(** C11: the relay server does not panic.  In every run, whatever its clients send,
    in every interleaving of its goroutines and for every outcome of reads and
    writes, no goroutine closes a closed channel, deletes a client or a session
    that does not exist or writes a message without a type; the process ends only
    when no random key can be generated. *)
Theorem relay_server_never_panics `{!ProtoMessage RelayMessage} `{!ProtoMessage RootMessage}
    `{!ProtoMessage AuthenticateSession} (port : Z) (es : list event) s :
  Forall event_ok es → server_run es (Start (NewServerProtocol port)) = Some s →
  crashed s = None ∨ crashed s = Some (Fatal "failed to create new session key:").
Proof. intros Hok Hr. by destruct (run_inv_alive port es s Hok Hr) as [_ H]. Qed.

Lemma relay_server_never_panics_witness :
  crashed demo_left = None ∨ crashed demo_left = Some (Fatal "failed to create new session key:").
Proof.
  apply (relay_server_never_panics 23521 (demo_request ++ demo_leave)).
  - repeat constructor.
  - exact demo_leave_run.
Defined.

(** C20: a session key leads to the session it was made for.  If the generator of
    random keys does not repeat itself, then at any time of any run the lookup of
    a key by [AddSessionClient] gives a side of a session exactly when that session
    exists and the key is the one that was made for that side. *)
Theorem relay_keys_index `{!ProtoMessage RelayMessage} `{!ProtoMessage RootMessage}
    `{!ProtoMessage AuthenticateSession} (port : Z) (es : list event) s (key : bytes) (d : side) :
  NoDup (es ≫= random_keys) → server_run es (Start (NewServerProtocol port)) = Some s →
  case_getSessionChan key s = Some d ↔
    ∃ id h, sessions s !! id = Some h ∧ sh_accepted h = d.1 ∧
      (if d.2 then (sh_keys h).2 else (sh_keys h).1) = key.
Proof.
  intros Hnd Hr. assert (keys_ok s) as Hk.
  { apply (run_keys es (Start (NewServerProtocol port)) s []); [by rewrite app_nil_r|..|done].
    - intros k [x Hx]. simpl in Hx. by rewrite lookup_empty in Hx.
    - intros k id d'. simpl. rewrite !lookup_empty. naive_solver. }
  unfold case_getSessionChan. rewrite fmap_Some. split.
  - intros ([id d'] & Hl & ->). apply Hk in Hl as (h & Hh & Hd & Hkey). by exists id, h.
  - intros (id & h & Hh & Hd & Hkey). exists (mkKeyHandle id d). split; [|done]. apply Hk. by exists h.
Qed.

Lemma relay_keys_index_witness :
  ∃ id h, sessions demo_requested !! id = Some h ∧ sh_accepted h = 0%nat ∧
    (sh_keys h).2 = demo_key2.
Proof.
  apply (relay_keys_index 23521 demo_request demo_requested demo_key2 (0%nat, true)).
  - repeat (constructor; [by intros ?%list_elem_of_In; firstorder discriminate|]). constructor.
  - exact demo_request_run.
  - unfold case_getSessionChan. simpl. unfold demo_keys. rewrite lookup_insert_eq. reflexivity.
Defined.

(** C21: only the target of a session can accept it, and only once.  In every run,
    when a client with identity [target] asks to accept a session of [initiator],
    whatever bytes it gives for the latter, the answer is an unknown session when
    no session of exactly these two identities exists, an already accepted
    session when it was accepted before, and otherwise the session is accepted and
    nothing else changes. *)
Theorem relay_accept_authorized `{!ProtoMessage RelayMessage} `{!ProtoMessage RootMessage}
    `{!ProtoMessage AuthenticateSession} (port : Z) (es : list event) s (initiator target : Identity) :
  Forall event_ok es → server_run es (Start (NewServerProtocol port)) = Some s →
  zlen target = 32 →
  let '(out, s') := case_acceptSession initiator target s in
  ((∀ id h, sessions s !! id = Some h → initiatorIdentity h = initiator → targetIdentity h ≠ target) ∧
     out_error out = ErrorUnknownSession ∧ s' = s) ∨
  (∃ id h, sessions s !! id = Some h ∧ initiatorIdentity h = initiator ∧ targetIdentity h = target ∧
     ((sh_accepted h ∈ accepted s ∧ out_error out = ErrorSessionAlreadyAccepted ∧ s' = s) ∨
      ((sh_accepted h ∉ accepted s) ∧ out_error out = ErrorNone ∧
       s' = set_accepted (sh_accepted h :: accepted s) s))).
Proof.
  intros Hok Hr Ht. destruct (run_inv_alive port es s Hok Hr) as [[_ _ [_ Hids]] _].
  unfold case_acceptSession. destruct (sessions s !! _) as [h|] eqn:E.
  - destruct (Hids _ _ E) as (Hid & _ & Hl).
    apply newSessionIdentifier_inj in Hid as [Hi Htt]; [|congruence].
    case_bool_decide; right; eexists _, h; (split; [exact E|]); auto 6.
  - left. split; [|done]. intros id h Hh <- <-. destruct (Hids _ _ Hh) as [-> _]. congruence.
Qed.

Lemma relay_accept_authorized_witness :
  let s := demo_requested in
  let '(out, s') := case_acceptSession demo_bob demo_alice s in
  ((∀ id h, sessions s !! id = Some h → initiatorIdentity h = demo_bob → targetIdentity h ≠ demo_alice) ∧
     out_error out = ErrorUnknownSession ∧ s' = s) ∨
  (∃ id h, sessions s !! id = Some h ∧ initiatorIdentity h = demo_bob ∧ targetIdentity h = demo_alice ∧
     ((sh_accepted h ∈ accepted s ∧ out_error out = ErrorSessionAlreadyAccepted ∧ s' = s) ∨
      ((sh_accepted h ∉ accepted s) ∧ out_error out = ErrorNone ∧
       s' = set_accepted (sh_accepted h :: accepted s) s))).
Proof.
  apply (relay_accept_authorized 23521 demo_request).
  - repeat constructor.
  - exact demo_request_run.
  - reflexivity.
Defined.

(** C32: a session that times out is never removed.  When [handleSession] gives up
    because a client did not join in time, or because the answer to a client that
    joined could not be written, the session stays in the table for the rest of the
    run: every later request of the same client for the same target is refused
    because the session exists. *)
Theorem relay_timeout_keeps_session `{!ProtoMessage RelayMessage} `{!ProtoMessage RootMessage}
    `{!ProtoMessage AuthenticateSession} (port : Z) (es es' : list event) s s'
    (i n : nat) (initiator target : Identity) (c1 c2 : option net_Conn) (e1 e2 : option error)
    (r1 r2 : bytes + error) :
  Forall event_ok (es ++ es') → server_run es (Start (NewServerProtocol port)) = Some s →
  goroutines s !! i =
    Some (SessionJoining n (newSessionIdentifier initiator target) (Joined c1 e1) (Joined c2 e2)) →
  e1 ≠ None ∨ e2 ≠ None → server_run (Run i Next :: es') s = Some s' →
  case_newSession initiator target r1 r2 s' = (failure ErrorSessionExists, s').
Proof.
  intros [Hok Hok']%Forall_app Hr Hi He. simpl.
  destruct (server_step (Run i Next) s) as [s1|] eqn:Hs; [|done]. intros Hr'.
  destruct (run_inv_alive port es s Hok Hr) as [Hinv _].
  destruct (step_inv (Run i Next) s s1 I Hinv Hs) as [Hinv1 _].
  pose proof (timeout_dead _ _ _ _ _ _ _ _ _ Hinv Hi He Hs) as Hd.
  destruct (run_dead es' _ s1 s' Hok' Hinv1 Hd Hr') as (h & Hh & _).
  unfold case_newSession. by rewrite Hh.
Qed.

Lemma relay_timeout_keeps_session_witness :
  case_newSession demo_alice demo_bob (inl demo_key1) (inl demo_key2) demo_given_up
  = (failure ErrorSessionExists, demo_given_up).
Proof.
  apply (relay_timeout_keeps_session 23521 (demo_request ++ demo_timeout) []
    demo_timed_out demo_given_up 2 0 demo_alice demo_bob None None
    (Some (ErrExternal 0)) (Some (ErrExternal 0))).
  - repeat constructor.
  - exact demo_timeout_run.
  - reflexivity.
  - left. discriminate.
  - reflexivity.
Defined.

(** A failed write can go unnoticed.  The two relaying goroutines of a session
    share the variable [err]: when a write of one fails and the other one's write
    succeeds before the first looks at [err], the first goes on reading.  The data
    of the failed write is lost and whatever comes next is relayed after the gap. *)
Theorem relay_write_error_lost `{!ProtoMessage RelayMessage} `{!ProtoMessage RootMessage}
    `{!ProtoMessage AuthenticateSession} s (i j n : nat) (c1 c2 : net_Conn) (data data' : bytes) (e : error) :
  crashed s = None → done s = false →
  goroutines s !! i = Some (RelayWriting (n, false) c1 c2 data) →
  goroutines s !! j = Some (RelayWriting (n, true) c2 c1 data') →
  ∃ s', server_run [Run i (Fails e); Run j Succeeds; Run i Next] s = Some s' ∧
    goroutines s' !! i = Some (RelayReading (n, false) c1 c2) ∧
    ended s' = ended s ∧ closed s' = closed s ∧ sent s' = sent s ++ [(c1, OutData data')].
Proof.
  intros Hc Hd Hi Hj. assert (i ≠ j) by congruence.
  assert (i < length (goroutines s))%nat by by eapply lookup_lt_Some.
  assert (j < length (goroutines s))%nat by by eapply lookup_lt_Some.
  set (s1 := goto i (RelayChecking (n, false) c1 c2) (set_errs (<[n := e]> (errs s)) s)).
  set (s2 := goto j (RelayChecking (n, true) c2 c1)
               (emit c1 (OutData data') (set_errs (delete n (errs s1)) s1))).
  assert (server_step (Run i (Fails e)) s = Some s1) as E1 by (unfold server_step, run, run_relay; by rewrite Hc, Hi).
  assert (goroutines s1 !! j = Some (RelayWriting (n, true) c2 c1 data')) as Hj1
    by (simpl; by rewrite list_lookup_insert_ne).
  assert (server_step (Run j Succeeds) s1 = Some s2) as E2
    by (unfold server_step, run, run_relay; rewrite Hj1; simpl; by rewrite Hc).
  assert (goroutines s2 !! i = Some (RelayChecking (n, false) c1 c2)) as Hi2
    by (simpl; by rewrite list_lookup_insert_ne, list_lookup_insert_eq).
  assert (server_step (Run i Next) s2 = Some (goto i (RelayReading (n, false) c1 c2) s2)) as E3.
  { unfold server_step, run, run_relay. rewrite Hi2. simpl. by rewrite Hc, lookup_delete_eq, Hd. }
  simpl. rewrite E1. simpl. rewrite E2. simpl. rewrite E3. eexists. split; [done|]. split; [|done].
  simpl. rewrite list_lookup_insert_eq; [done|]. by rewrite !length_insert.
Qed.

(** A server with a session that relays in both directions. *)
Definition demo_relaying : server :=
  start (RelayWriting (0%nat, true) 4 3 [Byte.x06])
    (start (RelayWriting (0%nat, false) 3 4 [Byte.x05]) demo_start).

Lemma relay_write_error_lost_witness :
  ∃ s', server_run [Run 0 (Fails (ErrExternal 0)); Run 1 Succeeds; Run 0 Next] demo_relaying = Some s' ∧
    goroutines s' !! 0%nat = Some (RelayReading (0%nat, false) 3 4).
Proof.
  destruct (relay_write_error_lost demo_relaying 0 1 0 3 4 [Byte.x05] [Byte.x06] (ErrExternal 0))
    as (s' & H & H' & _).
  - reflexivity.
  - reflexivity.
  - reflexivity.
  - reflexivity.
  - exists s'. split; [exact H|exact H'].
Defined.
