(* ===== verification/RelayClient.v ===== *)
(** * RelayClient: the client of a relay server ([lib/relay/protocol_client.go])

    A started client has three goroutines: [messageHandler] reads from the
    server, [requestHandler] and [sessionHandler] keep the tables of those who
    wait for an answer.  Callers of [Request], [ReadAccept], [ReadInvitation] and
    [Accept] are goroutines as well, named by the number of the call; the Go
    channel a call waits on has the same number.  All of them are the record
    [client]; an execution is a sequence of [client_step]s. *)

From S2P Require Import Prelude GoSem Hex Packet Protocol Channel Relay RelayServer.

Local Open Scope Z_scope.

(** ** Data *)

(** [requestOutput]: a session description, which may be missing, or an error. *)
Abbreviation requestOutput := (option SessionDescription + error)%type.

(** [establishedOrFailed]: one of the fields is not nil. *)
Record establishedOrFailed : Type := mkResult {
  established : option Identity;
  failed : option (RelayError * Identity)
}.

Record SessionInfo : Type := mkInfo { Description : option SessionDescription; PeerIdentity : Identity }.

(** The calls of the client's methods, by the statement they are at. *)
Inductive call : Type :=
| RequestNew (target : Identity) (ad : bytes)       (* c.newRequest <- *)
| RequestSent (target : Identity)                   (* before the select *)
| RequestWaiting (target : Identity)                (* in the select *)
| RequestDeleting (target : Identity) (r : requestOutput)
| RequestReturned (target : Identity) (r : SessionInfo + error)
| ReadAcceptNew (target : Identity)
| ReadAcceptWaiting (target : Identity)
| ReadAcceptReturned (r : bytes + error)
| InvitationWaiting
| InvitationReturned (r : SessionInfo * bytes + error)
| AcceptNew (initiator : Identity) (ad : bytes)
| AcceptWriting (initiator : Identity) (ad : bytes)
| AcceptWaiting (initiator : Identity)
| AcceptReturned (r : option error).

(** The goroutine [writeRequest]; it may offer an error to the call [out]. *)
Inductive writer : Type :=
| WriteRequest (target : Identity) (ad : bytes) (out : nat)
| WriteOffering (out : nat) (e : error) (conn : option error)
| WriteReturned.

Inductive message_phase : Type :=
| Reading
| Responding (target : Identity) (o : requestOutput) (next : option establishedOrFailed)
| Inviting (info : SessionInfo) (ad : bytes)
| Accepting (target : Identity) (ad : bytes)
| Resulting (r : establishedOrFailed)
| MessageReturned.

Inductive request_phase : Type :=
| RequestSelecting
| RequestOffering (out : nat) (o : requestOutput)
| RequestHandlerReturned.

Inductive session_phase : Type :=
| SessionNotStarted
| SessionSelecting
| SendingAccept (out : nat) (id : identityHex) (ad : bytes)
| SendingResult (out : nat) (id : identityHex) (r : establishedOrFailed).

(** [received] is what [messageHandler] has read, [written] what was sent. *)
Record client : Type := mkClient {
  requests : gmap identityHex nat;
  accepts : gmap identityHex nat;
  results : gmap identityHex nat;
  messages : message_phase;
  requestHandler : request_phase;
  sessionHandler : session_phase;
  calls : list call;
  writers : list writer;
  received : list RelayMessage;
  written : list RelayMessage;
  done : bool;
  connClosed : bool;
  crashed : option panic
}.

Definition NewClientProtocol : client :=
  mkClient ∅ ∅ ∅ MessageReturned RequestHandlerReturned SessionNotStarted [] [] [] [] false false None.

Implicit Types (c : client).

Definition set_requests m c : client :=
  mkClient m (accepts c) (results c) (messages c) (requestHandler c) (sessionHandler c) (calls c)
    (writers c) (received c) (written c) (done c) (connClosed c) (crashed c).
Definition set_waits a r c : client :=
  mkClient (requests c) a r (messages c) (requestHandler c) (sessionHandler c) (calls c)
    (writers c) (received c) (written c) (done c) (connClosed c) (crashed c).
Definition set_messages p c : client :=
  mkClient (requests c) (accepts c) (results c) p (requestHandler c) (sessionHandler c) (calls c)
    (writers c) (received c) (written c) (done c) (connClosed c) (crashed c).
Definition set_requestHandler p c : client :=
  mkClient (requests c) (accepts c) (results c) (messages c) p (sessionHandler c) (calls c)
    (writers c) (received c) (written c) (done c) (connClosed c) (crashed c).
Definition set_sessionHandler p c : client :=
  mkClient (requests c) (accepts c) (results c) (messages c) (requestHandler c) p (calls c)
    (writers c) (received c) (written c) (done c) (connClosed c) (crashed c).
Definition set_call (j : nat) (x : call) c : client :=
  mkClient (requests c) (accepts c) (results c) (messages c) (requestHandler c) (sessionHandler c)
    (<[j := x]> (calls c)) (writers c) (received c) (written c) (done c) (connClosed c) (crashed c).
Definition new_call (x : call) c : client :=
  mkClient (requests c) (accepts c) (results c) (messages c) (requestHandler c) (sessionHandler c)
    (calls c ++ [x]) (writers c) (received c) (written c) (done c) (connClosed c) (crashed c).
Definition set_writers l c : client :=
  mkClient (requests c) (accepts c) (results c) (messages c) (requestHandler c) (sessionHandler c)
    (calls c) l (received c) (written c) (done c) (connClosed c) (crashed c).
Definition receive m c : client :=
  mkClient (requests c) (accepts c) (results c) (messages c) (requestHandler c) (sessionHandler c)
    (calls c) (writers c) (received c ++ [m]) (written c) (done c) (connClosed c) (crashed c).
Definition sends m c : client :=
  mkClient (requests c) (accepts c) (results c) (messages c) (requestHandler c) (sessionHandler c)
    (calls c) (writers c) (received c) (written c ++ [m]) (done c) (connClosed c) (crashed c).
Definition set_done d closed c : client :=
  mkClient (requests c) (accepts c) (results c) (messages c) (requestHandler c) (sessionHandler c)
    (calls c) (writers c) (received c) (written c) d closed (crashed c).
Definition crash p c : client :=
  mkClient (requests c) (accepts c) (results c) (messages c) (requestHandler c) (sessionHandler c)
    (calls c) (writers c) (received c) (written c) (done c) (connClosed c) (Some p).

(** [Close] may be called twice; [handleConnErr] ends the protocol when the
    connection is closed. *)
Definition Close c : client := set_done true true c.
Definition handleConnErr (err : error) c : client :=
  if bool_decide (err = net_ErrClosed) then set_done true (connClosed c) c else c.

(** ** [requestHandler] *)

Definition case_newRequest (j : nat) (target : Identity) (ad : bytes) c : client :=
  let id := EncodeToString target in
  match requests c !! id with
  | Some _ => set_requestHandler (RequestOffering j (inr ErrAlreadyRequested)) c
  | None => set_writers (writers c ++ [WriteRequest target ad j]) (set_requests (<[id := j]> (requests c)) c)
  end.

Definition case_requestResponse (target : Identity) (o : requestOutput) c : client :=
  match requests c !! EncodeToString target with
  | Some out => set_requestHandler (RequestOffering out o) c
  | None => c
  end.

Definition case_deleteRequest (target : Identity) c : client :=
  let id := EncodeToString target in
  match requests c !! id with
  | None => crash (PanicString "attempting to close a request which does not exist") c
  | Some _ => set_requests (delete id (requests c)) c
  end.

(** [offerRequestOutput]: the output is lost when the call is not at its select. *)
Definition offerRequestOutput (out : nat) (o : requestOutput) c : client :=
  match calls c !! out with
  | Some (RequestWaiting target) => set_call out (RequestDeleting target o) c
  | _ => c
  end.

(** ** [sessionHandler] *)

Definition case_waitAccept (j : nat) (target : Identity) c : client :=
  let id := EncodeToString target in
  match accepts c !! id with
  | Some _ => crash (PanicString "already waiting for an accept for this identity") c
  | None => set_waits (<[id := j]> (accepts c)) (results c) c
  end.

Definition case_waitResult (j : nat) (initiator : Identity) c : client :=
  let id := EncodeToString initiator in
  match results c !! id with
  | Some _ => crash (PanicString "already waiting for a result for this identity") c
  | None => set_waits (accepts c) (<[id := j]> (results c)) c
  end.

Definition case_newAccept (target : Identity) (ad : bytes) c : client :=
  let id := EncodeToString target in
  match accepts c !! id with
  | None => c
  | Some out => set_sessionHandler (SendingAccept out id ad) c
  end.

Definition case_newResult (r : establishedOrFailed) c : client :=
  match (match failed r, established r with
         | Some (_, peer), _ => Some (EncodeToString peer)
         | None, Some initiator => Some (EncodeToString initiator)
         | None, None => None
         end) with
  | None => crash (PanicString "result must be either failed or established") c
  | Some id =>
      match results c !! id with
      | None => c
      | Some out => set_sessionHandler (SendingResult out id r) c
      end
  end.

(** ** [messageHandler] *)

(** [handleMessage], up to its first send; an unexpected message ends the loop. *)
Definition handleMessage (m : RelayMessage) c : client :=
  match m with
  | SessionFailed reason peer =>
      set_messages (Responding peer (inr (reasonToError reason))
                      (Some (mkResult None (Some (reason, peer))))) c
  | SessionCreated session target => set_messages (Responding target (inl session) None) c
  | SessionAccepted target ad => set_messages (Accepting target ad) c
  | SessionInvitation session initiator ad => set_messages (Inviting (mkInfo session initiator) ad) c
  | SessionEstablished initiator => set_messages (Resulting (mkResult (Some initiator) None)) c
  | _ => Close (set_messages MessageReturned c)
  end.

Section Steps.
Context `{!ProtoMessage RelayMessage} `{!ProtoMessage RootMessage}.

(** A packet was read, or reading failed. *)
Definition messageHandler (r : bytes + error) c : client :=
  match r with
  | inr e => Close (set_messages MessageReturned c)
  | inl data =>
      if done c then Close (set_messages MessageReturned c)
      else match UnwrapMessage data with
      | (Some m, None) => handleMessage m (receive m c)
      | _ => Close (set_messages MessageReturned c)
      end
  end.

(** [Start]: [ctxErr] is the error of the context when it is done. *)
Definition Start (ctxErr : option error) (r : bytes + error) c : option error * client :=
  match r with
  | inr e => (Some e, handleConnErr e c)
  | inl data =>
      match ctxErr, UnwrapMessage data with
      | Some e, _ => (Some e, c)
      | None, (_, Some e) => (Some e, c)
      | None, (Some Connected, None) =>
          (None, set_messages Reading
            (set_requestHandler RequestSelecting (set_sessionHandler SessionSelecting c)))
      | None, (Some AlreadyConnected, None) => (Some ErrAlreadyConnected, c)
      | None, (_, None) => (Some UnexpectedMessage, c)
      end
  end.

(** ** Steps *)

Inductive event : Type :=
| ReadConn (r : bytes + error)                    (* messageHandler reads *)
| Respond                                         (* c.requestResponse <- *)
| Invite (j : option nat)                         (* c.newInvitation <- m, or nobody waits *)
| SendMessage                                     (* c.newAccept <-, c.newResult <- *)
| Offer                                           (* requestHandler offers an output *)
| Give                                            (* sessionHandler: out <- *)
| RequestHandlerDone
| Request (target : Identity) (ad : bytes)
| ReadAccept (target : Identity)
| ReadInvitation
| Accept (initiator : Identity) (ad : bytes)
| Step (j : nat) (err : option error)             (* the next statement of a call *)
| Cancel (j : nat) (e : error)                    (* <-ctx.Done() or <-c.done *)
| StepWriter (k : nat) (err : option error)
| CloseClient.

Definition is_invitation (x : call) : bool := match x with InvitationWaiting => true | _ => false end.

(** The next statement of call [j] that is not a receive; [err] is the result
    of a write. *)
Definition call_step (j : nat) (err : option error) c : option client :=
  x ← calls c !! j;
  match x, requestHandler c, sessionHandler c with
  | RequestNew target ad, RequestSelecting, _ =>
      Some (case_newRequest j target ad (set_call j (RequestSent target) c))
  | RequestSent target, _, _ => Some (set_call j (RequestWaiting target) c)
  | RequestDeleting target r, RequestSelecting, _ =>
      Some (case_deleteRequest target
        (set_call j (RequestReturned target (match r with
                                             | inl d => inl (mkInfo d target)
                                             | inr e => inr e
                                             end)) c))
  | ReadAcceptNew target, _, SessionSelecting =>
      Some (case_waitAccept j target (set_call j (ReadAcceptWaiting target) c))
  | AcceptNew initiator ad, _, SessionSelecting =>
      Some (case_waitResult j initiator (set_call j (AcceptWriting initiator ad) c))
  | AcceptWriting initiator ad, _, _ =>
      match WrapMessage (AcceptSession initiator ad) with
      | Ret (inr e) => Some (set_call j (AcceptReturned (Some e)) c)
      | Ret (inl data) =>
          Some (match (LengthOf data).2, err with
                | Some e, _ | None, Some e => set_call j (AcceptReturned (Some e)) c
                | None, None => set_call j (AcceptWaiting initiator) (sends (AcceptSession initiator ad) c)
                end)
      | Panic p => Some (crash p c)
      | Hang => None
      end
  | _, _, _ => None
  end.

(** [<-ctx.Done()] of [Request], [<-c.done] of the other methods. *)
Definition call_cancel (j : nat) (e : error) c : option client :=
  x ← calls c !! j;
  match x with
  | RequestWaiting target => Some (set_call j (RequestDeleting target (inr e)) c)
  | ReadAcceptWaiting _ => guard (done c);; Some (set_call j (ReadAcceptReturned (inr net_ErrClosed)) c)
  | InvitationWaiting => guard (done c);; Some (set_call j (InvitationReturned (inr net_ErrClosed)) c)
  | AcceptWaiting _ => guard (done c);; Some (set_call j (AcceptReturned (Some net_ErrClosed)) c)
  | _ => None
  end.

(** [writeRequest] *)
Definition writer_step (k : nat) (err : option error) c : option client :=
  w ← writers c !! k;
  let goto w := set_writers (<[k := w]> (writers c)) in
  match w with
  | WriteRequest target ad out =>
      match WrapMessage (RequestSession target ad) with
      | Ret (inr e) => Some (goto (WriteOffering out (ErrText "failed to wrap request message") None) c)
      | Ret (inl data) =>
          Some (match (LengthOf data).2, err with
                | Some e, _ | None, Some e =>
                    goto (WriteOffering out (ErrText "failed to write request message") (Some e)) c
                | None, None => goto WriteReturned (sends (RequestSession target ad) c)
                end)
      | Panic p => Some (crash p c)
      | Hang => None
      end
  | WriteOffering out e conn =>
      let c := offerRequestOutput out (inr e) (goto WriteReturned c) in
      Some (match conn with Some e => handleConnErr e c | None => c end)
  | WriteReturned => None
  end.

Definition client_step (e : event) c : option client :=
  match crashed c with
  | Some _ => None
  | None =>
      match e with
      | ReadConn r => match messages c with Reading => Some (messageHandler r c) | _ => None end
      | Respond =>
          match messages c, requestHandler c with
          | Responding target o next, RequestSelecting =>
              Some (case_requestResponse target o
                (set_messages (match next with Some r => Resulting r | None => Reading end) c))
          | _, _ => None
          end
      | Invite j =>
          match messages c, j with
          | Inviting info ad, Some j =>
              match calls c !! j with
              | Some InvitationWaiting =>
                  Some (set_call j (InvitationReturned (inl (info, ad))) (set_messages Reading c))
              | _ => None
              end
          | Inviting info ad, None =>
              if existsb is_invitation (calls c) then None else Some (set_messages Reading c)
          | _, _ => None
          end
      | SendMessage =>
          match messages c, sessionHandler c with
          | Accepting target ad, SessionSelecting => Some (case_newAccept target ad (set_messages Reading c))
          | Resulting r, SessionSelecting => Some (case_newResult r (set_messages Reading c))
          | _, _ => None
          end
      | Offer =>
          match requestHandler c with
          | RequestOffering out o => Some (offerRequestOutput out o (set_requestHandler RequestSelecting c))
          | _ => None
          end
      | Give =>
          match sessionHandler c with
          | SendingAccept out id ad =>
              match calls c !! out with
              | Some (ReadAcceptWaiting _) =>
                  Some (set_call out (ReadAcceptReturned (inl ad))
                    (set_waits (delete id (accepts c)) (results c) (set_sessionHandler SessionSelecting c)))
              | _ => None
              end
          | SendingResult out id r =>
              match calls c !! out with
              | Some (AcceptWaiting _) =>
                  Some (set_call out (AcceptReturned ((λ f, reasonToError f.1) <$> failed r))
                    (set_waits (accepts c) (delete id (results c)) (set_sessionHandler SessionSelecting c)))
              | _ => None
              end
          | _ => None
          end
      | RequestHandlerDone =>
          match requestHandler c with
          | RequestSelecting => guard (done c);; Some (set_requestHandler RequestHandlerReturned c)
          | _ => None
          end
      | Request target ad => Some (new_call (RequestNew target ad) c)
      | ReadAccept target => Some (new_call (ReadAcceptNew target) c)
      | ReadInvitation => Some (new_call InvitationWaiting c)
      | Accept initiator ad => Some (new_call (AcceptNew initiator ad) c)
      | Step j err => call_step j err c
      | Cancel j e => call_cancel j e c
      | StepWriter k err => writer_step k err c
      | CloseClient => Some (Close c)
      end
  end.

Fixpoint client_run (es : list event) c : option client :=
  match es with
  | [] => Some c
  | e :: es => c ← client_step e c; client_run es c
  end.
End Steps.

(** ** Answers to requests *)

(** The target of a call of [Request]. *)
Definition request_target (x : call) : option Identity :=
  match x with
  | RequestNew t _ | RequestSent t | RequestWaiting t | RequestDeleting t _ | RequestReturned t _ => Some t
  | _ => None
  end.

(** A session description for [t] was in a message of the server for [t]. *)
Definition output_ok c (t : Identity) (o : requestOutput) : Prop :=
  match o with inl d => SessionCreated d t ∈ received c | inr _ => True end.

Definition call_ok c (x : call) : Prop :=
  match x with
  | RequestDeleting t o => output_ok c t o
  | RequestReturned t (inl info) => PeerIdentity info = t ∧ SessionCreated (Description info) t ∈ received c
  | _ => True
  end.

Record requests_ok c : Prop := {
  ok_requests k j : requests c !! k = Some j →
    ∃ x t, calls c !! j = Some x ∧ request_target x = Some t ∧ k = EncodeToString t;
  ok_calls j x : calls c !! j = Some x → call_ok c x;
  ok_messages t o r : messages c = Responding t o r → output_ok c t o;
  ok_offering j o : requestHandler c = RequestOffering j o →
    ∃ x t, calls c !! j = Some x ∧ request_target x = Some t ∧ output_ok c t o
}.

Lemma output_ok_mono c c' t o :
  (∀ m, m ∈ received c → m ∈ received c') → output_ok c t o → output_ok c' t o.
Proof. destruct o; simpl; auto. Qed.

Lemma call_ok_mono c c' x :
  (∀ m, m ∈ received c → m ∈ received c') → call_ok c x → call_ok c' x.
Proof. destruct x as [| | |t o|t [[]|]| | | | | | | | |]; simpl; auto; [apply output_ok_mono|naive_solver]. Qed.

(** A call goes on and stays a call of the same method with the same target. *)
Lemma requests_ok_call c c' j x x' :
  calls c !! j = Some x → (request_target x = None ∨ request_target x' = request_target x) → call_ok c x' →
  requests c' = requests c → calls c' = <[j := x']> (calls c) → received c' = received c →
  (∀ t o r, messages c' = Responding t o r → messages c = Responding t o r) →
  (∀ i o, requestHandler c' = RequestOffering i o → requestHandler c = RequestOffering i o) →
  requests_ok c → requests_ok c'.
Proof.
  intros Hj Ht Hx Hr Hc Hrec Hm Ho [].
  assert (∀ i y t, calls c !! i = Some y → request_target y = Some t →
            ∃ y', calls c' !! i = Some y' ∧ request_target y' = Some t) as Hkeep.
  { intros i y t Hi Hy. rewrite Hc. destruct (decide (i = j)) as [->|].
    - rewrite list_lookup_insert_eq by (by eapply lookup_lt_Some). exists x'. split; [done|].
      destruct Ht; congruence.
    - rewrite list_lookup_insert_ne by done. eauto. }
  assert (∀ y, call_ok c y → call_ok c' y) as Hco by (intros y; apply call_ok_mono; by rewrite Hrec).
  split.
  - intros k i Hi. rewrite Hr in Hi. destruct (ok_requests0 k i Hi) as (y & t & H1 & H2 & H3).
    destruct (Hkeep i y t H1 H2) as (y' & H4 & H5). eauto.
  - intros i y Hi. rewrite Hc in Hi. apply list_lookup_insert_Some in Hi as [(_ & <- & _)|[_ Hi]]; eauto.
  - intros t o r H. apply Hm in H. apply ok_messages0 in H. revert H. apply output_ok_mono. by rewrite Hrec.
  - intros i o H. apply Ho in H. destruct (ok_offering0 i o H) as (y & t & H1 & H2 & H3).
    destruct (Hkeep i y t H1 H2) as (y' & H4 & H5). exists y', t. split_and!; [done..|].
    revert H3. apply output_ok_mono. by rewrite Hrec.
Qed.

(** The calls stay as they are. *)
Lemma requests_ok_frame c c' :
  (∀ k j, requests c' !! k = Some j → requests c !! k = Some j ∨
     ∃ x t, calls c !! j = Some x ∧ request_target x = Some t ∧ k = EncodeToString t) →
  calls c' = calls c →
  (∀ m, m ∈ received c → m ∈ received c') →
  (∀ t o r, messages c' = Responding t o r → messages c = Responding t o r ∨ output_ok c' t o) →
  (∀ i o, requestHandler c' = RequestOffering i o → requestHandler c = RequestOffering i o ∨
     ∃ x t, calls c !! i = Some x ∧ request_target x = Some t ∧ output_ok c' t o) →
  requests_ok c → requests_ok c'.
Proof.
  intros Hr Hc Hrec Hm Ho []. split; rewrite ?Hc.
  - intros k j [H|H]%Hr; eauto.
  - intros j x Hx. apply ok_calls0 in Hx. revert Hx. by apply call_ok_mono.
  - intros t o r [H|H]%Hm; [|done]. apply ok_messages0 in H. revert H. by apply output_ok_mono.
  - intros i o [H|H]%Ho; [|done]. destruct (ok_offering0 i o H) as (x & t & H1 & H2 & H3).
    exists x, t. split_and!; [done..|]. revert H3. by apply output_ok_mono.
Qed.

Lemma requests_ok_new x c : call_ok c x → requests_ok c → requests_ok (new_call x c).
Proof.
  intros Hx []. assert (∀ j y, calls c !! j = Some y → (calls c ++ [x]) !! j = Some y) as Hkeep.
  { intros j y Hj. apply lookup_app_l_Some. done. }
  split; simpl.
  - intros k j Hj. destruct (ok_requests0 k j Hj) as (y & t & H1 & H2 & H3). eauto 6.
  - intros j y [Hj|[_ Hj]]%lookup_app_Some; [by apply ok_calls0 in Hj|].
    apply list_lookup_singleton_Some in Hj as [_ <-]. done.
  - done.
  - intros j o Hj. destruct (ok_offering0 j o Hj) as (y & t & H1 & H2 & H3). exists y, t. eauto.
Qed.

(** Close a goal about a step that leaves requests and answers alone. *)
Ltac frame c :=
  apply (requests_ok_frame c); simpl in *; [by left|done|done|by left|by left|assumption].

(** Close a goal about a step of call [j] that gets no answer. *)
Ltac call_move c j :=
  match goal with |- context [set_call j ?x' _] =>
    eapply (requests_ok_call c _ j _ x');
      [eassumption|first [by left|by right]|done|done..|assumption]
  end.

Section Preserved.
Context `{!ProtoMessage RelayMessage} `{!ProtoMessage RootMessage}.

Lemma offer_ok out o c :
  (∀ t, calls c !! out = Some (RequestWaiting t) → output_ok c t o) →
  requests_ok c → requests_ok (offerRequestOutput out o c).
Proof.
  intros Ho Hc. unfold offerRequestOutput. destruct (calls c !! out) as [[]|] eqn:E; try done.
  apply (requests_ok_call c _ out (RequestWaiting target) (RequestDeleting target o)); try done; [by right|].
  by apply Ho.
Qed.

Lemma messageHandler_ok r c : messages c = Reading → requests_ok c → requests_ok (messageHandler r c).
Proof.
  intros Hm Hc. assert (requests_ok (Close (set_messages MessageReturned c))) as Hclose by frame c.
  unfold messageHandler. destruct r as [data|]; [|done]. destruct (done c); [done|].
  destruct (UnwrapMessage data) as [[m|] [e|]]; try done.
  assert (∀ x, x ∈ received c → x ∈ received c ++ [m]) as Hmono by (intros x ?; by apply elem_of_app; left).
  destruct m; simpl; apply (requests_ok_frame c); simpl; try done; try (by left);
    intros ? ? ? [= <- <- <-]; right; simpl; [done|]. apply elem_of_app. right. by apply list_elem_of_singleton.
Qed.

Lemma case_newRequest_ok j target ad c :
  calls c !! j = Some (RequestSent target) → requests_ok c → requests_ok (case_newRequest j target ad c).
Proof.
  intros Hj Hc. unfold case_newRequest. destruct (requests c !! _) eqn:E.
  - apply (requests_ok_frame c); simpl; [by left|done|done|by left| |done].
    intros i o [= <- <-]. right. by exists (RequestSent target), target.
  - apply (requests_ok_frame c); simpl; [|done|done|by left|by left|done].
    intros k i [[<- <-]|[_ H]]%lookup_insert_Some; [right|by left].
    by exists (RequestSent target), target.
Qed.

Lemma case_requestResponse_ok target o c :
  output_ok c target o → requests_ok c → requests_ok (case_requestResponse target o c).
Proof.
  intros Ho Hc. unfold case_requestResponse. destruct (requests c !! _) as [out|] eqn:E; [|done].
  destruct (ok_requests c Hc _ _ E) as (x & t & H1 & H2 & H3%(inj EncodeToString)). subst t.
  apply (requests_ok_frame c); simpl; [by left|done|done|by left| |done].
  intros i o' [= <- <-]. right. by exists x, target.
Qed.

Lemma call_step_ok j err c c' : requests_ok c → call_step j err c = Some c' → requests_ok c'.
Proof.
  intros Hc. unfold call_step. destruct (calls c !! j) as [x|] eqn:Hj; [|done]. simpl.
  assert (j < length (calls c))%nat by by eapply lookup_lt_Some.
  destruct x as [target ad|target|target|target r|target r|target|target| | | |initiator ad|initiator ad|initiator|];
    try discriminate.
  - destruct (requestHandler c) eqn:Eh; try discriminate. intros [= <-].
    apply case_newRequest_ok; [by apply list_lookup_insert_eq|]. call_move c j.
  - intros [= <-]. call_move c j.
  - destruct (requestHandler c) eqn:Eh; try discriminate. intros [= <-].
    assert (requests_ok (set_call j (RequestReturned target
      (match r with inl d => inl (mkInfo d target) | inr e => inr e end)) c)) as H1.
    { eapply (requests_ok_call c _ j _ (RequestReturned target
        (match r with inl d => inl (mkInfo d target) | inr e => inr e end))); try done; [by right|].
      apply (ok_calls c Hc) in Hj. by destruct r. }
    revert H1. generalize (set_call j (RequestReturned target
      (match r with inl d => inl (mkInfo d target) | inr e => inr e end)) c). intros c1 H1.
    unfold case_deleteRequest. destruct (requests c1 !! _).
    + apply (requests_ok_frame c1); simpl; [|done|done|by left|by left|done].
      intros k i [_ Hk]%lookup_delete_Some. by left.
    + frame c1.
  - destruct (requestHandler c), (sessionHandler c); try discriminate; intros [= <-];
      unfold case_waitAccept; simpl; destruct (accepts c !! _); call_move c j.
  - destruct (requestHandler c), (sessionHandler c); try discriminate; intros [= <-];
      unfold case_waitResult; simpl; destruct (results c !! _); call_move c j.
  - intros H1. destruct (WrapMessage _) as [[data|]| |]; [| | |by destruct (requestHandler c)].
    + destruct (LengthOf data).2, err; destruct (requestHandler c); simplify_eq/=; call_move c j.
    + destruct (requestHandler c); simplify_eq/=; call_move c j.
    + destruct (requestHandler c); simplify_eq/=; frame c.
Qed.

Lemma call_cancel_ok j e c c' : requests_ok c → call_cancel j e c = Some c' → requests_ok c'.
Proof.
  intros Hc. unfold call_cancel. destruct (calls c !! j) as [[]|] eqn:Hj; try done; simpl;
    try (case_guard; [|done]); intros [= <-]; call_move c j.
Qed.

Lemma writer_step_ok k err c c' : requests_ok c → writer_step k err c = Some c' → requests_ok c'.
Proof.
  intros Hc. unfold writer_step. destruct (writers c !! k) as [[target ad out|out e conn|]|]; try done; simpl.
  - destruct (WrapMessage _) as [[data|]| |]; try done; [destruct (LengthOf data).2, err| |];
      intros [= <-]; frame c.
  - intros [= <-]. assert (requests_ok (offerRequestOutput out (inr e)
      (set_writers (<[k := WriteReturned]> (writers c)) c))) as H1 by (apply offer_ok; [done|frame c]).
    destruct conn; [|done]. unfold handleConnErr. case_bool_decide; [|done].
    revert H1. generalize (offerRequestOutput out (inr e) (set_writers (<[k := WriteReturned]> (writers c)) c)).
    intros c1 H1. frame c1.
Qed.

Lemma client_step_ok e c c' : requests_ok c → client_step e c = Some c' → requests_ok c'.
Proof.
  intros Hc. unfold client_step. destruct (crashed c); [done|]. destruct e; intros Hs.
  - destruct (messages c) eqn:Hm; simplify_eq/=. by apply messageHandler_ok.
  - destruct (messages c) eqn:Hm, (requestHandler c); simplify_eq/=.
    pose proof (ok_messages c Hc _ _ _ Hm). apply case_requestResponse_ok; [done|].
    apply (requests_ok_frame c); simpl; [by left|done|done| |by left|done]. by destruct next.
  - destruct (messages c) eqn:Hm, j as [j|]; try done.
    + destruct (calls c !! j) as [[]|] eqn:Hj; simplify_eq/=. call_move c j.
    + destruct (existsb _ _); simplify_eq/=. frame c.
  - destruct (messages c) eqn:Hm, (sessionHandler c); simplify_eq/=.
    + unfold case_newAccept. simpl. destruct (accepts c !! _); frame c.
    + unfold case_newResult. destruct (failed r) as [[]|], (established r); simpl;
        try (destruct (results c !! _)); frame c.
  - destruct (requestHandler c) eqn:Hr; simplify_eq/=. apply offer_ok; [|frame c].
    intros t Ht. destruct (ok_offering c Hc _ _ Hr) as (x & t' & H1 & H2 & H3). simpl in Ht.
    rewrite Ht in H1. by simplify_eq/=.
  - destruct (sessionHandler c); try done; destruct (calls c !! out) as [[]|] eqn:Hj; simplify_eq/=;
      call_move c out.
  - destruct (requestHandler c) eqn:Hr; try done. simpl in Hs. case_guard; simplify_eq/=. frame c.
  - simplify_eq/=. by apply requests_ok_new.
  - simplify_eq/=. by apply requests_ok_new.
  - simplify_eq/=. by apply requests_ok_new.
  - simplify_eq/=. by apply requests_ok_new.
  - by eapply call_step_ok.
  - by eapply call_cancel_ok.
  - by eapply writer_step_ok.
  - simplify_eq/=. frame c.
Qed.

Lemma client_run_ok es c c' : requests_ok c → client_run es c = Some c' → requests_ok c'.
Proof.
  revert c. induction es as [|e es IH]; intros c Hc; simpl; [by intros [= <-]|].
  destruct (client_step e c) as [c1|] eqn:E; simpl; [|done]. apply IH. by eapply client_step_ok.
Qed.

Lemma Start_ok ctxErr r : requests_ok (Start ctxErr r NewClientProtocol).2.
Proof.
  assert (requests_ok NewClientProtocol) as H0.
  { split; simpl; try done; intros ? ?; rewrite ?lookup_empty; done. }
  unfold Start. destruct r as [data|]; simpl.
  - destruct ctxErr; [done|]. by destruct (UnwrapMessage data) as [[[]|] []].
  - unfold handleConnErr. case_bool_decide; [|done]. frame NewClientProtocol.
Qed.
End Preserved.

(** ** Properties *)

(** An encoding for witnesses: [SessionCreated] for an identity of one byte. *)
Definition demo_relay_proto : ProtoMessage RelayMessage := {|
  Marshal m := inl (match m with SessionCreated _ t => t | _ => [] end);
  Unmarshal b m := inl (match m with SessionCreated _ _ => SessionCreated None b | m => m end)
|}.
Definition demo_root_proto : ProtoMessage RootMessage := {|
  Marshal r := inl (byte_of_Z (root_Type r) :: root_Content r);
  Unmarshal b r := match b with [] => inl r | t :: l => inl (mkRoot (byte_to_Z t) l) end
|}.
#[local] Existing Instances demo_relay_proto demo_root_proto.

Definition demo_client : client := (Start None (inl [Byte.x01]) NewClientProtocol).2.
Definition demo_after (es : list event) : client := default demo_client (client_run es demo_client).
Definition demo_peer : Identity := [Byte.x07].

(** A request that is answered. *)
Definition demo_answered : list event :=
  [Request demo_peer []; Step 0 None; Step 0 None; StepWriter 0 None;
   ReadConn (inl [Byte.x05; Byte.x07]); Respond; Offer; Step 0 None].
(** Two requests for the same peer. *)
Definition demo_twice : list event :=
  [Request demo_peer []; Step 0 None; Step 0 None; Request demo_peer []].

(** C22: a request gets the session it asked for.  In every run of a client,
    whatever the server sends and however calls interleave, a call of [Request]
    that succeeds returns the identity it was called with, and a description that
    the server has sent in a [SessionCreated] message for that identity. *)
Theorem relay_client_request_sound `{!ProtoMessage RelayMessage} `{!ProtoMessage RootMessage}
    (ctxErr : option error) (r : bytes + error) (es : list event) c (j : nat) (target : Identity)
    (info : SessionInfo) :
  client_run es (Start ctxErr r NewClientProtocol).2 = Some c →
  calls c !! j = Some (RequestReturned target (inl info)) →
  PeerIdentity info = target ∧ SessionCreated (Description info) target ∈ received c.
Proof.
  intros Hr Hj. pose proof (client_run_ok es _ c (Start_ok ctxErr r) Hr) as Hc.
  exact (ok_calls c Hc j _ Hj).
Qed.

Lemma relay_client_request_sound_witness :
  SessionCreated None demo_peer ∈ received (demo_after demo_answered).
Proof.
  apply (relay_client_request_sound None (inl [Byte.x01]) demo_answered (demo_after demo_answered) 0
    demo_peer (mkInfo None demo_peer)).
  - vm_compute. reflexivity.
  - vm_compute. reflexivity.
Defined.

(** A second request for the same target breaks the first one.  While a call
    of [Request] waits for its answer, another one for the same target is told that
    a request is in progress, and then deletes the entry of the first call: no
    answer reaches the first call any more, and when its context ends the process
    panics. *)
Theorem relay_client_duplicate_request_panics `{!ProtoMessage RelayMessage} `{!ProtoMessage RootMessage}
    c (i j : nat) (target : Identity) (ad : bytes) (e : error) :
  crashed c = None → requestHandler c = RequestSelecting →
  requests c !! EncodeToString target = Some i →
  calls c !! i = Some (RequestWaiting target) → calls c !! j = Some (RequestNew target ad) →
  ∃ c1 c2,
    client_run [Step j None; Step j None; Offer; Step j None] c = Some c1 ∧
    calls c1 !! j = Some (RequestReturned target (inr ErrAlreadyRequested)) ∧
    (∀ o, case_requestResponse target o c1 = c1) ∧
    client_run [Cancel i e; Step i None] c1 = Some c2 ∧
    crashed c2 = Some (PanicString "attempting to close a request which does not exist").
Proof.
  intros Hcr Hsel Hreq Hi Hj. assert (i ≠ j) as Hne by congruence.
  assert (i < length (calls c))%nat as Hli by by eapply lookup_lt_Some.
  assert (j < length (calls c))%nat as Hlj by by eapply lookup_lt_Some.
  set (c1 := set_requestHandler (RequestOffering j (inr ErrAlreadyRequested))
               (set_call j (RequestSent target) c)).
  assert (client_step (Step j None) c = Some c1) as E1.
  { unfold client_step, call_step. rewrite Hcr, Hj. simpl. rewrite Hsel. unfold case_newRequest. simpl.
    by rewrite Hreq. }
  set (c2 := set_call j (RequestWaiting target) c1).
  assert (client_step (Step j None) c1 = Some c2) as E2.
  { unfold client_step, call_step. simpl. by rewrite Hcr, list_lookup_insert_eq. }
  set (c3 := set_call j (RequestDeleting target (inr ErrAlreadyRequested))
               (set_requestHandler RequestSelecting c2)).
  assert (client_step Offer c2 = Some c3) as E3.
  { unfold client_step, offerRequestOutput. simpl. rewrite Hcr.
    by rewrite list_lookup_insert_eq by (by rewrite length_insert). }
  set (c4 := set_requests (delete (EncodeToString target) (requests c))
               (set_call j (RequestReturned target (inr ErrAlreadyRequested)) c3)).
  assert (client_step (Step j None) c3 = Some c4) as E4.
  { unfold client_step, call_step. simpl. rewrite Hcr.
    rewrite list_lookup_insert_eq by (by rewrite !length_insert). simpl.
    unfold case_deleteRequest. simpl. by rewrite Hreq. }
  assert (calls c4 !! i = Some (RequestWaiting target)) as Hi4.
  { simpl. by rewrite !list_lookup_insert_ne by done. }
  set (c5 := set_call i (RequestDeleting target (inr e)) c4).
  assert (client_step (Cancel i e) c4 = Some c5) as E5.
  { unfold client_step, call_cancel. rewrite Hi4. simpl. by rewrite Hcr. }
  assert (calls c5 !! i = Some (RequestDeleting target (inr e))) as Hi5.
  { simpl. apply list_lookup_insert_eq. by rewrite !length_insert. }
  exists c4. eexists. split; [cbn -[client_step]; rewrite E1; cbn -[client_step]; rewrite E2;
    cbn -[client_step]; rewrite E3; cbn -[client_step]; by rewrite E4|].
  split; [simpl; apply list_lookup_insert_eq; by rewrite !length_insert|].
  split; [intros o; unfold case_requestResponse; simpl; by rewrite lookup_delete_eq|].
  split; [cbn -[client_step]; rewrite E5; cbn -[client_step]; unfold client_step at 1, call_step;
    rewrite Hi5; simpl; rewrite Hcr; unfold case_deleteRequest; simpl; by rewrite lookup_delete_eq|done].
Qed.

Lemma relay_client_duplicate_request_panics_witness :
  ∃ c1 c2,
    client_run [Step 1 None; Step 1 None; Offer; Step 1 None] (demo_after demo_twice) = Some c1 ∧
    client_run [Cancel 0 (ErrExternal 0); Step 0 None] c1 = Some c2 ∧
    crashed c2 = Some (PanicString "attempting to close a request which does not exist").
Proof.
  destruct (relay_client_duplicate_request_panics (demo_after demo_twice) 0 1 demo_peer [] (ErrExternal 0))
    as (c1 & c2 & H1 & _ & _ & H2 & H3).
  - vm_compute. reflexivity.
  - vm_compute. reflexivity.
  - vm_compute. reflexivity.
  - vm_compute. reflexivity.
  - vm_compute. reflexivity.
  - exists c1, c2. split; [exact H1|split; [exact H2|exact H3]].
Defined.
