(* ===== verification/Network.v ===== *)
(** * Network: networks of the device ([lib/network])

    [net.go]: a network is an address with its mask and the interface it was
    found on; its broadcast address.  [todo.go]: the tracker that lists the
    networks of the interfaces that are up.  The interfaces of the operating
    system ([net.Interfaces]) are an argument of [Listen]. *)

From S2P Require Import Prelude GoSem.

Local Open Scope Z_scope.

(** ** Package [net] *)

Definition FlagUp : Z := Z.shiftl 1 0.
Definition FlagBroadcast : Z := Z.shiftl 1 1.
Definition FlagLoopback : Z := Z.shiftl 1 2.

Record IPNet : Type := mkIPNet { IP : bytes; Mask : bytes }.

(** What [Interface.Addrs] lists: an [*net.IPNet] or another address type. *)
Inductive net_Addr : Type :=
| AddrIPNet (n : IPNet)
| AddrOther (text : string).

(** An interface and the answer to [Addrs] on it. *)
Record net_Interface : Type := mkInterface {
  Name : string;
  Flags : Z;
  Addrs : list net_Addr + error
}.

(** [ip.To4()]: a 4-byte address, or the last four bytes of an IPv4 address in
    its 16-byte form; [None] is [nil]. *)
Definition To4 (ip : bytes) : option bytes :=
  if zlen ip =? 4 then Some ip
  else if (zlen ip =? 16) && bool_decide (take 10 ip = replicate 10 Byte.x00)
       && bool_decide (sub ip 10 2 = [Byte.xff; Byte.xff])
  then Some (sub ip 12 4)
  else None.

(** [binary.BigEndian.Uint32(b)] reads the first four bytes. *)
Definition BigEndian_Uint32 (b : bytes) : outcome Z :=
  _ ← index b 3; mret (be_Z (take 4 b)).

(** [^m] on 32 bits. *)
Definition not32 (m : Z) : Z := Z.lxor m (Z.ones 32).

(** ** [network.Net] *)

Record Net : Type := mkNet { ipnet : IPNet; Interface : net_Interface }.

Definition IsUp (n : Net) : bool := negb (Z.land (Flags (Interface n)) FlagUp =? 0).
Definition IsLoopback (n : Net) : bool := negb (Z.land (Flags (Interface n)) FlagLoopback =? 0).
Definition IsBroadcast (n : Net) : bool := negb (Z.land (Flags (Interface n)) FlagBroadcast =? 0).

Definition NotIPv4 : error := ErrText "not an IPv4 address".
Definition NotFourBytes : error := ErrText "ip is not 4 bytes long".

Definition BroadcastIp (n : Net) : outcome (option bytes * option error) :=
  match To4 (IP (ipnet n)) with
  | None => mret (None, Some NotIPv4)
  | Some ip4 =>
      if negb (zlen ip4 =? 4) then mret (None, Some NotFourBytes)
      else
        ip ← make_slice Byte.x00 1 (zlen ip4);
        addr ← BigEndian_Uint32 ip4;
        mask ← BigEndian_Uint32 (Mask (ipnet n));
        mret (Some (be_bytes 4 (Z.lor addr (not32 mask)) ++ drop 4 ip), None)
  end.

(** ** [todoTracker.Listen] *)

(** The inner loop: addresses that are no [*net.IPNet] are skipped. *)
Fixpoint add_nets (in_ : net_Interface) (addrs : list net_Addr) (present : list Net) : list Net :=
  match addrs with
  | [] => present
  | AddrOther _ :: addrs => add_nets in_ addrs present
  | AddrIPNet addr :: addrs => add_nets in_ addrs (present ++ [mkNet addr in_])
  end.

Fixpoint Listen_loop (ins : list net_Interface) (present : list Net) : list Net * option error :=
  match ins with
  | [] => (present, None)
  | in_ :: ins =>
      if Z.land (Flags in_) FlagUp =? 0 then Listen_loop ins present
      else match Addrs in_ with
      | inr e => (present, Some e)
      | inl inAddrs => Listen_loop ins (add_nets in_ inAddrs present)
      end
  end.

(** [ins] is the answer of [net.Interfaces()]; the channel of future networks
    is always [nil]. *)
Definition Listen (ins : list net_Interface + error) : list Net * option error :=
  match ins with
  | inr e => ([], Some e)
  | inl ins => Listen_loop ins []
  end.

(** ** The broadcast address *)


Lemma To4_length ip ip4 : To4 ip = Some ip4 → zlen ip4 = 4.
Proof.
  unfold To4. destruct (zlen ip =? 4) eqn:E4; [intros; simplify_eq; by apply Z.eqb_eq|].
  destruct (zlen ip =? 16) eqn:E16; simpl; [|done]. apply Z.eqb_eq in E16.
  case_match; intros; simplify_eq. rewrite zlen_sub; lia.
Qed.

(** An IPv4 address in its 16-byte form is the same address. *)
Lemma To4_mapped ip4 :
  zlen ip4 = 4 →
  To4 (replicate 10 Byte.x00 ++ [Byte.xff; Byte.xff] ++ ip4) = Some ip4 ∧ To4 ip4 = Some ip4.
Proof.
  intros H. destruct ip4 as [|a [|b [|c [|d [|? ?]]]]]; unfold zlen in H; simpl in H; try lia.
  by split.
Qed.

Lemma Uint32_ok b : 4 ≤ zlen b → BigEndian_Uint32 b = Ret (be_Z (take 4 b)).
Proof.
  intros H. destruct (lookup_lt_is_Some_2 b (Z.to_nat 3)) as [x Hx]; [unfold zlen in H; lia|].
  unfold BigEndian_Uint32. by rewrite (index_Some b 3 x).
Qed.

Lemma Uint32_short b : zlen b < 4 → BigEndian_Uint32 b = Panic PanicIndex.
Proof. intros H. unfold BigEndian_Uint32. by rewrite index_out by lia. Qed.

(** The bytes that [BroadcastIp] stores. *)
Lemma BroadcastIp_ok n ip4 :
  To4 (IP (ipnet n)) = Some ip4 → 4 ≤ zlen (Mask (ipnet n)) →
  BroadcastIp n =
    Ret (Some (be_bytes 4 (Z.lor (be_Z ip4) (not32 (be_Z (take 4 (Mask (ipnet n))))))), None).
Proof.
  intros H Hm. unfold BroadcastIp. rewrite H. pose proof (To4_length _ _ H) as Hl.
  rewrite Hl. cbn [negb Z.eqb Pos.eqb]. rewrite make_slice_ok by (unfold max_alloc; lia).
  simpl. rewrite !Uint32_ok by lia. rewrite (take_ge ip4) by (unfold zlen in Hl; lia). done.
Qed.

(** The mask of a network whose prefix has [k] bits, as [net.CIDRMask]. *)
Definition prefix_mask (k : Z) : Z := 2 ^ 32 - 2 ^ (32 - k).

Lemma not32_prefix_mask k : 0 ≤ k ≤ 32 → not32 (prefix_mask k) = Z.ones (32 - k).
Proof.
  intros H. unfold not32, prefix_mask.
  assert (2 ^ 32 = 2 ^ k * 2 ^ (32 - k)) as E by (rewrite <- Z.pow_add_r by lia; f_equal; lia).
  apply Z.bits_inj'. intros i Hi. rewrite Z.lxor_spec.
  replace (2 ^ 32 - 2 ^ (32 - k)) with (Z.ones k * 2 ^ (32 - k))
    by (rewrite Z.ones_equiv, E; unfold Z.pred; nia).
  rewrite !Z.testbit_ones_nonneg by lia.
  destruct (Z.lt_ge_cases i (32 - k)).
  - rewrite Z.mul_pow2_bits_low by lia. zcond. done.
  - rewrite Z.mul_pow2_bits by lia. rewrite Z.testbit_ones by lia.
    destruct (Z.ltb_spec i 32), (Z.ltb_spec i (32 - k)), (Z.ltb_spec (i - (32 - k)) k),
      (Z.leb_spec 0 (i - (32 - k))); simpl; lia || done.
Qed.

(** Setting the low bits gives the last number of the block. *)
Lemma lor_ones_last a h : 0 ≤ a → 0 ≤ h → Z.lor a (Z.ones h) = a / 2 ^ h * 2 ^ h + (2 ^ h - 1).
Proof.
  intros Ha Hh. assert (0 < 2 ^ h) by (apply Z.pow_pos_nonneg; lia).
  replace (2 ^ h - 1) with (Z.ones h) by (rewrite Z.ones_equiv; lia).
  rewrite <- (Z.shiftr_div_pow2 a h), <- (Z.shiftl_mul_pow2 _ h) by lia.
  assert (Z.land (Z.shiftl (Z.shiftr a h) h) (Z.ones h) = 0) as Hz.
  { apply Z.bits_inj'. intros i Hi. rewrite Z.land_spec, Z.shiftl_spec, Z.testbit_ones_nonneg, Z.bits_0 by lia.
    destruct (Z.ltb_spec i h); [|apply andb_false_r]. rewrite Z.testbit_neg_r by lia. done. }
  pose proof (Z.add_lor_land (Z.shiftl (Z.shiftr a h) h) (Z.ones h)) as E.
  rewrite Hz, Z.add_0_r in E. rewrite <- E.
  apply Z.bits_inj'. intros i Hi. rewrite !Z.lor_spec, Z.shiftl_spec, Z.testbit_ones_nonneg by lia.
  destruct (Z.ltb_spec i h); [by rewrite !orb_true_r|].
  rewrite Z.shiftr_spec by lia. by replace (i - h + h) with i by lia.
Qed.

Lemma not32_bits m i : 0 ≤ i < 32 → Z.testbit (not32 m) i = negb (Z.testbit m i).
Proof.
  intros Hi. unfold not32.
  rewrite Z.lxor_spec, Z.testbit_ones_nonneg by lia. zcond. apply xorb_true_r.
Qed.

Lemma high_bits_zero a i : 0 ≤ a < 2 ^ 32 → 32 ≤ i → Z.testbit a i = false.
Proof.
  intros Ha Hi. rewrite <- (Z.mod_small a (2 ^ 32)) by lia. by apply Z.mod_pow2_bits_high; lia.
Qed.

Lemma lor_not32_range a m : 0 ≤ a < 2 ^ 32 → 0 ≤ m < 2 ^ 32 → 0 ≤ Z.lor a (not32 m) < 2 ^ 32.
Proof.
  intros Ha Hm. assert (0 ≤ Z.lor a (not32 m)) as H0.
  { apply Z.lor_nonneg. split; [lia|]. apply Z.lxor_nonneg. split; [by intros|lia]. }
  split; [done|]. destruct (Z.eq_dec (Z.lor a (not32 m)) 0) as [->|Hne]; [lia|].
  apply Z.log2_lt_pow2; [lia|]. apply Z.nle_gt. intros Hle.
  pose proof (Z.bit_log2 (Z.lor a (not32 m)) ltac:(lia)) as Hb. revert Hb. unfold not32 in *.
  rewrite Z.lor_spec, Z.lxor_spec, Z.testbit_ones_nonneg, !high_bits_zero by lia. by zcond.
Qed.

(** [IPNet.Contains] on numbers: the addresses agree under the mask. *)
Definition same_net (mask a b : Z) : Prop := Z.land a mask = Z.land b mask.

Lemma lor_not32_same_net a m :
  0 ≤ a < 2 ^ 32 → 0 ≤ m < 2 ^ 32 → same_net m a (Z.lor a (not32 m)).
Proof.
  intros Ha Hm. apply Z.bits_inj'. intros i Hi. rewrite !Z.land_spec, Z.lor_spec.
  destruct (Z.lt_ge_cases i 32).
  - rewrite not32_bits by lia. destruct (Z.testbit a i), (Z.testbit m i); done.
  - by rewrite (high_bits_zero m) by lia; rewrite !andb_false_r.
Qed.

Lemma lor_not32_highest a b m :
  0 ≤ a < 2 ^ 32 → 0 ≤ m < 2 ^ 32 → 0 ≤ b < 2 ^ 32 → same_net m a b → b ≤ Z.lor a (not32 m).
Proof.
  intros Ha Hm Hb Hs. apply Z.ldiff_le; [by apply lor_not32_range|].
  apply Z.bits_inj'. intros i Hi. rewrite Z.bits_0, Z.ldiff_spec, Z.lor_spec.
  destruct (Z.lt_ge_cases i 32).
  - apply (f_equal (λ z, Z.testbit z i)) in Hs. rewrite !Z.land_spec in Hs.
    rewrite not32_bits by lia. destruct (Z.testbit a i), (Z.testbit m i), (Z.testbit b i); done.
  - by rewrite (high_bits_zero b).
Qed.

(** The tracker's loops, as one expression. *)
Definition nets_of (in_ : net_Interface) : list Net :=
  match Addrs in_ with
  | inl addrs => omap (λ a, if a is AddrIPNet n then Some (mkNet n in_) else None) addrs
  | inr _ => []
  end.

Definition up (in_ : net_Interface) : bool := negb (Z.land (Flags in_) FlagUp =? 0).

Lemma add_nets_eq in_ addrs present :
  add_nets in_ addrs present =
  present ++ omap (λ a, if a is AddrIPNet n then Some (mkNet n in_) else None) addrs.
Proof.
  revert present. induction addrs as [|[n|t] addrs IH]; intros present; simpl.
  - by rewrite app_nil_r.
  - by rewrite IH, <- app_assoc.
  - by rewrite IH.
Qed.

Lemma Listen_loop_app ins rest present :
  Forall (λ i, up i → ∃ l, Addrs i = inl l) ins →
  Listen_loop (ins ++ rest) present =
  Listen_loop rest (present ++ (filter up ins ≫= nets_of)).
Proof.
  intros H. revert present. induction H as [|i ins Hi _ IH]; intros present; simpl.
  { by rewrite app_nil_r. }
  unfold up in *. rewrite filter_cons. destruct (Z.land (Flags i) FlagUp =? 0) eqn:E; simpl in *.
  - by rewrite IH.
  - destruct (Hi I) as [addrs Ha]. rewrite Ha, IH, add_nets_eq, <- app_assoc.
    assert (nets_of i = omap (λ a, if a is AddrIPNet n then Some (mkNet n i) else None) addrs) as ->
      by (unfold nets_of; by rewrite Ha).
    done.
Qed.

(** ** Properties *)

(** C40: the broadcast address that [BroadcastIp] computes with bit operations
    is the highest address of the network: it lies in the network (it agrees
    with the interface's address under the mask) and no address of the network
    is greater, whatever the mask is; for a mask that is a prefix of [k] bits
    it is the last address of the block of [2 ^ (32 - k)] addresses.  The
    address may be given in the 4-byte or in the 16-byte form. *)
Theorem broadcast_ip_highest (n : Net) (ip4 : bytes) :
  To4 (IP (ipnet n)) = Some ip4 → 4 ≤ zlen (Mask (ipnet n)) →
  let mask := be_Z (take 4 (Mask (ipnet n))) in
  ∃ ip, BroadcastIp n = Ret (Some ip, None) ∧ zlen ip = 4 ∧
    same_net mask (be_Z ip4) (be_Z ip) ∧
    (∀ b, zlen b = 4 → same_net mask (be_Z ip4) (be_Z b) → be_Z b ≤ be_Z ip) ∧
    (∀ k, 0 ≤ k ≤ 32 → mask = prefix_mask k →
       be_Z ip = be_Z ip4 / 2 ^ (32 - k) * 2 ^ (32 - k) + (2 ^ (32 - k) - 1)).
Proof.
  intros Hip Hm mask. eexists. split; [by apply BroadcastIp_ok|]. fold mask.
  pose proof (be_Z_range ip4) as Ha. rewrite (To4_length _ _ Hip) in Ha. change (8 * 4) with 32 in Ha.
  assert (0 ≤ mask < 2 ^ 32) as Hmask.
  { pose proof (be_Z_range (take 4 (Mask (ipnet n)))) as H. rewrite zlen_take in H.
    replace (8 * _) with 32 in H by lia. done. }
  rewrite be_Z_be_bytes. change (8 * Z.of_nat 4) with 32.
  rewrite Z.mod_small by (by apply lor_not32_range). split_and!.
  - by rewrite zlen_be_bytes.
  - by apply lor_not32_same_net.
  - intros b Hb Hs. pose proof (be_Z_range b) as Hr. rewrite Hb in Hr. by apply lor_not32_highest.
  - intros k Hk Heq. rewrite Heq, not32_prefix_mask by done. apply lor_ones_last; lia.
Qed.

(** The network 192.168.7.20/22, with the address in its 16-byte form. *)
Definition demo_net : Net :=
  mkNet (mkIPNet (replicate 10 Byte.x00 ++ [Byte.xff; Byte.xff] ++ [Byte.xc0; Byte.xa8; Byte.x07; Byte.x14])
           [Byte.xff; Byte.xff; Byte.xfc; Byte.x00])
    (mkInterface "eth0" 3 (inl [])).

Lemma broadcast_ip_highest_witness :
  ∃ ip, BroadcastIp demo_net = Ret (Some ip, None) ∧ ip = [Byte.xc0; Byte.xa8; Byte.x07; Byte.xff] ∧
    ∀ b, zlen b = 4 → same_net (prefix_mask 22) 3232237332 (be_Z b) → be_Z b ≤ be_Z ip.
Proof.
  destruct (broadcast_ip_highest demo_net [Byte.xc0; Byte.xa8; Byte.x07; Byte.x14])
    as (ip & H1 & H2 & H3 & H4 & _).
  - reflexivity.
  - discriminate.
  - exists ip. split; [exact H1|]. split; [|exact H4].
    assert (BroadcastIp demo_net = Ret (Some [Byte.xc0; Byte.xa8; Byte.x07; Byte.xff], None)) as E
      by reflexivity.
    congruence.
Defined.

(** [BroadcastIp] on the other inputs: an address that is not an IPv4 address
    is an error, and a mask of less than four bytes is an index panic. *)
Lemma BroadcastIp_errors n :
  (To4 (IP (ipnet n)) = None → BroadcastIp n = Ret (None, Some NotIPv4)) ∧
  (∀ ip4, To4 (IP (ipnet n)) = Some ip4 → zlen (Mask (ipnet n)) < 4 → BroadcastIp n = Panic PanicIndex).
Proof.
  unfold BroadcastIp. split; [by intros ->|]. intros ip4 H Hm. rewrite H.
  pose proof (To4_length _ _ H) as Hl. rewrite Hl. cbn [negb Z.eqb Pos.eqb].
  rewrite make_slice_ok by (unfold max_alloc; lia). simpl.
  rewrite (Uint32_ok ip4), Uint32_short by lia. done.
Qed.

Lemma BroadcastIp_cases n :
  (∃ ip, BroadcastIp n = Ret (Some ip, None)) ∨ BroadcastIp n = Ret (None, Some NotIPv4) ∨
  BroadcastIp n = Panic PanicIndex.
Proof.
  destruct (BroadcastIp_errors n) as [H1 H2]. destruct (To4 (IP (ipnet n))) as [ip4|] eqn:E; [|auto].
  destruct (Z.lt_ge_cases (zlen (Mask (ipnet n))) 4); [eauto|].
  left. eexists. apply (BroadcastIp_ok n ip4); [done|lia].
Qed.

(** The tracker lists exactly the IP networks of the interfaces that are
    up, in the order of the interfaces and of their addresses; when the
    addresses of an interface cannot be read it stops there and returns the
    networks found so far with the error. *)
Theorem tracker_listen (ok : list net_Interface) :
  Forall (λ i, up i → ∃ l, Addrs i = inl l) ok →
  Listen (inl ok) = (filter up ok ≫= nets_of, None) ∧
  (∀ bad rest e, up bad → Addrs bad = inr e →
     Listen (inl (ok ++ bad :: rest)) = (filter up ok ≫= nets_of, Some e)) ∧
  Forall IsUp (Listen (inl ok)).1.
Proof.
  intros Hok. assert (Listen (inl ok) = (filter up ok ≫= nets_of, None)) as E.
  { unfold Listen. rewrite <- (app_nil_r ok) at 1. by rewrite Listen_loop_app. }
  split_and!; [done| |].
  - intros bad rest e Hup He. unfold Listen. rewrite Listen_loop_app by done. simpl.
    unfold up in Hup. destruct (Z.land (Flags bad) FlagUp =? 0); [done|]. by rewrite He.
  - rewrite E. simpl. apply Forall_forall. intros n.
    rewrite list_elem_of_bind. intros (i & Hn & Hi). apply list_elem_of_filter in Hi as [Hup _].
    unfold nets_of in Hn. destruct (Addrs i); [|by apply not_elem_of_nil in Hn].
    apply list_elem_of_omap in Hn as ([m|t] & _ & ?); simplify_eq. done.
Qed.

Lemma tracker_listen_witness :
  Listen (inl [Interface demo_net; mkInterface "wlan0" 2 (inr EOF);
               mkInterface "eth1" 1 (inl [AddrOther "x"; AddrIPNet (ipnet demo_net)])]) =
    ([mkNet (ipnet demo_net) (mkInterface "eth1" 1 (inl [AddrOther "x"; AddrIPNet (ipnet demo_net)]))], None).
Proof.
  apply (tracker_listen [Interface demo_net; mkInterface "wlan0" 2 (inr EOF);
               mkInterface "eth1" 1 (inl [AddrOther "x"; AddrIPNet (ipnet demo_net)])]).
  repeat constructor; simpl; [by eexists|done|by eexists].
Defined.
