(* ===== verification/Beacon.v ===== *)
(** * Beacon: UDP broadcasts ([lib/beacon/broadcast.go])

    A listening beacon has a goroutine [handleWrites], which starts a goroutine
    per packet, and the two goroutines of [handleReads]: one reads datagrams,
    the other hands each datagram to the calls of [Read] that registered.  The
    channels are unbuffered: a value passes when one side sends and the other
    receives.  All of them are the record [beacon]; an execution is a sequence
    of [beacon_step]s.  What the sockets answer is an argument of the events. *)

From S2P Require Import Prelude GoSem Network.

Local Open Scope Z_scope.

Definition NotBroadcast : error := ErrText "destination does not support broadcasting".

(** ** [util.go], [multicast.go], [compound.go] and [beacon.go]

    A beacon that combines broadcast and multicast was begun: the multicast beacon
    does nothing, and the constructors give none. *)

(** [sequential]: up to the first error. *)
Fixpoint sequential {S} (fs : list (M S (option error))) : M S (option error) :=
  match fs with
  | [] => mret None
  | f :: fs => err ← f; match err with Some _ => mret err | None => sequential fs end
  end.

(** [concurrent]: all functions run, and the first error counts; [fs] are in the
    order in which they end. *)
Fixpoint concurrent {S} (fs : list (M S (option error))) : M S (option error) :=
  match fs with
  | [] => mret None
  | f :: fs => err ← f; rest ← concurrent fs; mret (match err with Some _ => err | None => rest end)
  end.

Definition NewBeacon : outcome (option unit) := Panic (PanicString "not implemented").
Definition NewMulticast (group : string) : option unit := None.

Definition multicast_Listen {S} : M S (option error) := mret None.
Definition multicast_Read : option bytes * option bytes := (None, None).
Definition multicast_Close {S} : M S (option error) := mret None.

(** [compound.Listen]; [multicast_first] says which of the two ends first. *)
Definition compound_Listen {S} (broadcast_Listen : M S (option error)) (multicast_first : bool)
  : M S (option error) :=
  concurrent (if multicast_first then [multicast_Listen; broadcast_Listen]
              else [broadcast_Listen; multicast_Listen]).
Definition compound_Read : option bytes * option bytes := (None, None).
Definition compound_Close {S} : M S (option error) := mret None.

(** Listening on both is listening for broadcasts. *)
Lemma compound_Listen_result {S} (listen : M S (option error)) (first : bool) (s s' : S) (err : option error) :
  listen s = (Ret err, s') → compound_Listen listen first s = (Ret err, s').
Proof.
  intros H. unfold compound_Listen, multicast_Listen. destruct first;
    cbn [concurrent]; unfold mbind, M_bind, mret, M_ret; rewrite H; by destruct err.
Qed.

(** ** Data *)

(** A datagram with the address it came from; the zero value of [inPacket] has
    no address. *)
Record inPacket : Type := mkIn { in_data : bytes; in_addr : option bytes }.
Definition zero_packet : inPacket := mkIn [] None.

(** A call of [Write] and a call of [Read]. *)
Inductive write_call : Type :=
| WriteSelecting (data ip : bytes)
| WriteReturned (err : option error).

Inductive read_call : Type :=
| ReadRegistering                                (* b.ins <- in *)
| ReadSelecting                                  (* the select *)
| ReadReturned (r : inPacket + error).

(** A goroutine of [handleWrites] for the packet of the call [w]. *)
Inductive sender : Type :=
| SenderDeadline (w : nat) (data ip : bytes)     (* conn.SetWriteDeadline *)
| SenderWriting (w : nat) (data ip : bytes)      (* conn.WriteToUDP *)
| SenderReset (w : nat)                          (* conn.SetWriteDeadline(time.Time{}) *)
| SenderError (w : nat) (e : error)              (* packet.err <- err *)
| SenderReturned.

(** The goroutines of [handleReads]. *)
Inductive reader : Type :=
| ReaderReading                                  (* conn.ReadFrom *)
| ReaderSending (p : inPacket)                   (* ch <- *)
| ReaderReturned.                                (* after close(ch) *)

Inductive dispatcher : Type :=
| DispatchSelecting
| DispatchSending (p : inPacket) (rest : list nat)
| DispatchReturned.

Record beacon : Type := mkBeacon {
  cancelled : bool;
  writesRunning : bool;
  writes : list write_call;
  senders : list sender;
  readerPhase : reader;
  dispatch : dispatcher;
  ins : list nat;
  reads : list read_call;
  received : list inPacket;                      (* what the socket delivered *)
  written : list (bytes * bytes);                (* what was sent, with the address *)
  crashed : option panic
}.

Implicit Types (b : beacon).

(** [NewBroadcast], and [Listen] when both sockets could be opened. *)
Definition NewBroadcast : beacon :=
  mkBeacon false false [] [] ReaderReturned DispatchReturned [] [] [] [] None.
Definition Listen (readerErr writerErr : option error) b : beacon * option error :=
  match readerErr, writerErr with
  | Some e, _ | None, Some e => (b, Some e)
  | None, None =>
      (mkBeacon (cancelled b) true (writes b) (senders b) ReaderReading DispatchSelecting (ins b) (reads b)
         (received b) (written b) (crashed b), None)
  end.

Definition set_writes ws b : beacon :=
  mkBeacon (cancelled b) (writesRunning b) ws (senders b) (readerPhase b) (dispatch b) (ins b) (reads b)
    (received b) (written b) (crashed b).
Definition set_senders ss b : beacon :=
  mkBeacon (cancelled b) (writesRunning b) (writes b) ss (readerPhase b) (dispatch b) (ins b) (reads b)
    (received b) (written b) (crashed b).
Definition set_reader r b : beacon :=
  mkBeacon (cancelled b) (writesRunning b) (writes b) (senders b) r (dispatch b) (ins b) (reads b)
    (received b) (written b) (crashed b).
Definition set_dispatch d l b : beacon :=
  mkBeacon (cancelled b) (writesRunning b) (writes b) (senders b) (readerPhase b) d l (reads b)
    (received b) (written b) (crashed b).
Definition set_reads rs b : beacon :=
  mkBeacon (cancelled b) (writesRunning b) (writes b) (senders b) (readerPhase b) (dispatch b) (ins b) rs
    (received b) (written b) (crashed b).
Definition add_received p b : beacon :=
  mkBeacon (cancelled b) (writesRunning b) (writes b) (senders b) (readerPhase b) (dispatch b) (ins b) (reads b)
    (received b ++ [p]) (written b) (crashed b).
Definition add_written p b : beacon :=
  mkBeacon (cancelled b) (writesRunning b) (writes b) (senders b) (readerPhase b) (dispatch b) (ins b) (reads b)
    (received b) (written b ++ [p]) (crashed b).
Definition set_running c w b : beacon :=
  mkBeacon c w (writes b) (senders b) (readerPhase b) (dispatch b) (ins b) (reads b)
    (received b) (written b) (crashed b).
Definition crash p b : beacon :=
  mkBeacon (cancelled b) (writesRunning b) (writes b) (senders b) (readerPhase b) (dispatch b) (ins b) (reads b)
    (received b) (written b) (Some p).

(** [Close] cancels the context. *)
Definition Close b : beacon := set_running true (writesRunning b) b.

(** ** [Write] *)

(** [Write] up to its select. *)
Definition Write (data : bytes) (dst : Net) b : beacon :=
  if negb (IsBroadcast dst) then set_writes (writes b ++ [WriteReturned (Some NotBroadcast)]) b
  else match BroadcastIp dst with
  | Ret (Some ip, None) => set_writes (writes b ++ [WriteSelecting data ip]) b
  | Ret (_, err) => set_writes (writes b ++ [WriteReturned err]) b
  | Panic p => crash p b
  | Hang => b
  end.

(** A step of a goroutine of [handleWrites]; the socket's answers are given. *)
Definition sender_step (i : nat) (s : sender) (n : Z) (err : option error) b : option beacon :=
  let goto s' := Some (set_senders (<[i := s']> (senders b)) b) in
  match s, err with
  | SenderDeadline w data ip, None => goto (SenderWriting w data ip)
  | SenderWriting w data ip, None =>
      if negb (n =? zlen data) then Some (crash (PanicString "unexpected nil error") b)
      else Some (add_written (data, ip) (set_senders (<[i := SenderReset w]> (senders b)) b))
  | SenderReset w, None => goto SenderReturned
  | SenderDeadline w _ _, Some e | SenderWriting w _ _, Some e | SenderReset w, Some e => goto (SenderError w e)
  | SenderError _ _, _ | SenderReturned, _ => None
  end.

(** ** Steps *)

Inductive event : Type :=
| EWrite (data : bytes) (dst : Net)              (* Write is called *)
| ETake (w : nat)                                (* handleWrites receives a packet *)
| EWriteDone (w : nat)                           (* Write sees the end of the context *)
| ESender (i : nat) (n : Z) (err : option error) (* the socket answers a sender *)
| ESenderError (i : nat)                         (* packet.err <- err meets the select of Write *)
| EWritesReturn                                  (* handleWrites sees the end of the context *)
| ERead                                          (* Read is called *)
| ERegister (k : nat)                            (* handleReads receives from b.ins *)
| EReadDone (k : nat)                            (* Read sees the end of the context *)
| EReadFrom (p : inPacket + error)               (* the socket answers the reader *)
| EDispatch                                      (* handleReads receives from ch *)
| EDeliver                                       (* in <- p *)
| EDispatchReturn                                (* handleReads sees the end of the context *)
| EClose.

Definition beacon_step (e : event) b : option beacon :=
  if negb (is_nil (crashed b)) then None else
  match e with
  | EWrite data dst => Some (Write data dst b)
  | ETake w =>
      c ← writes b !! w;
      match c with
      | WriteSelecting data ip =>
          if writesRunning b
          then Some (set_senders (senders b ++ [SenderDeadline w data ip])
                       (set_writes (<[w := WriteReturned None]> (writes b)) b))
          else None
      | _ => None
      end
  | EWriteDone w =>
      c ← writes b !! w;
      match c with
      | WriteSelecting _ _ =>
          if cancelled b then Some (set_writes (<[w := WriteReturned (Some net_ErrClosed)]> (writes b)) b) else None
      | _ => None
      end
  | ESender i n err => s ← senders b !! i; sender_step i s n err b
  | ESenderError i =>
      s ← senders b !! i;
      match s with
      | SenderError w e =>
          c ← writes b !! w;
          match c with
          | WriteSelecting _ _ =>
              Some (set_senders (<[i := SenderReturned]> (senders b))
                      (set_writes (<[w := WriteReturned (Some e)]> (writes b)) b))
          | _ => None
          end
      | _ => None
      end
  | EWritesReturn => if cancelled b then Some (set_running true false b) else None
  | ERead => Some (set_reads (reads b ++ [ReadRegistering]) b)
  | ERegister k =>
      c ← reads b !! k;
      match c, dispatch b with
      | ReadRegistering, DispatchSelecting =>
          Some (set_dispatch DispatchSelecting (ins b ++ [k]) (set_reads (<[k := ReadSelecting]> (reads b)) b))
      | _, _ => None
      end
  | EReadDone k =>
      c ← reads b !! k;
      match c with
      | ReadSelecting =>
          if cancelled b then Some (set_reads (<[k := ReadReturned (inr net_ErrClosed)]> (reads b)) b) else None
      | _ => None
      end
  | EReadFrom p =>
      match readerPhase b with
      | ReaderReading =>
          Some (match p with
                | inl p => set_reader (ReaderSending p) (add_received p b)
                | inr _ => set_reader ReaderReturned b
                end)
      | _ => None
      end
  | EDispatch =>
      match dispatch b, readerPhase b with
      | DispatchSelecting, ReaderSending p =>
          Some (set_reader ReaderReading (set_dispatch (DispatchSending p (ins b)) (ins b) b))
      | DispatchSelecting, ReaderReturned =>
          (* a receive from a closed channel gives the zero value *)
          Some (set_dispatch (DispatchSending zero_packet (ins b)) (ins b) b)
      | _, _ => None
      end
  | EDeliver =>
      match dispatch b with
      | DispatchSending p [] => Some (set_dispatch DispatchSelecting [] b)
      | DispatchSending p (k :: rest) =>
          c ← reads b !! k;
          match c with
          | ReadSelecting =>
              Some (set_dispatch (DispatchSending p rest) (ins b)
                      (set_reads (<[k := ReadReturned (inl p)]> (reads b)) b))
          | _ => None
          end
      | _ => None
      end
  | EDispatchReturn =>
      match dispatch b with
      | DispatchSelecting | DispatchSending _ (_ :: _) =>
          if cancelled b then Some (set_dispatch DispatchReturned (ins b) b) else None
      | _ => None
      end
  | EClose => Some (Close b)
  end.

Fixpoint beacon_run (es : list event) b : option beacon :=
  match es with
  | [] => Some b
  | e :: es => b ← beacon_step e b; beacon_run es b
  end.
