(* ===== verification/BeaconProps.v ===== *)
(** * BeaconProps: what the broadcast beacon guarantees

    The invariant of a listening beacon, what the calls of [Read] and [Write]
    return, and what happens to errors of the sockets. *)

From S2P Require Import Prelude GoSem Network Beacon.

Local Open Scope Z_scope.

Implicit Types (b : beacon).

(** The calls that the dispatcher has yet to serve. *)
Definition waiting b : list nat :=
  match dispatch b with
  | DispatchSelecting => ins b
  | DispatchSending _ rest => rest
  | DispatchReturned => []
  end.

(** A packet that a call of [Read] may get: one that was received, or the zero
    value once the socket has failed. *)
Definition deliverable b (p : inPacket) : Prop :=
  p ∈ received b ∨ p = zero_packet ∧ readerPhase b = ReaderReturned.

(** The goroutine of a packet runs after its [Write] has returned. *)
Definition sender_ok (ws : list write_call) (s : sender) : Prop :=
  match s with
  | SenderDeadline w _ _ | SenderWriting w _ _ | SenderReset w | SenderError w _ =>
      ws !! w = Some (WriteReturned None)
  | SenderReturned => True
  end.

(** The errors that [Write] reports. *)
Definition write_errors : list error := [NotBroadcast; NotIPv4; net_ErrClosed].

Definition write_ok (c : write_call) : Prop :=
  match c with WriteReturned (Some e) => e ∈ write_errors | _ => True end.

Record inv b : Prop := {
  inv_senders : Forall (sender_ok (writes b)) (senders b);
  inv_writes : Forall write_ok (writes b);
  inv_reader p : readerPhase b = ReaderSending p → p ∈ received b;
  inv_dispatch p rest : dispatch b = DispatchSending p rest → deliverable b p;
  inv_reads k p : reads b !! k = Some (ReadReturned (inl p)) → deliverable b p;
  inv_waiting : cancelled b = false → NoDup (waiting b) ∧
    ∀ k, k ∈ waiting b → reads b !! k = Some ReadSelecting
}.

(** ** The parts of a step *)

Lemma beacon_inv_init : inv (Listen None None NewBroadcast).1.
Proof. constructor; try done. intros _. split; [constructor|]. intros k Hk. by apply elem_of_nil in Hk. Qed.

(** A call of [Write] begins or ends. *)
Lemma sender_ok_app ws c s : sender_ok ws s → sender_ok (ws ++ [c]) s.
Proof. destruct s; simpl; auto using lookup_app_l_Some. Qed.

Lemma sender_ok_insert ws w c data ip s :
  ws !! w = Some (WriteSelecting data ip) → sender_ok ws s → sender_ok (<[w := c]> ws) s.
Proof.
  intros Hw. destruct s; simpl; try done; intros Hs; (rewrite list_lookup_insert_ne; [done|congruence]).
Qed.

Lemma inv_set_writes b ws :
  inv b → Forall (sender_ok ws) (senders b) → Forall write_ok ws → inv (set_writes ws b).
Proof. by intros [? ? ? ? ? ?]. Qed.

Lemma inv_set_senders b ss : inv b → Forall (sender_ok (writes b)) ss → inv (set_senders ss b).
Proof. by intros [? ? ? ? ? ?]. Qed.

Lemma inv_new_write b c : inv b → write_ok c → inv (set_writes (writes b ++ [c]) b).
Proof.
  intros Hi Hc. apply inv_set_writes; [done| |].
  - eapply Forall_impl; [apply Hi|]. intros. by apply sender_ok_app.
  - apply Forall_app. split; [apply Hi|by constructor].
Qed.

Lemma inv_end_write b w data ip c :
  inv b → writes b !! w = Some (WriteSelecting data ip) → write_ok c →
  inv (set_writes (<[w := c]> (writes b)) b).
Proof.
  intros Hi Hw Hc. apply inv_set_writes; [done| |].
  - eapply Forall_impl; [apply Hi|]. intros s. by eapply sender_ok_insert.
  - apply Forall_insert; [apply Hi|done].
Qed.

Lemma beacon_inv_crash b p : inv b → inv (crash p b).
Proof. by intros [? ? ? ? ? ?]. Qed.
Lemma inv_add_written b x : inv b → inv (add_written x b).
Proof. by intros [? ? ? ? ? ?]. Qed.

Lemma Write_inv data dst b : inv b → inv (Write data dst b).
Proof.
  intros Hi. unfold Write. destruct (IsBroadcast dst); simpl.
  2: { apply inv_new_write; [done|]. by left. }
  destruct (BroadcastIp_cases dst) as [[ip ->]|[->| ->]].
  - by apply inv_new_write.
  - apply inv_new_write; [done|]. simpl. right. by left.
  - by apply beacon_inv_crash.
Qed.

Lemma sender_step_inv i s n err b b' :
  inv b → senders b !! i = Some s → sender_step i s n err b = Some b' → inv b'.
Proof.
  intros Hi Hs Hstep. pose proof (Forall_lookup_1 _ _ _ _ (inv_senders b Hi) Hs) as Hok.
  assert (∀ s', sender_ok (writes b) s' → inv (set_senders (<[i := s']> (senders b)) b)) as Hset.
  { intros s' Hs'. apply inv_set_senders; [done|]. apply Forall_insert; [apply Hi|done]. }
  unfold sender_step in Hstep. destruct s, err; simpl in *; simplify_eq; try (by apply Hset).
  destruct (n =? zlen data); simpl in *; simplify_eq; [by apply inv_add_written, Hset|by apply beacon_inv_crash].
Qed.

(** A call of [Read] that is not waiting changes nothing for the others. *)
Lemma inv_set_read b k c c' :
  inv b → reads b !! k = Some c → c ≠ ReadSelecting ∨ cancelled b = true →
  (∀ p, c' ≠ ReadReturned (inl p)) → inv (set_reads (<[k := c']> (reads b)) b).
Proof.
  intros [H1 H2 H3 H4 H5 H6] Hk Hc Hc'. constructor; try done; simpl.
  - intros j p Hj. destruct (decide (j = k)) as [->|Hne].
    + rewrite list_lookup_insert_eq in Hj by (by eapply lookup_lt_Some). simplify_eq. by destruct (Hc' p).
    + rewrite list_lookup_insert_ne in Hj by done. by eapply H5.
  - intros Hcan. destruct (H6 Hcan) as [Hnd Hw]. split; [done|]. intros j Hj.
    rewrite list_lookup_insert_ne; [by apply Hw|]. intros ->. specialize (Hw _ Hj). simplify_eq.
    destruct Hc; congruence.
Qed.

Lemma deliverable_mono b b' p :
  (∀ q, q ∈ received b → q ∈ received b') → (readerPhase b = ReaderReturned → readerPhase b' = ReaderReturned) →
  deliverable b p → deliverable b' p.
Proof. intros H1 H2 [Hp|[Hp Hr]]; [left; by apply H1|right; by auto]. Qed.

(** The goroutines of [handleReads]. *)
Lemma EReadFrom_inv q b b' : inv b → beacon_step (EReadFrom q) b = Some b' → inv b'.
Proof.
  intros [H1 H2 H3 H4 H5 H6]. unfold beacon_step. destruct (crashed b); [done|]. simpl.
  destruct (readerPhase b) eqn:Hr; [|done..]. destruct q as [q|e]; intros; simplify_eq;
    constructor; try done; simpl.
  - intros p [= <-]. apply elem_of_app. right. by left.
  - intros p rest Hd. eapply deliverable_mono, H4; [|by rewrite Hr|exact Hd].
    intros. apply elem_of_app. by left.
  - intros k p Hk. eapply deliverable_mono, H5; [|by rewrite Hr|exact Hk].
    intros. apply elem_of_app. by left.
  - intros p rest Hd. by eapply deliverable_mono, H4.
  - intros k p Hk. by eapply deliverable_mono, H5.
Qed.

Lemma EDispatch_inv b b' : inv b → beacon_step EDispatch b = Some b' → inv b'.
Proof.
  intros [H1 H2 H3 H4 H5 H6]. unfold beacon_step. destruct (crashed b); [done|]. simpl.
  unfold waiting in H6. destruct (dispatch b) eqn:Hd; [|done..].
  destruct (readerPhase b) eqn:Hr; [done|..]; intros; simplify_eq; constructor; try done; simpl.
  - intros q rest [= <- <-]. left. by apply H3.
  - intros k q Hk. eapply deliverable_mono, H5; [done|by rewrite Hr|exact Hk].
  - rewrite Hr. done.
  - intros q rest [= <- <-]. by right.
Qed.

Lemma EDeliver_inv b b' : inv b → beacon_step EDeliver b = Some b' → inv b'.
Proof.
  intros Hi. pose proof Hi as [H1 H2 H3 H4 H5 H6]. unfold beacon_step. destruct (crashed b); [done|]. simpl.
  unfold waiting in H6. destruct (dispatch b) as [|p [|k rest]|] eqn:Hd; [done|..|done].
  - intros; simplify_eq. constructor; try done.
  - destruct (reads b !! k) as [c|] eqn:Hk; [|done]. simpl. destruct c; intros; simplify_eq.
    constructor; try done; simpl.
    + intros q rest' [= <- <-]. by eapply H4.
    + intros j q Hj. destruct (decide (j = k)) as [->|Hne].
      * rewrite list_lookup_insert_eq in Hj by (by eapply lookup_lt_Some). simplify_eq. by eapply H4.
      * rewrite list_lookup_insert_ne in Hj by done. by eapply H5.
    + intros Hcan. destruct (H6 Hcan) as [Hnd Hw]. apply NoDup_cons in Hnd as [Hno Hnd].
      split; [done|]. intros j Hj. rewrite list_lookup_insert_ne by (by intros ->). apply Hw. by right.
Qed.

Lemma ERegister_inv k b b' : inv b → beacon_step (ERegister k) b = Some b' → inv b'.
Proof.
  intros [H1 H2 H3 H4 H5 H6]. unfold beacon_step. destruct (crashed b); [done|]. simpl.
  destruct (reads b !! k) as [c|] eqn:Hk; [|done]. simpl. unfold waiting in H6.
  destruct c; try done. destruct (dispatch b) eqn:Hd; try done. intros; simplify_eq.
  constructor; try done; simpl.
  - intros j q Hj. destruct (decide (j = k)) as [->|Hne].
    + rewrite list_lookup_insert_eq in Hj by (by eapply lookup_lt_Some). done.
    + rewrite list_lookup_insert_ne in Hj by done. by eapply H5.
  - intros Hcan. destruct (H6 Hcan) as [Hnd Hw]. unfold waiting. simpl.
    assert (k ∉ ins b) as Hno by (intros Hin; specialize (Hw k Hin); congruence). split.
    + apply NoDup_app. split; [done|]. split; [|apply NoDup_singleton].
      intros j Hj ->%list_elem_of_singleton. done.
    + intros j Hj. destruct (decide (j = k)) as [->|Hne].
      * by rewrite list_lookup_insert_eq by (by eapply lookup_lt_Some).
      * rewrite list_lookup_insert_ne by done. apply Hw.
        apply elem_of_app in Hj as [|Hj%list_elem_of_singleton]; done.
Qed.

Lemma beacon_step_inv e b b' : inv b → beacon_step e b = Some b' → inv b'.
Proof.
  intros Hi Hs. pose proof Hs as Hs0. pose proof Hi as [H1 H2 H3 H4 H5 H6].
  unfold beacon_step in Hs. destruct (crashed b) eqn:Hcr; [done|]. simpl in Hs.
  destruct e; try (by eauto using EReadFrom_inv, EDispatch_inv, EDeliver_inv, ERegister_inv); clear Hs0.
  - simplify_eq. by apply Write_inv.
  - destruct (writes b !! w) as [[data ip|]|] eqn:Hw; simplify_eq/=. destruct (writesRunning b); simplify_eq.
    apply (inv_set_senders (set_writes (<[w:=WriteReturned None]> (writes b)) b)).
    { by eapply inv_end_write. }
    apply Forall_app. split.
    + eapply Forall_impl; [exact H1|]. intros s. by eapply sender_ok_insert.
    + constructor; [|done]. simpl. by rewrite list_lookup_insert_eq by (by eapply lookup_lt_Some).
  - destruct (writes b !! w) as [[data ip|]|] eqn:Hw; simplify_eq/=. destruct (cancelled b); simplify_eq.
    eapply inv_end_write; [done|exact Hw|]. simpl. right. right. by left.
  - destruct (senders b !! i) as [s|] eqn:Hsi; [|done]. by eapply sender_step_inv.
  - destruct (senders b !! i) as [s|] eqn:Hsi; [|done]. simpl in Hs. destruct s; simplify_eq.
    pose proof (Forall_lookup_1 _ _ _ _ H1 Hsi) as Hok. simpl in Hok. rewrite Hok in Hs. done.
  - destruct (cancelled b) eqn:Hc; simplify_eq. by constructor.
  - simplify_eq. constructor; try done; simpl.
    + intros k p [Hk|[_ Hk]]%lookup_app_Some; [by eapply H5|].
      by apply list_lookup_singleton_Some in Hk as [_ ?].
    + intros Hc. destruct (H6 Hc) as [Hnd Hw]. split; [done|]. intros k Hk. by apply lookup_app_l_Some, Hw.
  - destruct (reads b !! k) as [c|] eqn:Hk; [|done]. simpl in Hs. destruct c; try done.
    destruct (cancelled b) eqn:Hc; simplify_eq. eapply inv_set_read; [done|exact Hk|by right|done].
  - destruct (dispatch b) as [|p [|? ?]|] eqn:Hd; try done; destruct (cancelled b) eqn:Hc; simplify_eq;
      constructor; try done; simpl; congruence.
  - simplify_eq. by constructor.
Qed.

Lemma beacon_run_inv es b b' : inv b → beacon_run es b = Some b' → inv b'.
Proof.
  revert b. induction es as [|e es IH]; intros b Hi Hr; simpl in Hr; [by simplify_eq|].
  destruct (beacon_step e b) as [b1|] eqn:Hs; [|done]. simpl in Hr. eapply IH; [|exact Hr]. by eapply beacon_step_inv.
Qed.

(** ** Delivery *)

Lemma beacon_run_cons e es b b1 b' :
  beacon_step e b = Some b1 → beacon_run es b1 = Some b' → beacon_run (e :: es) b = Some b'.
Proof. intros H1 H2. simpl. by rewrite H1. Qed.

Lemma deliver_all p ks b :
  inv b → crashed b = None → cancelled b = false → dispatch b = DispatchSending p ks →
  ∃ b', beacon_run (replicate (S (length ks)) EDeliver) b = Some b' ∧
    dispatch b' = DispatchSelecting ∧ ins b' = [] ∧
    (∀ k, k ∈ ks → reads b' !! k = Some (ReadReturned (inl p))) ∧
    (∀ k, k ∉ ks → reads b' !! k = reads b !! k).
Proof.
  revert b. induction ks as [|k ks IH]; intros b Hi Hcr Hc Hd.
  - eexists. simpl. unfold beacon_step. rewrite Hcr, Hd. simpl. split_and!; [done|done|done| |done].
    intros k Hk. by apply elem_of_nil in Hk.
  - pose proof (inv_waiting b Hi Hc) as [Hnd Hw]. unfold waiting in *. rewrite Hd in Hnd, Hw.
    apply NoDup_cons in Hnd as [Hno Hnd].
    assert (reads b !! k = Some ReadSelecting) as Hk by (apply Hw; by left).
    set (b1 := set_dispatch (DispatchSending p ks) (ins b) (set_reads (<[k := ReadReturned (inl p)]> (reads b)) b)).
    assert (beacon_step EDeliver b = Some b1) as Hs.
    { unfold beacon_step. rewrite Hcr, Hd. simpl. by rewrite Hk. }
    destruct (IH b1) as (b' & Hr & H1 & H2 & H3 & H4); [by eapply beacon_step_inv|done|done|done|].
    exists b'. split; [by apply (beacon_run_cons _ _ b b1)|].
    split_and!; [done|done| |].
    + intros j [->|Hj]%elem_of_cons; [|by apply H3]. rewrite H4 by done. simpl.
      by rewrite list_lookup_insert_eq by (by eapply lookup_lt_Some).
    + intros j Hj. rewrite H4 by (intros ?; apply Hj; by right). simpl.
      rewrite list_lookup_insert_ne; [done|]. intros ->. apply Hj. by left.
Qed.

(** A goroutine that waits to report an error waits for ever. *)
Definition stuck_sender (i w : nat) (e : error) b : Prop :=
  inv b ∧ senders b !! i = Some (SenderError w e).

Lemma sender_step_other i j s n err b b' w e :
  senders b !! i = Some (SenderError w e) → senders b !! j = Some s → sender_step j s n err b = Some b' →
  senders b' !! i = Some (SenderError w e).
Proof.
  intros Hi Hj Hs. destruct (decide (j = i)) as [->|Hne]; [by simplify_eq|].
  unfold sender_step in Hs. destruct s, err; simpl in Hs; simplify_eq/=;
    try (by rewrite list_lookup_insert_ne).
  destruct (n =? zlen data); simplify_eq/=; [|done]. by rewrite list_lookup_insert_ne.
Qed.

Lemma stuck_sender_step i w e ev b b' :
  stuck_sender i w e b → beacon_step ev b = Some b' → stuck_sender i w e b'.
Proof.
  intros [Hi Hsi] Hs. split; [by eapply beacon_step_inv|]. unfold beacon_step in Hs.
  destruct (crashed b); [done|]. simpl in Hs. destruct ev; try (simplify_option_eq; repeat case_match; by simplify_eq/=).
  - simplify_eq. unfold Write. by repeat case_match.
  - destruct (writes b !! w0) as [[data ip|]|]; simplify_eq/=. destruct (writesRunning b); simplify_eq/=.
    by apply lookup_app_l_Some.
  - destruct (senders b !! i0) as [s|] eqn:Hs0; [|done]. by eapply sender_step_other.
  - destruct (senders b !! i0) as [s|] eqn:Hs0; [|done]. simpl in Hs. destruct s; try done.
    pose proof (Forall_lookup_1 _ _ _ _ (inv_senders b Hi) Hs0) as Hok. simpl in Hok. by rewrite Hok in Hs.
  - destruct (dispatch b) as [|p [|k rest]|]; simplify_eq/=; [done|].
    by destruct (reads b !! k) as [[]|]; simplify_eq/=.
Qed.

Lemma stuck_sender_run i w e es b b' :
  stuck_sender i w e b → beacon_run es b = Some b' → stuck_sender i w e b'.
Proof.
  revert b. induction es as [|ev es IH]; intros b Hst Hr; simpl in Hr; [by simplify_eq|].
  destruct (beacon_step ev b) as [b1|] eqn:Hs; [|done]. simpl in Hr.
  eapply IH; [|exact Hr]. by eapply stuck_sender_step.
Qed.

(** A call of [Read] that registers with a dispatcher that is gone. *)
Definition stuck_read (k : nat) b : Prop :=
  dispatch b = DispatchReturned ∧ reads b !! k = Some ReadRegistering.

Lemma stuck_read_step k ev b b' : stuck_read k b → beacon_step ev b = Some b' → stuck_read k b'.
Proof.
  intros [Hd Hk] Hs. unfold beacon_step in Hs. destruct (crashed b); [done|]. simpl in Hs. rewrite Hd in Hs.
  assert (∀ l, (reads b ++ l) !! k = Some ReadRegistering) as Happ by (intros; by apply lookup_app_l_Some).
  unfold stuck_read. destruct ev; simplify_option_eq; unfold Write, sender_step in *;
    repeat (case_match; simplify_eq/=); try done.
  - by destruct (writes b !! w) as [[]|]; simplify_eq/=.
  - split; [done|]. rewrite list_lookup_insert_ne; [done|]. congruence.
Qed.

Lemma stuck_read_run k es b b' : stuck_read k b → beacon_run es b = Some b' → stuck_read k b'.
Proof.
  revert b. induction es as [|ev es IH]; intros b Hst Hr; simpl in Hr; [by simplify_eq|].
  destruct (beacon_step ev b) as [b1|] eqn:Hs; [|done]. simpl in Hr.
  eapply IH; [|exact Hr]. by eapply stuck_read_step.
Qed.

(** ** Properties *)

(** The beacon after [Listen]. *)
Definition listening : beacon := (Listen None None NewBroadcast).1.

(** What [Read] returns: a packet that the socket delivered, or, only after
    the socket has failed, the empty packet; and a packet that is being handed
    out reaches every call that registered before it was taken: when the
    remaining sends are made, all of them have returned it, the other calls are
    as before, and the beacon is ready for the next packet. *)
Theorem beacon_read_delivers (es : list event) b :
  beacon_run es listening = Some b →
  (∀ k p, reads b !! k = Some (ReadReturned (inl p)) →
     p ∈ received b ∨ p = zero_packet ∧ readerPhase b = ReaderReturned) ∧
  (∀ p ks, dispatch b = DispatchSending p ks → crashed b = None → cancelled b = false →
     ∃ b', beacon_run (replicate (S (length ks)) EDeliver) b = Some b' ∧
       dispatch b' = DispatchSelecting ∧ ins b' = [] ∧
       (∀ k, k ∈ ks → reads b' !! k = Some (ReadReturned (inl p))) ∧
       (∀ k, k ∉ ks → reads b' !! k = reads b !! k)).
Proof.
  intros Hr. pose proof (beacon_run_inv es listening b beacon_inv_init Hr) as Hi. split.
  - intros k p. apply (inv_reads b Hi).
  - intros p ks Hd Hcr Hc. by apply deliver_all.
Qed.

(** Errors of sending are lost: [Write] reports only that the destination
    is no broadcast network or that the beacon was closed, never an error of the
    socket; the goroutine that has such an error waits for ever to report it,
    to a [Write] that has already returned success. *)
Theorem beacon_write_errors_lost (es es' : list event) b b' :
  beacon_run es listening = Some b → beacon_run es' b = Some b' →
  (∀ w e, writes b !! w = Some (WriteReturned (Some e)) → e ∈ write_errors) ∧
  (∀ i w e, senders b !! i = Some (SenderError w e) →
     writes b !! w = Some (WriteReturned None) ∧ senders b' !! i = Some (SenderError w e)).
Proof.
  intros Hr Hr'. pose proof (beacon_run_inv es listening b beacon_inv_init Hr) as Hi. split.
  - intros w e Hw. apply (Forall_lookup_1 _ _ _ _ (inv_writes b Hi) Hw).
  - intros i w e Hsi. split; [apply (Forall_lookup_1 _ _ _ _ (inv_senders b Hi) Hsi)|].
    by eapply (stuck_sender_run i w e es' b).
Qed.

(** [Read] after a failure: when the socket has failed, calls of [Read]
    return at once with the empty packet and no error, for as long as the
    beacon is open; when the dispatcher has ended after [Close], a call of
    [Read] hangs instead of reporting that the beacon is closed. *)
Theorem beacon_read_after_failure b :
  crashed b = None →
  (readerPhase b = ReaderReturned → dispatch b = DispatchSelecting → ins b = [] →
   ∃ b', beacon_run [ERead; ERegister (length (reads b)); EDispatch; EDeliver; EDeliver] b = Some b' ∧
     reads b' !! length (reads b) = Some (ReadReturned (inl zero_packet)) ∧
     readerPhase b' = ReaderReturned ∧ dispatch b' = DispatchSelecting ∧ ins b' = []) ∧
  (dispatch b = DispatchReturned → ∀ es b', beacon_run (ERead :: es) b = Some b' →
     reads b' !! length (reads b) = Some ReadRegistering).
Proof.
  intros Hcr. split.
  - intros Hr Hd Hins. destruct b as [can wr ws ss rp d l rs rec wri cr].
    cbn [crashed readerPhase dispatch ins reads] in *. subst.
    assert ((rs ++ [ReadRegistering]) !! length rs = Some ReadRegistering) as Hl
      by (by rewrite lookup_app_r, Nat.sub_diag by lia).
    assert (∀ x, (<[length rs := x]> (rs ++ [ReadRegistering])) !! length rs = Some x) as Hl'
      by (intros; apply list_lookup_insert_eq; rewrite length_app; simpl; lia).
    eexists. split.
    + repeat (eapply beacon_run_cons; [unfold beacon_step; simpl; rewrite ?Hl, ?Hl'; reflexivity|]).
      reflexivity.
    + simpl. split_and!; [|done|done|done].
      apply list_lookup_insert_eq. rewrite length_insert, length_app. simpl. lia.
  - intros Hd es b' Hr. simpl in Hr. unfold beacon_step at 1 in Hr. rewrite Hcr in Hr. simpl in Hr.
    eapply (stuck_read_run (length (reads b)) es); [|exact Hr]. split; [done|]. simpl.
    by rewrite lookup_app_r, Nat.sub_diag by lia.
Qed.

(** *** Witnesses *)

(** Two calls of [Read] wait when a datagram arrives; a packet cannot be sent. *)
Definition demo_packet : inPacket := mkIn [Byte.x01] (Some [Byte.x7f; Byte.x00; Byte.x00; Byte.x01]).
Definition demo_read_events : list event :=
  [ERead; ERead; ERegister 1; EReadFrom (inl demo_packet); ERegister 0; ERead; EDispatch].

Definition demo_reading : beacon :=
  mkBeacon false true [] [] ReaderReading (DispatchSending demo_packet [1%nat; 0%nat]) [1%nat; 0%nat]
    [ReadSelecting; ReadSelecting; ReadRegistering] [demo_packet] [] None.

Lemma beacon_read_delivers_witness :
  ∃ b', beacon_run (replicate 3 EDeliver) demo_reading = Some b' ∧
    reads b' !! 0%nat = Some (ReadReturned (inl demo_packet)) ∧
    reads b' !! 1%nat = Some (ReadReturned (inl demo_packet)) ∧ reads b' !! 2%nat = Some ReadRegistering.
Proof.
  destruct (beacon_read_delivers demo_read_events demo_reading) as [_ H]; [reflexivity|].
  destruct (H demo_packet [1%nat; 0%nat]) as (b' & H1 & _ & _ & H2 & H3); [reflexivity..|].
  exists b'. split; [exact H1|]. split; [apply H2; by right; left|]. split; [apply H2; by left|].
  apply H3. intros Hin. by repeat (apply elem_of_cons in Hin as [Hin|Hin]; [discriminate Hin|]); apply elem_of_nil in Hin.
Defined.

Definition demo_write_events : list event :=
  [EWrite [Byte.x01] demo_net; ETake 0; ESender 0 0 None; ESender 0 0 (Some EOF)].

Definition demo_failed : beacon :=
  mkBeacon false true [WriteReturned None] [SenderError 0 EOF] ReaderReading DispatchSelecting [] [] [] [] None.

Lemma beacon_write_errors_lost_witness :
  writes demo_failed !! 0%nat = Some (WriteReturned None) ∧
  senders (Close demo_failed) !! 0%nat = Some (SenderError 0 EOF).
Proof.
  destruct (beacon_write_errors_lost demo_write_events [EClose] demo_failed (Close demo_failed)) as [_ H];
    [reflexivity|reflexivity|].
  apply (H 0%nat 0%nat EOF). reflexivity.
Defined.

Lemma beacon_read_after_failure_witness :
  ∃ b', beacon_run [EReadFrom (inr EOF); ERead; ERegister 0; EDispatch; EDeliver; EDeliver] listening = Some b' ∧
    reads b' !! 0%nat = Some (ReadReturned (inl zero_packet)).
Proof.
  destruct (beacon_read_after_failure (set_reader ReaderReturned listening)) as [H _]; [reflexivity|].
  destruct H as (b' & H1 & H2 & _); [reflexivity..|]. exists b'. split; [exact H1|exact H2].
Defined.
