(* ===== verification/Device.v ===== *)
(** * Device: keys and identities ([lib/device])

    [hmac.go], the key types of [identity.go] and the certificate of a key pair.
    The curve operations of the Ed25519 library are a parameter ([Ed25519]), and
    so are the certificates and their encoding ([X509]). *)

From S2P Require Import Prelude GoSem.

Local Open Scope Z_scope.

Definition HmacKeySize : Z := 32.

(** [GenerateHMACKey(randSource)]; [None] is the [nil] key. *)
Definition GenerateHMACKey {R} `{!io_Reader R} : M R (option bytes * option error) :=
  key ← lift (make_slice Byte.x00 1 HmacKeySize);
  '(got, err) ← ReadFull (zlen key);
  match err with
  | Some e => mret (None, Some e)
  | None => mret (Some (filled (zlen key) got), None)
  end.

(** [ed25519.GenerateKey], and the conversions of [primitives/x25519]. *)
Class Ed25519 : Type := {
  GenerateKey : ∀ {R} `{!io_Reader R}, M R (bytes * bytes * option error);
  EdPrivateKeyToX25519 : bytes → bytes;
  EdPublicKeyToX25519 : bytes → bytes * bool
}.

Record KeyPair : Type := mkKeyPair { Private : bytes; Public : bytes }.

(** [noise.DHKey], the [NoiseKeyPair] of the package. *)
Record DHKey : Type := mkDHKey { dh_Private : bytes; dh_Public : bytes }.

Section Identity.
Context `{!Ed25519}.

(** [Key.X25519] *)
Definition Key_X25519 (k : bytes) : bytes := EdPrivateKeyToX25519 k.

(** [Identity.X25519] *)
Definition Identity_X25519 (k : bytes) : outcome bytes :=
  let '(key, ok) := EdPublicKeyToX25519 k in
  if negb ok then Panic (PanicString "failed to convert ed25519 public key to X25519 key")
  else Ret key.

Definition GenerateKeyPair {R} `{!io_Reader R} : M R (KeyPair * option error) :=
  '(publicKey, privateKey, err) ← GenerateKey;
  match err with
  | Some e => mret (mkKeyPair [] [], Some e)
  | None => mret (mkKeyPair privateKey publicKey, None)
  end.

(** [KeyPair.Noise] *)
Definition Noise (k : KeyPair) : outcome DHKey :=
  public ← Identity_X25519 (Public k);
  mret (mkDHKey (Key_X25519 (Private k)) public).

Lemma Noise_X25519 k dh : Noise k = Ret dh → Identity_X25519 (Public k) = Ret (dh_Public dh).
Proof.
  unfold Noise. destruct (Identity_X25519 (Public k)); [|done..]. by intros [= <-].
Qed.
End Identity.

(** A key is the next 32 bytes of the source; a source that has fewer gives no
    key. *)
Lemma GenerateHMACKey_stream {R} `{StreamReader R} (r : R) (d rest : bytes) :
  (zlen d = HmacKeySize → pending r (d ++ rest) →
   ∃ r', GenerateHMACKey r = (Ret (Some d, None), r') ∧ pending r' rest) ∧
  (zlen d < HmacKeySize → pending r d →
   ∃ r' e, GenerateHMACKey r = (Ret (None, Some e), r')).
Proof.
  split; intros Hd Hp; unfold GenerateHMACKey; unfold HmacKeySize in *;
    rewrite make_slice_ok by (unfold max_alloc; lia);
    erewrite bind_Ret by reflexivity; rewrite zlen_replicate; change (Z.of_nat (Z.to_nat 32)) with 32.
  - destruct (ReadFull_pending r d rest 32) as (r' & E & Hp'); [done|done|].
    exists r'. erewrite bind_Ret by exact E. split; [|done]. unfold filled.
    rewrite Hd. simpl. by rewrite app_nil_r.
  - destruct (ReadFull_short r d 32) as (r' & E); [done|done|].
    eexists r', _. by erewrite bind_Ret by exact E.
Qed.

(** ** Certificates *)

(** [rand.Int(rand.Reader, max)] of the Go library: as many bytes as [max - 1]
    has, of which the bits above it are cleared, until the number is below [max]. *)
Definition bit_len (z : Z) : Z := if z =? 0 then 0 else Z.log2 z + 1.

Fixpoint rand_loop {R} `{!io_Reader R} (fuel : nat) (k b max : Z) : M R (Z + error) :=
  match fuel with
  | O => λ r, (Hang, r)
  | S fuel =>
      '(got, err) ← ReadFull k;
      match err with
      | Some e => mret (inr e)
      | None =>
          let bytes := match filled k got with
                       | x :: l => byte_of_Z (Z.land (byte_to_Z x) (Z.shiftl 1 b - 1)) :: l
                       | [] => []
                       end in
          let n := be_Z bytes in
          if n <? max then mret (inl n) else rand_loop fuel k b max
      end
  end.

Definition rand_Int {R} `{!io_Reader R} (fuel : nat) (max : Z) : M R (Z + error) :=
  if max <=? 0 then throw (PanicString "crypto/rand: argument to Int is <= 0")
  else
    let n := max - 1 in
    if n =? 0 then mret (inl 0)
    else
      let b := bit_len n mod 8 in
      rand_loop fuel ((bit_len n + 7) / 8) (if b =? 0 then 8 else b) max.

(** The number of tries does not matter, the first number is always small enough
    ([randomSerialNumber_stream]). *)
Definition randomSerialNumber {R} `{!io_Reader R} : M R (Z + error) := rand_Int 1 (Z.shiftl 1 128).

(** The fields of the [x509.Certificate] that are set; times are in seconds. *)
Record x509_Certificate : Type := mkTemplate {
  SerialNumber : Z;
  NotBefore : Z;
  NotAfter : Z;
  KeyUsage : Z;
  ExtKeyUsage : list Z
}.
Definition KeyUsageDigitalSignature : Z := 1.
Definition ExtKeyUsageClientAuth : Z := 2.

(** [crypto/x509], [encoding/pem] and [tls.X509KeyPair]; [C] is [tls.Certificate]. *)
Class X509 (C : Type) : Type := {
  no_certificate : C;
  MarshalPKCS8PrivateKey : bytes → bytes * option error;
  CreateCertificate : ∀ {R} `{!io_Reader R},
    x509_Certificate → x509_Certificate → bytes → bytes → M R (bytes * option error);
  pem_Encode : string → bytes → bytes * option error;
  X509KeyPair : bytes → bytes → C * option error
}.

(** [KeyPair.Certificate]; [now1] and [now2] are the two results of [time.Now()].
    The errors of the encoders are dropped. *)
Definition Certificate {C R} `{!X509 C} `{!io_Reader R} (now1 now2 : Z) (k : KeyPair) : M R (C * option error) :=
  serial ← randomSerialNumber;
  match serial with
  | inr e => mret (no_certificate, Some e)
  | inl serialNumber =>
      let template := mkTemplate serialNumber now1 (now2 + 3600 * 24 * 365) KeyUsageDigitalSignature
                        [ExtKeyUsageClientAuth] in
      let keyDer := (MarshalPKCS8PrivateKey (Private k)).1 in
      '(certDer, _) ← CreateCertificate template template (Public k) (Private k);
      let keyOut := (pem_Encode "PRIVATE KEY" keyDer).1 in
      let certOut := (pem_Encode "CERTIFICATE" certDer).1 in
      mret (X509KeyPair certOut keyOut)
  end.

(** A serial number is the next 16 bytes of the random source, as a number; a
    source that has fewer gives an error, which [Certificate] returns. *)
Lemma randomSerialNumber_stream {R} `{StreamReader R} (r : R) (d rest : bytes) :
  (zlen d = 16 → pending r (d ++ rest) →
   ∃ r', randomSerialNumber r = (Ret (inl (be_Z d)), r') ∧ pending r' rest ∧ 0 ≤ be_Z d < 2 ^ 128) ∧
  (zlen d < 16 → pending r d → ∃ r' e, randomSerialNumber r = (Ret (inr e), r')).
Proof.
  unfold randomSerialNumber, rand_Int. change (Z.shiftl 1 128) with (2 ^ 128).
  change (2 ^ 128 <=? 0) with false. change (2 ^ 128 - 1 =? 0) with false.
  change (bit_len (2 ^ 128 - 1)) with 128. cbn [rand_loop Z.eqb Z.modulo Z.div_eucl].
  change ((128 + 7) / 8) with 16. change (128 mod 8) with 0. split; intros Hd Hp.
  - destruct (ReadFull_pending r d rest 16 Hp Hd) as (r' & E & Hp'). exists r'.
    erewrite bind_Ret by exact E. cbv beta iota. unfold filled. rewrite Hd.
    change (Z.to_nat (16 - 16)) with 0%nat. cbn [replicate]. rewrite app_nil_r. pose proof (be_Z_range d) as Hr. rewrite Hd in Hr. change (8 * 16) with 128 in Hr.
    destruct d as [|x l]; [done|]. change (Z.shiftl 1 (if 0 =? 0 then 8 else 0) - 1) with 255. cbv zeta.
    assert (byte_of_Z (Z.land (byte_to_Z x) 255) = x) as ->.
    { change 255 with (Z.ones 8). rewrite Z.land_ones by lia. rewrite Z.mod_small by (pose proof (byte_to_Z_range x); lia).
      apply byte_of_to_Z. }
    rewrite (proj2 (Z.ltb_lt _ _)) by lia. done.
  - destruct (ReadFull_short r d 16 Hp Hd) as (r' & E). eexists r', _. by erewrite bind_Ret by exact E.
Qed.
