(* ===== verification/Handshake.v ===== *)
(** * Handshake: Noise handshakes ([lib/secure/patterns.go])

    The handshake pattern of local connections, and the interface of the
    Noise library that the program uses: a [Config], the [HandshakeState]
    made of it, and the two cipher states that a completed handshake returns.
    The library is a parameter ([NoiseHandshake]); [HandshakeLaws] states what
    the Noise specification says about a run between two configurations that
    fit together, for a pattern of two messages that is valid. *)

From S2P Require Import Prelude GoSem Secure Device.

Local Open Scope Z_scope.

(** ** Patterns *)

Inductive MessagePattern : Type :=
| MessagePatternS | MessagePatternE
| MessagePatternDHEE | MessagePatternDHES | MessagePatternDHSE | MessagePatternDHSS
| MessagePatternPSK.

#[export] Instance MessagePattern_eq_dec : EqDecision MessagePattern.
Proof. solve_decision. Defined.

Record HandshakePattern : Type := mkPattern {
  p_Name : string;
  InitiatorPreMessages : list MessagePattern;
  ResponderPreMessages : list MessagePattern;
  Messages : list (list MessagePattern)
}.

Definition HandshakeXK1fallback : HandshakePattern :=
  mkPattern "XK1fallback" [MessagePatternS] [MessagePatternE]
    [[MessagePatternE; MessagePatternDHEE; MessagePatternDHSE];
     [MessagePatternS; MessagePatternDHES]].

(** The rules of section 7.3 of the Noise specification: a party sends each of
    its keys at most once, and a Diffie-Hellman token needs the two public
    keys that it combines to have been sent (or known beforehand).  The state
    holds the keys that were sent: the initiator's static and ephemeral key,
    the responder's static and ephemeral key. *)
Record known : Type := mkKnown { i_s : bool; i_e : bool; r_s : bool; r_e : bool }.

Definition token (initiator : bool) (k : known) (t : MessagePattern) : option known :=
  let guard_ (b : bool) := if b then Some k else None in
  match t, initiator with
  | MessagePatternS, true => if i_s k then None else Some (mkKnown true (i_e k) (r_s k) (r_e k))
  | MessagePatternE, true => if i_e k then None else Some (mkKnown (i_s k) true (r_s k) (r_e k))
  | MessagePatternS, false => if r_s k then None else Some (mkKnown (i_s k) (i_e k) true (r_e k))
  | MessagePatternE, false => if r_e k then None else Some (mkKnown (i_s k) (i_e k) (r_s k) true)
  | MessagePatternDHEE, _ => guard_ (i_e k && r_e k)
  | MessagePatternDHES, _ => guard_ (i_e k && r_s k)
  | MessagePatternDHSE, _ => guard_ (i_s k && r_e k)
  | MessagePatternDHSS, _ => guard_ (i_s k && r_s k)
  | MessagePatternPSK, _ => Some k
  end.

Definition tokens (initiator : bool) (k : known) (ts : list MessagePattern) : option known :=
  foldl (λ k t, k ← k; token initiator k t) (Some k) ts.

(** The messages alternate, the initiator's is the first. *)
Fixpoint message_tokens (initiator : bool) (k : known) (ms : list (list MessagePattern)) : option known :=
  match ms with
  | [] => Some k
  | m :: ms => k ← tokens initiator k m; message_tokens (negb initiator) k ms
  end.

Definition valid_pattern (p : HandshakePattern) : bool :=
  let start := mkKnown false false false false in
  match (k ← tokens true start (InitiatorPreMessages p); k ← tokens false k (ResponderPreMessages p);
         message_tokens true k (Messages p)) with
  | Some _ => true
  | None => false
  end.

(** ** The library's interface *)

(** [noise.Config]; [CS] is the type of cipher suites.  [Random] stands for the
    bytes that the random source gives to this handshake; an empty list is
    [nil]. *)
Record Config (CS : Type) : Type := mkConfig {
  CipherSuite : CS;
  Random : bytes;
  Pattern : HandshakePattern;
  Initiator : bool;
  Prologue : bytes;
  StaticKeypair : DHKey;
  EphemeralKeypair : DHKey;
  PeerStatic : bytes;
  PeerEphemeral : bytes
}.
Arguments mkConfig {CS} _ _ _ _ _ _ _ _ _.
Arguments CipherSuite {CS} _.
Arguments Random {CS} _.
Arguments Pattern {CS} _.
Arguments Initiator {CS} _.
Arguments Prologue {CS} _.
Arguments StaticKeypair {CS} _.
Arguments EphemeralKeypair {CS} _.
Arguments PeerStatic {CS} _.
Arguments PeerEphemeral {CS} _.

Definition no_key : DHKey := mkDHKey [] [].

(** [CipherSuite.GenerateKeypair], [NewHandshakeState] and the methods of
    [*HandshakeState].  [WriteMessage] and [ReadMessage] return the bytes, the
    two cipher states ([None] is [nil]) and the error. *)
Class NoiseHandshake (CS HS K : Type) : Type := {
  GenerateKeypair : CS → bytes → DHKey + error;
  NewHandshakeState : Config CS → HS + error;
  HS_WriteMessage : ∀ out payload : bytes, M HS (bytes * option K * option K * option error);
  HS_ReadMessage : ∀ out message : bytes, M HS (bytes * option K * option K * option error);
  HS_PeerStatic : HS → option bytes
}.

(** ** What a handshake promises *)

(** Two configurations of one handshake: the same suite, pattern and prologue,
    and each side has the keys of the other that the pattern presupposes. *)
Definition matching {CS} (ci cr : Config CS) : Prop :=
  CipherSuite ci = CipherSuite cr ∧ Pattern ci = Pattern cr ∧ Prologue ci = Prologue cr ∧
  Initiator ci = true ∧ Initiator cr = false ∧
  (MessagePatternS ∈ InitiatorPreMessages (Pattern ci) → PeerStatic cr = dh_Public (StaticKeypair ci)) ∧
  (MessagePatternE ∈ InitiatorPreMessages (Pattern ci) → PeerEphemeral cr = dh_Public (EphemeralKeypair ci)) ∧
  (MessagePatternS ∈ ResponderPreMessages (Pattern ci) → PeerStatic ci = dh_Public (StaticKeypair cr)) ∧
  (MessagePatternE ∈ ResponderPreMessages (Pattern ci) → PeerEphemeral ci = dh_Public (EphemeralKeypair cr)).

(** The longest handshake message without a payload: an ephemeral key, an
    encrypted static key and a tag, with keys of at most 56 bytes. *)
Definition handshake_message_bound : Z := 56 + (56 + 16) + 16.

(** The number of messages that a cipher state can encrypt. *)
Definition max_messages : Z := 2 ^ 64 - 1.

Class HandshakeLaws (CS HS K : Type) `{!NoiseHandshake CS HS K} `{NoiseCipher K} : Type := {
  (** a key pair of the suite *)
  key_pair : CS → DHKey → Prop;
  generated_key_pair cs rnd k : GenerateKeypair cs rnd = inl k → key_pair cs k;
  (** a run of a pattern with two messages *)
  two_message_run ci cr :
    matching ci cr → valid_pattern (Pattern ci) = true → length (Messages (Pattern ci)) = 2%nat →
    key_pair (CipherSuite ci) (StaticKeypair ci) → key_pair (CipherSuite cr) (StaticKeypair cr) →
    (MessagePatternE ∈ ResponderPreMessages (Pattern ci) →
     key_pair (CipherSuite cr) (EphemeralKeypair cr)) →
    ∃ hi hr m1 hi1 hr1 m2 hr2 hi2 (i1 i2 r1 r2 : K),
      NewHandshakeState ci = inl hi ∧ NewHandshakeState cr = inl hr ∧
      HS_WriteMessage [] [] hi = (Ret (m1, None, None, None), hi1) ∧
      HS_ReadMessage [] m1 hr = (Ret ([], None, None, None), hr1) ∧
      HS_WriteMessage [] [] hr1 = (Ret (m2, Some r1, Some r2, None), hr2) ∧
      HS_ReadMessage [] m2 hi1 = (Ret ([], Some i1, Some i2, None), hi2) ∧
      zlen m1 ≤ handshake_message_bound ∧ zlen m2 ≤ handshake_message_bound ∧
      HS_PeerStatic hi2 = Some (dh_Public (StaticKeypair cr)) ∧
      (** the first cipher state is for messages of the initiator, the second
          for messages of the responder *)
      (∀ n, Z.of_nat n ≤ max_messages → in_sync n i1 r1 ∧ in_sync n r2 i2)
}.

(** A cipher state that may be [nil]: using it dereferences a nil pointer. *)
Definition lift_cipher {K A} (m : M K A) : M (option K) A := λ o,
  match o with
  | Some k => let '(r, k') := m k in (r, Some k')
  | None => (Panic PanicNil, None)
  end.

#[export] Instance option_cipher {K} `{!CipherState K} : CipherState (option K) := {|
  Encrypt out ad p := lift_cipher (Encrypt out ad p);
  Decrypt out ad ct := lift_cipher (Decrypt out ad ct)
|}.

#[export] Program Instance option_noise {K} `{NoiseCipher K} : NoiseCipher (option K) := {|
  in_sync n kw kr := ∃ w r, kw = Some w ∧ kr = Some r ∧ in_sync n w r
|}.
Next Obligation.
  intros K ? ? n kw kr out ad p (w & r & -> & -> & Hs).
  destruct (encrypt_decrypt n w r out ad p Hs) as (ct & w' & r' & HE & Hl & HD & Hs').
  exists ct, (Some w'), (Some r'). unfold Encrypt, Decrypt, option_cipher, lift_cipher.
  rewrite HE, HD. eauto 10.
Qed.

(** The pattern of local connections follows the rules, and it is the fallback
    form of the pattern XK1 of the Noise specification: the initiator's first
    message became a pre-message and the responder of XK1, who knows only the
    ephemeral key of that message, now begins. *)
Definition HandshakeXK1 : HandshakePattern :=
  mkPattern "XK1" [] [MessagePatternS]
    [[MessagePatternE]; [MessagePatternE; MessagePatternDHEE; MessagePatternDHES];
     [MessagePatternS; MessagePatternDHSE]].

Definition swap_roles (t : MessagePattern) : MessagePattern :=
  match t with
  | MessagePatternDHES => MessagePatternDHSE
  | MessagePatternDHSE => MessagePatternDHES
  | t => t
  end.

Definition fallback (p : HandshakePattern) : option HandshakePattern :=
  match Messages p with
  | first :: rest =>
      Some (mkPattern (p_Name p +:+ "fallback") (ResponderPreMessages p)
              (InitiatorPreMessages p ++ first) (map (map swap_roles) rest))
  | [] => None
  end.

Lemma XK1fallback_valid :
  fallback HandshakeXK1 = Some HandshakeXK1fallback ∧ valid_pattern HandshakeXK1 = true ∧
  valid_pattern HandshakeXK1fallback = true ∧ length (Messages HandshakeXK1fallback) = 2%nat.
Proof. done. Qed.

(** ** A handshake for the witnesses

    The first message is the initiator's random key, the second the
    responder's static key; each message has one stage in which it is legal. *)
Record demo_HS : Type := mkDemoHS { d_config : Config unit; d_stage : Z; d_peer : option bytes }.

Definition demo_out_of_order : error := ErrText "noise: unexpected call".

Definition demo_step (initiator : bool) (stage : Z) (m : bytes) (peer : option bytes) (last : bool)
  : M demo_HS (bytes * option Z * option Z * option error) := λ h,
  if bool_decide (Initiator (d_config h) = initiator) && (d_stage h =? stage) then
    (Ret (m, if last then Some 0 else None, if last then Some 0 else None, None),
     mkDemoHS (d_config h) (stage + 1) peer)
  else (Ret ([], None, None, Some demo_out_of_order), h).

Definition demo_key (rnd : bytes) : bytes := take 32 (rnd ++ replicate 32 Byte.x00).

Lemma zlen_demo_key rnd : zlen (demo_key rnd) = 32.
Proof. unfold demo_key. rewrite zlen_take, zlen_app, zlen_replicate. pose proof (zlen_nonneg rnd). lia. Qed.

#[export] Instance demo_handshake : NoiseHandshake unit demo_HS Z := {|
  GenerateKeypair _ rnd := inl (mkDHKey (demo_key rnd) (demo_key rnd));
  NewHandshakeState cfg := inl (mkDemoHS cfg 0 None);
  HS_WriteMessage out payload h :=
    if Initiator (d_config h)
    then demo_step true 0 (out ++ take 32 (Random (d_config h)) ++ payload) None false h
    else demo_step false 1 (out ++ dh_Public (StaticKeypair (d_config h)) ++ payload) (d_peer h) true h;
  HS_ReadMessage out m h :=
    if Initiator (d_config h) then demo_step true 1 out (Some (take 32 m)) true h
    else demo_step false 0 out None false h;
  HS_PeerStatic h := d_peer h
|}.

#[export] Program Instance demo_laws : HandshakeLaws unit demo_HS Z :=
  {| key_pair _ k := zlen (dh_Public k) = 32 |}.
Next Obligation.
  intros cs rnd k E. unfold GenerateKeypair, demo_handshake in E. simplify_eq. apply zlen_demo_key.
Qed.
Next Obligation.
  intros ci cr (_ & _ & _ & Hi & Hr & _) _ _ _ Hs _.
  eexists _, _, _, _, _, _, _, _, 0, 0, 0, 0.
  unfold NewHandshakeState, HS_WriteMessage, HS_ReadMessage, HS_PeerStatic. simpl.
  split; [reflexivity|]. split; [reflexivity|]. unfold demo_step. simpl. rewrite Hi, Hr. simpl.
  split; [reflexivity|]. split; [reflexivity|]. simpl. rewrite Hr. simpl.
  split; [reflexivity|]. rewrite Hi. simpl. split; [reflexivity|].
  rewrite !app_nil_r, zlen_take, Hs. unfold handshake_message_bound. simpl.
  rewrite take_ge by (unfold zlen in Hs; lia). split_and!; [lia|lia|done|done].
Qed.
