(* ===== verification/LocalMessage.v ===== *)
(** * LocalMessage: connection requests on the local network ([lib/local])

    The messages of [proto/local/message/local.proto] with their Protobuf
    instances, [request.go] and [response.go], and the functions of
    [client.go] that make and verify a connection request: [request] up to
    the packet it broadcasts, and [verifyRequestMessage].  The time of
    [time.Now()] is an argument. *)

From S2P Require Import Prelude GoSem Sha256 Packet Channel Proto.

Local Open Scope Z_scope.

(** ** Messages *)

Definition ConnectionTypeInvalid : Z := 0.
Definition ConnectionTypeRequest : Z := 1.
Definition ConnectionTypeResponse : Z := 2.

Definition ResultTypeInvalid : Z := 0.
Definition ResultTypeRefused : Z := 1.
Definition ResultTypeOk : Z := 2.

Module message.
Record Header : Type := mkHeader { ConnectionType : Z }.
Record RequestPayload : Type := mkRequestPayload {
  p_RequestId : Z; EpochSeconds : Z; p_HandshakeMessage : bytes }.
Record Request : Type := mkRequest { Payload : bytes; Mac : bytes }.
Record Response : Type := mkResponse { r_RequestId : Z; r_HandshakeMessage : bytes }.
Record Hello : Type := mkHello { h_HandshakeMessage : bytes }.
Record Result : Type := mkResult { Type_ : Z }.
End message.
Import message.

(** The [Protobuf] functions for all of them. *)
Class LocalProto : Type := {
  header_proto :: ProtoMessage message.Header;
  payload_proto :: ProtoMessage message.RequestPayload;
  request_proto :: ProtoMessage message.Request;
  response_proto :: ProtoMessage message.Response;
  hello_proto :: ProtoMessage message.Hello;
  result_proto :: ProtoMessage message.Result
}.

(** ** Package [time]

    A time is a number of seconds since the year 1 (an [int64]) and the
    nanoseconds within the second; a duration is an [int64] of nanoseconds. *)
Record Time : Type := mkTime { t_sec : Z; t_nsec : Z }.

Definition Second : Z := 1000000000.
Definition unixToInternal : Z := 62135596800.

(** [time.Unix(sec, 0)] and [t.Unix()] *)
Definition time_Unix (sec : Z) : Time := mkTime (i64 (sec + unixToInternal)) 0.
Definition Time_Unix (t : Time) : Z := i64 (t_sec t - unixToInternal).

(** [t.Sub(u)]: a difference that is no [int64] becomes the nearest one. *)
Definition Sub (t u : Time) : Z :=
  Z.max (- 2 ^ 63) (Z.min max_i64 ((t_sec t - t_sec u) * Second + (t_nsec t - t_nsec u))).

Definition IoTimeout : Z := 10 * Second.
Definition RequestMaxAge : Z := 20 * Second.

(** ** [request.go], [response.go] *)

Abbreviation RequestId := Z.

(** [binary.MaxVarintLen64] *)
Definition MaxVarintLen64 : Z := 10.

(** [RequestId.Bytes]: the id takes the first eight of ten bytes. *)
Definition RequestId_Bytes (id : RequestId) : outcome bytes :=
  bytes ← make_slice Byte.x00 1 MaxVarintLen64;
  _ ← index bytes 7;
  mret (be_bytes 8 (u64 id) ++ drop 8 bytes).

Record Request : Type := mkLocalRequest { Id : RequestId; HandshakeMessage : bytes }.
Record Response : Type := mkLocalResponse { RequestId_ : RequestId; HandshakeMessage_ : bytes }.

#[export] Instance Request_eq_dec : EqDecision Request.
Proof. solve_decision. Defined.
#[export] Instance Response_eq_dec : EqDecision Response.
Proof. solve_decision. Defined.

(** ** Making and verifying a request *)

(** [hmac.New(sha256.New, key)] on which nothing was written, and its
    [Sum(b)], which appends the current digest to [b]. *)
Definition hmac_Sum (key b : bytes) : bytes := b ++ hmac_sha256 key [].

Definition ErrWrongDeviceKey : error := ErrText "the device key was not used for this request message".
Definition ErrRequestTooOld : error := ErrText "request message is too old".
Definition ErrParsePayload (e : error) : error := ErrText "failed to parse payload: %w".

Section Requests.
Context `{!LocalProto}.

(** The bytes that [client.request] hands to the broadcast handler; the header
    is marshalled and not used. *)
Definition request_packet (now : Time) (deviceKey : bytes) (request : Request) : Packet + error :=
  match Marshal (mkHeader ConnectionTypeRequest) with
  | inr e => inr e
  | inl _ =>
      match Marshal (mkRequestPayload (u64 (Id request)) (u64 (Time_Unix now)) (HandshakeMessage request)) with
      | inr e => inr e
      | inl p =>
          match Marshal (mkRequest p (hmac_Sum deviceKey p)) with
          | inr e => inr e
          | inl r => inl (New r)
          end
      end
  end.

Definition verifyRequestMessage (now : Time) (deviceKey : bytes) (requestMessage : message.Request)
  : Request * option error :=
  let none := mkLocalRequest 0 [] in
  let mac := hmac_Sum deviceKey (Payload requestMessage) in
  if negb (bool_decide (mac = Mac requestMessage)) then (none, Some ErrWrongDeviceKey)
  else match Unmarshal (Payload requestMessage) (mkRequestPayload 0 0 []) with
  | inr e => (none, Some (ErrParsePayload e))
  | inl payload =>
      let age := Sub now (time_Unix (i64 (EpochSeconds payload))) in
      if age >? RequestMaxAge then (none, Some ErrRequestTooOld)
      else (mkLocalRequest (p_RequestId payload) (p_HandshakeMessage payload), None)
  end.

(** What [client.listenRequests] does with one datagram of the beacon, up to
    the verified request. *)
Definition read_request (now : Time) (deviceKey data : bytes) : option Request :=
  match Decode data with
  | (Some p, None) =>
      match Unmarshal p (mkRequest [] []) with
      | inr _ => None
      | inl requestMessage =>
          match verifyRequestMessage now deviceKey requestMessage with
          | (request, None) => Some request
          | (_, Some _) => None
          end
      end
  | _ => None
  end.
End Requests.

(** ** The instance of Protobuf's wire format *)

(** A [uint64] (or an enumeration value), and bytes that a field can hold. *)
Definition u64_ok (z : Z) : Prop := 0 ≤ z < 2 ^ 64.
Definition bytes_ok (b : bytes) : Prop := zlen b < 2 ^ 64.

Ltac flat_ok :=
  intros []; simpl; unfold u64_ok, bytes_ok, opt_varint, opt_bytes; intros; destruct_and?;
  repeat case_match; simpl; repeat constructor; lia.
Ltac flat_round :=
  intros [] _; simpl; unfold opt_varint, opt_bytes; repeat case_match; zbool; subst; reflexivity.

#[export] Program Instance flat_header : FlatMessage message.Header := {|
  message_ok m := u64_ok (ConnectionType m);
  to_fields m := opt_varint 1 (ConnectionType m);
  of_fields fs := mkHeader (varint_of 1 fs)
|}.
Next Obligation. flat_ok. Qed.
Next Obligation. flat_round. Qed.

#[export] Program Instance flat_payload : FlatMessage message.RequestPayload := {|
  message_ok m := u64_ok (p_RequestId m) ∧ u64_ok (EpochSeconds m) ∧ bytes_ok (p_HandshakeMessage m);
  to_fields m := opt_varint 1 (p_RequestId m) ++ opt_varint 2 (EpochSeconds m)
    ++ opt_bytes 3 (p_HandshakeMessage m);
  of_fields fs := mkRequestPayload (varint_of 1 fs) (varint_of 2 fs) (bytes_of 3 fs)
|}.
Next Obligation. flat_ok. Qed.
Next Obligation. flat_round. Qed.

#[export] Program Instance flat_request : FlatMessage message.Request := {|
  message_ok m := bytes_ok (Payload m) ∧ bytes_ok (Mac m);
  to_fields m := opt_bytes 1 (Payload m) ++ opt_bytes 2 (Mac m);
  of_fields fs := mkRequest (bytes_of 1 fs) (bytes_of 2 fs)
|}.
Next Obligation. flat_ok. Qed.
Next Obligation. flat_round. Qed.

#[export] Program Instance flat_response : FlatMessage message.Response := {|
  message_ok m := u64_ok (r_RequestId m) ∧ bytes_ok (r_HandshakeMessage m);
  to_fields m := opt_varint 1 (r_RequestId m) ++ opt_bytes 2 (r_HandshakeMessage m);
  of_fields fs := message.mkResponse (varint_of 1 fs) (bytes_of 2 fs)
|}.
Next Obligation. flat_ok. Qed.
Next Obligation. flat_round. Qed.

#[export] Program Instance flat_hello : FlatMessage message.Hello := {|
  message_ok m := bytes_ok (h_HandshakeMessage m);
  to_fields m := opt_bytes 1 (h_HandshakeMessage m);
  of_fields fs := mkHello (bytes_of 1 fs)
|}.
Next Obligation. flat_ok. Qed.
Next Obligation. flat_round. Qed.

#[export] Program Instance flat_result : FlatMessage message.Result := {|
  message_ok m := u64_ok (Type_ m);
  to_fields m := opt_varint 1 (Type_ m);
  of_fields fs := mkResult (varint_of 1 fs)
|}.
Next Obligation. flat_ok. Qed.
Next Obligation. flat_round. Qed.

Definition wire_local : LocalProto := {|
  header_proto := wire_proto; payload_proto := wire_proto; request_proto := wire_proto;
  response_proto := wire_proto; hello_proto := wire_proto; result_proto := wire_proto
|}.

(** What the program relies on of Protobuf for these messages. *)
Class LocalProtoLaws `{!LocalProto} : Prop := {
  payload_roundtrip :: ProtoRoundTrip message.RequestPayload (λ _ _, True);
  request_roundtrip :: ProtoRoundTrip message.Request (λ _ _, True);
  header_roundtrip :: ProtoRoundTrip message.Header (λ _ _, True);
  response_roundtrip :: ProtoRoundTrip message.Response (λ _ _, True);
  hello_roundtrip :: ProtoRoundTrip message.Hello (λ _ _, True);
  result_roundtrip :: ProtoRoundTrip message.Result (λ _ _, True);
  payload_typed b m0 p : Unmarshal b m0 = inl p → u64_ok (p_RequestId p) ∧ u64_ok (EpochSeconds p);
  header_size :: ProtoSize message.Header (λ m, u64_ok (ConnectionType m)) (λ _, 0);
  payload_size :: ProtoSize message.RequestPayload
    (λ m, u64_ok (p_RequestId m) ∧ u64_ok (EpochSeconds m)) (λ m, zlen (p_HandshakeMessage m));
  request_size :: ProtoSize message.Request (λ _, True) (λ m, zlen (Payload m) + zlen (Mac m));
  response_size :: ProtoSize message.Response (λ m, u64_ok (r_RequestId m)) (λ m, zlen (r_HandshakeMessage m));
  hello_size :: ProtoSize message.Hello (λ _, True) (λ m, zlen (h_HandshakeMessage m));
  result_size :: ProtoSize message.Result (λ m, u64_ok (Type_ m)) (λ _, 0)
}.

(** The wire format satisfies them: the fields of each message are small. *)
Lemma wire_size {X} `{!FlatMessage X} (wf : X → Prop) (carried : X → Z) :
  (∀ m, wf m → carried m ≤ 2 ^ 20 → message_ok m ∧ Forall small_field (to_fields m) ∧
     11 * zlen (to_fields m) + carried_by_all (to_fields m) ≤ carried m + 40) →
  @ProtoSize X wire_proto wf carried.
Proof.
  intros H m Hwf Hc. destruct (H m Hwf Hc) as (Hok & Hf & Hs).
  exists (to_fields m ≫= put_field). unfold Marshal, wire_proto. rewrite decide_True by done.
  split; [done|]. pose proof (put_fields_size _ Hf). lia.
Qed.

Ltac flat_size :=
  apply wire_size; intros []; simpl; unfold u64_ok, bytes_ok, opt_varint, opt_bytes; intros;
  destruct_and?;
  repeat match goal with b : bytes |- _ => lazymatch goal with
    | _ : 0 ≤ zlen b |- _ => fail | _ => pose proof (zlen_nonneg b) end end;
  repeat case_match; simpl in *; split_and?; repeat constructor; simpl; autorewrite with golen in *; lia.

Lemma wire_local_laws : @LocalProtoLaws wire_local.
Proof.
  constructor; first [apply wire_roundtrip | flat_size | idtac].
  intros b m0 p. simpl. case_match eqn:E; intros; simplify_eq. apply get_fields_range in E.
  split; by apply varint_of_range.
Qed.

(** ** The age of a request *)

(** A clock that shows a time after the first minute of 1970. *)
Definition clock_ok (now : Time) : Prop :=
  unixToInternal + 60 ≤ t_sec now < 2 ^ 62 ∧ 0 ≤ t_nsec now < Second.

(** Nanoseconds since the year 1. *)
Definition nanoseconds (t : Time) : Z := t_sec t * Second + t_nsec t.

(** A timestamp is fresh when it is at most [RequestMaxAge] behind the clock
    and small enough for its internal representation; how far it is ahead of
    the clock does not matter. *)
Definition fresh (now : Time) (epoch : Z) : Prop :=
  nanoseconds now - (epoch + unixToInternal) * Second ≤ RequestMaxAge ∧ epoch + unixToInternal < 2 ^ 63.

Lemma i64_cases z : - 2 ^ 63 ≤ z < 2 ^ 64 → i64 z = if z <? 2 ^ 63 then z else z - 2 ^ 64.
Proof.
  intros H. destruct (Z.ltb_spec z (2 ^ 63)); [apply i64_small; lia|].
  unfold i64. replace (z + 2 ^ 63) with (z - 2 ^ 63 + 1 * 2 ^ 64) by lia.
  rewrite Z.mod_add, Z.mod_small by lia. lia.
Qed.

Lemma age_fresh now epoch :
  clock_ok now → u64_ok epoch →
  (Sub now (time_Unix (i64 epoch)) >? RequestMaxAge) = false ↔ fresh now epoch.
Proof.
  intros [Hs Hn] He. unfold u64_ok in He. unfold fresh, nanoseconds, Sub, time_Unix. simpl.
  rewrite Z.gtb_ltb, Z.ltb_ge. unfold max_i64, RequestMaxAge, Second, unixToInternal in *.
  rewrite (i64_cases epoch) by lia. destruct (Z.ltb_spec epoch (2 ^ 63));
    rewrite i64_cases by lia;
    match goal with |- context [?z <? 2 ^ 63] => destruct (Z.ltb_spec z (2 ^ 63)) end; lia.
Qed.

Section RequestProps.
Context `{LocalProtoLaws}.

Lemma verify_ok now key m p :
  clock_ok now → Unmarshal (Payload m) (mkRequestPayload 0 0 []) = inl p →
  Mac m = hmac_Sum key (Payload m) → fresh now (EpochSeconds p) →
  verifyRequestMessage now key m = (mkLocalRequest (p_RequestId p) (p_HandshakeMessage p), None).
Proof.
  intros Hnow Hp Hm Hf. unfold verifyRequestMessage.
  rewrite bool_decide_eq_true_2 by done. simpl. rewrite Hp.
  rewrite (proj2 (age_fresh now (EpochSeconds p) Hnow (proj2 (payload_typed _ _ _ Hp)))); done.
Qed.

Lemma verify_inv now key m r :
  clock_ok now → verifyRequestMessage now key m = (r, None) →
  Mac m = hmac_Sum key (Payload m) ∧ ∃ p, Unmarshal (Payload m) (mkRequestPayload 0 0 []) = inl p ∧
    fresh now (EpochSeconds p) ∧ r = mkLocalRequest (p_RequestId p) (p_HandshakeMessage p).
Proof.
  intros Hnow. unfold verifyRequestMessage. case_bool_decide; simpl; [|done].
  destruct (Unmarshal _ _) as [p|] eqn:Hp; [|done]. case_match eqn:Ha; [done|]. intros. simplify_eq.
  split; [done|]. exists p. split_and!; [done| |done].
  by apply (age_fresh now); [|eapply payload_typed|].
Qed.

Lemma zlen_hmac_Sum key b : zlen (hmac_Sum key b) = zlen b + 32.
Proof. unfold hmac_Sum, hmac_sha256. by rewrite zlen_app, zlen_sha256. Qed.

Lemma Time_Unix_ok now : clock_ok now → u64 (Time_Unix now) = t_sec now - unixToInternal.
Proof.
  intros [Hs _]. unfold Time_Unix, unixToInternal in *. rewrite i64_small, u64_small by lia. done.
Qed.

(** A request of the program is small enough for a packet. *)
Lemma request_packet_ok now key r :
  clock_ok now → u64_ok (Id r) → zlen (HandshakeMessage r) ≤ 1024 →
  ∃ p b, request_packet now key r = inl b ∧ fits b ∧
    Marshal (mkRequestPayload (Id r) (t_sec now - unixToInternal) (HandshakeMessage r)) = inl p ∧
    Marshal (mkRequest p (hmac_Sum key p)) = inl b.
Proof.
  intros Hnow Hid Hh. unfold request_packet.
  destruct (marshal_bound (mkHeader ConnectionTypeRequest)) as (h & -> & _); [done|done|].
  rewrite Time_Unix_ok, u64_small by done. pose proof Hnow as [Hs _].
  destruct (marshal_bound (mkRequestPayload (Id r) (t_sec now - unixToInternal) (HandshakeMessage r)))
    as (p & Hp & Hpl).
  { unfold u64_ok, unixToInternal in *. simpl. lia. }
  { simpl. lia. }
  simpl in Hpl. rewrite Hp.
  destruct (marshal_bound (mkRequest p (hmac_Sum key p))) as (b & Hb & Hbl);
    [done|simpl; rewrite zlen_hmac_Sum; lia|].
  simpl in Hbl. rewrite zlen_hmac_Sum in Hbl. rewrite Hb.
  exists p, b. split_and!; [done| |done|done]. unfold fits. rewrite MaxLength_eq. lia.
Qed.
End RequestProps.

(** ** Properties *)

(** C35: a device accepts a request message exactly when the MAC field is the
    payload followed by the HMAC of the empty string under its device key, the
    payload parses and its timestamp is at most [RequestMaxAge] behind the
    clock; the accepted request has the id and the handshake message of the
    payload.  Timestamps that overflow the internal representation are not
    accepted. *)
Theorem local_request_verified `{LocalProtoLaws} (now : Time) (key : bytes) (m : message.Request) (r : Request) :
  clock_ok now →
  verifyRequestMessage now key m = (r, None) ↔
  Mac m = Payload m ++ hmac_sha256 key [] ∧
  ∃ p, Unmarshal (Payload m) (mkRequestPayload 0 0 []) = inl p ∧ fresh now (EpochSeconds p) ∧
    r = mkLocalRequest (p_RequestId p) (p_HandshakeMessage p).
Proof.
  intros Hnow. split; [by apply verify_inv|]. intros (Hm & p & Hp & Hf & ->). by apply verify_ok.
Qed.

(** A broadcast request reaches the devices with the target's key and no
    others: what [request] puts into a packet is read back as the same request
    by a device whose key gives the same HMAC, at any time up to
    [RequestMaxAge] after the second of the request, and by no other device. *)
Theorem local_request_roundtrip `{LocalProtoLaws} (now now' : Time) (key key' : bytes) (r : Request) :
  clock_ok now → clock_ok now' → u64_ok (Id r) → zlen (HandshakeMessage r) ≤ 1024 →
  ∃ b, request_packet now key r = inl b ∧ fits b ∧
    (read_request now' key' (wire b) = Some r ↔
     hmac_sha256 key' [] = hmac_sha256 key [] ∧ nanoseconds now' ≤ t_sec now * Second + RequestMaxAge) ∧
    (read_request now' key' (wire b) = None ∨ read_request now' key' (wire b) = Some r).
Proof.
  intros Hnow Hnow' Hid Hh.
  destruct (request_packet_ok now key r Hnow Hid Hh) as (p & b & Hb & Hfit & Hp & Hm).
  exists b. split; [done|]. split; [done|].
  unfold read_request. rewrite Decode_wire by done.
  rewrite (unmarshal_marshal (same_type := λ _ _, True) _ _ _ Hm I).
  pose proof (unmarshal_marshal (same_type := λ _ _, True) _ (mkRequestPayload 0 0 []) _ Hp I) as Hu.
  assert (fresh now' (t_sec now - unixToInternal) ↔ nanoseconds now' ≤ t_sec now * Second + RequestMaxAge) as Hf.
  { destruct Hnow as [Hs _]. unfold fresh. rewrite Z.sub_add. lia. }
  assert (verifyRequestMessage now' key' (mkRequest p (hmac_Sum key p)) = (r, None) ↔
    hmac_sha256 key' [] = hmac_sha256 key [] ∧ nanoseconds now' ≤ t_sec now * Second + RequestMaxAge) as Hv.
  { rewrite <- Hf. split.
    - intros (He & p' & Hu' & Hfr & _)%verify_inv; [|done]. simpl in *. rewrite Hu in Hu'. simplify_eq/=.
      unfold hmac_Sum in He. simplify_eq. done.
    - intros [He Hfr]. rewrite (verify_ok now' key' (mkRequest p (hmac_Sum key p)) _ Hnow' Hu); [by destruct r|simpl|done].
      unfold hmac_Sum. by rewrite He. }
  rewrite <- Hv. destruct (verifyRequestMessage now' key' _) as [r' [e|]] eqn:E.
  - split; [split; intros [=]|by left].
  - apply verify_inv in E as (_ & p' & Hu' & _ & ->); [|done]. simpl in *. rewrite Hu in Hu'. simplify_eq/=.
    destruct r. simpl. split; [|by right]. done.
Qed.

(** C37: the MAC does not protect the payload: whoever has seen one request for
    a device can make it accept a request with any id and any handshake
    message, at any later time, by copying the tag; the device key is not
    needed, and a timestamp in the future keeps a request valid until then. *)
Theorem local_request_forgery `{LocalProtoLaws} (now now' : Time) (key : bytes) (seen : message.Request)
    (r0 : Request) (p : message.RequestPayload) (b : bytes) :
  clock_ok now → clock_ok now' → verifyRequestMessage now key seen = (r0, None) →
  Marshal p = inl b → fresh now' (EpochSeconds p) →
  let forged := mkRequest b (b ++ drop (length (Payload seen)) (Mac seen)) in
  verifyRequestMessage now' key forged = (mkLocalRequest (p_RequestId p) (p_HandshakeMessage p), None) ∧
  (∀ later, clock_ok later → nanoseconds later ≤ (EpochSeconds p + unixToInternal) * Second →
     verifyRequestMessage later key forged = (mkLocalRequest (p_RequestId p) (p_HandshakeMessage p), None)).
Proof.
  intros Hnow Hnow' Hseen Hb Hf forged.
  apply verify_inv in Hseen as (He & _); [|done].
  pose proof (unmarshal_marshal (same_type := λ _ _, True) _ (mkRequestPayload 0 0 []) _ Hb I) as Hu.
  assert (Mac forged = hmac_Sum key (Payload forged)) as Hmac.
  { simpl. rewrite He. unfold hmac_Sum. by rewrite drop_app_length. }
  split; [by apply verify_ok|]. intros later Hl Hle. apply verify_ok; [done|done|done|].
  destruct Hf as [_ Hf]. split; [|done]. unfold RequestMaxAge, Second in *. lia.
Qed.

(** Witnesses: 1 January 2021, and a device key of zeros. *)
Definition demo_now : Time := mkTime (unixToInternal + 1609459200) 500000000.
Definition demo_later : Time := mkTime (unixToInternal + 1609459219) 0.
Definition demo_device_key : bytes := replicate 32 Byte.x00.

Lemma demo_clocks : clock_ok demo_now ∧ clock_ok demo_later.
Proof. unfold clock_ok. simpl. unfold unixToInternal, Second. lia. Qed.

Definition demo_payload : message.RequestPayload := mkRequestPayload 7 1609459200 [Byte.x01; Byte.x02].
Definition demo_payload_bytes : bytes := to_fields demo_payload ≫= put_field.
Definition demo_request_message : message.Request :=
  mkRequest demo_payload_bytes (demo_payload_bytes ++ hmac_sha256 demo_device_key []).

Lemma demo_payload_fresh : fresh demo_later (EpochSeconds demo_payload).
Proof. unfold fresh, nanoseconds, RequestMaxAge. simpl. unfold unixToInternal, Second. lia. Qed.

Lemma demo_unmarshal :
  @Unmarshal _ (@payload_proto wire_local) demo_payload_bytes (mkRequestPayload 0 0 []) = inl demo_payload.
Proof. reflexivity. Qed.

Lemma local_request_verified_witness :
  @verifyRequestMessage wire_local demo_later demo_device_key demo_request_message =
    (mkLocalRequest 7 [Byte.x01; Byte.x02], None).
Proof.
  apply (@local_request_verified wire_local wire_local_laws); [apply demo_clocks|].
  split; [reflexivity|]. exists demo_payload.
  split; [exact demo_unmarshal|]. split; [exact demo_payload_fresh|reflexivity].
Defined.

Lemma local_request_roundtrip_witness :
  ∃ b, @request_packet wire_local demo_now demo_device_key (mkLocalRequest 7 [Byte.x01]) = inl b ∧
    @read_request wire_local demo_later demo_device_key (wire b) = Some (mkLocalRequest 7 [Byte.x01]).
Proof.
  destruct (@local_request_roundtrip wire_local wire_local_laws demo_now demo_later demo_device_key
    demo_device_key (mkLocalRequest 7 [Byte.x01])) as (b & H1 & _ & H2 & _).
  - apply demo_clocks.
  - apply demo_clocks.
  - split; [discriminate|reflexivity].
  - discriminate.
  - exists b. split; [exact H1|]. apply H2. split; [reflexivity|discriminate].
Defined.

(** A payload that its sender dates 30 years ahead. *)
Definition forged_payload : message.RequestPayload := mkRequestPayload 9 2556144000 [Byte.x03].
Definition forged_bytes : bytes := to_fields forged_payload ≫= put_field.

Lemma local_request_forgery_witness :
  @verifyRequestMessage wire_local demo_later demo_device_key
    (mkRequest forged_bytes
       (forged_bytes ++ drop (length demo_payload_bytes) (Mac demo_request_message))) =
    (mkLocalRequest 9 [Byte.x03], None).
Proof.
  destruct (@local_request_forgery wire_local wire_local_laws demo_later demo_later demo_device_key
    demo_request_message (mkLocalRequest 7 [Byte.x01; Byte.x02]) forged_payload forged_bytes) as [H _].
  - apply demo_clocks.
  - apply demo_clocks.
  - apply (@verify_ok wire_local wire_local_laws demo_later demo_device_key demo_request_message demo_payload);
      [apply demo_clocks|exact demo_unmarshal|reflexivity|exact demo_payload_fresh].
  - reflexivity.
  - unfold fresh, nanoseconds, RequestMaxAge. simpl. unfold unixToInternal, Second. lia.
  - exact H.
Defined.
