(* ===== verification/Local.v ===== *)
(** * Local: the handshake of a local connection ([lib/local/client.go])

    [handleResponse] is what the device that asked for a connection does once
    a response came in, [handleRequest] what the device that was asked does
    over the connection it opened.  Both run one Noise handshake over a network
    connection, wrap the connection and exchange a first encrypted message, the
    result. *)

From S2P Require Import Prelude GoSem Packet Secure Channel Proto Device Handshake LocalMessage.

Import message(mkHeader, mkHello, h_HandshakeMessage, mkResult, Type_).

Local Open Scope Z_scope.

Definition ConnectionRefused : error :=
  ErrVar "local.ConnectionRefused" "the peer refused the connection".
Definition ErrNilPeerStatic : error := ErrText "unexpected nil peer static identity".
Definition ErrInvalidResultType : error := ErrText "invalid result type in result message".

(** [net.Conn]: a deadline is a duration from now, [None] is no deadline
    ([time.Time{}]). *)
Class net_Conn (C : Type) : Type := {
  nc_reader :: io_Reader C;
  nc_writer :: io_Writer C;
  nc_closer :: io_Closer C;
  SetReadDeadline : option Z → M C (option error);
  SetWriteDeadline : option Z → M C (option error)
}.

(** [local.TrustStore] *)
Record TrustStore : Type := mkTrustStore {
  IsTrusted : bytes → bool;
  IsX25519Trusted : bytes → bool
}.

(** The fields of [client] that do not change. *)
Record client (CS : Type) : Type := mkClient {
  port : Z;
  keyPair : KeyPair;
  deviceKey : bytes;
  trustStore : TrustStore;
  cipherSuite : CS
}.
Arguments mkClient {CS} _ _ _ _ _.
Arguments port {CS} _.
Arguments keyPair {CS} _.
Arguments deviceKey {CS} _.
Arguments trustStore {CS} _.
Arguments cipherSuite {CS} _.

Definition client_Identity {CS} (c : client CS) : bytes := Public (keyPair c).
Definition HmacKey {CS} (c : client CS) : bytes := deviceKey c.
Definition client_CipherSuite {CS} (c : client CS) : CS := cipherSuite c.

Section Handshakes.
Context {CS HS K C : Type} `{!Ed25519} `{!NoiseHandshake CS HS K} `{!CipherState K}.
Context `{!net_Conn C} `{!LocalProto}.
Implicit Types c : client CS.

Abbreviation secure_Conn := (noiseConn C (option K)).

(** [rnd] stands for what [rand.Reader] gives to the handshake. *)
Definition requesterHandshakeState c (rnd : bytes) (request : Request) (ephemeral : DHKey)
    (responderIdentity : bytes) : outcome (HS + error) :=
  prologue ← RequestId_Bytes (Id request);
  static ← Noise (keyPair c);
  peer ← Identity_X25519 responderIdentity;
  mret (NewHandshakeState (mkConfig (cipherSuite c) rnd HandshakeXK1fallback false prologue static
          ephemeral peer [])).

Definition responderHandshakeState c (rnd : bytes) (request : Request) : outcome (HS + error) :=
  prologue ← RequestId_Bytes (Id request);
  static ← Noise (keyPair c);
  mret (NewHandshakeState (mkConfig (cipherSuite c) rnd HandshakeXK1fallback true prologue static
          no_key [] (HandshakeMessage request))).

(** A call on the wrapped connection: the underlying connection is shared. *)
Definition on_conn {R A} (m : M secure_Conn A) (nc : secure_Conn) : body C R (A * secure_Conn) := λ s,
  match m nc with
  | (Ret a, nc') => (Ret (inl (a, nc')), Conn nc')
  | (Panic p, nc') => (Panic p, Conn nc')
  | (Hang, nc') => (Hang, Conn nc')
  end.

(** The result of both functions: the wrapped connection, if it was made, and
    the error. *)
Definition failed (nc : option secure_Conn) (e : error) : option secure_Conn * option error := (nc, Some e).

Definition handleResponse c (rnd : bytes) (ephemeralKey : DHKey) (targetIdentity : bytes)
    (request : Request) (response : Response) : M C (option secure_Conn * option error) := run_body (
  hs ← do_ (lift (requesterHandshakeState c rnd request ephemeralKey targetIdentity));
  hs ← unwrap (failed None) hs;
  '((_, _, _, err), hs) ← do_ (call (HS_ReadMessage [] (HandshakeMessage_ response)) hs);
  check (failed None) err;;
  (* Write Hello. *)
  '((hs1, c1, c2, err), hs) ← do_ (call (HS_WriteMessage [] []) hs);
  check (failed None) err;;
  d1 ← unwrap (failed None) (Marshal (mkHello hs1));
  err ← do_ (SetWriteDeadline (Some IoTimeout));
  check (failed None) err;;
  '(_, err) ← do_ (Packet_WriteTo (New d1));
  check (failed None) err;;
  err ← do_ (SetWriteDeadline None);
  check (failed None) err;;
  (* Wrap the connection. *)
  conn ← do_ get;
  let nc := WrapConn (client_Identity c) targetIdentity conn c2 c1 in
  (* Read the encrypted Result. *)
  '(err, nc) ← on_conn (zoom conn_field (SetReadDeadline (Some IoTimeout))) nc;
  check (failed (Some nc)) err;;
  '((data, err), nc) ← on_conn (Read MessageMaxSize MessageMaxSize) nc;
  check (failed (Some nc)) err;;
  '(err, nc) ← on_conn (zoom conn_field (SetReadDeadline None)) nc;
  check (failed (Some nc)) err;;
  result ← unwrap (failed (Some nc)) (Unmarshal data (mkResult 0));
  if Type_ result =? ResultTypeRefused then return_ (Some nc, Some ConnectionRefused)
  else if negb (Type_ result =? ResultTypeOk) then return_ (Some nc, Some ErrInvalidResultType)
  else mret (Some nc, None)).

Definition writeResult (resultType : Z) : M secure_Conn (option error) := run_body (
  err ← do_ (zoom conn_field (SetWriteDeadline (Some IoTimeout)));
  check Some err;;
  data ← unwrap Some (Marshal (mkResult resultType));
  '(_, err) ← do_ (Write data);
  check Some err;;
  err ← do_ (zoom conn_field (SetWriteDeadline None));
  mret err).

Definition handleRequest c (rnd : bytes) (request : Request)
  : M C (option secure_Conn * option error) := run_body (
  hs ← do_ (lift (responderHandshakeState c rnd request));
  hs ← unwrap (failed None) hs;
  (* Write Response. *)
  '((hs1, _, _, err), hs) ← do_ (call (HS_WriteMessage [] []) hs);
  check (failed None) err;;
  b1 ← unwrap (failed None) (Marshal (message.mkResponse (u64 (Id request)) hs1));
  '(_, err) ← do_ (Packet_WriteTo (New b1));
  check (failed None) err;;
  (* Read Hello. *)
  err ← do_ (SetReadDeadline (Some IoTimeout));
  check (failed None) err;;
  '(d2, err) ← do_ DecodeFrom;
  check (failed None) err;;
  m2 ← unwrap (failed None) (Unmarshal (default [] d2) (mkHello []));
  '((_, c1, c2, err), hs) ← do_ (call (HS_ReadMessage [] (h_HandshakeMessage m2)) hs);
  check (failed None) err;;
  match HS_PeerStatic hs with
  | None => return_ (None, Some ErrNilPeerStatic)
  | Some peerStatic =>
      let peerIdentity := peerStatic in
      (* Wrap the connection. *)
      conn ← do_ get;
      let nc := WrapConn (client_Identity c) peerIdentity conn c1 c2 in
      (* Check if the identity is trusted. *)
      if negb (IsX25519Trusted (trustStore c) peerStatic) then
        '(err, nc) ← on_conn (writeResult ResultTypeRefused) nc;
        mret (Some nc, err)
      else
        (* Write Result. *)
        '(err, nc) ← on_conn (writeResult ResultTypeOk) nc;
        check (failed (Some nc)) err;;
        mret (Some nc, None)
  end).

(** The goroutine that [incomingUnicastHandler] starts for a connection: what
    it sends to the response broker, if anything; otherwise it closes the
    connection. *)
Definition handleUnicast : M C (option Response) := run_body (
  let close : body C (option Response) (option Response) :=
    do_ (_ ← io_Close; mret None) in
  '(headerPacket, e1) ← do_ DecodeFrom;
  if negb (is_nil e1) then close
  else match Unmarshal (default [] headerPacket) (mkHeader 0) with
  | inr _ => close
  | inl header =>
      '(contentPacket, e1) ← do_ DecodeFrom;
      if negb (is_nil e1) then close
      else if message.ConnectionType header =? ConnectionTypeRequest then close
      else if message.ConnectionType header =? ConnectionTypeResponse then
        match Unmarshal (default [] contentPacket) (message.mkResponse 0 []) with
        | inr _ => close
        | inl m => mret (Some (mkLocalResponse (message.r_RequestId m) (message.r_HandshakeMessage m)))
        end
      else close
  end).

(** What [listenRequests] writes to a connection that it dialed. *)
Definition writeHeader : M C (option error) := run_body (
  header ← unwrap Some (Marshal (mkHeader ConnectionTypeResponse));
  '(_, e1) ← do_ (Packet_WriteTo (New header));
  mret e1).
End Handshakes.
