(* ===== verification/LocalProps.v ===== *)
(** * LocalProps: the two sides of a local handshake fit together

    A network connection as two byte streams, the run of [handleResponse]
    against [handleRequest] over it, and what the handshake guarantees. *)

From S2P Require Import Prelude GoSem Packet Secure Channel Proto Device Handshake LocalMessage Local.

Import message(mkHeader, mkHello, h_HandshakeMessage, mkResult, Type_).

Local Open Scope Z_scope.

(** ** A connection as a pair of streams

    [inbox]: the segments that are still to be read; [outbox]: what was
    written; the deadlines and whether it was closed. *)
Record pipe : Type := mkPipe {
  inbox : segments;
  outbox : bytes;
  readDeadline : option Z;
  writeDeadline : option Z;
  closed : bool
}.

Definition inbox_lens : lens pipe segments :=
  Lens inbox (λ s c, mkPipe s (outbox c) (readDeadline c) (writeDeadline c) (closed c)).

#[export] Instance pipe_Reader : io_Reader pipe := λ n, zoom inbox_lens (io_Read n).
#[export] Instance pipe_Writer : io_Writer pipe := λ p c,
  (Ret (zlen p, None), mkPipe (inbox c) (outbox c ++ p) (readDeadline c) (writeDeadline c) (closed c)).

#[export] Instance pipe_Conn : net_Conn pipe := {|
  nc_reader := pipe_Reader;
  nc_writer := pipe_Writer;
  nc_closer := λ c, (Ret None, mkPipe (inbox c) (outbox c) (readDeadline c) (writeDeadline c) true);
  SetReadDeadline d c := (Ret None, mkPipe (inbox c) (outbox c) d (writeDeadline c) (closed c));
  SetWriteDeadline d c := (Ret None, mkPipe (inbox c) (outbox c) (readDeadline c) d (closed c))
|}.

(** Reading a pipe is reading its inbox. *)
Lemma ReadAtLeast_pipe fuel n acc (c : pipe) :
  ReadAtLeast fuel n acc c = zoom inbox_lens (ReadAtLeast fuel n acc) c.
Proof.
  revert acc c. induction fuel as [|fuel IH]; intros acc [i o r w k]; [done|].
  cbn [ReadAtLeast]. unfold zoom. simpl. destruct (n <=? zlen acc); [done|].
  unfold mbind, M_bind. unfold io_Read at 1, nc_reader, pipe_Conn, pipe_Reader, zoom. simpl.
  destruct (io_Read (n - zlen acc) i) as [[[chunk [e|]]| |] s]; simpl; [|..].
  - destruct (n <=? _); [done|]. by destruct (_ && _).
  - rewrite IH. unfold zoom. simpl. by destruct (ReadAtLeast _ _ _ s).
  - done.
  - done.
Qed.

Lemma ReadFull_pipe n (c : pipe) : ReadFull n c = zoom inbox_lens (ReadFull n) c.
Proof. apply ReadAtLeast_pipe. Qed.

(** A packet that is still to be read, however its bytes are segmented. *)
Definition incoming (c : pipe) (d : bytes) : Prop := pending (inbox c) d.

Definition set_inbox (l : list bytes) (c : pipe) : pipe := lset inbox_lens (Segments l) c.
Definition sent (d : bytes) (c : pipe) : pipe :=
  mkPipe (inbox c) (outbox c ++ d) (readDeadline c) (writeDeadline c) (closed c).

Lemma DecodeFrom_pipe (c : pipe) : DecodeFrom c = zoom inbox_lens DecodeFrom c.
Proof.
  destruct c as [i o r w k]. unfold DecodeFrom, mbind, M_bind. rewrite ReadFull_pipe. unfold zoom. simpl.
  destruct (ReadFull LengthSize i) as [[[h [e|]]| |] s]; simpl; try done.
  destruct (DecodeLength h) as [n [e|]]; [done|]. rewrite ReadFull_pipe. unfold zoom. simpl.
  by destruct (ReadFull n s) as [[[g e]| |] s'].
Qed.

(** The next packet of the inbox. *)
Lemma DecodeFrom_incoming (c : pipe) p rest :
  incoming c (wire p ++ rest) → fits p →
  ∃ l, DecodeFrom c = (Ret (Some p, None), set_inbox l c) ∧ incoming (set_inbox l c) rest.
Proof.
  intros Hp Hf. destruct (DecodeFrom_wire (inbox c) p rest) as ([l] & E & Hp'); [done|done|].
  exists l. rewrite DecodeFrom_pipe. erewrite zoom_eq by exact E. done.
Qed.

Lemma WriteTo_pipe (c : pipe) p : fits p → Packet_WriteTo p c = (Ret (Packet_Size p, None), sent (wire p) c).
Proof.
  intros Hf. unfold Packet_WriteTo. rewrite LengthOf_fits by done.
  unfold mbind, M_bind. simpl. unfold sent, wire. simpl.
  rewrite zlen_Length_Bytes, <- app_assoc. done.
Qed.

(** Reading one encrypted message off a pipe. *)
Lemma framed_pipe ct cts l (c : pipe) :
  framed (ct :: cts) l → zlen ct < 2 ^ 16 →
  ∃ l1 l2, io_Read LengthSize (set_inbox l c) = (Ret (Length_Bytes (zlen ct), None), set_inbox l1 c) ∧
    ReadFull (zlen ct) (set_inbox l1 c) = (Ret (ct, None), set_inbox l2 c) ∧ framed cts l2.
Proof.
  intros Hfr Hlen. destruct (framed_head ct cts l Hfr Hlen) as (l1 & l2 & H1 & H2 & H3).
  exists l1, l2. split_and!; [| |done].
  - unfold io_Read, nc_reader, pipe_Conn, pipe_Reader. erewrite zoom_eq by exact H1. done.
  - rewrite ReadFull_pipe. erewrite zoom_eq by exact H2. done.
Qed.

(** ** The handshake *)

Section Run.
Context {CS HS K : Type} `{HandshakeLaws CS HS K} `{!Ed25519} `{LocalProtoLaws}.

(** Two devices that can make a connection: [a] asks with the ephemeral key
    [e] for the device [b]; both use the same cipher suite, and their keys are
    valid. *)
Definition peers (a b : client CS) (ka kb e : DHKey) : Prop :=
  Noise (keyPair a) = Ret ka ∧ Noise (keyPair b) = Ret kb ∧ cipherSuite a = cipherSuite b ∧
  key_pair (cipherSuite a) ka ∧ key_pair (cipherSuite a) kb ∧ key_pair (cipherSuite a) e.

Lemma RequestId_Bytes_ok id : RequestId_Bytes id = Ret (be_bytes 8 (u64 id) ++ [Byte.x00; Byte.x00]).
Proof. done. Qed.

(** The states of both sides and the messages of the run. *)
Lemma handshake_states a b ka kb e rnd_a rnd_b id :
  peers a b ka kb e → let rq := mkLocalRequest id (dh_Public e) in
  ∃ hi hr m1 hi1 hr1 m2 hr2 hi2 (i1 i2 r1 r2 : K),
    responderHandshakeState b rnd_b rq = Ret (inl hi) ∧
    requesterHandshakeState a rnd_a rq e (client_Identity b) = Ret (inl hr) ∧
    HS_WriteMessage [] [] hi = (Ret (m1, None, None, None), hi1) ∧
    HS_ReadMessage [] m1 hr = (Ret ([], None, None, None), hr1) ∧
    HS_WriteMessage [] [] hr1 = (Ret (m2, Some r1, Some r2, None), hr2) ∧
    HS_ReadMessage [] m2 hi1 = (Ret ([], Some i1, Some i2, None), hi2) ∧
    zlen m1 ≤ handshake_message_bound ∧ zlen m2 ≤ handshake_message_bound ∧
    HS_PeerStatic hi2 = Some (dh_Public ka) ∧
    (∀ n, Z.of_nat n ≤ max_messages → in_sync n i1 r1 ∧ in_sync n r2 i2).
Proof.
  intros (Ha & Hb & Hsuite & Hka & Hkb & Hke) rq.
  set (prologue := be_bytes 8 (u64 id) ++ [Byte.x00; Byte.x00]).
  destruct (two_message_run
    (mkConfig (cipherSuite b) rnd_b HandshakeXK1fallback true prologue kb no_key [] (dh_Public e))
    (mkConfig (cipherSuite a) rnd_a HandshakeXK1fallback false prologue ka e (dh_Public kb) []))
    as (hi & hr & m1 & hi1 & hr1 & m2 & hr2 & hi2 & i1 & i2 & r1 & r2 & Hi & Hr & Hrest); simpl.
  - split_and!; simpl; try done; intros Hin; set_solver.
  - done.
  - done.
  - by rewrite <- Hsuite.
  - done.
  - done.
  - exists hi, hr, m1, hi1, hr1, m2, hr2, hi2, i1, i2, r1, r2.
    split; [|split; [|exact Hrest]].
    + unfold responderHandshakeState. rewrite RequestId_Bytes_ok. simpl. rewrite Hb. exact (f_equal Ret Hi).
    + unfold requesterHandshakeState. rewrite RequestId_Bytes_ok. simpl. rewrite Ha. simpl.
      unfold client_Identity. rewrite (Noise_X25519 _ _ Hb). exact (f_equal Ret Hr).
Qed.

(** Steps of a body: a call whose result is known, a check that passes. *)
Ltac go H := erewrite body_do by exact H; cbv beta iota.
Ltac pass := rewrite body_check.

(** The wrapped connection of a side, and one call on it. *)
Lemma on_conn_eq {C A R} `{!net_Conn C} (m : M (noiseConn C (option K)) A) nc nc' a (s : C) :
  m nc = (Ret a, nc') → on_conn (R := R) m nc s = (Ret (inl (a, nc')), Conn nc').
Proof. intros E. unfold on_conn. by rewrite E. Qed.

(** The messages of a run fit into packets. *)
Lemma hello_ok m2 : zlen m2 ≤ handshake_message_bound → ∃ d, Marshal (mkHello m2) = inl d ∧ fits d.
Proof.
  unfold handshake_message_bound. intros Hm. destruct (marshal_bound (mkHello m2)) as (d & Hd & Hl); [done|simpl; lia|].
  exists d. split; [done|]. simpl in Hl. unfold fits. rewrite MaxLength_eq. lia.
Qed.

Lemma response_ok id m1 :
  u64_ok id → zlen m1 ≤ handshake_message_bound →
  ∃ d, Marshal (message.mkResponse id m1) = inl d ∧ fits d.
Proof.
  unfold handshake_message_bound. intros Hid Hm.
  destruct (marshal_bound (message.mkResponse id m1)) as (d & Hd & Hl); [done|simpl; lia|].
  exists d. split; [done|]. simpl in Hl. unfold fits. rewrite MaxLength_eq. lia.
Qed.

Lemma result_ok t :
  u64_ok t → ∃ d, Marshal (mkResult t) = inl d ∧ sendable d.
Proof.
  intros Ht. destruct (marshal_bound (mkResult t)) as (d & Hd & Hl); [done|done|].
  exists d. split; [done|]. unfold sendable, PayloadMaxSize. rewrite MessageMaxSize_eq. unfold TagSize. lia.
Qed.

(** Writing the result over a pipe. *)
Lemma writeResult_ok me peer (c : pipe) k k' kx t d ct :
  Marshal (mkResult t) = inl d → sendable d → zlen ct = MessageSize (zlen d) →
  Encrypt (Length_Bytes (zlen ct)) (Length_Bytes (zlen ct)) d k = (Ret (wire ct, None), k') →
  writeResult t (mkConn me peer c k kx) =
    (Ret None, mkConn me peer
       (mkPipe (inbox c) (outbox c ++ wire ct) (readDeadline c) None (closed c)) k' kx).
Proof.
  intros Hd Hs Hct HE. unfold writeResult. apply run_body_inl.
  erewrite body_do by (apply zoom_eq; reflexivity). pass. cbn [lset conn_field].
  erewrite body_unwrap by exact Hd.
  erewrite body_do; [|by eapply Write_steps]. cbv beta iota. pass. done.
Qed.

(** The result that a device sends to a peer. *)
Definition result_for (b : client CS) (peer : bytes) : Z :=
  if IsX25519Trusted (trustStore b) peer then ResultTypeOk else ResultTypeRefused.

(** The device that was asked, up to the hello: it has written the response
    and reads with a deadline. *)
Lemma handleRequest_prefix b rnd rq hi m1 hi1 response (c : pipe) :
  u64_ok (Id rq) → responderHandshakeState b rnd rq = Ret (inl hi) →
  HS_WriteMessage [] [] hi = (Ret (m1, None, None, None), hi1) →
  Marshal (message.mkResponse (Id rq) m1) = inl response → fits response →
  let c1 := mkPipe (inbox c) (outbox c ++ wire response) (Some IoTimeout) (writeDeadline c) (closed c) in
  handleRequest b rnd rq c = run_body (
    '(d2, err) ← do_ DecodeFrom;
    check (failed None) err;;
    m2 ← unwrap (failed None) (Unmarshal (default [] d2) (mkHello []));
    '((_, c1, c2, err), hs) ← do_ (call (HS_ReadMessage [] (h_HandshakeMessage m2)) hi1);
    check (failed None) err;;
    match HS_PeerStatic hs with
    | None => return_ (None, Some ErrNilPeerStatic)
    | Some peerStatic =>
        conn ← do_ get;
        let nc := WrapConn (client_Identity b) peerStatic conn c1 c2 in
        if negb (IsX25519Trusted (trustStore b) peerStatic) then
          '(err, nc) ← on_conn (writeResult ResultTypeRefused) nc;
          mret (Some nc, err)
        else
          '(err, nc) ← on_conn (writeResult ResultTypeOk) nc;
          check (failed (Some nc)) err;;
          mret (Some nc, None)
    end) c1.
Proof.
  intros Hid Hst Hw Hresp Hfr c1. unfold handleRequest, run_body.
  erewrite body_do by (unfold lift; by rewrite Hst). rewrite (body_unwrap _ (inl hi) hi) by done.
  erewrite body_do by (by apply call_eq). cbv beta iota. pass.
  rewrite u64_small by done. erewrite body_unwrap by exact Hresp.
  erewrite body_do by (by apply WriteTo_pipe). cbv beta iota. pass.
  erewrite body_do by reflexivity. pass. reflexivity.
Qed.

(** The whole run: it reads the hello and writes the result. *)
Lemma handleRequest_run b rnd rq hi m1 hi1 m2 hi2 (i1 i1' i2 : option K) peer response hello d ct (c : pipe) :
  u64_ok (Id rq) → responderHandshakeState b rnd rq = Ret (inl hi) →
  HS_WriteMessage [] [] hi = (Ret (m1, None, None, None), hi1) →
  Marshal (message.mkResponse (Id rq) m1) = inl response → fits response →
  Marshal (mkHello m2) = inl hello → fits hello →
  HS_ReadMessage [] m2 hi1 = (Ret ([], i1, i2, None), hi2) → HS_PeerStatic hi2 = Some peer →
  Marshal (mkResult (result_for b peer)) = inl d → sendable d → zlen ct = MessageSize (zlen d) →
  Encrypt (Length_Bytes (zlen ct)) (Length_Bytes (zlen ct)) d i1 = (Ret (wire ct, None), i1') →
  incoming c (wire hello) →
  ∃ l, let c' := mkPipe (Segments l) (outbox c ++ wire response ++ wire ct) (Some IoTimeout) None (closed c) in
    handleRequest b rnd rq c = (Ret (Some (mkConn (client_Identity b) peer c' i1' i2), None), c').
Proof.
  intros Hid Hst Hw Hresp Hfr Hhello Hfh Hread Hpeer Hd Hs Hct HE Hin.
  rewrite (handleRequest_prefix b rnd rq hi m1 hi1 response) by done.
  set (c1 := mkPipe (inbox c) (outbox c ++ wire response) (Some IoTimeout) (writeDeadline c) (closed c)).
  destruct (DecodeFrom_incoming c1 hello []) as (l & Hdec & _); [by rewrite app_nil_r|done|].
  exists l. cbv zeta.
  assert (∀ t, result_for b peer = t →
    writeResult t (WrapConn (client_Identity b) peer (set_inbox l c1) i1 i2) =
    (Ret None, mkConn (client_Identity b) peer
       (mkPipe (Segments l) (outbox c ++ wire response ++ wire ct) (Some IoTimeout) None (closed c)) i1' i2)) as Hres.
  { intros t Ht. rewrite Ht in Hd. unfold WrapConn. rewrite (writeResult_ok _ _ _ _ i1' _ _ d ct) by done.
    simpl. by rewrite <- app_assoc. }
  apply run_body_inl. erewrite body_do by exact Hdec. cbv beta iota. pass.
  cbn [default]. rewrite (body_unwrap _ _ (mkHello m2))
    by (by apply (unmarshal_marshal (same_type := λ _ _, True))).
  erewrite body_do by (by apply call_eq). cbv beta iota. pass.
  rewrite Hpeer. erewrite body_do by reflexivity. cbv zeta.
  unfold result_for in Hres. destruct (IsX25519Trusted (trustStore b) peer); cbn [negb];
    unfold mbind at 1, body_bind at 1; erewrite on_conn_eq by (by apply Hres); done.
Qed.

(** What the asking device makes of a result. *)
Definition verdict (t : Z) : option error :=
  if t =? ResultTypeRefused then Some ConnectionRefused
  else if t =? ResultTypeOk then None else Some ErrInvalidResultType.

(** The asking device up to the encrypted result: it has written the hello and
    wrapped the connection, and reads with a deadline. *)
Lemma handleResponse_prefix a rnd e target rq id m1 hr hr1 m2 hr2 (r1 r2 : option K) hello (c : pipe) :
  requesterHandshakeState a rnd rq e target = Ret (inl hr) →
  HS_ReadMessage [] m1 hr = (Ret ([], None, None, None), hr1) →
  HS_WriteMessage [] [] hr1 = (Ret (m2, r1, r2, None), hr2) →
  Marshal (mkHello m2) = inl hello → fits hello →
  let c1 := mkPipe (inbox c) (outbox c ++ wire hello) (Some IoTimeout) None (closed c) in
  handleResponse a rnd e target rq (mkLocalResponse id m1) c = run_body (
    '((data, err), nc) ← on_conn (Read MessageMaxSize MessageMaxSize)
                           (mkConn (client_Identity a) target c1 r2 r1);
    check (failed (Some nc)) err;;
    '(err, nc) ← on_conn (zoom conn_field (SetReadDeadline None)) nc;
    check (failed (Some nc)) err;;
    result ← unwrap (failed (Some nc)) (Unmarshal data (mkResult 0));
    if Type_ result =? ResultTypeRefused then return_ (Some nc, Some ConnectionRefused)
    else if negb (Type_ result =? ResultTypeOk) then return_ (Some nc, Some ErrInvalidResultType)
    else mret (Some nc, None)) c1.
Proof.
  intros Hst Hread Hw Hhello Hfh c1. unfold handleResponse, run_body.
  erewrite body_do by (unfold lift; by rewrite Hst). rewrite (body_unwrap _ (inl hr) hr) by done.
  erewrite body_do by (by apply call_eq). cbv beta iota. pass.
  erewrite body_do by (by apply call_eq). cbv beta iota. pass.
  erewrite body_unwrap by exact Hhello.
  erewrite body_do by reflexivity. pass.
  erewrite body_do by (by apply WriteTo_pipe). cbv beta iota. pass.
  erewrite body_do by reflexivity. pass.
  erewrite body_do by reflexivity. cbv zeta. reflexivity.
Qed.

Lemma handleResponse_run a rnd e target rq id m1 hr hr1 m2 hr2 (r1 r1' r2 : option K) hello t d ct l (c : pipe) :
  requesterHandshakeState a rnd rq e target = Ret (inl hr) →
  HS_ReadMessage [] m1 hr = (Ret ([], None, None, None), hr1) →
  HS_WriteMessage [] [] hr1 = (Ret (m2, r1, r2, None), hr2) →
  Marshal (mkHello m2) = inl hello → fits hello →
  Marshal (mkResult t) = inl d → sendable d → zlen ct = MessageSize (zlen d) →
  Decrypt [] (Length_Bytes (zlen ct)) ct r1 = (Ret (d, None), r1') → framed [ct] l →
  ∃ l', let c' := mkPipe (Segments l') (outbox c ++ wire hello) None None (closed c) in
    handleResponse a rnd e target rq (mkLocalResponse id m1) (set_inbox l c) =
      (Ret (Some (mkConn (client_Identity a) target c' r2 r1'), verdict t), c').
Proof.
  intros Hst Hread Hw Hhello Hfh Hd Hs Hct HD Hfr.
  set (c1 := mkPipe (inbox c) (outbox c ++ wire hello) (Some IoTimeout) None (closed c)).
  assert (zlen ct ≤ MessageMaxSize) as Hlen.
  { unfold sendable, PayloadMaxSize, MessageSize in *. lia. }
  rewrite MessageMaxSize_eq in Hlen.
  destruct (framed_pipe ct [] l c1 Hfr) as (l1 & l2 & HR1 & HR2 & _); [lia|].
  exists l2. cbv zeta.
  rewrite (handleResponse_prefix a rnd e target rq id m1 hr hr1 m2 hr2 r1 r2 hello) by done.
  unfold run_body, mbind at 1, body_bind at 1.
  erewrite on_conn_eq by (eapply (Read_steps _ _ _ _ _ _ _ _ ct d); [exact HR1|exact HR2|exact HD|done|done|
    unfold PayloadMaxSize, TagSize; lia|rewrite MessageMaxSize_eq; lia]).
  cbv beta iota. pass. unfold mbind at 1, body_bind at 1.
  erewrite on_conn_eq by (apply zoom_eq; reflexivity). cbv beta iota. pass.
  rewrite (body_unwrap _ _ (mkResult t)) by (by apply (unmarshal_marshal (same_type := λ _ _, True))).
  unfold verdict. cbn [Type_]. destruct (t =? ResultTypeRefused); [done|].
  by destruct (t =? ResultTypeOk).
Qed.

(** A side that has nothing to read has written its first message. *)
Lemma handleRequest_first b rnd rq hi m1 hi1 response (c : pipe) :
  u64_ok (Id rq) → responderHandshakeState b rnd rq = Ret (inl hi) →
  HS_WriteMessage [] [] hi = (Ret (m1, None, None, None), hi1) →
  Marshal (message.mkResponse (Id rq) m1) = inl response → fits response →
  inbox c = Segments [] →
  ∃ r c', handleRequest b rnd rq c = (Ret r, c') ∧ outbox c' = outbox c ++ wire response.
Proof.
  intros Hid Hst Hw Hresp Hfr Hin.
  rewrite (handleRequest_prefix b rnd rq hi m1 hi1 response) by done. rewrite Hin.
  eexists _, _. split; [by apply run_body_inr|done].
Qed.

Lemma handleResponse_first a rnd e target rq id m1 hr hr1 m2 hr2 (r1 r2 : option K) hello (c : pipe) :
  requesterHandshakeState a rnd rq e target = Ret (inl hr) →
  HS_ReadMessage [] m1 hr = (Ret ([], None, None, None), hr1) →
  HS_WriteMessage [] [] hr1 = (Ret (m2, r1, r2, None), hr2) →
  Marshal (mkHello m2) = inl hello → fits hello → inbox c = Segments [] →
  ∃ r c', handleResponse a rnd e target rq (mkLocalResponse id m1) c = (Ret r, c') ∧
    outbox c' = outbox c ++ wire hello.
Proof.
  intros Hst Hread Hw Hhello Hfh Hin.
  rewrite (handleResponse_prefix a rnd e target rq id m1 hr hr1 m2 hr2 r1 r2 hello) by done. rewrite Hin.
  eexists _, _. split; [by apply run_body_inr|done].
Qed.
End Run.

(** The header and the response that the asked device writes are what the
    asking device's [incomingUnicastHandler] reads. *)
Section Unicast.
Context `{LocalProtoLaws}.

Lemma writeHeader_ok :
  ∃ h, Marshal (mkHeader ConnectionTypeResponse) = inl h ∧ fits h ∧
    ∀ c : pipe, writeHeader c = (Ret None, sent (wire h) c).
Proof.
  destruct (marshal_bound (mkHeader ConnectionTypeResponse)) as (h & Hh & Hl); [done|done|].
  assert (fits h) as Hf by (unfold fits; rewrite MaxLength_eq; simpl in Hl; lia).
  exists h. split_and!; [done|done|]. intros c. unfold writeHeader. apply run_body_inl.
  erewrite body_unwrap by exact Hh. by erewrite body_do by (by apply WriteTo_pipe).
Qed.

Lemma handleUnicast_ok h resp id m1 rest (c : pipe) :
  Marshal (mkHeader ConnectionTypeResponse) = inl h → fits h →
  Marshal (message.mkResponse id m1) = inl resp → fits resp →
  incoming c (wire h ++ wire resp ++ rest) →
  ∃ l, handleUnicast c = (Ret (Some (mkLocalResponse id m1)), set_inbox l c) ∧ incoming (set_inbox l c) rest.
Proof.
  intros Hh Hfh Hr Hfr Hin.
  destruct (DecodeFrom_incoming c h _ Hin Hfh) as (l1 & E1 & Hin1).
  destruct (DecodeFrom_incoming _ resp rest Hin1 Hfr) as (l2 & E2 & Hin2).
  exists l2. split; [|done]. unfold handleUnicast. apply run_body_inl.
  erewrite body_do by exact E1. cbv beta iota. cbn [negb is_nil default].
  rewrite (unmarshal_marshal (same_type := λ _ _, True) _ _ _ Hh I).
  erewrite body_do by exact E2. cbv beta iota. cbn [negb is_nil default].
  simpl. by rewrite (unmarshal_marshal (same_type := λ _ _, True) _ _ _ Hr I).
Qed.
End Unicast.

(** ** Properties *)

Section Properties.
Context {CS HS K : Type} `{HandshakeLaws CS HS K} `{!Ed25519} `{LocalProtoLaws}.
Implicit Types (a b : client CS) (na nb : noiseConn pipe (option K)).

(** Two wrapped connections that can exchange [n] messages in each direction. *)
Definition agree (n : nat) na nb : Prop :=
  in_sync n (writeCipher na) (readCipher nb) ∧ in_sync n (writeCipher nb) (readCipher na).

(** The messages [header], [resp], [hello] and [ct] are those of a run: [b]
    writes [header] when it has dialed and [resp] before it reads anything, and
    [ct] after it has read [hello]; [a] gets the response out of [header] and
    [resp] and then sends [hello]; and both sides come to connections [na],
    [nb] with [P na nb]. *)
Definition handshake_run a b rnd_a rnd_b (e : DHKey) (rq : Request) (err : option error)
    (P : noiseConn pipe (option K) → noiseConn pipe (option K) → Prop) : Prop :=
  ∃ header resp hello ct m1,
    (∀ cb, writeHeader cb = (Ret None, sent (wire header) cb)) ∧
    (∀ ca rest, incoming ca (wire header ++ wire resp ++ rest) → ∃ l,
       handleUnicast ca = (Ret (Some (mkLocalResponse (Id rq) m1)), set_inbox l ca) ∧
       incoming (set_inbox l ca) rest) ∧
    (∀ cb, inbox cb = Segments [] → ∃ r cb',
       handleRequest b rnd_b rq cb = (Ret r, cb') ∧ outbox cb' = outbox cb ++ wire resp) ∧
    (∀ ca, inbox ca = Segments [] → ∃ r ca',
       handleResponse a rnd_a e (client_Identity b) rq (mkLocalResponse (Id rq) m1) ca = (Ret r, ca') ∧
       outbox ca' = outbox ca ++ wire hello) ∧
    ∀ ca cb l, incoming cb (wire hello) → framed [ct] l → ∃ na nb,
      handleRequest b rnd_b rq cb = (Ret (Some nb, None), Conn nb) ∧
      outbox (Conn nb) = outbox cb ++ wire resp ++ wire ct ∧
      handleResponse a rnd_a e (client_Identity b) rq (mkLocalResponse (Id rq) m1) (set_inbox l ca) =
        (Ret (Some na, err), Conn na) ∧
      outbox (Conn na) = outbox ca ++ wire hello ∧ P na nb.

Lemma handshake_fits a b ka kb e rnd_a rnd_b id n :
  peers a b ka kb e → u64_ok id → Z.of_nat n < max_messages →
  handshake_run a b rnd_a rnd_b e (mkLocalRequest id (dh_Public e))
    (verdict (result_for b (dh_Public ka)))
    (λ na nb, agree n na nb ∧
      LocalIdentity na = client_Identity a ∧ RemoteIdentity na = client_Identity b ∧
      LocalIdentity nb = client_Identity b ∧ RemoteIdentity nb = dh_Public ka ∧
      readDeadline (Conn na) = None ∧ writeDeadline (Conn na) = None ∧
      readDeadline (Conn nb) = Some IoTimeout ∧ writeDeadline (Conn nb) = None).
Proof.
  intros Hp Hid Hn.
  destruct (handshake_states a b ka kb e rnd_a rnd_b id Hp)
    as (hi & hr & m1 & hi1 & hr1 & m2 & hr2 & hi2 & i1 & i2 & r1 & r2 & Hsi & Hsr & Hw1 & Hr1 & Hw2 & Hr2
        & Hm1 & Hm2 & Hpeer & Hsync).
  destruct (response_ok id m1 Hid Hm1) as (resp & Hresp & Hfr).
  destruct (hello_ok m2 Hm2) as (hello & Hhello & Hfh).
  destruct (result_ok (result_for b (dh_Public ka))) as (d & Hd & Hs).
  { unfold result_for. by destruct (IsX25519Trusted _ _). }
  destruct (Hsync (S n)) as [Hs1 _]; [lia|]. destruct (Hsync n) as [_ Hs2]; [lia|].
  set (lb := Length_Bytes (MessageSize (zlen d))).
  destruct (encrypt_decrypt n (Some i1) (Some r1) lb lb d) as (ct & i1' & r1' & HE & Hct & HD & Hs1');
    [simpl; eauto 6|].
  assert (zlen ct = MessageSize (zlen d)) as Hsz by done. unfold lb in *. rewrite <- Hsz in *.
  destruct writeHeader_ok as (h & Hh & Hfith & HwH).
  exists h, resp, hello, ct, m1. split_and!.
  - done.
  - intros ca rest. by apply handleUnicast_ok.
  - intros cb Hcb. by eapply handleRequest_first.
  - intros ca Hca. by eapply handleResponse_first.
  - intros ca cb l Hcb Hl.
    destruct (handleRequest_run b rnd_b (mkLocalRequest id (dh_Public e)) hi m1 hi1 m2 hi2 (Some i1) i1'
      (Some i2) (dh_Public ka) resp hello d ct cb) as [lb' HB]; try done.
    destruct (handleResponse_run a rnd_a e (client_Identity b) (mkLocalRequest id (dh_Public e)) id m1
      hr hr1 m2 hr2 (Some r1) r1' (Some r2) hello (result_for b (dh_Public ka)) d ct l ca) as [la' HA]; try done.
    eexists _, _. split; [exact HB|]. split; [done|]. split; [exact HA|].
    split_and!; [done| |done|done|done|done|done|done|done|done]. split; simpl; eauto 6.
Qed.

Lemma handshake_run_mono a b rnd_a rnd_b e rq err (P Q : noiseConn pipe (option K) → noiseConn pipe (option K) → Prop) :
  (∀ na nb, P na nb → Q na nb) →
  handshake_run a b rnd_a rnd_b e rq err P → handshake_run a b rnd_a rnd_b e rq err Q.
Proof.
  intros HPQ (header & resp & hello & ct & m1 & H1' & H2' & H3' & H4' & Hrun). exists header, resp, hello, ct, m1. split_and!; try done.
  intros ca cb l Hcb Hl. destruct (Hrun ca cb l Hcb Hl) as (na & nb & ? & ? & ? & ? & HP).
  exists na, nb. split_and!; try done; by apply HPQ.
Qed.
End Properties.

(** C9: a local handshake between two devices that trust each other's keys
    succeeds: the header and the response, the hello and the encrypted result
    that they exchange are accepted, each is sent before the next one is waited
    for, and
    both sides end with a connection whose cipher states fit together, for as
    many messages as the cipher allows; each side knows its own identity, the
    asking side has the identity it asked for and the other side the public
    key of the one that asked.  However the bytes are segmented, as long as the
    length of the encrypted result arrives in one piece. *)
Theorem local_handshake {CS HS K} `{HandshakeLaws CS HS K} `{!Ed25519} `{LocalProtoLaws}
    (a b : client CS) (ka kb e : DHKey) (rnd_a rnd_b : bytes) (id : Z) (n : nat) :
  peers a b ka kb e → u64_ok id → Z.of_nat n < max_messages →
  IsX25519Trusted (trustStore b) (dh_Public ka) = true →
  handshake_run a b rnd_a rnd_b e (mkLocalRequest id (dh_Public e)) None
    (λ na nb, agree n na nb ∧
      LocalIdentity na = client_Identity a ∧ RemoteIdentity na = client_Identity b ∧
      LocalIdentity nb = client_Identity b ∧ RemoteIdentity nb = dh_Public ka).
Proof.
  intros Hp Hid Hn Ht. pose proof (handshake_fits a b ka kb e rnd_a rnd_b id n Hp Hid Hn) as Hrun.
  unfold result_for in Hrun. rewrite Ht in Hrun. eapply handshake_run_mono; [|exact Hrun].
  intros na nb (? & ? & ? & ? & ? & _). done.
Qed.

(** C38: a device that does not trust the peer refuses it towards the peer but
    not towards its own caller: [handleRequest] sends the result "refused",
    on which the asking device reports [ConnectionRefused], and returns the
    connection to the untrusted peer without an error, as it returns an
    accepted one. *)
Theorem local_untrusted_returned {CS HS K} `{HandshakeLaws CS HS K} `{!Ed25519} `{LocalProtoLaws}
    (a b : client CS) (ka kb e : DHKey) (rnd_a rnd_b : bytes) (id : Z) (n : nat) :
  peers a b ka kb e → u64_ok id → Z.of_nat n < max_messages →
  IsX25519Trusted (trustStore b) (dh_Public ka) = false →
  handshake_run a b rnd_a rnd_b e (mkLocalRequest id (dh_Public e)) (Some ConnectionRefused)
    (λ na nb, agree n na nb ∧ RemoteIdentity nb = dh_Public ka).
Proof.
  intros Hp Hid Hn Ht. pose proof (handshake_fits a b ka kb e rnd_a rnd_b id n Hp Hid Hn) as Hrun.
  unfold result_for in Hrun. rewrite Ht in Hrun. eapply handshake_run_mono; [|exact Hrun].
  intros na nb (? & ? & ? & ? & ? & _). done.
Qed.

(** After the handshake the asking device has removed its deadlines, but
    the connection that the other device got still has the read deadline that
    was set for the hello: every read after [IoTimeout] fails. *)
Theorem local_accept_read_deadline {CS HS K} `{HandshakeLaws CS HS K} `{!Ed25519} `{LocalProtoLaws}
    (a b : client CS) (ka kb e : DHKey) (rnd_a rnd_b : bytes) (id : Z) :
  peers a b ka kb e → u64_ok id →
  handshake_run a b rnd_a rnd_b e (mkLocalRequest id (dh_Public e)) (verdict (result_for b (dh_Public ka)))
    (λ na nb, readDeadline (Conn na) = None ∧ writeDeadline (Conn na) = None ∧
      writeDeadline (Conn nb) = None ∧ readDeadline (Conn nb) = Some (10 * Second)).
Proof.
  intros Hp Hid. eapply handshake_run_mono; [|apply (handshake_fits a b ka kb e rnd_a rnd_b id 0 Hp Hid); done].
  intros na nb (? & ? & ? & ? & ? & ? & ? & ? & ?). done.
Qed.

(** [Connect] to an identity whose key cannot be converted: the handshake panics
    on every response, in the goroutine that [Connect] has started, so the process
    ends.  When the keys can be converted, the handshakes of both sides start. *)
Theorem local_handshake_panics {CS HS K C} `{!Ed25519} `{!NoiseHandshake CS HS K} `{!CipherState K}
    `{!net_Conn C} `{!LocalProto}
    (c : client CS) (rnd : bytes) (e k : DHKey) (target : bytes) (request : Request) (response : Response) (conn : C) :
  Noise (keyPair c) = Ret k →
  ((EdPublicKeyToX25519 target).2 = false →
     handleResponse c rnd e target request response conn =
       (Panic (PanicString "failed to convert ed25519 public key to X25519 key"), conn)) ∧
  ((EdPublicKeyToX25519 target).2 = true → ∃ r, requesterHandshakeState (HS := HS) c rnd request e target = Ret r) ∧
  (∃ r, responderHandshakeState (HS := HS) c rnd request = Ret r).
Proof.
  intros Hk. unfold handleResponse, requesterHandshakeState, responderHandshakeState, Identity_X25519.
  rewrite RequestId_Bytes_ok. simpl. rewrite Hk. destruct (EdPublicKeyToX25519 target) as [key ok]. simpl.
  split_and!; [by intros ->|intros ->; by eexists|by eexists].
Qed.

(** *** Witnesses *)

Definition demo_ed25519 : Ed25519 := {|
  GenerateKey R _ r := (Ret (demo_key [], demo_key [], None), r);
  EdPrivateKeyToX25519 k := k;
  EdPublicKeyToX25519 k := (k, true)
|}.

Definition demo_client (x : byte) (trust : bool) : client unit :=
  mkClient 23520 (mkKeyPair (demo_key [x]) (demo_key [x])) (demo_key [x])
    (mkTrustStore (λ _, trust) (λ _, trust)) ().

Definition demo_dh (x : byte) : DHKey := mkDHKey (demo_key [x]) (demo_key [x]).

Lemma demo_peers trust :
  @peers unit demo_HS Z _ _ _ _ demo_ed25519 (demo_client Byte.x0a true) (demo_client Byte.x0b trust)
    (demo_dh Byte.x0a) (demo_dh Byte.x0b) (demo_dh Byte.x0e).
Proof. split_and!; first [reflexivity | apply zlen_demo_key]. Qed.

Lemma local_handshake_witness :
  @handshake_run unit demo_HS Z _ _ demo_ed25519 wire_local
    (demo_client Byte.x0a true) (demo_client Byte.x0b true) [] [] (demo_dh Byte.x0e)
    (mkLocalRequest 7 (demo_key [Byte.x0e])) None
    (λ na nb, agree 5 na nb ∧ LocalIdentity na = demo_key [Byte.x0a] ∧ RemoteIdentity na = demo_key [Byte.x0b] ∧
       LocalIdentity nb = demo_key [Byte.x0b] ∧ RemoteIdentity nb = demo_key [Byte.x0a]).
Proof.
  apply (@local_handshake unit demo_HS Z _ _ _ _ demo_ed25519 wire_local wire_local_laws
    (demo_client Byte.x0a true) (demo_client Byte.x0b true) (demo_dh Byte.x0a) (demo_dh Byte.x0b)
    (demo_dh Byte.x0e) [] [] 7 5).
  - apply demo_peers.
  - split; [discriminate|reflexivity].
  - reflexivity.
  - reflexivity.
Defined.

Lemma local_untrusted_returned_witness :
  @handshake_run unit demo_HS Z _ _ demo_ed25519 wire_local
    (demo_client Byte.x0a true) (demo_client Byte.x0b false) [] [] (demo_dh Byte.x0e)
    (mkLocalRequest 7 (demo_key [Byte.x0e])) (Some ConnectionRefused)
    (λ na nb, agree 5 na nb ∧ RemoteIdentity nb = demo_key [Byte.x0a]).
Proof.
  apply (@local_untrusted_returned unit demo_HS Z _ _ _ _ demo_ed25519 wire_local wire_local_laws
    (demo_client Byte.x0a true) (demo_client Byte.x0b false) (demo_dh Byte.x0a) (demo_dh Byte.x0b)
    (demo_dh Byte.x0e) [] [] 7 5).
  - apply demo_peers.
  - split; [discriminate|reflexivity].
  - reflexivity.
  - reflexivity.
Defined.

Lemma local_accept_read_deadline_witness :
  @handshake_run unit demo_HS Z _ _ demo_ed25519 wire_local
    (demo_client Byte.x0a true) (demo_client Byte.x0b true) [] [] (demo_dh Byte.x0e)
    (mkLocalRequest 7 (demo_key [Byte.x0e])) None
    (λ na nb, readDeadline (Conn na) = None ∧ writeDeadline (Conn na) = None ∧
      writeDeadline (Conn nb) = None ∧ readDeadline (Conn nb) = Some (10 * Second)).
Proof.
  apply (@local_accept_read_deadline unit demo_HS Z _ _ _ _ demo_ed25519 wire_local wire_local_laws
    (demo_client Byte.x0a true) (demo_client Byte.x0b true) (demo_dh Byte.x0a) (demo_dh Byte.x0b)
    (demo_dh Byte.x0e) [] [] 7).
  - apply demo_peers.
  - split; [discriminate|reflexivity].
Defined.
