(* ===== verification/RelayConn.v ===== *)
(** * RelayConn: connections over a relay ([lib/relay/client.go], [lib/relay/server.go])

    [Client.Request] and [Client.Accept]: two devices make a Noise handshake
    through the additional data of the relay's messages, dial the session and
    wrap the connection.  The client protocol that they call is an interface
    ([RelayAPI]); [RelayClient] models it.  [Server] opens the listeners and
    takes the identity of a client from its TLS certificate. *)

From S2P Require Import Prelude GoSem Packet Secure Channel Device Handshake Relay RelayClient LocalMessage Local.

Local Open Scope Z_scope.

Definition ErrUnexpectedPeer : error := ErrText "unexpected peer identity".

(** The methods of [ClientProtocol], and [net.Dial] to a port of the relay's
    host, as seen by their caller; the values that come with an error are the
    zero values. *)
Class RelayAPI (P C : Type) : Type := {
  api_Request : Identity → bytes → M P (SessionInfo * option error);
  api_ReadAccept : Identity → M P (bytes * option error);
  api_ReadInvitation : M P (SessionInfo * bytes * option error);
  api_Accept : Identity → bytes → M P (option error);
  api_Dial : string → Z → M P (C + error)
}.

(** [relay.Client]; the cipher suite is that of package [base]. *)
Record Client : Type := mkRelayClient { host : string; key : KeyPair }.

(** [Dial]: the errors are the answers of [key.Certificate], [tls.Dial] and
    [protocol.Start]; the connection stays open when the protocol cannot be
    started. *)
Definition Dial (key : KeyPair) (host : string) (certificate dial start : option error)
  : option Client * option error :=
  match certificate, dial, start with
  | Some e, _, _ | None, Some e, _ | None, None, Some e => (None, Some e)
  | None, None, None => (Some (mkRelayClient host key), None)
  end.

Section Client.
Context {CS HS K P C : Type} `{!Ed25519} `{!NoiseHandshake CS HS K} `{!CipherState K}.
Context `{!io_Reader C} `{!io_Writer C} `{!RelayAPI P C}.
Context `{!ProtoMessage AuthenticateSession} `{!ProtoMessage SessionResponse}.
Context (HandshakeKK : HandshakePattern) (base_CipherSuite : CS).
Implicit Types c : Client.

Abbreviation relay_Conn := (noiseConn C (option K)).

Definition relay_failed (e : error) : option relay_Conn * option error := (None, Some e).

(** [info.Description.Port], [info.Description.Key]: a missing description is a
    nil pointer. *)
Definition description (info : SessionInfo) : outcome SessionDescription :=
  match Description info with Some d => Ret d | None => Panic PanicNil end.

(** Dial the session, authenticate and wrap the connection. *)
Definition join c (info : SessionInfo) (w r : option K)
  : body P (option relay_Conn * option error) (option relay_Conn * option error) :=
  d ← do_ (lift (description info));
  sessConn ← do_ (api_Dial (host c) (Port d));
  sessConn ← unwrap relay_failed sessConn;
  '(err, clientConn) ← do_ (GoSem.call (Authenticate (Key_ d)) sessConn);
  check relay_failed err;;
  mret (Some (WrapConn (Public (key c)) (PeerIdentity info) clientConn w r), None).

Definition Request c (rnd : bytes) (targetIdentity : Identity)
  : M P (option relay_Conn * option error) := run_body (
  static ← do_ (lift (Noise (key c)));
  peer ← do_ (lift (Identity_X25519 targetIdentity));
  hs ← unwrap relay_failed
         (NewHandshakeState (mkConfig base_CipherSuite rnd HandshakeKK true [] static no_key peer []));
  '((message, _, _, err), hs) ← do_ (GoSem.call (HS_WriteMessage [] []) hs);
  check relay_failed err;;
  '(info, err) ← do_ (api_Request targetIdentity message);
  check relay_failed err;;
  if negb (bool_decide (targetIdentity = PeerIdentity info)) then return_ (relay_failed ErrUnexpectedPeer)
  else
    (* the error of ReadAccept is not looked at *)
    '(ad, _) ← do_ (api_ReadAccept targetIdentity);
    '((_, c1, c2, err), hs) ← do_ (GoSem.call (HS_ReadMessage [] ad) hs);
    check relay_failed err;;
    join c info c1 c2).

(** One turn of the loop of [Accept]; [None] goes on with the next turn. *)
Definition Accept_turn c (rnd : bytes) (trust : TrustStore)
  : body P (option relay_Conn * option error) (option (option relay_Conn * option error)) :=
  '((info, ad), err) ← do_ api_ReadInvitation;
  check relay_failed err;;
  if negb (IsTrusted trust (PeerIdentity info)) then mret None
  else
    static ← do_ (lift (Noise (key c)));
    peer ← do_ (lift (Identity_X25519 (PeerIdentity info)));
    hs ← unwrap relay_failed
           (NewHandshakeState (mkConfig base_CipherSuite rnd HandshakeKK false [] static no_key peer []));
    '((_, _, _, err), hs) ← do_ (GoSem.call (HS_ReadMessage [] ad) hs);
    check relay_failed err;;
    '((message, c1, c2, err), hs) ← do_ (GoSem.call (HS_WriteMessage [] []) hs);
    check relay_failed err;;
    err ← do_ (api_Accept (PeerIdentity info) message);
    check relay_failed err;;
    r ← join c info c2 c1;
    mret (Some r).

(** The loop reads invitations until one is accepted or an error occurs; each
    turn has its own randomness. *)
Fixpoint Accept_loop c (rnds : list bytes) (trust : TrustStore)
  : body P (option relay_Conn * option error) (option relay_Conn * option error) :=
  match rnds with
  | [] => do_ (lift Hang)
  | rnd :: rnds =>
      r ← Accept_turn c rnd trust;
      match r with Some r => mret r | None => Accept_loop c rnds trust end
  end.

Definition Accept c (rnds : list bytes) (trust : TrustStore) : M P (option relay_Conn * option error) :=
  run_body (Accept_loop c rnds trust).
End Client.

(** ** [server.go] *)

(** [NewServer] *)
Definition NewServer (port sessionPort : Z) : outcome (Z * Z) :=
  if port =? sessionPort then Panic (PanicString "server and session port must be different")
  else Ret (port, sessionPort).

(** The answers of [protocol.Start], [tls.Listen] and [net.Listen]; the field
    [s.listener] is still nil when the second listener fails. *)
Definition Server_Listen (start listen sessionListen : option error) : outcome (option error) :=
  match start with
  | Some e => Ret (Some e)
  | None =>
      match listen with
      | Some e => Ret (Some e)
      | None =>
          match sessionListen with
          | Some e => Panic PanicNil
          | None => Ret None
          end
      end
  end.

(** [handler] and [sessionHandler]: the connections that they pass on, out of
    what [Accept] of the listener answers; they return at the first error. *)
Fixpoint accepted_conns {A} (accepts : list (A + error)) : list A :=
  match accepts with
  | inl conn :: accepts => conn :: accepted_conns accepts
  | _ => []
  end.

(** [Server.Close]: a listener is [None] when its field is nil, else the answer
    of its [Close]. *)
Definition Server_Close (listener sessionListener : option (option error)) : outcome (option error) :=
  match listener with
  | None => Panic PanicNil
  | Some (Some e) => Ret (Some e)
  | Some None => match sessionListener with None => Panic PanicNil | Some err => Ret err end
  end.

(** The public key of a certificate: an Ed25519 key or another kind. *)
Inductive certificate : Type :=
| CertEd25519 (publicKey : bytes)
| CertOther.

(** [handleConn]: the identity with which [AddClient] is called, or the error
    after which the connection is closed. *)
Definition handleConn (handshake : option error) (peerCertificates : list certificate) : Identity + error :=
  match handshake with
  | Some e => inr e
  | None =>
      match peerCertificates with
      | [CertEd25519 publicKey] => inl publicKey
      | [CertOther] => inr (ErrText "not an Ed25519 public key")
      | _ => inr (ErrText "expected exactly one client certificate")
      end
  end.

(** ** Whom a connection is with *)

Section Peer.
Context {CS HS K P C : Type} `{!Ed25519} `{!NoiseHandshake CS HS K} `{!CipherState K}.
Context `{!io_Reader C} `{!io_Writer C} `{!RelayAPI P C}.
Context `{!ProtoMessage AuthenticateSession} `{!ProtoMessage SessionResponse}.
Context (HandshakeKK : HandshakePattern) (base_CipherSuite : CS).

(** A returned connection satisfies [Q]. *)
Definition if_connected (Q : noiseConn C (option K) → Prop) (r : option (noiseConn C (option K)) * option error)
  : Prop := match r with (Some nc, None) => Q nc | _ => True end.

(** One step of a body: nothing is known of the value it goes on with. *)
Ltac bind_any := eapply post_bind; [first [apply post_do | apply post_check; by intros | apply post_unwrap; by intros]
  |intros ? _; repeat match goal with |- post (match ?x with pair _ _ => _ end) _ _ => destruct x end].

Lemma join_post c info w r Q :
  (∀ conn, Q (WrapConn (Public (key c)) (PeerIdentity info) conn w r)) →
  post (join (C := C) (P := P) c info w r) (if_connected Q) (if_connected Q).
Proof. intros HQ. unfold join. do 5 bind_any. apply post_ret. simpl. apply HQ. Qed.

Lemma Request_post c rnd target s r s' :
  Request (K := K) HandshakeKK base_CipherSuite c rnd target s = (Ret r, s') →
  if_connected (λ nc, LocalIdentity nc = Public (key c) ∧ RemoteIdentity nc = target) r.
Proof.
  apply post_run. do 7 bind_any. case_bool_decide as E; simpl; [|by apply post_return].
  do 3 bind_any. apply join_post. intros conn. by rewrite E.
Qed.

Lemma Accept_post c rnds trust s r s' :
  Accept (K := K) HandshakeKK base_CipherSuite c rnds trust s = (Ret r, s') →
  if_connected (λ nc, LocalIdentity nc = Public (key c) ∧ IsTrusted trust (RemoteIdentity nc) = true) r.
Proof.
  set (Q := λ nc, _ ∧ _). apply post_run. induction rnds as [|rnd rnds IH]; simpl; [by intros ?|].
  apply (post_bind _ _ _ (λ o, if o is Some x then if_connected Q x else True)).
  - unfold Accept_turn. do 2 bind_any. destruct (IsTrusted trust _) eqn:E; simpl; [|by apply post_ret].
    do 9 bind_any. eapply post_bind; [apply (join_post _ _ _ _ Q)|].
    + intros conn. by split.
    + intros x Hx. by apply post_ret.
  - intros [x|] Hx; [by apply post_ret|done].
Qed.
End Peer.

(** ** The two sides of a handshake over the relay *)

(** What the Noise specification says of the pattern KK: both static keys are
    known beforehand, and there are two messages. *)
Definition is_KK (p : HandshakePattern) : Prop :=
  InitiatorPreMessages p = [MessagePatternS] ∧ ResponderPreMessages p = [MessagePatternS] ∧
  length (Messages p) = 2%nat ∧ valid_pattern p = true.

Section Agreement.
Context {CS HS K PA PB C : Type} `{HandshakeLaws CS HS K} `{!Ed25519}.
Context `{!io_Reader C} `{!io_Writer C} `{!RelayAPI PA C} `{!RelayAPI PB C}.
Context `{!ProtoMessage AuthenticateSession} `{!ProtoMessage SessionResponse}.
Context (HandshakeKK : HandshakePattern) (suite : CS).

(** Joining a session: the answers of the relay and of the session's server. *)
Definition joins {P} `{!RelayAPI P C} (c : Client) (info : SessionInfo) (p p' : P) (conn : C) : Prop :=
  ∃ d conn0, Description info = Some d ∧ api_Dial (host c) (Port d) p = (Ret (inl conn0), p') ∧
    Authenticate (Key_ d) conn0 = (Ret None, conn).

Lemma join_run {P} `{!RelayAPI P C} c info w r (p p' : P) conn :
  joins c info p p' conn →
  join (K := K) c info w r p =
    (Ret (inl (Some (WrapConn (Public (key c)) (PeerIdentity info) conn w r), None)), p').
Proof.
  intros (d & conn0 & Hd & Hdial & Hauth). unfold join.
  erewrite body_do by (unfold lift, description; by rewrite Hd).
  erewrite body_do by exact Hdial. rewrite (body_unwrap _ _ conn0) by done.
  erewrite body_do by (by apply call_eq). done.
Qed.

(** The messages [m1] and [m2] are those of a handshake between [a], who asks,
    and [b], who accepts: [a] hands [m1] to the relay and takes [m2] from it,
    [b] the other way round; then both have connections to each other for which
    [P] holds. *)
Definition relay_handshake_run (a b : Client) (rnd_a rnd_b : bytes) (trust : TrustStore)
    (P : noiseConn C (option K) → noiseConn C (option K) → Prop) : Prop :=
  ∃ m1 m2 (wa ra wb rb : option K),
    (∀ ca cb, P (WrapConn (Public (key a)) (Public (key b)) ca wa ra)
                (WrapConn (Public (key b)) (Public (key a)) cb wb rb)) ∧
    (∀ (p p1 p2 p3 : PA) info conn,
       api_Request (Public (key b)) m1 p = (Ret (info, None), p1) → PeerIdentity info = Public (key b) →
       api_ReadAccept (Public (key b)) p1 = (Ret (m2, None), p2) → joins a info p2 p3 conn →
       Request HandshakeKK suite a rnd_a (Public (key b)) p =
         (Ret (Some (WrapConn (Public (key a)) (Public (key b)) conn wa ra), None), p3)) ∧
    (∀ (p p1 p2 p3 : PB) info conn rnds,
       api_ReadInvitation p = (Ret (info, m1, None), p1) → PeerIdentity info = Public (key a) →
       api_Accept (Public (key a)) m2 p1 = (Ret None, p2) → joins b info p2 p3 conn →
       Accept HandshakeKK suite b (rnd_b :: rnds) trust p =
         (Ret (Some (WrapConn (Public (key b)) (Public (key a)) conn wb rb), None), p3)).

(** The cipher states of two connections fit together, for [n] messages in each
    direction. *)
Definition conns_agree (n : nat) (na nb : noiseConn C (option K)) : Prop :=
  in_sync n (writeCipher na) (readCipher nb) ∧ in_sync n (writeCipher nb) (readCipher na).

Lemma relay_handshake_ok (a b : Client) ka kb rnd_a rnd_b trust n (P : noiseConn C (option K) → noiseConn C (option K) → Prop) :
  is_KK HandshakeKK → Noise (key a) = Ret ka → Noise (key b) = Ret kb →
  key_pair suite ka → key_pair suite kb → IsTrusted trust (Public (key a)) = true →
  Z.of_nat n ≤ max_messages → (∀ na nb, conns_agree n na nb → P na nb) →
  relay_handshake_run a b rnd_a rnd_b trust P.
Proof.
  intros (HpI & HpR & Hlen & Hvalid) Ha Hb Hka Hkb Ht Hn HP.
  destruct (two_message_run
    (mkConfig suite rnd_a HandshakeKK true [] ka no_key (dh_Public kb) [])
    (mkConfig suite rnd_b HandshakeKK false [] kb no_key (dh_Public ka) []))
    as (hi & hr & m1 & hi1 & hr1 & m2 & hr2 & hi2 & i1 & i2 & r1 & r2 & Hi & Hr & Hw1 & Hr1 & Hw2 & Hr2
        & _ & _ & _ & Hsync); simpl; try done.
  { rewrite HpR. by intros Hin%list_elem_of_singleton. }
  destruct (Hsync n Hn) as [Hs1 Hs2].
  exists m1, m2, (Some i1), (Some i2), (Some r2), (Some r1). split_and!.
  - intros ca cb. apply HP. split; simpl; eauto 6.
  - intros p p1 p2 p3 info conn HReq Hpeer HRead Hjoin. unfold Request. apply run_body_inl.
    erewrite body_do by (unfold lift; by rewrite Ha).
    erewrite body_do by (unfold lift; by rewrite (Noise_X25519 _ _ Hb)).
    rewrite (body_unwrap _ _ hi) by done.
    erewrite body_do by (by apply call_eq). cbv beta iota. rewrite body_check.
    erewrite body_do by exact HReq. cbv beta iota. rewrite body_check.
    rewrite bool_decide_eq_true_2 by done. cbn [negb].
    erewrite body_do by exact HRead. cbv beta iota.
    erewrite body_do by (by apply call_eq). cbv beta iota. rewrite body_check.
    erewrite join_run by exact Hjoin. by rewrite Hpeer.
  - intros p p1 p2 p3 info conn rnds HInv Hpeer HAcc Hjoin. unfold Accept. apply run_body_inl.
    cbn [Accept_loop]. unfold mbind at 1, body_bind at 1. unfold Accept_turn.
    erewrite body_do by exact HInv. cbv beta iota. rewrite body_check.
    rewrite Hpeer, Ht. cbn [negb].
    erewrite body_do by (unfold lift; by rewrite Hb).
    erewrite body_do by (unfold lift; by rewrite (Noise_X25519 _ _ Ha)).
    rewrite (body_unwrap _ _ hr) by done.
    erewrite body_do by (by apply call_eq). cbv beta iota. rewrite body_check.
    erewrite body_do by (by apply call_eq). cbv beta iota. rewrite body_check.
    erewrite body_do by exact HAcc. rewrite body_check.
    unfold mbind, body_bind. erewrite join_run by exact Hjoin. simpl. by rewrite Hpeer.
Qed.
End Agreement.

(** ** Properties *)

(** Two devices connect over the relay: when the relay passes the
    additional data of the request and of the acceptance on, and both join the
    session, both get a connection to each other whose cipher states fit
    together, for as many messages as the cipher allows. *)
Theorem relay_handshake {CS HS K PA PB C} `{HandshakeLaws CS HS K} `{!Ed25519} `{!io_Reader C} `{!io_Writer C}
    `{!RelayAPI PA C} `{!RelayAPI PB C} `{!ProtoMessage AuthenticateSession} `{!ProtoMessage SessionResponse}
    (HandshakeKK : HandshakePattern) (suite : CS) (a b : Client) (ka kb : DHKey) (rnd_a rnd_b : bytes)
    (trust : TrustStore) (n : nat) :
  is_KK HandshakeKK → Noise (key a) = Ret ka → Noise (key b) = Ret kb →
  key_pair suite ka → key_pair suite kb → IsTrusted trust (Public (key a)) = true →
  Z.of_nat n ≤ max_messages →
  relay_handshake_run (PA := PA) (PB := PB) (C := C) HandshakeKK suite a b rnd_a rnd_b trust (conns_agree n).
Proof. intros. by eapply relay_handshake_ok. Qed.

(** The pattern KK of the Noise specification. *)
Definition demo_KK : HandshakePattern :=
  mkPattern "KK" [MessagePatternS] [MessagePatternS]
    [[MessagePatternE; MessagePatternDHES; MessagePatternDHSS];
     [MessagePatternE; MessagePatternDHEE; MessagePatternDHSE]].

Definition demo_ed : Ed25519 := {|
  GenerateKey R _ r := (Ret (demo_key [], demo_key [], None), r);
  EdPrivateKeyToX25519 k := k;
  EdPublicKeyToX25519 k := (k, true)
|}.

Definition demo_device (x : byte) : Client := mkRelayClient "relay" (mkKeyPair (demo_key [x]) (demo_key [x])).

(** A relay that answers every call. *)
Definition demo_api : RelayAPI unit bytes := {|
  api_Request target ad s := (Ret (mkInfo (Some (mkDescription [] 1)) target, None), s);
  api_ReadAccept target s := (Ret ([], None), s);
  api_ReadInvitation s := (Ret (mkInfo (Some (mkDescription [] 1)) (demo_key [Byte.x0a]), [], None), s);
  api_Accept initiator ad s := (Ret None, s);
  api_Dial host port s := (Ret (inl []), s)
|}.

Definition demo_session_conn : io_Reader bytes := λ n w, (Ret (replicate (Z.to_nat n) Byte.x00, None), w).
Definition demo_auth : ProtoMessage AuthenticateSession :=
  {| Marshal m := inl (auth_Key m); Unmarshal b m0 := inl (mkAuthenticate b) |}.
Definition demo_response : ProtoMessage SessionResponse :=
  {| Marshal m := inl []; Unmarshal b m0 := inl (mkResponse SessionStateConnected) |}.

Lemma relay_handshake_witness :
  @relay_handshake_run unit demo_HS Z unit unit bytes _ demo_ed demo_session_conn _ demo_api demo_api
    demo_auth demo_response demo_KK () (demo_device Byte.x0a) (demo_device Byte.x0b) [] []
    (mkTrustStore (λ _, true) (λ _, true)) (conns_agree 5).
Proof.
  apply (@relay_handshake unit demo_HS Z unit unit bytes _ _ _ _ demo_ed demo_session_conn _ demo_api demo_api
    demo_auth demo_response demo_KK () (demo_device Byte.x0a) (demo_device Byte.x0b)
    (mkDHKey (demo_key [Byte.x0a]) (demo_key [Byte.x0a])) (mkDHKey (demo_key [Byte.x0b]) (demo_key [Byte.x0b]))).
  - repeat split.
  - reflexivity.
  - reflexivity.
  - apply zlen_demo_key.
  - apply zlen_demo_key.
  - reflexivity.
  - discriminate.
Defined.

(** Whoever the relay is and whatever it answers, a connection that
    [Request] returns is labelled with the identity that was asked for, and one
    that [Accept] returns with an identity that is trusted. *)
Theorem relay_connection_peer {CS HS K P C} `{!Ed25519} `{!NoiseHandshake CS HS K} `{!CipherState K}
    `{!io_Reader C} `{!io_Writer C} `{!RelayAPI P C} `{!ProtoMessage AuthenticateSession}
    `{!ProtoMessage SessionResponse} (HandshakeKK : HandshakePattern) (suite : CS) (c : Client)
    (s s' : P) (nc : noiseConn C (option K)) :
  (∀ rnd target, Request HandshakeKK suite c rnd target s = (Ret (Some nc, None), s') →
     LocalIdentity nc = Public (key c) ∧ RemoteIdentity nc = target) ∧
  (∀ rnds trust, Accept HandshakeKK suite c rnds trust s = (Ret (Some nc, None), s') →
     LocalIdentity nc = Public (key c) ∧ IsTrusted trust (RemoteIdentity nc) = true).
Proof.
  split.
  - intros rnd target E. by apply Request_post in E.
  - intros rnds trust E. by apply Accept_post in E.
Qed.

Definition demo_conn : noiseConn bytes (option Z) :=
  mkConn (demo_key [Byte.x0a]) (demo_key [Byte.x0b]) [Byte.x00; Byte.x00] (Some 0) (Some 0).

Lemma relay_connection_peer_witness :
  LocalIdentity demo_conn = demo_key [Byte.x0a] ∧ RemoteIdentity demo_conn = demo_key [Byte.x0b].
Proof.
  destruct (@relay_connection_peer unit demo_HS Z unit bytes demo_ed _ _ demo_session_conn _ demo_api
    demo_auth demo_response demo_KK () (demo_device Byte.x0a) () () demo_conn) as [H _].
  apply (H [] (demo_key [Byte.x0b])). reflexivity.
Defined.
