(* ===== verification/LocalClient.v ===== *)
(** * LocalClient: the goroutines of the local client ([lib/local])

    A client that listens has the goroutines [responseBroker],
    [outgoingBroadcastHandler] and [incomingUnicastHandler].  A call of
    [Connect] registers with the broker, broadcasts its request and starts an
    accept loop and a goroutine that removes the registration; a call of
    [Accept] starts the same loop, fed by the two goroutines of
    [listenRequests].  The [Processor] of [listener.go] couples the loop with
    whoever hands messages to it: its channels are unbuffered, so a message
    passes when one side sends and the other receives.  All of them are the
    record [state]; an execution is a sequence of [client_step]s, named by the
    statement that runs.  A handshake that panics ([handleResponse] and
    [handleRequest] of [Local] may) ends the process; one that hangs has no end. *)

From S2P Require Import Prelude GoSem Sha256 Packet Channel Proto Device Handshake LocalMessage Local.

Import message(mkRequest).

Local Open Scope Z_scope.

(** ** Data *)

(** The values that pass through a [Processor] as [interface{}]. *)
Inductive any : Type :=
| AnyRequest (r : Request)
| AnyResponse (r : Response).

(** A network connection is a number. *)
Abbreviation conn_id := nat.

(** The accept loop of [Connect] and [Accept]. *)
Inductive loop_phase : Type :=
| LoopNotStarted
| LoopAccepting                                  (* listener.Accept() *)
| LoopHandling (m : any) (conn : conn_id)        (* handleResponse, handleRequest *)
| LoopSending (conn : conn_id)                   (* out <- secConn *)
| LoopReturned.

Inductive result : Type :=
| ResultConn (conn : conn_id)
| ResultErr (e : error).

Inductive call_phase : Type :=
| Registering                                    (* c.responseHandlers <- register *)
| Broadcasting                                   (* c.broadcasts <- *)
| Selecting                                      (* the final select *)
| Returned (r : result).

Inductive call_kind : Type :=
| KConnect (id : RequestId)
| KAccept
| KFailed.                                       (* Connect, before its request was sent *)

(** The goroutine that removes the registration of a request. *)
Inductive remover : Type := RemoverNotStarted | RemoverWaiting | RemoverReturned.

(** The goroutines of [listenRequests]: the one that reads the beacon, the
    queue of [packets], the one that verifies and dials. *)
Inductive beacon_phase : Type :=
| BeaconReading
| BeaconSending (p : Packet) (udp : bool)
| BeaconReturned.

Inductive dial_phase : Type :=
| DialSelecting
| DialHandling (r : Request) (conn : conn_id)
| DialReturned.

Record call : Type := mkCall {
  kind : call_kind;
  phase : call_phase;
  ctx : option error;                            (* ctx.Err() *)
  outErr : option error;                         (* the buffered channel *)
  loop : loop_phase;
  remove : remover;
  beacon_ : beacon_phase;
  packets : list (Packet * bool);
  dial : dial_phase
}.

(** A goroutine [handler.Handle(m.response, m.conn)] of the broker. *)
Record handling : Type := mkHandling { h_call : nat; h_message : any; h_conn : conn_id }.

(** [broker] is the table of [responseBroker] while it runs; [responses] are
    the goroutines that wait to send to [c.responses]; [known] are the
    connections that exist with the message that came with them, [closed_] those
    that the client has closed. *)
Record state : Type := mkState {
  requestId : Z;
  broker : option (gmap RequestId nat);
  broadcaster : bool;
  calls : list call;
  responses : list (Response * conn_id);
  handlers : list handling;
  known : list (conn_id * any);
  closed_ : list conn_id;
  done_ : bool;
  isDirty : bool;
  crashed : option panic
}.

Implicit Types (s : state) (k : nat) (x : call).

Definition NewClient : state := mkState 0 None false [] [] [] [] [] false false None.

(** [Listen] starts the goroutines when the beacon and the listener could be
    opened; the second call panics. *)
Definition Listen (beaconErr listenErr : option error) s : state * option error :=
  if isDirty s then
    (mkState (requestId s) (broker s) (broadcaster s) (calls s) (responses s) (handlers s) (known s)
       (closed_ s) (done_ s) true (Some (PanicString "Listen was invoked more than once")), None)
  else match beaconErr, listenErr with
  | Some e, _ | None, Some e =>
      (mkState (requestId s) (broker s) (broadcaster s) (calls s) (responses s) (handlers s) (known s)
         (closed_ s) (done_ s) true (crashed s), Some e)
  | None, None =>
      (mkState (requestId s) (Some ∅) true (calls s) (responses s) (handlers s) (known s)
         (closed_ s) (done_ s) true (crashed s), None)
  end.

Definition set_requestId i s : state :=
  mkState i (broker s) (broadcaster s) (calls s) (responses s) (handlers s) (known s) (closed_ s)
    (done_ s) (isDirty s) (crashed s).
Definition set_broker b s : state :=
  mkState (requestId s) b (broadcaster s) (calls s) (responses s) (handlers s) (known s) (closed_ s)
    (done_ s) (isDirty s) (crashed s).
Definition set_broadcaster b s : state :=
  mkState (requestId s) (broker s) b (calls s) (responses s) (handlers s) (known s) (closed_ s)
    (done_ s) (isDirty s) (crashed s).
Definition set_calls l s : state :=
  mkState (requestId s) (broker s) (broadcaster s) l (responses s) (handlers s) (known s) (closed_ s)
    (done_ s) (isDirty s) (crashed s).
Definition set_responses l s : state :=
  mkState (requestId s) (broker s) (broadcaster s) (calls s) l (handlers s) (known s) (closed_ s)
    (done_ s) (isDirty s) (crashed s).
Definition set_handlers l s : state :=
  mkState (requestId s) (broker s) (broadcaster s) (calls s) (responses s) l (known s) (closed_ s)
    (done_ s) (isDirty s) (crashed s).
Definition add_known c m s : state :=
  mkState (requestId s) (broker s) (broadcaster s) (calls s) (responses s) (handlers s) ((c, m) :: known s) (closed_ s)
    (done_ s) (isDirty s) (crashed s).
Definition close_conn c s : state :=
  mkState (requestId s) (broker s) (broadcaster s) (calls s) (responses s) (handlers s) (known s) (c :: closed_ s)
    (done_ s) (isDirty s) (crashed s).
Definition set_done s : state :=
  mkState (requestId s) (broker s) (broadcaster s) (calls s) (responses s) (handlers s) (known s) (closed_ s)
    true (isDirty s) (crashed s).
Definition crash p s : state :=
  mkState (requestId s) (broker s) (broadcaster s) (calls s) (responses s) (handlers s) (known s) (closed_ s)
    (done_ s) (isDirty s) (Some p).

Definition set_call k x s : state := set_calls (<[k := x]> (calls s)) s.

Definition set_phase p x : call :=
  mkCall (kind x) p (ctx x) (outErr x) (loop x) (remove x) (beacon_ x) (packets x) (dial x).
Definition set_outErr e x : call :=
  mkCall (kind x) (phase x) (ctx x) e (loop x) (remove x) (beacon_ x) (packets x) (dial x).
Definition set_loop l x : call :=
  mkCall (kind x) (phase x) (ctx x) (outErr x) l (remove x) (beacon_ x) (packets x) (dial x).
Definition set_remove r x : call :=
  mkCall (kind x) (phase x) (ctx x) (outErr x) (loop x) r (beacon_ x) (packets x) (dial x).
Definition set_beacon b x : call :=
  mkCall (kind x) (phase x) (ctx x) (outErr x) (loop x) (remove x) b (packets x) (dial x).
Definition set_packets l x : call :=
  mkCall (kind x) (phase x) (ctx x) (outErr x) (loop x) (remove x) (beacon_ x) l (dial x).
Definition set_dial d x : call :=
  mkCall (kind x) (phase x) (ctx x) (outErr x) (loop x) (remove x) (beacon_ x) (packets x) d.

Definition Canceled : error := ErrVar "context.Canceled" "context canceled".

(** The context of a call ends; the first reason stays. *)
Definition end_ctx (e : error) x : call :=
  mkCall (kind x) (phase x) (Some (default e (ctx x))) (outErr x) (loop x) (remove x) (beacon_ x) (packets x)
    (dial x).
(** [cancel()] *)
Definition cancel x : call := end_ctx Canceled x.

(** A call returns; [defer cancel()] runs. *)
Definition return_call (r : result) x : call := cancel (set_phase (Returned r) x).

(** [nextRequestId]: [atomic.AddUint64(&c.requestId, 1)] *)
Definition nextRequestId s : RequestId * state :=
  let id := u64 (requestId s + 1) in (id, set_requestId id s).

(** ** Steps *)

Inductive event : Type :=
| EConnect                                       (* Connect is called *)
| EConnectErr (e : error) (numbered : bool)      (* no key pair, or no message *)
| EAccept                                        (* Accept is called *)
| ERegister k                                    (* the broker takes a registration *)
| EBroadcast k                                   (* the broadcast handler takes the packet *)
| ECtxDone k (e : error)                         (* the caller's context ends *)
| ERemove k                                      (* the broker takes a removal *)
| EResponse (r : Response) (c : conn_id)         (* a connection delivered a response *)
| EDispatch (i : nat)                            (* the broker takes a response *)
| EHandle (i : nat)                              (* Handle passes a response to Accept *)
| EHandleDone (i : nat)                          (* Handle sees the end of the context *)
| EAcceptDone k                                  (* Accept sees the end of the context *)
| EHandled k (r : outcome (option error))         (* handleResponse, handleRequest end *)
| EDeliver k                                     (* out <- secConn meets the select *)
| ESendDone k                                    (* the loop sees the end of the context *)
| EReturnCtx k                                   (* the select sees the end of the context *)
| EReturnClosed k                                (* the select sees c.done *)
| EBeacon k (data : bytes + error) (udp : bool)  (* c.beacon.Read() returns *)
| EQueue k                                       (* packets <- *)
| EDial k (now : Time) (dialed : conn_id + error) (header : option error)
| EDialHandle k                                  (* Handle passes a request to Accept *)
| EDialDone k                                    (* the goroutine sees the end of the context *)
| EClose                                         (* Close is called *)
| EListenerError (err : error) (text : string)   (* c.listener.Accept() fails *)
| EBrokerReturns | EBroadcasterReturns.          (* the handlers see c.done *)

Section Step.
Context `{!LocalProto} (deviceKey : bytes).

(** The type assertion of [responseProcessor.Accept] and
    [requestProcessor.Accept]. *)
Definition assertion (kd : call_kind) (m : any) : bool :=
  match kd, m with
  | KConnect _, AnyResponse _ | KAccept, AnyRequest _ => true
  | _, _ => false
  end.

(** [Processor.Accept] of call [k] receives a message. *)
Definition accept_message k x (m : any) (c : conn_id) s : state :=
  if assertion (kind x) m then set_call k (set_loop (LoopHandling m c) x) s
  else crash PanicAssertion s.

(** [c.responseHandlers <- registerResponseHandler{...}] meets the broker. *)
Definition register k x s : option state :=
  match kind x, broker s with
  | KConnect id, Some table =>
      Some (if table !! id is Some _
            then crash (PanicString "attempting to register a handler for an already used request id") s
            else set_call k (set_remove RemoverWaiting (set_phase Broadcasting x))
                   (set_broker (Some (<[id := k]> table)) s))
  | _, _ => None
  end.

(** A call of [Accept] starts the goroutines of [listenRequests]. *)
Definition accept_call : call :=
  mkCall KAccept Selecting None None LoopAccepting RemoverNotStarted BeaconReading [] DialSelecting.
Definition connect_call (id : RequestId) : call :=
  mkCall (KConnect id) Registering None None LoopNotStarted RemoverNotStarted BeaconReturned [] DialReturned.

Definition failed_call (e : error) : call :=
  mkCall KFailed (Returned (ResultErr e)) (Some Canceled) None LoopNotStarted RemoverNotStarted
    BeaconReturned [] DialReturned.

(** The reading goroutine of [listenRequests] after [c.beacon.Read()]. *)
Definition beacon_read (data : bytes + error) (udp : bool) x : call :=
  match data with
  | inr _ => set_beacon BeaconReturned x
  | inl data =>
      if negb (is_nil (ctx x)) then set_beacon BeaconReturned x
      else match Decode data with
      | (Some p, None) => set_beacon (BeaconSending p udp) x
      | _ => x
      end
  end.

(** What the dialing goroutine does with a packet of the queue, up to
    [handler.Handle]; [dialed] is the answer of [DialContext], [header] the
    error of writing the header. *)
Definition dial_packet k x (now : Time) (p : Packet) (udp : bool) (dialed : conn_id + error)
    (header : option error) s : state :=
  match Unmarshal p (mkRequest [] []) with
  | inr _ => set_call k x s
  | inl requestMessage =>
      match verifyRequestMessage now deviceKey requestMessage with
      | (_, Some _) => set_call k x s
      | (request, None) =>
          if negb udp then set_call k x s
          else match dialed with
          | inr _ => set_call k x s
          | inl c =>
              if negb (is_nil header) then add_known c (AnyRequest request) (set_call k x s)
              else add_known c (AnyRequest request) (set_call k (set_dial (DialHandling request c) x) s)
          end
      end
  end.

(** [incomingUnicastHandler] after a failed [c.listener.Accept()]: it returns
    when the client or the listener is closed, and ends the process otherwise.
    [text] is what [err.Error()] gives for an error of outside code. *)
Definition ListenerFatal : panic := Fatal "failed to accept:".

Definition listener_error (err : error) (text : string) s : state :=
  if done_ s then s
  else if bool_decide (err = net_ErrClosed) then s
  else if strings_Contains (Error text err) "use of closed network connection" then s
  else crash ListenerFatal s.

Definition client_step (e : event) s : option state :=
  if negb (is_nil (crashed s)) then None else
  match e with
  | EConnect =>
      let '(id, s) := nextRequestId s in Some (set_calls (calls s ++ [connect_call id]) s)
  | EConnectErr e numbered =>
      let s := if numbered then (nextRequestId s).2 else s in
      Some (set_calls (calls s ++ [failed_call e]) s)
  | EAccept => Some (set_calls (calls s ++ [accept_call]) s)
  | ERegister k =>
      x ← calls s !! k;
      match phase x with Registering => register k x s | _ => None end
  | EBroadcast k =>
      x ← calls s !! k;
      match phase x with
      | Broadcasting => if broadcaster s then Some (set_call k (set_loop LoopAccepting (set_phase Selecting x)) s) else None
      | _ => None
      end
  | ECtxDone k e => x ← calls s !! k; Some (set_call k (end_ctx e x) s)
  | ERemove k =>
      x ← calls s !! k;
      match kind x, remove x, ctx x, broker s with
      | KConnect id, RemoverWaiting, Some _, Some table =>
          Some (set_call k (set_remove RemoverReturned x) (set_broker (Some (delete id table)) s))
      | _, _, _, _ => None
      end
  | EResponse r c =>
      if bool_decide (c ∈ (known s).*1) then None
      else Some (add_known c (AnyResponse r) (set_responses (responses s ++ [(r, c)]) s))
  | EDispatch i =>
      '(r, c) ← responses s !! i;
      table ← broker s;
      let s := set_responses (delete i (responses s)) s in
      Some (if table !! RequestId_ r is Some k
            then set_handlers (handlers s ++ [mkHandling k (AnyResponse r) c]) s else s)
  | EHandle i =>
      h ← handlers s !! i;
      x ← calls s !! h_call h;
      match loop x with
      | LoopAccepting =>
          Some (accept_message (h_call h) x (h_message h) (h_conn h) (set_handlers (delete i (handlers s)) s))
      | _ => None
      end
  | EHandleDone i =>
      h ← handlers s !! i;
      x ← calls s !! h_call h;
      if is_nil (ctx x) then None else Some (set_handlers (delete i (handlers s)) s)
  | EAcceptDone k =>
      x ← calls s !! k;
      match loop x, ctx x with
      | LoopAccepting, Some e => Some (set_call k (cancel (set_loop LoopReturned (set_outErr (Some e) x))) s)
      | _, _ => None
      end
  | EHandled k r =>
      x ← calls s !! k;
      match loop x, r with
      | LoopHandling _ c, Ret err =>
          Some (if negb (is_nil err) then set_call k (set_loop LoopAccepting x) (close_conn c s)
                else set_call k (set_loop (LoopSending c) x) s)
      | LoopHandling _ _, Panic p => Some (crash p s)
      | _, _ => None
      end
  | EDeliver k =>
      x ← calls s !! k;
      match loop x, phase x with
      | LoopSending c, Selecting => Some (set_call k (return_call (ResultConn c) (set_loop LoopReturned x)) s)
      | _, _ => None
      end
  | ESendDone k =>
      x ← calls s !! k;
      match loop x, ctx x with
      | LoopSending c, Some _ => Some (set_call k (set_loop LoopReturned x) (close_conn c s))
      | _, _ => None
      end
  | EReturnCtx k =>
      x ← calls s !! k;
      match phase x, ctx x with
      | Selecting, Some e =>
          Some (set_call k (return_call (ResultErr (default e (outErr x))) (set_outErr None x)) s)
      | _, _ => None
      end
  | EReturnClosed k =>
      x ← calls s !! k;
      match phase x with
      | Selecting => if done_ s then Some (set_call k (return_call (ResultErr net_ErrClosed) x) s) else None
      | _ => None
      end
  | EBeacon k data udp =>
      x ← calls s !! k;
      match beacon_ x with BeaconReading => Some (set_call k (beacon_read data udp x) s) | _ => None end
  | EQueue k =>
      x ← calls s !! k;
      match beacon_ x with
      | BeaconSending p udp =>
          if zlen (packets x) <? 8
          then Some (set_call k (set_beacon BeaconReading (set_packets (packets x ++ [(p, udp)]) x)) s)
          else None
      | _ => None
      end
  | EDial k now dialed header =>
      x ← calls s !! k;
      match dial x, packets x with
      | DialSelecting, (p, udp) :: rest =>
          if dialed is inl c then if bool_decide (c ∈ (known s).*1) then None
            else Some (dial_packet k (set_packets rest x) now p udp dialed header s)
          else Some (dial_packet k (set_packets rest x) now p udp dialed header s)
      | _, _ => None
      end
  | EDialHandle k =>
      x ← calls s !! k;
      match dial x, loop x with
      | DialHandling r c, LoopAccepting => Some (accept_message k (set_dial DialSelecting x) (AnyRequest r) c s)
      | _, _ => None
      end
  | EDialDone k =>
      x ← calls s !! k;
      match dial x, ctx x with
      | DialSelecting, Some _ => Some (set_call k (set_dial DialReturned x) s)
      | DialHandling r c, Some _ => Some (set_call k (set_dial DialReturned x) (close_conn c s))
      | _, _ => None
      end
  | EClose => Some (if done_ s then crash PanicClosed s else set_done s)
  | EListenerError err text => Some (listener_error err text s)
  | EBrokerReturns => if done_ s then Some (set_broker None s) else None
  | EBroadcasterReturns => if done_ s then Some (set_broadcaster false s) else None
  end.

Fixpoint client_run (es : list event) s : option state :=
  match es with
  | [] => Some s
  | e :: es => s ← client_step e s; client_run es s
  end.
End Step.
