(* ===== verification/LocalClientProps.v ===== *)
(** * LocalClientProps: what the goroutines of the local client guarantee

    The invariant of the running client: request numbers are unique, the
    broker's table and the goroutines it started belong to calls of [Connect]
    with the right number, and every call has only connections that came with
    a message for it.  Connections have one owner at a time. *)

From S2P Require Import Prelude GoSem Sha256 Packet Channel Proto Device Handshake LocalMessage Local LocalClient.

Local Open Scope Z_scope.

Section Invariant.
Context `{!LocalProto} (deviceKey : bytes).
Implicit Types (s : state) (k : nat) (x y : call) (c : conn_id) (kn : list (conn_id * any)).

(** ** Messages and calls *)

(** A request that this device accepted. *)
Definition verified (r : Request) : Prop := ∃ now m, verifyRequestMessage now deviceKey m = (r, None).

(** A message that is meant for a call: a response with its number, or a
    verified request. *)
Definition meant_for (kd : call_kind) (m : any) : Prop :=
  match kd, m with
  | KConnect id, AnyResponse r => RequestId_ r = id
  | KAccept, AnyRequest r => verified r
  | _, _ => False
  end.

(** A connection that came with a message for the call. *)
Definition owns kn (kd : call_kind) c : Prop := ∃ m, (c, m) ∈ kn ∧ meant_for kd m.

Record call_ok kn x : Prop := {
  ok_loop : match loop x with
            | LoopHandling m c => (c, m) ∈ kn ∧ meant_for (kind x) m
            | LoopSending c => owns kn (kind x) c
            | _ => True
            end;
  ok_result : ∀ c, phase x = Returned (ResultConn c) → owns kn (kind x) c;
  ok_dial : match dial x with
            | DialHandling r c => (c, AnyRequest r) ∈ kn ∧ meant_for (kind x) (AnyRequest r)
            | DialSelecting => kind x = KAccept
            | DialReturned => True
            end
}.

Definition handling_ok kn (cs : list call) (h : handling) : Prop :=
  (h_conn h, h_message h) ∈ kn ∧
  ∃ r x, h_message h = AnyResponse r ∧ cs !! h_call h = Some x ∧ kind x = KConnect (RequestId_ r).

Record inv s : Prop := {
  inv_counter : 0 ≤ requestId s;
  inv_ids k x id : calls s !! k = Some x → kind x = KConnect id → 1 ≤ id ≤ requestId s;
  inv_inj k k' x x' id : calls s !! k = Some x → calls s !! k' = Some x' →
    kind x = KConnect id → kind x' = KConnect id → k = k';
  inv_table t id k : broker s = Some t → t !! id = Some k →
    ∃ x, calls s !! k = Some x ∧ kind x = KConnect id ∧ phase x ≠ Registering;
  inv_responses : Forall (λ rc, (rc.2, AnyResponse rc.1) ∈ known s) (responses s);
  inv_handlers : Forall (handling_ok (known s) (calls s)) (handlers s);
  inv_calls : Forall (call_ok (known s)) (calls s)
}.

Lemma inv_call s k x : inv s → calls s !! k = Some x → call_ok (known s) x.
Proof. intros Hi Hk. by eapply Forall_lookup_1; [apply Hi|]. Qed.

(** ** How the parts of a step keep the invariant *)

(** Nothing but a call changes. *)
Lemma inv_set_call s k x y :
  inv s → calls s !! k = Some x → kind y = kind x → (phase y = Registering → phase x = Registering) →
  call_ok (known s) y → inv (set_call k y s).
Proof.
  intros [Hc Hids Hinj Ht Hr Hh Hcs] Hk Hkind Hph Hok.
  assert (∀ j z, (<[k := y]> (calls s)) !! j = Some z → ∃ z', calls s !! j = Some z' ∧ kind z = kind z') as Hl.
  { intros j z Hj. destruct (decide (j = k)) as [->|Hne].
    - rewrite list_lookup_insert_eq in Hj by (by eapply lookup_lt_Some). simplify_eq. eauto.
    - rewrite list_lookup_insert_ne in Hj by done. eauto. }
  assert (∀ j z', calls s !! j = Some z' → ∃ z, (<[k := y]> (calls s)) !! j = Some z ∧ kind z = kind z' ∧
    (phase z = Registering → phase z' = Registering)) as Hl'.
  { intros j z' Hj. destruct (decide (j = k)) as [->|Hne].
    - exists y. rewrite list_lookup_insert_eq by (by eapply lookup_lt_Some). simplify_eq. done.
    - exists z'. by rewrite list_lookup_insert_ne by done. }
  constructor; simpl; try done.
  - intros j z id Hj Hz. destruct (Hl j z Hj) as (z' & Hj' & E). rewrite E in Hz. eauto.
  - intros j j' z z' id Hj Hj' Hz Hz'. destruct (Hl j z Hj) as (w & Hw & E), (Hl j' z' Hj') as (w' & Hw' & E').
    rewrite E in Hz. rewrite E' in Hz'. eauto.
  - intros t id j Hb Hid. destruct (Ht t id j Hb Hid) as (z' & Hj & Hz & Hp).
    destruct (Hl' j z' Hj) as (z & Hj' & E & E'). exists z. split_and!; [done|congruence|auto].
  - eapply Forall_impl; [exact Hh|]. intros h (Hkn & r & z & Hm & Hj & Hz).
    destruct (Hl' _ z Hj) as (z' & Hj' & E & _). split; [done|]. exists r, z'. split_and!; [done|done|congruence].
  - by apply Forall_insert.
Qed.

(** A new connection becomes known. *)
Lemma inv_add_known s c m : inv s → inv (add_known c m s).
Proof.
  intros [Hc Hids Hinj Ht Hr Hh Hcs]. constructor; simpl; try done.
  - eapply Forall_impl; [exact Hr|]. intros rc ?. by right.
  - eapply Forall_impl; [exact Hh|]. intros h (Hkn & Hrest). split; [by right|done].
  - eapply Forall_impl; [exact Hcs|]. intros x [H1 H2 H3].
    assert (∀ kd c', owns (known s) kd c' → owns ((c, m) :: known s) kd c') as Ho.
    { intros kd c' (m' & Hin & Hm). exists m'. split; [by right|done]. }
    constructor; [destruct (loop x)|by auto|destruct (dial x)]; simpl in *; try done.
    + destruct H1. split; [by right|done].
    + by apply Ho.
    + destruct H3. split; [by right|done].
Qed.

Lemma inv_close s c : inv s → inv (close_conn c s).
Proof. by intros [? ? ? ? ? ? ?]. Qed.

Lemma inv_set_responses s l :
  inv s → Forall (λ rc, (rc.2, AnyResponse rc.1) ∈ known s) l → inv (set_responses l s).
Proof. by intros [? ? ? ? ? ? ?]. Qed.

Lemma inv_set_handlers s l : inv s → Forall (handling_ok (known s) (calls s)) l → inv (set_handlers l s).
Proof. by intros [? ? ? ? ? ? ?]. Qed.

Lemma inv_set_broker s b :
  inv s → (∀ t id k, b = Some t → t !! id = Some k →
    ∃ x, calls s !! k = Some x ∧ kind x = KConnect id ∧ phase x ≠ Registering) → inv (set_broker b s).
Proof. by intros [? ? ? ? ? ? ?]. Qed.

(** A new call. *)
Lemma inv_new_call s i x :
  inv s → requestId s ≤ i → (∀ id, kind x = KConnect id → id = i ∧ requestId s < i) →
  call_ok (known s) x → inv (set_calls (calls s ++ [x]) (set_requestId i s)).
Proof.
  intros [Hc Hids Hinj Ht Hr Hh Hcs] Hi Hx Hok.
  assert (∀ j z, (calls s ++ [x]) !! j = Some z → calls s !! j = Some z ∨ j = length (calls s) ∧ z = x) as Hl.
  { intros j z [Hj|[Hle Hj]]%lookup_app_Some; [by left|right].
    apply list_lookup_singleton_Some in Hj as [? ->]. split; [lia|done]. }
  constructor; simpl; try done.
  - lia.
  - intros j z id [Hj|[_ ->]]%Hl Hz; [specialize (Hids _ _ _ Hj Hz); lia|].
    destruct (Hx id Hz). lia.
  - intros j j' z z' id [Hj|[-> ->]]%Hl [Hj'|[-> ->]]%Hl Hz Hz'; [by eauto| | |done].
    + destruct (Hx id Hz'). specialize (Hids _ _ _ Hj Hz). lia.
    + destruct (Hx id Hz). specialize (Hids _ _ _ Hj' Hz'). lia.
  - intros t id j Hb Hid. destruct (Ht t id j Hb Hid) as (z & Hj & Hz). exists z.
    split; [by apply lookup_app_l_Some|done].
  - eapply Forall_impl; [exact Hh|]. intros h (Hkn & r & z & Hm & Hj & Hz). split; [done|].
    exists r, z. split_and!; [done|by apply lookup_app_l_Some|done].
  - apply Forall_app. split; [done|]. by constructor.
Qed.

Lemma local_inv_crash s p : inv s → inv (crash p s).
Proof. by intros [? ? ? ? ? ? ?]. Qed.

(** ** Steps keep the invariant *)

(** A call that changes only in its phases and keeps what it has. *)
Ltac same_call Hk :=
  eapply inv_set_call; [eassumption|exact Hk|reflexivity|simpl; congruence|];
  match goal with Hi : inv _ |- _ => destruct (inv_call _ _ _ Hi Hk) end;
  constructor; simpl in *; repeat case_match; simplify_eq; eauto.

Lemma accept_message_inv k x y m c s :
  inv s → calls s !! k = Some x → kind y = kind x → phase y = phase x → call_ok (known s) y →
  (c, m) ∈ known s → meant_for (kind x) m →
  inv (accept_message k y m c s) ∧ crashed (accept_message k y m c s) = crashed s.
Proof.
  intros Hi Hk Hkd Hph Hok Hin Hm. unfold accept_message.
  assert (assertion (kind y) m = true) as ->.
  { rewrite Hkd. unfold meant_for in Hm. unfold assertion. by destruct (kind x), m. }
  split; [|done]. eapply inv_set_call; [done|exact Hk|done|simpl; congruence|].
  destruct Hok. constructor; simpl; [by rewrite Hkd|done|done].
Qed.

Lemma register_inv k x s s' :
  inv s → calls s !! k = Some x → phase x = Registering → register k x s = Some s' →
  inv s' ∧ crashed s' = crashed s.
Proof.
  intros Hi Hk Hph. unfold register. destruct (kind x) as [id| |] eqn:Hkd; [|done..].
  destruct (broker s) as [t|] eqn:Hb; [|done].
  destruct (t !! id) as [k'|] eqn:Hid; intros; simplify_eq.
  - destruct (inv_table s Hi t id k' Hb Hid) as (x' & Hk' & Hkd' & Hph').
    assert (k = k') as <- by (by eapply (inv_inj s Hi)). simplify_eq.
  - split; [|done]. set (y := set_remove RemoverWaiting (set_phase Broadcasting x)).
    change (inv (set_broker (Some (<[id:=k]> t)) (set_call k y s))).
    assert (inv (set_call k y s)) as Hi'.
    { eapply inv_set_call; [done|exact Hk|done|done|]. destruct (inv_call _ _ _ Hi Hk). by constructor. }
    apply inv_set_broker; [done|]. intros t' id' k' [= <-] Hl. simpl.
    destruct (decide (k' = k)) as [->|Hne].
    + exists y. rewrite list_lookup_insert_eq by (by eapply lookup_lt_Some). split; [done|].
      split; [|done]. destruct (decide (id' = id)) as [->|Hne']; [done|].
      rewrite lookup_insert_ne in Hl by done.
      destruct (inv_table s Hi t id' k Hb Hl) as (x' & Hk' & Hkd' & Hph'). simplify_eq.
    + rewrite list_lookup_insert_ne by done.
      assert (id' ≠ id) as Hne' by (intros ->; rewrite lookup_insert_eq in Hl; simplify_eq).
      rewrite lookup_insert_ne in Hl by done. by eapply (inv_table s Hi).
Qed.

Lemma dial_packet_inv k x now p udp dialed header s :
  inv s → calls s !! k = Some x → dial x = DialSelecting → ∀ rest,
  let s' := dial_packet deviceKey k (set_packets rest x) now p udp dialed header s in
  inv s' ∧ crashed s' = crashed s.
Proof.
  intros Hi Hk Hd rest. unfold dial_packet.
  assert (inv (set_call k (set_packets rest x) s)) as Hsame by same_call Hk.
  destruct (Unmarshal _ _) as [m|]; [|done].
  destruct (verifyRequestMessage _ _ _) as [r [e|]] eqn:Hv; [done|].
  destruct udp; [|done]. destruct dialed as [c|]; [|done]. simpl.
  destruct header; simpl; [split; [by apply inv_add_known|done]|]. split; [|done].
  change (inv (set_call k (set_dial (DialHandling r c) (set_packets rest x)) (add_known c (AnyRequest r) s))).
  assert (inv (add_known c (AnyRequest r) s)) as Hi' by (by apply inv_add_known).
  eapply inv_set_call; [done|exact Hk|done|done|].
  destruct (inv_call _ _ _ Hi' Hk) as [H1 H2 H3]. rewrite Hd in H3.
  constructor; simpl; [done|done|]. split; [by left|]. rewrite H3. by exists now, m.
Qed.

Lemma handler_gone i s : inv s → inv (set_handlers (delete i (handlers s)) s).
Proof. intros Hi. apply inv_set_handlers; [done|]. apply Forall_delete, Hi. Qed.

Lemma inv_new_call_plain s x :
  inv s → (∀ id, kind x ≠ KConnect id) → call_ok (known s) x → inv (set_calls (calls s ++ [x]) s).
Proof.
  intros Hi Hx Hok.
  replace (set_calls (calls s ++ [x]) s) with (set_calls (calls s ++ [x]) (set_requestId (requestId s) s))
    by (by destruct s).
  apply inv_new_call; [done|lia| |done]. intros id Hid. by destruct (Hx id).
Qed.

Definition begins (e : event) : bool :=
  match e with EConnect | EConnectErr _ _ | EAccept => true | _ => false end.

(** A call of [Connect] or [Accept] begins. *)
Lemma begin_inv e s s' :
  begins e = true → inv s → crashed s = None → requestId s + 1 < 2 ^ 64 → client_step deviceKey e s = Some s' →
  inv s' ∧ crashed s' = crashed s ∧ requestId s' ≤ requestId s + 1.
Proof.
  intros He Hi Hcr Hid Hs. unfold client_step in Hs. rewrite Hcr in Hs. simpl in Hs.
  pose proof (inv_counter s Hi) as H0.
  assert (u64 (requestId s + 1) = requestId s + 1) as Hu by (apply u64_small; lia).
  destruct e; try done; unfold nextRequestId in Hs; simpl in Hs.
  - rewrite Hu in Hs. simplify_eq. split_and!; [|done|simpl; lia].
    eapply (inv_new_call s); [done|lia| |].
    + intros id [= <-]. lia.
    + by constructor.
  - destruct numbered; [rewrite Hu in Hs|]; simplify_eq; split_and!; try done; try (simpl; lia).
    + eapply (inv_new_call s); [done|lia|done|]. by constructor.
    + apply inv_new_call_plain; [done|done|]. by constructor.
  - simplify_eq. split_and!; try done; try (simpl; lia).
    apply inv_new_call_plain; [done|done|]. by constructor.
Qed.

(** How an event can end the process: the listener fails, or a handshake panics. *)
Definition fatal (e : event) : option panic :=
  match e with
  | EListenerError _ _ => Some ListenerFatal
  | EHandled _ (Panic p) => Some p
  | _ => None
  end.

(** A step ends the process: a second close, or for a fatal event. *)
Definition ends e s s' : Prop :=
  e = EClose ∧ done_ s = true ∨ ∃ p, fatal e = Some p ∧ crashed s' = Some p.

(** What a step other than the beginning of a call keeps. *)
Definition keeps e s s' : Prop :=
  inv s' ∧ requestId s' = requestId s ∧ (crashed s' = crashed s ∨ ends e s s').

(** A step that changes a call and may close a connection. *)
Lemma keeps_call e s k x y :
  inv s → calls s !! k = Some x → kind y = kind x → (phase y = Registering → phase x = Registering) →
  call_ok (known s) y → keeps e s (set_call k y s) ∧ ∀ c, keeps e s (set_call k y (close_conn c s)).
Proof.
  intros Hi Hk Hkd Hph Hok.
  split; [|intros c]; (split; [|by split; [|left]]); eapply inv_set_call; eauto using inv_close.
Qed.

(** The steps of one call: its phases, its context, its queue. *)
Definition local_event (e : event) : option nat :=
  match e with
  | EBroadcast k | ECtxDone k _ | EAcceptDone k | EHandled k _ | EDeliver k | ESendDone k
  | EReturnCtx k | EReturnClosed k | EBeacon k _ _ | EQueue k | EDialDone k => Some k
  | _ => None
  end.

Lemma local_step_keeps e k s s' :
  local_event e = Some k → inv s → crashed s = None → client_step deviceKey e s = Some s' → keeps e s s'.
Proof.
  intros He Hi Hcr Hs. unfold client_step in Hs. rewrite Hcr in Hs. simpl in Hs.
  destruct e; try discriminate He; injection He as ->;
    destruct (calls s !! k) as [x|] eqn:Hk; [|discriminate Hs| |discriminate Hs| |discriminate Hs
      | |discriminate Hs| |discriminate Hs| |discriminate Hs| |discriminate Hs| |discriminate Hs
      | |discriminate Hs| |discriminate Hs| |discriminate Hs];
    destruct (inv_call _ _ _ Hi Hk) as [Hloop Hres Hdial]; simpl in Hs.
  - destruct (phase x) eqn:E1; try done. destruct (broadcaster s); simplify_eq.
    apply (keeps_call _ _ _ x); [done|done|done|done|]. by constructor.
  - simplify_eq. apply (keeps_call _ _ _ x); [done|done|done|done|]. by constructor.
  - destruct (loop x) eqn:E1; try done. destruct (ctx x); simplify_eq.
    apply (keeps_call _ _ _ x); [done|done|done|done|]. by constructor.
  - destruct (loop x) as [| |m c| |] eqn:E1; try done. destruct Hloop as [Hin Hm].
    destruct r as [err|p|]; [destruct err|..]; simplify_eq/=; try done;
      try (apply (keeps_call _ _ _ x); try done; constructor; try done; simpl; by exists m).
    split; [by apply local_inv_crash|]. split; [done|]. right; right. by exists p.
  - destruct (loop x) eqn:E1; try done. destruct (phase x) eqn:E2; simplify_eq.
    apply (keeps_call _ _ _ x); [done|done|done|done|]. constructor; [done| |done]. intros c' [= <-]. done.
  - destruct (loop x) eqn:E1; try done. destruct (ctx x); simplify_eq.
    apply (keeps_call _ _ _ x); [done|done|done|done|]. by constructor.
  - destruct (phase x) eqn:E1; try done. destruct (ctx x); simplify_eq.
    apply (keeps_call _ _ _ x); [done|done|done|done|]. by constructor.
  - destruct (phase x) eqn:E1; try done. destruct (done_ s); simplify_eq.
    apply (keeps_call _ _ _ x); [done|done|done|done|]. by constructor.
  - destruct (beacon_ x) eqn:E1; simplify_eq.
    assert (∃ b, beacon_read data udp x = set_beacon b x) as [b ->].
    { unfold beacon_read. repeat case_match; try (by eexists). all: exists BeaconReading; by destruct x; simpl in *; subst. }
    apply (keeps_call _ _ _ x); [done|done|done|done|]. by constructor.
  - destruct (beacon_ x); try done. destruct (zlen (packets x) <? 8); simplify_eq.
    apply (keeps_call _ _ _ x); [done|done|done|done|]. by constructor.
  - destruct (dial x) eqn:E1; try done; destruct (ctx x); simplify_eq;
      (apply (keeps_call _ _ _ x); [done|done|done|done|]; by constructor).
Qed.

(** Every step: the client panics only when it is closed twice, and ends the
    process only when its listener fails. *)
Lemma local_step_inv e s s' :
  inv s → crashed s = None → requestId s + 1 < 2 ^ 64 → client_step deviceKey e s = Some s' →
  inv s' ∧ requestId s' ≤ requestId s + 1 ∧
  (crashed s' = None ∨ ends e s s').
Proof.
  intros Hi Hcr Hid Hs.
  destruct (begins e) eqn:He.
  { destruct (begin_inv e s s' He Hi Hcr Hid Hs) as (? & ? & ?). split_and!; [done|done|left; congruence]. }
  enough (keeps e s s') as (? & ? & Hc) by (split_and!; [done|lia|destruct Hc; [left; congruence|by right]]).
  destruct (local_event e) as [k|] eqn:Hl; [by eapply local_step_keeps|].
  unfold client_step in Hs. rewrite Hcr in Hs. simpl in Hs.
  destruct e; try discriminate He; try discriminate Hl; clear He Hl; unfold keeps.
  - destruct (calls s !! k) as [x|] eqn:Hk; [|done]. simpl in Hs. destruct (phase x) eqn:Hp; try done.
    destruct (register_inv k x s s' Hi Hk Hp Hs). split_and!; [done| |by left].
    unfold register in Hs. repeat case_match; simplify_eq; done.
  - destruct (calls s !! k) as [x|] eqn:Hk; [|done]. simpl in Hs. destruct (kind x) eqn:Hkd; try done.
    destruct (remove x), (ctx x), (broker s) as [t|] eqn:Hb; simplify_eq.
    split_and!; [|done|by left].
    change (inv (set_broker (Some (delete id t)) (set_call k (set_remove RemoverReturned x) s))).
    assert (inv (set_call k (set_remove RemoverReturned x) s)) as Hi'.
    { destruct (inv_call _ _ _ Hi Hk). eapply inv_set_call; [done|exact Hk|done|done|]. by constructor. }
    apply inv_set_broker; [done|]. intros t' id' k' [= <-] [_ Hl]%lookup_delete_Some.
    by eapply (inv_table _ Hi').
  - case_bool_decide; simplify_eq. split_and!; [|done|by left].
    change (inv (set_responses (responses s ++ [(r, c)]) (add_known c (AnyResponse r) s))).
    pose proof (inv_add_known s c (AnyResponse r) Hi) as Hi'.
    apply inv_set_responses; [done|]. apply Forall_app. split; [apply Hi'|]. constructor; [|done]. by left.
  - destruct (responses s !! i) as [[r c]|] eqn:Hr; [|done]. simpl in Hs.
    destruct (broker s) as [t|] eqn:Hb; [|done]. simpl in Hs.
    assert (inv (set_responses (delete i (responses s)) s)) as Hi'.
    { apply inv_set_responses; [done|]. apply Forall_delete, Hi. }
    destruct (t !! RequestId_ r) as [k|] eqn:Ht; simplify_eq; [|by split_and!; [| |left]].
    split_and!; [|done|by left]. apply inv_set_handlers; [done|]. apply Forall_app. split; [apply Hi|].
    constructor; [|done]. split.
    + by apply (Forall_lookup_1 _ _ _ _ (inv_responses s Hi) Hr).
    + destruct (inv_table s Hi _ _ _ Hb Ht) as (x & Hk & Hkd & _). by exists r, x.
  - destruct (handlers s !! i) as [h|] eqn:Hh; [|done]. simpl in Hs.
    destruct (calls s !! h_call h) as [x|] eqn:Hk; [|done]. simpl in Hs. destruct (loop x); simplify_eq.
    destruct (Forall_lookup_1 _ _ _ _ (inv_handlers s Hi) Hh) as (Hin & r & x' & Hm & Hk' & Hkd).
    rewrite Hk in Hk'. simplify_eq.
    destruct (accept_message_inv (h_call h) x' x' (h_message h) (h_conn h) (set_handlers (delete i (handlers s)) s))
      as [Hi' Hc]; [by apply handler_gone|done|done|done|exact (inv_call _ _ _ Hi Hk)|done|by rewrite Hkd, Hm|].
    split_and!; [done| |by left]. unfold accept_message. by case_match.
  - destruct (handlers s !! i) as [h|]; [|done]. simpl in Hs.
    destruct (calls s !! h_call h) as [x|]; [|done]. simpl in Hs. destruct (ctx x); simplify_eq/=.
    split_and!; [by apply handler_gone|done|by left].
  - destruct (calls s !! k) as [x|] eqn:Hk; [|done]. simpl in Hs.
    destruct (dial x) eqn:Hd; try done. destruct (packets x) as [|[p udp] rest]; [done|].
    assert (s' = dial_packet deviceKey k (set_packets rest x) now p udp dialed header s) as ->.
    { destruct dialed; [case_bool_decide|]; simplify_eq; done. }
    destruct (dial_packet_inv k x now p udp dialed header s Hi Hk Hd rest) as [? ?].
    split_and!; [done| |by left]. unfold dial_packet. repeat case_match; done.
  - destruct (calls s !! k) as [x|] eqn:Hk; [|done]. simpl in Hs.
    destruct (dial x) as [|r c|] eqn:Hd; try done. destruct (loop x); simplify_eq.
    destruct (inv_call _ _ _ Hi Hk) as [Hloop Hres Hdial]. rewrite Hd in Hdial. destruct Hdial as [Hin Hm].
    destruct (accept_message_inv k x (set_dial DialSelecting x) (AnyRequest r) c s)
      as [Hi' Hc]; try done.
    { constructor; [done|done|]. simpl. by destruct (kind x). }
    split_and!; [done| |by left]. unfold accept_message. by destruct (assertion _ _).
  - destruct (done_ s) eqn:Hd; simplify_eq.
    + split_and!; [by apply local_inv_crash|done|right; by left].
    + split_and!; [by destruct Hi|done|by left].
  - unfold listener_error in Hs. repeat case_match; simplify_eq; try (by split_and!; [| |left]).
    split_and!; [by apply local_inv_crash|done|right; right]. by exists ListenerFatal.
  - destruct (done_ s); simplify_eq. split_and!; [|done|by left]. by apply inv_set_broker.
  - destruct (done_ s); simplify_eq. split_and!; [|done|by left]. by destruct Hi.
Qed.

(** ** Runs *)

Definition is_close (e : event) : bool := if e is EClose then true else false.
Definition count_closes (es : list event) : nat := length (filter is_close es).

Lemma step_done e s s' :
  client_step deviceKey e s = Some s' → crashed s' = None → done_ s' = done_ s || is_close e.
Proof.
  intros Hs Hc. unfold client_step in Hs. destruct (negb (is_nil (crashed s))); [done|].
  assert (∀ k x, done_ (set_call k x s) = done_ s || false) as Hset by (intros; simpl; by rewrite orb_false_r).
  destruct e; simpl; simplify_option_eq; unfold register, accept_message, dial_packet, listener_error in *;
    repeat (case_match; simplify_option_eq; try done); by rewrite ?orb_false_r, ?orb_true_r.
Qed.

(** The client after [Listen]. *)
Definition listening : state := (Listen None None NewClient).1.

Lemma inv_listening : inv listening.
Proof. constructor; try done; simpl; intros; simplify_map_eq. Qed.

Lemma local_run_inv es s s' :
  inv s → crashed s = None → requestId s + zlen es < 2 ^ 64 →
  ((if done_ s then 1 else 0) + count_closes es ≤ 1)%nat →
  client_run deviceKey es s = Some s' →
  inv s' ∧ (crashed s' = None ∨ ∃ e p, e ∈ es ∧ fatal e = Some p ∧ crashed s' = Some p).
Proof.
  revert s. induction es as [|e es IH]; intros s Hi Hcr Hid Hcl Hr; simpl in Hr;
    [simplify_eq; by split; [|left]|].
  destruct (client_step deviceKey e s) as [s1|] eqn:Hs; [|done]. simpl in Hr.
  rewrite zlen_cons in Hid. pose proof (zlen_nonneg es).
  destruct (local_step_inv e s s1 Hi Hcr ltac:(lia) Hs) as (Hi1 & Hid1 & Hc1).
  unfold count_closes in Hcl. rewrite filter_cons in Hcl.
  destruct Hc1 as [Hcr1|[[-> Hd]|(p & He & Hf)]].
  - destruct (IH s1) as [Hi' Hc']; [done|done|lia| |done|].
    + rewrite (step_done e s s1 Hs Hcr1). unfold count_closes.
      destruct (done_ s), (is_close e); simpl in *; lia.
    + split; [done|]. destruct Hc' as [|(e' & p & He & ?)]; [by left|right]. exists e', p. split; [by right|done].
  - exfalso. rewrite Hd in Hcl. simpl in Hcl. lia.
  - destruct es as [|e' es]; simpl in Hr.
    + simplify_eq. split; [done|right]. exists e, p. split; [by left|done].
    + unfold client_step in Hr at 1. by rewrite Hf in Hr.
Qed.
End Invariant.

(** ** Connections have one owner *)

Section Ownership.
Context `{!LocalProto} (deviceKey : bytes).
Implicit Types (s : state) (k : nat) (x y : call) (c : conn_id).

(** The connections that a call has: in its loop, with the dialing goroutine,
    or as its result. *)
Definition call_conns x : list conn_id :=
  match loop x with LoopHandling _ c | LoopSending c => [c] | _ => [] end ++
  match dial x with DialHandling _ c => [c] | _ => [] end ++
  match phase x with Returned (ResultConn c) => [c] | _ => [] end.

(** Where a connection can be. *)
Definition places s : list conn_id :=
  (responses s).*2 ++ (h_conn <$> handlers s) ++ (calls s ≫= call_conns).

Definition linear s : Prop :=
  NoDup (places s ++ closed_ s) ∧ ∀ c, c ∈ places s ++ closed_ s → c ∈ (known s).*1.

(** A step moves connections, drops them, or brings one that was not known. *)
Definition moves s s' : Prop :=
  (known s' = known s ∧ places s' ++ closed_ s' ⊆+ places s ++ closed_ s) ∨
  ∃ c m, (c ∉ (known s).*1) ∧ known s' = (c, m) :: known s ∧
    places s' ++ closed_ s' ⊆+ c :: places s ++ closed_ s.

Lemma NoDup_submseteq_1 (l l' : list conn_id) : l ⊆+ l' → NoDup l' → NoDup l.
Proof. intros [k E]%submseteq_Permutation H1. rewrite E in H1. by apply NoDup_app in H1 as [? _]. Qed.

Lemma moves_linear s s' : linear s → moves s s' → linear s'.
Proof.
  intros [Hnd Hkn] [[Hk Hsub]|(c & m & Hc & Hk & Hsub)].
  - split; [by eapply NoDup_submseteq_1|]. rewrite Hk. intros c Hin. apply Hkn.
    by eapply elem_of_submseteq.
  - split.
    + eapply NoDup_submseteq_1; [exact Hsub|]. constructor; [|done]. intros Hin. by apply Hc, Hkn.
    + rewrite Hk. intros c' Hin. simpl. eapply elem_of_submseteq in Hin; [|exact Hsub].
      apply elem_of_cons in Hin as [->|Hin]; [by left|right; by apply Hkn].
Qed.

Lemma calls_split s k x :
  calls s !! k = Some x → ∃ rest, calls s ≫= call_conns ≡ₚ call_conns x ++ rest ∧
    ∀ y, (<[k := y]> (calls s)) ≫= call_conns ≡ₚ call_conns y ++ rest.
Proof.
  intros Hk. exists ((take k (calls s) ++ drop (S k) (calls s)) ≫= call_conns). split.
  - rewrite <- (take_drop_middle (calls s) k x Hk) at 1. rewrite !bind_app, bind_cons. solve_Permutation.
  - intros y. rewrite insert_take_drop by (by eapply lookup_lt_Some).
    rewrite !bind_app, bind_cons. solve_Permutation.
Qed.

(** A call changes: what it gives up may go to the closed connections. *)
Lemma moves_set_call s k x y cl :
  calls s !! k = Some x → call_conns y ++ cl ⊆+ call_conns x →
  ∀ s', known s' = known s → responses s' = responses s → handlers s' = handlers s →
    calls s' = <[k := y]> (calls s) → closed_ s' = cl ++ closed_ s → moves s s'.
Proof.
  intros Hk Hsub s' H1 H2 H3 H4 H5. left. split; [done|]. unfold places. rewrite H2, H3, H4, H5.
  destruct (calls_split s k x Hk) as (rest & E & E'). rewrite E, E', <- !app_assoc.
  apply submseteq_app; [done|]. apply submseteq_app; [done|].
  trans ((call_conns y ++ cl) ++ rest ++ closed_ s); [solve_submseteq|].
  by apply submseteq_app.
Qed.

Lemma moves_same s s' :
  known s' = known s → places s' = places s → closed_ s' = closed_ s → moves s s'.
Proof. intros H1 H2 H3. left. by rewrite H1, H2, H3. Qed.

(** A new call has no connection. *)
Lemma moves_new_call s s' x :
  calls s' = calls s ++ [x] → call_conns x = [] → known s' = known s → responses s' = responses s →
  handlers s' = handlers s → closed_ s' = closed_ s → moves s s'.
Proof.
  intros H1 H2 H3 H4 H5 H6. apply moves_same; [done| |done]. unfold places.
  rewrite H1, H4, H5, bind_app. simpl. by rewrite H2, !app_nil_r.
Qed.

Lemma delete_conn {A} (f : A → conn_id) (l : list A) i a :
  l !! i = Some a → f <$> l ≡ₚ f a :: (f <$> delete i l).
Proof. intros Hi. by rewrite (delete_Permutation l i a Hi) at 1. Qed.

Lemma local_step_moves e k s s' :
  local_event e = Some k → crashed s = None → client_step deviceKey e s = Some s' → moves s s'.
Proof.
  intros He Hcr Hs. unfold client_step in Hs. rewrite Hcr in Hs. simpl in Hs.
  destruct e; try discriminate He; injection He as ->; destruct (calls s !! k) as [x|] eqn:Hk; try discriminate Hs;
    simpl in Hs; unfold beacon_read in Hs.
  all: repeat (case_match; try discriminate Hs); simplify_eq/=.
  all: first [apply moves_same; reflexivity
             |eapply (moves_set_call s k x _ []); [exact Hk| |reflexivity..];
              unfold call_conns; simpl; repeat (case_match; simplify_eq/=); solve_submseteq
             |eapply (moves_set_call s k x _ [_]); [exact Hk| |reflexivity..];
              unfold call_conns; simpl; repeat (case_match; simplify_eq/=); solve_submseteq].
Qed.

(** The dialing goroutine brings a new connection. *)
Lemma moves_dial s k x rest now p udp dialed header :
  calls s !! k = Some x → dial x = DialSelecting → (∀ c, dialed = inl c → c ∉ (known s).*1) →
  moves s (dial_packet deviceKey k (set_packets rest x) now p udp dialed header s).
Proof.
  intros Hk Hd Hc. unfold dial_packet.
  assert (moves s (set_call k (set_packets rest x) s)) as Hsame.
  { eapply (moves_set_call s k x _ []); [exact Hk| |done..]. unfold call_conns. simpl. solve_submseteq. }
  destruct (Unmarshal _ _) as [rm|]; [|done]. destruct (verifyRequestMessage _ _ _) as [r [e|]]; [done|].
  destruct udp; [|done]. destruct dialed as [c|]; [|done]. specialize (Hc c eq_refl).
  destruct (calls_split s k x Hk) as (rest' & E & E').
  right. exists c, (AnyRequest r). split; [done|]. destruct header; simpl; (split; [done|]);
    unfold places; simpl; rewrite E, E'; unfold call_conns; simpl; rewrite ?Hd; solve_submseteq.
Qed.

Lemma step_moves e s s' : client_step deviceKey e s = Some s' → moves s s'.
Proof.
  intros Hs. pose proof Hs as Hs0. unfold client_step in Hs.
  destruct (crashed s) eqn:Hcr; simpl in Hs; [done|].
  destruct (local_event e) as [k|] eqn:Hl; [by eapply local_step_moves|]. clear Hs0.
  destruct e; try discriminate Hl; clear Hl.
  - unfold nextRequestId in Hs. simplify_eq/=. by eapply moves_new_call.
  - destruct numbered; simplify_eq/=; by eapply moves_new_call.
  - simplify_eq. by eapply moves_new_call.
  - destruct (calls s !! k) as [x|] eqn:Hk; [|done]. simpl in Hs. destruct (phase x) eqn:Hp; try done.
    unfold register in Hs. destruct (kind x), (broker s) as [t|]; try done.
    destruct (t !! id); simplify_eq; [by apply moves_same|].
    eapply (moves_set_call s k x _ []); [exact Hk| |done..]. unfold call_conns. simpl. rewrite Hp. solve_submseteq.
  - destruct (calls s !! k) as [x|] eqn:Hk; [|done]. simpl in Hs.
    destruct (kind x), (remove x), (ctx x), (broker s); simplify_eq.
    eapply (moves_set_call s k x _ []); [exact Hk| |done..]. unfold call_conns. simpl. by rewrite app_nil_r.
  - case_bool_decide as Hin; simplify_eq. right. exists c, (AnyResponse r). split; [done|]. split; [done|].
    unfold places. simpl. rewrite fmap_app. simpl. solve_submseteq.
  - destruct (responses s !! i) as [[r c]|] eqn:Hr; [|done]. simpl in Hs.
    destruct (broker s) as [t|]; [|done]. simpl in Hs.
    pose proof (delete_conn snd _ _ _ Hr) as E. simpl in E.
    left. split; [by destruct (t !! _); simplify_eq|]. unfold places.
    destruct (t !! _); simplify_eq; simpl; rewrite E, ?fmap_app; simpl; solve_submseteq.
  - destruct (handlers s !! i) as [h|] eqn:Hh; [|done]. simpl in Hs.
    destruct (calls s !! h_call h) as [x|] eqn:Hk; [|done]. simpl in Hs. destruct (loop x) eqn:Hl; simplify_eq.
    unfold accept_message. pose proof (delete_conn h_conn _ _ _ Hh) as E.
    left. split; [by destruct (assertion _ _)|]. unfold places.
    destruct (calls_split s _ x Hk) as (rest & Ec & Ec').
    destruct (assertion _ _); simpl; rewrite ?Ec', ?E, ?Ec.
    + unfold call_conns. simpl. rewrite Hl. simpl. solve_submseteq.
    + solve_submseteq.
  - destruct (handlers s !! i) as [h|] eqn:Hh; [|done]. simpl in Hs.
    destruct (calls s !! h_call h) as [x|] eqn:Hk; [|done]. simpl in Hs. destruct (ctx x); simplify_eq/=.
    pose proof (delete_conn h_conn _ _ _ Hh) as E.
    left. split; [done|]. unfold places. simpl. rewrite E. solve_submseteq.
  - destruct (calls s !! k) as [x|] eqn:Hk; [|done]. simpl in Hs.
    destruct (dial x) eqn:Hd; try done. destruct (packets x) as [|[p udp] rest]; [done|].
    destruct dialed as [c|]; [case_bool_decide as Hin|]; simplify_eq; (apply moves_dial; [done|done|]);
      intros; by simplify_eq.
  - destruct (calls s !! k) as [x|] eqn:Hk; [|done]. simpl in Hs.
    destruct (dial x) as [|r c|] eqn:Hd; try done. destruct (loop x) eqn:Hl; simplify_eq.
    unfold accept_message. destruct (assertion _ _); [|by apply moves_same].
    eapply (moves_set_call s k x _ []); [exact Hk| |done..].
    unfold call_conns. simpl. rewrite Hd, Hl. solve_submseteq.
  - destruct (done_ s); simplify_eq; by apply moves_same.
  - unfold listener_error in Hs. repeat case_match; simplify_eq; by apply moves_same.
  - destruct (done_ s); simplify_eq; by apply moves_same.
  - destruct (done_ s); simplify_eq; by apply moves_same.
Qed.

Lemma run_moves (P : state → Prop) :
  (∀ s s', P s → moves s s' → P s') → ∀ es s s', P s → client_run deviceKey es s = Some s' → P s'.
Proof.
  intros HP es. induction es as [|e es IH]; intros s s' H0 Hr; simpl in Hr; [by simplify_eq|].
  destruct (client_step deviceKey e s) as [s1|] eqn:Hs; [|done]. simpl in Hr.
  eapply IH; [|done]. eapply HP; [done|]. by eapply step_moves.
Qed.

Lemma run_linear es s : client_run deviceKey es listening = Some s → linear s.
Proof.
  apply run_moves; [exact moves_linear|]. split; [constructor|]. intros c Hc. by apply elem_of_nil in Hc.
Qed.

(** A connection that nobody has any more. *)
Definition lost c s : Prop := (c ∈ (known s).*1) ∧ (c ∉ places s ++ closed_ s).

Lemma moves_lost c s s' : lost c s → moves s s' → lost c s'.
Proof.
  intros [Hin Hno] [[Hk Hsub]|(c' & m & Hc & Hk & Hsub)].
  - split; [by rewrite Hk|]. intros H'. apply Hno. by eapply elem_of_submseteq.
  - split; [rewrite Hk; by right|]. intros H'. eapply elem_of_submseteq in H'; [|exact Hsub].
    apply elem_of_cons in H' as [->|H']; [done|]. by apply Hno.
Qed.

(** The broker drops a response that nobody waits for; [Handle] returns after
    the end of the context. *)
Lemma dispatch_lost s s' i r c t :
  linear s → responses s !! i = Some (r, c) → broker s = Some t → t !! RequestId_ r = None →
  client_step deviceKey (EDispatch i) s = Some s' → lost c s'.
Proof.
  intros [Hnd Hkn] Hr Hb Ht Hs. unfold client_step in Hs. destruct (crashed s); [done|]. simpl in Hs.
  rewrite Hr, Hb in Hs. simpl in Hs. rewrite Ht in Hs. simplify_eq.
  pose proof (delete_conn snd _ _ _ Hr) as E. simpl in E. unfold places in Hnd, Hkn. rewrite E in Hnd.
  simpl in Hnd. apply NoDup_cons in Hnd as [Hno _]. split; simpl.
  - apply Hkn. rewrite E. by left.
  - exact Hno.
Qed.

Lemma handle_done_lost s s' i h :
  linear s → handlers s !! i = Some h →
  client_step deviceKey (EHandleDone i) s = Some s' → lost (h_conn h) s'.
Proof.
  intros [Hnd Hkn] Hh Hs. unfold client_step in Hs. destruct (crashed s); [done|]. simpl in Hs.
  rewrite Hh in Hs. simpl in Hs. destruct (calls s !! h_call h) as [x|]; [|done]. simpl in Hs.
  destruct (is_nil (ctx x)); simplify_eq.
  pose proof (delete_conn h_conn _ _ _ Hh) as E. unfold places in Hnd, Hkn.
  assert (h_conn h :: (responses s).*2 ++ (h_conn <$> delete i (handlers s)) ++ (calls s ≫= call_conns) ++ closed_ s
    ≡ₚ ((responses s).*2 ++ (h_conn <$> handlers s) ++ (calls s ≫= call_conns)) ++ closed_ s) as E'.
  { rewrite E. solve_Permutation. }
  rewrite <- E' in Hnd. apply NoDup_cons in Hnd as [Hno _]. split; simpl.
  - apply Hkn. rewrite <- E'. by left.
  - unfold places. simpl. by rewrite <- !app_assoc.
Qed.
End Ownership.

Lemma result_conn x c : phase x = Returned (ResultConn c) → c ∈ call_conns x.
Proof. intros E. unfold call_conns. rewrite E, !elem_of_app. right. right. by left. Qed.

(** Lists of connections of different calls have nothing in common. *)
Lemma calls_unique (l : list call) k k' x x' (c : conn_id) :
  NoDup (l ≫= call_conns) → l !! k = Some x → l !! k' = Some x' →
  c ∈ call_conns x → c ∈ call_conns x' → k = k'.
Proof.
  revert k k'. induction l as [|y l IH]; intros k k' Hnd Hk Hk' Hc Hc'; [done|].
  rewrite bind_cons in Hnd. apply NoDup_app in Hnd as (_ & Hdis & Hnd).
  assert (∀ j z, l !! j = Some z → c ∈ call_conns z → c ∈ (l ≫= call_conns)) as Hin.
  { intros j z Hj Hz. apply list_elem_of_bind. exists z. split; [done|]. by eapply list_elem_of_lookup_2. }
  destruct k as [|k], k' as [|k']; simplify_eq/=; [done| | |].
  - by destruct (Hdis c); [|eapply Hin].
  - by destruct (Hdis c); [|eapply Hin].
  - f_equal. by eapply IH.
Qed.

(** ** After [Close] *)

Section Closed.
Context `{!LocalProto} (deviceKey : bytes).

(** A call of [Connect] that waits for a broker that is gone. *)
Definition stuck_registering (k : nat) (s : state) : Prop :=
  broker s = None ∧ ∃ x, calls s !! k = Some x ∧ phase x = Registering ∧ loop x = LoopNotStarted.

Lemma stuck_set_call k j x y s :
  stuck_registering k s → calls s !! j = Some x →
  (phase x = Registering → loop x = LoopNotStarted → phase y = Registering ∧ loop y = LoopNotStarted) →
  ∀ s', broker s' = broker s → calls s' = <[j := y]> (calls s) → stuck_registering k s'.
Proof.
  intros (Hb & z & Hk & Hp & Hl) Hj Hy s' H1 H2. split; [by rewrite H1|]. rewrite H2.
  destruct (decide (j = k)) as [->|Hne].
  - exists y. simplify_eq. rewrite list_lookup_insert_eq by (by eapply lookup_lt_Some). split; [done|by apply Hy].
  - exists z. by rewrite list_lookup_insert_ne by done.
Qed.

Lemma stuck_ext k s s' :
  stuck_registering k s → broker s' = None → (∃ l, calls s' = calls s ++ l) → stuck_registering k s'.
Proof.
  intros (Hb & z & Hk & Hrest) H1 [l H2]. split; [done|]. exists z. split; [|done].
  rewrite H2. by apply lookup_app_l_Some.
Qed.

Lemma stuck_step k e s s' :
  stuck_registering k s → client_step deviceKey e s = Some s' → stuck_registering k s'.
Proof.
  intros Hst Hs. pose proof Hst as [Hb _]. unfold client_step in Hs. destruct (crashed s); [done|].
  simpl in Hs. unfold register, accept_message, dial_packet, beacon_read, listener_error in Hs.
  assert (∃ l, calls s = calls s ++ l) as Hnil by (exists []; by rewrite app_nil_r).
  destruct e; try (destruct (calls s !! k0) as [x|] eqn:Hk; [|discriminate Hs]; simpl in Hs);
    simplify_option_eq.
  all: repeat (case_match; simplify_eq/=; try done).
  all: try (apply (stuck_ext k s); [done|done|by eauto]).
  all: try (eapply stuck_set_call; [exact Hst|eassumption| |reflexivity|reflexivity];
    simpl; intros; split; congruence).
  by rewrite Hb in Hs.
Qed.

Lemma stuck_run k es s s' :
  stuck_registering k s → client_run deviceKey es s = Some s' → stuck_registering k s'.
Proof.
  revert s. induction es as [|e es IH]; intros s Hst Hr; simpl in Hr; [by simplify_eq|].
  destruct (client_step deviceKey e s) as [s1|] eqn:Hs; [|done]. simpl in Hr.
  by eapply IH; [eapply stuck_step|].
Qed.
End Closed.

(** ** Properties *)

(** C39: a listening client that is closed at most once panics only when a
    handshake does, whatever order the goroutines, the callers and the network
    run in, for fewer than [2 ^ 64] steps: no request number is registered twice,
    and the type assertions of the processors get the type they expect.  The
    process ends only with the panic of a call of [handleResponse] or
    [handleRequest] (which is that of a key that cannot be converted,
    [local_handshake_panics]), or when the listener cannot accept any more. *)
Theorem local_client_never_panics `{!LocalProto} (deviceKey : bytes) (es : list event) (s : state) :
  zlen es < 2 ^ 64 → (count_closes es ≤ 1)%nat →
  client_run deviceKey es listening = Some s →
  crashed s = None ∨
  ∃ e p, e ∈ es ∧ crashed s = Some p ∧
    ((∃ k, e = EHandled k (Panic p)) ∨ p = ListenerFatal ∧ ∃ err text, e = EListenerError err text).
Proof.
  intros Hlen Hcl Hr.
  destruct (local_run_inv deviceKey es listening s) as [_ [|(e & p & He & Hf & Hp)]];
    [apply inv_listening|done|done|done|done|by left|right].
  exists e, p. split; [done|]. split; [done|]. destruct e; try discriminate; simpl in Hf.
  - left. case_match; simplify_eq. eauto.
  - right. simplify_eq. eauto.
Qed.

(** C10: a connection is given to the call it is for: what [Connect] returns
    came with a response to the number of this call's request, and numbers are
    not shared by calls; what [Accept] returns came with a request that was
    verified with the device key.  A returned connection belongs to one call
    and was not closed by the client. *)
Theorem local_connection_owner `{!LocalProto} (deviceKey : bytes) (es : list event) (s : state)
    (k : nat) (x : call) (c : conn_id) :
  zlen es < 2 ^ 64 → (count_closes es ≤ 1)%nat →
  client_run deviceKey es listening = Some s →
  calls s !! k = Some x → phase x = Returned (ResultConn c) →
  owns deviceKey (known s) (kind x) c ∧ (c ∉ closed_ s) ∧
  (∀ id k' x', kind x = KConnect id → calls s !! k' = Some x' → kind x' = KConnect id → k' = k) ∧
  (∀ k' x', calls s !! k' = Some x' → phase x' = Returned (ResultConn c) → k' = k).
Proof.
  intros Hlen Hcl Hr Hk Hp.
  destruct (local_run_inv deviceKey es listening s) as [Hi _]; [apply inv_listening|done|done|done|done|].
  destruct (run_linear deviceKey es s Hr) as [Hnd _]. split_and!.
  - by eapply ok_result; [eapply inv_call|].
  - intros Hc. apply NoDup_app in Hnd as (_ & Hdis & _). apply (Hdis c); [|done].
    unfold places. apply elem_of_app; right. apply elem_of_app; right. apply list_elem_of_bind.
    exists x. split; [by apply result_conn|by eapply list_elem_of_lookup_2].
  - intros id k' x' Hx Hk' Hx'. by eapply inv_inj.
  - intros k' x' Hk' Hp'. apply NoDup_app in Hnd as (Hnd & _ & _).
    apply NoDup_app in Hnd as (_ & _ & Hnd). apply NoDup_app in Hnd as (_ & _ & Hnd).
    by eapply (calls_unique (calls s)); eauto using result_conn.
Qed.

(** Connections leak: when a response comes for a request that nobody waits
    for any more, or the context of its call ends while it is handed over, the
    connection is neither closed nor given to anybody, at that time or later
    (the caller of [Handle] does not look at its result). *)
Theorem local_unclaimed_connection_leaks `{!LocalProto} (deviceKey : bytes) (es es' : list event)
    (s s1 s2 : state) (i : nat) (r : Response) (c : conn_id) (h : handling) :
  client_run deviceKey es listening = Some s → client_run deviceKey es' s1 = Some s2 →
  (responses s !! i = Some (r, c) ∧ (∃ t, broker s = Some t ∧ t !! RequestId_ r = None) ∧
     client_step deviceKey (EDispatch i) s = Some s1 → (c ∉ closed_ s2) ∧ (c ∉ places s2)) ∧
  (handlers s !! i = Some h ∧ client_step deviceKey (EHandleDone i) s = Some s1 →
     (h_conn h ∉ closed_ s2) ∧ (h_conn h ∉ places s2)).
Proof.
  intros Hr Hr'. pose proof (run_linear deviceKey es s Hr) as Hlin.
  assert (∀ c', lost c' s1 → (c' ∉ closed_ s2) ∧ (c' ∉ places s2)) as Hl.
  { intros c' Hc'. destruct (run_moves deviceKey (lost c') (moves_lost c') es' s1 s2 Hc' Hr') as [_ Hno].
    rewrite elem_of_app in Hno. tauto. }
  split.
  - intros (Hi & (t & Hb & Ht) & Hs). apply Hl. by eapply dispatch_lost.
  - intros (Hi & Hs). apply Hl. by eapply handle_done_lost.
Qed.

(** After [Close] a new call of [Connect] hangs: once the broker has seen
    the end, a call that registers its request never returns, even when its
    context ends. *)
Theorem local_connect_after_close_hangs `{!LocalProto} (deviceKey : bytes) (es : list event) (s s' : state) :
  broker s = None → client_run deviceKey (EConnect :: es) s = Some s' →
  ∃ x, calls s' !! length (calls s) = Some x ∧ phase x = Registering.
Proof.
  intros Hb Hr. simpl in Hr. unfold client_step at 1 in Hr. destruct (crashed s); [done|]. simpl in Hr.
  assert (stuck_registering (length (calls s)) s') as (_ & x & Hk & Hp & _).
  { eapply stuck_run; [|exact Hr]. split; [done|]. eexists. simpl.
    split; [by rewrite lookup_app_r, Nat.sub_diag by lia|done]. }
  by exists x.
Qed.

(** *** Witnesses *)

(** A run that is possible, and the state it leads to. *)
Definition demo_run (es : list event) (s : state) : option state :=
  @client_run wire_local demo_device_key es s.
Definition possible (es : list event) (s : state) : bool := if demo_run es s is Some _ then true else false.
Definition after (es : list event) (s : state) : state := default NewClient (demo_run es s).

Lemma possible_run es s : possible es s = true → demo_run es s = Some (after es s).
Proof. unfold possible, after. by destruct (demo_run es s). Qed.

(** Two calls of [Connect]; the first gets its response. *)
Definition demo_events : list event :=
  [EConnect; EConnect; ERegister 0; EBroadcast 0; ERegister 1; EResponse (mkLocalResponse 1 []) 5;
   EDispatch 0; EHandle 0; EHandled 0 (Ret None); EDeliver 0; ERemove 0; EClose].

Lemma demo_events_run : demo_run demo_events listening = Some (after demo_events listening).
Proof. apply possible_run. vm_compute. reflexivity. Qed.

Lemma local_client_never_panics_witness : crashed (after demo_events listening) = None.
Proof.
  destruct (@local_client_never_panics wire_local demo_device_key demo_events (after demo_events listening))
    as [H|(e & p & _ & H & _)]; [reflexivity|apply Nat.le_refl|exact demo_events_run|exact H|discriminate H].
Defined.

Lemma local_connection_owner_witness :
  owns demo_device_key (H := wire_local) (known (after demo_events listening)) (KConnect 1) 5 ∧
  (5%nat ∉ closed_ (after demo_events listening)).
Proof.
  destruct (@local_connection_owner wire_local demo_device_key demo_events (after demo_events listening) 0
    (mkCall (KConnect 1) (Returned (ResultConn 5)) (Some Canceled) None LoopReturned RemoverReturned
       BeaconReturned [] DialReturned) 5) as (H1 & H2 & _);
    [reflexivity|apply Nat.le_refl|exact demo_events_run|vm_compute; reflexivity|reflexivity|].
  split; [exact H1|exact H2].
Defined.

(** A response to a request with the number 9, which nobody has made. *)
Definition demo_unknown : list event := [EConnect; ERegister 0; EResponse (mkLocalResponse 9 []) 5].

Lemma local_unclaimed_connection_leaks_witness :
  let s2 := after [EDispatch 0; ERemove 0] (after (demo_unknown ++ [ECtxDone 0 Canceled]) listening) in
  (5%nat ∉ closed_ s2) ∧ (5%nat ∉ places s2).
Proof.
  set (s := after (demo_unknown ++ [ECtxDone 0 Canceled]) listening).
  assert (demo_run [EDispatch 0] s = Some (after [EDispatch 0] s)) as E1
    by (apply possible_run; vm_compute; reflexivity).
  assert (demo_run [EDispatch 0; ERemove 0] s = Some (after [EDispatch 0; ERemove 0] s)) as E2
    by (apply possible_run; vm_compute; reflexivity).
  unfold demo_run in E1, E2. cbn [client_run] in E1, E2.
  destruct (client_step _ (EDispatch 0) s) as [s1|] eqn:E; [|discriminate E1].
  destruct (@local_unclaimed_connection_leaks wire_local demo_device_key
    (demo_unknown ++ [ECtxDone 0 Canceled]) [ERemove 0] s s1 (after [EDispatch 0; ERemove 0] s)
    0 (mkLocalResponse 9 []) 5 (mkHandling 0 (AnyResponse (mkLocalResponse 9 [])) 5)) as [H _].
  - apply possible_run. vm_compute. reflexivity.
  - exact E2.
  - apply H. split; [vm_compute; reflexivity|]. split; [|exact E].
    exists (default ∅ (broker s)). split; vm_compute; reflexivity.
Defined.

Lemma local_connect_after_close_hangs_witness :
  ∃ x, calls (after [EConnect; ECtxDone 0 Canceled] (after [EClose; EBrokerReturns] listening)) !! 0%nat = Some x ∧
    phase x = Registering.
Proof.
  apply (@local_connect_after_close_hangs wire_local demo_device_key [ECtxDone 0 Canceled]
    (after [EClose; EBrokerReturns] listening)).
  - vm_compute. reflexivity.
  - apply (possible_run [EConnect; ECtxDone 0 Canceled]). vm_compute. reflexivity.
Defined.
