(* ===== verification/LocalBroadcast.v ===== *)
(** * LocalBroadcast: asking the local network for a device
    ([outgoingBroadcastHandler] of [lib/local/client.go])

    A request of [Connect] is one packet.  The broadcast handler writes it to
    every IPv4 network with broadcast that the tracker lists, one call of
    [Beacon.Write] after the other; on the other side [listenRequests] decodes
    and verifies what its beacon reads. *)

From S2P Require Import Prelude GoSem Sha256 Packet Channel Proto Network LocalMessage.

Local Open Scope Z_scope.

(** ** The broadcast handler *)

(** [b.packet.WriteTo(&buf)] and its checks: the content of the buffer, or
    nothing when the packet is given up. *)
Definition buffer_packet (p : Packet) : option bytes :=
  match Packet_WriteTo p ([] : bytes) with
  | (Ret (n, err), buf) =>
      if negb (n =? Packet_Size p) then None
      else if is_nil err then Some buf else None
  | _ => None
  end.

(** [nw.IsBroadcast() && nw.IP.To4() != nil] *)
Definition broadcasts (nw : Net) : bool := IsBroadcast nw && negb (is_nil (To4 (IP (ipnet nw)))).

(** The calls of [c.beacon.Write] that the handler makes for a packet, in
    order.  [ins] is what the tracker gets from [net.Interfaces()]; the error of
    the tracker is not looked at, and an error of [Write] is only logged. *)
Definition outgoing_broadcast (p : Packet) (ins : list net_Interface + error) : list (bytes * Net) :=
  match buffer_packet p with
  | None => []
  | Some data => (data,.) <$> filter broadcasts (Listen ins).1
  end.

(** ** Properties *)

Lemma buffer_packet_wire p : fits p → buffer_packet p = Some (wire p).
Proof.
  intros Hp. unfold buffer_packet, Packet_WriteTo. rewrite LengthOf_fits by done. simpl.
  unfold mbind, M_bind, io_Write, buffer_io_Writer, mret, M_ret. simpl.
  rewrite zlen_Length_Bytes. unfold Packet_Size, LengthSize. by rewrite Z.eqb_refl.
Qed.

(** C36: a request reaches the networks of a device, and there the devices it
    is for.  What [request] makes is written, as one datagram, exactly to the
    IPv4 networks with broadcast of the interfaces that are up; a device that
    reads such a datagram gets the request back if its device key gives the
    same HMAC and at most [RequestMaxAge] has passed, and gets nothing
    otherwise. *)
Theorem local_broadcast_delivers `{LocalProtoLaws} (now now' : Time) (key key' : bytes) (r : Request)
    (ins : list net_Interface) :
  clock_ok now → clock_ok now' → u64_ok (Id r) → zlen (HandshakeMessage r) ≤ 1024 →
  Forall (λ i, up i → ∃ l, Addrs i = inl l) ins →
  ∃ p, request_packet now key r = inl p ∧
    (∀ data nw, (data, nw) ∈ outgoing_broadcast p (inl ins) ↔
       data = wire p ∧ ∃ i, i ∈ ins ∧ up i ∧ nw ∈ nets_of i ∧ broadcasts nw) ∧
    (∀ data nw, (data, nw) ∈ outgoing_broadcast p (inl ins) →
       (read_request now' key' data = Some r ↔
        hmac_sha256 key' [] = hmac_sha256 key [] ∧ nanoseconds now' ≤ t_sec now * Second + RequestMaxAge) ∧
       (read_request now' key' data = None ∨ read_request now' key' data = Some r)).
Proof.
  intros Hnow Hnow' Hid Hh Hins.
  destruct (local_request_roundtrip now now' key key' r) as (p & Hp & Hfit & Hread); [done..|].
  assert (∀ data nw, (data, nw) ∈ outgoing_broadcast p (inl ins) ↔
    data = wire p ∧ ∃ i, i ∈ ins ∧ up i ∧ nw ∈ nets_of i ∧ broadcasts nw) as Hout.
  { intros data nw. unfold outgoing_broadcast. rewrite buffer_packet_wire by done.
    assert ((Listen (inl ins)).1 = filter up ins ≫= nets_of) as ->.
    { unfold Listen. rewrite <- (app_nil_r ins) at 1. by rewrite Listen_loop_app. }
    rewrite list_elem_of_fmap. setoid_rewrite list_elem_of_filter. setoid_rewrite list_elem_of_bind.
    setoid_rewrite list_elem_of_filter. naive_solver. }
  exists p. split; [done|]. split; [done|]. intros data nw [-> _]%Hout. exact Hread.
Qed.

Lemma local_broadcast_delivers_witness :
  let r := mkLocalRequest 7 [Byte.x01; Byte.x02] in
  let i := mkInterface "eth0" 3 (inl [AddrIPNet (ipnet demo_net)]) in
  ∃ p, @request_packet wire_local demo_now demo_device_key r = inl p ∧
    ((wire p, mkNet (ipnet demo_net) i) ∈ outgoing_broadcast p (inl [i])) ∧
    @read_request wire_local demo_later demo_device_key (wire p) = Some r.
Proof.
  intros r i.
  destruct (@local_broadcast_delivers wire_local wire_local_laws demo_now demo_later demo_device_key
    demo_device_key r [i]) as (p & Hp & Hout & Hread);
    [split; [vm_compute; split; discriminate || reflexivity|vm_compute; split; discriminate || reflexivity]..
    |split; [discriminate|reflexivity]|discriminate|repeat constructor; by eexists|].
  assert ((wire p, mkNet (ipnet demo_net) i) ∈ outgoing_broadcast p (inl [i])) as Hin.
  { apply Hout. split; [done|]. exists i. split_and!; [by left|done|by left|done]. }
  exists p. split_and!; [done|done|]. apply (Hread _ _ Hin). split; [done|]. vm_compute. discriminate.
Defined.
