(* ===== verification/Commands.v ===== *)
(** * Commands: the programs that send and receive a file ([cmd])

    [cmd/base] and the [main] functions of [cmd/send], [cmd/receive] and
    [cmd/server].  A command runs the components of the library one after the
    other and ends the process at the first error ([log.Fatalln]).  What the
    components answer is a record of the model, a field per call; the transfer
    itself is the system of [TransferSystem]. *)

From Stdlib Require Import Ascii String.
From S2P Require Import Prelude GoSem Hex Files Block BlockProps Automaton Protocol Transfer TransferProps.
From S2P Require Import Loop TransferSystem Device Local RelayConn.

Local Open Scope Z_scope.

(** ** [cmd/base/base.go] *)

Definition IdentitySize : Z := 32.
Definition DeviceKeySize : Z := 32.
Definition Port : Z := 23520.
Definition BlockSize : Z := Z.shiftl 1 15.

Definition TrustAny : TrustStore := mkTrustStore (λ _, true) (λ _, true).
Definition TrustNone : TrustStore := mkTrustStore (λ _, false) (λ _, false).

Definition ToHex (identity : bytes) : string := EncodeToString identity.
Definition FromHex (h : string) : bytes * option error := DecodeString h.

Definition Fatalln {A} (text : string) : outcome A := Panic (Fatal text).

(** [if err != nil { log.Fatalln(text, err) }] *)
Definition fatal_if (text : string) (err : option error) : outcome unit :=
  match err with Some _ => Fatalln text | None => mret () end.

Definition DecodeHex (hex : string) (expectedSize : Z) : outcome bytes :=
  let '(data, err) := FromHex hex in
  fatal_if "failed to decode hex-encoded device identity:" err ;;
  if negb (zlen data =? expectedSize) then Fatalln "identity must be %v bytes long"
  else mret data.

(** The keys are printed: the public one in its X25519 form too, which can
    panic. *)
Definition GenerateKeys `{!Ed25519} {R} `{!io_Reader R} : M R (KeyPair * bytes) :=
  '(identityKey, err) ← GenerateKeyPair;
  lift (fatal_if "failed to generate identity key:" err) ;;
  '(hmacKey, err) ← GenerateHMACKey;
  lift (fatal_if "failed to generate hmac key:" err) ;;
  _ ← lift (Noise identityKey);
  mret (identityKey, default [] hmacKey).

(** ** [net.SplitHostPort] of the Go library *)

Definition AddrError (text : string) : error := ErrText text.

Definition IndexByte (c : ascii) (l : list ascii) : option nat := fst <$> list_find (c =.) l.
Definition LastIndexByte (c : ascii) (l : list ascii) : option nat :=
  (λ i, length l - 1 - i)%nat <$> IndexByte c (rev l).

Definition SplitHostPort (hostport : string) : string * string + error :=
  let l := list_ascii_of_string hostport in
  let text := string_of_list_ascii in
  let finish (j k i : nat) (host : list ascii) : string * string + error :=
    if negb (is_nil (IndexByte "["%char (drop j l))) then inr (AddrError "unexpected '[' in address")
    else if negb (is_nil (IndexByte "]"%char (drop k l))) then inr (AddrError "unexpected ']' in address")
    else inl (text host, text (drop (i + 1) l)) in
  match LastIndexByte ":"%char l with
  | None => inr (AddrError "missing port in address")
  | Some i =>
      if bool_decide (l !! 0%nat = Some "["%char) then
        match IndexByte "]"%char l with
        | None => inr (AddrError "missing ']' in address")
        | Some end_ =>
            if bool_decide (end_ + 1 = length l)%nat then inr (AddrError "missing port in address")
            else if bool_decide (end_ + 1 = i)%nat
            then finish 1%nat (end_ + 1)%nat i (take (end_ - 1) (drop 1 l))
            else if bool_decide (l !! (end_ + 1)%nat = Some ":"%char)
            then inr (AddrError "too many colons in address")
            else inr (AddrError "missing port in address")
        end
      else
        let host := take i l in
        if negb (is_nil (IndexByte ":"%char host)) then inr (AddrError "too many colons in address")
        else finish 0%nat 0%nat i host
  end.

Example SplitHostPort_examples :
  SplitHostPort "relay:23520" = inl ("relay", "23520") ∧
  SplitHostPort "[::1]:23520" = inl ("::1", "23520") ∧
  SplitHostPort "::1:23520" = inr (AddrError "too many colons in address") ∧
  SplitHostPort "relay" = inr (AddrError "missing port in address") ∧
  SplitHostPort "[::1]" = inr (AddrError "missing port in address") ∧
  SplitHostPort "a]:1" = inr (AddrError "unexpected ']' in address").
Proof. by vm_compute. Qed.

(** ** [cmd/send/main.go] *)
Section Send.
Context {C : Type}.

(** What the calls of [main] answer: [C] is the type of encrypted connections.
    [s_client_Close] is the deferred close of the local client. *)
Record SendEnv : Type := mkSendEnv {
  s_Open : string → option error;
  s_Stat : option error;
  s_Listen : option error;
  s_Connect : bytes → bytes → C + error;
  s_Dial : string → string → option error;
  s_Request : bytes → C + error;
  s_OpenChannel : C → option error;
  s_Run : C → option error;
  s_Close : C → option error;
  s_client_Close : option error
}.

(** The connection: over the local network, else over the relay server.
    [argServer] is the pointer that [flag.String] returns. *)
Definition send_connect (env : SendEnv) (argServer : option string) (identity key : bytes) : outcome C :=
  match s_Connect env identity key with
  | inl conn => mret conn
  | inr _ =>
      match argServer with
      | None => Fatalln "os.Exit(1)"
      | Some server =>
          match SplitHostPort server with
          | inr _ => Fatalln "failed to split server address into host and port:"
          | inl (host, port) =>
              fatal_if "failed to dial server:" (s_Dial env host port) ;;
              match s_Request env identity with
              | inl conn => mret conn
              | inr _ => Fatalln "failed to connect to device:"
              end
          end
      end
  end.

(** [main], with the arguments after the flags; [keys] is what [GenerateKeys]
    comes to. *)
Definition send_main (env : SendEnv) (args : list string) (argIdentity argKey : string)
    (argServer : option string) (keys : outcome (KeyPair * bytes)) : outcome C :=
  match args with
  | [argFilePath] =>
      targetIdentity ← DecodeHex argIdentity IdentitySize;
      targetHmacKey ← DecodeHex argKey DeviceKeySize;
      fatal_if "failed to open file" (s_Open env argFilePath) ;;
      fatal_if "failed to stat file:" (s_Stat env) ;;
      _ ← keys;
      fatal_if "failed to listen:" (s_Listen env) ;;
      conn ← send_connect env argServer targetIdentity targetHmacKey;
      fatal_if "failed to open channel:" (s_OpenChannel env conn) ;;
      fatal_if "failed to execute protocol:" (s_Run env conn) ;;
      fatal_if "failed to close session:" (s_Close env conn) ;;
      fatal_if "failed to close client:" (s_client_Close env) ;;
      mret conn
  | _ => Fatalln "expected a file name argument"
  end.
End Send.
Arguments SendEnv C : clear implicits.
Arguments mkSendEnv {C} _ _ _ _ _ _ _ _ _ _.

(** The sender of the protocol: the file in blocks of [BlockSize]. *)
Definition send_reader {F} (file : F) (size : Z) : Reader.Reader F := Reader.NewBlockReader file (u64 size) BlockSize.

(** ** [cmd/receive/main.go] *)

(** The function that [main] gives to [NewReceiver]: a buffer of the size that
    the header says. *)
Definition receive_buffer (meta : Metadata) (size : Z) : outcome (Buffer.Buffer + error) :=
  data ← make_slice Byte.x00 1 size;
  mret (inl (Buffer.NewBuffer data)).

(** The goroutine that accepts a connection. *)
Inductive source : Type := OverServer | OverLocal.

Definition accept_failed (src : source) : string :=
  match src with
  | OverServer => "failed to accept server connection:"
  | OverLocal => "failed to accept connection:"
  end.

Section Receive.
Context {C : Type}.

(** [r_accepts] are the connections and errors that the goroutines of the
    server and of the local network come to, in the order in which they do; the
    second one matters when it is an error before the transfer is over. *)
Record ReceiveEnv : Type := mkReceiveEnv {
  r_Dial : string → string → option error;
  r_Listen : option error;
  r_accepts : list (source * (C + error));
  r_AcceptChannel : C → option error;
  r_Run : C → option error;
  r_Close : C → option error
}.

(** [conn := <-inConn]: without an accepted connection [main] waits. *)
Definition receive_accept (env : ReceiveEnv) : outcome C :=
  match r_accepts env with
  | [] => Hang
  | (src, inr _) :: _ => Fatalln (accept_failed src)
  | (_, inl conn) :: (src, inr _) :: _ => Fatalln (accept_failed src)
  | (_, inl conn) :: _ => mret conn
  end.

Definition receive_main (env : ReceiveEnv) (serverAddr : option string)
    (keys : outcome (KeyPair * bytes)) : outcome C :=
  _ ← keys;
  match serverAddr with
  | None => mret ()
  | Some server =>
      match SplitHostPort server with
      | inr _ => Fatalln "failed to split server address into host and port:"
      | inl (host, port) => fatal_if "failed to dial server:" (r_Dial env host port)
      end
  end ;;
  fatal_if "failed to listen:" (r_Listen env) ;;
  conn ← receive_accept env;
  fatal_if "failed to accept channel:" (r_AcceptChannel env conn) ;;
  fatal_if "failed to execute protocol:" (r_Run env conn) ;;
  fatal_if "failed to close session:" (r_Close env conn) ;;
  mret conn.
End Receive.
Arguments ReceiveEnv C : clear implicits.
Arguments mkReceiveEnv {C} _ _ _ _ _ _.

(** ** [cmd/server/main.go] *)

(** [listen] is what [Server.Listen] comes to; a server that listens waits for
    ever.  The error of loading the certificate is ignored. *)
Definition server_main (port sessionPort : Z) (dir : string) (listen : outcome (option error)) : outcome unit :=
  if bool_decide (dir = "") then Fatalln "server crt and key directory is required"
  else if port =? 0 then Fatalln "server port cannot be 0"
  else if sessionPort =? 0 then Fatalln "session port cannot be 0"
  else
    _ ← NewServer port sessionPort;
    err ← listen;
    fatal_if "failed to listen:" err ;;
    Hang.

(** ** Properties *)

Lemma receive_buffer_ok meta size :
  0 ≤ size ≤ max_alloc →
  receive_buffer meta size = Ret (inl (Buffer.NewBuffer (replicate (Z.to_nat size) Byte.x00))).
Proof. intros. unfold receive_buffer. by rewrite make_slice_ok. Qed.

Lemma send_dims (d : bytes) : 0 < zlen d ≤ max_alloc → dims (zlen d) BlockSize.
Proof. unfold dims, max_alloc, BlockSize. rewrite Z.shiftl_mul_pow2 by lia. intros. lia. Qed.

(** The two commands transfer a file.  For every file that is not empty and
    for which the receiver can allocate a buffer, the sender of [send] (blocks
    of [2 ^ 15] bytes) and the receiver of [receive] (a buffer of the announced
    size) end, in every interleaving of their goroutines over a first-in
    first-out connection, without an error, and the buffer that [receive]
    prints has the contents of the file. *)
Theorem command_transfer {F} `{HF : FileReader F} (d : bytes) (meta : Metadata) (file : F) :
  0 < zlen d ≤ max_alloc → fr_holds file d →
  ∃ sc s0 rc r0,
    Sender.NewSender (Some meta) (send_reader file (zlen d)) = Ret (sc, s0) ∧
    Receiver.NewReceiver receive_buffer = Ret (rc, r0) ∧
    ∀ n s,
      steps_n (system_steps sc rc) n (mkSystem (Run_start s0) (Run_start r0) [] []) s →
      Z.of_nat n ≤ 8 * nblocks (zlen d) BlockSize + 18 ∧
      (stuck (system_steps sc rc) s →
         main (sender s) = Returned None ∧ main (receiver s) = Returned None ∧
         ∃ w, Receiver.writer (store (receiver s)) = Some w ∧ Buffer.Data (Writer.writer w) = d).
Proof.
  intros Hd Hf. pose proof (send_dims d Hd) as Hdims. unfold send_reader.
  rewrite u64_small by (unfold max_alloc in Hd; lia).
  destruct (transfer_runs d BlockSize meta file (Buffer.NewBuffer (replicate (Z.to_nat (zlen d)) Byte.x00))
    (replicate (Z.to_nat (zlen d)) Byte.x00) receive_buffer) as (sc & s0 & rc & r0 & HS & HR & H).
  - done.
  - lia.
  - done.
  - apply receive_buffer_ok. lia.
  - apply Buffer.NewBuffer_holds. rewrite zlen_replicate. unfold max_alloc, max_i64 in *. lia.
  - rewrite zlen_replicate. lia.
  - exists sc, s0, rc, r0. split; [done|]. split; [done|]. intros n s Hn.
    destruct (H n s Hn) as (Hle & _ & _ & _ & Hfin). split; [done|]. intros Hstuck.
    destruct (Hfin Hstuck) as (? & ? & w & Hw & (_ & Hdata & _)). split_and!; [done|done|]. by exists w.
Qed.

Lemma command_transfer_witness :
  ∃ sc s0 rc r0,
    Sender.NewSender (Some demo_meta) (send_reader (Buffer.NewBuffer demo_data) 5) = Ret (sc, s0) ∧
    Receiver.NewReceiver receive_buffer = Ret (rc, r0) ∧
    ∀ n s, steps_n (system_steps sc rc) n (mkSystem (Run_start s0) (Run_start r0) [] []) s →
      Z.of_nat n ≤ 26 ∧
      (stuck (system_steps sc rc) s →
         ∃ w, Receiver.writer (store (receiver s)) = Some w ∧ Buffer.Data (Writer.writer w) = demo_data).
Proof.
  destruct (command_transfer demo_data demo_meta (Buffer.NewBuffer demo_data)) as (sc & s0 & rc & r0 & HS & HR & H).
  - split; [reflexivity|discriminate].
  - apply Buffer.NewBuffer_holds. discriminate.
  - exists sc, s0, rc, r0. split; [exact HS|]. split; [exact HR|]. intros n s Hn.
    destruct (H n s Hn) as [Hle Hfin]. split; [exact Hle|]. intros Hs. by destruct (Hfin Hs) as (_ & _ & ?).
Defined.

(** When the steps of a command return. *)
Lemma outcome_bind_Ret {A B} (m : outcome A) (k : A → outcome B) (b : B) :
  (m ≫= k) = Ret b ↔ ∃ a, m = Ret a ∧ k a = Ret b.
Proof. destruct m; naive_solver. Qed.

Lemma fatal_if_Ret text err u : fatal_if text err = Ret u ↔ err = None.
Proof. destruct err, u; naive_solver. Qed.

Lemma DecodeHex_Ret h n d : DecodeHex h n = Ret d ↔ FromHex h = (d, None) ∧ zlen d = n.
Proof.
  unfold DecodeHex. destruct (FromHex h) as [l [e|]]; simpl; [naive_solver|].
  destruct (zlen l =? n) eqn:E; zbool; simpl; split; [intros [= <-]; done|by intros [[= ->] _]|done|].
  by intros [[= ->] ?].
Qed.

Lemma send_connect_Ret {C} (env : SendEnv C) server i k conn :
  send_connect env server i k = Ret conn ↔
  s_Connect env i k = inl conn ∨
  ∃ e srv host port, s_Connect env i k = inr e ∧ server = Some srv ∧
    SplitHostPort srv = inl (host, port) ∧ s_Dial env host port = None ∧ s_Request env i = inl conn.
Proof.
  unfold send_connect. destruct (s_Connect env i k) as [c|e].
  { split; [intros [= ->]; by left|intros [[= ->]|(? & ? & ? & ? & [=] & _)]; done]. }
  assert (∀ P Q : Prop, (P ↔ Q) → P ↔ (inr e : C + error) = inl conn ∨ Q) as Hor by (intros P Q [? ?]; split;
    [auto|by intros [[=]|?]; auto]).
  apply Hor. destruct server as [srv|]; [|split; [done|by intros (? & ? & ? & ? & _ & [=] & _)]].
  destruct (SplitHostPort srv) as [[host port]|e'] eqn:E.
  - rewrite outcome_bind_Ret. setoid_rewrite fatal_if_Ret. split.
    + intros (_ & Hd & Hr). exists e, srv, host, port. destruct (s_Request env i) as [c|]; [|done]. by injection Hr as ->.
    + intros (? & ? & ? & ? & _ & [= <-] & Hs & Hd & Hr). exists (). rewrite E in Hs. injection Hs as <- <-.
      by rewrite Hr.
  - split; [done|]. intros (? & ? & ? & ? & _ & [= <-] & Hs & _). congruence.
Qed.

(** Which connection [send] uses, and when it ends well.  The command
    returns exactly when its arguments are one file name and two keys of 32
    bytes in hexadecimal, everything it opens and runs succeeds, and the device
    was reached: over the local network, or else over the server, whose address
    must split into host and port. *)
Theorem send_succeeds {C} (env : SendEnv C) (args : list string) (identity key : string)
    (server : option string) (keys : outcome (KeyPair * bytes)) (conn : C) :
  send_main env args identity key server keys = Ret conn ↔
  ∃ path i k ks, args = [path] ∧ FromHex identity = (i, None) ∧ zlen i = IdentitySize ∧
    FromHex key = (k, None) ∧ zlen k = DeviceKeySize ∧ keys = Ret ks ∧
    s_Open env path = None ∧ s_Stat env = None ∧ s_Listen env = None ∧
    (s_Connect env i k = inl conn ∨
     ∃ e srv host port, s_Connect env i k = inr e ∧ server = Some srv ∧
       SplitHostPort srv = inl (host, port) ∧ s_Dial env host port = None ∧ s_Request env i = inl conn) ∧
    s_OpenChannel env conn = None ∧ s_Run env conn = None ∧ s_Close env conn = None ∧
    s_client_Close env = None.
Proof.
  unfold send_main. destruct args as [|path [|]];
    [split; [done|by intros (? & ? & ? & ? & [=] & _)]| |split; [done|by intros (? & ? & ? & ? & [=] & _)]].
  repeat setoid_rewrite outcome_bind_Ret. setoid_rewrite DecodeHex_Ret. repeat setoid_rewrite fatal_if_Ret.
  setoid_rewrite send_connect_Ret. split.
  - intros (i & [Hi Hli] & k & [Hk Hlk] & [] & ? & [] & ? & ks & ? & [] & ? & c & Hc & [] & ? & [] & ? & [] & ? &
      [] & ? & [= ->]).
    exists path, i, k, ks. by split_and!.
  - intros (path' & i & k & ks & [= <-] & ? & ? & ? & ? & ? & ? & ? & ? & ? & ? & ? & ? & ?).
    exists i. split; [done|]. exists k. split; [done|]. exists (). split; [done|]. exists (). split; [done|].
    exists ks. split; [done|]. exists (). split; [done|]. exists conn. split; [done|].
    exists (). split; [done|]. exists (). split; [done|]. exists (). split; [done|]. exists (). by split.
Qed.

(** [receive] needs a server: [flag.String] never returns a nil pointer, so
    without the flag the empty address is split, and the command ends before it
    listens on the local network. *)
Theorem receive_requires_server {C} (env : ReceiveEnv C) (ks : KeyPair * bytes) :
  receive_main env (Some "") (Ret ks) = Fatalln "failed to split server address into host and port:".
Proof. done. Qed.

(** The announced size is not checked: a header whose size is too large for an
    allocation makes [receive] panic, whoever sends it. *)
Theorem receive_header_panics (r : Receiver.Receiver Buffer.Buffer) (m : Metadata) (total_size block_size : Z)
    (h : StateHandle) :
  max_alloc < total_size → block_size ≠ 0 →
  (Receiver.readHeader receive_buffer (Header (Some m) total_size block_size) (r, h)).1 = Panic PanicMakeSlice.
Proof.
  intros Hs Hb. unfold Receiver.readHeader. rewrite (proj2 (Z.eqb_neq _ _) Hb).
  unfold receive_buffer, make_slice. rewrite Z.mul_1_r.
  by rewrite (proj2 (Z.ltb_lt max_alloc total_size) Hs), orb_true_r.
Qed.

(** Identities survive printing and parsing. *)
Theorem identity_hex_roundtrip (identity : bytes) :
  zlen identity = IdentitySize → DecodeHex (ToHex identity) IdentitySize = Ret identity.
Proof. intros H. apply DecodeHex_Ret. unfold FromHex, ToHex. by rewrite DecodeString_Encode. Qed.
