(* ===== verification/Program.v ===== *)
(** * Program: the two commands together

    [send] and [receive] from the handshake to the end of both sessions: the
    components of the other files put together.  The connections are those that a
    handshake comes to, over the local network ([LocalProps]) or over a relay
    ([RelayConn]); on the fresh sessions over these connections both sides make
    their calls, start their loops when their own call has returned and close
    their sessions when their loop has, all in any order ([OpenTransfer]), with
    the sender and the receiver of [Commands].

    The executions are those in which no broker is given a message that nobody
    waits for.  In the other ones the code loses this message: the request to
    open the channel, when it is taken before [AcceptChannel] has told its broker
    to wait ([Opening.channel_opens], [Session.session_early_open_lost]), or data
    that is taken before the channel is registered
    ([Session.session_early_data_lost]). *)

From S2P Require Import Prelude GoSem Packet Files Block BlockProps.
From S2P Require Import Automaton Protocol Secure Channel Proto Session SessionSystem SecureSession.
From S2P Require Import Transfer TransferProps Loop SessionChannel TransferSystem TransferSession SecureTransfer Opening OpenTransfer.
From S2P Require Import Relay Device Handshake LocalMessage Local LocalProps RelayConn Commands.

Local Open Scope Z_scope.

(** The two messages that open the first channel of a session. *)
Definition opening (m : Channel.Message) : Prop :=
  m = Channel.mkMessage (Some (Channel.Open 1 ChannelMessageTypeOpen)) ∨ m = Channel.mkMessage (Some (Channel.Accept 1)).

Section Program.
Context {F K : Type} `{HF : FileReader F} `{NoiseCipher K}.
Context `{!ProtoMessage Channel.Message} `{!ProtoRoundTrip Channel.Message (λ _ _, True)} `{!ProtoDataSize}.
Context `{!ProtoSize Channel.Message opening (λ _, 0)}.
Context `{!ProtoMessage Transfer.Message} `{!ProtoRoundTrip Transfer.Message same_message}.
Context (utf8 : string → Prop) `{!ProtoSize Transfer.Message (transfer_ok utf8) transfer_carried}.

(** What [send] and [receive] do once they have the connections [na] and [nb].
    The two calls are made on fresh sessions; from then on all goroutines take
    steps in any order in which no broker drops a message.  No loop panics or
    returns an error, every execution ends, and then the loops have returned
    without an error, the buffer of the receiver has the contents [d] of [file],
    and both sessions are closed. *)
Definition sends_and_receives {C D} (d : bytes) (name : string) (file : F)
    (na : noiseConn C K) (nb : noiseConn D K) : Prop :=
  ∃ net os sc s0 rc r0,
    secure_run [SecureRight (StartAccept TransferProtocol); SecureLeft (StartOpen TransferProtocol)] (NewSecure na nb) =
      Some (net, os) ∧
    Sender.NewSender (Some (mkMetadata name)) (send_reader file (zlen d)) = Ret (sc, s0) ∧
    Receiver.NewReceiver receive_buffer = Ret (rc, r0) ∧
    ∀ k s, steps_n (program_steps sc rc) k (mkStack (Run_start s0) (Run_start r0) net) s →
      Z.of_nat k ≤ 4 * (8 * nblocks (zlen d) BlockSize + 18) + 20 ∧
      (main (st_sender s) = Running ∨ main (st_sender s) = Returned None) ∧
      (main (st_receiver s) = Running ∨ main (st_receiver s) = Returned None) ∧
      (stuck (program_steps sc rc) s →
         main (st_sender s) = Returned None ∧ main (st_receiver s) = Returned None ∧
         (∃ w, Receiver.writer (store (st_receiver s)) = Some w ∧ fw_holds (Writer.writer w) d) ∧
         secure_closed (st_net s)).

(** The file, its name and its size are what the commands can handle. *)
Record sendable_file (d : bytes) (name : string) (file : F) : Prop := {
  sf_size : 0 < zlen d ≤ max_alloc;
  sf_file : fr_holds file d;
  sf_utf8 : utf8 name;
  sf_name : zlen (name_bytes (Some (mkMetadata name))) ≤ 65454
}.

(** The messages that a connection has to carry for it: 13 for the opening. *)
Definition messages_for (d : bytes) : nat := 13 + Z.to_nat (8 * nblocks (zlen d) BlockSize + 19).

Lemma messages_for_bound d : 0 < zlen d ≤ max_alloc → Z.of_nat (messages_for d) < max_messages.
Proof.
  intros Hd. pose proof (nblocks_bound _ _ (send_dims d Hd)). pose proof (nblocks_nonneg _ _ (send_dims d Hd)).
  unfold messages_for, max_messages, max_alloc in *. lia.
Qed.

Lemma opening_marshalled m : opening m → ∃ b, Marshal m = inl b ∧ Secure.sendable b.
Proof.
  intros Hm. destruct (marshal_bound m Hm) as (b & Hb & Hl); [done|]. exists b. split; [done|].
  change (zlen b ≤ 65519). lia.
Qed.

Lemma agreeing_connections {C D} d name file (na : noiseConn C K) (nb : noiseConn D K) :
  sendable_file d name file →
  in_sync (messages_for d) (writeCipher na) (readCipher nb) →
  in_sync (messages_for d) (writeCipher nb) (readCipher na) →
  sends_and_receives d name file na nb.
Proof.
  intros [Hd Hf Hu Hname] H1 H2. pose proof (send_dims d Hd) as Hdims.
  pose proof (nblocks_nonneg _ _ Hdims) as Hnb.
  destruct (opening_marshalled (Channel.mkMessage (Some (Channel.Open 1 ChannelMessageTypeOpen)))) as (bo & Ho & Fo); [by left|].
  destruct (opening_marshalled (Channel.mkMessage (Some (Channel.Accept 1)))) as (ba & Ha & Fa); [by right|].
  set (n := Z.to_nat (8 * nblocks (zlen d) BlockSize + 19)).
  destruct (calls_started TransferProtocol bo ba eq_refl Ho n na nb H1 H2) as (net & os & Hrun & Hat).
  destruct (NewSender_at d BlockSize (mkMetadata name) Hdims file Hf) as (s0 & HS & Hs0).
  destruct (NewReceiver_at d BlockSize receive_buffer) as (r0 & HR & Hr0).
  eexists net, os, _, s0, _, r0. split_and!; [exact Hrun| |exact HR|].
  { unfold send_reader. rewrite u64_small by (unfold max_alloc in Hd; lia). exact HS. }
  intros k s. apply (program_runs d BlockSize (mkMetadata name) Hdims (proj1 Hd) receive_buffer
    (Buffer.NewBuffer (replicate (Z.to_nat (zlen d)) Byte.x00)) (replicate (Z.to_nat (zlen d)) Byte.x00))
    with (bo := bo) (ba := ba) (n := n); try done; try lia.
  - apply receive_buffer_ok. lia.
  - apply Buffer.NewBuffer_holds. rewrite zlen_replicate. unfold max_alloc, max_i64 in *. lia.
  - rewrite zlen_replicate. lia.
  - intros i Hi. by apply (sender_msg_sendable (utf8 := utf8)).
  - intros i Hi. by apply (receiver_msg_sendable (utf8 := utf8)).
Qed.
End Program.

(** The format of Protobuf. *)
Lemma wire_opening : @ProtoSize Channel.Message wire_proto opening (λ _, 0).
Proof.
  intros m [->| ->] _; eexists; (split; [apply wire_marshal; (split; [split|]) || split|]); vm_compute; (discriminate || done).
Qed.

(** The clients that [send] and [receive] make. *)
Definition send_client {CS} (keyPair : KeyPair) (hmacKey : bytes) (suite : CS) : Local.client CS :=
  Local.mkClient Port keyPair hmacKey TrustNone suite.
Definition receive_client {CS} (keyPair : KeyPair) (hmacKey : bytes) (suite : CS) : Local.client CS :=
  Local.mkClient Port keyPair hmacKey TrustAny suite.

(** ** Properties *)

(** C3: two devices on one network: [receive] has accepted a request of [send],
    and they run the handshake.  Both come to a connection, which names the
    other device.  Over these connections they open a channel, transfer the file
    and close their sessions.  In every interleaving of all goroutines in which no
    broker drops a message, with the bytes in any segments, and with each side
    starting its loop as soon as its own call has returned: no loop panics or
    returns an error, and the execution ends, after a bounded number of steps,
    with the loops returned without an error, the contents of the file in the
    buffer that [receive] prints, and both sessions closed.  A broker drops the
    request when it takes it before [AcceptChannel] waits for it, and data when
    it takes it before the channel is registered; an execution with such a step is
    not covered, the code loses the message in it.  The file is not
    empty and a buffer of its size can be allocated; its name is in UTF-8 and has
    at most 65454 bytes.  Time does not pass: the read deadline that [receive]
    leaves on its connection ([LocalProps.local_accept_read_deadline]) is not
    reached. *)
Theorem local_send_receive {CS HS K F} `{HandshakeLaws CS HS K} `{!Ed25519} `{LocalProtoLaws} `{HF : FileReader F}
    `{!ProtoMessage Channel.Message} `{!ProtoRoundTrip Channel.Message (λ _ _, True)} `{!ProtoDataSize}
    `{!ProtoSize Channel.Message opening (λ _, 0)}
    `{!ProtoMessage Transfer.Message} `{!ProtoRoundTrip Transfer.Message same_message}
    (utf8 : string → Prop) `{!ProtoSize Transfer.Message (transfer_ok utf8) transfer_carried}
    (keys_a keys_b : KeyPair) (hmac_a hmac_b : bytes) (suite : CS) (ka kb e : DHKey) (rnd_a rnd_b : bytes) (id : Z)
    (d : bytes) (name : string) (file : F) :
  let a := send_client keys_a hmac_a suite in
  let b := receive_client keys_b hmac_b suite in
  peers a b ka kb e → u64_ok id → sendable_file utf8 d name file →
  handshake_run a b rnd_a rnd_b e (mkLocalRequest id (dh_Public e)) None
    (λ na nb, RemoteIdentity na = client_Identity b ∧ RemoteIdentity nb = dh_Public ka ∧
       sends_and_receives d name file na nb).
Proof.
  intros a b Hp Hid Hf. eapply handshake_run_mono; [|apply (handshake_fits a b ka kb e rnd_a rnd_b id (messages_for d))].
  - intros na nb ([S1 S2] & _ & ? & _ & ? & _). split_and!; [done|done|]. by eapply agreeing_connections.
  - done.
  - done.
  - apply messages_for_bound, Hf.
Qed.

(** C4: two devices that meet over a relay: [send] asks the relay for [receive],
    the relay passes the messages of the handshake on and both join the session.
    Over the connections that they get, the channel is opened, the file is
    transferred and the sessions are closed as over the local network: in every
    interleaving in which no broker drops a message that it takes too early. *)
Theorem relay_send_receive {CS HS K PA PB C F} `{HandshakeLaws CS HS K} `{!Ed25519}
    `{!io_Reader C} `{!io_Writer C} `{!RelayAPI PA C} `{!RelayAPI PB C}
    `{!ProtoMessage AuthenticateSession} `{!ProtoMessage SessionResponse} `{HF : FileReader F}
    `{!ProtoMessage Channel.Message} `{!ProtoRoundTrip Channel.Message (λ _ _, True)} `{!ProtoDataSize}
    `{!ProtoSize Channel.Message opening (λ _, 0)}
    `{!ProtoMessage Transfer.Message} `{!ProtoRoundTrip Transfer.Message same_message}
    (utf8 : string → Prop) `{!ProtoSize Transfer.Message (transfer_ok utf8) transfer_carried}
    (HandshakeKK : HandshakePattern) (suite : CS) (a b : RelayConn.Client) (ka kb : DHKey) (rnd_a rnd_b : bytes)
    (d : bytes) (name : string) (file : F) :
  is_KK HandshakeKK → Noise (key a) = Ret ka → Noise (key b) = Ret kb →
  key_pair suite ka → key_pair suite kb → sendable_file utf8 d name file →
  relay_handshake_run (PA := PA) (PB := PB) (C := C) HandshakeKK suite a b rnd_a rnd_b TrustAny
    (sends_and_receives d name file).
Proof.
  intros HK Ha Hb Hka Hkb Hf.
  apply (relay_handshake_ok HandshakeKK suite a b ka kb rnd_a rnd_b TrustAny (messages_for d)); try done.
  - apply Z.lt_le_incl, messages_for_bound, Hf.
  - intros na nb [S1 S2]. by eapply agreeing_connections.
Qed.

(** ** Witnesses *)

Lemma demo_file : sendable_file ascii_name demo_data "a" (Buffer.NewBuffer demo_data).
Proof.
  split; [split; [reflexivity|discriminate]|apply Buffer.NewBuffer_holds; discriminate| |discriminate].
  apply (bool_decide_unpack _). vm_compute. exact I.
Qed.

Lemma local_send_receive_witness :
  let key x := mkKeyPair (demo_key [x]) (demo_key [x]) in
  let a := send_client (key Byte.x0a) [] () in
  let b := receive_client (key Byte.x0b) [] () in
  @handshake_run unit demo_HS Z _ _ demo_ed25519 wire_local a b [] [] (demo_dh Byte.x0e)
    (mkLocalRequest 7 (demo_key [Byte.x0e])) None
    (λ na nb, RemoteIdentity na = demo_key [Byte.x0b] ∧ RemoteIdentity nb = demo_key [Byte.x0a] ∧
       @sends_and_receives _ _ _ _ wire_proto wire_transfer _ _ demo_data "a" (Buffer.NewBuffer demo_data) na nb).
Proof.
  intros key a b.
  apply (@local_send_receive unit demo_HS Z _ _ _ _ _ demo_ed25519 wire_local wire_local_laws _ _
    wire_proto (wire_roundtrip _) wire_data_size wire_opening wire_transfer wire_transfer_roundtrip
    ascii_name wire_transfer_size (key Byte.x0a) (key Byte.x0b) [] [] () (demo_dh Byte.x0a) (demo_dh Byte.x0b)
    (demo_dh Byte.x0e) [] [] 7 demo_data "a" (Buffer.NewBuffer demo_data)).
  - split_and!; first [reflexivity | apply zlen_demo_key].
  - split; [discriminate|reflexivity].
  - exact demo_file.
Defined.

Lemma relay_send_receive_witness :
  @relay_handshake_run unit demo_HS Z unit unit bytes _ demo_ed demo_session_conn _ demo_api demo_api
    demo_auth demo_response demo_KK () (demo_device Byte.x0a) (demo_device Byte.x0b) [] [] TrustAny
    (@sends_and_receives _ _ _ _ wire_proto wire_transfer _ _ demo_data "a" (Buffer.NewBuffer demo_data)).
Proof.
  apply (@relay_send_receive unit demo_HS Z unit unit bytes _ _ _ _ _ demo_ed demo_session_conn _ demo_api demo_api
    demo_auth demo_response _ _ wire_proto (wire_roundtrip _) wire_data_size wire_opening wire_transfer
    wire_transfer_roundtrip ascii_name wire_transfer_size demo_KK () (demo_device Byte.x0a) (demo_device Byte.x0b)
    (mkDHKey (demo_key [Byte.x0a]) (demo_key [Byte.x0a])) (mkDHKey (demo_key [Byte.x0b]) (demo_key [Byte.x0b]))
    [] [] demo_data "a" (Buffer.NewBuffer demo_data)).
  - repeat split.
  - reflexivity.
  - reflexivity.
  - apply zlen_demo_key.
  - apply zlen_demo_key.
  - exact demo_file.
Defined.
