(* ===== verification/Container.v ===== *)
(** * Container: synchronised test functions ([lib/util/container])

    Tests run a function in each of several containers; [WaitFor] and [Sync]
    make a function wait for a function of another container.  A [Container]
    listens for connections, a goroutine [handleRequests] keeps its tables, each
    connection has a goroutine [handleIncoming], and each call of [wait] starts a
    goroutine that dials the other container.  All of them are the record
    [container]; an execution is a sequence of [container_step]s.  The channels
    are unbuffered: a value passes when one side sends and the other receives.
    What the operating system answers is an argument of the events.  A panic of
    any goroutine ends the program. *)

From stdpp Require Import pretty.
From S2P Require Import Prelude GoSem Network.

Local Open Scope Z_scope.

Definition Port : Z := 10000.
Definition ReadyByte : byte := Byte.xff.

(** ** [util.go] *)

Definition fail (message : string) : panic := PanicString message.

(** [text] is [err.Error()] of an error of code outside the repository. *)
Definition failed (text : string) (message : string) (err : error) : panic :=
  PanicString ("failed " +:+ message +:+ " " +:+ Error text err).

(** [net.LookupIP] is given; an IP address of a name is its first one. *)
Definition ipOf (lookup : string → list bytes + error) (text hostname : string) : outcome bytes :=
  match lookup hostname with
  | inr err => Panic (failed text "to lookup ip of container:" err)
  | inl ips => index ips 0
  end.

(** [IP.Equal]: an IPv4 address equals its 16-byte form. *)
Definition v4InV6Prefix : bytes := replicate 10 Byte.x00 ++ [Byte.xff; Byte.xff].
Definition IP_Equal (ip x : bytes) : bool :=
  if zlen ip =? zlen x then bool_decide (ip = x)
  else if (zlen ip =? 4) && (zlen x =? 16) then bool_decide (x = v4InV6Prefix ++ ip)
  else if (zlen ip =? 16) && (zlen x =? 4) then bool_decide (ip = v4InV6Prefix ++ x)
  else false.

(** [net.JoinHostPort]. *)
Definition JoinHostPort (host port : string) : string :=
  if strings_Contains host ":" then "[" +:+ host +:+ "]:" +:+ port else host +:+ ":" +:+ port.

(** ** The container *)

(** The goroutine of [listen]. *)
Inductive listener_phase : Type :=
| NotListening
| Binding                          (* net.Listen *)
| Accepting.                       (* listener.Accept *)

(** The goroutine [handleIncoming] of a connection. *)
Inductive handler : Type :=
| HandlerReading                   (* conn.Read *)
| HandlerRequesting (fun_ : string)  (* c.requests <- *)
| HandlerWaiting (fun_ : string)     (* <-ready *)
| HandlerWriting (fun_ : string)     (* conn.Write *)
| HandlerReturned (fun_ : option string). (* [Some]: the ready byte was written *)

(** Which channel ended the [select] of a call of [wait]. *)
Inductive answer : Type := Contacted | Requested.

Inductive wait_phase : Type :=
| AtReady                          (* c.ready <- srcFuncName *)
| AtWaitFor                        (* c.waitFor <- *)
| AtSelect
| AtStore (a : answer)             (* atomic.StoreUint32(&done, 1) *)
| WaitReturned (a : answer).

(** The goroutine that a call of [wait] starts. *)
Inductive dialer : Type :=
| NoDialer
| Dialing                          (* net.Dial *)
| Loading                          (* atomic.LoadUint32(&done) *)
| DialWriting                      (* handleOutgoing: conn.Write *)
| DialReading                      (* handleOutgoing: conn.Read *)
| Contacting                       (* contacted <- true *)
| DialerReturned.

Record wait_call : Type := mkWait { w_dst : string; w_src : string; w_phase : wait_phase; w_dialer : dialer }.

(** The goroutine [handleRequests]: in its [select], or in a send.  [after] says
    what the send is part of. *)
Inductive sending : Type := AfterReady | AfterRequest.
Inductive requests_phase : Type :=
| NotStarted
| Selecting
| Responding (fun_ : string) (h : nat) (after : sending)   (* response <- true *)
| Notifying (w : nat) (fun_ : string) (h : nat).           (* waitRes <- true *)

(** Its maps; channels are references to the goroutine that receives from them. *)
Record tables : Type := mkTables {
  ready : gset string;
  completed : gset string;
  requests : gmap string nat;
  waits : gmap string nat
}.

Definition no_tables : tables := mkTables ∅ ∅ ∅ ∅.

(** Calls of [Run] and [RunAsync] that run their function; [<-c.runDone] of a
    nil channel ([None]) blocks for ever. *)
Inductive run_call : Type :=
| InFunction (async : bool)
| AwaitDone (ch : option nat)
| Resetting                        (* c.reset <- true *)
| RunReturned.

(** Calls of [Sync]: the wait it is in and those that are left. *)
Record sync_call : Type := mkSync { sy_current : option nat; sy_rest : list (string * string * string); sy_returned : bool }.

Record container : Type := mkContainer {
  host : string;
  port : Z;
  listens : Z;
  listener : listener_phase;
  broker : requests_phase;
  maps : tables;
  handlers : list handler;
  wait_calls : list wait_call;
  run_calls : list run_call;
  sync_calls : list sync_call;
  runDone : option nat;
  run_channels : list bool;        (* the channels made by RunAsync, and if they are closed *)
  crashed : option panic
}.
Implicit Types c : container.

Definition New (hostname : string) : container :=
  mkContainer hostname Port 0 NotListening NotStarted no_tables [] [] [] [] None [] None.

Definition Host c : string := host c.
Definition Addr c : string := JoinHostPort (host c) (pretty (port c)).

Definition set_listener l p c : container :=
  mkContainer (host c) (port c) (listens c) l p (maps c) (handlers c) (wait_calls c) (run_calls c)
    (sync_calls c) (runDone c) (run_channels c) (crashed c).
Definition set_listens n c : container :=
  mkContainer (host c) (port c) n (listener c) (broker c) (maps c) (handlers c) (wait_calls c) (run_calls c)
    (sync_calls c) (runDone c) (run_channels c) (crashed c).
Definition set_broker p t c : container :=
  mkContainer (host c) (port c) (listens c) (listener c) p t (handlers c) (wait_calls c) (run_calls c)
    (sync_calls c) (runDone c) (run_channels c) (crashed c).
Definition set_handlers hs c : container :=
  mkContainer (host c) (port c) (listens c) (listener c) (broker c) (maps c) hs (wait_calls c) (run_calls c)
    (sync_calls c) (runDone c) (run_channels c) (crashed c).
Definition set_waits ws c : container :=
  mkContainer (host c) (port c) (listens c) (listener c) (broker c) (maps c) (handlers c) ws (run_calls c)
    (sync_calls c) (runDone c) (run_channels c) (crashed c).
Definition set_runs rs d chs c : container :=
  mkContainer (host c) (port c) (listens c) (listener c) (broker c) (maps c) (handlers c) (wait_calls c) rs
    (sync_calls c) d chs (crashed c).
Definition set_syncs ss c : container :=
  mkContainer (host c) (port c) (listens c) (listener c) (broker c) (maps c) (handlers c) (wait_calls c)
    (run_calls c) ss (runDone c) (run_channels c) (crashed c).
Definition crash p c : container :=
  mkContainer (host c) (port c) (listens c) (listener c) (broker c) (maps c) (handlers c) (wait_calls c)
    (run_calls c) (sync_calls c) (runDone c) (run_channels c) (Some p).

Definition set_handler (i : nat) (h : handler) c : container := set_handlers (<[i := h]> (handlers c)) c.
Definition set_wait (w : nat) (p : wait_phase) (d : dialer) (x : wait_call) c : container :=
  set_waits (<[w := mkWait (w_dst x) (w_src x) p d]> (wait_calls c)) c.

(** ** [handleRequests] *)

(** The cases of the [select], up to their first send. *)
Definition case_reset c : container := set_broker Selecting no_tables c.

Definition case_ready (fun_ : string) c : container :=
  let t := maps c in
  let t := mkTables ({[fun_]} ∪ ready t) (completed t) (requests t) (waits t) in
  match requests t !! fun_ with
  | Some h => set_broker (Responding fun_ h AfterReady) t c
  | None => set_broker Selecting t c
  end.

(** The rest of the case of a request, after the waiting call was notified. *)
Definition answer_request (fun_ : string) (h : nat) (t : tables) c : container :=
  if bool_decide (fun_ ∈ ready t) then set_broker (Responding fun_ h AfterRequest) t c
  else set_broker Selecting (mkTables (ready t) (completed t) (<[fun_ := h]> (requests t)) (waits t)) c.

Definition case_request (fun_ : string) (h : nat) c : container :=
  if bool_decide (fun_ ∈ completed (maps c))
  then crash (fail "received a requests for a function that has already been completed") c
  else match waits (maps c) !! fun_ with
  | Some w => set_broker (Notifying w fun_ h) (maps c) c
  | None => answer_request fun_ h (maps c) c
  end.

Definition case_waitFor (fun_ : string) (w : nat) c : container :=
  let t := maps c in
  match waits t !! fun_ with
  | Some _ => crash (PanicString "received multiple wait requests for the same function") c
  | None => set_broker Selecting (mkTables (ready t) (completed t) (requests t) (<[fun_ := w]> (waits t))) c
  end.

(** A send of the broker meets the goroutine that receives. *)
Definition broker_sends c : option container :=
  let t := maps c in
  match broker c with
  | Responding fun_ h after =>
      match handlers c !! h with
      | Some (HandlerWaiting f) =>
          let reqs := match after with AfterReady => delete fun_ (requests t) | AfterRequest => requests t end in
          Some (set_handler h (HandlerWriting f)
                  (set_broker Selecting (mkTables (ready t) ({[fun_]} ∪ completed t) reqs (waits t)) c))
      | _ => None
      end
  | Notifying w fun_ h =>
      match wait_calls c !! w with
      | Some x =>
          match w_phase x with
          | AtSelect =>
              let t := mkTables (ready t) (completed t) (requests t) (delete fun_ (waits t)) in
              Some (answer_request fun_ h t (set_wait w (AtStore Requested) (w_dialer x) x c))
          | _ => None
          end
      | None => None
      end
  | _ => None
  end.

(** ** [handleIncoming] *)

(** [conn.SetReadDeadline] gives [derr], [conn.Read] the bytes [data] and [rerr]. *)
Definition incoming_read (text : string) (derr : option error) (data : bytes) (rerr : option error) (i : nat) c
  : container :=
  match derr, rerr with
  | Some e, _ => crash (failed text "to set read deadline:" e) c
  | None, Some e =>
      if bool_decide (e = EOF) && (zlen data =? 0) then set_handler i (HandlerReturned None) c
      else crash (failed text "to read request:" e) c
  | None, None => set_handler i (HandlerRequesting (String.string_of_list_byte data)) c
  end.

(** The write of the ready byte; [ok] is always true, as nothing else is sent. *)
Definition incoming_write (text : string) (derr werr : option error) (i : nat) (f : string) c : container :=
  match derr, werr with
  | Some e, _ => crash (failed text "to set write deadline:" e) c
  | None, Some e => crash (failed text "to write ready status:" e) c
  | None, None => set_handler i (HandlerReturned (Some f)) c
  end.

(** ** [wait] *)

(** Up to the first send; [listen] is started by the first call. *)
Definition start_wait (otherAddr dst src : string) c : container :=
  let c := if listens c =? 0 then set_listener Binding (broker c) (set_listens 1 c) else c in
  if bool_decide (Addr c = otherAddr) then crash (PanicString "waiting for the same container is forbidden") c
  else set_waits (wait_calls c ++ [mkWait dst src AtReady NoDialer]) c.

(** The sends to the broker and the last statement. *)
Definition wait_next (w : nat) (x : wait_call) c : option container :=
  match w_phase x, broker c with
  | AtReady, Selecting => Some (case_ready (w_src x) (set_wait w AtWaitFor (w_dialer x) x c))
  | AtWaitFor, Selecting => Some (case_waitFor (w_src x) w (set_wait w AtSelect Dialing x c))
  | AtStore a, _ => Some (set_wait w (WaitReturned a) (w_dialer x) x c)
  | _, _ => None
  end.

Definition is_returned (p : wait_phase) : bool := if p is WaitReturned _ then true else false.

(** [net.Dial]: after an error it is tried again. *)
Definition dial_result (err : option error) (w : nat) (x : wait_call) c : container :=
  match err with Some _ => c | None => set_wait w (w_phase x) Loading x c end.
Definition dial_load (w : nat) (x : wait_call) c : container :=
  set_wait w (w_phase x) (if is_returned (w_phase x) then DialerReturned else DialWriting) x c.

(** ** [handleOutgoing] *)

Definition outgoing_write (text : string) (derr werr : option error) (w : nat) (x : wait_call) c : container :=
  match derr, werr with
  | Some e, _ => crash (failed text "to set write deadline:" e) c
  | None, Some e => crash (failed text "to write request to connection" e) c
  | None, None => set_wait w (w_phase x) DialReading x c
  end.

(** At most one byte is read into a buffer of one byte, which is zero before. *)
Definition outgoing_read (text : string) (data : option byte) (rerr : option error) (w : nat) (x : wait_call) c
  : container :=
  let res := default Byte.x00 data in
  let n := if data is Some _ then 1 else 0 in
  match rerr with
  | Some e =>
      if bool_decide (e = EOF) && (n =? 0) then set_wait w (w_phase x) Contacting x c
      else crash (failed text "to read response:" e) c
  | None =>
      if negb (bool_decide (res = ReadyByte))
      then crash (fail ("received invalid response: [" +:+ pretty (byte_to_Z res) +:+ "] (" +:+ pretty n +:+ ")")) c
      else set_wait w (w_phase x) Contacting x c
  end.

(** ** [Sync] *)

(** A group: references to its containers with their addresses, and the name of
    the function that made it. *)
Record Group : Type := mkGroup { Containers : list (nat * string); CallerFunc : string }.

(** The waits of [Sync] in the container with the reference [self]. *)
Definition Sync (self : nat) (g : Group) : list (string * string * string) :=
  omap (λ '(r, addr), if decide (r = self) then None else Some (addr, CallerFunc g, CallerFunc g)) (Containers g).

(** It goes on when the wait it is in has returned. *)
Definition sync_next (j : nat) (y : sync_call) c : option container :=
  let go := match sy_current y with
            | Some w => match wait_calls c !! w with Some x => is_returned (w_phase x) | None => false end
            | None => true
            end in
  if sy_returned y || negb go then None
  else match sy_rest y with
  | [] => Some (set_syncs (<[j := mkSync (sy_current y) [] true]> (sync_calls c)) c)
  | (addr, dst, src) :: rest =>
      Some (start_wait addr dst src
        (set_syncs (<[j := mkSync (Some (length (wait_calls c))) rest false]> (sync_calls c)) c))
  end.

(** ** [Run], [RunAsync], [Done] and [Reset] *)

Section Hosts.
Context (lookup : string → list bytes + error) (hostname : string + error) (text : string).

Definition Hostname : outcome string :=
  match hostname with
  | inr err => Panic (failed text "to retrieve hostname:" err)
  | inl h => Ret h
  end.

Definition canRun c : outcome bool :=
  ip ← ipOf lookup text (Host c);
  name ← Hostname;
  own ← ipOf lookup text name;
  mret (IP_Equal ip own).

Definition HasIP (ip : bytes) c : outcome bool :=
  match lookup (Host c) with
  | inr err => Panic (failed text "to lookup the host's ip addresses:" err)
  | inl ips => Ret (existsb (λ i, negb (is_nil (To4 i)) && IP_Equal i ip) ips)
  end.

(** [RunAsync] makes a channel for [Done] first. *)
Definition start_run (async : bool) c : container :=
  match canRun c with
  | Ret true =>
      let (d, chs) := if async then (Some (length (run_channels c)), run_channels c ++ [false])
                      else (runDone c, run_channels c) in
      set_runs (run_calls c ++ [InFunction async]) d chs c
  | Ret false => set_runs (run_calls c ++ [RunReturned]) (runDone c) (run_channels c) c
  | Panic p => crash p c
  | Hang => c
  end.
End Hosts.

Definition set_run (i : nat) (r : run_call) c : container :=
  set_runs (<[i := r]> (run_calls c)) (runDone c) (run_channels c) c.

(** [close(c.runDone)] *)
Definition Done c : container :=
  match runDone c with
  | None => crash (fail "Done may only be called in a RunAsync context") c
  | Some ch =>
      match run_channels c !! ch with
      | Some false => set_runs (run_calls c) (runDone c) (<[ch := true]> (run_channels c)) c
      | _ => crash PanicClosed c
      end
  end.

(** The function of a [Run] returns; [c.runDone] is closed; [Reset] meets the
    broker. *)
Definition run_next (i : nat) (r : run_call) c : option container :=
  match r with
  | InFunction false => Some (set_run i Resetting c)
  | InFunction true => Some (set_run i (AwaitDone (runDone c)) c)
  | AwaitDone ch =>
      k ← ch;
      closed ← run_channels c !! k;
      if (closed : bool) then Some (set_run i Resetting c) else None
  | Resetting =>
      match broker c with Selecting => Some (set_run i RunReturned (case_reset c)) | _ => None end
  | RunReturned => None
  end.

(** ** Steps *)

Inductive event : Type :=
| EWait (otherAddr dst src : string)           (* WaitFor is called *)
| EWaitNext (w : nat)
| EBind (err : option error)                   (* net.Listen answers *)
| EAccept (err : option error)                 (* listener.Accept answers *)
| ERead (i : nat) (derr : option error) (data : bytes) (rerr : option error)
| ERequest (i : nat)                           (* c.requests <- request meets the broker *)
| EWrite (i : nat) (derr werr : option error)
| EBroker                                      (* a send of the broker meets its receiver *)
| EDial (w : nat) (err : option error)
| ELoad (w : nat)
| EOutWrite (w : nat) (derr werr : option error)
| EOutRead (w : nat) (data : option byte) (rerr : option error)
| EContact (w : nat)                           (* contacted <- true meets the select *)
| ESync (waits : list (string * string * string))
| ESyncNext (j : nat)
| ERun (async : bool) (lookup : string → list bytes + error) (hostname : string + error)
| ERunNext (i : nat)
| EDone.

(** [text] is the text of errors of code outside the repository. *)
Definition container_step (text : string) (e : event) c : option container :=
  if negb (is_nil (crashed c)) then None else
  match e with
  | EWait addr dst src => Some (start_wait addr dst src c)
  | EWaitNext w => x ← wait_calls c !! w; wait_next w x c
  | EBind err =>
      match listener c, err with
      | Binding, None => Some (set_listener Accepting Selecting c)
      | Binding, Some e => Some (crash (failed text "to listen:" e) c)
      | _, _ => None
      end
  | EAccept err =>
      match listener c, err with
      | Accepting, None => Some (set_handlers (handlers c ++ [HandlerReading]) c)
      | Accepting, Some e => Some (crash (failed text "to accept a connection:" e) c)
      | _, _ => None
      end
  | ERead i derr data rerr =>
      h ← handlers c !! i;
      match h with
      | HandlerReading =>
          if zlen data <=? 256 then Some (incoming_read text derr data rerr i c) else None
      | _ => None
      end
  | ERequest i =>
      h ← handlers c !! i;
      match h, broker c with
      | HandlerRequesting f, Selecting => Some (case_request f i (set_handler i (HandlerWaiting f) c))
      | _, _ => None
      end
  | EWrite i derr werr =>
      h ← handlers c !! i;
      match h with HandlerWriting f => Some (incoming_write text derr werr i f c) | _ => None end
  | EBroker => broker_sends c
  | EDial w err =>
      x ← wait_calls c !! w;
      match w_dialer x with Dialing => Some (dial_result err w x c) | _ => None end
  | ELoad w =>
      x ← wait_calls c !! w;
      match w_dialer x with Loading => Some (dial_load w x c) | _ => None end
  | EOutWrite w derr werr =>
      x ← wait_calls c !! w;
      match w_dialer x with DialWriting => Some (outgoing_write text derr werr w x c) | _ => None end
  | EOutRead w data rerr =>
      x ← wait_calls c !! w;
      match w_dialer x with DialReading => Some (outgoing_read text data rerr w x c) | _ => None end
  | EContact w =>
      x ← wait_calls c !! w;
      match w_dialer x, w_phase x with
      | Contacting, AtSelect => Some (set_wait w (AtStore Contacted) DialerReturned x c)
      | _, _ => None
      end
  | ESync l => Some (set_syncs (sync_calls c ++ [mkSync None l false]) c)
  | ESyncNext j => y ← sync_calls c !! j; sync_next j y c
  | ERun async lookup hostname => Some (start_run lookup hostname text async c)
  | ERunNext i => r ← run_calls c !! i; run_next i r c
  | EDone => Some (Done c)
  end.

Fixpoint container_run (text : string) (es : list event) c : option container :=
  match es with
  | [] => Some c
  | e :: es => c ← container_step text e c; container_run text es c
  end.
