(* ===== verification/ContainerProps.v ===== *)
(** * ContainerProps: the synchronisation of test functions

    The invariant of one container ([Container]), two containers that dial each
    other, and what a call of [WaitFor] or [Sync] that returned has waited for. *)

From S2P Require Import Prelude GoSem Network Container.

Local Open Scope Z_scope.
Implicit Types (c : container) (x : wait_call) (h : handler) (f : string).

(** ** One container *)

(** The function that a connection asks for, once it was read; and when the
    answer may be or was written. *)
Definition handler_name h : option string :=
  match h with
  | HandlerRequesting f | HandlerWaiting f | HandlerWriting f => Some f
  | HandlerReturned o => o
  | HandlerReading => None
  end.
Definition answered h : bool :=
  match h with HandlerWriting _ | HandlerReturned (Some _) => true | _ => false end.

(** How the [select] of a call of [wait] ended. *)
Definition ended x : option answer :=
  match w_phase x with AtStore a | WaitReturned a => Some a | _ => None end.

(** The call has told the broker that its function is ready; it has come to its
    [select], before which it starts the goroutine that dials. *)
Definition announces x : bool := match w_phase x with AtReady => false | _ => true end.
Definition selects x : bool := match w_phase x with AtReady | AtWaitFor => false | _ => true end.

(** How far that goroutine is: it dials, it is connected, it has returned. *)
Definition dial_rank (d : dialer) : nat :=
  match d with NoDialer => 0 | Dialing => 1 | DialerReturned => 3 | _ => 2 end.

Definition announced f c : Prop :=
  ∃ w x, wait_calls c !! w = Some x ∧ w_src x = f ∧ announces x = true.
Definition named f c : Prop := ∃ i h, handlers c !! i = Some h ∧ handler_name h = Some f.

(** What later states keep. *)
Definition later_handler h h' : Prop :=
  (∀ f, handler_name h = Some f → handler_name h' = Some f) ∧ (answered h = true → answered h' = true) ∧
  (∀ o, h = HandlerReturned o → h' = HandlerReturned o).
Definition later_wait x x' : Prop :=
  w_src x' = w_src x ∧ w_dst x' = w_dst x ∧ (announces x = true → announces x' = true) ∧
  (dial_rank (w_dialer x) ≤ dial_rank (w_dialer x'))%nat ∧ (∀ a, ended x = Some a → ended x' = Some a).

Record grows c c' : Prop := {
  gr_handlers i h : handlers c !! i = Some h → ∃ h', handlers c' !! i = Some h' ∧ later_handler h h';
  gr_waits w x : wait_calls c !! w = Some x → ∃ x', wait_calls c' !! w = Some x' ∧ later_wait x x'
}.

Lemma later_handler_refl h : later_handler h h.
Proof. by split_and!. Qed.
Lemma later_wait_refl x : later_wait x x.
Proof. by split_and!. Qed.
#[local] Hint Resolve later_handler_refl later_wait_refl : core.

Lemma grows_same c c' : handlers c' = handlers c → wait_calls c' = wait_calls c → grows c c'.
Proof. intros E1 E2. split; intros i y Hy; exists y; by rewrite ?E1, ?E2. Qed.

Lemma container_grows_trans c1 c2 c3 : grows c1 c2 → grows c2 c3 → grows c1 c3.
Proof.
  intros [H1 H2] [H3 H4]. split.
  - intros i h (h' & Hh & A1 & A2 & A3)%H1. apply H3 in Hh as (h2 & Hh & B1 & B2 & B3).
    exists h2. split; [done|]. split_and!; auto.
  - intros w x (x' & Hx & A1 & A2 & A3 & A4 & A5)%H2. apply H4 in Hx as (x2 & Hx & B1 & B2 & B3 & B4 & B5).
    exists x2. split; [done|]. split_and!; (congruence || lia || auto).
Qed.

Lemma grows_handler i h h' c : handlers c !! i = Some h → later_handler h h' → grows c (set_handler i h' c).
Proof.
  intros Hi Hl. split; [|by eauto]. intros j y Hy. simpl. destruct (decide (i = j)) as [<-|].
  - rewrite list_lookup_insert_eq by (by eapply lookup_lt_Some). simplify_eq. eauto.
  - rewrite list_lookup_insert_ne by done. eauto.
Qed.

Lemma grows_wait w x p d c :
  wait_calls c !! w = Some x → later_wait x (mkWait (w_dst x) (w_src x) p d) → grows c (set_wait w p d x c).
Proof.
  intros Hw Hl. split; [by eauto|]. intros v y Hy. simpl. destruct (decide (w = v)) as [<-|].
  - rewrite list_lookup_insert_eq by (by eapply lookup_lt_Some). simplify_eq. eauto.
  - rewrite list_lookup_insert_ne by done. eauto.
Qed.

Lemma announced_grows f c c' : grows c c' → announced f c → announced f c'.
Proof.
  intros [_ H] (w & x & Hw & <- & Ha). destruct (H w x Hw) as (x' & Hw' & Es & _ & Ha' & _).
  exists w, x'. auto.
Qed.

Lemma named_grows f c c' : grows c c' → named f c → named f c'.
Proof.
  intros [H _] (i & h & Hi & Hn). destruct (H i h Hi) as (h' & Hi' & Hn' & _). exists i, h'. auto.
Qed.

(** *** The invariant *)

Definition handler_ok c h : Prop := ∀ f, handler_name h = Some f → answered h = true → announced f c.

Record wait_ok c x : Prop := {
  wo_dialer : w_dialer x ≠ NoDialer → selects x = true;
  wo_requested : ended x = Some Requested → named (w_src x) c
}.

(** The tables of the broker, and the send that it is in. *)
Record broker_ok c : Prop := {
  bo_ready f : f ∈ ready (maps c) → announced f c;
  bo_requests f i : requests (maps c) !! f = Some i → handlers c !! i = Some (HandlerWaiting f);
  bo_disjoint f i : f ∈ ready (maps c) → requests (maps c) !! f = Some i → broker c = Responding f i AfterReady;
  bo_waits f w : waits (maps c) !! f = Some w → ∃ x, wait_calls c !! w = Some x ∧ w_src x = f;
  bo_phase : match broker c with
             | Responding f i _ => handlers c !! i = Some (HandlerWaiting f) ∧ f ∈ ready (maps c)
             | Notifying w f i => handlers c !! i = Some (HandlerWaiting f) ∧ waits (maps c) !! f = Some w
             | _ => True
             end
}.

(** The broker is started by [listen], which the first call of [wait] starts. *)
Record started_ok c : Prop := {
  so_broker : broker c ≠ NotStarted → listener c = Accepting;
  so_listener : listener c ≠ NotListening → listens c ≠ 0
}.

Record inv c : Prop := {
  in_started : started_ok c;
  in_broker : broker_ok c;
  in_handlers i h : handlers c !! i = Some h → handler_ok c h;
  in_waits w x : wait_calls c !! w = Some x → wait_ok c x
}.

Lemma handler_ok_grows c c' h : grows c c' → handler_ok c h → handler_ok c' h.
Proof. intros Hg Ho f Hn Ha. eapply announced_grows; eauto. Qed.
Lemma wait_ok_grows c c' x : grows c c' → wait_ok c x → wait_ok c' x.
Proof. intros Hg [H1 H2]. split; [done|]. intros Hr. eapply named_grows; eauto. Qed.

(** A new phase and new tables of the broker. *)
Lemma container_broker_inv p t c :
  inv c → broker c ≠ NotStarted → broker_ok (set_broker p t c) → inv (set_broker p t c).
Proof.
  intros [[S1 S2] _ Hh Hw] Hs Hb. pose proof (grows_same c (set_broker p t c) eq_refl eq_refl) as Hg.
  split; [by split; auto|done|..].
  - intros i h Hi. eapply handler_ok_grows; eauto.
  - intros w x Hi. eapply wait_ok_grows; eauto.
Qed.

(** Only the handlers, the calls, the tables and the broker matter. *)
Lemma inv_same c c' :
  inv c → maps c' = maps c → broker c' = broker c → handlers c' = handlers c → wait_calls c' = wait_calls c →
  started_ok c' → inv c'.
Proof.
  intros [_ Hb Hh Hw] E1 E2 E3 E4 Hs. pose proof (grows_same c c' E3 E4) as Hg. split; [done|..].
  - destruct Hb as [H1 H2 H3 H4 H5]. split; rewrite ?E1, ?E2, ?E3, ?E4; auto.
    intros f Hf. eapply announced_grows; eauto.
  - intros i h Hi. rewrite E3 in Hi. eapply handler_ok_grows; eauto.
  - intros w x Hi. rewrite E4 in Hi. eapply wait_ok_grows; eauto.
Qed.

(** The broker has no reference to the response channel of a handler. *)
Definition unreferenced (i : nat) c : Prop :=
  (∀ f, requests (maps c) !! f ≠ Some i) ∧
  match broker c with Responding _ j _ | Notifying _ _ j => j ≠ i | _ => True end.

(** A handler goes on that the broker does not answer. *)
Lemma set_handler_inv i h h' c :
  inv c → handlers c !! i = Some h → (∀ f, h ≠ HandlerWaiting f) ∨ unreferenced i c → later_handler h h' →
  handler_ok c h' → inv (set_handler i h' c).
Proof.
  intros [[S1 S2] [B1 B2 B3 B4 B5] Hh Hw] Hi Hn Hl Hok. pose proof (grows_handler i h h' c Hi Hl) as Hg.
  assert (∀ j f, handlers c !! j = Some (HandlerWaiting f) → (unreferenced i c → j ≠ i) →
    handlers (set_handler i h' c) !! j = Some (HandlerWaiting f)) as Hkeep.
  { intros j f Hj Hu. simpl. rewrite list_lookup_insert_ne; [done|]. intros <-.
    destruct Hn as [Hn|Hn]; [|by destruct (Hu Hn)]. rewrite Hi in Hj. simplify_eq. by destruct (Hn f). }
  split; [by split|..].
  - split; simpl; eauto.
    + intros f j Hj. apply Hkeep; [auto|]. intros [Hu _] ->. by destruct (Hu f).
    + destruct (broker c) eqn:Eb; try done; destruct_ands; split_and?; auto; apply Hkeep; try done;
        intros [_ Hu]; by rewrite Eb in Hu.
  - intros j y Hy. eapply handler_ok_grows; [exact Hg|]. simpl in Hy.
    apply list_lookup_insert_Some in Hy as [(_ & <- & _)|(_ & Hy)]; eauto.
  - intros w x Hx. eapply wait_ok_grows; eauto.
Qed.

(** A call goes on. *)
Lemma set_wait_inv w x p d c :
  inv c → wait_calls c !! w = Some x → later_wait x (mkWait (w_dst x) (w_src x) p d) →
  wait_ok c (mkWait (w_dst x) (w_src x) p d) → inv (set_wait w p d x c).
Proof.
  intros [[S1 S2] [B1 B2 B3 B4 B5] Hh Hw] Hx Hl Hok. pose proof (grows_wait w x p d c Hx Hl) as Hg.
  split; [by split|..].
  - split; simpl; eauto.
    + intros f Hf. eapply announced_grows; eauto.
    + intros f v (y & Hv & Hf)%B4. destruct (gr_waits _ _ Hg _ _ Hv) as (y' & Hy' & Es & _).
      exists y'. split; [exact Hy'|congruence].
  - intros i h Hi. eapply handler_ok_grows; eauto.
  - intros v y Hy. eapply wait_ok_grows; [exact Hg|]. simpl in Hy.
    apply list_lookup_insert_Some in Hy as [(_ & <- & _)|(_ & Hy)]; eauto.
Qed.

(** *** The cases of the broker *)

Lemma announced_broker f p t c : announced f c → announced f (set_broker p t c).
Proof. done. Qed.
Lemma broker_announced f p t c : announced f (set_broker p t c) → announced f c.
Proof. done. Qed.
#[local] Hint Resolve announced_broker : core.
#[local] Hint Immediate broker_announced : core.

Lemma crash_inv p c : inv c → inv (crash p c).
Proof. intros Hi. eapply inv_same; try done. by destruct (in_started _ Hi). Qed.

Lemma case_ready_inv f c : inv c → broker c = Selecting → announced f c → inv (case_ready f c).
Proof.
  intros Hi Hb Ha. pose proof (in_broker _ Hi) as [B1 B2 B3 B4 B5]. unfold case_ready. cbn [requests].
  destruct (requests (maps c) !! f) as [i|] eqn:E; (apply container_broker_inv; [done|by rewrite Hb|]); split; simpl; eauto.
  - intros g [->%elem_of_singleton|?]%elem_of_union; auto.
  - intros g j [->%elem_of_singleton|Hg]%elem_of_union Hj; [congruence|]. rewrite (B3 g j Hg Hj) in Hb. done.
  - split; [auto|set_solver].
  - intros g [->%elem_of_singleton|?]%elem_of_union; auto.
  - intros g j [->%elem_of_singleton|Hg]%elem_of_union Hj; [congruence|]. rewrite (B3 g j Hg Hj) in Hb. done.
Qed.

(** [t] are the tables once the waiting call was notified. *)
Lemma answer_request_inv f i t c :
  inv c → broker c ≠ NotStarted → broker_ok (set_broker Selecting t c) →
  handlers c !! i = Some (HandlerWaiting f) → inv (answer_request f i t c).
Proof.
  intros Hi Hs [B1 B2 B3 B4 _] Hh. simpl in *. unfold answer_request.
  case_bool_decide; apply container_broker_inv; try done; split; simpl; try done.
  - intros g j Hg Hj. by specialize (B3 g j Hg Hj).
  - intros g j [[<- <-]|[_ Hj]]%lookup_insert_Some; auto.
  - intros g j Hg [[<- <-]|[_ Hj]]%lookup_insert_Some; [done|]. eauto.
Qed.

Lemma selecting_ok c : inv c → (∀ f i, broker c ≠ Responding f i AfterReady) → broker_ok (set_broker Selecting (maps c) c).
Proof. intros [_ [B1 B2 B3 B4 B5] _ _] Hb. split; simpl; auto. intros f i Hf Hr. by destruct (Hb f i); auto. Qed.

Lemma case_request_inv f i c :
  inv c → broker c = Selecting → handlers c !! i = Some (HandlerWaiting f) → inv (case_request f i c).
Proof.
  intros Hi Hb Hh. unfold case_request. case_bool_decide; [by apply crash_inv|].
  destruct (waits (maps c) !! f) as [w|] eqn:E.
  - pose proof (in_broker _ Hi) as [B1 B2 B3 B4 B5]. apply container_broker_inv; [done|congruence|]. split; simpl; auto.
    intros g j Hg Hj. by rewrite (B3 g j) in Hb.
  - apply answer_request_inv; [done|congruence| |done]. apply selecting_ok; [done|]. by rewrite Hb.
Qed.

Lemma case_waitFor_inv f w x c :
  inv c → broker c = Selecting → wait_calls c !! w = Some x → w_src x = f → inv (case_waitFor f w c).
Proof.
  intros Hi Hb Hx Hs. unfold case_waitFor. destruct (waits (maps c) !! f) eqn:E; [by apply crash_inv|].
  pose proof (in_broker _ Hi) as [B1 B2 B3 B4 B5]. apply container_broker_inv; [done|congruence|]. split; simpl; auto.
  - intros g j Hg Hj. by rewrite (B3 g j) in Hb.
  - intros g v [[<- <-]|[_ Hv]]%lookup_insert_Some; eauto.
Qed.

Lemma case_reset_inv c : inv c → broker c = Selecting → inv (case_reset c).
Proof. intros Hi Hb. apply container_broker_inv; [done|by rewrite Hb|]. split; simpl; set_solver. Qed.

Lemma broker_sends_inv c c' : inv c → broker_sends c = Some c' → inv c' ∧ grows c c'.
Proof.
  intros Hi H. pose proof (in_broker _ Hi) as [B1 B2 B3 B4 B5]. unfold broker_sends in H.
  destruct (broker c) as [| |f i after|w f i] eqn:Eb; try discriminate.
  - destruct B5 as [Hh Hf]. rewrite Hh in H. injection H as <-.
    set (t := mkTables _ _ _ _). assert (later_handler (HandlerWaiting f) (HandlerWriting f)) as Hl by done.
    assert (inv (set_broker Selecting t c)) as Hi'.
    { apply container_broker_inv; [done|congruence|]. split; simpl; auto.
      - intros g j Hj. destruct after; [apply lookup_delete_Some in Hj as [_ Hj]|]; auto.
      - intros g j Hg Hj. destruct after; [apply lookup_delete_Some in Hj as [Hne Hj]|];
          specialize (B3 g j Hg Hj); congruence. }
    split; [|eapply container_grows_trans; [apply (grows_same c (set_broker Selecting t c)); done|by eapply grows_handler]].
    eapply (set_handler_inv i (HandlerWaiting f)); [done|done|right|done|].
    + split; [|done]. simpl. intros g Hg. destruct after.
      * apply lookup_delete_Some in Hg as [Hne Hg%B2]. congruence.
      * pose proof (B2 g i Hg) as Hh'. assert (g = f) as -> by congruence. specialize (B3 f i Hf Hg). congruence.
    + intros g [= <-] _. by apply (B1 f).
  - destruct B5 as [Hh Hw]. destruct (B4 f w Hw) as (x & Hx & Hs). rewrite Hx in H.
    destruct (w_phase x) eqn:Ep; try discriminate. injection H as <-.
    assert (later_wait x (mkWait (w_dst x) (w_src x) (AtStore Requested) (w_dialer x))) as Hl.
    { split_and!; try done. unfold ended. by rewrite Ep. }
    pose proof (grows_wait w x (AtStore Requested) (w_dialer x) c Hx Hl) as Hg.
    assert (inv (set_wait w (AtStore Requested) (w_dialer x) x c)) as Hi'.
    { apply set_wait_inv; [done|done|done|]. split; [done|]. intros _. exists i, (HandlerWaiting f). simpl. by rewrite Hs. }
    split; [|eapply container_grows_trans; [exact Hg|]; unfold answer_request; case_match; by apply grows_same].
    apply answer_request_inv; [done|by simpl; rewrite Eb| |done]. pose proof (in_broker _ Hi') as [C1 C2 C3 C4 _]. split; simpl; auto.
    + intros g j Hg' Hj. specialize (B3 g j Hg' Hj). congruence.
    + intros g v [_ Hv]%lookup_delete_Some. by apply C4.
Qed.

(** *** Every step keeps the invariant *)

Lemma add_wait_inv dst src c :
  inv c → inv (set_waits (wait_calls c ++ [mkWait dst src AtReady NoDialer]) c) ∧
    grows c (set_waits (wait_calls c ++ [mkWait dst src AtReady NoDialer]) c).
Proof.
  intros [[S1 S2] [B1 B2 B3 B4 B5] Hh Hw]. set (c' := set_waits _ c).
  assert (grows c c') as Hg.
  { split; [by eauto|]. intros w x Hx. exists x. split; [|done]. simpl. by apply lookup_app_l_Some. }
  split; [|done]. split; [by split|..].
  - split; simpl; auto.
    + intros f Hf. eapply announced_grows; eauto.
    + intros f w (x & Hx & Hs)%B4. exists x. split; [by apply lookup_app_l_Some|done].
  - intros i h Hi. eapply handler_ok_grows; eauto.
  - intros w x Hx. eapply wait_ok_grows; [exact Hg|]. simpl in Hx.
    apply lookup_app_Some in Hx as [Hx|[_ Hx]]; [by eauto|].
    apply list_lookup_singleton_Some in Hx as [_ <-]. by split.
Qed.

Lemma add_handler_inv c :
  inv c → inv (set_handlers (handlers c ++ [HandlerReading]) c) ∧
    grows c (set_handlers (handlers c ++ [HandlerReading]) c).
Proof.
  intros [[S1 S2] [B1 B2 B3 B4 B5] Hh Hw]. set (c' := set_handlers _ c).
  assert (grows c c') as Hg.
  { split; [|by eauto]. intros i h Hi. exists h. split; [|done]. simpl. by apply lookup_app_l_Some. }
  split; [|done]. split; [by split|..].
  - split; simpl; auto.
    + intros f i Hi%B2. by apply lookup_app_l_Some.
    + destruct (broker c); try done; destruct_ands; split_and?; try done; by apply lookup_app_l_Some.
  - intros i h Hi. eapply handler_ok_grows; [exact Hg|]. simpl in Hi.
    apply lookup_app_Some in Hi as [Hi|[_ Hi]]; [by eauto|].
    by apply list_lookup_singleton_Some in Hi as [_ <-].
  - intros w x Hx. eapply wait_ok_grows; eauto.
Qed.

(** A part of the state that the invariant does not mention. *)
Lemma other_inv c c' :
  inv c → maps c' = maps c → broker c' = broker c → handlers c' = handlers c → wait_calls c' = wait_calls c →
  started_ok c' → inv c' ∧ grows c c'.
Proof. intros. split; [by eapply inv_same|by apply grows_same]. Qed.

Lemma handler_step_inv i h h' c :
  inv c → handlers c !! i = Some h → (∀ f, h ≠ HandlerWaiting f) → later_handler h h' → handler_ok c h' →
  inv (set_handler i h' c) ∧ grows c (set_handler i h' c).
Proof. intros. split; [eapply set_handler_inv; eauto|by eapply grows_handler]. Qed.

Lemma wait_step_inv w x p d c :
  inv c → wait_calls c !! w = Some x → later_wait x (mkWait (w_dst x) (w_src x) p d) →
  wait_ok c (mkWait (w_dst x) (w_src x) p d) → inv (set_wait w p d x c) ∧ grows c (set_wait w p d x c).
Proof. intros. split; [by apply set_wait_inv|by apply grows_wait]. Qed.

(** The dialing goroutine goes on. *)
Lemma dialer_step_inv w x d c :
  inv c → wait_calls c !! w = Some x → w_dialer x ≠ NoDialer → (dial_rank (w_dialer x) ≤ dial_rank d)%nat →
  inv (set_wait w (w_phase x) d x c) ∧ grows c (set_wait w (w_phase x) d x c).
Proof.
  intros Hi Hx Hd Hd'. pose proof (in_waits _ Hi _ _ Hx) as [W1 W2].
  apply wait_step_inv; [done|done|by split_and!|]. split; [|done]. intros _. by apply W1.
Qed.

Lemma start_wait_inv addr dst src c : inv c → inv (start_wait addr dst src c) ∧ grows c (start_wait addr dst src c).
Proof.
  intros Hi. unfold start_wait. set (c0 := if listens c =? 0 then _ else c).
  assert (inv c0 ∧ grows c c0) as [Hi0 Hg0].
  { subst c0. destruct (Z.eqb_spec (listens c) 0) as [E|]; [|by split; [|apply grows_same]].
    apply other_inv; try done. destruct (in_started _ Hi) as [S1 S2]. split; simpl; [|done].
    intros Hb. assert (listener c ≠ NotListening) as Hn by (rewrite S1 by done; done). by destruct (S2 Hn). }
  case_bool_decide.
  - split; [by apply crash_inv|]. eapply container_grows_trans; [exact Hg0|]. by apply grows_same.
  - destruct (add_wait_inv dst src c0 Hi0) as [Hi1 Hg1]. split; [done|]. by eapply container_grows_trans.
Qed.

Lemma crash_step_inv p c : inv c → inv (crash p c) ∧ grows c (crash p c).
Proof. intros Hi. split; [by apply crash_inv|by apply grows_same]. Qed.

Lemma wait_next_inv w x c c' :
  inv c → wait_calls c !! w = Some x → wait_next w x c = Some c' → inv c' ∧ grows c c'.
Proof.
  intros Hi Hx H. pose proof (in_waits _ Hi _ _ Hx) as [W1 W2]. unfold wait_next in H.
  destruct (w_phase x) eqn:Ep; [destruct (broker c) eqn:Eb; simplify_eq..|done|simplify_eq|done].
  - destruct (wait_step_inv w x AtWaitFor (w_dialer x) c Hi Hx) as [Hi1 Hg1].
    { split_and!; try done. intros a. unfold ended. by rewrite Ep. }
    { split; [|done]. intros Hd%W1. unfold selects in Hd. by rewrite Ep in Hd. }
    assert (announced (w_src x) (set_wait w AtWaitFor (w_dialer x) x c)) as Ha.
    { exists w. eexists. split; [simpl; apply list_lookup_insert_eq; by eapply lookup_lt_Some|done]. }
    split; [by apply case_ready_inv|]. eapply container_grows_trans; [exact Hg1|].
    unfold case_ready. case_match; by apply grows_same.
  - destruct (wait_step_inv w x AtSelect Dialing c Hi Hx) as [Hi1 Hg1].
    { split_and!; try done; [|intros a; unfold ended; by rewrite Ep].
      destruct (w_dialer x); try (simpl; lia); specialize (W1 ltac:(done)); unfold selects in W1; by rewrite Ep in W1. }
    { by split. }
    split.
    + apply (case_waitFor_inv _ w (mkWait (w_dst x) (w_src x) AtSelect Dialing)); [done|done| |done].
      simpl. apply list_lookup_insert_eq. by eapply lookup_lt_Some.
    + eapply container_grows_trans; [exact Hg1|]. unfold case_waitFor. case_match; by apply grows_same.
  - apply wait_step_inv; [done|done|..].
    + split_and!; try done. intros b. unfold ended. by rewrite Ep.
    + split; [done|]. intros Hb. apply W2. unfold ended in *. by rewrite Ep.
Qed.

Lemma request_inv i f c :
  inv c → broker c = Selecting → handlers c !! i = Some (HandlerRequesting f) →
  inv (case_request f i (set_handler i (HandlerWaiting f) c)) ∧
  grows c (case_request f i (set_handler i (HandlerWaiting f) c)).
Proof.
  intros Hi Hb Hh. destruct (handler_step_inv i _ (HandlerWaiting f) c Hi Hh) as [Hi1 Hg1]; [done..|]. split.
  - apply case_request_inv; [done|done|]. simpl. apply list_lookup_insert_eq. by eapply lookup_lt_Some.
  - eapply container_grows_trans; [exact Hg1|]. unfold case_request, answer_request. repeat case_match; by apply grows_same.
Qed.

Lemma run_next_inv i r c c' : inv c → run_next i r c = Some c' → inv c' ∧ grows c c'.
Proof.
  intros Hi H. destruct (in_started _ Hi) as [S1 S2]. destruct r as [[]|ch| |]; simpl in H; simplify_eq.
  - by apply other_inv.
  - by apply other_inv.
  - apply bind_Some in H as (k & _ & H). apply bind_Some in H as (b & _ & H). destruct b; simplify_eq. by apply other_inv.
  - destruct (broker c) eqn:Eb; simplify_eq. pose proof (case_reset_inv c Hi Eb) as Hi1. split; [|by apply grows_same].
    by apply (inv_same (case_reset c)).
Qed.

(** The invariant holds in every state that a container can reach, and what a
    connection asked for and what a call has announced stay. *)
Lemma container_step_inv text e c c' : inv c → container_step text e c = Some c' → inv c' ∧ grows c c'.
Proof.
  intros Hi H. destruct (in_started _ Hi) as [S1 S2]. unfold container_step in H.
  destruct (crashed c); [done|]. simpl in H. destruct e; simplify_eq; try apply bind_Some in H as (y & Hy & H).
  - by apply start_wait_inv.
  - by eapply wait_next_inv.
  - destruct (listener c) eqn:El; try done. destruct err; simplify_eq; [by apply crash_step_inv|].
    assert (broker c = NotStarted) as Eb by (destruct (broker c); [done|..]; discriminate (S1 ltac:(done))).
    pose proof (in_broker _ Hi) as [B1 B2 B3 B4 B5]. split; [|by apply grows_same]. split.
    + split; simpl; [done|]. intros _. by apply S2.
    + split; simpl; auto. intros f i Hf Hr. specialize (B3 f i Hf Hr). congruence.
    + intros i h Hh. eapply handler_ok_grows; [|by eapply in_handlers]. by apply grows_same.
    + intros w x Hx. eapply wait_ok_grows; [|by eapply in_waits]. by apply grows_same.
  - destruct (listener c) eqn:El; try done. destruct err; simplify_eq; [by apply crash_step_inv|]. by apply add_handler_inv.
  - destruct y; try done. destruct (_ <=? _); simplify_eq. unfold incoming_read.
    repeat case_match; try (by apply crash_step_inv); by eapply handler_step_inv.
  - destruct y; try done. destruct (broker c) eqn:Eb; simplify_eq. by apply request_inv.
  - destruct y as [| | |f|]; simplify_eq. pose proof (in_handlers _ Hi _ _ Hy) as Ho. unfold incoming_write.
    repeat case_match; try (by apply crash_step_inv). by eapply handler_step_inv.
  - by apply broker_sends_inv.
  - destruct (w_dialer y) eqn:Ed; simplify_eq. unfold dial_result.
    case_match; [by split; [|apply grows_same]|]. apply dialer_step_inv; try done; rewrite Ed; (done || simpl; lia).
  - destruct (w_dialer y) eqn:Ed; simplify_eq. apply dialer_step_inv; try done; rewrite Ed; [done|case_match; simpl; lia].
  - destruct (w_dialer y) eqn:Ed; simplify_eq. unfold outgoing_write.
    repeat case_match; try (by apply crash_step_inv). apply dialer_step_inv; try done; rewrite Ed; (done || simpl; lia).
  - destruct (w_dialer y) eqn:Ed; simplify_eq. unfold outgoing_read.
    repeat case_match; try (by apply crash_step_inv); apply dialer_step_inv; try done; by rewrite Ed.
  - destruct (w_dialer y) eqn:Ed; try done. destruct (w_phase y) eqn:Ep; simplify_eq.
    apply wait_step_inv; [done|done|split_and!; try done|by split]; [rewrite Ed; simpl; lia|].
    intros a. unfold ended. by rewrite Ep.
  - by apply other_inv.
  - unfold sync_next in H. destruct (_ || _); [done|].
    destruct (sy_rest y) as [|[[addr dst] src] rest]; simplify_eq; [by apply other_inv|].
    match goal with |- context [start_wait _ _ _ ?c0] => assert (inv c0 ∧ grows c c0) as [Hi0 Hg0] by (by apply other_inv) end.
    destruct (start_wait_inv addr dst src _ Hi0) as [Hi1 Hg1]. split; [done|]. by eapply container_grows_trans.
  - unfold start_run. repeat case_match; simplify_eq; try (by apply crash_step_inv); try (by apply other_inv).
  - by eapply run_next_inv.
  - unfold Done. repeat case_match; try (by apply crash_step_inv). by apply other_inv.
Qed.

Lemma New_inv host : inv (New host).
Proof. split; [by split|split; simpl; set_solver|done|done]. Qed.

Lemma container_run_inv text es c c' : inv c → container_run text es c = Some c' → inv c' ∧ grows c c'.
Proof.
  revert c. induction es as [|e es IH]; intros c Hi H; [injection H as <-; by split; [|apply grows_same]|].
  cbn [container_run] in H. apply bind_Some in H as (c1 & H1 & H).
  destruct (container_step_inv _ _ _ _ Hi H1) as [Hi1 Hg1]. destruct (IH c1 Hi1 H) as [Hi2 Hg2].
  split; [done|]. by eapply container_grows_trans.
Qed.

(** ** What the network has delivered

    [K w]: the call [w] may have been contacted; [L i f]: the connection [i] may
    have asked for [f]; [E i]: it may have been closed before it asked. *)
Section Delivered.
Context (K : nat → Prop) (L : nat → string → Prop) (E : nat → Prop).

Definition was_contacted x : Prop := w_dialer x = Contacting ∨ ended x = Some Contacted.
Definition handler_fed (i : nat) h : Prop :=
  (∀ f, handler_name h = Some f → L i f) ∧ (h = HandlerReturned None → E i).

Record fed c : Prop := {
  fd_wait w x : wait_calls c !! w = Some x → was_contacted x → K w;
  fd_handler i h : handlers c !! i = Some h → handler_fed i h
}.

(** What an event delivers. *)
Definition delivers (e : event) : Prop :=
  match e with
  | EOutRead w data rerr => (data = Some ReadyByte ∧ rerr = None) ∨ (data = None ∧ rerr = Some EOF) → K w
  | ERead i None data None => L i (String.string_of_list_byte data)
  | ERead i None data (Some err) => data = [] ∧ err = EOF → E i
  | _ => True
  end.

Lemma fed_same c c' : fed c → handlers c' = handlers c → wait_calls c' = wait_calls c → fed c'.
Proof. intros [F1 F2] E1 E2. split; rewrite ?E1, ?E2; done. Qed.

Lemma fed_wait w x p d c : fed c → (was_contacted (mkWait (w_dst x) (w_src x) p d) → K w) → fed (set_wait w p d x c).
Proof.
  intros [F1 F2] Hk. split; [|done]. intros v y. simpl.
  intros [(-> & <- & _)|(_ & Hy)]%list_lookup_insert_Some; [done|by eapply F1].
Qed.

Lemma fed_handler i h c : fed c → handler_fed i h → fed (set_handler i h c).
Proof.
  intros [F1 F2] Hk. split; [done|]. intros j y. simpl.
  intros [(-> & <- & _)|(_ & Hy)]%list_lookup_insert_Some; [done|by eapply F2].
Qed.

(** A handler goes on with the same name. *)
Lemma fed_rename i h h' c :
  fed c → handlers c !! i = Some h → handler_name h' = handler_name h → h' ≠ HandlerReturned None → handler_fed i h'.
Proof. intros Hf Hi En Hn. split; [|done]. rewrite En. by apply (fd_handler _ Hf _ _ Hi). Qed.

(** The call was contacted already, or is not. *)
Lemma fed_keep w x p d c :
  fed c → wait_calls c !! w = Some x → (was_contacted (mkWait (w_dst x) (w_src x) p d) → was_contacted x) →
  fed (set_wait w p d x c).
Proof. intros Hf Hx Hk. apply fed_wait; [done|]. intros Hc. eapply fd_wait; eauto. Qed.

Lemma fed_start_wait addr dst src c : fed c → fed (start_wait addr dst src c).
Proof.
  intros Hf. unfold start_wait. set (c0 := if listens c =? 0 then _ else c).
  assert (fed c0) as [F1 F2] by (subst c0; case_match; [by eapply fed_same|done]).
  case_bool_decide; [by split|]. split; [|done]. intros w x. simpl.
  intros [Hx|[_ [_ <-]%list_lookup_singleton_Some]]%lookup_app_Some; [by eapply F1|]. by intros [|].
Qed.

Lemma fed_answer_request f i t c : fed c → fed (answer_request f i t c).
Proof. intros Hf. unfold answer_request. case_match; by eapply fed_same. Qed.

Lemma fed_broker c c' : inv c → fed c → broker_sends c = Some c' → fed c'.
Proof.
  intros Hi Hf H. unfold broker_sends in H. destruct (broker c) as [| |f i after|w f i]; try discriminate.
  - destruct (handlers c !! i) as [[]|] eqn:Hh; simplify_eq. apply fed_handler; [by eapply fed_same|].
    by eapply fed_rename.
  - destruct (wait_calls c !! w) as [x|] eqn:Hx; [|done]. destruct (w_phase x) eqn:Ep; simplify_eq.
    apply fed_answer_request. eapply fed_keep; [done|done|]. intros [Hc|Hc]; [by left|done].
Qed.

Lemma fed_step text e c c' : inv c → fed c → delivers e → container_step text e c = Some c' → fed c'.
Proof.
  intros Hi Hf Hd H. unfold container_step in H. destruct (crashed c); [done|]. simpl in H.
  destruct e; simplify_eq; try apply bind_Some in H as (y & Hy & H).
  - by apply fed_start_wait.
  - unfold wait_next in H. destruct (w_phase y) eqn:Ep; try done.
    + destruct (broker c); simplify_eq. unfold case_ready.
      case_match; (eapply (fed_same (set_wait w AtWaitFor (w_dialer y) y c)); [|done..]);
        (eapply fed_keep; [done|done|]); (intros [Hc|Hc]; [by left|done]).
    + destruct (broker c); simplify_eq. unfold case_waitFor.
      case_match; (eapply (fed_same (set_wait w AtSelect Dialing y c)); [|done..]);
        (eapply fed_keep; [done|done|]); by intros [Hc|Hc].
    + simplify_eq. eapply fed_keep; [done|done|]. intros [Hc|Hc]; [by left|right]. unfold ended. by rewrite Ep.
  - destruct (listener c), err; simplify_eq; by eapply fed_same.
  - destruct (listener c), err; simplify_eq; [by eapply fed_same|]. destruct Hf as [F1 F2]. split; [done|].
    intros i h. simpl. intros [Hh|[_ [_ <-]%list_lookup_singleton_Some]]%lookup_app_Some; [by eapply F2|done].
  - destruct y; try done. destruct (_ <=? _); simplify_eq. unfold incoming_read.
    destruct derr as [err|]; [by eapply fed_same|]. destruct rerr as [err|].
    + case_match eqn:Ec; [|by eapply fed_same]. apply andb_true_iff in Ec as [He%bool_decide_eq_true Hz].
      destruct data; [|by rewrite zlen_cons in Hz; pose proof (zlen_nonneg data); lia]. apply fed_handler; [done|]. split; [done|]. intros _. by apply Hd.
    + apply fed_handler; [done|]. by split; [intros f [= <-]|].
  - destruct y as [|f| | |]; try done. destruct (broker c); simplify_eq.
    assert (fed (set_handler i (HandlerWaiting f) c)) as Hf'.
    { apply fed_handler; [done|]. by eapply fed_rename. }
    unfold case_request. repeat case_match; try (by eapply fed_same). by apply fed_answer_request.
  - destruct y as [| | |f|]; simplify_eq. unfold incoming_write. repeat case_match; try (by eapply fed_same).
    apply fed_handler; [done|]. by eapply fed_rename.
  - by eapply fed_broker.
  - destruct (w_dialer y); simplify_eq. unfold dial_result. case_match; [done|].
    eapply fed_keep; [done|done|]. intros [Hc|Hc]; [done|by right].
  - destruct (w_dialer y); simplify_eq. eapply fed_keep; [done|done|]. intros [Hc|Hc]; [simpl in Hc; by case_match|by right].
  - destruct (w_dialer y); simplify_eq. unfold outgoing_write. repeat case_match; try (by eapply fed_same).
    eapply fed_keep; [done|done|]. intros [Hc|Hc]; [done|by right].
  - destruct (w_dialer y); simplify_eq. unfold outgoing_read. destruct rerr as [err|].
    + case_match eqn:Ec; [|by eapply fed_same]. apply andb_true_iff in Ec as [He%bool_decide_eq_true Hz].
      apply fed_wait; [done|]. intros _. apply Hd. right. destruct data; [done|]. by subst.
    + case_match eqn:Ec; [by eapply fed_same|]. apply negb_false_iff, bool_decide_eq_true in Ec.
      apply fed_wait; [done|]. intros _. apply Hd. left. destruct data; simpl in Ec; [by subst|done].
  - destruct (w_dialer y) eqn:Ed; try done. destruct (w_phase y); simplify_eq.
    eapply fed_keep; [done|done|]. intros _. by left.
  - by eapply fed_same.
  - unfold sync_next in H. destruct (_ || _); [done|].
    destruct (sy_rest y) as [|[[addr dst] src] rest]; simplify_eq; [by eapply fed_same|].
    apply fed_start_wait. by eapply fed_same.
  - unfold start_run. repeat case_match; simplify_eq; by eapply fed_same.
  - unfold run_next in H. repeat case_match; simplify_eq; try (by eapply fed_same).
    apply bind_Some in H as (k & _ & H). apply bind_Some in H as (b & _ & H). destruct b; simplify_eq. by eapply fed_same.
  - unfold Done. repeat case_match; by eapply fed_same.
Qed.
End Delivered.

Lemma fed_mono (K K' : nat → Prop) (L L' : nat → string → Prop) (E E' : nat → Prop) c :
  fed K L E c → (∀ w, K w → K' w) → (∀ i f, L i f → L' i f) → (∀ i, E i → E' i) → fed K' L' E' c.
Proof. intros [F1 F2] HK HL HE. split; [by eauto|]. intros i h Hh. destruct (F2 i h Hh). split; eauto. Qed.

(** ** Two containers that dial each other *)

Record pair : Type := mkPair {
  alpha : container;
  bravo : container;
  (* for each connection that bravo ([alpha]) has accepted, the call that dialed *)
  alpha_conns : list nat;
  bravo_conns : list nat
}.
Implicit Types p : pair.

(** [true] is alpha; [conns b p] are the connections that side [b] dialed. *)
Definition side (b : bool) p : container := if b then alpha p else bravo p.
Definition conns (b : bool) p : list nat := if b then alpha_conns p else bravo_conns p.
Definition set_side (b : bool) c p : pair :=
  if b then mkPair c (bravo p) (alpha_conns p) (bravo_conns p) else mkPair (alpha p) c (alpha_conns p) (bravo_conns p).
Definition set_conns (b : bool) (l : list nat) p : pair :=
  if b then mkPair (alpha p) (bravo p) l (bravo_conns p) else mkPair (alpha p) (bravo p) (alpha_conns p) l.

Definition NewPair (a b : string) : pair := mkPair (New a) (New b) [] [].

Inductive pair_event : Type :=
| PLocal (b : bool) (e : event)
| PConnect (b : bool) (w : nat)      (* the call w of side b connects to the other side *)
| PRequest (b : bool) (i : nat)      (* the handler i of side b reads what was written to it *)
| PHangup (b : bool) (i : nat)       (* it reads the end of a connection that was closed *)
| PAnswer (b : bool) (i : nat)       (* side b reads the ready byte of the handler i of the other side *)
| PEnd (b : bool) (i : nat).         (* it reads the end of that connection *)

(** Events that need nothing from the other side: everything but the deliveries
    of the network.  Calls wait for the other container. *)
Definition is_local (other : string) (e : event) : bool :=
  match e with
  | EDial _ None | EAccept None => false
  | EWait addr _ _ => bool_decide (addr = other)
  | ESync l => forallb (λ '(addr, _, _), bool_decide (addr = other)) l
  | ERead _ None _ None => false
  | ERead _ None data (Some err) => negb (bool_decide (data = []) && bool_decide (err = EOF))
  | EOutRead _ _ None => false
  | EOutRead _ data (Some err) => negb (is_nil data && bool_decide (err = EOF))
  | _ => true
  end.

Definition has_crashed c : bool := negb (is_nil (crashed c)).

Definition pair_step (text : string) (e : pair_event) p : option pair :=
  match e with
  | PLocal b e =>
      if is_local (Addr (side (negb b) p)) e
      then c ← container_step text e (side b p); Some (set_side b c p) else None
  | PConnect b w =>
      c ← container_step text (EDial w None) (side b p);
      c' ← container_step text (EAccept None) (side (negb b) p);
      Some (set_conns b (conns b p ++ [w]) (set_side (negb b) c' (set_side b c p)))
  | PRequest b i =>
      w ← conns (negb b) p !! i;
      x ← wait_calls (side (negb b) p) !! w;
      match w_dialer x with
      | DialReading =>
          c ← container_step text (ERead i None (String.list_byte_of_string (w_dst x)) None) (side b p);
          Some (set_side b c p)
      | _ => None
      end
  | PHangup b i =>
      w ← conns (negb b) p !! i;
      x ← wait_calls (side (negb b) p) !! w;
      if has_crashed (side (negb b) p) || (dial_rank (w_dialer x) =? 3)%nat
      then c ← container_step text (ERead i None [] (Some EOF)) (side b p); Some (set_side b c p) else None
  | PAnswer b i =>
      w ← conns b p !! i;
      h ← handlers (side (negb b) p) !! i;
      match h with
      | HandlerReturned (Some _) =>
          c ← container_step text (EOutRead w (Some ReadyByte) None) (side b p); Some (set_side b c p)
      | _ => None
      end
  | PEnd b i =>
      w ← conns b p !! i;
      h ← handlers (side (negb b) p) !! i;
      if has_crashed (side (negb b) p) || match h with HandlerReturned None => true | _ => false end
      then c ← container_step text (EOutRead w None (Some EOF)) (side b p); Some (set_side b c p) else None
  end.

Fixpoint pair_run (text : string) (es : list pair_event) p : option pair :=
  match es with
  | [] => Some p
  | e :: es => p ← pair_step text e p; pair_run text es p
  end.

(** What the other side has delivered to side [b]. *)
Definition contacted_by (b : bool) p (w : nat) : Prop :=
  has_crashed (side (negb b) p) = true ∨
  ∃ i x, conns b p !! i = Some w ∧ wait_calls (side b p) !! w = Some x ∧
    handlers (side (negb b) p) !! i = Some (HandlerReturned (Some (w_dst x))).
Definition asked_by (b : bool) p (i : nat) (f : string) : Prop :=
  ∃ w x, conns (negb b) p !! i = Some w ∧ wait_calls (side (negb b) p) !! w = Some x ∧ w_dst x = f.
Definition closed_by (b : bool) p (i : nat) : Prop :=
  ∃ w x, conns (negb b) p !! i = Some w ∧ wait_calls (side (negb b) p) !! w = Some x ∧
    (has_crashed (side (negb b) p) = true ∨ dial_rank (w_dialer x) = 3%nat).

(** The connections that side [b] dialed. *)
Record linked (b : bool) p : Prop := {
  li_length : length (conns b p) = length (handlers (side (negb b) p));
  li_dialed i w : conns b p !! i = Some w →
    ∃ x, wait_calls (side b p) !! w = Some x ∧ (2 ≤ dial_rank (w_dialer x))%nat;
  li_once i j w : conns b p !! i = Some w → conns b p !! j = Some w → i = j
}.

Definition pair_inv p : Prop :=
  ∀ b, inv (side b p) ∧ fed (contacted_by b p) (asked_by b p) (closed_by b p) (side b p) ∧ linked b p.

Lemma side_set b c p : side b (set_side b c p) = c.
Proof. by destruct b. Qed.
Lemma side_set_other b c p : side (negb b) (set_side b c p) = side (negb b) p.
Proof. by destruct b. Qed.
Lemma conns_set_side b b' c p : conns b' (set_side b c p) = conns b' p.
Proof. by destruct b, b'. Qed.
Lemma side_set_conns b b' l p : side b' (set_conns b l p) = side b' p.
Proof. by destruct b, b'. Qed.
Lemma conns_set b l p : conns b (set_conns b l p) = l.
Proof. by destruct b. Qed.
Lemma conns_set_other b l p : conns (negb b) (set_conns b l p) = conns (negb b) p.
Proof. by destruct b. Qed.

(** What later states of the two sides keep. *)
Record pair_later p p' : Prop := {
  pl_grows b : grows (side b p) (side b p');
  pl_crashed b : has_crashed (side b p) = true → has_crashed (side b p') = true;
  pl_conns b i w : conns b p !! i = Some w → conns b p' !! i = Some w
}.

Lemma fed_later b p p' c :
  pair_later p p' → fed (contacted_by b p) (asked_by b p) (closed_by b p) c →
  fed (contacted_by b p') (asked_by b p') (closed_by b p') c.
Proof.
  intros [Hg Hc Hl] Hf. eapply fed_mono; [exact Hf|..].
  - intros w [Hx|(i & x & Hi & Hx & Hh)]; [left; auto|right].
    destruct (gr_waits _ _ (Hg b) _ _ Hx) as (x' & Hx' & _ & Ed & _).
    destruct (gr_handlers _ _ (Hg (negb b)) _ _ Hh) as (h' & Hh' & _ & _ & Hr).
    exists i, x'. rewrite Ed. rewrite (Hr _ eq_refl) in Hh'. auto.
  - intros i f (w & x & Hi & Hx & Hd). destruct (gr_waits _ _ (Hg (negb b)) _ _ Hx) as (x' & Hx' & _ & Ed & _).
    exists w, x'. split_and!; [auto|done|congruence].
  - intros i (w & x & Hi & Hx & Hd). destruct (gr_waits _ _ (Hg (negb b)) _ _ Hx) as (x' & Hx' & _ & _ & _ & Hr & _).
    exists w, x'. split_and!; [auto|done|]. destruct Hd as [|E]; [left; auto|right].
    rewrite E in Hr. destruct (w_dialer x'); simpl in *; lia.
Qed.

Lemma handlers_start_wait addr dst src c : handlers (start_wait addr dst src c) = handlers c.
Proof. unfold start_wait. by repeat case_match. Qed.
Lemma handlers_answer_request f i t c : handlers (answer_request f i t c) = handlers c.
Proof. unfold answer_request. by case_match. Qed.

(** Only [listener.Accept] makes handlers. *)
Lemma handlers_length text e c c' :
  container_step text e c = Some c' → (e = EAccept None → False) → length (handlers c') = length (handlers c).
Proof.
  intros H He. unfold container_step in H. destruct (crashed c); [done|]. simpl in H.
  destruct e; simplify_eq; try apply bind_Some in H as (y & Hy & H);
    unfold start_wait, wait_next, case_ready, case_waitFor, incoming_read, case_request, answer_request,
      incoming_write, broker_sends, dial_result, dial_load, outgoing_write, outgoing_read, sync_next, start_run,
      run_next, Done in *;
    repeat first [done | case_match | progress simplify_eq/=]; rewrite ?length_insert; try done.
  - by rewrite handlers_answer_request.
  - by rewrite handlers_start_wait.
  - by rewrite handlers_start_wait.
  - by rewrite handlers_start_wait.
  - apply bind_Some in H as (k & _ & H). apply bind_Some in H as (b & _ & H). destruct b; by simplify_eq.
Qed.

Lemma step_not_crashed text e c c' : container_step text e c = Some c' → has_crashed c = false.
Proof. unfold container_step, has_crashed. by destruct (crashed c). Qed.

Lemma side_cases (b b' : bool) : b' = b ∨ b' = negb b.
Proof. destruct b, b'; auto. Qed.

(** One side takes a step, with what the other side has delivered. *)
Lemma side_step_inv text e b c p :
  pair_inv p → delivers (contacted_by b p) (asked_by b p) (closed_by b p) e → (e = EAccept None → False) →
  container_step text e (side b p) = Some c → pair_inv (set_side b c p).
Proof.
  intros Hp Hd He H. destruct (Hp b) as (Hi & Hf & Hl). destruct (Hp (negb b)) as (Hi' & Hf' & Hl').
  destruct (container_step_inv _ _ _ _ Hi H) as [Hi1 Hg].
  pose proof (fed_step _ _ _ _ _ _ _ Hi Hf Hd H) as Hf1.
  assert (pair_later p (set_side b c p)) as Hlater.
  { split.
    - intros b'; destruct (side_cases b b') as [->| ->]; rewrite ?side_set, ?side_set_other; [done|by apply grows_same].
    - intros b'; destruct (side_cases b b') as [->| ->]; rewrite ?side_set, ?side_set_other; [|done].
      by rewrite (step_not_crashed _ _ _ _ H).
    - intros b' i w. by rewrite conns_set_side. }
  intros b'; destruct (side_cases b b') as [->| ->]; rewrite ?side_set, ?side_set_other; split_and!; try done; try by eapply fed_later.
  - destruct Hl as [L1 L2 L3]. split; rewrite ?conns_set_side, ?side_set, ?side_set_other; try done.
    intros i w (x & Hx & Hr)%L2. destruct (gr_waits _ _ Hg _ _ Hx) as (x' & Hx' & _ & _ & _ & Hr' & _).
    exists x'. split; [done|lia].
  - destruct Hl' as [L1 L2 L3]. rewrite negb_involutive in L1.
    split; rewrite ?conns_set_side, ?side_set_other; try done.
    rewrite negb_involutive, side_set, L1. symmetry. by eapply handlers_length.
Qed.

Lemma has_crashed_spec c : has_crashed c = true ↔ crashed c ≠ None.
Proof. unfold has_crashed. by destruct (crashed c). Qed.

Lemma connect_inv text b w c c' p :
  pair_inv p → container_step text (EDial w None) (side b p) = Some c →
  container_step text (EAccept None) (side (negb b) p) = Some c' →
  pair_inv (set_conns b (conns b p ++ [w]) (set_side (negb b) c' (set_side b c p))).
Proof.
  intros Hp Hc Hc'. destruct (Hp b) as (Hi & Hf & Hl). destruct (Hp (negb b)) as (Hi' & Hf' & Hl').
  destruct (container_step_inv _ _ _ _ Hi Hc) as [Hi1 Hg].
  destruct (container_step_inv _ _ _ _ Hi' Hc') as [Hi1' Hg'].
  pose proof (fed_step _ _ _ _ (EDial w None) _ _ Hi Hf I Hc) as Hf1.
  pose proof (fed_step _ _ _ _ (EAccept None) _ _ Hi' Hf' I Hc') as Hf1'.
  pose proof (step_not_crashed _ _ _ _ Hc) as Hn. pose proof (step_not_crashed _ _ _ _ Hc') as Hn'.
  set (p' := set_conns b _ _).
  assert (side b p' = c) as Es.
  { subst p'. rewrite side_set_conns. rewrite <- (negb_involutive b) at 1. rewrite side_set_other. rewrite negb_involutive. apply side_set. }
  assert (side (negb b) p' = c') as Es' by (subst p'; by rewrite side_set_conns, side_set).
  assert (conns b p' = conns b p ++ [w]) as El by (subst p'; apply conns_set).
  assert (conns (negb b) p' = conns (negb b) p) as El' by (subst p'; by rewrite conns_set_other, !conns_set_side).
  assert (pair_later p p') as Hlater.
  { split; intros b'; destruct (side_cases b b') as [->| ->]; rewrite ?Es, ?Es', ?El, ?El'; try done; try congruence.
    intros i v Hv. by apply lookup_app_l_Some. }
  assert (∃ x, wait_calls (side b p) !! w = Some x ∧ w_dialer x = Dialing ∧ c = set_wait w (w_phase x) Loading x (side b p))
    as (x & Hx & Hd & ->).
  { unfold container_step in Hc. destruct (crashed _); [done|]. simpl in Hc.
    apply bind_Some in Hc as (x & Hx & Hc). exists x. destruct (w_dialer x); by simplify_eq. }
  assert (c' = set_handlers (handlers (side (negb b) p) ++ [HandlerReading]) (side (negb b) p)) as ->.
  { unfold container_step in Hc'. destruct (crashed _); [done|]. simpl in Hc'. destruct (listener _); by simplify_eq. }
  intros b'; destruct (side_cases b b') as [->| ->]; rewrite ?Es, ?Es'; split_and!; try done; try by eapply fed_later.
  - destruct Hl as [L1 L2 L3]. split; rewrite ?El, ?Es, ?Es'.
    + simpl. rewrite !length_app. simpl. lia.
    + intros i v [(y & Hy & Hr)%L2|[_ [_ <-]%list_lookup_singleton_Some]]%lookup_app_Some.
      * destruct (gr_waits _ _ Hg _ _ Hy) as (y' & Hy' & _ & _ & _ & Hr' & _). exists y'. split; [done|lia].
      * simpl. rewrite list_lookup_insert_eq by (by eapply lookup_lt_Some). eexists. split; [done|]. simpl. lia.
    + assert (∀ i, conns b p !! i ≠ Some w) as Hw.
      { intros i (y & Hy & Hr)%L2. rewrite Hx in Hy. simplify_eq. rewrite Hd in Hr. simpl in Hr. lia. }
      intros i j v [Hv|[Hv1 [Hv2 <-]%list_lookup_singleton_Some]]%lookup_app_Some
        [Hv'|[Hv1' [Hv2' E]%list_lookup_singleton_Some]]%lookup_app_Some;
        [eauto|subst v; by destruct (Hw i)|by destruct (Hw j)|lia].
  - destruct Hl' as [L1 L2 L3]. rewrite negb_involutive in L1. split; rewrite ?El', ?Es'; try done.
    rewrite negb_involutive, Es. done.
Qed.

Lemma pair_step_inv text e p p' : pair_inv p → pair_step text e p = Some p' → pair_inv p'.
Proof.
  intros Hp H. destruct e; cbn [pair_step] in H.
  - destruct (is_local _ e) eqn:Hloc; [|done]. apply bind_Some in H as (c & H & [= <-]).
    eapply side_step_inv; [done| | |exact H]; [|by intros ->; simpl in Hloc].
    destruct e as [| | | |i [derr|] data [rerr|]| | | | | | |w data [rerr|]| | | | | |]; try done; simpl in Hloc |- *.
    + intros [-> ->]. by rewrite !bool_decide_true in Hloc by done.
    + intros [[_ [=]]|[-> [= ->]]]. by simpl in Hloc.
  - apply bind_Some in H as (c & Hc & H). apply bind_Some in H as (c' & Hc' & [= <-]). by eapply connect_inv.
  - apply bind_Some in H as (w & Hw & H). apply bind_Some in H as (x & Hx & H).
    destruct (w_dialer x); try done. apply bind_Some in H as (c & H & [= <-]).
    eapply side_step_inv; [done| | |exact H]; [|by intros [=]]. simpl. rewrite String.string_of_list_byte_of_string. by exists w, x.
  - apply bind_Some in H as (w & Hw & H). apply bind_Some in H as (x & Hx & H).
    destruct (_ || _) eqn:Hg; [|done]. apply bind_Some in H as (c & H & [= <-]).
    eapply side_step_inv; [done| | |exact H]; [|by intros [=]]. simpl. intros _. exists w, x. split_and!; [done|done|].
    apply orb_true_iff in Hg as [|Hg]; [by left|right]. by apply Nat.eqb_eq in Hg.
  - apply bind_Some in H as (w & Hw & H). apply bind_Some in H as (h & Hh & H).
    destruct h as [| | | |[f|]]; try done. apply bind_Some in H as (c & H & [= <-]).
    eapply side_step_inv; [done| | |exact H]; [|by intros [=]]. simpl. intros _. right.
    destruct (Hp (negb b)) as (_ & Hf & _). destruct (fd_handler _ _ _ _ Hf _ _ Hh) as [Ha _].
    destruct (Ha f eq_refl) as (v & x & Hv & Hx & Hd). rewrite negb_involutive in Hv, Hx.
    rewrite Hw in Hv. simplify_eq. by exists i, x.
  - apply bind_Some in H as (w & Hw & H). apply bind_Some in H as (h & Hh & H).
    destruct (_ || _) eqn:Hg; [|done]. apply bind_Some in H as (c & H & [= <-]).
    eapply side_step_inv; [done| | |exact H]; [|by intros [=]]. simpl. intros _. left.
    apply orb_true_iff in Hg as [|Hg]; [done|]. destruct h as [| | | |[f|]]; try done. exfalso.
    destruct (Hp (negb b)) as (_ & Hf & _). destruct (fd_handler _ _ _ _ Hf _ _ Hh) as [_ He].
    destruct (He eq_refl) as (v & x & Hv & Hx & Hd). rewrite negb_involutive in Hv, Hx, Hd.
    rewrite Hw in Hv. simplify_eq. pose proof (step_not_crashed _ _ _ _ H) as Hn. destruct Hd as [|Hd]; [congruence|].
    unfold container_step in H. destruct (crashed _); [done|]. simpl in H. rewrite Hx in H. simpl in H.
    by destruct (w_dialer x).
Qed.

Lemma NewPair_inv a b : pair_inv (NewPair a b).
Proof. intros []; (split_and!; [apply New_inv|by split|by split]). Qed.

Lemma pair_run_inv text es p p' : pair_inv p → pair_run text es p = Some p' → pair_inv p'.
Proof.
  revert p. induction es as [|e es IH]; intros p Hp H; [by injection H as <-|].
  cbn [pair_run] in H. apply bind_Some in H as (p1 & H1 & H). eapply IH; [|exact H]. by eapply pair_step_inv.
Qed.

(** ** A broker that is stuck

    The broker wants to tell a call that its function was asked for, but the call
    has left its [select] because it was contacted. *)

Definition deaf (w : nat) c : Prop := ∃ x, wait_calls c !! w = Some x ∧ is_Some (ended x).

Lemma broker_start_wait addr dst src c : broker (start_wait addr dst src c) = broker c.
Proof. unfold start_wait. by repeat case_match. Qed.
Lemma run_calls_start_wait addr dst src c : run_calls (start_wait addr dst src c) = run_calls c.
Proof. unfold start_wait. by repeat case_match. Qed.

Lemma stuck_broker text e w f i c c' :
  inv c → broker c = Notifying w f i → deaf w c → container_step text e c = Some c' → broker c' = Notifying w f i.
Proof.
  intros Hi Hb (x & Hx & Hdeaf) H. destruct (in_started _ Hi) as [S1 _]. specialize (S1 ltac:(by rewrite Hb)).
  unfold container_step in H. destruct (crashed c); [done|]. simpl in H. rewrite S1, Hb in H.
  destruct e; simplify_eq; try apply bind_Some in H as (y & Hy & H);
    unfold start_wait, wait_next, incoming_read, incoming_write, broker_sends, dial_result, dial_load,
      outgoing_write, outgoing_read, sync_next, start_run, run_next, Done in *;
    rewrite ?Hb in *; repeat first [done | case_match | progress simplify_eq/=]; try done.
  - destruct Hdeaf as [a Ha]. unfold ended in Ha. by case_match.
  - by rewrite broker_start_wait.
  - by rewrite broker_start_wait.
  - by rewrite broker_start_wait.
  - apply bind_Some in H as (k & _ & H). apply bind_Some in H as (b & _ & H). destruct b; by simplify_eq.
Qed.

(** A call of [Run] or [RunAsync] that wants to reset the tables. *)
Definition resetting (j : nat) c : Prop := run_calls c !! j = Some Resetting.

Lemma stuck_reset text e w f i j c c' :
  inv c → broker c = Notifying w f i → deaf w c → container_step text e c = Some c' →
  resetting j c → resetting j c'.
Proof.
  intros Hi Hb (x & Hx & Hdeaf) H Hj. unfold resetting in *. unfold container_step in H.
  destruct (crashed c); [done|]. simpl in H. destruct (in_started _ Hi) as [S1 _]. specialize (S1 ltac:(by rewrite Hb)).
  rewrite S1, Hb in H.
  destruct e; simplify_eq; try apply bind_Some in H as (y & Hy & H);
    unfold wait_next, incoming_read, incoming_write, broker_sends, dial_result, dial_load,
      outgoing_write, outgoing_read, sync_next, Done in *;
    rewrite ?Hb in *; repeat first [done | case_match | progress simplify_eq/=]; try done;
    rewrite ?run_calls_start_wait; try done.
  - destruct Hdeaf as [a Ha]. unfold ended in Ha. by case_match.
  - unfold start_run. repeat case_match; simplify_eq/=; try done; by apply lookup_app_l_Some.
  - assert (∀ r, (<[i0 := r]> (run_calls c)) !! j = Some Resetting ∨ i0 = j) as Hne.
    { intros r. destruct (decide (i0 = j)); [by right|left]. by rewrite list_lookup_insert_ne. }
    unfold run_next in H. rewrite Hb in H. destruct y as [[]|ch| |]; simplify_eq/=.
    + destruct (Hne (AwaitDone (runDone c))); [done|congruence].
    + destruct (Hne Resetting); [done|congruence].
    + apply bind_Some in H as (k & _ & H). apply bind_Some in H as (b & _ & H). destruct b; simplify_eq/=.
      destruct (Hne Resetting); [done|congruence].
Qed.

Lemma deaf_grows w c c' : grows c c' → deaf w c → deaf w c'.
Proof.
  intros [_ Hg] (x & Hx & [a Ha]). destruct (Hg _ _ Hx) as (x' & Hx' & _ & _ & _ & _ & He).
  exists x'. split; [done|]. exists a. auto.
Qed.

(** ** Properties *)

(** C30: synchronisation of test functions.  Two containers run in any
    interleaving of their goroutines, with any errors of the operating system.
    When a call of [wait] (that is of [WaitFor] or [Sync]) has returned on one
    side, then the other side has panicked or has itself called [wait], so that
    its function was announced as ready: with the function that was waited for,
    or waiting for the function of the caller.  When both sides wait for the
    function that they run, as [Sync] does, it is the one that was waited for. *)
Theorem container_sync (text hostA hostB : string) (es : list pair_event) (p : pair) (b : bool) (w : nat)
    (x : wait_call) (a : answer) :
  pair_run text es (NewPair hostA hostB) = Some p →
  wait_calls (side b p) !! w = Some x → w_phase x = WaitReturned a →
  has_crashed (side (negb b) p) = true ∨
  (∃ w' x', wait_calls (side (negb b) p) !! w' = Some x' ∧ announces x' = true ∧
     (w_src x' = w_dst x ∨ w_dst x' = w_src x)) ∧
  (w_dst x = w_src x →
   (∀ w' x', wait_calls (side (negb b) p) !! w' = Some x' → w_dst x' = w_src x') →
   announced (w_dst x) (side (negb b) p)).
Proof.
  intros Hrun Hx Hret. pose proof (pair_run_inv _ _ _ _ (NewPair_inv hostA hostB) Hrun) as Hp.
  destruct (Hp b) as (Hi & Hf & Hl). destruct (Hp (negb b)) as (Hi' & Hf' & Hl').
  assert (ended x = Some a) as He by (unfold ended; by rewrite Hret). destruct a.
  - destruct (fd_wait _ _ _ _ Hf w x Hx) as [|(i & y & Hc & Hy & Hh)]; [by right|by left|right].
    rewrite Hx in Hy. simplify_eq.
    pose proof (in_handlers _ Hi' _ _ Hh _ eq_refl eq_refl) as Ha. split; [|done].
    destruct Ha as (w' & x' & Hx' & Hs & Ha). exists w', x'. auto.
  - right. destruct (wo_requested _ _ (in_waits _ Hi _ _ Hx) He) as (i & h & Hh & Hn).
    destruct (fd_handler _ _ _ _ Hf _ _ Hh) as [Ha _]. destruct (Ha _ Hn) as (w' & x' & Hc & Hx' & Hd).
    destruct (li_dialed _ _ Hl' _ _ Hc) as (x2 & Hx2 & Hr). rewrite Hx' in Hx2. simplify_eq.
    pose proof (wo_dialer _ _ (in_waits _ Hi' _ _ Hx')) as Hsel.
    assert (announces x2 = true) as Han.
    { unfold announces, selects in *. destruct (w_phase x2); try done.
      destruct (w_dialer x2); simpl in Hr; try lia; by specialize (Hsel ltac:(done)). }
    split; [by exists w', x2; auto|]. intros E Hsync. exists w', x2. rewrite <- (Hsync _ _ Hx'). split_and!; congruence.
Qed.

(** Alpha and bravo synchronise a function: alpha is contacted, bravo is asked;
    bravo's own goroutine is connected by then, so that its request comes late. *)
Definition sync_start (b : bool) (other : string) : list pair_event :=
  [PLocal b (ESync [(other, "f", "f")]); PLocal b (ESyncNext 0); PLocal b (EBind None);
   PLocal b (EWaitNext 0); PLocal b (EWaitNext 0)].
Definition demo_sync : list pair_event :=
  sync_start true "bravo:10000" ++ sync_start false "alpha:10000" ++
  [PConnect false 0; PLocal false (ELoad 0);
   PConnect true 0; PLocal true (ELoad 0); PLocal true (EOutWrite 0 None None); PRequest false 0;
   PLocal false (ERequest 0); PLocal false EBroker; PLocal false EBroker; PLocal false (EWrite 0 None None);
   PAnswer true 0; PLocal true (EContact 0); PLocal true (EWaitNext 0); PLocal false (EWaitNext 0)].
Definition demo_late : list pair_event :=
  [PLocal false (EOutWrite 0 None None); PRequest true 0; PLocal true (ERequest 0);
   PLocal true (ERun false (λ _, inl [[Byte.x7f; Byte.x00; Byte.x00; Byte.x01]]) (inl "alpha")); PLocal true (ERunNext 0)].

Definition demo_pair (es : list pair_event) : pair := default (NewPair "" "") (pair_run "" es (NewPair "alpha" "bravo")).
Definition demo_call (b : bool) (es : list pair_event) : option wait_phase :=
  w_phase <$> wait_calls (side b (demo_pair es)) !! 0%nat.

Example demo_sync_returns :
  demo_call true demo_sync = Some (WaitReturned Contacted) ∧ demo_call false demo_sync = Some (WaitReturned Requested).
Proof. by vm_compute. Qed.

Lemma demo_sync_runs : pair_run "" demo_sync (NewPair "alpha" "bravo") = Some (demo_pair demo_sync).
Proof. vm_compute. reflexivity. Qed.

Lemma container_sync_witness :
  has_crashed (bravo (demo_pair demo_sync)) = false ∧ announced "f" (bravo (demo_pair demo_sync)).
Proof.
  split; [vm_compute; reflexivity|].
  destruct (container_sync "" "alpha" "bravo" demo_sync (demo_pair demo_sync) true 0
    (mkWait "f" "f" (WaitReturned Contacted) DialerReturned) Contacted) as [H|[_ H]].
  - exact demo_sync_runs.
  - vm_compute. reflexivity.
  - reflexivity.
  - vm_compute in H. discriminate H.
  - apply H; [reflexivity|]. intros [|w'] x' Hx'; vm_compute in Hx'; [|discriminate Hx'].
    injection Hx' as <-. reflexivity.
Defined.

(** A broker that wants to notify a call which has left its [select] never gets
    any further: whatever the goroutines do, no call of [Run] or [RunAsync] can
    reset the tables, so none of them returns. *)
Theorem container_deadlock (text hostA : string) (es es' : list event) (c c' : container) (w i : nat) (f : string) :
  container_run text es (New hostA) = Some c → broker c = Notifying w f i → deaf w c →
  container_run text es' c = Some c' →
  broker c' = Notifying w f i ∧ ∀ j, resetting j c → resetting j c'.
Proof.
  intros H Hb Hd. pose proof (proj1 (container_run_inv _ _ _ _ (New_inv hostA) H)) as Hi. clear H.
  revert c Hb Hd Hi. induction es' as [|e es' IH]; intros c Hb Hd Hi Hr; [by injection Hr as <-|].
  cbn [container_run] in Hr. apply bind_Some in Hr as (c1 & H1 & Hr).
  destruct (container_step_inv _ _ _ _ Hi H1) as [Hi1 Hg].
  destruct (IH c1) as [Hb' Hj]; [by apply (stuck_broker text e w f i c)|by eapply deaf_grows|done|done|].
  split; [done|]. intros j Hres. apply Hj. by apply (stuck_reset text e w f i j c).
Qed.

(** That state is reached in the run of [demo_sync] by the late request of bravo. *)
Example demo_deadlock :
  let p := demo_pair (demo_sync ++ demo_late) in
  broker (alpha p) = Notifying 0 "f" 0 ∧ demo_call true (demo_sync ++ demo_late) = Some (WaitReturned Contacted) ∧
  run_calls (alpha p) = [Resetting] ∧ crashed (alpha p) = None ∧ crashed (bravo p) = None.
Proof. by vm_compute. Qed.

(** A second wait of the same function panics when the first one was contacted:
    its entry is still in the table. *)
Example demo_wait_twice :
  crashed (alpha (demo_pair (demo_sync ++
    [PLocal true (EWait "bravo:10000" "f" "f"); PLocal true (EWaitNext 1); PLocal true (EWaitNext 1)]))) =
  Some (PanicString "received multiple wait requests for the same function").
Proof. by vm_compute. Qed.

(** Before the first call of [wait] there is no broker: a [Run] of a function that
    does not wait for another container cannot reset the tables and blocks. *)
Lemma run_needs_wait text hostA es c i :
  container_run text es (New hostA) = Some c → listens c = 0 → run_next i Resetting c = None.
Proof.
  intros H Hl. destruct (container_run_inv _ _ _ _ (New_inv hostA) H) as [[[S1 S2] _ _ _] _].
  simpl. destruct (broker c); try done.
  assert (listener c ≠ NotListening) as Hn by (rewrite S1; done). by destruct (S2 Hn).
Qed.
