(* ===== verification/Generate.v ===== *)
(** * Generate: the code generator ([proto/generate.go])

    The program calls the Protobuf compiler for every [.proto] file, renames the
    enumeration values in the files that it generates and renames the files of
    test messages.  What it asks of the system (the walk through the directory,
    the commands, the files) is the interface [Tools]; the strings that it
    computes are modelled in full. *)

From S2P Require Import Prelude GoSem.
From Stdlib Require Import Ascii.

Local Open Scope Z_scope.
Local Open Scope list_scope.

Definition ProtoCompiler : string := "protoc".
Definition ProtoExt : string := ".proto".
Definition ProtoGenExt : string := ".pb.go".
Definition ProtoGenTestExt : string := ".pb_test.go".
Definition TestSuffix : string := "_test".
Definition LibDir : string := "../lib".
Definition GoFormat : string := "gofmt".

Abbreviation chars := (list ascii).
Definition chars_of : string → chars := String.list_ascii_of_string.
Definition string_of : chars → string := String.string_of_list_ascii.

(** ** [strings] and [path/filepath] *)

Fixpoint is_prefix (p l : chars) : bool :=
  match p, l with
  | [], _ => true
  | a :: p, b :: l => Ascii.eqb a b && is_prefix p l
  | _ :: _, [] => false
  end.

Definition HasSuffix (s suffix : string) : bool :=
  is_prefix (reverse (chars_of suffix)) (reverse (chars_of s)).
Definition TrimSuffix (s suffix : string) : string :=
  if HasSuffix s suffix then string_of (take (length (chars_of s) - length (chars_of suffix)) (chars_of s)) else s.

(** [filepath.Ext]: from the last dot of the last element on. *)
Fixpoint ext_rev (rev acc : chars) : chars :=
  match rev with
  | [] => []
  | c :: rev =>
      if Ascii.eqb c "/" then [] else if Ascii.eqb c "." then c :: acc else ext_rev rev (c :: acc)
  end.
Definition Ext (path : string) : string := string_of (ext_rev (reverse (chars_of path)) []).

(** The elements of a path. *)
Fixpoint split_at (sep : ascii) (l : chars) : list chars :=
  match l with
  | [] => [[]]
  | c :: l =>
      if Ascii.eqb c sep then [] :: split_at sep l
      else match split_at sep l with
           | [] => [[c]]
           | e :: es => (c :: e) :: es
           end
  end.

Fixpoint join_with (sep : ascii) (es : list chars) : chars :=
  match es with
  | [] => []
  | [e] => e
  | e :: es => e ++ sep :: join_with sep es
  end.

(** [filepath.Clean]: empty elements and dots are dropped, and [..] with the
    element before it; [stack] has the elements that are kept, the last one first. *)
Definition dotdot : chars := chars_of "..".
Definition clean_element (rooted : bool) (stack : list chars) (e : chars) : list chars :=
  if bool_decide (e = []) || bool_decide (e = chars_of ".") then stack
  else if bool_decide (e = dotdot) then
    match stack with
    | [] => if rooted then [] else [dotdot]
    | top :: rest => if bool_decide (top = dotdot) then dotdot :: stack else rest
    end
  else e :: stack.

Definition Clean (path : string) : string :=
  let l := chars_of path in
  let rooted := is_prefix ["/"%char] l in
  let kept := reverse (fold_left (clean_element rooted) (split_at "/" l) []) in
  let res := (if rooted then ["/"%char] else []) ++ join_with "/" kept in
  string_of (if bool_decide (res = []) then ["."%char] else res).

(** [filepath.Join] of two elements. *)
Definition Join (a b : string) : string :=
  if bool_decide (a = EmptyString) then (if bool_decide (b = EmptyString) then EmptyString else Clean b)
  else if bool_decide (b = EmptyString) then Clean a else Clean (a +:+ "/" +:+ b).

(** [filepath.Dir]: all but the last element. *)
Definition Dir (path : string) : string :=
  let es := split_at "/" (chars_of path) in
  let front := take (length es - 1) es in
  Clean (string_of (join_with "/" front ++ if bool_decide (front = []) then [] else ["/"%char])).

Example path_examples :
  Ext "local_test.proto" = ".proto" ∧ Ext "a.b/c" = "" ∧
  Join "../lib" "relay/session.proto" = "../lib/relay/session.proto" ∧ Join "../lib" "." = "../lib" ∧
  Join "/a/.." "../b" = "/b" ∧ Join "a" "../.." = ".." ∧
  Dir "session/transfer/block/block.proto" = "session/transfer/block" ∧ Dir "x.proto" = "." ∧ Dir "/x" = "/".
Proof. by vm_compute. Qed.

(** ** [regexp]: the expressions that the generator uses

    Characters of a class, repeated or not, sequences and groups.  [parses r l]
    are the ways to match a prefix of [l], in the order in which the library
    prefers them: what was matched, the texts of the groups, and the rest. *)

Inductive regex : Type :=
| RClass (f : ascii → bool)
| RMany (greedy : bool) (min : nat) (f : ascii → bool)
| RSeq (r1 r2 : regex)
| RGroup (r : regex).

(** The length of the longest prefix of characters of a class. *)
Fixpoint run_length (f : ascii → bool) (l : chars) : nat :=
  match l with c :: l => if f c then S (run_length f l) else 0%nat | [] => 0%nat end.

Definition parse : Type := chars * list chars * chars.

Fixpoint parses (r : regex) (l : chars) : list parse :=
  match r with
  | RClass f => match l with c :: rest => if f c then [([c], [], rest)] else [] | [] => [] end
  | RMany greedy min f =>
      let n := run_length f l in
      let ks := seq min (S n - min) in
      (λ k, (take k l, [], drop k l)) <$> (if greedy then reverse ks else ks)
  | RSeq r1 r2 =>
      parses r1 l ≫= λ '(m1, g1, rest), (λ '(m2, g2, rest), (m1 ++ m2, g1 ++ g2, rest)) <$> parses r2 rest
  | RGroup r => (λ '(m, g, rest), (m, m :: g, rest)) <$> parses r l
  end.

(** Of an expression that begins with [^]: a match, and the text of the groups. *)
Definition MatchString (r : regex) (text : string) : bool := negb (bool_decide (parses r (chars_of text) = [])).
Definition FindStringSubmatch (r : regex) (text : string) : list string :=
  match parses r (chars_of text) with
  | (m, g, _) :: _ => string_of m :: (string_of <$> g)
  | [] => []
  end.

Definition code (c : ascii) : Z := Z.of_nat (nat_of_ascii c).
Definition upper (c : ascii) : bool := (65 <=? code c) && (code c <=? 90).
Definition underscore (c : ascii) : bool := Ascii.eqb c "_".

(** [[aA-zZ]]: the range from A to z has the underscore, too. *)
Definition letter (c : ascii) : bool := (65 <=? code c) && (code c <=? 122).
Definition upper_or_underscore (c : ascii) : bool := upper c || underscore c.

(** [EnumPattern] *)
Definition EnumPattern : regex :=
  RSeq (RClass (Ascii.eqb "009"%char))
    (RGroup (RSeq (RClass upper) (RSeq (RMany false 0 letter) (RSeq (RMany true 1 underscore)
      (RGroup (RSeq (RClass upper) (RMany true 1 upper_or_underscore))))))).

(** ** [GetEnumRewrites] *)

Record Rewrite : Type := mkRewrite { from : string; to : string }.

Definition Gofmt (r : Rewrite) : string := from r +:+ " -> " +:+ to r.

(** [bufio.Scanner] with [bufio.ScanLines]: a carriage return at the end of a line
    is dropped, and the scan stops at a line of 64 KiB; an empty rest after the
    last newline is no line. *)
Definition MaxScanTokenSize : Z := 65536.
Definition drop_cr (l : chars) : chars :=
  match reverse l with c :: rest => if Ascii.eqb c "013" then reverse rest else l | [] => l end.
Fixpoint scan (lines : list chars) : list string :=
  match lines with
  | [] | [[]] => []
  | l :: lines => if zlen l >=? MaxScanTokenSize then [] else string_of (drop_cr l) :: scan lines
  end.
Definition Scan (content : string) : list string := scan (split_at "010" (chars_of content)).

(** The names of the library [strcase] are a parameter. *)
Fixpoint enum_rewrites (UpperCamelCase : string → string) (inConst : bool) (lines : list string)
  : outcome (list Rewrite) :=
  match lines with
  | [] => Ret []
  | text :: lines =>
      let inConst :=
        if bool_decide (text = "const (") then true else if bool_decide (text = ")") then false else inConst in
      if negb inConst || negb (MatchString EnumPattern text) then enum_rewrites UpperCamelCase inConst lines
      else
        let matches := FindStringSubmatch EnumPattern text in
        a ← index matches 1;
        b ← index matches 2;
        rest ← enum_rewrites UpperCamelCase inConst lines;
        mret (mkRewrite a (UpperCamelCase b) :: rest)
  end.

(** ** The generator *)

Record Test : Type := mkTest { t_Dir : string; t_Name : string }.

(** What the system does: [WalkDir] gives the path and the name of each entry;
    a command runs; a file is read and closed; a file is renamed. *)
Class Tools (W : Type) : Type := {
  WalkDir : M W (list (string * string) * option error);
  Run : list string → M W (option error);
  Open : string → M W (string + error);
  CloseFile : string → M W (option error);
  Rename : string → string → M W (option error)
}.

(** The function that is given to [WalkDir], on one entry. *)
Definition collect (acc : list string * list Test) (e : string * string) : list string * list Test :=
  let '(path, name) := e in
  let ext := Ext name in
  if bool_decide (ext = ProtoExt) then
    let base := TrimSuffix name ext in
    (acc.1 ++ [path],
     if HasSuffix base TestSuffix then acc.2 ++ [mkTest (Dir path) (TrimSuffix base TestSuffix)] else acc.2)
  else acc.

Definition compiler_args (source : list string) : list string :=
  ["--go_opt=module=" +:+ "projekt/core/lib"; "--go_out=" +:+ LibDir; "--go_opt=paths=import";
   "--go-grpc_out=" +:+ LibDir; "--go-grpc_opt=paths=import"] ++ source.

Definition generated (path : string) : string := TrimSuffix (Join LibDir path) ProtoExt +:+ ProtoGenExt.

Definition test_files (t : Test) : string * string :=
  let dir := Join LibDir (t_Dir t) in
  (Join dir (t_Name t +:+ TestSuffix +:+ ProtoGenExt), Join dir (t_Name t +:+ ProtoGenTestExt)).

Section Generator.
Context {W : Type} `{!Tools W} (UpperCamelCase : string → string).

(** [log.Fatal] when there is an error. *)
Definition fatal (message : string) (err : option error) : M W unit :=
  match err with Some _ => throw (Fatal message) | None => mret tt end.

Definition GetEnumRewrites (path : string) : M W (list Rewrite) :=
  file ← Open path;
  match file with
  | inr _ => throw (Fatal "Failed to open file. Is the go_package option correct?")
  | inl content =>
      result ← lift (enum_rewrites UpperCamelCase false (Scan content));
      err ← CloseFile path;
      fatal "Failed to close file" err ;;
      mret result
  end.

Definition rewrite_file (path : string) : M W unit :=
  let path := generated path in
  rewrites ← GetEnumRewrites path;
  for_each rewrites (λ r,
    err ← Run [GoFormat; "-w"; "-r"; Gofmt r; path];
    fatal "Failed to fix enumerations" err).

Definition rename_test (t : Test) : M W unit :=
  let '(src, dst) := test_files t in
  err ← Rename src dst;
  fatal "Failed to rename" err.

Definition main : M W unit :=
  '(entries, err) ← WalkDir;
  fatal "Failed to collect proto files" err ;;
  let '(source, tests) := fold_left collect entries ([], []) in
  err ← Run (ProtoCompiler :: compiler_args source);
  fatal "Failed to generate" err ;;
  for_each source rewrite_file ;;
  for_each tests rename_test.
End Generator.

(** ** The rewrites of a generated file *)

(** The files of this repository. *)
Example repository_files :
  let entries := [(".", "."); ("local", "local"); ("local/message/local.proto", "local.proto"); ("generate.go", "generate.go");
    ("session/session.proto", "session.proto"); ("session/session_test.proto", "session_test.proto");
    ("session/transfer/block/block.proto", "block.proto")] in
  let '(source, tests) := fold_left collect entries ([], []) in
  (generated <$> source) =
    ["../lib/local/message/local.pb.go"; "../lib/session/session.pb.go"; "../lib/session/session_test.pb.go";
     "../lib/session/transfer/block/block.pb.go"] ∧
  (test_files <$> tests) = [("../lib/session/session_test.pb.go", "../lib/session/session.pb_test.go")].
Proof. by vm_compute. Qed.

Example enum_example :
  enum_rewrites (λ s, s) false
    ["type MessageType int32"; "const ("; String "009" "MessageType_MESSAGE_TYPE_HEADER      MessageType = 2";
     String "009" "// a comment"; String "009" "Abort_ABORT_REASON_UNKNOWN Abort_Reason = 0"; ")";
     String "009" "MessageType_MESSAGE_TYPE_BLOCK MessageType = 4"] =
  Ret [mkRewrite "MessageType_MESSAGE_TYPE_HEADER" "MESSAGE_TYPE_HEADER";
       mkRewrite "Abort_ABORT_REASON_UNKNOWN" "ABORT_REASON_UNKNOWN"].
Proof. by vm_compute. Qed.

Lemma run_length_app f l rest :
  Forall (λ c, f c = true) l → match rest with c :: _ => f c = false | [] => True end →
  run_length f (l ++ rest) = length l.
Proof.
  intros H Hr. induction H as [|c l Hc _ IH]; simpl; [|by rewrite Hc, IH].
  destruct rest; [done|]. simpl. by rewrite Hr.
Qed.

Lemma run_length_ge f l rest : Forall (λ c, f c = true) l → (length l ≤ run_length f (l ++ rest))%nat.
Proof. intros H. induction H as [|c l Hc _ IH]; simpl; [lia|]. rewrite Hc. lia. Qed.

(** A greedy repetition takes everything first. *)
Lemma parses_greedy min f l rest :
  Forall (λ c, f c = true) l → match rest with c :: _ => f c = false | [] => True end → (min ≤ length l)%nat →
  ∃ others, parses (RMany true min f) (l ++ rest) = (l, [], rest) :: others.
Proof.
  intros Hl Hr Hm. cbn [parses]. rewrite run_length_app by done.
  replace (S (length l) - min)%nat with ((length l - min) + 1)%nat by lia.
  rewrite seq_app, reverse_app. simpl. replace (min + (length l - min))%nat with (length l) by lia.
  rewrite take_app_length, drop_app_length. eauto.
Qed.

Lemma bind_first {A B} (f : A → list B) l1 x l2 y ys :
  Forall (λ a, f a = []) l1 → f x = y :: ys → ∃ zs, (l1 ++ x :: l2) ≫= f = y :: zs.
Proof.
  intros H Hx. induction H as [|a l1 Ha _ IH]; [rewrite app_nil_l, bind_cons, Hx; simpl; eauto|].
  rewrite <- app_comm_cons, bind_cons, Ha. done.
Qed.

(** A lazy repetition of letters stops at the first underscore, when what comes
    after needs one. *)
Lemma parses_lazy r l rest m g rest' others :
  Forall (λ c, letter c = true ∧ underscore c = false) l →
  (∀ c l', underscore c = false → parses r (c :: l') = []) →
  parses r rest = (m, g, rest') :: others →
  ∃ others', parses (RSeq (RMany false 0 letter) r) (l ++ rest) = (l ++ m, g, rest') :: others'.
Proof.
  intros Hl Hr Hrest. cbn [parses].
  assert (Forall (λ c, letter c = true) l) as Hletter by (eapply Forall_impl; [exact Hl|by intros c []]).
  pose proof (run_length_ge letter l rest Hletter) as Hn.
  replace (S (run_length letter (l ++ rest)) - 0)%nat
    with (length l + S (run_length letter (l ++ rest) - length l))%nat by lia.
  rewrite seq_app, fmap_app. simpl (seq (0 + length l) _). rewrite fmap_cons.
  eapply bind_first; [|simpl; rewrite take_app_length, drop_app_length, Hrest; reflexivity].
  apply Forall_fmap, Forall_forall. intros k Hk%elem_of_seq. simpl.
  assert (is_Some (l !! k)) as [c Hc] by (apply lookup_lt_is_Some; lia).
  rewrite (drop_S (l ++ rest) c k) by (by apply lookup_app_l_Some).
  rewrite Hr; [done|]. by destruct (Forall_lookup_1 _ _ _ _ Hl Hc).
Qed.

Lemma parses_seq r1 r2 l m1 g1 rest others m2 g2 rest2 others2 :
  parses r1 l = (m1, g1, rest) :: others → parses r2 rest = (m2, g2, rest2) :: others2 →
  ∃ others', parses (RSeq r1 r2) l = (m1 ++ m2, g1 ++ g2, rest2) :: others'.
Proof. intros H1 H2. cbn [parses]. rewrite H1, bind_cons, H2. simpl. eauto. Qed.

Lemma parses_group r l m g rest others :
  parses r l = (m, g, rest) :: others → ∃ others', parses (RGroup r) l = (m, m :: g, rest) :: others'.
Proof. intros H. cbn [parses]. rewrite H. simpl. eauto. Qed.

(** A line as the compiler writes it: the name of the enumeration, an underscore
    and the name of the value, which the type and the number follow. *)
Record enum_line (enum value rest : chars) : Prop := {
  el_enum : match enum with c :: l => upper c = true ∧ Forall (λ c, letter c = true ∧ underscore c = false) l | [] => False end;
  el_value : match value with c :: l => upper c = true ∧ Forall (λ c, upper_or_underscore c = true) l ∧ l ≠ [] | [] => False end;
  el_rest : match rest with c :: _ => upper_or_underscore c = false | [] => True end
}.

Lemma enum_parses enum value rest :
  enum_line enum value rest →
  ∃ others, parses EnumPattern ("009"%char :: enum ++ "_"%char :: value ++ rest) =
    ("009"%char :: enum ++ "_"%char :: value, [enum ++ "_"%char :: value; value], rest) :: others.
Proof.
  intros [He Hv Hr]. destruct enum as [|u l]; [done|]. destruct value as [|v vs]; [done|].
  destruct He as [Hu Hl], Hv as (Hv & Hvs & Hne).
  destruct (parses_greedy 1 upper_or_underscore vs rest Hvs Hr) as [o1 H1]; [destruct vs; [done|simpl; lia]|].
  assert (parses (RClass upper) (v :: vs ++ rest) = [([v], [], vs ++ rest)]) as H2 by (simpl; by rewrite Hv).
  destruct (parses_seq _ _ _ _ _ _ _ _ _ _ _ H2 H1) as [o3 H3]. apply parses_group in H3 as [o4 H4].
  destruct (parses_greedy 1 underscore ["_"%char] (v :: vs ++ rest)) as [o5 H5]; [by constructor| |simpl; lia|].
  { destruct (underscore v) eqn:E; [|done]. apply Ascii.eqb_eq in E. by subst v. }
  destruct (parses_seq _ _ _ _ _ _ _ _ _ _ _ H5 H4) as [o6 H6].
  assert (∀ r c l', underscore c = false → parses (RSeq (RMany true 1 underscore) r) (c :: l') = []) as Hneeds.
  { intros r c l' Hc. cbn [parses run_length]. by rewrite Hc. }
  destruct (parses_lazy _ l _ _ _ _ _ Hl (Hneeds _) H6) as [o7 H7].
  assert (∀ l', parses (RClass upper) (u :: l') = [([u], [], l')]) as H8 by (intros l'; simpl; by rewrite Hu).
  destruct (parses_seq _ _ _ _ _ _ _ _ _ _ _ (H8 _) H7) as [o9 H9]. apply parses_group in H9 as [o10 H10].
  unfold EnumPattern. destruct (parses_seq (RClass (Ascii.eqb "009"%char)) _ ("009"%char :: (u :: l) ++ "_"%char :: v :: vs ++ rest)
    _ _ _ _ _ _ _ _ eq_refl H10) as [o11 H11].
  exists o11. rewrite <- !app_comm_cons in *. rewrite H11. done.
Qed.

Lemma chars_of_string_of l : chars_of (string_of l) = l.
Proof. apply String.list_ascii_of_string_of_list_ascii. Qed.

(** Of the lines of a generated file exactly the values in [const] blocks are
    renamed: a line of a value gives the rename of its full name to the name
    that [UpperCamelCase] makes of the part after the enumeration. *)
Theorem enum_rewrite_line (UpperCamelCase : string → string) (enum value rest : chars) (lines : list string) :
  enum_line enum value rest →
  enum_rewrites UpperCamelCase true (string_of ("009"%char :: enum ++ "_"%char :: value ++ rest) :: lines) =
    (r ← enum_rewrites UpperCamelCase true lines;
     mret (mkRewrite (string_of (enum ++ "_"%char :: value)) (UpperCamelCase (string_of value)) :: r)).
Proof.
  intros Hl. destruct (enum_parses enum value rest Hl) as [others Hp].
  cbn [enum_rewrites]. unfold MatchString, FindStringSubmatch. rewrite chars_of_string_of, Hp.
  rewrite (bool_decide_false (string_of _ = "const (")) by done.
  rewrite (bool_decide_false (string_of _ = ")")) by done. simpl. done.
Qed.

Lemma enum_rewrite_line_witness :
  enum_rewrites (λ s, s) true [String "009" "ChannelType_CHANNEL_TYPE_TRANSFER ChannelType = 1"] =
    Ret [mkRewrite "ChannelType_CHANNEL_TYPE_TRANSFER" "CHANNEL_TYPE_TRANSFER"].
Proof.
  apply (enum_rewrite_line (λ s, s) (chars_of "ChannelType") (chars_of "CHANNEL_TYPE_TRANSFER")
    (chars_of " ChannelType = 1") []).
  split; simpl; [| |reflexivity]; (split; [reflexivity|]); [|split; [|discriminate]];
    apply (bool_decide_unpack _); vm_compute; exact I.
Defined.
