(* ===== verification/TestTool.v ===== *)
(** * TestTool: running the tests of a package in both containers ([test.go])

    The tool runs [go test] in the containers alpha and bravo at the same time;
    the output of the first goes to the standard output, that of the others to
    buffers that are written at the end.  Processes and writers are the interface
    [Docker]. *)

From Stdlib Require Import Ascii.
From S2P Require Import Prelude GoSem.

Local Open Scope Z_scope.

Definition Command : string := "docker-compose".
Definition containers : list string := ["alpha"; "bravo"].

Definition getBaseArgs : list string := ["-f"; "docker-compose.test.yml"; "exec"; "-T"; "--"].

Definition getKillArgs (container : string) : list string := getBaseArgs ++ [container; "pkill"; "go"].

Definition getRunArgs (container pkg run : string) : list string :=
  let res := getBaseArgs ++ [container; "go"; "test"; "-v"; "-tags=container"; "-count=1"; "./lib/" +:+ pkg] in
  if negb (bool_decide (run = EmptyString)) then (res ++ ["-run"]) ++ [run] else res.

(** A command: the arguments, and the writer of its output. *)
Record cmd : Type := mkCmd { c_args : list string; c_out : nat }.

Definition run (container pkg run : string) (out : nat) : cmd :=
  mkCmd (Command :: getRunArgs container pkg run) out.

(** Writer 0 is the standard output, writer [i + 1] the buffer [i].  [Cmd_String]
    is [cmd.String()]. *)
Class Docker (W : Type) : Type := {
  Cmd_String : list string → string;
  Cmd_Run : list string → M W (option error);
  Cmd_Start : cmd → M W (option error);
  Cmd_Wait : cmd → M W (option error);
  Write : nat → string → M W (option error);
  Bytes : nat → M W string
}.

Section Main.
Context {W : Type} `{!Docker W}.

Definition fatal_if (message : string) (err : option error) : M W unit :=
  match err with Some _ => throw (Fatal message) | None => mret tt end.

(** [writeOutputs(buffers)]: the buffers are the writers from 1 on. *)
Definition writeOutputs (buffers : list nat) : M W unit :=
  for_each buffers (λ buf,
    text ← Bytes buf;
    err ← Write 0 text;
    fatal_if "failed to write command output" err).

(** The body of the loop that starts the commands. *)
Definition start (pkg rn : string) (i : nat) (container : string) : M W unit :=
  let c := run container pkg rn i in
  let prefix := if (i =? 0)%nat then EmptyString else String "010" EmptyString in
  let title := prefix +:+ "+ " +:+ Cmd_String (c_args c) +:+ String "010" EmptyString in
  err ← Write i title;
  fatal_if "failed to write title:" err ;;
  err ← Cmd_Start c;
  fatal_if "failed to run command:" err.

(** [args] are the arguments without the name of the program.  The goroutines
    that wait for the commands end before the outputs are written; their errors
    are logged. *)
Definition main (args : list string) : M W unit :=
  match args with
  | [pkg] | [pkg; _] =>
      let rn := match args with [_; rn] => rn | _ => EmptyString end in
      for_each containers (λ container, Cmd_Run (Command :: getKillArgs container) ;; mret tt) ;;
      for_each (imap pair containers) (λ '(i, container), start pkg rn i container) ;;
      for_each (imap pair containers) (λ '(i, container), Cmd_Wait (run container pkg rn i) ;; mret tt) ;;
      writeOutputs (seq 1 (length containers - 1))
  | _ => throw (Fatal "need one or two arguments: name of package to test + optional method to run")
  end.
End Main.

Lemma append_assoc (s1 s2 s3 : string) : (s1 +:+ s2) +:+ s3 = s1 +:+ (s2 +:+ s3).
Proof. induction s1 as [|c s1 IH]; [reflexivity|]. exact (f_equal (String c) IH). Qed.

(** ** The output

    A world in which the process with given arguments writes [output] of them. *)
Section Output.
Context (cmd_string : list string → string) (output : list string → string) (kill : list string → option error)
  (wait : list string → option error).

(** What was written to the writers, the first one is the standard output. *)
#[local] Instance world : Docker (list string) := {|
  Cmd_String := cmd_string;
  Cmd_Run args w := (Ret (kill args), w);
  Cmd_Start c w := (Ret None, alter (λ t, t +:+ output (c_args c)) (c_out c) w);
  Cmd_Wait c w := (Ret (wait (c_args c)), w);
  Write i text w := (Ret None, alter (λ t, t +:+ text) i w);
  Bytes i w := (Ret (default EmptyString (w !! i)), w)
|}.

(** The outputs of the containers follow each other, each with its command line,
    whatever the results of the commands are. *)
Theorem test_outputs (pkg : string) (rn : option string) :
  let line (c : string) := Command :: getRunArgs c pkg (default EmptyString rn) in
  let newline := String "010" EmptyString in
  ∃ w, main (pkg :: option_list rn) [EmptyString; EmptyString] = (Ret tt, w) ∧
    w !! 0%nat = Some ("+ " +:+ cmd_string (line "alpha") +:+ newline +:+ output (line "alpha") +:+
      newline +:+ "+ " +:+ cmd_string (line "bravo") +:+ newline +:+ output (line "bravo")).
Proof.
  intros line newline. unfold line, newline.
  destruct rn as [rn|]; eexists; (split; [cbv -[String.append getRunArgs Command]; reflexivity|]);
    cbn [lookup list_lookup]; f_equal; rewrite !append_assoc; reflexivity.
Qed.
End Output.

(** Without a package, and with more than two arguments, nothing is run. *)
Lemma test_usage {W} `{!Docker W} (args : list string) (w : W) :
  (length args = 0 ∨ 2 < length args)%nat → ∃ p, main args w = (Panic p, w).
Proof. intros H. destruct args as [|a [|b [|c args]]]; simpl in *; try lia; by eexists. Qed.
